(* ===== verification/_CoqProject ===== *)
-Q . S2P
Prelude.v
BTreeMap.v
KeyCode.v
KeyCodeClaims.v
Engine.v
KeyStore.v
Memory.v
BitCask.v
Bincode.v
Mvcc.v
MvccKeys.v
MvccDb.v
MvccOps.v
MvccInv.v
MvccScan.v
MvccSpec.v
MvccSI.v
MvccClaims.v
RaftLog.v
RaftLogSpec.v
RaftLogClaims.v
RaftNode.v
RaftVote.v
RaftStep.v
RaftCluster.v
RaftClaims.v
SqlTypes.v
SqlExpression.v
SqlRewrite.v
SqlClaims.v
SqlSchema.v
SqlKeys.v
SqlKv.v
SqlStore.v
SqlIntegrity.v
SqlWrites.v
SqlCatalog.v
SqlMvcc.v
SqlPlan.v
SqlExec.v
SqlAggregate.v
SqlExecutor.v
SqlJoin.v
SqlSort.v
SqlGroup.v
SqlAst.v
SqlLexer.v
SqlParser.v
SqlPlanner.v
SqlSession.v
SqlRaft.v
SqlValid.v
SqlTyping.v
SqlStatements.v
SqlPlanSafe.v
SqlLexSpec.v
SqlParserSpec.v
SqlGrammar.v
SqlPrint.v
SqlStatementPrint.v
SqlParserClaims.v
SqlSample.v
SqlDisplay.v
SqlKvClaims.v
SqlExecClaims.v
SqlSessionClaims.v
SqlPushdown.v
SqlOptClaims.v
SqlRaftSpec.v
RaftSingle.v
Server.v
SqlCodecs.v
SqlRaftClaims.v
DbClient.v
ServerSpec.v
ServerRoute.v
ServerClaims.v
Dump.v
Rasql.v
Workload.v
