(* ===== verification/Prelude.v ===== *)
(** A verification of RaDB, a distributed SQL database written in Rust
    (src/src): its storage, its replication, its SQL layer from the text of a
    query to the stored bytes, and the server and client around them.

    * The program

    A key/value engine stores byte strings in key order (src/src/storage: the
    trait in engine.rs, implemented by memory.rs and bitcask.rs and wrapped by
    debug.rs).  Two clients use engines.  MVCC (storage/mvcc.rs) gives
    transactions with snapshot isolation on one; its keys are encoded so that
    byte order is key order (encoding/keycode.rs).  The Raft log (raft/log.rs)
    keeps entries, the vote and the commit index on another; Raft nodes
    (raft/node) exchange messages, elect leaders and replicate the log, and apply
    committed commands to a state machine.

    The SQL layer (src/src/sql) parses a query (parser/), plans it against the
    catalog and optimizes the plan (plan/), and executes the plan (execution/)
    in a transaction of an SQL engine (engine/): the one over MVCC keeps schemas,
    rows and indexes as key/value pairs (engine/kv.rs); the one over Raft
    (engine/raft.rs) sends its calls as commands that Raft replicates and applies
    to an engine over MVCC on each node.  A session (engine/mod.rs) runs
    statements, each in a transaction of its own unless one is open.

    A server (server.rs) routes messages between its Raft node, the nodes of
    other servers and its SQL sessions, one for each connected client; a client
    (client.rs) sends requests to a session and reads the responses, both encoded
    on a byte stream (encoding/bincode.rs).  Programs around it (bin/) run SQL
    that is typed, dump a database file, and generate load.

    * The files: storage and replication

    - [Prelude]: errors, results and panics (error.rs), the state-and-error
      monad [M], checked machine arithmetic, bytes, big-endian integers, orders,
      shared lemmas.
    - [BTreeMap]: the ordered map of the standard library as a sorted list.
    - [KeyCode], [KeyCodeClaims]: keycode.rs.  A serde implementation is an
      instance of [KeyType]; [KeyLaws] is what a lawful one satisfies.
    - [Engine]: the engine trait (class [Engine]) and its contract (class
      [EngineLaws]: a sorted map that each operation reads or updates).
      [KeyStore]: engines used with typed keys.  [Memory]: memory.rs and
      debug.rs.  [BitCask]: bitcask.rs; a file is its bytes.
    - [Bincode]: encoding/bincode.rs, with the bincode crate as a parameter
      (classes [Bincode] and [Stream], whose laws are round trips).
    - [Mvcc]: mvcc.rs.  [MvccKeys], [MvccDb], [MvccOps], [MvccInv], [MvccScan]:
      what an engine's bytes mean and what each operation does to it.
      [MvccSpec]: the abstract snapshot-isolation machine.  [MvccSI]: the
      refinement.  [MvccClaims]: its consequences.
    - [RaftLog]: log.rs.  [RaftLogSpec]: the log as a list of entries, and each
      operation on it.  [RaftLogClaims]: runs of the log.
    - [RaftNode]: message.rs, state.rs and node/; a method of a node with a role
      is a computation that returns the role it ends with.  [RaftVote],
      [RaftStep]: what a step does to term, vote and messages.  [RaftCluster]:
      clusters as a step relation, their invariant, and an executable scheduler.
      [RaftClaims]: elections, commitment, and runs that go wrong.
      [RaftSingle]: a cluster of one node, and the service [Machine] it gives.

    * The files: SQL

    - Values and expressions.  [SqlTypes]: types/mod.rs and 64-bit arithmetic.
      [SqlExpression]: types/expression.rs, and the expression rewrites of
      plan/optimizer.rs.  [SqlRewrite]: refinement between expressions.
      [SqlClaims]: evaluation, normal forms, folding, lookups.  [SqlValid]:
      values stay in their 64-bit formats.  [SqlTyping]: types of expressions.
    - Tables.  [SqlSchema]: schema.rs.  [SqlKeys], [SqlKv]: the keys and the
      engine of engine/kv.rs, over the key/value interface [KvStore].
      [SqlStore]: the typed view of what is stored, the laws [KvLaws] of the
      interface, and the program logic [runs].  [SqlIntegrity]: the invariant of
      a database.  [SqlWrites], [SqlCatalog]: each write preserves it.
      [SqlMvcc]: MVCC transactions discharge [KvLaws].  [SqlKvClaims].
    - Plans and execution.  [SqlPlan]: plan/mod.rs and the plan optimizers.
      [SqlExec], [SqlAggregate], [SqlExecutor]: execution/.  [SqlJoin],
      [SqlSort], [SqlGroup]: the executors against reference definitions.
      [SqlStatements]: executing a plan preserves integrity.  [SqlPushdown],
      [SqlOptClaims]: the optimizers that move filters into scans and scans into
      lookups.  [SqlExecClaims].
    - Text.  [SqlAst], [SqlLexer], [SqlParser]: parser/.  [SqlLexSpec]: UTF-8
      and the lexer.  [SqlParserSpec]: the logic [parses], and termination.
      [SqlGrammar]: the grammar of expressions as a relation, and that the parser
      reads it.  [SqlPrint], [SqlStatementPrint], [SqlParserClaims]: text of
      expressions and statements, read back.  [SqlDisplay]: the Display
      implementations of values, expressions, schemas and plans.
    - Planning.  [SqlPlanner]: plan/planner.rs.  [SqlPlanSafe]: the plans that
      it makes and the optimizers keep safe to execute, and the fuel of plan and
      tree transformations.
    - Sessions.  [SqlSession]: engine/mod.rs and the struct KV of engine/kv.rs.
      [SqlSessionClaims]: statements are atomic.  [SqlSample]: the parameters
      instantiated, and a small database.
    - [SqlRaft], [SqlRaftSpec], [SqlRaftClaims]: engine/raft.rs.  [SqlCodecs]:
      codecs for everything that is sent or logged.

    * The files: server, client and programs

    - [Server]: the protocol, a session ([sql_session]), and the router: [route]
      is an iteration of the loop of raft_route, for the event that it selects.
      [DbClient]: client.rs; the other end of its connection is a parameter.
    - [ServerSpec]: a client connected to a session.  [ServerRoute]: the logic
      [addr] of the messages that a node sends, and the router; a server without
      peers ([serving]).  [ServerClaims].
    - [Dump]: the formatting of debug.rs, and radump.rs.  [Rasql]: rasql.rs over
      the calls of a client (class [Calls]), the specification of what it shows
      (relations [reply], [transcript] and [shows]), the calls of a connected
      client against those of its session, and the input validator.  [Workload]:
      workload.rs, over the same class.

    * What is shown

    Storage: key encodings decode and keep the order; BitCask answers as the
    memory engine, survives reopening and torn writes, and compaction keeps its
    contents; an entry at the documented limits of its key and value overflows its
    length; prefix scans are exact.  MVCC: every history returns what a
    snapshot-isolation machine returns, on every lawful engine, so on both;
    conflicts, time travel and scans follow.  Raft: the log is the list it
    documents, at most one leader per term in any run of a cluster with an
    unreliable network and restarting nodes, one vote per term, commitment by a
    strict majority in the leader's term.

    SQL: the writes of the engine insert, replace and remove exactly the row
    they are given, and keep typed rows, unique columns, foreign keys and
    indexes; so does any sequence of query texts in a session, each of which
    takes effect as a whole or not at all, on an engine that accepts every write
    and for tables with distinct column names and no floats as keys. Joins,
    ordering and aggregation return what their reference definitions do; the
    optimizers keep the rows of a plan (a lookup of primary keys, when its keys
    are distinct); evaluation of a typed expression stays in its type and in
    range. The parser returns for every text, and reads every statement back
    from its text; a schema shown as a statement is planned as the same schema,
    where its names and defaults need no quotes that the code leaves out. The
    engine over Raft answers as the engine over MVCC it replicates, but for a
    scan with an error, which fails as a whole; a restart of its state machine
    loses nothing.

    Server and client: a client gets what its session answers, request by
    request, and knows whether a transaction is open, unless a commit or
    rollback fails; the router delivers every message that its node sends, and
    each response to the request that it belongs to, once. A server without
    peers leads from the start and answers every request, as its state machine
    does for the log so far, until the state machine fails on one, which stops
    the server; so the SQL engine above it gets what it gets from the state
    machine itself.

    Programs: the SQL client prints, for any lines that are typed, the transcript
    that the relation [shows] of [Rasql] gives for the answers of the session, and
    takes every line that ends in a semicolon; a dump has a line
    for each live key, and tells keys apart; the batches of the write workload
    are parsed as they were meant.

    Some theorems show behaviour that departs from what the code documents;
    their comments say so.

    * Conventions and bounds

    Integers are N or Z with the operations of their width: an overflow panics,
    as under overflow checks; for the entry length of BitCask, which the
    documented sizes can overflow, the operations of a build without checks are
    modelled beside them ([write_entry_wrapping], [cask_set_wrapping]). A panic
    is the outcome [Panic] of [res]. Error messages are their template and
    arguments, not the text. An iterator is the list of the items it yields,
    each a result, so that an error counts only when its item is reached. Sets
    and maps that the source iterates in hash order are lists in the order of
    insertion, or in one fixed order. Hashing NULL recurses without end in the
    source, and is a panic here.

    Fuel: loops over a file or an iterator take the number of bytes or items,
    tree rewrites the size or the depth of the tree, the parser one unit more
    than the query has characters; out of fuel is a panic.  [SqlParserSpec]
    proves the parser's to be enough for every text, [SqlPlanSafe] that of plan
    and tree transformations, and the theorems that state a result prove the
    others where they arise.  A Raft step calls itself at most once more.

    The claims about Raft clusters assume that engines accept every write (as
    the memory engine does) and treat a step of a node as atomic: a step that
    fails leaves the cluster as it was, and the node may then restart.

    Code outside the repository is a parameter with its documented contract as
    a class: bincode ([Bincode], and [Stream] for values on a stream), regular
    expressions ([Regex]), libm ([Libm]), the tables of Unicode ([Unicode]), word
    characters and the text of floats ([Formatting], [Fixed]), hex ([Hex]), and
    the channel of the Raft client ([Client]).  Random numbers (election timeouts,
    waits of a client, request ids, the draws of workloads) and the lines that the
    terminal returns are arguments.

    * What is not modelled

    The operating system's I/O failures, file locks and paths; threads,
    accept loops and reconnecting of the server; the arguments and configuration
    of the programs (all of radb.rs), line editing, and the threads and statistics
    of the workload runner; the text of error messages and of floats.

    Left for a later version: log matching between Raft nodes under the
    conditions that the findings on splicing leave; the optimizers on the two
    sides of a join; sessions with explicit transactions. *)
From Stdlib Require Import Strings.Byte NArith ZArith Lia Floats.SpecFloat.
From stdpp Require Import base decidable countable list gmap strings.

Declare Scope radb_scope.
Delimit Scope radb_scope with radb.
Open Scope radb_scope.
Open Scope N_scope.

(** * Errors and results (src/src/error.rs) *)

(** An argument of a formatted message.  Messages are kept as their format
    template and its arguments; the text the [Display] and [Debug] machinery of
    the language renders from them is not. *)
Inductive fmt_arg :=
| FNum (n : N)
| FInt (z : Z)
| FBytes (b : list byte)
| FText (s : string)
| FFloat (f : spec_float).

Record message := Msg { template : string; arguments : list fmt_arg }.

(** [radb::Error]. *)
Inductive Error :=
| EAbort
| EConfig (m : message)
| EInternal (m : message)
| EParse (m : message)
| EReadOnly
| ESerialization
| EValue (m : message).

(** [Result<T>], plus the outcome of a Rust [panic!] ([assert!], [unwrap],
    arithmetic overflow under overflow checks, indexing out of range). *)
Inductive res (A : Type) :=
| Ok (a : A)
| Err (e : Error)
| Panic (why : string).
Arguments Ok {A} a.
Arguments Err {A} e.
Arguments Panic {A} why.

(** A computation on a mutable state: the state survives an error, since the
    Rust code mutates it in place and returns the error with [?]. *)
Definition M (S A : Type) : Type := S → res A * S.

Definition M_run {S A} (m : M S A) (s : S) : res A * S := m s.

#[export] Instance res_ret : MRet res := λ A a, Ok a.
#[export] Instance res_bind : MBind res := λ A B f r,
  match r with Ok a => f a | Err e => Err e | Panic w => Panic w end.
#[export] Instance res_fmap : FMap res := λ A B f r,
  match r with Ok a => Ok (f a) | Err e => Err e | Panic w => Panic w end.

#[export] Instance M_ret {S} : MRet (M S) := λ A a s, (Ok a, s).
#[export] Instance M_bind {S} : MBind (M S) := λ A B f m s,
  match m s with
  | (Ok a, s') => f a s'
  | (Err e, s') => (Err e, s')
  | (Panic w, s') => (Panic w, s')
  end.

(** Lifts a result into a computation that leaves the state alone. *)
Definition lift {S A} (r : res A) : M S A := λ s, (r, s).

(** Runs a computation for every element of a list, in order ([for x in xs]). *)
Fixpoint for_each {S A} (xs : list A) (f : A → M S unit) : M S unit :=
  match xs with
  | [] => mret tt
  | x :: xs => f x ≫= λ _, for_each xs f
  end.

(** [collect::<Result<Vec<_>>>()]: the first error wins. *)
Fixpoint collect {A} (rs : list (res A)) : res (list A) :=
  match rs with
  | [] => Ok []
  | r :: rs => x ← r; xs ← collect rs; Ok (x :: xs)
  end.

(** * Machine integers *)

Definition u8_max : N := 255.
Definition u32_max : N := 4294967295.
Definition u64_max : N := 18446744073709551615.

(** Checked arithmetic: overflow panics, as in builds with overflow checks. *)
Definition add_u64 (a b : N) : res N :=
  if decide (a + b ≤ u64_max) then Ok (a + b) else Panic "attempt to add with overflow".
Definition add_u32 (a b : N) : res N :=
  if decide (a + b ≤ u32_max) then Ok (a + b) else Panic "attempt to add with overflow".
Definition sub_u64 (a b : N) : res N :=
  if decide (b ≤ a) then Ok (a - b) else Panic "attempt to subtract with overflow".

(** * Bytes *)

#[export] Instance byte_eq_dec : EqDecision byte := Byte.byte_eq_dec.

Definition b2n (b : byte) : N := Byte.to_N b.
Definition n2b (n : N) : byte :=
  match Byte.of_N (n mod 256) with Some b => b | None => x00 end.

#[export] Instance byte_countable : Countable byte.
Proof.
  apply (inj_countable b2n (λ n, Some (n2b n))).
  intros []; reflexivity.
Defined.

(** Big-endian bytes of a [w]-byte unsigned integer ([to_be_bytes]) and back
    ([from_be_bytes]). *)
Fixpoint to_be (w : nat) (n : N) : list byte :=
  match w with
  | O => []
  | S w => n2b (n / 256 ^ N.of_nat w) :: to_be w (n mod 256 ^ N.of_nat w)
  end.
Definition of_be (bs : list byte) : N :=
  foldl (λ acc b, acc * 256 + b2n b) 0 bs.

(** * Comparisons *)

(** [Ord] for slices: lexicographic. *)
Fixpoint list_cmp {A} (cmp : A → A → comparison) (xs ys : list A) : comparison :=
  match ys, xs with
  | [], [] => Eq
  | [], _ :: _ => Gt
  | _ :: _, [] => Lt
  | y :: ys, x :: xs => match cmp x y with Eq => list_cmp cmp xs ys | c => c end
  end.

Definition byte_cmp (a b : byte) : comparison := b2n a ?= b2n b.
Definition bytes_cmp : list byte → list byte → comparison := list_cmp byte_cmp.

(** What the code relies on in an [Ord] instance. *)
Class OrdLaws {A} (cmp : A → A → comparison) : Prop := {
  cmp_antisym : ∀ x y, cmp y x = CompOpp (cmp x y);
  cmp_trans : ∀ lo mid hi, cmp lo mid = Lt → cmp mid hi = Lt → cmp lo hi = Lt;
  cmp_eq : ∀ x y, cmp x y = Eq ↔ x = y
}.

(** * Generic lemmas *)

Create HintDb radb.

Lemma b2n_lt b : b2n b < 256.
Proof. pose proof (Byte.to_N_bounded b). unfold b2n. lia. Qed.

Lemma n2b_b2n b : n2b (b2n b) = b.
Proof. by destruct b. Qed.

Lemma b2n_n2b n : b2n (n2b n) = n mod 256.
Proof.
  unfold n2b, b2n. destruct (Byte.of_N (n mod 256)) as [b|] eqn:E.
  - by apply Byte.to_of_N.
  - apply Byte.of_N_None_iff in E.
    pose proof (N.mod_lt n 256). lia.
Qed.

Lemma b2n_n2b_small n : n < 256 → b2n (n2b n) = n.
Proof. intros. rewrite b2n_n2b. by apply N.mod_small. Qed.

#[export] Instance b2n_inj : Inj (=) (=) b2n.
Proof. intros x y H. by rewrite <-(n2b_b2n x), <-(n2b_b2n y), H. Qed.

Lemma length_to_be w n : length (to_be w n) = w.
Proof. revert n. induction w; intros; simpl; [done|]. by rewrite IHw. Qed.

Lemma of_be_acc bs acc :
  foldl (λ acc b, acc * 256 + b2n b) acc bs = acc * 256 ^ N.of_nat (length bs) + of_be bs.
Proof.
  unfold of_be. revert acc. induction bs as [|b bs IH]; intros acc; simpl; [lia|].
  rewrite (IH (acc * 256 + b2n b)), (IH (0 * 256 + b2n b)).
  rewrite Nat2N.inj_succ, N.pow_succ_r'. lia.
Qed.

Lemma of_be_cons b bs : of_be (b :: bs) = b2n b * 256 ^ N.of_nat (length bs) + of_be bs.
Proof. unfold of_be at 1. simpl. rewrite of_be_acc. lia. Qed.

Lemma of_be_lt bs : of_be bs < 256 ^ N.of_nat (length bs).
Proof.
  induction bs as [|b bs IH]; [vm_compute; done|].
  rewrite of_be_cons. pose proof (b2n_lt b).
  cbn [length]. rewrite Nat2N.inj_succ, N.pow_succ_r'. nia.
Qed.

Lemma of_to_be w n : n < 256 ^ N.of_nat w → of_be (to_be w n) = n.
Proof.
  revert n. induction w as [|w IH]; intros n Hn.
  - change (256 ^ N.of_nat 0) with 1 in Hn. by assert (n = 0) as -> by lia.
  - cbn [to_be]. rewrite of_be_cons, length_to_be, IH.
    2:{ apply N.mod_lt. apply N.pow_nonzero. lia. }
    rewrite Nat2N.inj_succ, N.pow_succ_r' in Hn.
    rewrite b2n_n2b_small.
    2:{ apply N.Div0.div_lt_upper_bound. lia. }
    rewrite N.mul_comm. symmetry. apply N.Div0.div_mod.
Qed.

Lemma to_of_be bs : to_be (length bs) (of_be bs) = bs.
Proof.
  induction bs as [|b bs IH]; [done|].
  cbn [length to_be]. rewrite of_be_cons.
  pose proof (of_be_lt bs) as Hlt.
  assert (256 ^ N.of_nat (length bs) ≠ 0) by (apply N.pow_nonzero; lia).
  rewrite N.div_add_l, (N.div_small (of_be bs)), N.add_0_r by done.
  rewrite n2b_b2n. f_equal.
  rewrite (N.add_comm (_ * _)), N.Div0.mod_add, N.mod_small; done.
Qed.

(** ** Orders *)

#[export] Instance N_ord : OrdLaws N.compare.
Proof.
  split.
  - intros. apply N.compare_antisym.
  - intros lo mid hi. rewrite !N.compare_lt_iff. lia.
  - intros. apply N.compare_eq_iff.
Qed.

#[export] Instance Z_ord : OrdLaws Z.compare.
Proof.
  split.
  - intros. apply Z.compare_antisym.
  - intros lo mid hi. rewrite !Z.compare_lt_iff. lia.
  - intros. apply Z.compare_eq_iff.
Qed.

#[export] Instance byte_ord : OrdLaws byte_cmp.
Proof.
  unfold byte_cmp. split.
  - intros. apply N.compare_antisym.
  - intros lo mid hi. rewrite !N.compare_lt_iff. lia.
  - intros x y. rewrite N.compare_eq_iff. split; [apply (inj b2n)|by intros ->].
Qed.

Lemma cmp_refl `{OrdLaws A cmp} x : cmp x x = Eq.
Proof. by apply cmp_eq. Qed.

Lemma cmp_gt `{OrdLaws A cmp} x y : cmp x y = Gt ↔ cmp y x = Lt.
Proof. rewrite (cmp_antisym (cmp:=cmp) x y). destruct (cmp x y); simpl; naive_solver. Qed.

Lemma cmp_le_trans `{OrdLaws A cmp} x y z :
  cmp x y ≠ Gt → cmp y z ≠ Gt → cmp x z ≠ Gt.
Proof.
  intros Hxy Hyz.
  destruct (cmp x y) eqn:E1; [apply cmp_eq in E1 as ->; done| |done].
  destruct (cmp y z) eqn:E2; [apply cmp_eq in E2 as <-; by rewrite E1| |done].
  by rewrite (cmp_trans _ _ _ E1 E2).
Qed.

Lemma cmp_lt_le_trans `{OrdLaws A cmp} x y z :
  cmp x y = Lt → cmp y z ≠ Gt → cmp x z = Lt.
Proof.
  intros Hxy Hyz. destruct (cmp y z) eqn:E; [|by eapply cmp_trans|done].
  by apply cmp_eq in E as <-.
Qed.

Lemma cmp_le_lt_trans `{OrdLaws A cmp} x y z :
  cmp x y ≠ Gt → cmp y z = Lt → cmp x z = Lt.
Proof.
  intros Hxy Hyz. destruct (cmp x y) eqn:E; [|by eapply cmp_trans|done].
  by apply cmp_eq in E as ->.
Qed.

Section list_cmp_laws.
Context {A : Type} (cmp : A → A → comparison) `{!OrdLaws cmp}.

Lemma list_cmp_eq xs ys : list_cmp cmp xs ys = Eq ↔ xs = ys.
Proof.
  revert ys. induction xs as [|x xs IH]; intros [|y ys]; simpl; try done.
  destruct (cmp x y) eqn:E.
  - apply cmp_eq in E as ->. rewrite IH. split; [by intros ->|by intros [= ->]].
  - split; [done|]. intros [= -> ->]. by rewrite cmp_refl in E.
  - split; [done|]. intros [= -> ->]. by rewrite cmp_refl in E.
Qed.

Lemma list_cmp_antisym xs ys : list_cmp cmp ys xs = CompOpp (list_cmp cmp xs ys).
Proof.
  revert ys. induction xs as [|x xs IH]; intros [|y ys]; simpl; try done.
  rewrite (cmp_antisym (cmp:=cmp) x y). destruct (cmp x y); simpl; [apply IH|done|done].
Qed.

Lemma list_cmp_trans xs ys zs :
  list_cmp cmp xs ys = Lt → list_cmp cmp ys zs = Lt → list_cmp cmp xs zs = Lt.
Proof.
  revert ys zs. induction xs as [|x xs IH]; intros [|y ys] [|z zs]; simpl; try done.
  destruct (cmp x y) eqn:E1; [apply cmp_eq in E1 as ->| |done];
    destruct (cmp y z) eqn:E2; try done.
  - apply IH.
  - apply cmp_eq in E2 as ->. by rewrite E1.
  - by rewrite (cmp_trans _ _ _ E1 E2).
Qed.

#[export] Instance list_ord : OrdLaws (list_cmp cmp).
Proof. split; [apply list_cmp_antisym|apply list_cmp_trans|apply list_cmp_eq]. Qed.

Lemma list_cmp_app_same p xs ys :
  list_cmp cmp (p ++ xs) (p ++ ys) = list_cmp cmp xs ys.
Proof. induction p as [|a p IH]; simpl; [done|]. by rewrite cmp_refl. Qed.

Lemma list_cmp_prefix p ys : list_cmp cmp p (p ++ ys) ≠ Gt.
Proof.
  rewrite <-(app_nil_r p) at 1. rewrite list_cmp_app_same. by destruct ys.
Qed.
End list_cmp_laws.

#[export] Instance bytes_ord : OrdLaws bytes_cmp := list_ord byte_cmp.

Lemma list_cmp_app_r {A} (cmp : A → A → comparison) xs ys s t :
  length xs = length ys → list_cmp cmp xs ys ≠ Eq →
  list_cmp cmp (xs ++ s) (ys ++ t) = list_cmp cmp xs ys.
Proof.
  revert ys. induction xs as [|x xs IH]; intros [|y ys] Hl Hne; simpl in *; try done.
  destruct (cmp x y); try done. apply IH; [lia|done].
Qed.

(** Big-endian encodings of equal width order like the integers. *)
Lemma to_be_cmp w a b :
  a < 256 ^ N.of_nat w → b < 256 ^ N.of_nat w →
  bytes_cmp (to_be w a) (to_be w b) = (a ?= b).
Proof.
  revert a b. induction w as [|w IH]; intros a b Ha Hb.
  - change (256 ^ N.of_nat 0) with 1 in *. by assert (a = 0 ∧ b = 0) as [-> ->] by lia.
  - rewrite Nat2N.inj_succ, N.pow_succ_r' in Ha, Hb.
    set (p := 256 ^ N.of_nat w) in *.
    assert (p ≠ 0) by (apply N.pow_nonzero; lia).
    unfold bytes_cmp. cbn [to_be list_cmp]. fold p.
    unfold byte_cmp at 1. rewrite !b2n_n2b_small
      by (apply N.Div0.div_lt_upper_bound; rewrite N.mul_comm; done).
    pose proof (N.Div0.div_mod a p). pose proof (N.Div0.div_mod b p).
    pose proof (N.mod_lt a p ltac:(done)). pose proof (N.mod_lt b p ltac:(done)).
    destruct (N.compare_spec (a / p) (b / p)) as [E|E|E];
      [fold bytes_cmp; rewrite IH by done| |];
      generalize dependent (a / p); generalize dependent (b / p);
      generalize dependent (a mod p); generalize dependent (b mod p); intros; subst.
    + match goal with |- (?x ?= ?y) = (?u ?= ?v) =>
        destruct (N.compare_spec x y), (N.compare_spec u v); try done; lia end.
    + symmetry. apply N.compare_lt_iff. nia.
    + symmetry. apply N.compare_gt_iff. nia.
Qed.

(** ** Lists *)

(** A list whose elements are all images is the image of a list. *)
Lemma Forall_image {A B} (f : B → A) (Q : B → Prop) (l : list A) :
  Forall (λ x, ∃ y, x = f y ∧ Q y) l → ∃ ys, l = List.map f ys ∧ Forall Q ys.
Proof.
  induction 1 as [|x l (y & -> & Hy) _ (ys & -> & Hys)].
  - exists []. by split.
  - exists (y :: ys). split; [done|]. by constructor.
Qed.

Lemma filter_none {A} (P : A → Prop) `{∀ x, Decision (P x)} (l : list A) :
  (∀ x, x ∈ l → ¬ P x) → filter P l = [].
Proof.
  induction l as [|x l IH]; intros Hl; [done|].
  rewrite filter_cons_False by (apply Hl, list_elem_of_here).
  apply IH. intros y Hy. by apply Hl, list_elem_of_further.
Qed.
Lemma filter_id {A} (P : A → Prop) `{∀ x, Decision (P x)} (l : list A) :
  (∀ x, x ∈ l → P x) → filter P l = l.
Proof.
  induction l as [|x l IH]; intros Hl; [done|].
  rewrite filter_cons_True by (apply Hl, list_elem_of_here). f_equal.
  apply IH. intros y Hy. apply Hl. by apply list_elem_of_further.
Qed.

Lemma elem_of_map {A B} (f : A → B) (l : list A) y : y ∈ List.map f l ↔ ∃ x, y = f x ∧ x ∈ l.
Proof. rewrite list_elem_of_In, in_map_iff. setoid_rewrite list_elem_of_In. split; intros (x & ? & ?); by exists x. Qed.

Lemma last_map {A B} (f : A → B) (l : list A) : last (List.map f l) = f <$> last l.
Proof.
  induction l as [|x l IH] using rev_ind; [done|].
  rewrite map_app. cbn [List.map]. by rewrite !last_snoc.
Qed.

Lemma reverse_map {A B} (f : A → B) (l : list A) : reverse (List.map f l) = List.map f (reverse l).
Proof. symmetry. apply (fmap_reverse f l). Qed.

(** ** The monads *)

Lemma collect_Ok {A} (xs : list A) : collect (List.map Ok xs) = Ok xs.
Proof. induction xs as [|x xs IH]; [done|]. cbn [List.map collect]. by rewrite IH. Qed.

Lemma M_bind_Ok {S A B} (m : M S A) (f : A → M S B) s a s' :
  m s = (Ok a, s') → (m ≫= f) s = f a s'.
Proof. unfold mbind, M_bind. by intros ->. Qed.

Lemma M_bind_Ok_inv {S A B} (m : M S A) (f : A → M S B) s b s' :
  (m ≫= f) s = (Ok b, s') → ∃ a s1, m s = (Ok a, s1) ∧ f a s1 = (Ok b, s').
Proof.
  unfold mbind, M_bind. destruct (m s) as [[a|e|w] s1] eqn:E; intros; simplify_eq; eauto.
Qed.

Lemma res_bind_Ok_inv {A B} (r : res A) (f : A → res B) b :
  r ≫= f = Ok b → ∃ a, r = Ok a ∧ f a = Ok b.
Proof. destruct r; simpl; intros; simplify_eq; eauto. Qed.

Lemma add_u64_Ok a b n : add_u64 a b = Ok n ↔ n = a + b ∧ a + b ≤ u64_max.
Proof. unfold add_u64. case_decide; split; intros; destruct_and?; simplify_eq; done. Qed.

Arguments to_be : simpl never.
Arguments of_be : simpl never.
