(* ===== verification/BTreeMap.v ===== *)
(** Ordered maps: the part of [std::collections::BTreeMap] and
    [std::ops::RangeBounds] that the storage engines use.  A map is the list of
    its entries in strictly increasing key order; the order is the key type's
    [Ord] instance, passed as a comparison function with its laws. *)
From Stdlib Require Import Sorting.Sorted.
From stdpp Require Import base list strings.
From S2P Require Import Prelude.

(** [std::ops::Bound]. *)
Inductive Bound (A : Type) :=
| Included (a : A)
| Excluded (a : A)
| Unbounded.
Arguments Included {A} a.
Arguments Excluded {A} a.
Arguments Unbounded {A}.

Section operations.
Context {K V : Type} (cmp : K → K → comparison).

Fixpoint bt_get (k : K) (m : list (K * V)) : option V :=
  match m with
  | [] => None
  | (k', v) :: m => match cmp k k' with Eq => Some v | _ => bt_get k m end
  end.

Fixpoint bt_insert (k : K) (v : V) (m : list (K * V)) : list (K * V) :=
  match m with
  | [] => [(k, v)]
  | (k', v') :: m' =>
      match cmp k k' with
      | Lt => (k, v) :: m
      | Eq => (k', v) :: m'
      | Gt => (k', v') :: bt_insert k v m'
      end
  end.

Fixpoint bt_remove (k : K) (m : list (K * V)) : list (K * V) :=
  match m with
  | [] => []
  | (k', v') :: m' =>
      match cmp k k' with Eq => m' | _ => (k', v') :: bt_remove k m' end
  end.

Definition above (b : Bound K) (k : K) : bool :=
  match b with
  | Included a => match cmp a k with Gt => false | _ => true end
  | Excluded a => match cmp a k with Lt => true | _ => false end
  | Unbounded => true
  end.

Definition below (b : Bound K) (k : K) : bool :=
  match b with
  | Included a => match cmp k a with Gt => false | _ => true end
  | Excluded a => match cmp k a with Lt => true | _ => false end
  | Unbounded => true
  end.

Definition in_range (r : Bound K * Bound K) (k : K) : bool :=
  above r.1 k && below r.2 k.

(** [BTreeMap::range] panics when the range starts after it ends, or is empty
    with both ends excluded. *)
Definition range_valid (r : Bound K * Bound K) : bool :=
  match r with
  | (Excluded a, Excluded b) => match cmp a b with Lt => true | _ => false end
  | (Included a, Included b) | (Included a, Excluded b) | (Excluded a, Included b) =>
      match cmp a b with Gt => false | _ => true end
  | _ => true
  end.

Definition bt_range (r : Bound K * Bound K) (m : list (K * V)) : res (list (K * V)) :=
  if range_valid r then Ok (List.filter (λ kv, in_range r kv.1) m)
  else Panic "range start is greater than range end in BTreeMap".

(** The invariant of a map. *)
Definition key_lt (x y : K * V) : Prop := cmp x.1 y.1 = Lt.
Definition bt_sorted (m : list (K * V)) : Prop := StronglySorted key_lt m.
End operations.

Section lemmas.
Context {K V : Type} (cmp : K → K → comparison) `{!OrdLaws cmp}.
Implicit Types (m : list (K * V)) (k : K) (v : V).

Local Abbreviation get := (bt_get cmp).
Local Abbreviation insert := (bt_insert cmp).
Local Abbreviation remove := (bt_remove cmp).
Local Abbreviation sorted := (bt_sorted cmp).

Lemma sorted_cons_inv x m :
  sorted (x :: m) → sorted m ∧ Forall (λ y, cmp x.1 y.1 = Lt) m.
Proof. intros H. inversion H; subst. split; [done|]. done. Qed.

Lemma bt_get_elem k v m : get k m = Some v → (k, v) ∈ m.
Proof.
  induction m as [|[k' v'] m IH]; simpl; [done|].
  destruct (cmp k k') eqn:E; intros; simplify_eq.
  - apply cmp_eq in E as ->. apply list_elem_of_here.
  - apply list_elem_of_further; auto.
  - apply list_elem_of_further; auto.
Qed.

Lemma bt_get_below k m : Forall (λ y, cmp k y.1 = Lt) m → get k m = None.
Proof.
  induction m as [|[k' v'] m IH]; [done|]. intros [H1 H2]%Forall_cons.
  simpl in *. rewrite H1. auto.
Qed.

Lemma bt_elem_get k v m : sorted m → (k, v) ∈ m → get k m = Some v.
Proof.
  induction m as [|[k' v'] m IH]; simpl; intros Hs Hin; [by apply not_elem_of_nil in Hin|].
  apply sorted_cons_inv in Hs as [Hs Hlt].
  apply elem_of_cons in Hin as [Heq|Hin].
  - simplify_eq. by rewrite cmp_refl.
  - rewrite Forall_forall in Hlt. specialize (Hlt _ Hin). simpl in Hlt.
    destruct (cmp k k') eqn:E; [|auto..].
    apply cmp_eq in E as ->. by rewrite cmp_refl in Hlt.
Qed.

Lemma bt_get_spec k v m : sorted m → get k m = Some v ↔ (k, v) ∈ m.
Proof. intros Hs. split; [apply bt_get_elem|by apply bt_elem_get]. Qed.

Lemma bt_insert_Forall (P : K * V → Prop) k v m :
  (∀ k' v', k' = k → P (k', v)) → Forall P m → Forall P (insert k v m).
Proof.
  intros Hk. induction m as [|[k' v'] m IH]; simpl; intros H.
  - constructor; auto.
  - apply Forall_cons in H as [H1 H2].
    destruct (cmp k k') eqn:E; repeat constructor; auto.
    apply cmp_eq in E as ->. auto.
Qed.

Lemma bt_remove_Forall (P : K * V → Prop) k m : Forall P m → Forall P (remove k m).
Proof.
  induction m as [|[k' v'] m IH]; simpl; intros H; [done|].
  apply Forall_cons in H as [H1 H2]. destruct (cmp k k'); try constructor; auto.
Qed.

Lemma bt_insert_sorted k v m : sorted m → sorted (insert k v m).
Proof.
  induction m as [|[k' v'] m IH]; simpl; intros Hs; [repeat constructor|].
  pose proof Hs as Hs0. apply sorted_cons_inv in Hs as [Hs Hlt].
  destruct (cmp k k') eqn:E.
  - constructor; done.
  - constructor; [done|]. constructor; [done|].
    eapply Forall_impl; [exact Hlt|]. simpl. intros y Hy. by eapply cmp_trans.
  - constructor; [by apply IH|]. apply bt_insert_Forall; [|done].
    intros ? _ ->. by apply cmp_gt.
Qed.

Lemma bt_remove_sorted k m : sorted m → sorted (remove k m).
Proof.
  induction m as [|[k' v'] m IH]; simpl; intros Hs; [done|].
  apply sorted_cons_inv in Hs as [Hs Hlt].
  destruct (cmp k k'); [done|constructor; [by apply IH|by apply bt_remove_Forall]..].
Qed.

Lemma bt_get_insert k k' v m :
  sorted m → get k' (insert k v m) = match cmp k' k with Eq => Some v | _ => get k' m end.
Proof.
  induction m as [|[k0 v0] m IH]; simpl; intros Hs; [by destruct (cmp k' k)|].
  apply sorted_cons_inv in Hs as [Hs Hlt].
  destruct (cmp k k0) eqn:E; simpl.
  - apply cmp_eq in E as ->. by destruct (cmp k' k0).
  - by destruct (cmp k' k).
  - destruct (cmp k' k0) eqn:E'; [|by rewrite IH..].
    apply cmp_eq in E' as ->. apply cmp_gt in E. by rewrite E.
Qed.

Lemma bt_get_insert_eq k v m : sorted m → get k (insert k v m) = Some v.
Proof. intros. rewrite bt_get_insert by done. by rewrite cmp_refl. Qed.

Lemma bt_get_insert_ne k k' v m : sorted m → k ≠ k' → get k' (insert k v m) = get k' m.
Proof.
  intros Hs Hne. rewrite bt_get_insert by done.
  destruct (cmp k' k) eqn:E; [|done..]. by apply cmp_eq in E as ->.
Qed.

Lemma bt_get_remove k k' m :
  sorted m → get k' (remove k m) = match cmp k' k with Eq => None | _ => get k' m end.
Proof.
  induction m as [|[k0 v0] m IH]; simpl; intros Hs; [by destruct (cmp k' k)|].
  apply sorted_cons_inv in Hs as [Hs Hlt].
  destruct (cmp k k0) eqn:E; simpl.
  - apply cmp_eq in E as ->. destruct (cmp k' k0) eqn:E'; [|done..].
    apply cmp_eq in E' as ->. by apply bt_get_below.
  - rewrite IH by done. destruct (cmp k' k) eqn:E'; [|done..].
    apply cmp_eq in E' as ->. by rewrite E.
  - rewrite IH by done. destruct (cmp k' k) eqn:E'; [|done..].
    apply cmp_eq in E' as ->. by rewrite E.
Qed.

Lemma bt_get_remove_eq k m : sorted m → get k (remove k m) = None.
Proof. intros. rewrite bt_get_remove by done. by rewrite cmp_refl. Qed.

Lemma bt_get_remove_ne k k' m : sorted m → k ≠ k' → get k' (remove k m) = get k' m.
Proof.
  intros Hs Hne. rewrite bt_get_remove by done.
  destruct (cmp k' k) eqn:E; [|done..]. by apply cmp_eq in E as ->.
Qed.

(** Two maps with the same lookups are the same list. *)
Lemma bt_ext m1 m2 :
  sorted m1 → sorted m2 → (∀ k, get k m1 = get k m2) → m1 = m2.
Proof.
  revert m2. induction m1 as [|[k1 v1] m1 IH]; intros [|[k2 v2] m2] Hs1 Hs2 Hget.
  - done.
  - specialize (Hget k2). simpl in Hget. by rewrite cmp_refl in Hget.
  - specialize (Hget k1). simpl in Hget. by rewrite cmp_refl in Hget.
  - apply sorted_cons_inv in Hs1 as [Hs1 Hl1], Hs2 as [Hs2 Hl2]. simpl in *.
    assert (k1 = k2) as ->.
    { pose proof (Hget k1) as H1. pose proof (Hget k2) as H2.
      rewrite !cmp_refl in H1, H2.
      destruct (cmp k1 k2) eqn:E; [by apply cmp_eq in E| |].
      - rewrite bt_get_below in H1; [done|].
        eapply Forall_impl; [exact Hl2|]. intros ? ?. by eapply cmp_trans.
      - apply cmp_gt in E. rewrite E in H2. rewrite bt_get_below in H2; [done|].
        eapply Forall_impl; [exact Hl1|]. intros ? ?. by eapply cmp_trans. }
    assert (v1 = v2) as ->.
    { specialize (Hget k2). rewrite cmp_refl in Hget. by simplify_eq. }
    f_equal. apply IH; [done..|]. intros k. specialize (Hget k).
    destruct (cmp k k2) eqn:E; [|done..].
    apply cmp_eq in E as ->. by rewrite !bt_get_below.
Qed.

Lemma filter_sorted (P : K * V → bool) m : sorted m → sorted (List.filter P m).
Proof.
  induction m as [|x m IH]; simpl; intros Hs; [done|].
  apply sorted_cons_inv in Hs as [Hs Hlt].
  destruct (P x); [|by apply IH]. constructor; [by apply IH|].
  rewrite Forall_forall in Hlt |- *. intros y Hy. apply Hlt.
  rewrite list_elem_of_In in Hy |- *. by apply filter_In in Hy as [].
Qed.

Lemma elem_of_filter_bool {A} (P : A → bool) (l : list A) x :
  x ∈ List.filter P l ↔ x ∈ l ∧ P x = true.
Proof. rewrite !list_elem_of_In. apply filter_In. Qed.

Lemma sorted_NoDup m : sorted m → NoDup m.*1.
Proof.
  induction m as [|[k v] m IH]; intros Hs; [constructor|].
  apply sorted_cons_inv in Hs as [Hs Hlt]. rewrite fmap_cons. apply NoDup_cons.
  split; [|auto].
  rewrite list_elem_of_fmap. intros ([k' v'] & Hk & Hin). simpl in Hk. subst k'.
  rewrite Forall_forall in Hlt. specialize (Hlt _ Hin). simpl in Hlt.
  by rewrite cmp_refl in Hlt.
Qed.

(** Inserting a key above all others appends it. *)
Lemma bt_insert_last k v m :
  Forall (λ x, cmp x.1 k = Lt) m → insert k v m = m ++ [(k, v)].
Proof.
  induction 1 as [|[k' v'] m Hk Hm IH]; simpl; [done|]. simpl in Hk.
  rewrite (proj2 (cmp_gt k k') Hk). by rewrite IH.
Qed.

Lemma sorted_app_inv m1 m2 :
  sorted (m1 ++ m2) →
  sorted m1 ∧ sorted m2 ∧ ∀ x y, x ∈ m1 → y ∈ m2 → cmp x.1 y.1 = Lt.
Proof.
  induction m1 as [|x m1 IH]; simpl; intros Hs.
  - split; [constructor|]. split; [done|]. intros x y Hx. by apply not_elem_of_nil in Hx.
  - apply sorted_cons_inv in Hs as [(H1 & H2 & H3)%IH Hlt].
    apply Forall_app in Hlt as [Hl1 Hl2].
    split; [by constructor|]. split; [done|].
    intros x' y [->|Hx]%elem_of_cons Hy; [|auto].
    rewrite Forall_forall in Hl2. auto.
Qed.
End lemmas.

(** Mapping the values of a map, keys unchanged. *)
Section map_values.
Context {K V W : Type} (cmp : K → K → comparison) (f : V → W).
Implicit Types (m : list (K * V)) (k : K) (v : V).

Definition map_values (m : list (K * V)) : list (K * W) :=
  List.map (λ kv, (kv.1, f kv.2)) m.

Lemma bt_get_map k m : bt_get cmp k (map_values m) = f <$> bt_get cmp k m.
Proof. induction m as [|[k' v'] m IH]; simpl; [done|]. by destruct (cmp k k'). Qed.

Lemma bt_insert_map k v m :
  map_values (bt_insert cmp k v m) = bt_insert cmp k (f v) (map_values m).
Proof.
  induction m as [|[k' v'] m IH]; simpl; [done|].
  destruct (cmp k k'); simpl; [done..|]. by rewrite IH.
Qed.

Lemma bt_remove_map k m : map_values (bt_remove cmp k m) = bt_remove cmp k (map_values m).
Proof.
  induction m as [|[k' v'] m IH]; simpl; [done|].
  destruct (cmp k k'); simpl; [done|by rewrite IH..].
Qed.

Lemma filter_map_values (P : K → bool) m :
  List.filter (λ kv, P kv.1) (map_values m) = map_values (List.filter (λ kv, P kv.1) m).
Proof.
  induction m as [|[k' v'] m IH]; simpl; [done|]. destruct (P k'); simpl; by rewrite IH.
Qed.

Lemma map_values_sorted m : bt_sorted cmp m → bt_sorted cmp (map_values m).
Proof.
  induction m as [|[k' v'] m IH]; simpl; intros Hs; [constructor|].
  apply sorted_cons_inv in Hs as [Hs Hlt]. constructor; [by apply IH|].
  unfold map_values. apply Forall_map. eapply Forall_impl; [exact Hlt|]. done.
Qed.
End map_values.

#[export] Hint Resolve bt_insert_sorted bt_remove_sorted filter_sorted : radb.
