(* ===== verification/KeyCode.v ===== *)
(** KeyCode, the order-preserving key encoding (src/src/encoding/keycode.rs).

    The serializer and the deserializer are the two records of the source, and
    each of their supported primitive methods is a definition under its own
    name, a computation on that record.  What serde derives for a key type is
    written with these methods; the class [KeyType] packages such a type, and
    [KeyLaws] states what the code relies on: encoding appends a fixed
    byte string, decoding inverts it whatever follows, decoding accepts nothing
    else, and the byte order is the order of the values. *)
From Stdlib Require Import Strings.Byte NArith ZArith Lia.
From stdpp Require Import base list strings.
From S2P Require Import Prelude.

(** * Bit operations on bytes *)

Definition byte_xor (a b : byte) : byte := n2b (N.lxor (b2n a) (b2n b)).
Definition byte_and (a b : byte) : byte := n2b (N.land (b2n a) (b2n b)).
Definition byte_not (a : byte) : byte := byte_xor a xff.

(** [bytes[0] ^= 1 << 7]. *)
Definition flip_sign (bs : list byte) : list byte :=
  match bs with [] => [] | b :: bs => byte_xor b (n2b (N.shiftl 1 7)) :: bs end.

(** * Integers and floats as their 64 bits *)

(** [i64] and its two's complement bits. *)
Definition i64_min : Z := (-9223372036854775808)%Z.
Definition i64_max : Z := 9223372036854775807%Z.
Definition i64_valid (z : Z) : Prop := (i64_min ≤ z ≤ i64_max)%Z.
Definition i64_bits (z : Z) : N := Z.to_N (z mod 18446744073709551616)%Z.
Definition i64_of_bits (n : N) : Z :=
  if decide (n < 9223372036854775808) then Z.of_N n
  else (Z.of_N n - 18446744073709551616)%Z.

(** An [f64] is its bit pattern.  [f64_rank] maps a pattern to an integer whose
    order is the IEEE 754 total order: by sign, then by magnitude. *)
Definition f64_rank (bits : N) : Z :=
  if decide (bits < 9223372036854775808) then Z.of_N bits
  else (9223372036854775807 - Z.of_N bits)%Z.
Definition f64_cmp (a b : N) : comparison := Z.compare (f64_rank a) (f64_rank b).

(** * The serializer *)

Record Serializer := { output : list byte }.

Definition extend (bs : list byte) : M Serializer unit :=
  λ s, (Ok tt, {| output := output s ++ bs |}).

Definition serialize_bool (v : bool) : M Serializer unit :=
  extend [if v then x01 else x00].

Definition serialize_i64 (v : Z) : M Serializer unit :=
  extend (flip_sign (to_be 8 (i64_bits v))).

Definition serialize_u64 (v : N) : M Serializer unit :=
  extend (to_be 8 v).

Definition serialize_f64 (v : N) : M Serializer unit :=
  let bytes := to_be 8 v in
  match bytes with
  | [] => extend []
  | b :: _ =>
      if decide (byte_and b (n2b (N.shiftl 1 7)) = x00)
      then extend (flip_sign bytes)
      else extend (byte_not <$> bytes)
  end.

Definition escape (b : byte) : list byte :=
  if decide (b = x00) then [x00; xff] else [b].

Definition serialize_bytes (v : list byte) : M Serializer unit :=
  extend ((v ≫= escape) ++ [x00; x00]).

Definition serialize_str (v : list byte) : M Serializer unit :=
  serialize_bytes v.

Definition serialize_unit_variant (index : N) : M Serializer unit :=
  if decide (index ≤ u8_max) then extend [n2b index]
  else lift (Err (EValue (Msg "out of range integral type conversion attempted" []))).

(** * The deserializer *)

Record Deserializer := { input : list byte }.

Definition take_bytes (len : nat) : M Deserializer (list byte) := λ d,
  if decide (length (input d) < len)%nat then
    (Err (EInternal (Msg "Insufficient bytes, expected {} bytes for {:x?}"
            [FNum (N.of_nat len); FBytes (input d)])), d)
  else (Ok (take len (input d)), {| input := drop len (input d) |}).

(** The loop of [decode_next_bytes]: [i] is the position of the iterator, and
    the result is the decoded bytes with the number of bytes taken. *)
Fixpoint decode_loop (bs : list byte) (i : nat) (decoded : list byte)
    : res (list byte * nat) :=
  match bs with
  | [] => Err (EValue (Msg "Unexpected end of input" []))
  | b :: bs =>
      if decide (b = x00) then
        match bs with
        | c :: bs' =>
            if decide (c = x00) then Ok (decoded, S (S i))
            else if decide (c = xff) then decode_loop bs' (S (S i)) (decoded ++ [x00])
            else Err (EValue (Msg "Invalid escape sequence" []))
        | [] => Err (EValue (Msg "Invalid escape sequence" []))
        end
      else decode_loop bs (S i) (decoded ++ [b])
  end.

Definition decode_next_bytes : M Deserializer (list byte) := λ d,
  match decode_loop (input d) 0 [] with
  | Ok (decoded, taken) => (Ok decoded, {| input := drop taken (input d) |})
  | Err e => (Err e, d)
  | Panic w => (Panic w, d)
  end.

Definition deserialize_bool : M Deserializer bool :=
  bs ← take_bytes 1;
  lift match bs with
       | [b] =>
           if decide (b = x00) then Ok false
           else if decide (b = x01) then Ok true
           else Err (EInternal (Msg "Invalid boolean value {:?}" [FNum (b2n b)]))
       | _ => Panic "index out of bounds"
       end.

Definition deserialize_i64 : M Deserializer Z :=
  bs ← take_bytes 8;
  mret (i64_of_bits (of_be (flip_sign bs))).

Definition deserialize_u64 : M Deserializer N :=
  bs ← take_bytes 8;
  mret (of_be bs).

Definition deserialize_f64 : M Deserializer N :=
  bs ← take_bytes 8;
  lift match bs with
       | b :: _ =>
           if decide (N.land (N.shiftr (b2n b) 7) 1 = 1)
           then Ok (of_be (flip_sign bs))
           else Ok (of_be (byte_not <$> bs))
       | [] => Panic "index out of bounds"
       end.

Definition deserialize_bytes : M Deserializer (list byte) := decode_next_bytes.

(** [str::from_utf8]: well-formed UTF-8 sequences (Unicode table 3-7). *)
Definition between (lo b hi : N) : bool := (lo <=? b) && (b <=? hi).
Definition continuation (b : byte) : bool := between 128 (b2n b) 191.
Fixpoint utf8_valid (bs : list byte) : bool :=
  match bs with
  | [] => true
  | b0 :: r =>
      let n := b2n b0 in
      if n <=? 127 then utf8_valid r
      else if between 194 n 223 then
        match r with
        | b1 :: r => continuation b1 && utf8_valid r
        | _ => false
        end
      else if between 224 n 239 then
        match r with
        | b1 :: b2 :: r =>
            (if n =? 224 then between 160 (b2n b1) 191
             else if n =? 237 then between 128 (b2n b1) 159
             else continuation b1)
            && continuation b2 && utf8_valid r
        | _ => false
        end
      else if between 240 n 244 then
        match r with
        | b1 :: b2 :: b3 :: r =>
            (if n =? 240 then between 144 (b2n b1) 191
             else if n =? 244 then between 128 (b2n b1) 143
             else continuation b1)
            && continuation b2 && continuation b3 && utf8_valid r
        | _ => false
        end
      else false
  end.

Definition from_utf8 (bs : list byte) : res (list byte) :=
  if utf8_valid bs then Ok bs
  else Err (EInternal (Msg "invalid utf-8 sequence" [FBytes bs])).

Definition deserialize_str : M Deserializer (list byte) :=
  bs ← decode_next_bytes;
  lift (from_utf8 bs).

(** [EnumAccess::variant_seed]: the variant index, one byte. *)
Definition variant_index : M Deserializer N :=
  bs ← take_bytes 1;
  lift match bs with [b] => Ok (b2n b) | _ => Panic "index out of bounds" end.

(** What a derived [Deserialize] answers to an index with no variant. *)
Definition unknown_variant {A} (index count : N) : M Deserializer A :=
  lift (Err (EInternal (Msg "invalid value: integer `{}`, expected variant index 0 <= i < {}"
    [FNum index; FNum count]))).

(** [SeqAccess::next_element_seed]: [None] when the input is exhausted. *)
Definition next_element {A} (element : M Deserializer A) : M Deserializer (option A) := λ d,
  match input d with
  | [] => (Ok None, d)
  | _ => let '(r, d') := element d in (Some <$> r, d')
  end.

(** A field of a derived tuple visitor: a missing element is an error. *)
Definition field {A} (position : N) (element : M Deserializer A) : M Deserializer A :=
  o ← next_element element;
  lift match o with
       | Some a => Ok a
       | None => Err (EInternal (Msg "invalid length {}" [FNum position]))
       end.

(** The visitor of a [Vec]: elements until the input is exhausted.  An element
    that consumes nothing would loop forever, so the loop carries fuel; the
    length of the input is enough for every element type that consumes input. *)
Fixpoint visit_seq {A} (fuel : nat) (element : M Deserializer A)
    : M Deserializer (list A) :=
  match fuel with
  | O => λ d, match input d with [] => (Ok [], d) | _ => (Panic "no progress", d) end
  | S fuel =>
      o ← next_element element;
      match o with
      | None => mret []
      | Some a => xs ← visit_seq fuel element; mret (a :: xs)
      end
  end.

Definition deserialize_seq {A} (element : M Deserializer A) : M Deserializer (list A) :=
  λ d, visit_seq (length (input d)) element d.

(** * Key types *)

(** A type with derived [Serialize] and [Deserialize] implementations, the
    values KeyCode supports, and its [Ord]. *)
Class KeyType (A : Type) := {
  encode_key : A → M Serializer unit;
  decode_key : M Deserializer A;
  key_valid : A → Prop;
  key_cmp : A → A → comparison;
  key_bytes : A → list byte
}.

Class KeyLaws (A : Type) `{KeyType A} : Prop := {
  key_encode a s : key_valid a →
    encode_key a s = (Ok tt, {| output := output s ++ key_bytes a |});
  key_decode a r : key_valid a →
    decode_key {| input := key_bytes a ++ r |} = (Ok a, {| input := r |});
  key_decode_exact a i r : decode_key {| input := i |} = (Ok a, r) →
    key_valid a ∧ i = key_bytes a ++ input r;
  key_order a b r s : key_valid a → key_valid b →
    bytes_cmp (key_bytes a ++ r) (key_bytes b ++ s)
    = match key_cmp a b with Eq => bytes_cmp r s | c => c end;
  key_cmp_eq a b : key_cmp a b = Eq → a = b;
  key_nonempty a : key_bytes a ≠ []
}.

(** [keycode::serialize] and [keycode::deserialize]. *)
Definition serialize `{KeyType A} (key : A) : res (list byte) :=
  match encode_key key {| output := [] |} with
  | (Ok _, serializer) => Ok (output serializer)
  | (Err e, _) => Err e
  | (Panic w, _) => Panic w
  end.

Definition deserialize `{KeyType A} (bs : list byte) : res A :=
  match decode_key {| input := bs |} with
  | (Ok t, deserializer) =>
      match input deserializer with
      | [] => Ok t
      | rest => Err (EInternal (Msg "Unexpected trailing bytes {:x?} at end of key {:x?}"
                  [FBytes rest; FBytes bs]))
      end
  | (Err e, _) => Err e
  | (Panic w, _) => Panic w
  end.

(** The primitive key types. *)
Definition bool_key : KeyType bool := {|
  encode_key := serialize_bool; decode_key := deserialize_bool;
  key_valid := λ _, True;
  key_cmp := λ a b, N.compare (if a then 1 else 0) (if b then 1 else 0);
  key_bytes := λ v, [if v then x01 else x00] |}.

Definition u64_key : KeyType N := {|
  encode_key := serialize_u64; decode_key := deserialize_u64;
  key_valid := λ v, v ≤ u64_max; key_cmp := N.compare;
  key_bytes := to_be 8 |}.

Definition i64_key : KeyType Z := {|
  encode_key := serialize_i64; decode_key := deserialize_i64;
  key_valid := i64_valid; key_cmp := Z.compare;
  key_bytes := λ v, flip_sign (to_be 8 (i64_bits v)) |}.

(** The integer an [f64] pattern is encoded as. *)
Definition f64_image (bits : N) : N :=
  if decide (bits < 9223372036854775808) then bits + 9223372036854775808
  else u64_max - bits.

Definition f64_key : KeyType N := {|
  encode_key := serialize_f64; decode_key := deserialize_f64;
  key_valid := λ v, v ≤ u64_max; key_cmp := f64_cmp;
  key_bytes := λ v, to_be 8 (f64_image v) |}.

Definition bytes_key : KeyType (list byte) := {|
  encode_key := serialize_bytes; decode_key := deserialize_bytes;
  key_valid := λ _, True; key_cmp := bytes_cmp;
  key_bytes := λ v, (v ≫= escape) ++ [x00; x00] |}.

Definition str_key : KeyType (list byte) := {|
  encode_key := serialize_str; decode_key := deserialize_str;
  key_valid := λ v, utf8_valid v = true; key_cmp := bytes_cmp;
  key_bytes := λ v, (v ≫= escape) ++ [x00; x00] |}.

(** A pair of fields: a 2-tuple, or the contents of a 2-field variant. *)
Definition pair_key {A B} (a : KeyType A) (b : KeyType B) : KeyType (A * B) := {|
  encode_key := λ '(x, y), encode_key x ≫= λ _, encode_key y;
  decode_key := x ← field 0 decode_key; y ← field 1 decode_key; mret (x, y);
  key_valid := λ '(x, y), key_valid x ∧ key_valid y;
  key_cmp := λ '(x, y) '(x', y'), match key_cmp x x' with Eq => key_cmp y y' | c => c end;
  key_bytes := λ '(x, y), key_bytes x ++ key_bytes y |}.

(** * Lemmas on the bit tricks *)

Lemma b2n_byte_not b : b2n (byte_not b) = 255 - b2n b.
Proof. by destruct b. Qed.

Lemma byte_not_involutive b : byte_not (byte_not b) = b.
Proof. by destruct b. Qed.

Lemma flip_sign_involutive bs : flip_sign (flip_sign bs) = bs.
Proof. destruct bs as [|b bs]; simpl; [done|]. f_equal. by destruct b. Qed.

Lemma length_flip_sign bs : length (flip_sign bs) = length bs.
Proof. by destruct bs. Qed.

Lemma fmap_not_involutive (bs : list byte) : byte_not <$> (byte_not <$> bs) = bs.
Proof.
  rewrite <-list_fmap_compose. induction bs as [|b bs IH]; simpl; [done|].
  unfold compose. rewrite byte_not_involutive. f_equal. exact IH.
Qed.

(** Flipping the top bit of a byte moves it by 128, modulo 256. *)
Lemma b2n_flip b :
  b2n (byte_xor b (n2b (N.shiftl 1 7)))
  = if decide (b2n b < 128) then b2n b + 128 else b2n b - 128.
Proof. by destruct b. Qed.

Lemma sign_clear b : byte_and b (n2b (N.shiftl 1 7)) = x00 ↔ b2n b < 128.
Proof. destruct b; vm_compute; split; intros; congruence. Qed.

Lemma sign_set b : N.land (N.shiftr (b2n b) 7) 1 = 1 ↔ 128 ≤ b2n b.
Proof. destruct b; vm_compute; split; intros; congruence. Qed.

Lemma of_be_flip_sign b bs :
  of_be (flip_sign (b :: bs))
  = if decide (b2n b < 128) then of_be (b :: bs) + 128 * 256 ^ N.of_nat (length bs)
    else of_be (b :: bs) - 128 * 256 ^ N.of_nat (length bs).
Proof.
  cbn [flip_sign]. rewrite !of_be_cons, b2n_flip.
  generalize (of_be bs), (256 ^ N.of_nat (length bs)). intros x p.
  case_decide; nia.
Qed.

Lemma of_be_not (bs : list byte) : of_be (byte_not <$> bs) = 256 ^ N.of_nat (length bs) - 1 - of_be bs.
Proof.
  induction bs as [|b bs IH]; [done|].
  rewrite fmap_cons, !of_be_cons, length_fmap, IH, b2n_byte_not.
  pose proof (of_be_lt bs). pose proof (b2n_lt b).
  cbn [length]. rewrite Nat2N.inj_succ, N.pow_succ_r'.
  generalize dependent (256 ^ N.of_nat (length bs)). generalize dependent (of_be bs).
  intros; nia.
Qed.

(** The encodings as big-endian integers. *)
Lemma eight_bytes_eq bs n : length bs = 8%nat → of_be bs = n → bs = to_be 8 n.
Proof. intros Hl <-. rewrite <-Hl. symmetry. apply to_of_be. Qed.

Lemma to_be_8_head n : n ≤ u64_max →
  ∃ b bs, to_be 8 n = b :: bs ∧ length bs = 7%nat ∧ of_be (b :: bs) = n ∧
    (b2n b < 128 ↔ n < 9223372036854775808).
Proof.
  intros Hn. destruct (to_be 8 n) as [|b bs] eqn:E; [done|].
  pose proof (length_to_be 8 n) as Hl. rewrite E in Hl. simpl in Hl.
  assert (length bs = 7%nat) as Hl7 by lia.
  exists b, bs. split; [done|]. split; [done|].
  assert (of_be (b :: bs) = n) as Heq.
  { rewrite <-E. apply of_to_be. change (256 ^ N.of_nat 8) with 18446744073709551616.
    unfold u64_max in Hn. lia. }
  split; [done|]. rewrite of_be_cons, Hl7 in Heq.
  pose proof (of_be_lt bs) as Hlt. rewrite Hl7 in Hlt.
  change (256 ^ N.of_nat 7) with 72057594037927936 in *. lia.
Qed.

Lemma flip_sign_to_be n : n ≤ u64_max →
  flip_sign (to_be 8 n)
  = to_be 8 (if decide (n < 9223372036854775808) then n + 9223372036854775808
             else n - 9223372036854775808).
Proof.
  intros Hn. destruct (to_be_8_head n Hn) as (b & bs & -> & Hl & Heq & Hsign).
  apply eight_bytes_eq; [by rewrite length_flip_sign; simpl; rewrite Hl|].
  rewrite of_be_flip_sign, Heq, Hl.
  change (128 * 256 ^ N.of_nat 7) with 9223372036854775808.
  repeat case_decide; tauto.
Qed.

Lemma not_to_be n : n ≤ u64_max → byte_not <$> to_be 8 n = to_be 8 (u64_max - n).
Proof.
  intros Hn. apply eight_bytes_eq; [by rewrite length_fmap, length_to_be|].
  rewrite of_be_not, length_to_be, of_to_be; [done|].
  change (256 ^ N.of_nat 8) with 18446744073709551616. unfold u64_max in Hn. lia.
Qed.

(** * Laws of the primitives *)

Ltac key_simpl :=
  cbn [encode_key decode_key key_valid key_cmp key_bytes bool_key u64_key i64_key
       f64_key bytes_key str_key pair_key output input].

Lemma take_bytes_app n bs r : length bs = n →
  take_bytes n {| input := bs ++ r |} = (Ok bs, {| input := r |}).
Proof.
  intros <-. unfold take_bytes. cbn [input]. rewrite decide_False.
  - by rewrite take_app_length, drop_app_length.
  - rewrite length_app. lia.
Qed.

Lemma take_bytes_Ok n d bs d' : take_bytes n d = (Ok bs, d') →
  length bs = n ∧ input d = bs ++ input d'.
Proof.
  unfold take_bytes. case_decide; intros; simplify_eq. cbn [input].
  rewrite length_take, take_drop. split; [lia|done].
Qed.

Lemma to_be_order w a b r s :
  a < 256 ^ N.of_nat w → b < 256 ^ N.of_nat w →
  bytes_cmp (to_be w a ++ r) (to_be w b ++ s)
  = match a ?= b with Eq => bytes_cmp r s | c => c end.
Proof.
  intros Ha Hb. destruct (a ?= b) eqn:E.
  - apply N.compare_eq_iff in E as ->. apply list_cmp_app_same, _.
  - unfold bytes_cmp. rewrite list_cmp_app_r; rewrite ?length_to_be;
      fold bytes_cmp; rewrite ?to_be_cmp; congruence.
  - unfold bytes_cmp. rewrite list_cmp_app_r; rewrite ?length_to_be;
      fold bytes_cmp; rewrite ?to_be_cmp; congruence.
Qed.

Lemma u64_width n : n ≤ u64_max ↔ n < 256 ^ N.of_nat 8.
Proof. change (256 ^ N.of_nat 8) with 18446744073709551616. unfold u64_max. lia. Qed.

Lemma of_be_u64 bs : length bs = 8%nat → of_be bs ≤ u64_max.
Proof. intros Hl. apply u64_width. rewrite <-Hl. apply of_be_lt. Qed.

#[export] Instance bool_laws : @KeyLaws bool bool_key.
Proof.
  split; key_simpl.
  - done.
  - intros [] r _; done.
  - intros a i r H. unfold deserialize_bool in H.
    apply M_bind_Ok_inv in H as (bs & d & [Hl Hi]%take_bytes_Ok & H).
    destruct bs as [|b [|]]; try done. unfold lift in H.
    cbn [input] in Hi. repeat case_decide; simplify_eq; done.
  - by intros [] [] r s _ _.
  - by intros [] [].
  - done.
Qed.

#[export] Instance u64_laws : @KeyLaws N u64_key.
Proof.
  split; key_simpl.
  - done.
  - intros a r Ha. unfold deserialize_u64, mbind, M_bind.
    rewrite take_bytes_app by apply length_to_be. unfold mret, M_ret.
    rewrite of_to_be; [done|by apply u64_width].
  - intros a i r H. unfold deserialize_u64 in H.
    apply M_bind_Ok_inv in H as (bs & d & [Hl Hi]%take_bytes_Ok & H).
    unfold mret, M_ret in H. simplify_eq. split; [by apply of_be_u64|].
    rewrite <-Hl, to_of_be. done.
  - intros a b r s Ha Hb. apply to_be_order; by apply u64_width.
  - intros a b. apply N.compare_eq_iff.
  - done.
Qed.

Lemma i64_bits_valid z : i64_bits z ≤ u64_max.
Proof.
  unfold i64_bits, u64_max.
  pose proof (Z.mod_pos_bound z 18446744073709551616). lia.
Qed.

(** Flipping the sign bit of the two's complement adds [2^63]. *)
Lemma i64_image z : i64_valid z →
  flip_sign (to_be 8 (i64_bits z)) = to_be 8 (Z.to_N (z + 9223372036854775808)).
Proof.
  intros Hz. rewrite flip_sign_to_be by apply i64_bits_valid. f_equal.
  unfold i64_valid, i64_min, i64_max in Hz. unfold i64_bits.
  destruct (decide (0 ≤ z)%Z) as [Hp|Hn].
  - rewrite Z.mod_small by lia. case_decide; lia.
  - rewrite <-(Z.mod_add z 1), Z.mod_small by lia. case_decide; lia.
Qed.

Lemma i64_of_bits_bits z : i64_valid z → i64_of_bits (i64_bits z) = z.
Proof.
  intros Hz. unfold i64_valid, i64_min, i64_max in Hz. unfold i64_of_bits, i64_bits.
  destruct (decide (0 ≤ z)%Z) as [Hp|Hn].
  - rewrite Z.mod_small by lia. case_decide; lia.
  - rewrite <-(Z.mod_add z 1), Z.mod_small by lia. case_decide; lia.
Qed.

Lemma i64_bits_of_bits n : n ≤ u64_max →
  i64_bits (i64_of_bits n) = n ∧ i64_valid (i64_of_bits n).
Proof.
  unfold u64_max, i64_valid, i64_min, i64_max, i64_of_bits, i64_bits. intros Hn.
  case_decide; [rewrite Z.mod_small; lia|].
  split; [|lia]. rewrite <-(Z.mod_add _ 1), Z.mod_small; lia.
Qed.

#[export] Instance i64_laws : @KeyLaws Z i64_key.
Proof.
  split; key_simpl.
  - done.
  - intros a r Ha. unfold deserialize_i64, mbind, M_bind.
    rewrite take_bytes_app by (by rewrite length_flip_sign, length_to_be).
    unfold mret, M_ret. rewrite flip_sign_involutive, of_to_be.
    + by rewrite i64_of_bits_bits.
    + apply u64_width, i64_bits_valid.
  - intros a i r H. unfold deserialize_i64 in H.
    apply M_bind_Ok_inv in H as (bs & d & [Hl Hi]%take_bytes_Ok & H).
    unfold mret, M_ret in H. simplify_eq.
    destruct (i64_bits_of_bits (of_be (flip_sign bs))) as [Hb Hv].
    { apply of_be_u64. by rewrite length_flip_sign. }
    split; [done|]. rewrite Hb.
    replace 8%nat with (length (flip_sign bs)) by (by rewrite length_flip_sign).
    by rewrite to_of_be, flip_sign_involutive.
  - intros a b r s Ha Hb. rewrite !i64_image by done.
    unfold i64_valid, i64_min, i64_max in *.
    rewrite to_be_order.
    + replace (Z.to_N (a + 9223372036854775808) ?= Z.to_N (b + 9223372036854775808))
        with (Z.compare a b); [done|].
      destruct (Z.compare_spec a b), (N.compare_spec (Z.to_N (a + 9223372036854775808))
        (Z.to_N (b + 9223372036854775808))); first [done | exfalso; lia].
    + apply u64_width. unfold u64_max. lia.
    + apply u64_width. unfold u64_max. lia.
  - intros a b. apply Z.compare_eq_iff.
  - intros a. by destruct (to_be 8 (i64_bits a)) eqn:E.
Qed.

Lemma f64_image_valid n : n ≤ u64_max → f64_image n ≤ u64_max.
Proof. unfold f64_image, u64_max. case_decide; lia. Qed.

Lemma serialize_f64_image n s : n ≤ u64_max →
  serialize_f64 n s = (Ok tt, {| output := output s ++ to_be 8 (f64_image n) |}).
Proof.
  intros Hn. unfold serialize_f64.
  destruct (to_be_8_head n Hn) as (b & bs & Hbs & _ & _ & Hsign).
  pose proof (flip_sign_to_be n Hn) as Hflip. pose proof (not_to_be n Hn) as Hnot.
  rewrite Hbs in *. unfold f64_image, extend.
  destruct (decide (byte_and b _ = x00)) as [Hs%sign_clear|Hs].
  - rewrite Hflip. by rewrite !(decide_True _ _ (proj1 Hsign Hs)).
  - rewrite Hnot. rewrite sign_clear in Hs. rewrite decide_False by tauto. done.
Qed.

Lemma deserialize_f64_image n r : n ≤ u64_max →
  deserialize_f64 {| input := to_be 8 (f64_image n) ++ r |} = (Ok n, {| input := r |}).
Proof.
  intros Hn. pose proof (f64_image_valid n Hn) as Hi.
  unfold deserialize_f64. erewrite M_bind_Ok by (apply take_bytes_app, length_to_be).
  destruct (to_be_8_head _ Hi) as (b & bs & Hbs & _ & _ & Hsign).
  pose proof (flip_sign_to_be _ Hi) as Hflip. pose proof (not_to_be _ Hi) as Hnot.
  rewrite Hbs in *. unfold lift.
  destruct (decide (N.land _ 1 = 1)) as [Hs%sign_set|Hs];
    rewrite ?Hflip, ?Hnot, of_to_be.
  - unfold f64_image in *. unfold u64_max in *. repeat case_decide; repeat f_equal; lia.
  - apply u64_width. unfold f64_image, u64_max in *. repeat case_decide; lia.
  - rewrite sign_set in Hs. unfold f64_image in *. unfold u64_max in *.
    repeat case_decide; repeat f_equal; lia.
  - apply u64_width. unfold u64_max. lia.
Qed.

Lemma deserialize_f64_exact a i r : deserialize_f64 {| input := i |} = (Ok a, r) →
  a ≤ u64_max ∧ i = to_be 8 (f64_image a) ++ input r.
Proof.
  intros H. unfold deserialize_f64 in H.
  apply M_bind_Ok_inv in H as (bs & d & [Hl Hi]%take_bytes_Ok & H).
  cbn [input] in Hi. subst i. pose proof (of_be_u64 bs Hl) as Hle.
  destruct (to_be_8_head _ Hle) as (b & bs' & Hbs & _ & _ & Hsign).
  pose proof (flip_sign_to_be _ Hle) as Hflip. pose proof (not_to_be _ Hle) as Hnot.
  pose proof (to_of_be bs) as Hto. rewrite Hl in Hto. rewrite Hto in Hbs, Hflip, Hnot.
  destruct bs as [|b0 bs0]; [done|]. simplify_eq. unfold lift in H.
  rewrite Hflip, Hnot in H.
  remember (of_be (b :: bs')) as n eqn:Hn. clear Hn. unfold f64_image.
  destruct (decide (N.land _ 1 = 1)) as [Hs%sign_set|Hs]; simplify_eq;
    clear Hflip Hnot.
  - rewrite (decide_False (P:=n < _)) by lia. rewrite of_to_be by (apply u64_width; unfold u64_max in *; lia).
    split; [unfold u64_max in *; lia|]. f_equal. rewrite <-Hto. f_equal.
    unfold u64_max in *. case_decide; lia.
  - rewrite sign_set in Hs. rewrite of_to_be by (apply u64_width; unfold u64_max; lia).
    split; [lia|]. f_equal. rewrite <-Hto. f_equal.
    unfold u64_max in *. case_decide; lia.
Qed.

Lemma f64_cmp_image a b : a ≤ u64_max → b ≤ u64_max →
  (f64_image a ?= f64_image b) = f64_cmp a b.
Proof.
  intros Ha Hb. unfold f64_cmp, f64_rank, f64_image, u64_max in *.
  repeat case_decide;
    match goal with |- (?x ?= ?y) = Z.compare ?u ?v =>
      destruct (N.compare_spec x y), (Z.compare_spec u v); first [done | exfalso; lia] end.
Qed.

#[export] Instance f64_laws : @KeyLaws N f64_key.
Proof.
  split; key_simpl.
  - apply serialize_f64_image.
  - intros a r. apply deserialize_f64_image.
  - apply deserialize_f64_exact.
  - intros a b r s Ha Hb. rewrite <-f64_cmp_image by done.
    apply to_be_order; by apply u64_width, f64_image_valid.
  - intros a b. unfold f64_cmp, f64_rank. rewrite Z.compare_eq_iff.
    repeat case_decide; lia.
  - done.
Qed.

(** Byte strings: escaping and the terminator. *)
Lemma escape_zero : escape x00 = [x00; xff].
Proof. done. Qed.

Lemma escape_other b : b ≠ x00 → escape b = [b].
Proof. intros. unfold escape. by rewrite decide_False. Qed.

Lemma decode_loop_app v r i acc :
  decode_loop (((v ≫= escape) ++ [x00; x00]) ++ r) i acc
  = Ok (acc ++ v, (i + length (v ≫= escape) + 2)%nat).
Proof.
  revert i acc. induction v as [|b v IH]; intros i acc.
  - cbn. rewrite app_nil_r. repeat f_equal; lia.
  - rewrite bind_cons. unfold escape at 1 3. destruct (decide (b = x00)) as [->|Hb].
    + cbn. cbn in IH. rewrite IH, <-app_assoc. cbn. repeat f_equal; lia.
    + cbn. rewrite decide_False by done. cbn in IH. rewrite IH, <-app_assoc. cbn.
      repeat f_equal; lia.
Qed.

Lemma decode_loop_Ok bs i acc d t : decode_loop bs i acc = Ok (d, t) →
  ∃ v r, d = acc ++ v ∧ bs = ((v ≫= escape) ++ [x00; x00]) ++ r ∧
    t = (i + length (v ≫= escape) + 2)%nat.
Proof.
  remember (length bs) as n eqn:Hn. revert bs i acc Hn.
  induction n as [n IH] using lt_wf_ind. intros [|b bs] i acc -> H; [done|].
  cbn in H. destruct (decide (b = x00)) as [->|Hb].
  - destruct bs as [|c bs]; [done|].
    destruct (decide (c = x00)) as [->|Hc]; [|destruct (decide (c = xff)) as [->|]; [|done]].
    + simplify_eq. exists [], bs. rewrite app_nil_r. cbn. repeat split; try done. lia.
    + eapply IH in H as (v & r & -> & -> & ->); [|..|reflexivity]; [|cbn; lia].
      exists (x00 :: v), r. rewrite bind_cons, escape_zero, <-!app_assoc.
      repeat split; try done. rewrite length_app. cbn. lia.
  - eapply IH in H as (v & r & -> & -> & ->); [|..|reflexivity]; [|cbn; lia].
    exists (b :: v), r. rewrite bind_cons, escape_other, <-!app_assoc by done.
    repeat split; try done. rewrite length_app. cbn. lia.
Qed.

Lemma escape_order v w r s :
  bytes_cmp (((v ≫= escape) ++ [x00; x00]) ++ r) (((w ≫= escape) ++ [x00; x00]) ++ s)
  = match bytes_cmp v w with Eq => bytes_cmp r s | c => c end.
Proof.
  revert w. induction v as [|b v IH]; intros [|c w].
  - done.
  - rewrite bind_cons. unfold escape. case_decide; [by subst|]. by destruct c.
  - rewrite bind_cons. unfold escape. case_decide; [by subst|]. by destruct b.
  - rewrite !bind_cons. cbn [bytes_cmp list_cmp]. unfold bytes_cmp at 2. cbn [list_cmp].
    destruct (byte_cmp b c) eqn:E.
    + apply cmp_eq in E as ->. rewrite <-!app_assoc. unfold bytes_cmp at 1.
      rewrite list_cmp_app_same by apply _. fold bytes_cmp. rewrite !(app_assoc _ [_; _]).
      apply IH.
    + destruct (decide (b = x00)) as [->|Hb], (decide (c = x00)) as [->|Hc];
        rewrite ?escape_zero, ?escape_other by done;
        unfold bytes_cmp; cbn [app list_cmp]; rewrite ?E; try done; by destruct b.
    + destruct (decide (b = x00)) as [->|Hb], (decide (c = x00)) as [->|Hc];
        rewrite ?escape_zero, ?escape_other by done;
        unfold bytes_cmp; cbn [app list_cmp]; rewrite ?E; try done; by destruct c.
Qed.

#[export] Instance bytes_laws : @KeyLaws (list byte) bytes_key.
Proof.
  split; key_simpl.
  - done.
  - intros v r _. unfold deserialize_bytes, decode_next_bytes. cbn [input].
    rewrite decode_loop_app. cbn [Nat.add app].
    rewrite drop_app_ge; rewrite length_app; cbn [length]; [|lia].
    by rewrite Nat.sub_diag.
  - intros a i r H. split; [done|]. unfold deserialize_bytes, decode_next_bytes in H.
    cbn [input] in H. destruct (decode_loop i 0 []) as [[d t]| |] eqn:E; simplify_eq.
    apply decode_loop_Ok in E as (v & r & -> & -> & ->). cbn [app input]. f_equal.
    rewrite drop_app_ge; rewrite length_app; cbn [length]; [|lia].
    by rewrite Nat.add_0_l, Nat.sub_diag.
  - intros. apply escape_order.
  - intros a b. apply (cmp_eq (cmp:=bytes_cmp)).
  - intros a. by destruct (a ≫= escape).
Qed.

#[export] Instance str_laws : @KeyLaws (list byte) str_key.
Proof.
  split; key_simpl.
  - done.
  - intros v r Hv. unfold deserialize_str.
    erewrite M_bind_Ok by (by apply (key_decode (H:=bytes_key))).
    unfold lift, from_utf8. by rewrite Hv.
  - intros a i r H. unfold deserialize_str in H.
    apply M_bind_Ok_inv in H as (v & d & H1 & H2).
    apply (key_decode_exact (H:=bytes_key)) in H1 as [_ ->].
    unfold lift, from_utf8 in H2. destruct (utf8_valid v) eqn:E; simplify_eq. done.
  - intros. apply escape_order.
  - intros a b. apply (cmp_eq (cmp:=bytes_cmp)).
  - intros a. by destruct (a ≫= escape).
Qed.

(** * Composition *)

Lemma field_decode `{KeyLaws A} position a r : key_valid a →
  field position decode_key {| input := key_bytes a ++ r |} = (Ok a, {| input := r |}).
Proof.
  intros Ha. unfold field, next_element, mbind, M_bind. cbn [input].
  pose proof (key_nonempty a). destruct (key_bytes a ++ r) as [|b l] eqn:E.
  { by destruct (key_bytes a). }
  rewrite <-E, key_decode by done. done.
Qed.

Lemma field_exact `{KeyLaws A} position a i r :
  field position decode_key {| input := i |} = (Ok a, r) →
  key_valid a ∧ i = key_bytes a ++ input r.
Proof.
  unfold field, next_element. intros Hf.
  apply M_bind_Ok_inv in Hf as (o & d & H1 & H2). cbn [input] in H1.
  destruct i as [|b i]; [by simplify_eq|].
  destruct (decode_key {| input := b :: i |}) as [r1 d1] eqn:E.
  destruct r1; simplify_eq/=. unfold lift in H2. simplify_eq.
  by apply key_decode_exact.
Qed.

#[export] Instance pair_laws {A B} {a : KeyType A} {b : KeyType B} :
  KeyLaws A → KeyLaws B → @KeyLaws (A * B) (pair_key a b).
Proof.
  intros HA HB. split; key_simpl.
  - intros [x y] s [Hx Hy]. erewrite M_bind_Ok by (by apply key_encode).
    rewrite key_encode by done. cbn [output]. by rewrite app_assoc.
  - intros [x y] r [Hx Hy]. rewrite <-app_assoc.
    erewrite M_bind_Ok by (by apply field_decode).
    erewrite M_bind_Ok by (by apply field_decode). done.
  - intros [x y] i r H.
    apply M_bind_Ok_inv in H as (x' & d1 & H1 & H).
    apply M_bind_Ok_inv in H as (y' & d2 & H2 & H). unfold mret, M_ret in H. simplify_eq.
    apply field_exact in H1 as [Hx ->]. destruct d1.
    apply field_exact in H2 as [Hy Hi]. cbn [input] in *. subst.
    by rewrite app_assoc.
  - intros [x y] [x' y'] r s [Hx Hy] [Hx' Hy']. rewrite <-!app_assoc.
    rewrite key_order by done. destruct (key_cmp x x'); [|done..]. by apply key_order.
  - intros [x y] [x' y']. destruct (key_cmp x x') eqn:E; [|done..].
    intros ->%key_cmp_eq. by apply key_cmp_eq in E as ->.
  - intros [x y]. pose proof (key_nonempty x). by destruct (key_bytes x).
Qed.

(** Enum variants: the index byte orders before the contents. *)
Lemma variant_encode index s : index ≤ u8_max →
  serialize_unit_variant index s = (Ok tt, {| output := output s ++ [n2b index] |}).
Proof. intros. unfold serialize_unit_variant. by rewrite decide_True. Qed.

Lemma variant_decode index r : index ≤ u8_max →
  variant_index {| input := n2b index :: r |} = (Ok index, {| input := r |}).
Proof.
  intros Hi. unfold variant_index. erewrite M_bind_Ok by (by apply (take_bytes_app 1 [_] r)).
  unfold lift. rewrite b2n_n2b_small; [done|]. unfold u8_max in Hi. lia.
Qed.

Lemma variant_exact index i r : variant_index {| input := i |} = (Ok index, r) →
  index ≤ u8_max ∧ i = n2b index :: input r.
Proof.
  unfold variant_index. intros H.
  apply M_bind_Ok_inv in H as (bs & d & [Hl Hi]%take_bytes_Ok & H).
  destruct bs as [|b [|]]; try done. unfold lift in H. simplify_eq. cbn [input] in Hi.
  rewrite n2b_b2n. pose proof (b2n_lt b). unfold u8_max. split; [lia|done].
Qed.

Lemma variant_order i j r s : i ≤ u8_max → j ≤ u8_max →
  bytes_cmp (n2b i :: r) (n2b j :: s)
  = match i ?= j with Eq => bytes_cmp r s | c => c end.
Proof.
  intros Hi Hj. unfold bytes_cmp. cbn [list_cmp]. unfold byte_cmp at 1.
  rewrite !b2n_n2b_small by (unfold u8_max in *; lia). done.
Qed.

(** * Top level *)

Section top.
Context `{KeyLaws A}.

Lemma serialize_valid (a : A) : key_valid a → serialize a = Ok (key_bytes a).
Proof. intros Ha. unfold serialize. by rewrite key_encode. Qed.

Lemma deserialize_bytes_of (a : A) : key_valid a → deserialize (key_bytes a) = Ok a.
Proof.
  intros Ha. unfold deserialize. rewrite <-(app_nil_r (key_bytes a)).
  by rewrite key_decode.
Qed.

Lemma deserialize_Ok bs (a : A) : deserialize bs = Ok a → key_valid a ∧ bs = key_bytes a.
Proof.
  unfold deserialize. destruct (decode_key _) as [[t|e|w] d] eqn:E; try done.
  destruct (input d) eqn:Ed; intros; simplify_eq.
  apply key_decode_exact in E as [Hv ->]. by rewrite Ed, app_nil_r.
Qed.

Lemma key_bytes_cmp (a b : A) :
  key_valid a → key_valid b → bytes_cmp (key_bytes a) (key_bytes b) = key_cmp a b.
Proof.
  intros Ha Hb. pose proof (key_order a b [] [] Ha Hb) as Ho.
  rewrite !app_nil_r in Ho. rewrite Ho. by destruct (key_cmp a b).
Qed.

Lemma key_bytes_inj (a b : A) :
  key_valid a → key_valid b → key_bytes a = key_bytes b → a = b.
Proof.
  intros Ha Hb Heq. apply key_cmp_eq. rewrite <-key_bytes_cmp by done.
  rewrite Heq. by apply (cmp_refl (cmp:=bytes_cmp)).
Qed.
End top.
