(* ===== verification/KeyCodeClaims.v ===== *)
(** What KeyCode guarantees for the values it encodes: an encoding decodes to
    the value, is the only input that does, and orders as the value does. *)
From Stdlib Require Import Strings.Byte NArith ZArith Lia.
From stdpp Require Import base list strings.
From S2P Require Import Prelude KeyCode.

#[local] Opaque to_be.

Section codec.
Context `{KeyLaws A}.

(** The three guarantees for two values of a key type. *)
Definition codec (cmp : A → A → comparison) (a b : A) : Prop :=
  ∃ x y, serialize a = Ok x ∧ serialize b = Ok y ∧
    deserialize x = Ok a ∧ deserialize y = Ok b ∧ bytes_cmp x y = cmp a b ∧
    ∀ bs, deserialize bs = Ok a → bs = x.

Lemma codec_of_laws (a b : A) : key_valid a → key_valid b → codec key_cmp a b.
Proof.
  intros Ha Hb. exists (key_bytes a), (key_bytes b).
  rewrite !serialize_valid, !deserialize_bytes_of, key_bytes_cmp by done.
  do 5 (split; [done|]). by intros bs [_ ->]%deserialize_Ok.
Qed.

(** Sequences. *)
Definition encode_all (xs : list A) : M Serializer unit := for_each xs encode_key.

Lemma encode_all_ok (xs : list A) s : Forall key_valid xs →
  encode_all xs s = (Ok tt, {| output := output s ++ (xs ≫= key_bytes) |}).
Proof.
  unfold encode_all. revert s. induction xs as [|x xs IH]; intros s Hx; cbn [for_each].
  - destruct s. cbn. by rewrite app_nil_r.
  - apply Forall_cons in Hx as [Hx Hxs]. erewrite M_bind_Ok by (by apply key_encode).
    rewrite IH by done. cbn [output]. by rewrite bind_cons, <-app_assoc.
Qed.

Lemma visit_seq_ok (xs : list A) fuel : Forall key_valid xs → (length (xs ≫= key_bytes) ≤ fuel)%nat →
  visit_seq fuel decode_key {| input := xs ≫= key_bytes |} = (Ok xs, {| input := [] |}).
Proof.
  revert fuel. induction xs as [|x xs IH]; intros fuel Hx Hf.
  - by destruct fuel.
  - apply Forall_cons in Hx as [Hx Hxs]. rewrite bind_cons in Hf |- *. rewrite length_app in Hf.
    pose proof (key_nonempty x) as Hne. destruct (key_bytes x) as [|b bs] eqn:Ex; [done|].
    destruct fuel as [|fuel]; [cbn in Hf; lia|]. cbn [visit_seq].
    erewrite M_bind_Ok; [|unfold next_element; cbn [input app];
      rewrite app_comm_cons, <-Ex, key_decode by done; reflexivity].
    cbn [fmap res_fmap]. erewrite M_bind_Ok by (apply IH; [done|cbn in Hf; lia]). done.
Qed.
End codec.

(** The key encoding of 64-bit signed integers decodes to the integer and orders
    bytewise as the integers do. *)
Theorem i64_codec (a b : Z) : i64_valid a → i64_valid b → codec (H:=i64_key) Z.compare a b.
Proof. intros Ha Hb. by apply (codec_of_laws (H:=i64_key)). Qed.

Lemma i64_codec_witness : codec (H:=i64_key) Z.compare (-1)%Z i64_max.
Proof. apply i64_codec; split; vm_compute; discriminate. Defined.

(** The key encoding of 64-bit floats decodes to the same bits and orders
    bytewise by the total order of sign and magnitude. *)
Theorem f64_codec (a b : N) : a ≤ u64_max → b ≤ u64_max → codec (H:=f64_key) f64_cmp a b.
Proof. intros Ha Hb. by apply (codec_of_laws (H:=f64_key)). Qed.

(** -1.5 and 2.0. *)
Lemma f64_codec_witness : codec (H:=f64_key) f64_cmp 13832806255468478464 4611686018427387904.
Proof. apply f64_codec; vm_compute; discriminate. Defined.

(** C34. The key encoding of strings, with its escapes and terminator, decodes
    to the string and orders bytewise as the strings do. *)
Theorem string_codec (a b : list byte) : utf8_valid a = true → utf8_valid b = true →
  codec (H:=str_key) bytes_cmp a b.
Proof. intros Ha Hb. by apply (codec_of_laws (H:=str_key)). Qed.

Lemma string_codec_witness : codec (H:=str_key) bytes_cmp [x61; x00; x62] [xc3; xa9].
Proof. apply string_codec; reflexivity. Defined.

(** A sequence of keys of a type with a lawful encoding, written element by
    element, is read back element by element until the input ends. *)
Theorem sequence_roundtrip `{KeyLaws A} (xs : list A) : Forall key_valid xs →
  ∃ bs, encode_all xs {| output := [] |} = (Ok tt, {| output := bs |}) ∧
    deserialize_seq decode_key {| input := bs |} = (Ok xs, {| input := [] |}).
Proof.
  intros Hx. rewrite encode_all_ok by done. eexists. split; [done|]. by apply visit_seq_ok.
Qed.

Lemma sequence_roundtrip_witness :
  ∃ bs, encode_all (H:=bytes_key) [[x61; x00]; []] {| output := [] |} = (Ok tt, {| output := bs |}) ∧
    deserialize_seq (A:=list byte) (decode_key (KeyType:=bytes_key)) {| input := bs |}
    = (Ok [[x61; x00]; []], {| input := [] |}).
Proof. apply (sequence_roundtrip (H:=bytes_key) [[x61; x00]; []]). repeat constructor. Defined.

(** The NaN with all bits set is encoded before every other float, not at the
    end. *)
Theorem negative_nan_first (v : N) : v ≤ u64_max → v ≠ 18446744073709551615 →
  ∃ x y, serialize (H:=f64_key) 18446744073709551615 = Ok x ∧ serialize (H:=f64_key) v = Ok y ∧
    bytes_cmp x y = Lt.
Proof.
  intros Hv Hne. destruct (codec_of_laws (H:=f64_key) 18446744073709551615 v ltac:(done) Hv)
    as (x & y & Hx & Hy & _ & _ & Hc & _).
  exists x, y. split; [done|]. split; [done|]. rewrite Hc. cbn [key_cmp f64_key].
  unfold f64_cmp, f64_rank.
  rewrite decide_False by done. apply Z.compare_lt_iff. unfold u64_max in Hv. case_decide; lia.
Qed.

(** 1.0 comes after it. *)
Lemma negative_nan_first_witness :
  ∃ x y, serialize (H:=f64_key) 18446744073709551615 = Ok x ∧
    serialize (H:=f64_key) 4607182418800017408 = Ok y ∧ bytes_cmp x y = Lt.
Proof. apply (negative_nan_first 4607182418800017408); [vm_compute; discriminate|discriminate]. Defined.
