(* ===== verification/Engine.v ===== *)
(** The storage engine interface (src/src/storage/engine.rs): the [Engine]
    trait as a class, its default method [scan_prefix], and the class
    [EngineLaws], what a client may assume of an implementation. *)
From Stdlib Require Import Strings.Byte NArith Lia Sorting.Sorted.
From stdpp Require Import base list strings.
From S2P Require Import Prelude BTreeMap.

(** Keys and values are byte strings. *)
Abbreviation bytes := (list byte).
Abbreviation KeyRange := (Bound (list byte) * Bound (list byte))%type.
Abbreviation Entries := (list (list byte * list byte)).

(** [storage::engine::Status]. *)
Record Status := {
  name : string;
  keys : N;
  size : N;
  total_disk_size : N;
  live_disk_size : N;
  garbage_disk_size : N
}.

(** [storage::Engine].  A scan borrows the engine, so its iterator is the list
    of the items it yields; building it can panic (an inverted range).
    [scan_dyn] is the same function behind a trait object. *)
Class Engine (E : Type) := {
  eng_delete : bytes → M E unit;
  eng_flush : M E unit;
  eng_get : bytes → M E (option bytes);
  eng_scan : KeyRange → E → res (list (res (bytes * bytes)));
  eng_set : bytes → bytes → M E unit;
  eng_status : M E Status
}.

(** [Iterator::rposition]. *)
Fixpoint rposition {A} (P : A → bool) (l : list A) : option nat :=
  match l with
  | [] => None
  | x :: l =>
      match rposition P l with
      | Some i => Some (S i)
      | None => if P x then Some O else None
      end
  end.

(** The range of the keys that start with a prefix. *)
Definition prefix_end (prefix : bytes) : Bound bytes :=
  match rposition (λ b, negb (Byte.eqb b xff)) prefix with
  | Some i => Excluded (take i prefix ++ [n2b (b2n (nth i prefix x00) + 1)])
  | None => Unbounded
  end.

Definition prefix_range (prefix : bytes) : KeyRange :=
  (Included prefix, prefix_end prefix).

(** The default method of the trait. *)
Definition scan_prefix `{Engine E} (prefix : bytes) (e : E)
    : res (list (res (bytes * bytes))) :=
  eng_scan (prefix_range prefix) e.

(** What the clients rely on.  [eng_view] is the ordered map an engine stores;
    [eng_writable] is the size limit of the implementation, which whatever is
    stored respects.  A write within the limit returns and updates the map. *)
Class EngineLaws (E : Type) `{Engine E} := {
  eng_inv : E → Prop;
  eng_view : E → Entries;
  eng_writable : bytes → bytes → Prop;
  eng_view_sorted e : eng_inv e → bt_sorted bytes_cmp (eng_view e);
  eng_get_law k e : eng_inv e →
    eng_get k e = (Ok (bt_get bytes_cmp k (eng_view e)), e);
  eng_scan_law r e : eng_inv e →
    eng_scan r e = fmap (M:=res) (List.map Ok) (bt_range bytes_cmp r (eng_view e));
  eng_set_law k v e : eng_inv e → eng_writable k v →
    ∃ e', eng_set k v e = (Ok tt, e') ∧ eng_inv e' ∧
      eng_view e' = bt_insert bytes_cmp k v (eng_view e);
  eng_delete_law k e : eng_inv e → eng_writable k [] →
    ∃ e', eng_delete k e = (Ok tt, e') ∧ eng_inv e' ∧
      eng_view e' = bt_remove bytes_cmp k (eng_view e);
  eng_stored_writable k v e : eng_inv e →
    bt_get bytes_cmp k (eng_view e) = Some v → eng_writable k [];
  eng_flush_law e : eng_inv e → eng_flush e = (Ok tt, e);
  eng_status_law e : eng_inv e → (eng_status e).2 = e
}.

(** * The prefix range *)

Lemma rposition_None {A} (P : A → bool) l : rposition P l = None ↔ Forall (λ x, P x = false) l.
Proof.
  induction l as [|x l IH]; simpl; [done|]. rewrite Forall_cons.
  destruct (rposition P l) as [j|].
  - split; [done|]. intros [_ H]. by apply IH in H.
  - destruct (P x); split; try done; intros; destruct_and?; try done. split; [done|by apply IH].
Qed.

Lemma rposition_Some {A} (P : A → bool) l i : rposition P l = Some i →
  ∃ x, l !! i = Some x ∧ P x = true ∧ Forall (λ x, P x = false) (drop (S i) l).
Proof.
  revert i. induction l as [|y l IH]; simpl; intros i; [done|].
  destruct (rposition P l) as [j|] eqn:E.
  - intros [= <-]. by apply IH.
  - destruct (P y) eqn:Ey; [|done]. intros [= <-]. exists y.
    rewrite drop_0. repeat split; [done..|]. by apply rposition_None.
Qed.

Definition starts_with (prefix key : bytes) : Prop := ∃ rest, key = prefix ++ rest.

Lemma above_prefix p rest : above bytes_cmp (Included p) (p ++ rest) = true.
Proof.
  unfold above. pose proof (list_cmp_prefix byte_cmp p rest) as Hp. fold bytes_cmp in Hp.
  by destruct (bytes_cmp p (p ++ rest)).
Qed.

(** Not starting with [p] while being at least [p] means that some byte of
    [p] is exceeded after a common prefix. *)
Lemma above_not_prefix p k :
  bytes_cmp p k ≠ Gt → starts_with p k ∨
  ∃ c x y p' k', p = c ++ x :: p' ∧ k = c ++ y :: k' ∧ b2n x < b2n y.
Proof.
  revert k. induction p as [|x p IH]; intros k Hc.
  - left. by exists k.
  - destruct k as [|y k]; [done|]. unfold bytes_cmp in Hc. cbn [list_cmp] in Hc.
    destruct (byte_cmp x y) eqn:E; [| |done].
    + apply cmp_eq in E as ->. destruct (IH k Hc) as [[r ->]|(c & u & v & p' & k' & -> & -> & Hlt)].
      * left. by exists r.
      * right. by exists (y :: c), u, v, p', k'.
    + right. exists [], x, y, p, k. split; [done|]. split; [done|].
      by apply N.compare_lt_iff.
Qed.

Lemma max_byte y : negb (Byte.eqb y xff) = false ↔ y = xff.
Proof. rewrite negb_false_iff. split; [apply Byte.byte_dec_bl|by intros ->]. Qed.

Lemma prefix_end_below p k :
  starts_with p k → below bytes_cmp (prefix_end p) k = true.
Proof.
  intros [rest ->]. unfold prefix_end.
  destruct (rposition _ p) as [i|] eqn:E; [|done].
  apply rposition_Some in E as (x & Hx & Hne & _).
  rewrite (nth_lookup_Some _ _ _ _ Hx). unfold below.
  rewrite <-(take_drop_middle p i x Hx) at 1. rewrite <-app_assoc. unfold bytes_cmp.
  rewrite list_cmp_app_same by apply _. cbn [app list_cmp]. unfold byte_cmp.
  assert (b2n x < 255).
  { pose proof (b2n_lt x). destruct (decide (b2n x = 255)) as [Hm|]; [|lia].
    rewrite <-(n2b_b2n x), Hm in Hne. done. }
  rewrite b2n_n2b_small by lia. by rewrite (proj2 (N.compare_lt_iff _ _)) by lia.
Qed.

Lemma prefix_end_exact p k :
  bytes_cmp p k ≠ Gt → below bytes_cmp (prefix_end p) k = true → starts_with p k.
Proof.
  intros Hp Hb. destruct (above_not_prefix p k Hp) as [|(c & x & y & p' & k' & -> & -> & Hlt)];
    [done|]. exfalso. unfold prefix_end in Hb.
  destruct (rposition _ (c ++ x :: p')) as [i|] eqn:E.
  2:{ apply rposition_None in E. rewrite Forall_app, Forall_cons in E.
      destruct E as (_ & ->%max_byte & _). pose proof (b2n_lt y).
      change (b2n xff) with 255 in Hlt. lia. }
  apply rposition_Some in E as (z & Hz & Hne & Hall).
  rewrite (nth_lookup_Some _ _ _ _ Hz) in Hb.
  assert (length c ≤ i)%nat as Hi.
  { destruct (decide (length c ≤ i)%nat); [done|]. exfalso.
    rewrite drop_app_le in Hall by lia. rewrite Forall_app, Forall_cons in Hall.
    destruct Hall as (_ & ->%max_byte & _). pose proof (b2n_lt y).
    change (b2n xff) with 255 in Hlt. lia. }
  rewrite take_app_ge in Hb by done. unfold below in Hb. rewrite <-app_assoc in Hb.
  unfold bytes_cmp in Hb. rewrite list_cmp_app_same in Hb by apply _.
  rewrite lookup_app_r in Hz by done.
  destruct (i - length c)%nat as [|j] eqn:Ej; cbn in Hz, Hb.
  - simplify_eq. unfold byte_cmp in Hb.
    assert (b2n z < 255).
    { pose proof (b2n_lt y). lia. }
    rewrite b2n_n2b_small in Hb by lia.
    destruct (N.compare_spec (b2n y) (b2n z + 1)); try done; [|lia].
    by destruct k'.
  - unfold byte_cmp in Hb. by rewrite (proj2 (N.compare_gt_iff _ _)) in Hb by lia.
Qed.

Lemma in_prefix_range p k : in_range bytes_cmp (prefix_range p) k = true ↔ starts_with p k.
Proof.
  unfold in_range, prefix_range. cbn [fst snd]. rewrite andb_true_iff. split.
  - intros [Ha Hb]. apply prefix_end_exact; [|done].
    unfold above in Ha. by destruct (bytes_cmp p k).
  - intros Hs. split; [|by apply prefix_end_below].
    destruct Hs as [r ->]. apply above_prefix.
Qed.

Lemma prefix_range_valid p : range_valid bytes_cmp (prefix_range p) = true.
Proof.
  unfold prefix_range, range_valid. destruct (prefix_end p) as [|e|] eqn:E; try done.
  - unfold prefix_end in E. by destruct (rposition _ p).
  - pose proof (prefix_end_below p p) as H. rewrite E in H. unfold below in H.
    destruct (bytes_cmp p e) eqn:Hc; try done.
    assert (starts_with p p) as Hs by (exists []; by rewrite app_nil_r).
    by specialize (H Hs).
Qed.

(** The keys a prefix scan visits, through the interface. *)
Lemma scan_prefix_law `{EngineLaws E} p e : eng_inv e →
  scan_prefix p e
  = Ok (List.map Ok (List.filter (λ kv, in_range bytes_cmp (prefix_range p) kv.1) (eng_view e))).
Proof.
  intros He. unfold scan_prefix. rewrite eng_scan_law by done. unfold bt_range.
  by rewrite prefix_range_valid.
Qed.

(** * Sessions of engine calls *)

(** A call of the interface and what the caller observes of it. *)
Inductive Call :=
| CGet (key : bytes)
| CSet (key value : bytes)
| CDelete (key : bytes)
| CScan (range : KeyRange)
| CScanPrefix (prefix : bytes)
| CFlush.

Inductive Answer :=
| AGet (r : res (option bytes))
| ADone (r : res unit)
| AScan (r : res (list (res (bytes * bytes)))).

Definition run_call `{Engine E} (c : Call) (e : E) : Answer * E :=
  match c with
  | CGet k => let '(r, e) := eng_get k e in (AGet r, e)
  | CSet k v => let '(r, e) := eng_set k v e in (ADone r, e)
  | CDelete k => let '(r, e) := eng_delete k e in (ADone r, e)
  | CScan r => (AScan (eng_scan r e), e)
  | CScanPrefix p => (AScan (scan_prefix p e), e)
  | CFlush => let '(r, e) := eng_flush e in (ADone r, e)
  end.

Fixpoint run_calls `{Engine E} (cs : list Call) (e : E) : list Answer :=
  match cs with
  | [] => []
  | c :: cs => let '(a, e) := run_call c e in a :: run_calls cs e
  end.

Definition call_fits `{EngineLaws E} (c : Call) : Prop :=
  match c with
  | CSet k v => eng_writable k v
  | CDelete k => eng_writable k []
  | _ => True
  end.

(** The answer and the map after a call depend on the map alone. *)
Lemma run_call_agree {E1 E2 : Type} `{EngineLaws E1} `{EngineLaws E2} c (e1 : E1) (e2 : E2) :
  eng_inv e1 → eng_inv e2 → eng_view e1 = eng_view e2 →
  call_fits (E:=E1) c → call_fits (E:=E2) c →
  ∃ a e1' e2', run_call c e1 = (a, e1') ∧ run_call c e2 = (a, e2') ∧
    eng_inv e1' ∧ eng_inv e2' ∧ eng_view e1' = eng_view e2'.
Proof.
  intros Hi1 Hi2 Hv Hf1 Hf2. destruct c; cbn [run_call call_fits] in *.
  - rewrite !eng_get_law, Hv by done. by eexists _, _, _.
  - destruct (eng_set_law _ _ e1 Hi1 Hf1) as (e1' & -> & ? & Hv1).
    destruct (eng_set_law _ _ e2 Hi2 Hf2) as (e2' & -> & ? & Hv2).
    exists (ADone (Ok tt)), e1', e2'. by rewrite Hv1, Hv2, Hv.
  - destruct (eng_delete_law _ e1 Hi1 Hf1) as (e1' & -> & ? & Hv1).
    destruct (eng_delete_law _ e2 Hi2 Hf2) as (e2' & -> & ? & Hv2).
    exists (ADone (Ok tt)), e1', e2'. by rewrite Hv1, Hv2, Hv.
  - rewrite !eng_scan_law, Hv by done. by eexists _, _, _.
  - rewrite !scan_prefix_law, Hv by done. by eexists _, _, _.
  - rewrite !eng_flush_law by done. by eexists _, _, _.
Qed.

Lemma run_calls_agree {E1 E2 : Type} `{EngineLaws E1} `{EngineLaws E2} cs (e1 : E1) (e2 : E2) :
  eng_inv e1 → eng_inv e2 → eng_view e1 = eng_view e2 →
  Forall (call_fits (E:=E1)) cs → Forall (call_fits (E:=E2)) cs →
  run_calls cs e1 = run_calls cs e2.
Proof.
  revert e1 e2. induction cs as [|c cs IH]; intros e1 e2 Hi1 Hi2 Hv Hf1 Hf2; [done|].
  apply Forall_cons in Hf1 as [Hc1 Hf1], Hf2 as [Hc2 Hf2].
  destruct (run_call_agree c e1 e2 Hi1 Hi2 Hv Hc1 Hc2) as (a & e1' & e2' & R1 & R2 & ? & ? & ?).
  cbn [run_calls]. rewrite R1, R2. f_equal. by apply IH.
Qed.
