(* ===== verification/KeyStore.v ===== *)
(** An engine whose keys are encodings of a key type: the byte map means a
    partial function on keys, and reads, writes, deletes and scans act on it.
    Shared by the components that keep typed keys in an engine (the MVCC layer
    and the Raft log). *)
From Stdlib Require Import Strings.Byte NArith Lia Sorting.Sorted.
From stdpp Require Import base list strings.
From S2P Require Import Prelude BTreeMap KeyCode Engine.

Lemma sorted_impl {A} (R S : A → A → Prop) (l : list A) :
  (∀ x y, R x y → S x y) → StronglySorted R l → StronglySorted S l.
Proof.
  intros HRS. induction 1 as [|x l Hs IH Hall]; constructor; [done|].
  eapply Forall_impl; [exact Hall|]. auto.
Qed.

Section store.
Context {E : Type} `{EngineLaws E} {K : Type} `{KeyLaws K} `{EqDecision K}.
Implicit Types (m : Entries) (f g : K → option bytes) (k : K) (e : E).

(** [m] holds the encodings of the keys where [f] is defined, with its values. *)
Definition stores m f : Prop :=
  bt_sorted bytes_cmp m ∧
  (∀ kb vb, (kb, vb) ∈ m → ∃ k, key_valid k ∧ kb = key_bytes k) ∧
  (∀ k, key_valid k → bt_get bytes_cmp (key_bytes k) m = f k).

Lemma stores_empty : stores [] (λ _, None).
Proof. split; [constructor|]. split; [by intros kb vb ?%not_elem_of_nil|done]. Qed.

Lemma stores_ext m f g : (∀ k, key_valid k → f k = g k) → stores m f → stores m g.
Proof. intros Hfg (? & ? & Hg). do 2 (split; [done|]). intros k Hk. by rewrite Hg, Hfg. Qed.

Lemma get_stored k e f : eng_inv e → stores (eng_view e) f → key_valid k →
  eng_get (key_bytes k) e = (Ok (f k), e).
Proof. intros He (_ & _ & Hg) Hk. by rewrite eng_get_law, Hg. Qed.

Lemma set_stored k x e f g : eng_inv e → stores (eng_view e) f → key_valid k →
  eng_writable (key_bytes k) x →
  (∀ k', key_valid k' → g k' = if decide (k' = k) then Some x else f k') →
  ∃ e', eng_set (key_bytes k) x e = (Ok tt, e') ∧ eng_inv e' ∧ stores (eng_view e') g.
Proof.
  intros He (Hs & Hw & Hg) Hk Hf Hd.
  destruct (eng_set_law (key_bytes k) x e He Hf) as (e' & Hset & He' & Hv).
  exists e'. split; [done|]. split; [done|]. rewrite Hv.
  split; [by apply (bt_insert_sorted bytes_cmp)|]. split.
  - intros kb vb Hin. apply (bt_elem_get bytes_cmp) in Hin; [|by apply (bt_insert_sorted bytes_cmp)].
    rewrite (bt_get_insert bytes_cmp) in Hin by done.
    destruct (bytes_cmp kb (key_bytes k)) eqn:Ec.
    + apply cmp_eq in Ec as ->. eauto.
    + apply bt_get_elem in Hin; [|apply _]. eauto.
    + apply bt_get_elem in Hin; [|apply _]. eauto.
  - intros k' Hk'. rewrite (bt_get_insert bytes_cmp) by done. rewrite Hd by done.
    case_decide as Heq.
    + subst. by rewrite (cmp_refl (cmp:=bytes_cmp)).
    + destruct (bytes_cmp (key_bytes k') (key_bytes k)) eqn:Ec; [|by apply Hg..].
      apply cmp_eq in Ec. by apply key_bytes_inj in Ec.
Qed.

(** Lookups determine what is stored, when no key appears. *)
Lemma stores_of_get e e' f g : eng_inv e' → stores (eng_view e) f →
  (∀ kb vb, bt_get bytes_cmp kb (eng_view e') = Some vb →
     is_Some (bt_get bytes_cmp kb (eng_view e))) →
  (∀ k, key_valid k → bt_get bytes_cmp (key_bytes k) (eng_view e') = g k) →
  stores (eng_view e') g.
Proof.
  intros He' (Hs & Hw & Hg) Hsub Hd. split; [by apply eng_view_sorted|]. split; [|done].
  intros kb vb Hin. apply (bt_elem_get bytes_cmp) in Hin; [|by apply eng_view_sorted].
  apply Hsub in Hin as [vb' Hin]. apply (bt_get_elem bytes_cmp) in Hin. eauto.
Qed.

Lemma delete_all ks e : eng_inv e →
  (∀ kb, kb ∈ ks → eng_writable kb []) →
  ∃ e', for_each ks eng_delete e = (Ok tt, e') ∧ eng_inv e' ∧
    ∀ kb, bt_get bytes_cmp kb (eng_view e')
         = if decide (kb ∈ ks) then None else bt_get bytes_cmp kb (eng_view e).
Proof.
  revert e. induction ks as [|k ks IH]; intros e He Hw.
  - exists e. split; [done|]. split; [done|]. intros k. by rewrite decide_False by apply not_elem_of_nil.
  - destruct (eng_delete_law k e He) as (e1 & Hd & He1 & Hv1).
    { apply Hw. apply list_elem_of_here. }
    destruct (IH e1 He1) as (e' & Hf & He' & Hv).
    { intros k' Hk'. apply Hw. by apply list_elem_of_further. }
    exists e'. cbn [for_each]. erewrite M_bind_Ok by exact Hd.
    split; [done|]. split; [done|]. intros k'. rewrite Hv, Hv1.
    rewrite (bt_get_remove bytes_cmp) by by apply eng_view_sorted.
    destruct (bytes_cmp k' k) eqn:Ec.
    + apply cmp_eq in Ec as ->. rewrite (decide_True (P:=k ∈ k :: ks)) by apply list_elem_of_here.
      by case_decide.
    + assert (k' ≠ k) by (intros ->; by rewrite (cmp_refl (cmp:=bytes_cmp)) in Ec).
      assert (k' ∈ k :: ks ↔ k' ∈ ks) as Hiff by (rewrite elem_of_cons; tauto).
      by rewrite (decide_ext (k' ∈ k :: ks) (k' ∈ ks)).
    + assert (k' ≠ k) by (intros ->; by rewrite (cmp_refl (cmp:=bytes_cmp)) in Ec).
      assert (k' ∈ k :: ks ↔ k' ∈ ks) as Hiff by (rewrite elem_of_cons; tauto).
      by rewrite (decide_ext (k' ∈ k :: ks) (k' ∈ ks)).
Qed.

(** Deleting stored keys one by one deletes their set. *)
Lemma delete_keys_stored (ks : list K) e f g : eng_inv e → stores (eng_view e) f →
  (∀ k, k ∈ ks → key_valid k ∧ is_Some (f k)) →
  (∀ k, key_valid k → g k = if decide (k ∈ ks) then None else f k) →
  ∃ e', for_each (List.map key_bytes ks) eng_delete e = (Ok tt, e') ∧ eng_inv e' ∧
    stores (eng_view e') g.
Proof.
  intros He Hr Hks Hd. pose proof Hr as (Hs & Hw & Hg).
  destruct (delete_all (List.map key_bytes ks) e He) as (e' & Hdel & He' & Hv).
  { intros kb (k & -> & [Hk [x Hx]]%Hks)%elem_of_map.
    eapply eng_stored_writable; [done|]. by rewrite Hg. }
  exists e'. split; [done|]. split; [done|].
  apply (stores_of_get e e' f g He' Hr).
  - intros kb vb. rewrite Hv. case_decide; [done|]. intros ->. eauto.
  - intros k Hk. rewrite Hv, Hd, Hg by done.
    assert (key_bytes k ∈ List.map key_bytes ks ↔ k ∈ ks) as Hiff.
    { rewrite elem_of_map. split; [|eauto].
      intros (k' & Heq & Hin). apply key_bytes_inj in Heq; [by subst|done|by apply Hks]. }
    by rewrite (decide_ext _ _ _ _ Hiff).
Qed.

Lemma delete_stored k e f g : eng_inv e → stores (eng_view e) f → key_valid k →
  is_Some (f k) →
  (∀ k', key_valid k' → g k' = if decide (k' = k) then None else f k') →
  ∃ e', eng_delete (key_bytes k) e = (Ok tt, e') ∧ eng_inv e' ∧ stores (eng_view e') g.
Proof.
  intros He Hr Hk Hx Hd.
  destruct (delete_keys_stored [k] e f g He Hr) as (e' & Hdel & He' & Hs').
  - by intros k' ->%list_elem_of_singleton.
  - intros k' Hk'. rewrite Hd by done.
    by rewrite (decide_ext (k' ∈ [k]) (k' = k)) by apply list_elem_of_singleton.
  - exists e'. split; [|done]. cbn [List.map for_each] in Hdel.
    unfold mbind, M_bind in Hdel. destruct (eng_delete (key_bytes k) e) as [[[]| |] ?]; done.
Qed.

(** ** Scans *)

Lemma filtered_entries m f (P : bytes → bool) k x : stores m f → key_valid k →
  (key_bytes k, x) ∈ List.filter (λ kv, P kv.1) m ↔ f k = Some x ∧ P (key_bytes k) = true.
Proof.
  intros (Hs & Hw & Hg) Hk. rewrite elem_of_filter_bool. cbn [fst].
  rewrite <-(bt_get_spec bytes_cmp), Hg by done. done.
Qed.

(** The entries of a scan, when every key in range is the image of an index
    that determines its value: the scan lists the indexes. *)
Lemma scan_image {A} m f (P : bytes → bool) (i : A → K) (x : A → bytes) :
  stores m f →
  (∀ k y, key_valid k → P (key_bytes k) = true → f k = Some y → ∃ a, k = i a ∧ y = x a) →
  (∀ a b, i a = i b → x a = x b → a = b) →
  ∃ l, List.filter (λ kv, P kv.1) m = List.map (λ a, (key_bytes (i a), x a)) l ∧
    ∀ a, a ∈ l ↔ key_valid (i a) ∧ f (i a) = Some (x a) ∧ P (key_bytes (i a)) = true.
Proof.
  intros Hr Hf Hinj.
  destruct (Forall_image (λ a, (key_bytes (i a), x a))
    (λ a, key_valid (i a) ∧ f (i a) = Some (x a) ∧ P (key_bytes (i a)) = true)
    (List.filter (λ kv, P kv.1) m)) as (l & Heq & Hl).
  { apply Forall_forall. intros [kb vb] Hin. pose proof Hr as (Hs & Hw & Hg).
    assert ((kb, vb) ∈ m) as Hin' by (by apply elem_of_filter_bool in Hin as []).
    destruct (Hw _ _ Hin') as (k & Hk & ->).
    apply (filtered_entries m f P k vb Hr Hk) in Hin as [Hget HP].
    destruct (Hf k vb Hk HP Hget) as (a & -> & ->). by exists a. }
  exists l. split; [done|]. rewrite Forall_forall in Hl. intros a. split; [apply Hl|].
  intros (Hk & Hget & HP).
  assert ((key_bytes (i a), x a) ∈ List.map (λ a, (key_bytes (i a), x a)) l) as Hin.
  { rewrite <-Heq. by apply (filtered_entries m f P _ _ Hr Hk). }
  apply elem_of_map in Hin as (b & Hkx & Hb).
  pose proof (f_equal fst Hkx) as Hk'. pose proof (f_equal snd Hkx) as Hx. cbn [fst snd] in Hk', Hx.
  apply key_bytes_inj in Hk'; [|done|by apply Hl]. by rewrite (Hinj a b).
Qed.

(** The indexes come in key order. *)
Lemma scan_image_sorted {A} m f (P : bytes → bool) (i : A → K) (x : A → bytes) l :
  stores m f → List.filter (λ kv, P kv.1) m = List.map (λ a, (key_bytes (i a), x a)) l →
  Forall (λ a, key_valid (i a)) l → StronglySorted (λ a b, key_cmp (i a) (i b) = Lt) l.
Proof.
  intros (Hs & _ & _) Heq. pose proof (filter_sorted bytes_cmp (λ kv, P kv.1) _ Hs) as Hsorted.
  rewrite Heq in Hsorted. clear -Hsorted H2. induction l as [|a l IH]; intros Hv; [constructor|].
  cbn [List.map] in Hsorted. apply sorted_cons_inv in Hsorted as [Hs Hlt].
  apply Forall_cons in Hv as [Ha Hv]. constructor; [by apply IH|].
  rewrite Forall_forall in Hlt. rewrite Forall_forall in Hv. apply Forall_forall. intros b Hb.
  rewrite <-key_bytes_cmp by auto. apply (Hlt (key_bytes (i b), x b)).
  apply elem_of_map. eauto.
Qed.
End store.
