(* ===== verification/Memory.v ===== *)
(** The in-memory engine (src/src/storage/memory.rs) and the engine wrapper
    that logs mutations (src/src/storage/debug.rs), as instances of the engine
    interface. *)
From Stdlib Require Import Strings.Byte NArith Lia.
From stdpp Require Import base list strings.
From S2P Require Import Prelude BTreeMap Engine.

(** * Memory *)

Record Memory := { data : Entries }.

Definition new : Memory := {| data := [] |}.

Definition mem_flush : M Memory unit := mret tt.

Definition mem_delete (key : bytes) : M Memory unit := λ s,
  (Ok tt, {| data := bt_remove bytes_cmp key (data s) |}).

Definition mem_get (key : bytes) : M Memory (option bytes) := λ s,
  (Ok (bt_get bytes_cmp key (data s)), s).

(** The scan iterator clones each entry of the range; its items never fail. *)
Definition mem_scan (range : KeyRange) (s : Memory) : res (list (res (bytes * bytes))) :=
  entries ← bt_range bytes_cmp range (data s);
  Ok (List.map Ok entries).

Definition mem_set (key value : bytes) : M Memory unit := λ s,
  (Ok tt, {| data := bt_insert bytes_cmp key value (data s) |}).

Definition mem_status : M Memory Status := λ s,
  (Ok {| name := "memory";
         keys := N.of_nat (length (data s));
         size := foldl (λ size kv, size + N.of_nat (length kv.1) + N.of_nat (length kv.2))
                   0 (data s);
         total_disk_size := 0; live_disk_size := 0; garbage_disk_size := 0 |}, s).

#[export] Instance memory_engine : Engine Memory := {
  eng_delete := mem_delete; eng_flush := mem_flush; eng_get := mem_get;
  eng_scan := mem_scan; eng_set := mem_set; eng_status := mem_status
}.

#[export] Instance memory_laws : EngineLaws Memory.
Proof.
  refine {| eng_inv := λ s, bt_sorted bytes_cmp (data s);
            eng_view := data; eng_writable := λ _ _, True |}; cbn.
  - done.
  - done.
  - intros r e _. unfold mem_scan. by destruct (bt_range bytes_cmp r (data e)).
  - intros k v e He _. eexists. split; [done|]. cbn. split; [|done].
    by apply (bt_insert_sorted bytes_cmp).
  - intros k e He _. eexists. split; [done|]. cbn. split; [|done].
    by apply (bt_remove_sorted bytes_cmp).
  - done.
  - done.
  - done.
Defined.

(** * Debug *)

(** Wraps an engine and records its mutations; [None] is a delete. *)
Record Debug (E : Type) := { inner : E; write_log : list (bytes * option bytes) }.
Arguments inner {E} d.
Arguments write_log {E} d.

Section debug.
Context {E : Type} `{Engine E}.

Definition dbg_new (e : E) : Debug E := {| inner := e; write_log := [] |}.

Definition take_write_log : M (Debug E) (list (bytes * option bytes)) := λ d,
  (Ok (write_log d), {| inner := inner d; write_log := [] |}).

(** Runs a computation of the wrapped engine. *)
Definition on_inner {A} (m : M E A) : M (Debug E) A := λ d,
  let '(r, e) := m (inner d) in (r, {| inner := e; write_log := write_log d |}).

Definition push_log (entry : bytes * option bytes) : M (Debug E) unit := λ d,
  (Ok tt, {| inner := inner d; write_log := write_log d ++ [entry] |}).

Definition dbg_flush : M (Debug E) unit := on_inner eng_flush.

Definition dbg_delete (key : bytes) : M (Debug E) unit :=
  _ ← on_inner (eng_delete key);
  push_log (key, None).

Definition dbg_get (key : bytes) : M (Debug E) (option bytes) := on_inner (eng_get key).

Definition dbg_scan (range : KeyRange) (d : Debug E) : res (list (res (bytes * bytes))) :=
  eng_scan range (inner d).

Definition dbg_set (key value : bytes) : M (Debug E) unit :=
  _ ← on_inner (eng_set key value);
  push_log (key, Some value).

Definition dbg_status : M (Debug E) Status := on_inner eng_status.

#[export] Instance debug_engine : Engine (Debug E) := {
  eng_delete := dbg_delete; eng_flush := dbg_flush; eng_get := dbg_get;
  eng_scan := dbg_scan; eng_set := dbg_set; eng_status := dbg_status
}.
End debug.

Section debug_laws.
Context {E : Type} `{EngineLaws E}.

#[export] Instance debug_laws : EngineLaws (Debug E).
Proof.
  refine {| eng_inv := λ d, eng_inv (inner d); eng_view := λ d, eng_view (inner d);
            eng_writable := eng_writable |}; cbn.
  - intros. by apply eng_view_sorted.
  - intros k [e l] He. unfold dbg_get, on_inner. by rewrite eng_get_law.
  - intros r d He. by apply eng_scan_law.
  - intros k v d He Hw. destruct (eng_set_law k v (inner d) He Hw) as (e' & He' & ? & ?).
    unfold dbg_set, mbind, M_bind, on_inner. rewrite He'. eexists. by split.
  - intros k d He Hw. destruct (eng_delete_law k (inner d) He Hw) as (e' & He' & ? & ?).
    unfold dbg_delete, mbind, M_bind, on_inner. rewrite He'. eexists. by split.
  - intros k v d. apply eng_stored_writable.
  - intros [e l] He. unfold dbg_flush, on_inner. by rewrite eng_flush_law.
  - intros [e l] He. unfold dbg_status, on_inner. cbn in *. pose proof (eng_status_law e He) as Hs.
    destruct (eng_status e). cbn in *. by subst.
Defined.
End debug_laws.

(** * Properties *)

(** A prefix scan of any engine that keeps the engine contract returns exactly
    the stored keys that start with the prefix, in order, prefixes that end in
    0xff bytes and the empty prefix included. *)
Theorem scan_prefix_exact {E : Type} `{EngineLaws E} (p : bytes) (e : E) : eng_inv e →
  ∃ kvs, scan_prefix p e = Ok (List.map Ok kvs) ∧ bt_sorted bytes_cmp kvs ∧
    ∀ k v, (k, v) ∈ kvs ↔ bt_get bytes_cmp k (eng_view e) = Some v ∧ starts_with p k.
Proof.
  intros He. rewrite scan_prefix_law by done. eexists. split; [done|].
  pose proof (eng_view_sorted e He) as Hs. split; [by apply filter_sorted|].
  intros k v. rewrite elem_of_filter_bool, in_prefix_range. cbn [fst].
  by rewrite (bt_get_spec bytes_cmp).
Qed.

Definition sample_memory : Memory :=
  {| data := [([x61], [x01]); ([x62; xff], [x02]); ([x62; xff; xff], []); ([x63], [x03])] |}.

Lemma scan_prefix_exact_witness :
  ∃ kvs, scan_prefix [x62; xff] sample_memory = Ok (List.map Ok kvs) ∧
    bt_sorted bytes_cmp kvs ∧
    ∀ k v, (k, v) ∈ kvs ↔
      bt_get bytes_cmp k (eng_view sample_memory) = Some v ∧ starts_with [x62; xff] k.
Proof. apply (scan_prefix_exact [x62; xff] sample_memory). repeat constructor. Defined.
