(* ===== verification/BitCask.v ===== *)
(** The BitCask engine (src/src/storage/bitcask.rs): an append-only log file
    with an in-memory index of value positions, rebuilt when the file is opened
    and rewritten by compaction.

    The file is its bytes.  The path, the file lock and the operating system's
    own I/O failures are not modelled; reading past the end of the file, the
    only failure the code itself can cause, is. *)
From Stdlib Require Import Strings.Byte NArith ZArith Lia Floats.SpecFloat.
From stdpp Require Import base list strings.
From S2P Require Import Prelude BTreeMap Engine Memory.

(** * The log file *)

Record Log := { file : bytes }.

Abbreviation KeyDir := (list (bytes * (N * N))).

(** [x as u32] (and [x as i32], read as its 32 bits). *)
Definition as_u32 (n : N) : N := n mod 4294967296.
Definition size_of (bs : bytes) : N := N.of_nat (length bs).

(** Seeks to the end of the file and writes there. *)
Definition append (bs : bytes) : M Log N := λ l,
  (Ok (size_of (file l)), {| file := file l ++ bs |}).

(** [Log::write_entry]. *)
Definition write_entry (key : bytes) (value : option bytes) : M Log (N * N) :=
  let key_len := as_u32 (size_of key) in
  let value_len := from_option (λ v, as_u32 (size_of v)) 0 value in
  let value_len_or_tombstone := from_option (λ v, as_u32 (size_of v)) u32_max value in
  len ← lift (add_u32 8 key_len ≫= λ l, add_u32 l value_len);
  pos ← append (to_be 4 key_len ++ to_be 4 value_len_or_tombstone
                  ++ key ++ default [] value);
  mret (pos, len).

(** [Log::read_value]. *)
Definition read_value (value_pos value_len : N) : M Log bytes := λ l,
  (if decide (value_pos + value_len ≤ size_of (file l))
   then Ok (take (N.to_nat value_len) (drop (N.to_nat value_pos) (file l)))
   else Err (EInternal (Msg "failed to fill whole buffer" [])), l).

(** [Read::read_exact]: [None] is [ErrorKind::UnexpectedEof]. *)
Definition read_exact (n : nat) (r : bytes) : option (bytes * bytes) :=
  if decide (n ≤ length r)%nat then Some (take n r, drop n r) else None.

(** The closure of [build_keydir]: reads the entry at [pos], where the reader
    [r] stands, and returns the key, the value position, the value length (none
    for a tombstone) and the reader after the entry. *)
Definition read_entry (file_len pos : N) (r : bytes)
    : option (bytes * N * option N * bytes) :=
  '(len_buf, r) ← read_exact 4 r;
  let key_len := of_be len_buf in
  '(len_buf, r) ← read_exact 4 r;
  let value_len_or_tombstone :=
    if decide (of_be len_buf < 2147483648) then Some (of_be len_buf) else None in
  let value_pos := pos + 4 + 4 + key_len in
  '(key, r) ← read_exact (N.to_nat key_len) r;
  match value_len_or_tombstone with
  | Some value_len =>
      if decide (file_len < value_pos + value_len) then None
      else Some (key, value_pos, Some value_len, drop (N.to_nat value_len) r)
  | None => Some (key, value_pos, None, r)
  end.

(** The loop of [build_keydir].  Returns the index and the offset at which the
    file is truncated, if an incomplete entry was found.  An entry takes at
    least eight bytes, so the length of the file is enough fuel. *)
Fixpoint build_loop (fuel : nat) (file_len pos : N) (r : bytes) (keydir : KeyDir)
    : res (KeyDir * option N) :=
  match fuel with
  | O => Panic "build_keydir: out of fuel"
  | S fuel =>
      if decide (pos < file_len) then
        match read_entry file_len pos r with
        | Some (key, value_pos, Some value_len, r) =>
            build_loop fuel file_len (value_pos + value_len) r
              (bt_insert bytes_cmp key (value_pos, value_len) keydir)
        | Some (key, value_pos, None, r) =>
            build_loop fuel file_len value_pos r (bt_remove bytes_cmp key keydir)
        | None => Ok (keydir, Some pos)
        end
      else Ok (keydir, None)
  end.

Definition build_keydir : M Log KeyDir := λ l,
  match build_loop (S (length (file l))) (size_of (file l)) 0 (file l) [] with
  | Ok (keydir, None) => (Ok keydir, l)
  | Ok (keydir, Some pos) => (Ok keydir, {| file := take (N.to_nat pos) (file l) |})
  | Err e => (Err e, l)
  | Panic w => (Panic w, l)
  end.

(** * The engine *)

Record BitCask := { log : Log; keydir : KeyDir }.

(** Runs a computation of the log file. *)
Definition on_log {A} (m : M Log A) : M BitCask A := λ s,
  let '(r, l) := m (log s) in (r, {| log := l; keydir := keydir s |}).

Definition set_keydir (f : KeyDir → KeyDir) : M BitCask unit := λ s,
  (Ok tt, {| log := log s; keydir := f (keydir s) |}).

(** [BitCask::new] on the contents of the file. *)
Definition open (contents : bytes) : res BitCask :=
  match build_keydir {| file := contents |} with
  | (Ok keydir, log) => Ok {| log := log; keydir := keydir |}
  | (Err e, _) => Err e
  | (Panic w, _) => Panic w
  end.

Definition cask_delete (key : bytes) : M BitCask unit :=
  _ ← on_log (write_entry key None);
  set_keydir (bt_remove bytes_cmp key).

Definition cask_flush : M BitCask unit := mret tt.

Definition cask_get (key : bytes) : M BitCask (option bytes) := λ s,
  match bt_get bytes_cmp key (keydir s) with
  | Some (value_pos, value_len) =>
      (v ← on_log (read_value value_pos value_len); mret (Some v)) s
  | None => (Ok None, s)
  end.

(** [ScanIterator::map]: reads the value of an index entry. *)
Definition scan_map (l : Log) (item : bytes * (N * N)) : res (bytes * bytes) :=
  let '(key, (value_pos, value_len)) := item in
  value ← fst (read_value value_pos value_len l);
  Ok (key, value).

Definition cask_scan (range : KeyRange) (s : BitCask) : res (list (res (bytes * bytes))) :=
  items ← bt_range bytes_cmp range (keydir s);
  Ok (List.map (scan_map (log s)) items).

Definition cask_set (key value : bytes) : M BitCask unit :=
  '(pos, len) ← on_log (write_entry key (Some value));
  let value_len := as_u32 (size_of value) in
  value_pos ← lift (sub_u64 (pos + len) value_len);
  set_keydir (bt_insert bytes_cmp key (value_pos, value_len)).

Definition cask_status : M BitCask Status := λ s,
  let keys := N.of_nat (length (keydir s)) in
  let size := foldl (λ size kv, size + size_of kv.1 + kv.2.2) 0 (keydir s) in
  let total_disk_size := size_of (file (log s)) in
  let live_disk_size := size + 8 * keys in
  (garbage_disk_size ← sub_u64 total_disk_size live_disk_size;
   Ok {| name := "bitcask"; keys := keys; size := size;
         total_disk_size := total_disk_size; live_disk_size := live_disk_size;
         garbage_disk_size := garbage_disk_size |}, s).

#[export] Instance bitcask_engine : Engine BitCask := {
  eng_delete := cask_delete; eng_flush := cask_flush; eng_get := cask_get;
  eng_scan := cask_scan; eng_set := cask_set; eng_status := cask_status
}.

(** * Compaction *)

(** The loop of [write_log], over the entries of the index in key order. *)
Fixpoint write_live (l : Log) (items new_keydir : KeyDir) : M Log KeyDir :=
  match items with
  | [] => mret new_keydir
  | (key, (value_pos, value_len)) :: items =>
      value ← lift (fst (read_value value_pos value_len l));
      '(pos, len) ← write_entry key (Some value);
      new_pos ← lift (sub_u64 (pos + len) value_len);
      write_live l items (bt_insert bytes_cmp key (new_pos, value_len) new_keydir)
  end.

(** [BitCask::compact]: the new log replaces the old one only when it is
    complete. *)
Definition compact : M BitCask unit := λ s,
  match write_live (log s) (keydir s) [] {| file := [] |} with
  | (Ok new_keydir, new_log) => (Ok tt, {| log := new_log; keydir := new_keydir |})
  | (Err e, _) => (Err e, s)
  | (Panic w, _) => (Panic w, s)
  end.

(** [u64 as f64], as an IEEE 754 binary64 value. *)
Definition f64_of_u64 (n : N) : spec_float := binary_normalize 53 1024 (Z.of_N n) 0 false.

(** [BitCask::new_compact]. *)
Definition new_compact (contents : bytes) (garbage_min_ratio : spec_float)
    (garbage_min_bytes : N) : res BitCask :=
  s ← open contents;
  status ← fst (cask_status s);
  let garbage_ratio :=
    SFdiv 53 1024 (f64_of_u64 (garbage_disk_size status))
      (f64_of_u64 (total_disk_size status)) in
  if (0 <? garbage_disk_size status) && (garbage_min_bytes <=? garbage_disk_size status)
     && SFleb garbage_min_ratio garbage_ratio
  then match compact s with
       | (Ok _, s) => Ok s
       | (Err e, _) => Err e
       | (Panic w, _) => Panic w
       end
  else Ok s.

(** * The log as a sequence of entries *)

(** An entry: a key with its value, or none for a tombstone. *)
Abbreviation entry := (bytes * option bytes)%type.

(** The size limit: the entry length is a [u32], the value length an [i32]. *)
Definition entry_ok (e : entry) : Prop :=
  8 + size_of e.1 + size_of (default [] e.2) ≤ u32_max ∧
  size_of (default [] e.2) < 2147483648.

Definition entry_bytes (e : entry) : bytes :=
  to_be 4 (size_of e.1) ++ to_be 4 (from_option size_of u32_max e.2)
    ++ e.1 ++ default [] e.2.

Definition log_bytes (es : list entry) : bytes := es ≫= entry_bytes.

(** The index after an entry at a given position. *)
Definition index_step (st : N * KeyDir) (e : entry) : N * KeyDir :=
  let '(pos, kd) := st in
  let value_pos := pos + 8 + size_of e.1 in
  match e.2 with
  | Some v => (value_pos + size_of v, bt_insert bytes_cmp e.1 (value_pos, size_of v) kd)
  | None => (value_pos, bt_remove bytes_cmp e.1 kd)
  end.
Definition index (es : list entry) : N * KeyDir := foldl index_step (0, []) es.

(** The map an entry sequence stands for. *)
Definition apply_entry (m : Entries) (e : entry) : Entries :=
  match e.2 with
  | Some v => bt_insert bytes_cmp e.1 v m
  | None => bt_remove bytes_cmp e.1 m
  end.
Definition replay (es : list entry) : Entries := foldl apply_entry [] es.

(** The value an index entry points to. *)
Definition slice (f : bytes) (p : N * N) : bytes :=
  take (N.to_nat p.2) (drop (N.to_nat p.1) f).
Definition view_of (f : bytes) (kd : KeyDir) : Entries :=
  map_values (slice f) kd.

(** A BitCask engine represents a sequence of entries. *)
Definition represents (s : BitCask) (es : list entry) : Prop :=
  Forall entry_ok es ∧ file (log s) = log_bytes es ∧ keydir s = (index es).2.

Definition cask_inv (s : BitCask) : Prop := ∃ es, represents s es.
Definition cask_view (s : BitCask) : Entries := view_of (file (log s)) (keydir s).

#[local] Opaque to_be.

(** ** Entries *)

Lemma size_of_app a b : size_of (a ++ b) = size_of a + size_of b.
Proof. unfold size_of. rewrite length_app. lia. Qed.

Lemma size_of_to_be w n : size_of (to_be w n) = N.of_nat w.
Proof. unfold size_of. by rewrite length_to_be. Qed.

Lemma size_of_entry e : size_of (entry_bytes e) = 8 + size_of e.1 + size_of (default [] e.2).
Proof. unfold entry_bytes. rewrite !size_of_app, !size_of_to_be. lia. Qed.

Lemma log_bytes_snoc es e : log_bytes (es ++ [e]) = log_bytes es ++ entry_bytes e.
Proof. unfold log_bytes. rewrite bind_app. simpl. by rewrite app_nil_r. Qed.

Lemma index_snoc es e : index (es ++ [e]) = index_step (index es) e.
Proof. unfold index. by rewrite foldl_snoc. Qed.

Lemma index_step_pos st e : (index_step st e).1 = st.1 + size_of (entry_bytes e).
Proof.
  rewrite size_of_entry. destruct st as [pos kd], e as [k [v|]]; simpl; [lia|].
  change (size_of []) with 0. lia.
Qed.

Lemma index_pos es : (index es).1 = size_of (log_bytes es).
Proof.
  induction es as [|e es IH] using rev_ind; [done|].
  rewrite index_snoc, log_bytes_snoc, size_of_app, index_step_pos. by rewrite IH.
Qed.

Lemma as_u32_small n : n ≤ u32_max → as_u32 n = n.
Proof. unfold as_u32, u32_max. intros. apply N.mod_small. lia. Qed.

(** Writing an entry within the limits appends its bytes. *)
Lemma write_entry_ok e l : entry_ok e →
  write_entry e.1 e.2 l
  = (Ok (size_of (file l), size_of (entry_bytes e)), {| file := file l ++ entry_bytes e |}).
Proof.
  intros [H1 H2]. rewrite size_of_entry. destruct e as [k ov]. simpl in *.
  unfold write_entry. rewrite (as_u32_small (size_of k)) by lia.
  replace (from_option (λ v, as_u32 (size_of v)) 0 ov) with (size_of (default [] ov)).
  2:{ destruct ov; simpl in *; [symmetry; apply as_u32_small; lia|done]. }
  replace (from_option (λ v, as_u32 (size_of v)) u32_max ov)
    with (from_option size_of u32_max ov).
  2:{ destruct ov; simpl in *; [symmetry; apply as_u32_small; lia|done]. }
  unfold mbind, M_bind, lift, res_bind, add_u32.
  rewrite !decide_True by lia. done.
Qed.

(** An entry outside the limits never returns from [write_entry] with a length
    that is its size. *)
Lemma write_entry_Ok_inv e l r l' :
  size_of e.1 ≤ u32_max → size_of (default [] e.2) < 2147483648 →
  write_entry e.1 e.2 l = (Ok r, l') → entry_ok e.
Proof.
  destruct e as [k ov]. simpl. intros Hk Hv. unfold write_entry.
  rewrite (as_u32_small (size_of k)) by done.
  unfold mbind at 1, M_bind, lift, mbind, res_bind, add_u32. unfold entry_ok. simpl.
  case_decide; [|done]. case_decide as Hd; [|done]. intros _.
  assert (from_option (λ v, as_u32 (size_of v)) 0 ov = size_of (default [] ov)) as Heq.
  { destruct ov; simpl in *; [apply as_u32_small; unfold u32_max; lia|done]. }
  rewrite Heq in Hd. lia.
Qed.

Lemma read_exact_app n a r : length a = n → read_exact n (a ++ r) = Some (a, r).
Proof.
  intros <-. unfold read_exact. rewrite decide_True by (rewrite length_app; lia).
  by rewrite take_app_length, drop_app_length.
Qed.

Lemma read_exact_short n r : (length r < n)%nat → read_exact n r = None.
Proof. intros. unfold read_exact. rewrite decide_False; [done|lia]. Qed.

Lemma four_bytes n : n ≤ u32_max → of_be (to_be 4 n) = n.
Proof.
  intros. apply of_to_be. change (256 ^ N.of_nat 4) with 4294967296.
  unfold u32_max in *. lia.
Qed.

(** Reading back an entry, whatever follows it. *)
Lemma read_entry_app file_len pos e r : entry_ok e →
  pos + size_of (entry_bytes e) ≤ file_len →
  read_entry file_len pos (entry_bytes e ++ r)
  = Some (e.1, pos + 8 + size_of e.1, size_of <$> e.2, r).
Proof.
  rewrite size_of_entry. destruct e as [k ov]. unfold entry_ok. simpl. intros [H1 H2] Hf.
  unfold read_entry, entry_bytes. cbn [fst snd]. rewrite <-!app_assoc.
  rewrite read_exact_app by apply length_to_be. cbn [mbind option_bind].
  rewrite read_exact_app by apply length_to_be. cbn [mbind option_bind].
  rewrite (four_bytes (size_of k)) by lia.
  rewrite read_exact_app by (unfold size_of; lia). cbn [mbind option_bind].
  replace (pos + 4 + 4 + size_of k) with (pos + 8 + size_of k) by lia.
  destruct ov as [v|]; simpl in *.
  - rewrite four_bytes by lia. rewrite decide_True by lia.
    rewrite decide_False by lia. repeat f_equal.
    unfold size_of. rewrite Nat2N.id. apply drop_app_length.
  - rewrite four_bytes by (unfold u32_max; lia). by rewrite decide_False.
Qed.

Lemma prefix_split {A} (p q a b : list A) : p ++ q = a ++ b →
  (length p < length a)%nat ∨ ∃ p', p = a ++ p' ∧ p' ++ q = b.
Proof.
  intros [(k & -> & ->)|(k & -> & ->)]%app_eq_inv; [right; by exists k|].
  destruct k as [|x k].
  - right. exists []. by rewrite !app_nil_r.
  - left. rewrite length_app. cbn [length]. lia.
Qed.

(** An entry cut short is an unexpected end of file. *)
Lemma read_entry_partial pos e p q : entry_ok e →
  entry_bytes e = p ++ q → q ≠ [] →
  read_entry (pos + size_of p) pos p = None.
Proof.
  destruct e as [k ov]. unfold entry_ok. simpl. intros [H1 H2] Hp Hq. symmetry in Hp.
  unfold entry_bytes in Hp. cbn [fst snd] in Hp. unfold read_entry.
  apply prefix_split in Hp as [Hs|(p1 & -> & Hp)].
  { rewrite length_to_be in Hs. by rewrite read_exact_short. }
  rewrite read_exact_app by apply length_to_be. cbn [mbind option_bind].
  apply prefix_split in Hp as [Hs|(p2 & -> & Hp)].
  { rewrite length_to_be in Hs. by rewrite read_exact_short. }
  rewrite read_exact_app by apply length_to_be. cbn [mbind option_bind].
  rewrite (four_bytes (size_of k)) by lia.
  apply prefix_split in Hp as [Hs|(p3 & -> & Hp)].
  { rewrite read_exact_short; [done|]. unfold size_of. lia. }
  rewrite read_exact_app by (unfold size_of; lia). cbn [mbind option_bind].
  destruct ov as [v|]; simpl in *.
  - rewrite four_bytes, decide_True by lia. rewrite decide_True; [done|].
    subst v. rewrite !size_of_app, !size_of_to_be in *.
    destruct q as [|x q]; [done|]. unfold size_of. cbn [length]. lia.
  - by destruct p3.
Qed.

(** ** Rebuilding the index *)

(** One iteration of the loop per complete entry. *)
Lemma build_loop_entries es fuel file_len pos kd r : Forall entry_ok es →
  (length (log_bytes es) < fuel)%nat → pos + size_of (log_bytes es) ≤ file_len →
  ∃ fuel', (fuel - length (log_bytes es) ≤ fuel')%nat ∧
    build_loop fuel file_len pos (log_bytes es ++ r) kd
    = build_loop fuel' file_len (foldl index_step (pos, kd) es).1 r
        (foldl index_step (pos, kd) es).2.
Proof.
  revert fuel pos kd. induction es as [|e es IH]; intros fuel pos kd Hok Hfuel Hlen.
  - exists fuel. cbn in *. split; [lia|done].
  - apply Forall_cons in Hok as [He Hok].
    unfold log_bytes in Hfuel, Hlen |- *. rewrite bind_cons in *.
    fold (log_bytes es) in *. rewrite length_app in Hfuel. rewrite size_of_app in Hlen.
    pose proof (size_of_entry e) as Hse. unfold size_of in Hse at 1.
    destruct fuel as [|fuel]; [lia|]. cbn [build_loop]. rewrite decide_True by (unfold size_of in *; lia).
    rewrite <-app_assoc, read_entry_app by (done || lia).
    cbn [foldl]. destruct e as [k [v|]]; cbn [fst snd fmap option_fmap option_map index_step] in *.
    + destruct (IH fuel (pos + 8 + size_of k + size_of v)
        (bt_insert bytes_cmp k (pos + 8 + size_of k, size_of v) kd)) as (f' & H2 & H3);
        [done|lia| |].
      { rewrite size_of_entry in Hlen. cbn [fst snd] in Hlen. simpl in Hlen. lia. }
      exists f'. rewrite H3. rewrite !length_app. split; [lia|done].
    + destruct (IH fuel (pos + 8 + size_of k) (bt_remove bytes_cmp k kd)) as (f' & H2 & H3);
        [done|lia| |].
      { rewrite size_of_entry in Hlen. cbn [fst snd] in Hlen. simpl in Hlen. lia. }
      exists f'. rewrite H3. rewrite !length_app. split; [lia|done].
Qed.

(** The index of a complete log is the fold of its entries, and the file is
    left alone. *)
Lemma build_keydir_log es : Forall entry_ok es →
  build_keydir {| file := log_bytes es |} = (Ok (index es).2, {| file := log_bytes es |}).
Proof.
  intros Hok. unfold build_keydir. cbn [file].
  destruct (build_loop_entries es (S (length (log_bytes es))) (size_of (log_bytes es)) 0 [] [])
    as (f' & Hf2 & Heq); [done|lia|lia|].
  rewrite app_nil_r in Heq. rewrite Heq. fold (index es).
  destruct f' as [|f']; [lia|]. cbn [build_loop].
  rewrite index_pos, decide_False by lia. done.
Qed.

(** A log cut in the middle of its last entry is truncated to the entries that
    are complete. *)
Lemma build_keydir_partial es e p q : Forall entry_ok es → entry_ok e →
  entry_bytes e = p ++ q → p ≠ [] → q ≠ [] →
  build_keydir {| file := log_bytes es ++ p |}
  = (Ok (index es).2, {| file := log_bytes es |}).
Proof.
  intros Hok He Hp Hne Hq. unfold build_keydir. cbn [file].
  destruct (build_loop_entries es (S (length (log_bytes es ++ p)))
    (size_of (log_bytes es ++ p)) 0 [] p) as (f' & Hf2 & Heq);
    [done|rewrite length_app; lia|rewrite size_of_app; lia|].
  rewrite Heq. fold (index es). rewrite length_app in Hf2.
  destruct f' as [|f']; [lia|]. cbn [build_loop].
  assert (0 < size_of p) by (destruct p; [done|unfold size_of; cbn [length]; lia]).
  rewrite index_pos, decide_True by (rewrite size_of_app; lia).
  rewrite size_of_app. rewrite (read_entry_partial _ e p q) by done.
  unfold size_of. by rewrite Nat2N.id, take_app_length.
Qed.

(** ** The stored map *)

Lemma index_sorted es : bt_sorted bytes_cmp (index es).2.
Proof.
  induction es as [|[k [v|]] es IH] using rev_ind; [constructor|..];
    rewrite index_snoc; destruct (index es) as [pos kd]; simpl in *.
  - by apply (bt_insert_sorted bytes_cmp).
  - by apply (bt_remove_sorted bytes_cmp).
Qed.

Definition in_bounds (f : bytes) (kp : bytes * (N * N)) : Prop :=
  kp.2.1 + kp.2.2 ≤ size_of f.

Lemma in_bounds_app f g kp : in_bounds f kp → in_bounds (f ++ g) kp.
Proof. unfold in_bounds. rewrite size_of_app. lia. Qed.

Lemma index_in_bounds es : Forall (in_bounds (log_bytes es)) (index es).2.
Proof.
  induction es as [|e es IH] using rev_ind; [constructor|].
  pose proof (index_pos es) as Hpos. rewrite index_snoc, log_bytes_snoc.
  assert (Forall (in_bounds (log_bytes es ++ entry_bytes e)) (index es).2) as IH'.
  { eapply Forall_impl; [exact IH|]. intros. by apply in_bounds_app. }
  pose proof (size_of_entry e) as Hse.
  destruct (index es) as [pos kd], e as [k [v|]]; simpl in *.
  - apply (bt_insert_Forall bytes_cmp); [|done]. intros k' _ ->. unfold in_bounds. simpl.
    rewrite size_of_app. lia.
  - by apply (bt_remove_Forall bytes_cmp).
Qed.

Lemma slice_app f g p : p.1 + p.2 ≤ size_of f → slice (f ++ g) p = slice f p.
Proof.
  unfold slice, size_of. intros H. rewrite drop_app_le by lia.
  rewrite take_app_le; [done|]. rewrite length_drop. lia.
Qed.

Lemma view_of_app f g kd : Forall (in_bounds f) kd → view_of (f ++ g) kd = view_of f kd.
Proof.
  induction 1 as [|[k p] kd Hb Hkd IH]; [done|]. unfold view_of in *. simpl.
  rewrite IH, slice_app by done. done.
Qed.

(** The value of an entry is where the index says. *)
Lemma slice_entry f k v :
  slice (f ++ entry_bytes (k, Some v)) (size_of f + 8 + size_of k, size_of v) = v.
Proof.
  unfold slice. cbn [fst snd]. unfold entry_bytes. cbn [fst snd from_option]. unfold id.
  replace (f ++ to_be 4 (size_of k) ++ to_be 4 (size_of v) ++ k ++ v)
    with ((f ++ to_be 4 (size_of k) ++ to_be 4 (size_of v) ++ k) ++ v)
    by (by rewrite <-!app_assoc).
  rewrite drop_app_length'.
  - unfold size_of. rewrite Nat2N.id. by apply take_ge.
  - rewrite !length_app, !length_to_be. unfold size_of. lia.
Qed.

Lemma view_of_index es : view_of (log_bytes es) (index es).2 = replay es.
Proof.
  induction es as [|e es IH] using rev_ind; [done|].
  pose proof (index_pos es) as Hpos. pose proof (index_in_bounds es) as Hb.
  rewrite index_snoc, log_bytes_snoc. unfold replay. rewrite foldl_snoc.
  fold (replay es). rewrite <-IH.
  destruct (index es) as [pos kd], e as [k [v|]]; simpl in *; unfold apply_entry; simpl.
  - unfold view_of at 1. rewrite bt_insert_map. fold (view_of (log_bytes es ++ entry_bytes (k, Some v)) kd).
    rewrite Hpos, slice_entry, view_of_app; done.
  - unfold view_of at 1. rewrite bt_remove_map. fold (view_of (log_bytes es ++ entry_bytes (k, None)) kd).
    by rewrite view_of_app.
Qed.

Lemma represents_view s es : represents s es → cask_view s = replay es.
Proof. intros (_ & Hf & Hk). unfold cask_view. rewrite Hf, Hk. apply view_of_index. Qed.

Lemma read_value_slice s p : in_bounds (file (log s)) p →
  read_value p.2.1 p.2.2 (log s) = (Ok (slice (file (log s)) p.2), log s).
Proof. intros H. unfold read_value. rewrite decide_True by done. done. Qed.

Lemma represents_in_bounds s es : represents s es → Forall (in_bounds (file (log s))) (keydir s).
Proof. intros (_ & Hf & Hk). rewrite Hf, Hk. apply index_in_bounds. Qed.

(** ** The operations *)

Lemma cask_get_law s k : cask_inv s →
  cask_get k s = (Ok (bt_get bytes_cmp k (cask_view s)), s).
Proof.
  intros [es Hr]. pose proof (represents_in_bounds s es Hr) as Hb.
  unfold cask_get, cask_view, view_of. rewrite bt_get_map.
  destruct (bt_get bytes_cmp k (keydir s)) as [p|] eqn:E; [|done].
  apply (bt_get_elem bytes_cmp) in E. rewrite Forall_forall in Hb. specialize (Hb _ E).
  pose proof (read_value_slice s (k, p) Hb) as Hread. cbn [fst snd] in Hread.
  destruct p as [vp vl]. unfold mbind, M_bind, on_log. cbn [fst snd] in Hread.
  rewrite Hread. by destruct s.
Qed.

Lemma cask_scan_law r s : cask_inv s →
  cask_scan r s = fmap (M:=res) (List.map Ok) (bt_range bytes_cmp r (cask_view s)).
Proof.
  intros [es Hr]. pose proof (represents_in_bounds s es Hr) as Hb.
  unfold cask_scan, cask_view, view_of, bt_range. destruct (range_valid bytes_cmp r); [|done].
  rewrite filter_map_values. cbn. f_equal.
  assert (Forall (in_bounds (file (log s)))
    (List.filter (λ kv, in_range bytes_cmp r kv.1) (keydir s))) as Hb'.
  { rewrite Forall_forall in Hb |- *. intros x Hx. apply elem_of_filter_bool in Hx as [Hx _]. auto. }
  induction Hb' as [|[k p] l Hp Hl IH]; [done|].
  cbn [map_values List.map fst snd]. f_equal; [|exact IH]. unfold scan_map.
  pose proof (read_value_slice s (k, p) Hp) as Hread. destruct p as [vp vl].
  cbn [fst snd] in Hread. rewrite Hread. done.
Qed.

(** A write appends its entry and updates the index. *)
Lemma cask_set_ok s es k v : represents s es → entry_ok (k, Some v) →
  ∃ s', cask_set k v s = (Ok tt, s') ∧ represents s' (es ++ [(k, Some v)]).
Proof.
  intros (Hok & Hf & Hk) He. unfold cask_set, mbind, M_bind, on_log.
  rewrite (write_entry_ok (k, Some v)) by done.
  unfold lift, sub_u64. rewrite size_of_entry. cbn [fst snd from_option]. unfold id.
  destruct He as [He1 He2]. cbn [fst snd from_option] in He1, He2. unfold id in He1, He2.
  rewrite (as_u32_small (size_of v)) by lia. rewrite decide_True by lia.
  eexists. split; [reflexivity|]. unfold represents. cbn [log file keydir set_keydir].
  split; [apply Forall_app; split; [done|by apply Forall_singleton]|].
  rewrite log_bytes_snoc, index_snoc, Hf, Hk. split; [done|].
  pose proof (index_pos es) as Hpos. destruct (index es) as [pos kd]. cbn in *. subst pos.
  repeat f_equal. lia.
Qed.

Lemma cask_delete_ok s es k : represents s es → entry_ok (k, None) →
  ∃ s', cask_delete k s = (Ok tt, s') ∧ represents s' (es ++ [(k, None)]).
Proof.
  intros (Hok & Hf & Hk) He. unfold cask_delete, mbind, M_bind, on_log.
  rewrite (write_entry_ok (k, None)) by done.
  eexists. split; [reflexivity|]. unfold represents. cbn [log file keydir set_keydir].
  split; [apply Forall_app; split; [done|by apply Forall_singleton]|].
  rewrite log_bytes_snoc, index_snoc, Hf, Hk. split; [done|].
  by destruct (index es).
Qed.

Lemma replay_sorted es : bt_sorted bytes_cmp (replay es).
Proof.
  induction es as [|[k [v|]] es IH] using rev_ind; [constructor|..];
    unfold replay; rewrite foldl_snoc; fold (replay es); unfold apply_entry; simpl.
  - by apply (bt_insert_sorted bytes_cmp).
  - by apply (bt_remove_sorted bytes_cmp).
Qed.

(** Whatever is stored was written within the limits. *)
Lemma replay_ok es : Forall entry_ok es →
  Forall (λ kv, entry_ok (kv.1, Some kv.2)) (replay es).
Proof.
  induction es as [|[k ov] es IH] using rev_ind; [constructor|].
  intros [H1 [He _]%Forall_cons]%Forall_app.
  unfold replay; rewrite foldl_snoc; fold (replay es); unfold apply_entry; simpl.
  destruct ov as [v|].
  - apply (bt_insert_Forall bytes_cmp); [intros k' _ ->; exact He|auto].
  - apply (bt_remove_Forall bytes_cmp); auto.
Qed.

Lemma cask_stored_writable s k v : cask_inv s →
  bt_get bytes_cmp k (cask_view s) = Some v → entry_ok (k, Some []).
Proof.
  intros [es Hr] Hg. pose proof Hr as (Hok & _ & _).
  rewrite (represents_view s es Hr) in Hg. apply (bt_get_elem bytes_cmp) in Hg.
  pose proof (replay_ok es Hok) as Hall. rewrite Forall_forall in Hall.
  destruct (Hall _ Hg) as [H1 H2]. unfold entry_ok in *. simpl in *.
  change (size_of []) with 0. split; lia.
Qed.

#[export] Instance bitcask_laws : EngineLaws BitCask.
Proof.
  refine {| eng_inv := cask_inv; eng_view := cask_view;
            eng_writable := λ k v, entry_ok (k, Some v) |}; cbn [eng_get eng_scan eng_set
            eng_delete eng_flush eng_status bitcask_engine].
  - intros e [es Hr]. rewrite (represents_view e es Hr). apply replay_sorted.
  - intros k e He. by apply cask_get_law.
  - intros r e He. by apply cask_scan_law.
  - intros k v e [es Hr] Hw. destruct (cask_set_ok e es k v Hr Hw) as (e' & He & Hr').
    exists e'. split; [done|]. split; [by eexists|].
    rewrite (represents_view _ _ Hr), (represents_view _ _ Hr').
    unfold replay. by rewrite foldl_snoc.
  - intros k e [es Hr] Hw. destruct (cask_delete_ok e es k Hr Hw) as (e' & He & Hr').
    exists e'. split; [done|]. split; [by eexists|].
    rewrite (represents_view _ _ Hr), (represents_view _ _ Hr').
    unfold replay. by rewrite foldl_snoc.
  - intros k v e. apply cask_stored_writable.
  - done.
  - done.
Defined.

(** ** Disk usage *)

Definition live_entry (kv : bytes * bytes) : entry := (kv.1, Some kv.2).

(** The disk size of the live entries of an index. *)
Definition live_size (kd : KeyDir) : N :=
  foldl (λ size kv, size + size_of kv.1 + kv.2.2) 0 kd + 8 * N.of_nat (length kd).

Lemma foldl_size a kd :
  foldl (λ size (kv : bytes * (N * N)), size + size_of kv.1 + kv.2.2) a kd
  = a + foldl (λ size kv, size + size_of kv.1 + kv.2.2) 0 kd.
Proof.
  revert a. induction kd as [|kv kd IH]; intros a; cbn [foldl]; [lia|].
  rewrite IH, (IH (0 + _ + _)). lia.
Qed.

Lemma live_size_cons kv kd : live_size (kv :: kd) = 8 + size_of kv.1 + kv.2.2 + live_size kd.
Proof. unfold live_size. cbn [foldl length]. rewrite foldl_size. lia. Qed.

Lemma live_size_insert k p kd :
  live_size (bt_insert bytes_cmp k p kd) ≤ 8 + size_of k + p.2 + live_size kd.
Proof.
  induction kd as [|[k' p'] kd IH]; cbn [bt_insert]; [by rewrite live_size_cons|].
  destruct (bytes_cmp k k') eqn:E; rewrite ?live_size_cons; cbn [fst snd]; [|lia..].
  apply cmp_eq in E as ->. lia.
Qed.

Lemma live_size_remove k kd : live_size (bt_remove bytes_cmp k kd) ≤ live_size kd.
Proof.
  induction kd as [|[k' p'] kd IH]; cbn [bt_remove]; [done|].
  destruct (bytes_cmp k k'); rewrite ?live_size_cons; lia.
Qed.

Lemma live_size_index es : live_size (index es).2 ≤ size_of (log_bytes es).
Proof.
  induction es as [|e es IH] using rev_ind; [done|].
  rewrite index_snoc, log_bytes_snoc, size_of_app, size_of_entry.
  destruct (index es) as [pos kd], e as [k [v|]]; cbn [index_step fst snd] in *.
  - etrans; [apply live_size_insert|]. cbn [snd]. simpl. lia.
  - etrans; [apply live_size_remove|]. lia.
Qed.

Lemma size_of_slice f kp : in_bounds f kp → size_of (slice f kp.2) = kp.2.2.
Proof.
  unfold in_bounds, slice, size_of. intros H.
  rewrite length_take, length_drop. lia.
Qed.

(** The disk size a map needs. *)
Definition disk_size (m : Entries) : N :=
  foldr (λ kv n, 8 + size_of kv.1 + size_of kv.2 + n) 0 m.

Lemma live_size_view f kd : Forall (in_bounds f) kd → live_size kd = disk_size (view_of f kd).
Proof.
  induction 1 as [|kp kd Hp Hkd IH]; [done|].
  rewrite live_size_cons, IH. cbn [view_of map_values List.map disk_size foldr fst snd].
  by rewrite size_of_slice.
Qed.

Lemma log_bytes_live m : size_of (log_bytes (List.map live_entry m)) = disk_size m.
Proof.
  induction m as [|kv m IH]; [done|]. cbn [List.map]. unfold log_bytes.
  rewrite bind_cons, size_of_app, size_of_entry. fold (log_bytes (List.map live_entry m)).
  rewrite IH. done.
Qed.

(** ** Compaction *)


Lemma write_live_ok l items es nl nkd :
  Forall (in_bounds (file l)) items →
  Forall entry_ok (List.map live_entry (view_of (file l) items)) →
  represents {| log := nl; keydir := nkd |} es →
  ∃ nl' nkd', write_live l items nkd nl = (Ok nkd', nl') ∧
    represents {| log := nl'; keydir := nkd' |}
      (es ++ List.map live_entry (view_of (file l) items)).
Proof.
  intros Hb. revert es nl nkd. induction Hb as [|[k p] items Hp Hb IH]; intros es nl nkd Hok Hr.
  - exists nl, nkd. split; [done|]. by rewrite app_nil_r.
  - cbn [view_of map_values List.map fst snd] in *. apply Forall_cons in Hok as [He Hok].
    unfold live_entry at 1 in He. cbn [fst snd] in He.
    pose proof (cask_set_ok _ es k (slice (file l) p) Hr He) as (s' & Hs & Hr').
    pose proof (size_of_slice _ _ Hp) as Hsz. cbn [fst snd] in Hsz.
    destruct p as [vp vl]. cbn [write_live].
    erewrite M_bind_Ok by (unfold lift, read_value; rewrite decide_True by done; reflexivity).
    change (take _ _) with (slice (file l) (vp, vl)).
    unfold cask_set, mbind at 1, M_bind at 1, on_log in Hs. cbn [log] in Hs.
    rewrite (write_entry_ok (k, Some (slice (file l) (vp, vl)))) in Hs by done.
    erewrite M_bind_Ok by (by apply (write_entry_ok (k, Some (slice (file l) (vp, vl))))).
    cbn [fst snd] in *. rewrite as_u32_small in Hs.
    2:{ destruct He as [He _]. simpl in He. lia. }
    rewrite Hsz in Hs.
    apply M_bind_Ok_inv in Hs as (np & s1 & H1 & H2). unfold lift in H1.
    injection H1 as Hnp <-. rewrite Hnp. unfold set_keydir in H2. cbn in H2.
    injection H2 as <-.
    edestruct (IH (es ++ [(k, Some (slice (file l) (vp, vl)))])) as (nl' & nkd' & Hw & Hr'');
      [done|exact Hr'|].
    exists nl', nkd'. erewrite M_bind_Ok by reflexivity. split; [exact Hw|].
    by rewrite <-app_assoc in Hr''.
Qed.

(** Replaying the live entries of a sorted map rebuilds it. *)
Lemma replay_live m : bt_sorted bytes_cmp m → replay (List.map live_entry m) = m.
Proof.
  induction m as [|kv m IH] using rev_ind; intros Hs; [done|].
  rewrite map_app. cbn [List.map]. unfold replay. rewrite foldl_snoc. fold (replay (List.map live_entry m)).
  apply sorted_app_inv in Hs as (Hs & _ & Hlt). rewrite IH by done.
  unfold apply_entry, live_entry. cbn [fst snd]. destruct kv as [k v].
  rewrite (bt_insert_last bytes_cmp); [done|].
  apply Forall_forall. intros x Hx. apply (Hlt x (k, v) Hx). by apply list_elem_of_singleton.
Qed.

Lemma compact_ok s : cask_inv s →
  ∃ s', compact s = (Ok tt, s') ∧ represents s' (List.map live_entry (cask_view s)).
Proof.
  intros [es Hr]. pose proof Hr as (Hok & _ & _).
  unfold compact. destruct (write_live_ok (log s) (keydir s) [] {| file := [] |} [])
    as (nl & nkd & Hw & Hr').
  - by eapply represents_in_bounds.
  - pose proof (replay_ok es Hok) as Hall. rewrite <-(represents_view s es Hr) in Hall.
    apply Forall_map. exact Hall.
  - by split.
  - rewrite Hw. eexists. split; [done|]. exact Hr'.
Qed.

(** * Properties *)

(** Opening the log file of a BitCask database rebuilds the same key directory
    and leaves the file as it is. *)
Theorem reopen_same s : cask_inv s → open (file (log s)) = Ok s.
Proof.
  intros [es (Hok & Hf & Hk)]. unfold open. destruct s as [[f] kd]. cbn in *. subst.
  by rewrite build_keydir_log.
Qed.

(** A small engine for the witnesses: two writes and a delete. *)
Definition sample : BitCask :=
  snd ((_ ← cask_set [x61] [x01; x02]; _ ← cask_set [x62] []; cask_delete [x61])
         {| log := {| file := [] |}; keydir := [] |}).

Lemma sample_represents :
  represents sample [([x61], Some [x01; x02]); ([x62], Some []); ([x61], None)].
Proof. split; [repeat (apply Forall_cons; split; [by split|]); constructor|done]. Qed.

Lemma sample_inv : cask_inv sample.
Proof. eexists. apply sample_represents. Qed.

Lemma reopen_same_witness : cask_inv sample ∧ open (file (log sample)) = Ok sample.
Proof. split; [exact sample_inv|]. apply (reopen_same sample sample_inv). Defined.

(** C31. When the write of a set reached the file only in part, opening the file
    recovers the database as it was before that write. *)
Theorem crash_recovery s k v s' n :
  cask_inv s → entry_ok (k, Some v) → cask_set k v s = (Ok tt, s') →
  (length (file (log s)) ≤ n < length (file (log s')))%nat →
  open (take n (file (log s'))) = Ok s.
Proof.
  intros [es Hr] He Hset Hn. pose proof Hr as (Hok & Hf & Hk).
  destruct (cask_set_ok s es k v Hr He) as (s1 & Hs1 & (_ & Hf1 & _)).
  rewrite Hset in Hs1. injection Hs1 as <-. rewrite log_bytes_snoc in Hf1.
  rewrite Hf in Hn. rewrite Hf1 in Hn |- *. rewrite length_app in Hn.
  set (m := (n - length (log_bytes es))%nat).
  assert (take n (log_bytes es ++ entry_bytes (k, Some v))
    = log_bytes es ++ take m (entry_bytes (k, Some v))) as ->.
  { by rewrite take_app_ge by lia. }
  unfold open. destruct (decide (m = 0)%nat) as [->|Hm].
  - rewrite take_0, app_nil_r, build_keydir_log by done. destruct s as [[f] kd]. cbn in *. by subst.
  - rewrite (build_keydir_partial es (k, Some v) _ (drop m (entry_bytes (k, Some v)))).
    + destruct s as [[f] kd]. cbn in *. by subst.
    + done.
    + done.
    + symmetry. apply take_drop.
    + intros Hnil. apply (f_equal length) in Hnil. rewrite length_take in Hnil. cbn in Hnil. lia.
    + intros Hnil. apply (f_equal length) in Hnil. rewrite length_drop in Hnil. cbn in Hnil. lia.
Qed.

Lemma crash_recovery_witness :
  open (take 38 (file (log (snd (cask_set [x63] [x07; x08] sample))))) = Ok sample.
Proof.
  apply (crash_recovery sample [x63] [x07; x08]); [exact sample_inv|by split|done|].
  vm_compute. lia.
Defined.

Lemma cask_status_ok s es : represents s es →
  cask_status s
  = (Ok {| name := "bitcask"; keys := N.of_nat (length (cask_view s));
           size := disk_size (cask_view s) - 8 * N.of_nat (length (cask_view s));
           total_disk_size := size_of (file (log s));
           live_disk_size := disk_size (cask_view s);
           garbage_disk_size := size_of (file (log s)) - disk_size (cask_view s) |}, s).
Proof.
  intros Hr. pose proof (represents_in_bounds s es Hr) as Hb.
  pose proof (live_size_view _ _ Hb) as Hl. fold (cask_view s) in Hl.
  assert (live_size (keydir s) ≤ size_of (file (log s))) as Hle.
  { destruct Hr as (_ & -> & ->). apply live_size_index. }
  assert (length (cask_view s) = length (keydir s)) as ->.
  { unfold cask_view, view_of, map_values. apply length_map. }
  unfold cask_status. f_equal. fold (live_size (keydir s)). unfold sub_u64.
  rewrite decide_True by done. rewrite <-Hl. cbn. do 2 f_equal. unfold live_size. lia.
Qed.

(** C32. Compaction succeeds, keeps every key and value, and leaves no garbage
    in the file. *)
Theorem compact_preserves s : cask_inv s →
  ∃ s' st, compact s = (Ok tt, s') ∧ cask_inv s' ∧ cask_view s' = cask_view s ∧
    cask_status s' = (Ok st, s') ∧ garbage_disk_size st = 0.
Proof.
  intros Hi. pose proof Hi as [es Hr]. destruct (compact_ok s Hi) as (s' & Hc & Hr').
  pose proof (represents_view _ _ Hr') as Hv. rewrite replay_live in Hv.
  2:{ rewrite (represents_view s es Hr). apply replay_sorted. }
  exists s'. rewrite (cask_status_ok _ _ Hr'). eexists. split; [done|]. split; [by eexists|].
  split; [done|]. split; [done|]. cbn. rewrite Hv. destruct Hr' as (_ & -> & _).
  rewrite log_bytes_live. lia.
Qed.

Lemma compact_preserves_witness :
  ∃ s' st, compact sample = (Ok tt, s') ∧ cask_inv s' ∧ cask_view s' = cask_view sample ∧
    cask_status s' = (Ok st, s') ∧ garbage_disk_size st = 0.
Proof. exact (compact_preserves sample sample_inv). Defined.

(** C3. A BitCask database answers every sequence of get, set, delete, scan,
    scan_prefix and flush calls exactly as the in-memory engine does, as long as
    entries are within the size limits. *)
Theorem bitcask_refines_memory (cs : list Call) :
  Forall (call_fits (E:=BitCask)) cs →
  open [] = Ok {| log := {| file := [] |}; keydir := [] |} ∧
  run_calls cs {| log := {| file := [] |}; keydir := [] |} = run_calls cs Memory.new.
Proof.
  intros Hcs. split; [done|]. apply run_calls_agree.
  - by exists [].
  - constructor.
  - done.
  - done.
  - apply Forall_forall. by intros [] _.
Qed.

Definition sample_calls : list Call :=
  [CSet [x61] [x01]; CSet [x62; xff] [x02]; CDelete [x61]; CSet [x62] []; CGet [x62; xff];
   CScanPrefix [x62]; CScan (Excluded [x62], Unbounded); CFlush].

Lemma bitcask_refines_memory_witness :
  open [] = Ok {| log := {| file := [] |}; keydir := [] |} ∧
  run_calls sample_calls {| log := {| file := [] |}; keydir := [] |}
  = run_calls sample_calls Memory.new.
Proof.
  apply (bitcask_refines_memory sample_calls).
  repeat (apply Forall_cons; split; [by repeat split|]). constructor.
Defined.

(** ** The limits of an entry *)

(** A build without overflow checks, as [cargo build --release] makes: the
    arithmetic of [Log::write_entry] and [BitCask::set] wraps around. *)
Definition write_entry_wrapping (key : bytes) (value : option bytes) : M Log (N * N) :=
  let key_len := as_u32 (size_of key) in
  let value_len := from_option (λ v, as_u32 (size_of v)) 0 value in
  let value_len_or_tombstone := from_option (λ v, as_u32 (size_of v)) u32_max value in
  let len := as_u32 (as_u32 (8 + key_len) + value_len) in
  pos ← append (to_be 4 key_len ++ to_be 4 value_len_or_tombstone
                  ++ key ++ default [] value);
  mret (pos, len).
Definition cask_set_wrapping (key value : bytes) : M BitCask unit :=
  '(pos, len) ← on_log (write_entry_wrapping key (Some value));
  let value_len := as_u32 (size_of value) in
  let value_pos := Z.to_N ((Z.of_N ((pos + len) mod 2 ^ 64) - Z.of_N value_len) mod 2 ^ 64) in
  set_keydir (bt_insert bytes_cmp key (value_pos, value_len)).

Lemma wrapping_len a b : a < 2147483648 → b < 2147483648 →
  as_u32 (as_u32 (8 + a) + b)
  = if decide (8 + a + b ≤ u32_max) then 8 + a + b else 8 + a + b - 4294967296.
Proof.
  intros Ha Hb. rewrite (as_u32_small (8 + a)) by (unfold u32_max; lia). unfold as_u32.
  case_decide as Hd; unfold u32_max in Hd; [apply N.mod_small; lia|].
  replace (8 + a + b) with ((8 + a + b - 4294967296) + 1 * 4294967296) at 1 by lia.
  rewrite N.Div0.mod_add. apply N.mod_small. lia.
Qed.

(** C40. For every key and value of the documented sizes (below 2 GB each),
    setting the key appends exactly its entry and indexes its value when the
    entry length fits 32 bits, in builds with and without overflow checks.
    Beyond that, a build with overflow checks panics and changes nothing, while
    one without them writes the entry but indexes the value at a position that
    is 2^32 too small (modulo 2^64). *)
Theorem write_entry_limit k v s : size_of k < 2147483648 → size_of v < 2147483648 →
  size_of (file (log s)) + 8 + size_of k + size_of v ≤ u64_max →
  let value_pos := size_of (file (log s)) + 8 + size_of k in
  let written pos := {| log := {| file := file (log s) ++ entry_bytes (k, Some v) |};
                        keydir := bt_insert bytes_cmp k (pos, size_of v) (keydir s) |} in
  if decide (8 + size_of k + size_of v ≤ u32_max) then
    cask_set k v s = (Ok tt, written value_pos) ∧ cask_set_wrapping k v s = (Ok tt, written value_pos)
  else
    cask_set k v s = (Panic "attempt to add with overflow", s) ∧
    ∃ pos, cask_set_wrapping k v s = (Ok tt, written pos) ∧
      (Z.of_N pos = (Z.of_N value_pos - 2 ^ 32) mod 2 ^ 64)%Z ∧ pos ≠ value_pos.
Proof.
  intros Hk Hv Hsize value_pos written.
  assert (as_u32 (size_of k) = size_of k) as Ek by (apply as_u32_small; unfold u32_max; lia).
  assert (as_u32 (size_of v) = size_of v) as Ev by (apply as_u32_small; unfold u32_max; lia).
  pose proof (wrapping_len (size_of k) (size_of v) Hk Hv) as Hlen.
  assert (∀ len, as_u32 (as_u32 (8 + size_of k) + size_of v) = len → cask_set_wrapping k v s
    = (Ok tt, written (Z.to_N ((Z.of_N ((size_of (file (log s)) + len) mod 2 ^ 64) - Z.of_N (size_of v)) mod 2 ^ 64)))) as Hwrap.
  { intros len <-. unfold cask_set_wrapping, write_entry_wrapping, written, entry_bytes, on_log, mbind, M_bind, append.
    cbn [from_option default log file fst snd]. by rewrite Ek, Ev. }
  case_decide as Hd; rewrite ?decide_True, ?decide_False in Hlen by done; rewrite (Hwrap _ Hlen); unfold u64_max, u32_max in *.
  - split.
    + unfold cask_set, mbind, M_bind, on_log. rewrite (write_entry_ok (k, Some v)) by (split; cbn; unfold u32_max; lia).
      unfold lift, sub_u64. rewrite size_of_entry. cbn [fst snd from_option default]. unfold id.
      rewrite Ev, decide_True by lia. unfold set_keydir, written. cbn [log keydir]. do 6 f_equal. lia.
    + do 3 f_equal. rewrite N.mod_small, Z.mod_small by lia. lia.
  - split.
    + unfold cask_set, write_entry, on_log, mbind, M_bind, lift, res_bind, add_u32. cbn [from_option].
      rewrite Ek, Ev, decide_True by (unfold u32_max; lia). rewrite decide_False by (unfold u32_max; lia). by destruct s.
    + eexists. split; [done|]. rewrite Z2N.id by (apply Z.mod_pos_bound; lia). split.
      * rewrite N.mod_small by lia. f_equal. lia.
      * intros Heq%(f_equal Z.of_N). rewrite Z2N.id in Heq by (apply Z.mod_pos_bound; lia).
        rewrite N.mod_small in Heq by lia.
        replace (Z.of_N (size_of (file (log s)) + (8 + size_of k + size_of v - 4294967296)) - Z.of_N (size_of v))%Z
          with (Z.of_N value_pos - 2 ^ 32)%Z in Heq by lia.
        destruct (decide (2 ^ 32 ≤ Z.of_N value_pos)%Z).
        -- rewrite Z.mod_small in Heq by lia. lia.
        -- rewrite <-(Z.mod_add _ 1), Z.mod_small in Heq by lia. lia.
Qed.

(** A write within the limits, and the largest documented key and value. *)
Lemma write_entry_limit_witness :
  (∃ s, cask_set_wrapping [x61] [x01] {| log := {| file := [] |}; keydir := [] |} = (Ok tt, s) ∧
     keydir s = [([x61], (9, 1))]) ∧
  ∃ k v, size_of k = 2147483647 ∧ size_of v = 2147483647 ∧
    cask_set k v {| log := {| file := [] |}; keydir := [] |}
    = (Panic "attempt to add with overflow", {| log := {| file := [] |}; keydir := [] |}).
Proof.
  split.
  - pose proof (write_entry_limit [x61] [x01] {| log := {| file := [] |}; keydir := [] |}
      ltac:(vm_compute; reflexivity) ltac:(vm_compute; reflexivity) ltac:(vm_compute; discriminate)) as Hw.
    eexists. split; [exact (proj2 Hw)|]. vm_compute. reflexivity.
  - assert (∃ b, size_of b = 2147483647) as (b & Hb).
    { exists (replicate (N.to_nat 2147483647) x00). unfold size_of. by rewrite length_replicate, N2Nat.id. }
    pose proof (write_entry_limit b b {| log := {| file := [] |}; keydir := [] |}
      ltac:(rewrite Hb; reflexivity) ltac:(rewrite Hb; reflexivity) ltac:(rewrite Hb; vm_compute; discriminate)) as Hw.
    exists b, b. split; [exact Hb|]. split; [exact Hb|]. cbv zeta in Hw.
    destruct (decide (8 + size_of b + size_of b ≤ u32_max)) as [Hle|_]; [|exact (proj1 Hw)].
    exfalso. rewrite Hb in Hle. vm_compute in Hle. contradiction Hle. reflexivity.
Defined.
