(* ===== verification/Bincode.v ===== *)
(** The interface of the bincode crate, and the functions of
    src/src/encoding/bincode.rs.  The crate itself is not part of the
    repository: its functions are the parameters of the classes [Bincode], for
    byte strings, and [Stream], for values on a stream; [BincodeLaws] and
    [StreamLaws] are their documented contracts, that a value round-trips.
    [countable_bincode] and [countable_stream] are implementations, used to
    instantiate the parameters in examples. *)
From Stdlib Require Import Strings.Byte Strings.String NArith Lia.
From stdpp Require Import base countable list strings.
From S2P Require Import Prelude.

Class Bincode (A : Type) := {
  bin_serialize : A → list byte;
  bin_deserialize : list byte → res A
}.

Class BincodeLaws (A : Type) `{Bincode A} : Prop :=
  bin_roundtrip : ∀ a : A, bin_deserialize (bin_serialize a) = Ok a.

#[export] Instance bin_serialize_inj `{BincodeLaws A} : Inj (=) (=) (bin_serialize (A:=A)).
Proof.
  intros x y Heq. pose proof (bin_roundtrip x) as Hx. rewrite Heq, bin_roundtrip in Hx.
  by simplify_eq.
Qed.

(** An implementation for every countable type: the bits of its code. *)
Fixpoint pos_bytes (p : positive) : list byte :=
  match p with
  | xH => []
  | xO p => x00 :: pos_bytes p
  | xI p => x01 :: pos_bytes p
  end.

Fixpoint bytes_pos (bs : list byte) : positive :=
  match bs with
  | [] => xH
  | b :: bs => if decide (b = x00) then xO (bytes_pos bs) else xI (bytes_pos bs)
  end.

Lemma bytes_pos_bytes p : bytes_pos (pos_bytes p) = p.
Proof. induction p; simpl; by f_equal. Qed.

Definition countable_bincode (A : Type) `{Countable A} : Bincode A := {|
  bin_serialize := λ a, pos_bytes (encode a);
  bin_deserialize := λ bs,
    match decode (bytes_pos bs) with
    | Some a => Ok a
    | None => Err (EInternal (Msg "malformed value" []))
    end |}.

Lemma countable_bincode_laws (A : Type) `{Countable A} :
  @BincodeLaws A (countable_bincode A).
Proof. intros a. cbn. by rewrite bytes_pos_bytes, decode_encode. Qed.

(** * Streams

    A value has an encoding, and one value is taken from the front of what is
    left to read.  A reader is the bytes that are left in it, a writer those that
    were written. *)

(** [bincode::ErrorKind], as far as the code tells errors apart. *)
Inductive StreamError :=
| UnexpectedEof
| ConnectionReset
| OtherError (m : message).

Class Stream (A : Type) := {
  stream_put : A → list byte;
  stream_take : list byte → (A * list byte) + StreamError
}.

(** A value is read back from its encoding, whatever follows it, and there is
    none at the end of the input. *)
Class StreamLaws (A : Type) `{Stream A} : Prop := {
  stream_roundtrip : ∀ (a : A) rest, stream_take (stream_put a ++ rest) = inl (a, rest);
  stream_end : stream_take (A:=A) [] = inr UnexpectedEof
}.

(** [Error::from] on an error of the crate. *)
Definition stream_error (e : StreamError) : Error :=
  EInternal match e with
            | UnexpectedEof => Msg "unexpected end of file" []
            | ConnectionReset => Msg "connection reset" []
            | OtherError m => m
            end.

Section stream.
Context {A : Type} `{Stream A}.

Definition serialize_into (a : A) : M (list byte) unit := λ w, (Ok tt, w ++ stream_put a).

Definition deserialize_from : M (list byte) A := λ r,
  match stream_take r with
  | inl (a, r) => (Ok a, r)
  | inr e => (Err (stream_error e), [])
  end.

Definition maybe_deserialize_from : M (list byte) (option A) := λ r,
  match stream_take r with
  | inl (a, r) => (Ok (Some a), r)
  | inr (UnexpectedEof | ConnectionReset) => (Ok None, [])
  | inr (OtherError m) => (Err (EInternal m), [])
  end.
End stream.

Lemma stream_put_length `{StreamLaws A} (a : A) : (1 ≤ length (stream_put a))%nat.
Proof.
  destruct (stream_put a) eqn:E; [|cbn; lia]. pose proof (stream_roundtrip a []) as Hr.
  rewrite E in Hr. cbn in Hr. by rewrite stream_end in Hr.
Qed.

(** An implementation for every countable type: a byte per bit of its code, and
    a byte that ends it. *)
Fixpoint take_bits (bs : list byte) : option (list byte * list byte) :=
  match bs with
  | [] => None
  | x02 :: bs => Some ([], bs)
  | b :: bs => '(l, bs) ← take_bits bs; Some (b :: l, bs)
  end.
Definition countable_stream (A : Type) `{Countable A} : Stream A := {|
  stream_put a := pos_bytes (encode a) ++ [x02];
  stream_take bs :=
    match take_bits bs with
    | None => inr UnexpectedEof
    | Some (l, bs) =>
        match decode (bytes_pos l) with
        | Some a => inl (a, bs)
        | None => inr (OtherError (Msg "malformed value" []))
        end
    end
|}.

Lemma take_bits_put p rest : take_bits ((pos_bytes p ++ [x02]) ++ rest) = Some (pos_bytes p, rest).
Proof. induction p; cbn; [by rewrite IHp|by rewrite IHp|done]. Qed.
Lemma countable_stream_laws (A : Type) `{Countable A} : @StreamLaws A (countable_stream A).
Proof.
  split; [|done]. intros a rest. cbn [stream_take stream_put countable_stream].
  rewrite take_bits_put, bytes_pos_bytes. by rewrite decode_encode.
Qed.
