(* ===== verification/Mvcc.v ===== *)
(** Multi-version concurrency control (src/src/storage/mvcc.rs): keys,
    transactions and scans, over any storage engine. *)
From Stdlib Require Import Strings.Byte NArith Lia.
From stdpp Require Import base list gmap strings.
From S2P Require Import Prelude BTreeMap KeyCode Engine Bincode.

(** * Keys *)

(** [mvcc::Key], in the order of its variants. *)
Inductive Key :=
| NextVersion
| TxnActive (version : N)
| TxnActiveSnapshot (version : N)
| TxnWrite (version : N) (key : bytes)
| Version (key : bytes) (version : N)
| Unversioned (key : bytes).

Definition key_index (k : Key) : N :=
  match k with
  | NextVersion => 0
  | TxnActive _ => 1
  | TxnActiveSnapshot _ => 2
  | TxnWrite _ _ => 3
  | Version _ _ => 4
  | Unversioned _ => 5
  end.

(** The derived [Serialize]: the variant index, then the fields. *)
Definition serialize_key (k : Key) : M Serializer unit :=
  _ ← serialize_unit_variant (key_index k);
  match k with
  | NextVersion => mret tt
  | TxnActive v | TxnActiveSnapshot v => serialize_u64 v
  | TxnWrite v key => _ ← serialize_u64 v; serialize_bytes key
  | Version key v => _ ← serialize_bytes key; serialize_u64 v
  | Unversioned key => serialize_bytes key
  end.

(** The derived [Deserialize]. *)
Definition deserialize_key : M Deserializer Key :=
  i ← variant_index;
  if decide (i = 0) then mret NextVersion
  else if decide (i = 1) then (v ← deserialize_u64; mret (TxnActive v))
  else if decide (i = 2) then (v ← deserialize_u64; mret (TxnActiveSnapshot v))
  else if decide (i = 3) then
    v ← field 0 deserialize_u64; key ← field 1 deserialize_bytes; mret (TxnWrite v key)
  else if decide (i = 4) then
    key ← field 0 deserialize_bytes; v ← field 1 deserialize_u64; mret (Version key v)
  else if decide (i = 5) then (key ← deserialize_bytes; mret (Unversioned key))
  else unknown_variant i 6.

(** The order of [Key]: by variant, then by fields. *)
Definition compare_key (a b : Key) : comparison :=
  match key_index a ?= key_index b with
  | Eq =>
      match a, b with
      | TxnActive v, TxnActive w | TxnActiveSnapshot v, TxnActiveSnapshot w => v ?= w
      | TxnWrite v k, TxnWrite w l =>
          match v ?= w with Eq => bytes_cmp k l | c => c end
      | Version k v, Version l w =>
          match bytes_cmp k l with Eq => v ?= w | c => c end
      | Unversioned k, Unversioned l => bytes_cmp k l
      | _, _ => Eq
      end
  | c => c
  end.

#[export] Instance mvcc_key : KeyType Key := {
  encode_key := serialize_key;
  decode_key := deserialize_key;
  key_valid := λ k,
    match k with
    | TxnActive v | TxnActiveSnapshot v | TxnWrite v _ | Version _ v => v ≤ u64_max
    | _ => True
    end;
  key_cmp := compare_key;
  key_bytes := λ k,
    n2b (key_index k) ::
    match k with
    | NextVersion => []
    | TxnActive v | TxnActiveSnapshot v => @key_bytes _ u64_key v
    | TxnWrite v key => @key_bytes _ u64_key v ++ @key_bytes _ bytes_key key
    | Version key v => @key_bytes _ bytes_key key ++ @key_bytes _ u64_key v
    | Unversioned key => @key_bytes _ bytes_key key
    end
}.

(** [Key::encode] and [Key::decode]. *)
Definition encode (k : Key) : res bytes := serialize k.
Definition decode (bs : bytes) : res Key := deserialize bs.

(** [mvcc::KeyPrefix]: the variants of [Key] with their first fields. *)
Inductive KeyPrefix :=
| PNextVersion
| PTxnActive
| PTxnActiveSnapshot
| PTxnWrite (version : N)
| PVersion (key : bytes)
| PUnversioned.

Definition prefix_index (p : KeyPrefix) : N :=
  match p with
  | PNextVersion => 0
  | PTxnActive => 1
  | PTxnActiveSnapshot => 2
  | PTxnWrite _ => 3
  | PVersion _ => 4
  | PUnversioned => 5
  end.

Definition serialize_prefix (p : KeyPrefix) : M Serializer unit :=
  _ ← serialize_unit_variant (prefix_index p);
  match p with
  | PTxnWrite v => serialize_u64 v
  | PVersion key => serialize_bytes key
  | _ => mret tt
  end.

(** [KeyPrefix::encode]. *)
Definition encode_prefix (p : KeyPrefix) : res bytes :=
  match serialize_prefix p {| output := [] |} with
  | (Ok _, s) => Ok (output s)
  | (Err e, _) => Err e
  | (Panic w, _) => Panic w
  end.

(** * Transactions *)

(** [TransactionState].  A [Transaction] is this state with the engine, which
    all transactions share. *)
Record TransactionState := {
  version : N;
  read_only : bool;
  active : gset N
}.

Definition is_visible (st : TransactionState) (v : N) : bool :=
  if decide (v ∈ active st) then false
  else if read_only st then v <? version st
  else v <=? version st.

Definition unexpected {A} (what : string) (key : bytes) : res A :=
  Err (EInternal (Msg what [FBytes key])).

(** A raw item of an engine scan, and what [VersionIterator] yields for it. *)
Abbreviation RawItem := (res (bytes * bytes)).
Abbreviation VersionItem := (res (bytes * N * bytes)).

Section mvcc.
Context {E : Type} `{Engine E}.
Context `{Bincode N, Bincode (gset N), Bincode (option bytes)}.

(** The values under the keys are bincode. *)
Definition get_key (k : Key) : M E (option bytes) :=
  kb ← lift (encode k); eng_get kb.
Definition set_key (k : Key) (v : bytes) : M E unit :=
  kb ← lift (encode k); eng_set kb v.
Definition delete_key (k : Key) : M E unit :=
  kb ← lift (encode k); eng_delete kb.

(** [engine.scan(range)] and [engine.scan_prefix(prefix)]. *)
Definition scan_range (r : KeyRange) : M E (list (res (bytes * bytes))) :=
  λ e, (eng_scan r e, e).
Definition scan_pfx (p : bytes) : M E (list (res (bytes * bytes))) :=
  λ e, (scan_prefix p e, e).

(** [Transaction::scan_active]. *)
Fixpoint scan_active_loop (items : list (res (bytes * bytes))) (act : gset N) : res (gset N) :=
  match items with
  | [] => Ok act
  | item :: items =>
      '(key, _) ← item;
      k ← decode key;
      match k with
      | TxnActive v => scan_active_loop items ({[v]} ∪ act)
      | _ => unexpected "Expected TxnActive key, got {:?}" key
      end
  end.

Definition scan_active : M E (gset N) :=
  p ← lift (encode_prefix PTxnActive);
  items ← scan_pfx p;
  lift (scan_active_loop items ∅).

(** The version counter, 1 when it was never written. *)
Definition load_next_version : M E N :=
  o ← get_key NextVersion;
  lift match o with Some v => bin_deserialize v | None => Ok 1 end.

(** [Transaction::begin]. *)
Definition begin : M E TransactionState :=
  v ← load_next_version;
  next ← lift (add_u64 v 1);
  _ ← set_key NextVersion (bin_serialize next);
  act ← scan_active;
  _ ← (if decide (act = ∅) then mret tt
       else set_key (TxnActiveSnapshot v) (bin_serialize act));
  _ ← set_key (TxnActive v) [];
  mret {| version := v; read_only := false; active := act |}.

(** [Transaction::begin_read_only]. *)
Definition begin_read_only (as_of : option N) : M E TransactionState :=
  v ← load_next_version;
  match as_of with
  | Some as_of =>
      if decide (v ≤ as_of) then
        lift (Err (EValue (Msg "Version {} does not exist" [FNum as_of])))
      else
        o ← get_key (TxnActiveSnapshot as_of);
        act ← lift match o with Some value => bin_deserialize value | None => Ok ∅ end;
        mret {| version := as_of; read_only := true; active := act |}
  | None =>
      act ← scan_active;
      mret {| version := v; read_only := true; active := act |}
  end.

(** [Transaction::resume]. *)
Definition resume (s : TransactionState) : M E TransactionState :=
  if read_only s then mret s
  else
    o ← get_key (TxnActive (version s));
    match o with
    | None => lift (Err (EInternal (Msg "No active transaction at version {}"
                [FNum (version s)])))
    | Some _ => mret s
    end.

(** [Transaction::commit]. *)
Definition commit (st : TransactionState) : M E unit :=
  if read_only st then mret tt
  else
    p ← lift (encode_prefix (PTxnWrite (version st)));
    items ← scan_pfx p;
    remove ← lift (collect (List.map (fmap (M:=res) fst) items));
    _ ← for_each remove eng_delete;
    delete_key (TxnActive (version st)).

(** The scan loop of [Transaction::rollback]: the versions written and their
    write records. *)
Fixpoint rollback_loop (st : TransactionState) (items : list (res (bytes * bytes)))
    (rollback : list bytes) : res (list bytes) :=
  match items with
  | [] => Ok rollback
  | item :: items =>
      '(key, _) ← item;
      k ← decode key;
      match k with
      | TxnWrite _ ukey =>
          vkey ← encode (Version ukey (version st));
          rollback_loop st items (rollback ++ [vkey; key])
      | _ => unexpected "Expected TxnWrite, got {:?}" key
      end
  end.

(** [Transaction::rollback]. *)
Definition rollback (st : TransactionState) : M E unit :=
  if read_only st then mret tt
  else
    p ← lift (encode_prefix (PTxnWrite (version st)));
    items ← scan_pfx p;
    keys ← lift (rollback_loop st items []);
    _ ← for_each keys eng_delete;
    delete_key (TxnActive (version st)).

(** [active.iter().min()]. *)
Definition min_active (s : gset N) : option N :=
  match elements s with
  | [] => None
  | x :: xs => Some (foldr N.min x xs)
  end.

(** [Transaction::write_version]. *)
Definition write_version (st : TransactionState) (key : bytes) (value : option bytes)
    : M E unit :=
  if read_only st then lift (Err EReadOnly)
  else
    from_version ← lift match min_active (active st) with
                        | Some v => Ok v
                        | None => add_u64 (version st) 1
                        end;
    from ← lift (encode (Version key from_version));
    to ← lift (encode (Version key u64_max));
    items ← scan_range (Included from, Included to);
    _ ← lift match last items with
             | None => Ok tt
             | Some item =>
                 '(k, _) ← item;
                 k' ← decode k;
                 match k' with
                 | Version _ v => if is_visible st v then Ok tt else Err ESerialization
                 | _ => unexpected "Expected Key::Version got {:?}" k
                 end
             end;
    _ ← set_key (TxnWrite (version st) key) [];
    set_key (Version key (version st)) (bin_serialize value).

Definition txn_delete (st : TransactionState) (key : bytes) : M E unit :=
  write_version st key None.
Definition txn_set (st : TransactionState) (key value : bytes) : M E unit :=
  write_version st key (Some value).

(** The scan loop of [Transaction::get], from the newest version down. *)
Fixpoint get_loop (st : TransactionState) (items : list (res (bytes * bytes)))
    : res (option bytes) :=
  match items with
  | [] => Ok None
  | item :: items =>
      '(key, value) ← item;
      k ← decode key;
      match k with
      | Version _ v => if is_visible st v then bin_deserialize value else get_loop st items
      | _ => unexpected "Expected Key::Version got {:?}" key
      end
  end.

(** [Transaction::get]. *)
Definition txn_get (st : TransactionState) (key : bytes) : M E (option bytes) :=
  from ← lift (encode (Version key 0));
  to ← lift (encode (Version key (version st)));
  items ← scan_range (Included from, Included to);
  lift (get_loop st (reverse items)).

(** [MVCC::get_unversioned] and [MVCC::set_unversioned]. *)
Definition get_unversioned (key : bytes) : M E (option bytes) := get_key (Unversioned key).
Definition set_unversioned (key value : bytes) : M E unit := set_key (Unversioned key) value.

(** [mvcc::Status] and [MVCC::status]. *)
Record MvccStatus := { st_versions : N; st_active_txns : N; st_storage : Status }.

Definition status : M E MvccStatus :=
  o ← get_key NextVersion;
  versions ← lift match o with
                  | Some v => n ← bin_deserialize v; sub_u64 n 1
                  | None => Ok 0
                  end;
  p ← lift (encode_prefix PTxnActive);
  items ← scan_pfx p;
  storage ← eng_status;
  mret {| st_versions := versions; st_active_txns := N.of_nat (length items);
          st_storage := storage |}.

(** * Scans *)

(** [VersionIterator::decode_visible]. *)
Definition decode_visible (st : TransactionState) (key : bytes) : res (option (bytes * N)) :=
  k ← decode key;
  match k with
  | Version ukey v => if is_visible st v then Ok (Some (ukey, v)) else Ok None
  | _ => unexpected "Expected Key::Version got {:?}" key
  end.

(** [VersionIterator::next], with what remains of the engine's iterator. *)
Fixpoint version_next (st : TransactionState) (raw : list RawItem)
    : option VersionItem * list RawItem :=
  match raw with
  | [] => (None, [])
  | item :: raw =>
      match '(key, value) ← item; o ← decode_visible st key; Ok (o, value) with
      | Ok (Some (key, v), value) => (Some (Ok (key, v, value)), raw)
      | Ok (None, _) => version_next st raw
      | Err e => (Some (Err e), raw)
      | Panic w => (Some (Panic w), raw)
      end
  end.

(** [VersionIterator::next_back]: the same loop from the other end. *)
Definition version_next_back (st : TransactionState) (raw : list RawItem)
    : option VersionItem * list RawItem :=
  let '(o, rest) := version_next st (reverse raw) in (o, reverse rest).

(** [std::iter::Peekable] over it: the peeked item, if any.  Its [next_back]
    takes the peeked item when the iterator is exhausted. *)
Record Peekable := { iter : list RawItem; peeked : option (option VersionItem) }.

Definition peekable_next (st : TransactionState) (p : Peekable) : option VersionItem * Peekable :=
  match peeked p with
  | Some o => (o, {| iter := iter p; peeked := None |})
  | None => let '(o, rest) := version_next st (iter p) in (o, {| iter := rest; peeked := None |})
  end.

Definition peek (st : TransactionState) (p : Peekable) : option VersionItem * Peekable :=
  match peeked p with
  | Some o => (o, p)
  | None => let '(o, rest) := version_next st (iter p) in (o, {| iter := rest; peeked := Some o |})
  end.

Definition peekable_next_back (st : TransactionState) (p : Peekable)
    : option VersionItem * Peekable :=
  match peeked p with
  | Some None => (None, p)
  | Some (Some v) =>
      let '(o, rest) := version_next_back st (iter p) in
      match o with
      | Some i => (Some i, {| iter := rest; peeked := peeked p |})
      | None => (Some v, {| iter := rest; peeked := Some None |})
      end
  | None =>
      let '(o, rest) := version_next_back st (iter p) in (o, {| iter := rest; peeked := None |})
  end.

(** [mvcc::ScanIterator]. *)
Record ScanIterator := { inner : Peekable; last_back : option bytes }.

(** The number of items left: each iteration of the loops below takes one. *)
Definition items_left (it : ScanIterator) : nat :=
  length (iter (inner it)) + match peeked (inner it) with Some (Some _) => 1 | _ => 0 end.

(** [ScanIterator::try_next]. *)
Fixpoint try_next_loop (fuel : nat) (st : TransactionState) (it : ScanIterator)
    : res (option (bytes * bytes)) * ScanIterator :=
  match fuel with
  | O => (Panic "try_next: out of fuel", it)
  | S fuel =>
      let '(o, p) := peekable_next st (inner it) in
      let it := {| inner := p; last_back := last_back it |} in
      match o with
      | None => (Ok None, it)
      | Some (Err e) => (Err e, it)
      | Some (Panic w) => (Panic w, it)
      | Some (Ok (key, _, value)) =>
          let '(n, p) := peek st p in
          let it := {| inner := p; last_back := last_back it |} in
          let emit :=
            match bin_deserialize value with
            | Ok (Some v) => (Ok (Some (key, v)), it)
            | Ok None => try_next_loop fuel st it
            | Err e => (Err e, it)
            | Panic w => (Panic w, it)
            end in
          match n with
          | Some (Ok (next, _, _)) =>
              if decide (next = key) then try_next_loop fuel st it else emit
          | Some (Err e) => (Err e, it)
          | Some (Panic w) => (Panic w, it)
          | None => emit
          end
      end
  end.
Definition try_next (st : TransactionState) (it : ScanIterator)
    : res (option (bytes * bytes)) * ScanIterator :=
  try_next_loop (S (items_left it)) st it.

(** [ScanIterator::try_next_back]. *)
Fixpoint try_next_back_loop (fuel : nat) (st : TransactionState) (it : ScanIterator)
    : res (option (bytes * bytes)) * ScanIterator :=
  match fuel with
  | O => (Panic "try_next_back: out of fuel", it)
  | S fuel =>
      let '(o, p) := peekable_next_back st (inner it) in
      let it := {| inner := p; last_back := last_back it |} in
      match o with
      | None => (Ok None, it)
      | Some (Err e) => (Err e, it)
      | Some (Panic w) => (Panic w, it)
      | Some (Ok (key, _, value)) =>
          if decide (last_back it = Some key) then try_next_back_loop fuel st it
          else
            let it := {| inner := p; last_back := Some key |} in
            match bin_deserialize value with
            | Ok (Some v) => (Ok (Some (key, v)), it)
            | Ok None => try_next_back_loop fuel st it
            | Err e => (Err e, it)
            | Panic w => (Panic w, it)
            end
      end
  end.
Definition try_next_back (st : TransactionState) (it : ScanIterator)
    : res (option (bytes * bytes)) * ScanIterator :=
  try_next_back_loop (S (items_left it)) st it.

(** [Iterator::collect::<Result<Vec<_>>>] over one end of the iterator. *)
Fixpoint collect_loop (fuel : nat)
    (next : ScanIterator → res (option (bytes * bytes)) * ScanIterator)
    (it : ScanIterator) : res (list (bytes * bytes)) :=
  match fuel with
  | O => Panic "collect: out of fuel"
  | S fuel =>
      match next it with
      | (Ok None, _) => Ok []
      | (Ok (Some kv), it) => kvs ← collect_loop fuel next it; Ok (kv :: kvs)
      | (Err e, _) => Err e
      | (Panic w, _) => Panic w
      end
  end.

(** [Scan::to_vec], and the same for [iter().rev()]. *)
Definition to_vec (st : TransactionState) (it : ScanIterator) : res (list (bytes * bytes)) :=
  collect_loop (S (items_left it)) (try_next st) it.
Definition to_vec_rev (st : TransactionState) (it : ScanIterator) : res (list (bytes * bytes)) :=
  collect_loop (S (items_left it)) (try_next_back st) it.

(** The engine range of a scan over user keys. *)
Definition scan_bounds (range : KeyRange) : res KeyRange :=
  start ← match range.1 with
          | Excluded k => kb ← encode (Version k u64_max); Ok (Excluded kb)
          | Included k => kb ← encode (Version k 0); Ok (Included kb)
          | Unbounded => kb ← encode (Version [] 0); Ok (Included kb)
          end;
  stop ← match range.2 with
         | Excluded k => kb ← encode (Version k 0); Ok (Excluded kb)
         | Included k => kb ← encode (Version k u64_max); Ok (Included kb)
         | Unbounded => kb ← encode_prefix PUnversioned; Ok (Excluded kb)
         end;
  Ok (start, stop).

Definition new_iterator (items : list RawItem) : ScanIterator :=
  {| inner := {| iter := items; peeked := None |}; last_back := None |}.

(** [Transaction::scan] followed by [Scan::iter]. *)
Definition txn_scan (range : KeyRange) : M E ScanIterator :=
  bounds ← lift (scan_bounds range);
  items ← scan_range bounds;
  mret (new_iterator items).

(** [Transaction::scan_prefix] followed by [Scan::iter]: the terminator of the
    key is chopped off the prefix. *)
Definition txn_scan_prefix (prefix : bytes) : M E ScanIterator :=
  p ← lift (encode_prefix (PVersion prefix));
  items ← scan_pfx (take (length p - 2) p);
  mret (new_iterator items).
End mvcc.
