(* ===== verification/MvccKeys.v ===== *)
(** MVCC keys: the laws of their encoding, and the byte ranges the code scans in
    terms of keys. *)
From Stdlib Require Import Strings.Byte NArith Lia.
From stdpp Require Import base list gmap strings.
From S2P Require Import Prelude BTreeMap KeyCode Engine Bincode Mvcc.

#[local] Opaque to_be.

Lemma key_index_u8 k : key_index k ≤ u8_max.
Proof. by destruct k. Qed.

(** The codecs of the fields of each variant. *)
Lemma u64_encode v s : v ≤ u64_max →
  serialize_u64 v s = (Ok tt, {| output := output s ++ @key_bytes _ u64_key v |}).
Proof. apply (key_encode (H:=u64_key)). Qed.

Lemma bytes_encode v s :
  serialize_bytes v s = (Ok tt, {| output := output s ++ @key_bytes _ bytes_key v |}).
Proof. by apply (key_encode (H:=bytes_key)). Qed.

Lemma mvcc_key_encode k s : key_valid k →
  serialize_key k s = (Ok tt, {| output := output s ++ key_bytes k |}).
Proof.
  intros Hk. unfold serialize_key.
  erewrite M_bind_Ok by (apply variant_encode, key_index_u8).
  destruct k; cbn [key_valid mvcc_key] in Hk; cbn [key_bytes mvcc_key];
    repeat first
      [ erewrite M_bind_Ok by (by apply (key_encode (H:=u64_key)))
      | erewrite M_bind_Ok by (by apply (key_encode (H:=bytes_key)))
      | rewrite u64_encode by done
      | rewrite bytes_encode ];
    cbn [output]; by rewrite <-?app_assoc.
Qed.

Lemma mvcc_key_decode k r : key_valid k →
  deserialize_key {| input := key_bytes k ++ r |} = (Ok k, {| input := r |}).
Proof.
  intros Hk. unfold deserialize_key. cbn [key_bytes mvcc_key]. cbn [app].
  erewrite M_bind_Ok by (apply variant_decode, key_index_u8).
  destruct k; cbn [key_valid mvcc_key] in Hk; cbn [key_index];
    rewrite ?(decide_False (P:=_ = _)) by done; rewrite (decide_True (P:=_ = _)) by done;
    rewrite <-?app_assoc;
    repeat first
      [ erewrite M_bind_Ok by (by apply (field_decode (H:=u64_key)))
      | erewrite M_bind_Ok by (by apply (field_decode (H:=bytes_key)))
      | erewrite M_bind_Ok by (by apply (key_decode (H:=u64_key)))
      | erewrite M_bind_Ok by (by apply (key_decode (H:=bytes_key))) ];
    done.
Qed.

Lemma mvcc_key_decode_exact k i r : deserialize_key {| input := i |} = (Ok k, r) →
  key_valid k ∧ i = key_bytes k ++ input r.
Proof.
  unfold deserialize_key. intros H.
  apply M_bind_Ok_inv in H as (j & d & [Hj ->]%variant_exact & H). destruct d as [i'].
  cbn [input]. repeat case_decide; subst; try done;
    repeat match goal with
    | H : (mbind _ _) _ = (Ok _, _) |- _ =>
        apply M_bind_Ok_inv in H; destruct H as (? & ? & ? & ?)
    | H : mret _ _ = (Ok _, _) |- _ => unfold mret, M_ret in H; simplify_eq
    | d : Deserializer |- _ => destruct d as [?i]
    | H : field _ deserialize_u64 _ = _ |- _ => apply (field_exact (H:=u64_key)) in H as [? ->]
    | H : field _ deserialize_bytes _ = _ |- _ => apply (field_exact (H:=bytes_key)) in H as [? ->]
    | H : deserialize_u64 _ = _ |- _ => apply (key_decode_exact (H:=u64_key)) in H as [? ->]
    | H : deserialize_bytes _ = _ |- _ => apply (key_decode_exact (H:=bytes_key)) in H as [? ->]
    end; cbn [key_valid key_bytes mvcc_key input app]; rewrite <-?app_assoc; done.
Qed.

Lemma mvcc_key_order a b r s : key_valid a → key_valid b →
  bytes_cmp (key_bytes a ++ r) (key_bytes b ++ s)
  = match compare_key a b with Eq => bytes_cmp r s | c => c end.
Proof.
  intros Ha Hb. cbn [key_bytes mvcc_key]. cbn [app].
  rewrite variant_order by apply key_index_u8. unfold compare_key.
  destruct (key_index a ?= key_index b) eqn:E; [|done..].
  apply N.compare_eq_iff in E.
  destruct a, b; try discriminate E; cbn [key_valid mvcc_key] in Ha, Hb; [done|..];
    rewrite <-?app_assoc;
    repeat first [rewrite (key_order (H:=u64_key)) by done
                 |rewrite (key_order (H:=bytes_key)) by done];
    cbn [key_cmp u64_key bytes_key];
    repeat match goal with |- context [match ?c with _ => _ end] => destruct c end; done.
Qed.

Lemma compare_key_eq a b : compare_key a b = Eq → a = b.
Proof.
  unfold compare_key. destruct (key_index a ?= key_index b) eqn:E; [|done..].
  apply N.compare_eq_iff in E. destruct a, b; try discriminate E; try done;
    repeat match goal with
    | |- context [match N.compare ?x ?y with _ => _ end] => destruct (N.compare_spec x y); try done
    | |- context [match bytes_cmp ?x ?y with _ => _ end] =>
        let E := fresh in destruct (bytes_cmp x y) eqn:E; try done; apply cmp_eq in E
    end; intros Hc; first [apply N.compare_eq_iff in Hc | apply cmp_eq in Hc]; by subst.
Qed.

#[export] Instance mvcc_key_laws : KeyLaws Key.
Proof.
  split.
  - apply mvcc_key_encode.
  - apply mvcc_key_decode.
  - apply mvcc_key_decode_exact.
  - apply mvcc_key_order.
  - apply compare_key_eq.
  - done.
Qed.

Lemma encode_valid k : key_valid k → encode k = Ok (key_bytes k).
Proof. apply serialize_valid. Qed.

Lemma decode_bytes k : key_valid k → decode (key_bytes k) = Ok k.
Proof. apply deserialize_bytes_of. Qed.

Lemma kb_cmp a b : key_valid a → key_valid b →
  bytes_cmp (key_bytes a) (key_bytes b) = compare_key a b.
Proof. exact (key_bytes_cmp a b). Qed.

(** ** Ranges *)

(** The versions of a user key between two bounds are one byte range. *)
Lemma version_in_range key a b k : key_valid k → a ≤ u64_max → b ≤ u64_max →
  in_range bytes_cmp (Included (key_bytes (Version key a)), Included (key_bytes (Version key b)))
    (key_bytes k) = true ↔ ∃ v, k = Version key v ∧ a ≤ v ≤ b.
Proof.
  intros Hk Ha Hb. unfold in_range, above, below. cbn [fst snd].
  rewrite !kb_cmp by done. split.
  - destruct k; try done.
    unfold compare_key. cbn [key_index]. rewrite !N.compare_refl.
    rewrite (cmp_antisym (cmp:=bytes_cmp) key key0).
    destruct (bytes_cmp key key0) eqn:E; cbn; try done.
    apply cmp_eq in E as ->.
    destruct (N.compare_spec a version), (N.compare_spec version b); try done; intros _;
      eexists; (split; [done|lia]).
  - intros (v & -> & Hv). unfold compare_key. cbn [key_index]. rewrite N.compare_refl.
    rewrite (cmp_refl (cmp:=bytes_cmp)).
    destruct (N.compare_spec a v), (N.compare_spec v b); first [done | lia].
Qed.

Lemma version_range_valid key a b : a ≤ b → a ≤ u64_max → b ≤ u64_max →
  range_valid bytes_cmp
    (Included (key_bytes (Version key a)), Included (key_bytes (Version key b))) = true.
Proof.
  intros Hab Ha Hb. unfold range_valid. rewrite kb_cmp by done.
  unfold compare_key. cbn [key_index]. rewrite N.compare_refl, (cmp_refl (cmp:=bytes_cmp)).
  destruct (N.compare_spec a b); first [done | lia].
Qed.

(** ** Prefixes *)

Definition prefix_bytes (p : KeyPrefix) : bytes :=
  n2b (prefix_index p) ::
  match p with
  | PTxnWrite v => @key_bytes _ u64_key v
  | PVersion key => @key_bytes _ bytes_key key
  | _ => []
  end.

Lemma encode_prefix_valid p :
  match p with PTxnWrite v => v ≤ u64_max | _ => True end →
  encode_prefix p = Ok (prefix_bytes p).
Proof. by destruct p. Qed.

Lemma starts_with_cons a p b k : starts_with (a :: p) (b :: k) ↔ a = b ∧ starts_with p k.
Proof.
  unfold starts_with. split.
  - intros [r [= -> ->]]. eauto.
  - intros [-> [r ->]]. by exists r.
Qed.

Lemma key_index_inj a b : key_index a = key_index b ↔ n2b (key_index a) = n2b (key_index b).
Proof.
  split; [by intros ->|]. intros H. apply (f_equal b2n) in H.
  rewrite !b2n_n2b_small in H; [done|..]; by destruct a, b.
Qed.

Lemma active_prefix k : key_valid k →
  starts_with (prefix_bytes PTxnActive) (key_bytes k) ↔ ∃ v, k = TxnActive v.
Proof.
  intros Hk. unfold prefix_bytes. cbn [key_bytes mvcc_key]. rewrite starts_with_cons. split.
  - intros [Hi _]. destruct k; try done. eauto.
  - intros [v ->]. split; [done|]. by eexists.
Qed.

Lemma u64_prefix v w r : v ≤ u64_max → w ≤ u64_max →
  starts_with (@key_bytes _ u64_key v) (@key_bytes _ u64_key w ++ r) → v = w.
Proof.
  intros Hv Hw [r' Heq]. apply (f_equal (take 8)) in Heq.
  cbn [key_bytes u64_key] in Heq.
  rewrite !take_app_length' in Heq by (by rewrite length_to_be).
  symmetry. by apply (key_bytes_inj (H:=u64_key)).
Qed.

Lemma write_prefix v k : v ≤ u64_max → key_valid k →
  starts_with (prefix_bytes (PTxnWrite v)) (key_bytes k) ↔ ∃ key, k = TxnWrite v key.
Proof.
  intros Hv Hk. unfold prefix_bytes. cbn [key_bytes mvcc_key]. rewrite starts_with_cons. split.
  - intros [Hi Hs]. destruct k; try done. apply u64_prefix in Hs as ->; [|done..]. eauto.
  - intros [key ->]. split; [done|]. by eexists.
Qed.
