(* ===== verification/MvccDb.v ===== *)
(** The logical contents of an MVCC store: what the engine's byte map means,
    and the effect of every transaction operation on it.  The lemmas of this
    file relate the code of Mvcc, which encodes keys, scans byte ranges and
    decodes them, to operations on finite maps and sets. *)
From Stdlib Require Import Strings.Byte NArith Lia Sorting.Sorted.
From stdpp Require Import base list gmap strings.
From S2P Require Import Prelude BTreeMap KeyCode Engine KeyStore Bincode Mvcc MvccKeys.

#[local] Opaque to_be.
#[export] Instance Key_eq_dec : EqDecision Key.
Proof. solve_decision. Defined.

(** The store as the code reads it. *)
Record Db := {
  next_version : N;
  active_set : gset N;
  snapshots : gmap N (gset N);
  versions : gmap (bytes * N) (option bytes);
  writes : gset (N * bytes);
  unversioned : gmap bytes bytes
}.

Definition empty_db : Db := {|
  next_version := 1; active_set := ∅; snapshots := ∅; versions := ∅; writes := ∅;
  unversioned := ∅ |}.

(** The operations on it. *)
Definition db_begin (d : Db) : Db := {|
  next_version := next_version d + 1;
  active_set := {[next_version d]} ∪ active_set d;
  snapshots := if decide (active_set d = ∅) then snapshots d
               else <[next_version d := active_set d]> (snapshots d);
  versions := versions d; writes := writes d; unversioned := unversioned d |}.

Definition db_write (d : Db) (v : N) (key : bytes) (value : option bytes) : Db := {|
  next_version := next_version d; active_set := active_set d; snapshots := snapshots d;
  versions := <[(key, v) := value]> (versions d);
  writes := {[(v, key)]} ∪ writes d; unversioned := unversioned d |}.

Definition db_commit (d : Db) (v : N) : Db := {|
  next_version := next_version d; active_set := active_set d ∖ {[v]};
  snapshots := snapshots d; versions := versions d;
  writes := filter (λ p, p.1 ≠ v) (writes d); unversioned := unversioned d |}.

Definition db_rollback (d : Db) (v : N) : Db := {|
  next_version := next_version d; active_set := active_set d ∖ {[v]};
  snapshots := snapshots d;
  versions := filter (λ p, ¬ (p.1.2 = v ∧ (v, p.1.1) ∈ writes d)) (versions d);
  writes := filter (λ p, p.1 ≠ v) (writes d); unversioned := unversioned d |}.

(** What a read returns: the value of the newest version that is visible. *)
Definition latest (d : Db) (visible : N → bool) (key : bytes) (v : N) (ov : option bytes) : Prop :=
  versions d !! (key, v) = Some ov ∧ visible v = true ∧
  ∀ w ow, versions d !! (key, w) = Some ow → visible w = true → w ≤ v.

Definition reads (d : Db) (visible : N → bool) (key : bytes) (r : option bytes) : Prop :=
  (∃ v, latest d visible key v r) ∨
  (r = None ∧ ∀ v ov, versions d !! (key, v) = Some ov → visible v = false).

(** The stored snapshot of the active set at a version; none is empty. *)
Definition snapshot (d : Db) (v : N) : gset N := default ∅ (snapshots d !! v).

(** The state of the read-write transaction at a version. *)
Definition rw_state (d : Db) (v : N) : TransactionState :=
  {| version := v; read_only := false; active := snapshot d v |}.

(** The lower end of the conflict scan, and what it finds: the newest version
    of the key is at or above it and invisible. *)
Definition conflict_from (st : TransactionState) : N :=
  default (version st + 1) (min_active (active st)).

Definition blocked (d : Db) (st : TransactionState) (key : bytes) : Prop :=
  ∃ v ov, versions d !! (key, v) = Some ov ∧ conflict_from st ≤ v ∧
    is_visible st v = false ∧ ∀ w ow, versions d !! (key, w) = Some ow → w ≤ v.

Section rep.
Context {E : Type} `{EngineLaws E}.
Context `{BincodeLaws N, BincodeLaws (gset N), BincodeLaws (option bytes)}.

(** The bytes stored under a key. *)
Definition db_get (d : Db) (k : Key) : option bytes :=
  match k with
  | NextVersion =>
      if decide (next_version d = 1) then None else Some (bin_serialize (next_version d))
  | TxnActive v => if decide (v ∈ active_set d) then Some [] else None
  | TxnActiveSnapshot v => bin_serialize <$> snapshots d !! v
  | TxnWrite v key => if decide ((v, key) ∈ writes d) then Some [] else None
  | Version key v => bin_serialize <$> versions d !! (key, v)
  | Unversioned key => unversioned d !! key
  end.

(** An engine map represents a store. *)
Definition rep (m : Entries) (d : Db) : Prop := stores m (db_get d).

(** Only versions below the counter, which fits its width, are in use. *)
Definition in_width (d : Db) : Prop :=
  1 ≤ next_version d ≤ u64_max ∧
  (∀ v, v ∈ active_set d → v < next_version d) ∧
  (∀ v s, snapshots d !! v = Some s → v < next_version d) ∧
  (∀ k v ov, versions d !! (k, v) = Some ov → v < next_version d) ∧
  (∀ k v, (v, k) ∈ writes d → v < next_version d).

Definition fits (k : Key) (v : bytes) : Prop := eng_writable (key_bytes k) v.

(** ** Single keys *)

Lemma get_key_rep k e d : eng_inv e → rep (eng_view e) d → key_valid k →
  get_key k e = (Ok (db_get d k), e).
Proof.
  intros He Hr Hk. unfold get_key.
  erewrite M_bind_Ok by (unfold lift; by rewrite encode_valid). by apply get_stored.
Qed.

Lemma set_key_rep k x e d d' : eng_inv e → rep (eng_view e) d → key_valid k → fits k x →
  (∀ k', key_valid k' → db_get d' k' = if decide (k' = k) then Some x else db_get d k') →
  ∃ e', set_key k x e = (Ok tt, e') ∧ eng_inv e' ∧ rep (eng_view e') d'.
Proof.
  intros He Hr Hk Hf Hd. unfold set_key.
  destruct (set_stored k x e _ (db_get d') He Hr Hk Hf Hd) as (e' & Hset & ?). exists e'.
  by erewrite M_bind_Ok by (unfold lift; by rewrite encode_valid).
Qed.

Lemma delete_key_rep k e d d' : eng_inv e → rep (eng_view e) d → key_valid k →
  is_Some (db_get d k) →
  (∀ k', key_valid k' → db_get d' k' = if decide (k' = k) then None else db_get d k') →
  ∃ e', delete_key k e = (Ok tt, e') ∧ eng_inv e' ∧ rep (eng_view e') d'.
Proof.
  intros He Hr Hk Hx Hd. unfold delete_key.
  destruct (delete_stored k e _ (db_get d') He Hr Hk Hx Hd) as (e' & Hdel & ?). exists e'.
  by erewrite M_bind_Ok by (unfold lift; by rewrite encode_valid).
Qed.

(** ** Scans *)

Lemma active_entries e d : eng_inv e → rep (eng_view e) d → in_width d →
  ∃ l : list N, scan_prefix (prefix_bytes PTxnActive) e
    = Ok (List.map Ok (List.map (λ v, (key_bytes (TxnActive v), [])) l)) ∧
    (∀ v, v ∈ l ↔ v ∈ active_set d) ∧ Forall (λ v, v ≤ u64_max) l ∧ NoDup l.
Proof.
  intros He Hr Hwd. rewrite scan_prefix_law by done.
  destruct (scan_image (eng_view e) (db_get d)
    (in_range bytes_cmp (prefix_range (prefix_bytes PTxnActive))) TxnActive (λ _, []) Hr)
    as (l & Heq & Hl).
  { intros k x Hk HP Hget. apply in_prefix_range, active_prefix in HP as [v ->]; [|done].
    cbn in Hget. exists v. split; [done|]. case_decide; by simplify_eq. }
  { by intros a b [= ->] _. }
  exists l. rewrite Heq. split; [done|].
  split; [|split].
  - intros v. rewrite Hl. cbn [db_get]. split.
    + intros (_ & Hget & _). by case_decide.
    + intros Hv. destruct Hwd as ((_ & Hn) & Ha & _). pose proof (Ha v Hv).
      assert (key_valid (TxnActive v)) by (cbn; lia).
      split; [done|]. rewrite decide_True by done. split; [done|].
      apply in_prefix_range, active_prefix; eauto.
  - apply Forall_forall. by intros v (Hv & _)%Hl.
  - pose proof Hr as (Hs & _ & _).
    pose proof (sorted_NoDup bytes_cmp _ (filter_sorted bytes_cmp
      (λ kv, in_range bytes_cmp (prefix_range (prefix_bytes PTxnActive)) kv.1) _ Hs)) as Hnd.
    rewrite Heq in Hnd. clear -Hnd.
    induction l as [|v l IH]; [constructor|]. cbn [List.map] in Hnd.
    rewrite fmap_cons in Hnd. apply NoDup_cons in Hnd as [Hnot Hnd].
    constructor; [|by apply IH]. intros Hin. apply Hnot.
    apply list_elem_of_fmap. exists (key_bytes (TxnActive v), []). split; [done|].
    apply elem_of_map. eauto.
Qed.

(** The write records of a transaction. *)
Lemma write_entries e d v : eng_inv e → rep (eng_view e) d → v ≤ u64_max →
  ∃ l : list bytes, scan_prefix (prefix_bytes (PTxnWrite v)) e
    = Ok (List.map Ok (List.map (λ key, (key_bytes (TxnWrite v key), [])) l)) ∧
    ∀ key, key ∈ l ↔ (v, key) ∈ writes d.
Proof.
  intros He Hr Hv. rewrite scan_prefix_law by done.
  destruct (scan_image (eng_view e) (db_get d)
    (in_range bytes_cmp (prefix_range (prefix_bytes (PTxnWrite v)))) (TxnWrite v) (λ _, []) Hr)
    as (l & Heq & Hl).
  { intros k x Hk HP Hget. apply in_prefix_range, write_prefix in HP as [key ->]; [|done..].
    cbn in Hget. exists key. split; [done|]. case_decide; by simplify_eq. }
  { by intros a b [= ->] _. }
  exists l. rewrite Heq. split; [done|].
  intros key. rewrite Hl. cbn [db_get]. split.
  - intros (_ & Hget & _). by case_decide.
  - intros Hin. split; [done|]. rewrite decide_True by done. split; [done|].
    apply in_prefix_range, write_prefix; eauto.
Qed.

Lemma scan_active_loop_ok (l : list N) (acc : gset N) : Forall (λ v, v ≤ u64_max) l →
  scan_active_loop (List.map Ok (List.map (λ v, (key_bytes (TxnActive v), [])) l)) acc
  = Ok (list_to_set l ∪ acc).
Proof.
  revert acc. induction l as [|v l IH]; intros acc Hl.
  - cbn. f_equal. set_solver.
  - apply Forall_cons in Hl as [Hv Hl]. cbn [List.map scan_active_loop mbind res_bind].
    rewrite decode_bytes by done. cbn [mbind res_bind]. rewrite IH by done. f_equal. set_solver.
Qed.

Lemma scan_active_rep e d : eng_inv e → rep (eng_view e) d → in_width d →
  scan_active e = (Ok (active_set d), e).
Proof.
  intros He Hr Hwd. destruct (active_entries e d He Hr Hwd) as (l & Hscan & Hmem & Hl & _).
  unfold scan_active.
  erewrite M_bind_Ok by (unfold lift; by rewrite encode_prefix_valid).
  erewrite M_bind_Ok by (unfold scan_pfx; by rewrite Hscan).
  unfold lift. rewrite scan_active_loop_ok by done. repeat f_equal.
  apply set_eq. intros v. rewrite elem_of_union, elem_of_list_to_set, Hmem. set_solver.
Qed.

(** The versions of a key in a range, oldest first. *)
Lemma version_entries e d key a b : eng_inv e → rep (eng_view e) d → in_width d →
  a ≤ b → b ≤ u64_max →
  ∃ l : list (N * option bytes),
    eng_scan (Included (key_bytes (Version key a)), Included (key_bytes (Version key b))) e
    = Ok (List.map Ok (List.map (λ p, (key_bytes (Version key p.1), bin_serialize p.2)) l)) ∧
    (∀ v ov, (v, ov) ∈ l ↔ versions d !! (key, v) = Some ov ∧ a ≤ v ≤ b) ∧
    StronglySorted (λ p q, p.1 < q.1) l ∧ Forall (λ p, p.1 ≤ u64_max) l.
Proof.
  intros He Hr Hwd Hab Hb. rewrite eng_scan_law by done. unfold bt_range.
  rewrite version_range_valid by lia. cbn [fmap res_fmap].
  set (P := in_range bytes_cmp (Included (key_bytes (Version key a)), Included (key_bytes (Version key b)))).
  destruct (scan_image (eng_view e) (db_get d) P (λ p : N * option bytes, Version key p.1)
    (λ p, bin_serialize p.2) Hr) as (l & Heq & Hl).
  { intros k x Hk HP Hget. apply version_in_range in HP as (v & -> & _); [|done|lia|done].
    cbn in Hget. destruct (versions d !! (key, v)) as [ov|]; [|done]. cbn in Hget.
    simplify_eq. by exists (v, ov). }
  { intros [v ov] [w ow] [= ->] Hx%(inj bin_serialize). cbn in Hx. by subst. }
  exists l. rewrite Heq. split; [done|].
  assert (Forall (λ p : N * option bytes, p.1 ≤ u64_max) l) as Hw.
  { apply Forall_forall. by intros p (Hp & _)%Hl. }
  split; [|split; [|done]].
  - intros v ov. rewrite Hl. cbn [fst snd db_get]. split.
    + intros (Hv & Hget & HP).
      apply version_in_range in HP as (v' & [= <-] & Hr'); [|done|lia|done].
      destruct (versions d !! (key, v)) as [ov'|] eqn:Ev; [|done].
      cbn in Hget. injection Hget as Hx%(inj bin_serialize). by subst.
    + intros [Hget Hv]. assert (key_valid (Version key v)) by (cbn; lia).
      split; [done|]. rewrite Hget. split; [done|].
      apply version_in_range; [done|lia|done|]. eauto.
  - pose proof (scan_image_sorted _ _ _ (λ p : N * option bytes, Version key p.1) _ l Hr Heq) as Hs.
    eapply sorted_impl; [|by apply Hs]. intros p q Hlt. cbn [key_cmp mvcc_key] in Hlt.
    unfold compare_key in Hlt. cbn [key_index] in Hlt.
    rewrite N.compare_refl, (cmp_refl (cmp:=bytes_cmp)) in Hlt. by apply N.compare_lt_iff.
Qed.
End rep.
