(* ===== verification/MvccOps.v ===== *)
(** What each MVCC operation does to the store it runs on: the code of Mvcc,
    on an engine that represents a store, returns what the store says and
    leaves an engine that represents the updated store. *)
From Stdlib Require Import Strings.Byte NArith Lia Sorting.Sorted.
From stdpp Require Import base list gmap strings sorting.
From S2P Require Import Prelude BTreeMap KeyCode Engine KeyStore Bincode Mvcc MvccKeys MvccDb.

#[local] Opaque to_be.

(** Field updates used between the writes of an operation. *)
Definition with_next (d : Db) (n : N) : Db := {|
  next_version := n; active_set := active_set d; snapshots := snapshots d;
  versions := versions d; writes := writes d; unversioned := unversioned d |}.
Definition with_snapshot (d : Db) (v : N) (s : gset N) : Db := {|
  next_version := next_version d; active_set := active_set d;
  snapshots := <[v := s]> (snapshots d);
  versions := versions d; writes := writes d; unversioned := unversioned d |}.
Definition with_active (d : Db) (v : N) : Db := {|
  next_version := next_version d; active_set := {[v]} ∪ active_set d;
  snapshots := snapshots d;
  versions := versions d; writes := writes d; unversioned := unversioned d |}.
Definition with_write (d : Db) (v : N) (key : bytes) : Db := {|
  next_version := next_version d; active_set := active_set d; snapshots := snapshots d;
  versions := versions d; writes := {[(v, key)]} ∪ writes d; unversioned := unversioned d |}.
Definition with_unversioned (d : Db) (key value : bytes) : Db := {|
  next_version := next_version d; active_set := active_set d; snapshots := snapshots d;
  versions := versions d; writes := writes d;
  unversioned := <[key := value]> (unversioned d) |}.

(** The newest version of a key, if it has one. *)
Lemma newest_version (l : list (N * option bytes)) :
  StronglySorted (λ p q, p.1 < q.1) l →
  match last l with
  | Some p => p ∈ l ∧ ∀ q, q ∈ l → q.1 ≤ p.1
  | None => l = []
  end.
Proof.
  induction l as [|x l IH] using rev_ind; intros Hs; [done|]. rewrite last_snoc.
  split; [set_solver|]. intros q Hq. apply elem_of_app in Hq as [Hq|Hq%list_elem_of_singleton].
  - apply StronglySorted_app in Hs as (Hlt & _ & _).
    specialize (Hlt q x Hq). simpl in Hlt. assert (q.1 < x.1); [|lia].
    apply Hlt. by apply list_elem_of_singleton.
  - subst. lia.
Qed.

Lemma min_active_spec (s : gset N) :
  match min_active s with
  | Some v => v ∈ s ∧ ∀ w, w ∈ s → v ≤ w
  | None => s = ∅
  end.
Proof.
  unfold min_active. destruct (elements s) as [|x xs] eqn:Es.
  - by apply elements_empty_iff, leibniz_equiv in Es.
  - assert (∀ w, w ∈ s ↔ w ∈ x :: xs) as Hm by (intros w; by rewrite <-Es, elem_of_elements).
    setoid_rewrite Hm. clear Es Hm. induction xs as [|y xs [IHin IHmin]]; cbn [foldr].
    + split; [set_solver|]. intros w ->%list_elem_of_singleton. lia.
    + split.
      * destruct (N.min_spec y (foldr N.min x xs)) as [[_ ->]|[_ ->]]; set_solver.
      * intros w Hw. assert (w = y ∨ w ∈ x :: xs) as [->|Hw'%IHmin] by set_solver; lia.
Qed.

Lemma is_visible_le st v : is_visible st v = true → v ≤ version st.
Proof.
  unfold is_visible. case_decide; [done|]. destruct (read_only st).
  - intros ?%N.ltb_lt. lia.
  - by intros ?%N.leb_le.
Qed.

Section ops.
Context {E : Type} `{EngineLaws E}.
Context `{BincodeLaws N, BincodeLaws (gset N), BincodeLaws (option bytes)}.
Implicit Types (e : E) (d : Db) (st : TransactionState).

(** The writes an operation makes are within the engine's limits. *)
Definition begin_fits d : Prop :=
  fits (E:=E) NextVersion (bin_serialize (next_version d + 1)) ∧
  fits (E:=E) (TxnActiveSnapshot (next_version d)) (bin_serialize (active_set d)) ∧
  fits (E:=E) (TxnActive (next_version d)) [].
Definition write_fits (v : N) (key : bytes) (value : option bytes) : Prop :=
  fits (E:=E) (TxnWrite v key) [] ∧ fits (E:=E) (Version key v) (bin_serialize value).

Lemma load_next_version_rep e d : eng_inv e → rep (eng_view e) d →
  load_next_version e = (Ok (next_version d), e).
Proof.
  intros He Hr. unfold load_next_version.
  erewrite M_bind_Ok by (by apply get_key_rep). unfold lift. cbn.
  case_decide as Hn; [by rewrite Hn|]. by rewrite bin_roundtrip.
Qed.

(** ** Begin *)

Lemma begin_rep e d : eng_inv e → rep (eng_view e) d → in_width d →
  next_version d < u64_max → begin_fits d →
  ∃ e', begin e = (Ok {| version := next_version d; read_only := false;
                         active := active_set d |}, e') ∧
    eng_inv e' ∧ rep (eng_view e') (db_begin d).
Proof.
  intros He Hr Hw Hlt (Hf1 & Hf2 & Hf3).
  assert (1 ≤ next_version d) as Hpos by (by destruct Hw as ((? & _) & _)).
  unfold begin. erewrite M_bind_Ok by (by apply load_next_version_rep).
  erewrite M_bind_Ok by (unfold lift, add_u64; rewrite decide_True by lia; reflexivity).
  destruct (set_key_rep NextVersion (bin_serialize (next_version d + 1)) e d
    (with_next d (next_version d + 1))) as (e1 & Hs1 & He1 & Hr1); [done..| |].
  { intros [] Hk'; cbn; try done. by rewrite decide_False by lia. }
  erewrite M_bind_Ok by exact Hs1.
  assert (in_width (with_next d (next_version d + 1))) as Hw1.
  { destruct Hw as (_ & H1' & H2' & H3' & H4'). repeat split; cbn; try lia; intros.
    - specialize (H1' _ ltac:(eassumption)). lia.
    - specialize (H2' _ _ ltac:(eassumption)). lia.
    - specialize (H3' _ _ _ ltac:(eassumption)). lia.
    - specialize (H4' _ _ ltac:(eassumption)). lia. }
  erewrite M_bind_Ok by (by apply scan_active_rep). cbn [active_set with_next].
  assert (∃ e2, (if decide (active_set d = ∅) then mret tt
     else set_key (TxnActiveSnapshot (next_version d)) (bin_serialize (active_set d))) e1
     = (Ok tt, e2) ∧ eng_inv e2 ∧ rep (eng_view e2)
       (if decide (active_set d = ∅) then with_next d (next_version d + 1)
        else with_snapshot (with_next d (next_version d + 1)) (next_version d) (active_set d)))
    as (e2 & Hs2 & He2 & Hr2).
  { case_decide; [by exists e1|]. apply (set_key_rep _ _ _ _ _ He1 Hr1); [cbn; lia|done|].
    intros [] Hk'; cbn; try done. rewrite lookup_insert. repeat case_decide; naive_solver. }
  erewrite M_bind_Ok by exact Hs2.
  destruct (set_key_rep (TxnActive (next_version d)) [] e2 _ (db_begin d) He2 Hr2)
    as (e3 & Hs3 & He3 & Hr3); [cbn; lia|done| |].
  { intros [] Hk'; unfold db_begin; cbn; destruct (decide (active_set d = ∅)); cbn;
      try done; repeat case_decide; set_solver. }
  erewrite M_bind_Ok by exact Hs3. by exists e3.
Qed.

Lemma begin_read_only_rep e d : eng_inv e → rep (eng_view e) d → in_width d →
  begin_read_only None e
  = (Ok {| version := next_version d; read_only := true; active := active_set d |}, e).
Proof.
  intros He Hr Hw. unfold begin_read_only.
  erewrite M_bind_Ok by (by apply load_next_version_rep).
  by erewrite M_bind_Ok by (by apply scan_active_rep).
Qed.

Lemma begin_as_of_rep e d v : eng_inv e → rep (eng_view e) d → in_width d →
  begin_read_only (Some v) e
  = (if decide (v < next_version d)
     then Ok {| version := v; read_only := true; active := snapshot d v |}
     else Err (EValue (Msg "Version {} does not exist" [FNum v])), e).
Proof.
  intros He Hr Hw. unfold begin_read_only.
  erewrite M_bind_Ok by (by apply load_next_version_rep).
  case_decide as Hle; [by rewrite decide_False by lia|].
  rewrite decide_True by lia.
  assert (key_valid (TxnActiveSnapshot v)) as Hv.
  { cbn. destruct Hw as ((_ & ?) & _). lia. }
  erewrite M_bind_Ok by (by apply get_key_rep). unfold snapshot. cbn [db_get].
  destruct (snapshots d !! v) as [s|]; cbn [fmap option_fmap option_map].
  - by erewrite M_bind_Ok by (unfold lift; by rewrite bin_roundtrip).
  - done.
Qed.

Lemma resume_rep e d st : eng_inv e → rep (eng_view e) d → version st ≤ u64_max →
  resume st e
  = (if read_only st || bool_decide (version st ∈ active_set d) then Ok st
     else Err (EInternal (Msg "No active transaction at version {}" [FNum (version st)])), e).
Proof.
  intros He Hr Hv. unfold resume. destruct (read_only st); [done|].
  erewrite M_bind_Ok by (by apply get_key_rep). cbn.
  destruct (decide (version st ∈ active_set d)); [by rewrite bool_decide_true|].
  by rewrite bool_decide_false.
Qed.

(** ** Get *)

Lemma get_loop_reads st d key (l : list (N * option bytes)) :
  Forall (λ p, p.1 ≤ u64_max) l → StronglySorted (λ p q, p.1 < q.1) l →
  (∃ p, p ∈ l ∧ is_visible st p.1 = true ∧
     (∀ q, q ∈ l → is_visible st q.1 = true → q.1 ≤ p.1) ∧
     get_loop st (List.map Ok (List.map
       (λ p, (key_bytes (Version key p.1), bin_serialize p.2)) (reverse l))) = Ok p.2) ∨
  ((∀ q, q ∈ l → is_visible st q.1 = false) ∧
   get_loop st (List.map Ok (List.map
       (λ p, (key_bytes (Version key p.1), bin_serialize p.2)) (reverse l))) = Ok None).
Proof.
  induction l as [|x l IH] using rev_ind; intros Hw Hs.
  { right. split; [|done]. intros q Hq. by apply not_elem_of_nil in Hq. }
  pose proof (newest_version _ Hs) as Hnew. rewrite last_snoc in Hnew. destruct Hnew as [_ Hmax].
  apply Forall_app in Hw as [Hw Hx]. apply Forall_cons in Hx as [Hx _].
  apply StronglySorted_app in Hs as (_ & Hs & _).
  rewrite reverse_snoc. cbn [List.map get_loop mbind res_bind].
  rewrite decode_bytes by done. cbn [mbind res_bind].
  destruct (is_visible st x.1) eqn:Ev.
  - left. exists x. rewrite bin_roundtrip. split; [set_solver|]. split; [done|].
    split; [|done]. intros q Hq _. by apply Hmax.
  - destruct (IH Hw Hs) as [(p & Hp & Hvis & Hall & Heq)|[Hall Heq]]; rewrite Heq.
    + left. exists p. split; [set_solver|]. split; [done|]. split; [|done].
      intros q [Hq| ->%list_elem_of_singleton]%elem_of_app Hv; [auto|congruence].
    + right. split; [|done].
      intros q [Hq| ->%list_elem_of_singleton]%elem_of_app; auto.
Qed.

Lemma get_rep e d st key : eng_inv e → rep (eng_view e) d → in_width d →
  version st ≤ u64_max →
  ∃ r, txn_get st key e = (Ok r, e) ∧ reads d (is_visible st) key r.
Proof.
  intros He Hr Hw Hv. unfold txn_get.
  erewrite M_bind_Ok by (unfold lift; by rewrite encode_valid).
  erewrite M_bind_Ok by (unfold lift; by rewrite encode_valid).
  destruct (version_entries e d key 0 (version st) He Hr Hw) as (l & Hscan & Hmem & Hs & Hl);
    [lia|done|].
  erewrite M_bind_Ok by (unfold scan_range; by rewrite Hscan).
  unfold lift. rewrite !reverse_map.
  destruct (get_loop_reads st d key l Hl Hs) as [([v ov] & Hp & Hvis & Hall & ->)|[Hall ->]];
    eexists; (split; [done|]).
  - left. exists v. cbn [fst snd] in *. apply Hmem in Hp as [Hp _]. split; [done|].
    split; [done|]. intros w ow Hget Hw'. pose proof (is_visible_le _ _ Hw').
    apply (Hall (w, ow)); [|done]. apply Hmem. split; [done|lia].
  - right. split; [done|]. intros v ov Hget.
    destruct (is_visible st v) eqn:Ev; [|done]. pose proof (is_visible_le _ _ Ev).
    rewrite <-Ev. apply (Hall (v, ov)). apply Hmem. split; [done|lia].
Qed.

(** ** Writes *)

Lemma write_read_only e st key value : read_only st = true →
  write_version st key value e = (Err EReadOnly, e).
Proof. intros Hro. unfold write_version. by rewrite Hro. Qed.

(** The conflict check looks at the newest version in its range. *)
Lemma conflict_check e d st key from : eng_inv e → rep (eng_view e) d → in_width d →
  from = conflict_from st → from ≤ u64_max →
  ∃ items, eng_scan (Included (key_bytes (Version key from)),
                     Included (key_bytes (Version key u64_max))) e = Ok items ∧
    let check := match last items with
             | None => Ok tt
             | Some item =>
                 '(k, _) ← item;
                 k' ← decode k;
                 match k' with
                 | Version _ v => if is_visible st v then Ok tt else Err ESerialization
                 | _ => unexpected "Expected Key::Version got {:?}" k
                 end
             end in
    (blocked d st key ∧ check = Err ESerialization) ∨ (¬ blocked d st key ∧ check = Ok tt).
Proof.
  intros He Hr Hw -> Hle.
  destruct (version_entries e d key (conflict_from st) u64_max He Hr Hw Hle)
    as (l & Hscan & Hmem & Hs & Hl); [done|].
  eexists. split; [exact Hscan|]. cbn zeta. rewrite !last_map.
  assert (∀ w ow, versions d !! (key, w) = Some ow → w ≤ u64_max) as Hmax.
  { destruct Hw as ((_ & Hn) & _ & _ & Hv & _). intros w ow Hget%Hv. lia. }
  pose proof (newest_version l Hs) as Hnew. destruct (last l) as [[v ov]|].
  - destruct Hnew as [Hin Hnew]. pose proof Hin as Hin'. apply Hmem in Hin' as [Hget Hrange].
    cbn [fmap option_fmap option_map mbind res_bind fst].
    rewrite decode_bytes by (cbn; lia). cbn [mbind res_bind].
    assert (∀ w ow, versions d !! (key, w) = Some ow → w ≤ v) as Hall.
    { intros w ow Hget'. destruct (decide (conflict_from st ≤ w)); [|lia].
      apply (Hnew (w, ow)). apply Hmem. eauto. }
    destruct (is_visible st v) eqn:Ev; [right|left]; (split; [|done]).
    + intros (u & ou & Hgu & _ & Hiu & Hau). pose proof (Hall _ _ Hgu). pose proof (Hau _ _ Hget).
      assert (u = v) as -> by lia. congruence.
    + exists v, ov. split; [done|]. split; [lia|]. done.
  - right. split; [|done]. intros (u & ou & Hgu & Hfu & _). subst l.
    apply (not_elem_of_nil (u, ou)), Hmem. eauto.
Qed.

(** The snapshot of a transaction only holds earlier versions. *)
Definition state_in_width st : Prop :=
  version st < u64_max ∧ ∀ v, v ∈ active st → v < version st.

Lemma write_version_rep e d st key value : eng_inv e → rep (eng_view e) d → in_width d →
  read_only st = false → state_in_width st → write_fits (version st) key value →
  (blocked d st key ∧ write_version st key value e = (Err ESerialization, e)) ∨
  (¬ blocked d st key ∧
   ∃ e', write_version st key value e = (Ok tt, e') ∧ eng_inv e' ∧
     rep (eng_view e') (db_write d (version st) key value)).
Proof.
  intros He Hr Hw Hro [Hv Hact] [Hf1 Hf2]. unfold write_version. rewrite Hro.
  pose proof (min_active_spec (active st)) as Hmin.
  assert (conflict_from st ≤ u64_max) as Hle.
  { unfold conflict_from. destruct (min_active (active st)); cbn; [|lia].
    destruct Hmin as [?%Hact _]. lia. }
  assert (match min_active (active st) with Some v => Ok v | None => add_u64 (version st) 1 end
    = Ok (conflict_from st)) as Hfrom.
  { unfold conflict_from. destruct (min_active (active st)); [done|].
    apply add_u64_Ok. cbn. lia. }
  erewrite M_bind_Ok by (unfold lift; by rewrite Hfrom).
  erewrite M_bind_Ok by (unfold lift; by rewrite encode_valid).
  erewrite M_bind_Ok by (unfold lift; by rewrite encode_valid).
  destruct (conflict_check e d st key _ He Hr Hw eq_refl Hle) as (items & Hscan & Hcheck).
  erewrite M_bind_Ok by (unfold scan_range; by rewrite Hscan).
  destruct Hcheck as [[Hb Hcheck]|[Hb Hcheck]]; cbn zeta in Hcheck; [left|right]; (split; [done|]).
  - unfold mbind at 1, M_bind at 1. unfold lift at 1. by rewrite Hcheck.
  - erewrite M_bind_Ok by (unfold lift; by rewrite Hcheck).
    destruct (set_key_rep (TxnWrite (version st) key) [] e d (with_write d (version st) key))
      as (e1 & Hs1 & He1 & Hr1); [done|done|cbn; lia|done| |].
    { intros [] Hk'; cbn; try done. repeat case_decide; set_solver. }
    erewrite M_bind_Ok by exact Hs1.
    apply (set_key_rep _ _ _ _ _ He1 Hr1); [cbn; lia|done|].
    intros [] Hk'; cbn; try done. rewrite lookup_insert. repeat case_decide; naive_solver.
Qed.

(** ** Commit and rollback *)

(** What a commit or a rollback leaves before it removes the active record. *)
Definition clear_writes (d : Db) (v : N) (vs : gmap (bytes * N) (option bytes)) : Db := {|
  next_version := next_version d; active_set := active_set d; snapshots := snapshots d;
  versions := vs; writes := filter (λ p, p.1 ≠ v) (writes d); unversioned := unversioned d |}.

Lemma end_txn_rep e d v vs : eng_inv e → rep (eng_view e) (clear_writes d v vs) →
  v ≤ u64_max → v ∈ active_set d →
  ∃ e', delete_key (TxnActive v) e = (Ok tt, e') ∧ eng_inv e' ∧
    rep (eng_view e') {| next_version := next_version d; active_set := active_set d ∖ {[v]};
      snapshots := snapshots d; versions := vs; writes := filter (λ p, p.1 ≠ v) (writes d);
      unversioned := unversioned d |}.
Proof.
  intros He Hr Hv Hin. apply (delete_key_rep _ _ _ _ He Hr); [done|cbn; by rewrite decide_True|].
  intros [] Hk'; cbn; try done. repeat case_decide; set_solver.
Qed.

Lemma commit_rep e d st : eng_inv e → rep (eng_view e) d →
  read_only st = false → version st ≤ u64_max → version st ∈ active_set d →
  ∃ e', commit st e = (Ok tt, e') ∧ eng_inv e' ∧ rep (eng_view e') (db_commit d (version st)).
Proof.
  intros He Hr Hro Hv Hact. unfold commit. rewrite Hro.
  destruct (write_entries e d (version st) He Hr Hv) as (l & Hscan & Hmem).
  erewrite M_bind_Ok by (unfold lift; by rewrite encode_prefix_valid).
  erewrite M_bind_Ok by (unfold scan_pfx; by rewrite Hscan).
  assert (collect (List.map (fmap (M:=res) fst) (List.map Ok
      (List.map (λ key, (key_bytes (TxnWrite (version st) key), [] : bytes)) l)))
    = Ok (List.map key_bytes (List.map (TxnWrite (version st)) l))) as Hkeys.
  { rewrite <-collect_Ok, !List.map_map. done. }
  erewrite M_bind_Ok by (unfold lift; by rewrite Hkeys). clear Hkeys.
  destruct (delete_keys_stored (List.map (TxnWrite (version st)) l) e (db_get d)
    (db_get (clear_writes d (version st) (versions d))) He Hr) as (e1 & Hd1 & He1 & Hr1).
  { intros k (key & -> & Hin%Hmem)%elem_of_map. split; [done|]. cbn. by rewrite decide_True. }
  { intros k Hk. assert (k ∈ List.map (TxnWrite (version st)) l ↔
      ∃ key, k = TxnWrite (version st) key ∧ (version st, key) ∈ writes d) as Hiff.
    { rewrite elem_of_map. by setoid_rewrite Hmem. }
    destruct k; cbn; try (by rewrite (decide_False (P:=_ ∈ List.map _ _)) by
      (rewrite Hiff; intros (? & ? & _); discriminate)).
    match goal with |- context [decide (?p ∈ filter ?P ?s)] =>
      destruct (decide (p ∈ filter P s)) as [Hf|Hf] end;
      rewrite elem_of_filter in Hf; cbn in Hf; repeat case_decide; naive_solver. }
  erewrite M_bind_Ok by exact Hd1. by apply end_txn_rep.
Qed.

Lemma rollback_loop_ok st (l : list bytes) acc : version st ≤ u64_max →
  rollback_loop st
    (List.map Ok (List.map (λ key, (key_bytes (TxnWrite (version st) key), [])) l)) acc
  = Ok (acc ++ List.map key_bytes
      (List.flat_map (λ key, [Version key (version st); TxnWrite (version st) key]) l)).
Proof.
  intros Hv. revert acc. induction l as [|key l IH]; intros acc; cbn [List.map rollback_loop].
  - cbn. by rewrite app_nil_r.
  - cbn [mbind res_bind]. rewrite decode_bytes by done. cbn [mbind res_bind].
    rewrite encode_valid by done. cbn [mbind res_bind]. rewrite IH, <-app_assoc. done.
Qed.

Lemma rollback_rep e d st : eng_inv e → rep (eng_view e) d →
  read_only st = false → version st ≤ u64_max → version st ∈ active_set d →
  (∀ key, (version st, key) ∈ writes d → is_Some (versions d !! (key, version st))) →
  ∃ e', rollback st e = (Ok tt, e') ∧ eng_inv e' ∧ rep (eng_view e') (db_rollback d (version st)).
Proof.
  intros He Hr Hro Hv Hact Hvers. unfold rollback. rewrite Hro.
  destruct (write_entries e d (version st) He Hr Hv) as (l & Hscan & Hmem).
  erewrite M_bind_Ok by (unfold lift; by rewrite encode_prefix_valid).
  erewrite M_bind_Ok by (unfold scan_pfx; by rewrite Hscan).
  erewrite M_bind_Ok by (unfold lift; rewrite rollback_loop_ok by done; reflexivity).
  cbn [app].
  set (ks := List.flat_map _ l).
  assert (∀ k, k ∈ ks ↔ ∃ key, (k = Version key (version st) ∨ k = TxnWrite (version st) key) ∧
    (version st, key) ∈ writes d) as Hks.
  { intros k. unfold ks. rewrite list_elem_of_In, List.in_flat_map.
    setoid_rewrite <-list_elem_of_In. setoid_rewrite Hmem. set_solver. }
  destruct (delete_keys_stored ks e (db_get d) (db_get (clear_writes d (version st)
    (versions (db_rollback d (version st))))) He Hr) as (e1 & Hd1 & He1 & Hr1).
  { intros k (key & [-> | ->] & Hin)%Hks; (split; [done|]); cbn.
    - destruct (Hvers _ Hin) as [? ->]. by eexists.
    - by rewrite decide_True. }
  { intros k Hk. specialize (Hks k).
    destruct k as [| | |v key|key v|]; cbn;
      try (by rewrite (decide_False (P:=_ ∈ ks)) by
        (rewrite Hks; intros (? & [?|?] & _); discriminate)).
    - match goal with |- context [decide (?p ∈ filter ?P ?s)] =>
        destruct (decide (p ∈ filter P s)) as [Hf|Hf] end;
        rewrite elem_of_filter in Hf; cbn in Hf; repeat case_decide; naive_solver.
    - rewrite map_lookup_filter. destruct (versions d !! (key, v)) as [ov|] eqn:Ev; cbn;
        [|by case_decide].
      repeat case_decide; cbn; try done; unfold guard; repeat case_decide; naive_solver. }
  erewrite M_bind_Ok by exact Hd1. by apply end_txn_rep.
Qed.

(** ** Unversioned keys *)

Lemma get_unversioned_rep e d key : eng_inv e → rep (eng_view e) d →
  get_unversioned key e = (Ok (unversioned d !! key), e).
Proof. intros He Hr. by apply (get_key_rep (Unversioned key)). Qed.

Lemma set_unversioned_rep e d key value : eng_inv e → rep (eng_view e) d →
  fits (E:=E) (Unversioned key) value →
  ∃ e', set_unversioned key value e = (Ok tt, e') ∧ eng_inv e' ∧
    rep (eng_view e') (with_unversioned d key value).
Proof.
  intros He Hr Hf. apply (set_key_rep _ _ _ _ _ He Hr); [done|done|].
  intros [] Hk'; cbn; try done. rewrite lookup_insert. repeat case_decide; naive_solver.
Qed.
End ops.
