(* ===== verification/MvccInv.v ===== *)
(** The invariant of an MVCC store that makes snapshot isolation work: the
    stored snapshots of the active set are complete, and of two transactions
    that wrote the same key the later one saw the earlier one's write. *)
From Stdlib Require Import Strings.Byte NArith Lia.
From stdpp Require Import base list gmap strings.
From S2P Require Import Prelude BTreeMap KeyCode Engine Bincode Mvcc MvccKeys MvccDb MvccOps.

Record db_inv (d : Db) : Prop := {
  inv_width : in_width d;
  (** A snapshot holds earlier versions. *)
  inv_snap_lt : ∀ v w, w ∈ snapshot d v → w < v;
  (** A transaction that is still active was active when any later one began. *)
  inv_snap_complete : ∀ v w, w ∈ active_set d → w < v → v < next_version d → w ∈ snapshot d v;
  inv_snap_mono : ∀ u v w, w ∈ snapshot d v → w < u → u < v → w ∈ snapshot d u;
  (** Write records are those of the active transactions' versions. *)
  inv_writes : ∀ v k, (v, k) ∈ writes d ↔ v ∈ active_set d ∧ is_Some (versions d !! (k, v));
  (** A later writer of a key did not run concurrently with an earlier one. *)
  inv_ww : ∀ k v w ov ow, versions d !! (k, v) = Some ov → versions d !! (k, w) = Some ow →
    w < v → w ∉ snapshot d v;
  inv_active_pos : 0 ∉ active_set d;
  inv_version_pos : ∀ k ov, versions d !! (k, 0) ≠ Some ov
}.

Lemma empty_db_inv : db_inv empty_db.
Proof.
  split; unfold snapshot, in_width; cbn; try done; try (intros; set_solver).
Qed.

(** ** Beginning a transaction *)

Lemma snapshot_begin d v : in_width d →
  snapshot (db_begin d) v = if decide (v = next_version d) then active_set d else snapshot d v.
Proof.
  intros (_ & _ & Hs & _). unfold snapshot, db_begin. cbn.
  assert (snapshots d !! next_version d = None) as Hn.
  { destruct (snapshots d !! next_version d) eqn:E; [|done]. apply Hs in E. lia. }
  destruct (decide (active_set d = ∅)) as [He|He]; repeat case_decide; subst.
  - by rewrite Hn, He.
  - done.
  - by rewrite lookup_insert_eq.
  - by rewrite lookup_insert_ne.
Qed.

Lemma db_begin_inv d : db_inv d → next_version d < u64_max → db_inv (db_begin d).
Proof.
  intros [Hw Hlt Hc Hm Hwr Hww Hap Hvp] Hn. pose proof Hw as ((Hn1 & _) & Ha & Hs & Hv & Hwd).
  assert (∀ v w, w ∈ snapshot (db_begin d) v → w < v) as Hlt'.
  { intros v w. rewrite snapshot_begin by done. case_decide; [subst; apply Ha|apply Hlt]. }
  split; [|done|..]; cbn [active_set next_version versions writes db_begin].
  - repeat split; cbn; try lia.
    + intros v [->%elem_of_singleton|Hin%Ha]%elem_of_union; lia.
    + intros v s. case_decide; [intros Hx%Hs; lia|].
      intros [[<- <-]|[_ Hx%Hs]]%lookup_insert_Some; lia.
    + intros k v ov Hx%Hv. lia.
    + intros k v Hx%Hwd. lia.
  - intros v w Hin Hwv Hvn. rewrite snapshot_begin by done. case_decide; subst.
    + set_solver by lia.
    + apply Hc; [|lia..]. apply elem_of_union in Hin as [->%elem_of_singleton|]; [lia|done].
  - intros u v w. rewrite !snapshot_begin by done. case_decide; subst.
    + intros Hin Hwu Hun. rewrite decide_False by lia. by apply Hc.
    + intros Hin Hwu Huv. case_decide; subst; [|by eapply Hm].
      unfold snapshot in Hin. destruct (snapshots d !! v) eqn:E; [|set_solver]. apply Hs in E. lia.
  - intros v k. rewrite Hwr. split; [set_solver|].
    intros [[->%elem_of_singleton|Hin]%elem_of_union [ov Hov]]; [apply Hv in Hov; lia|eauto].
  - intros k v w ov ow Hgv Hgw Hwv. rewrite snapshot_begin by done.
    rewrite decide_False by (apply Hv in Hgv; lia). by eapply Hww.
  - set_solver by lia.
  - done.
Qed.

(** ** Writing *)

(** The newest version of a key. *)
Lemma newest_exists d key w ow : in_width d → versions d !! (key, w) = Some ow →
  ∃ m om, versions d !! (key, m) = Some om ∧ w ≤ m ∧
    ∀ u ou, versions d !! (key, u) = Some ou → u ≤ m.
Proof.
  intros (_ & _ & _ & Hv & _). revert ow. induction w as [w IH] using
    (well_founded_induction (N.gt_wf (next_version d))). intros ow Hget.
  pose proof (Hv _ _ _ Hget).
  destruct (decide (map_Exists (λ kv _, kv.1 = key ∧ w < kv.2) (versions d))) as [Hex|Hno].
  - destruct Hex as ([k u] & ou & Hgu & Hk & Hlt). cbn in Hk, Hlt. subst k. pose proof (Hv _ _ _ Hgu).
    destruct (IH u ltac:(lia) ou Hgu) as (m & om & Hgm & Hle & Hall).
    exists m, om. split; [done|]. split; [lia|done].
  - exists w, ow. split; [done|]. split; [lia|]. intros u ou Hgu.
    destruct (decide (u ≤ w)); [done|]. exfalso. apply Hno. exists (key, u), ou. cbn. split; [done|].
    split; [done|lia].
Qed.

Lemma rw_visible d v w : is_visible (rw_state d v) w = true ↔ w ≤ v ∧ w ∉ snapshot d v.
Proof.
  unfold is_visible. cbn. case_decide; [naive_solver|]. rewrite N.leb_le. tauto.
Qed.

Lemma rw_invisible d v w : is_visible (rw_state d v) w = false ↔ v < w ∨ w ∈ snapshot d v.
Proof.
  unfold is_visible. cbn. case_decide; [naive_solver|]. rewrite N.leb_gt. tauto.
Qed.

(** Checking the newest version from the oldest active one on is checking
    every version. *)
Lemma blocked_iff d v key : db_inv d →
  blocked d (rw_state d v) key ↔
  ∃ w ow, versions d !! (key, w) = Some ow ∧ is_visible (rw_state d v) w = false.
Proof.
  intros Hi. split; [intros (w & ow & ? & _ & ? & _); eauto|].
  intros (w & ow & Hgw & Hinv).
  destruct (newest_exists d key w ow (inv_width d Hi) Hgw) as (m & om & Hgm & Hle & Hall).
  assert (is_visible (rw_state d v) m = false) as Hm.
  { destruct (is_visible (rw_state d v) m) eqn:Em; [|done]. exfalso.
    apply rw_visible in Em as [Hmv Hms]. apply rw_invisible in Hinv as [Hvw|Hws]; [lia|].
    destruct (decide (w = m)) as [->|]; [done|].
    apply (inv_ww d Hi key m w om ow); [done|done|lia|].
    destruct (decide (m = v)) as [->|]; [done|].
    apply (inv_snap_mono d Hi m v w); [done|lia|lia]. }
  exists m, om. split; [done|]. split; [|done].
  unfold conflict_from. cbn [active version rw_state].
  pose proof (min_active_spec (snapshot d v)) as Hmin.
  apply rw_invisible in Hm. destruct (min_active (snapshot d v)) as [a|]; cbn.
  - destruct Hmin as [Ha Hmin]. apply (inv_snap_lt d Hi) in Ha.
    destruct Hm as [Hm|Hm%Hmin]; lia.
  - rewrite Hmin in Hm. destruct Hm as [Hm|Hm]; [lia|set_solver].
Qed.

Lemma db_write_inv d v key value : db_inv d → v ∈ active_set d →
  ¬ blocked d (rw_state d v) key → db_inv (db_write d v key value).
Proof.
  intros Hi Hact Hnb.
  assert (∀ w ow, versions d !! (key, w) = Some ow → w ≤ v ∧ w ∉ snapshot d v) as Hvis.
  { intros w ow Hget. apply rw_visible. destruct (is_visible _ w) eqn:Ew; [done|].
    exfalso. apply Hnb, blocked_iff; eauto. }
  destruct Hi as [Hw Hlt Hc Hm Hwr Hww Hap Hvp]. pose proof Hw as (Hn & Ha & Hs & Hv & Hwd).
  split; try done; cbn [active_set next_version versions writes db_write].
  - split; [done|]. split; [done|]. split; [done|]. cbn. split.
    + intros k w ov [[[= <- <-] _]|[_ Hx%Hv]]%lookup_insert_Some; [by apply Ha|done].
    + intros k w [[= -> ->]%elem_of_singleton|Hx%Hwd]%elem_of_union; [by apply Ha|done].
  - intros w k. rewrite elem_of_union, elem_of_singleton, Hwr, lookup_insert.
    case_decide; naive_solver.
  - intros k u w ou ow. unfold snapshot. cbn. fold (snapshot d u).
    rewrite !lookup_insert_Some. intros [[Heq _]|[Hne Hu]] [[Heq' _]|[Hne' Hw']] Hwu;
      simplify_eq.
    + lia.
    + apply (Hvis _ _ Hw').
    + apply Hvis in Hu. lia.
    + by eapply Hww.
  - intros k ov. rewrite lookup_insert_Some. intros [[[= -> ->] _]|[_ Hx]]; [done|].
    by eapply Hvp.
Qed.

(** ** Ending a transaction *)

Lemma db_commit_inv d v : db_inv d → db_inv (db_commit d v).
Proof.
  intros [Hw Hlt Hc Hm Hwr Hww Hap Hvp]. destruct Hw as (Hn & Ha & Hs & Hv & Hwd).
  split; try done; cbn [active_set next_version versions writes db_commit].
  - repeat split; cbn; try done; try lia.
    + intros w [? _]%elem_of_difference. by apply Ha.
    + intros k w [_ Hin]%elem_of_filter. by eapply Hwd.
  - intros u w [? _]%elem_of_difference. by apply Hc.
  - intros w k. rewrite elem_of_filter, Hwr. cbn. set_solver.
  - set_solver.
Qed.

Lemma db_rollback_lookup d v k w ov :
  versions (db_rollback d v) !! (k, w) = Some ov ↔
  versions d !! (k, w) = Some ov ∧ ¬ (w = v ∧ (v, k) ∈ writes d).
Proof. cbn. by rewrite map_lookup_filter_Some. Qed.

Lemma db_rollback_inv d v : db_inv d → db_inv (db_rollback d v).
Proof.
  intros [Hw Hlt Hc Hm Hwr Hww Hap Hvp]. destruct Hw as (Hn & Ha & Hs & Hv & Hwd).
  split; try done; cbn [active_set next_version writes db_rollback].
  - split; [done|]. cbn [active_set next_version writes snapshots db_rollback].
    split; [intros w [? _]%elem_of_difference; by apply Ha|]. split; [done|]. split.
    + intros k w ov [Hx%Hv _]%db_rollback_lookup. done.
    + intros k w [_ Hin]%elem_of_filter. by eapply Hwd.
  - intros u w [? _]%elem_of_difference. by apply Hc.
  - intros w k. rewrite elem_of_filter, Hwr. cbn [fst]. split.
    + intros (Hne & Hin & [ov Hov]). split; [set_solver|]. exists ov.
      apply db_rollback_lookup. naive_solver.
    + intros [Hin [ov [Hov _]%db_rollback_lookup]]. split; [set_solver|]. split; [set_solver|eauto].
  - intros k u w ou ow [Hu _]%db_rollback_lookup [Hw' _]%db_rollback_lookup. by eapply Hww.
  - set_solver.
  - intros k ov [Hx _]%db_rollback_lookup. by eapply Hvp.
Qed.

Lemma with_unversioned_inv d k x : db_inv d → db_inv (with_unversioned d k x).
Proof. by intros []. Qed.
