(* ===== verification/MvccScan.v ===== *)
(** Scans: what the double-ended iterator of a transaction yields from either
    end, as a function of the versions in its range. *)
From Stdlib Require Import Strings.Byte NArith Lia Sorting.Sorted.
From stdpp Require Import base list gmap strings sorting.
From S2P Require Import Prelude BTreeMap KeyCode Engine KeyStore Bincode Mvcc MvccKeys MvccDb MvccOps.

#[local] Opaque to_be.

(** A version of a key with its value. *)
Abbreviation VItem := (bytes * N * option bytes)%type.

(** Engine order: by key, then by version. *)
Definition item_lt (p q : VItem) : Prop :=
  bytes_cmp p.1.1 q.1.1 = Lt ∨ (p.1.1 = q.1.1 ∧ p.1.2 < q.1.2).

Definition live (p : VItem) : list (bytes * bytes) :=
  match p.2 with Some x => [(p.1.1, x)] | None => [] end.

(** The last version of each run of equal keys, when it is not a tombstone. *)
Fixpoint emit (l : list VItem) : list (bytes * bytes) :=
  match l with
  | [] => []
  | p :: rest =>
      match rest with
      | q :: _ => if decide (q.1.1 = p.1.1) then emit rest else live p ++ emit rest
      | [] => live p
      end
  end.

(** The first version of each run, going backwards. *)
Fixpoint emit_back (last : option bytes) (l : list VItem) : list (bytes * bytes) :=
  match l with
  | [] => []
  | p :: rest =>
      if decide (last = Some p.1.1) then emit_back last rest
      else live p ++ emit_back (Some p.1.1) rest
  end.

(** ** The two directions agree *)

Lemma emit_cons_same p q l : q.1.1 = p.1.1 → emit (p :: q :: l) = emit (q :: l).
Proof. intros Heq. cbn [emit]. by rewrite decide_True. Qed.

Lemma emit_cons_ne p l : (∀ q, q ∈ l → q.1.1 ≠ p.1.1) → emit (p :: l) = live p ++ emit l.
Proof.
  intros Hne. destruct l as [|q l]; [cbn; by rewrite app_nil_r|].
  cbn [emit]. rewrite decide_False; [done|]. apply Hne. set_solver.
Qed.

Lemma cmp_lt_ne a b : bytes_cmp a b = Lt → a ≠ b.
Proof. intros Hlt ->. by rewrite (cmp_refl (cmp:=bytes_cmp)) in Hlt. Qed.

(** After the first item of another key comes no more of this one. *)
Lemma item_sorted_split p l : StronglySorted item_lt (p :: l) →
  (∃ q l', l = q :: l' ∧ q.1.1 = p.1.1 ∧ p.1.2 < q.1.2) ∨
  (∀ q, q ∈ l → bytes_cmp p.1.1 q.1.1 = Lt).
Proof.
  intros [Hall Hs]%StronglySorted_cons. destruct l as [|q l]; [right; set_solver|].
  rewrite Forall_cons in Hall. destruct Hall as [[Hlt|[Heq Hlt]] Hall].
  - right. apply StronglySorted_cons in Hs as [Hall' _]. rewrite Forall_forall in Hall'.
    intros r [->|Hr%Hall']%elem_of_cons; [done|].
    destruct Hr as [Hr|[<- _]]; [|done]. by eapply cmp_trans.
  - left. exists q, l. done.
Qed.

Lemma emit_snoc l k v ov : StronglySorted item_lt (l ++ [(k, v, ov)]) →
  emit (l ++ [(k, v, ov)]) = emit (filter (λ p, p.1.1 ≠ k) l) ++ live (k, v, ov).
Proof.
  induction l as [|p l IH]; intros Hs; [done|]. cbn [app] in *.
  pose proof Hs as [_ Hs']%StronglySorted_cons.
  destruct (item_sorted_split _ _ Hs) as [(q & l' & Heq & Hk & _)|Hlt].
  - rewrite Heq, emit_cons_same, <-Heq, IH by done.
    destruct l as [|q' l].
    + cbn in Heq. injection Heq as <- <-. cbn in Hk. rewrite filter_cons_False by naive_solver. done.
    + cbn in Heq. injection Heq as -> _. f_equal.
      destruct (decide (q.1.1 = k)) as [Hqk|Hqk].
      * rewrite (filter_cons_False _ p) by (rewrite <-Hk; naive_solver). done.
      * rewrite (filter_cons_True _ p), (filter_cons_True _ q) by (rewrite <-?Hk; naive_solver).
        by rewrite emit_cons_same.
  - rewrite emit_cons_ne by (intros q Hq%Hlt%cmp_lt_ne; done).
    rewrite filter_cons_True.
    + rewrite emit_cons_ne, IH by (done || intros q [_ Hq]%list_elem_of_filter; symmetry;
        apply cmp_lt_ne, Hlt; set_solver). by rewrite <-app_assoc.
    + apply cmp_lt_ne. apply (Hlt (k, v, ov)). set_solver.
Qed.

Lemma emit_back_reverse l last : StronglySorted item_lt l →
  match last with
  | Some k => ∀ p, p ∈ l → bytes_cmp p.1.1 k ≠ Gt
  | None => True
  end →
  emit_back last (reverse l) = reverse (emit (filter (λ p, last ≠ Some p.1.1) l)).
Proof.
  revert last. induction l as [|[[k v] ov] l IH] using rev_ind; intros last Hs Hle; [done|].
  rewrite reverse_snoc. cbn [emit_back fst]. rewrite filter_app.
  pose proof Hs as (Hlt & Hs' & _)%StronglySorted_app.
  assert (∀ p, p ∈ l → bytes_cmp p.1.1 k ≠ Gt) as Hk.
  { intros p Hp. destruct (Hlt p (k, v, ov) Hp) as [Hpk|[Hpk _]]; [set_solver|..]; cbn in Hpk.
    - by rewrite Hpk.
    - by rewrite Hpk, (cmp_refl (cmp:=bytes_cmp)). }
  case_decide as Hlast.
  - rewrite (filter_cons_False _ (k, v, ov)) by naive_solver. rewrite filter_nil, app_nil_r.
    apply IH; [done|]. destruct last; [|done]. by injection Hlast as ->.
  - rewrite (filter_cons_True _ (k, v, ov)) by naive_solver. rewrite filter_nil.
    assert (filter (λ p : VItem, last ≠ Some p.1.1) l = l) as ->.
    { apply filter_id. intros p Hp ->.
      pose proof (Hle (k, v, ov) ltac:(set_solver)) as H1. cbn in H1.
      pose proof (Hk p Hp) as H2. rewrite (cmp_antisym (cmp:=bytes_cmp) k p.1.1) in H2.
      destruct (bytes_cmp k p.1.1) eqn:Ec; try done. apply cmp_eq in Ec. congruence. }
    rewrite emit_snoc by done. rewrite reverse_app, (IH (Some k)) by done.
    rewrite (list_filter_iff (λ p : VItem, Some k ≠ Some p.1.1) (λ p, p.1.1 ≠ k)) by naive_solver.
    by destruct ov.
Qed.

Lemma emit_reverse l : StronglySorted item_lt l → emit_back None (reverse l) = reverse (emit l).
Proof.
  intros Hs. rewrite emit_back_reverse by done. do 2 f_equal. by apply filter_id.
Qed.

(** ** What is emitted *)

Lemma emit_key k x l : (k, x) ∈ emit l → ∃ p, p ∈ l ∧ p.1.1 = k.
Proof.
  induction l as [|p l IH]; [set_solver|]. cbn [emit].
  assert ((k, x) ∈ live p → ∃ p', p' ∈ p :: l ∧ p'.1.1 = k) as Hlive.
  { unfold live. destruct p.2; [|set_solver]. intros [= -> ->]%list_elem_of_singleton.
    exists p. set_solver. }
  assert ((k, x) ∈ emit l → ∃ p', p' ∈ p :: l ∧ p'.1.1 = k) as Htl.
  { intros (q & Hq & Hk)%IH. exists q. set_solver. }
  destruct l as [|q l]; [done|]. case_decide; [done|]. intros [?|?]%elem_of_app; auto.
Qed.

Lemma emit_sorted l : StronglySorted item_lt l → bt_sorted bytes_cmp (emit l).
Proof.
  induction l as [|p l IH]; intros Hs; [constructor|].
  pose proof Hs as [_ Hs'%IH]%StronglySorted_cons.
  destruct (item_sorted_split _ _ Hs) as [(q & l' & -> & Hk & _)|Hlt].
  - by rewrite emit_cons_same.
  - rewrite emit_cons_ne by (intros q Hq%Hlt%cmp_lt_ne; done).
    unfold live. destruct p.2 as [x|]; [|done]. cbn. constructor; [done|].
    apply Forall_forall. intros [k y] (q & Hq & <-)%emit_key. by apply Hlt.
Qed.

Lemma elem_of_emit l k x : StronglySorted item_lt l →
  (k, x) ∈ emit l ↔ ∃ v, (k, v, Some x) ∈ l ∧ ∀ w ow, (k, w, ow) ∈ l → w ≤ v.
Proof.
  induction l as [|p l IH]; intros Hs; [set_solver|].
  pose proof Hs as [_ Hs'%IH]%StronglySorted_cons.
  destruct (item_sorted_split _ _ Hs) as [(q & l' & -> & Hk & Hv)|Hlt].
  - rewrite emit_cons_same, Hs' by done. split; intros (v & Hin & Hall); exists v.
    + split; [set_solver|]. intros w ow [Heq|Hw]%elem_of_cons; [|eauto].
      subst p. destruct q as [[kq vq] oq]. cbn in *. subst kq.
      specialize (Hall vq oq ltac:(set_solver)). lia.
    + split; [|intros w ow Hw; apply (Hall w ow); set_solver].
      apply elem_of_cons in Hin as [Heq|Hin]; [|done]. subst p.
      destruct q as [[kq vq] oq]. cbn in *. subst kq.
      specialize (Hall vq oq ltac:(set_solver)). lia.
  - rewrite emit_cons_ne by (intros q Hq%Hlt%cmp_lt_ne; done).
    rewrite elem_of_app, Hs'. destruct p as [[kp vp] op]. cbn [fst snd] in Hlt.
    assert (∀ w ow, (kp, w, ow) ∉ l) as Hnot.
    { intros w ow Hin%Hlt. by apply cmp_lt_ne in Hin. }
    split.
    + intros [Hin|(v & Hin & Hall)].
      * unfold live in Hin. cbn in Hin. destruct op as [x'|]; [|set_solver].
        apply list_elem_of_singleton in Hin as [= -> ->]. exists vp. split; [set_solver|].
        intros w ow [[= -> ->]|Hw]%elem_of_cons; [lia|]. by apply Hnot in Hw.
      * exists v. split; [set_solver|]. intros w ow [[= -> -> ->]|Hw]%elem_of_cons; [|eauto].
        by apply Hnot in Hin.
    + intros (v & [[= -> -> <-]|Hin]%elem_of_cons & Hall); [left; by apply list_elem_of_singleton|].
      right. exists v. split; [done|]. intros w ow Hw. apply (Hall w ow). set_solver.
Qed.

(** ** The iterator *)

Section iterator.
Context `{BincodeLaws (option bytes)}.
Context (st : TransactionState).

Definition raw_item (p : VItem) : RawItem :=
  Ok (key_bytes (Version p.1.1 p.1.2), bin_serialize p.2).
Definition version_item (p : VItem) : VersionItem := Ok (p.1.1, p.1.2, bin_serialize p.2).

Definition shown (l : list VItem) : list VItem := filter (λ p, is_visible st p.1.2 = true) l.
Definition items_valid (l : list VItem) : Prop := Forall (λ p, p.1.2 ≤ u64_max) l.

Lemma shown_sorted l : StronglySorted item_lt l → StronglySorted item_lt (shown l).
Proof.
  unfold shown. induction 1 as [|p l Hs IH Hall]; [constructor|].
  rewrite filter_cons. case_decide; [|done]. constructor; [done|].
  rewrite Forall_forall in Hall |- *. intros q [_ Hq]%list_elem_of_filter. auto.
Qed.

Lemma version_next_ok l : items_valid l →
  ∃ l', version_next st (List.map raw_item l)
        = (version_item <$> head (shown l), List.map raw_item l') ∧
    shown l' = tail (shown l) ∧ items_valid l' ∧ (length (shown l) ≤ length l)%nat.
Proof.
  unfold shown. induction l as [|p l IH]; intros Hl; [by exists []|].
  pose proof (length_filter (λ p, is_visible st p.1.2 = true) (p :: l)) as Hlen.
  apply Forall_cons in Hl as [Hp Hl]. cbn [List.map version_next raw_item mbind res_bind].
  unfold decode_visible. rewrite decode_bytes by done. cbn [mbind res_bind].
  destruct (is_visible st p.1.2) eqn:Ev; cbn [mbind res_bind].
  - exists l. rewrite filter_cons_True in Hlen |- * by done. done.
  - rewrite filter_cons_False in Hlen |- * by congruence.
    destruct (IH Hl) as (l' & -> & Htl & Hv' & _). by exists l'.
Qed.

Lemma version_next_back_ok l : items_valid l →
  ∃ l', version_next_back st (List.map raw_item l)
        = (version_item <$> last (shown l), List.map raw_item l') ∧
    reverse (shown l') = tail (reverse (shown l)) ∧ items_valid l'.
Proof.
  intros Hl. unfold version_next_back. rewrite reverse_map.
  destruct (version_next_ok (reverse l)) as (l' & -> & Htl & Hv & _); [by apply Forall_reverse|].
  exists (reverse l'). rewrite reverse_map. unfold shown in *. rewrite !filter_reverse in *.
  rewrite head_reverse, reverse_involutive. split; [done|]. split; [done|]. by apply Forall_reverse.
Qed.

(** The items a peekable iterator still has to yield. *)
Definition holds (p : Peekable) (c : list VItem) : Prop :=
  ∃ l, iter p = List.map raw_item l ∧ items_valid l ∧
    match peeked p with
    | None => c = shown l
    | Some None => c = [] ∧ shown l = []
    | Some (Some i) => ∃ x, i = version_item x ∧ c = x :: shown l
    end.

Lemma holds_new l : items_valid l → holds {| iter := List.map raw_item l; peeked := None |} (shown l).
Proof. intros Hl. by exists l. Qed.

Lemma holds_left p c lb : holds p c → (length c ≤ items_left {| inner := p; last_back := lb |})%nat.
Proof.
  intros (l & Hi & Hv & Hc). unfold items_left. cbn. rewrite Hi, List.length_map.
  pose proof (length_filter (λ p, is_visible st p.1.2 = true) l).
  destruct (peeked p) as [[i|]|].
  - destruct Hc as (x & -> & ->). unfold shown. cbn. lia.
  - destruct Hc as [-> _]. cbn. lia.
  - subst c. unfold shown. lia.
Qed.

Lemma peekable_next_ok p c : holds p c →
  ∃ p', peekable_next st p = (version_item <$> head c, p') ∧ holds p' (tail c).
Proof.
  intros (l & Hi & Hv & Hc). unfold peekable_next.
  destruct (peeked p) as [[i|]|].
  - destruct Hc as (x & -> & ->). eexists. split; [done|]. by exists l.
  - destruct Hc as [-> Hs]. eexists. split; [done|]. by exists l.
  - subst c. rewrite Hi. destruct (version_next_ok l Hv) as (l' & -> & <- & Hv' & _).
    eexists. split; [done|]. by exists l'.
Qed.

Lemma peek_ok p c : holds p c → ∃ p', peek st p = (version_item <$> head c, p') ∧ holds p' c.
Proof.
  intros (l & Hi & Hv & Hc). unfold peek. destruct (peeked p) as [[i|]|] eqn:Ep.
  - destruct Hc as (x & -> & ->). exists p. split; [done|]. exists l. rewrite Ep. eauto.
  - destruct Hc as [-> Hs]. exists p. split; [done|]. exists l. by rewrite Ep.
  - subst c. rewrite Hi. destruct (version_next_ok l Hv) as (l' & -> & Htl & Hv' & _).
    eexists. split; [done|]. exists l'. cbn [iter peeked]. split; [done|]. split; [done|].
    destruct (shown l) as [|x s]; cbn in *; [done|]. exists x. by rewrite Htl.
Qed.

Lemma peekable_next_back_ok p c : holds p c →
  ∃ p' c', peekable_next_back st p = (version_item <$> last c, p') ∧ holds p' c' ∧
    reverse c' = tail (reverse c).
Proof.
  intros (l & Hi & Hv & Hc). unfold peekable_next_back. rewrite Hi.
  destruct (version_next_back_ok l Hv) as (l' & Hback & Htl & Hv').
  destruct (peeked p) as [[i|]|] eqn:Ep; rewrite ?Hback.
  - destruct Hc as (x & -> & ->).
    destruct (shown l) as [|y s _] eqn:Es using rev_ind; cbn [last fmap option_fmap option_map].
    + eexists _, []. split; [done|]. split; [|done]. exists l'. split; [done|]. split; [done|].
      cbn. split; [done|]. cbn in Htl. apply (f_equal reverse) in Htl. by rewrite reverse_involutive in Htl.
    + rewrite app_comm_cons, !last_snoc. eexists _, (x :: shown l'). split; [done|].
      split; [exists l'; cbn; eauto|].
      rewrite reverse_snoc in Htl. cbn [tail] in Htl. by rewrite reverse_cons, Htl, reverse_snoc, reverse_cons.
  - destruct Hc as [-> Hs]. exists p, []. split; [done|]. split; [|done]. exists l. by rewrite Ep.
  - subst c. eexists _, (shown l'). split; [done|]. split; [|done]. by exists l'.
Qed.

(** One step of the iterator from the front takes the first emitted pair. *)
Lemma try_next_loop_ok fuel it c : holds (inner it) c → (length c < fuel)%nat →
  ∃ it' c', try_next_loop fuel st it = (Ok (head (emit c)), it') ∧
    holds (inner it') c' ∧ emit c' = tail (emit c) ∧
    (length c' ≤ length c)%nat ∧ (emit c ≠ [] → (length c' < length c)%nat).
Proof.
  revert it c. induction fuel as [|fuel IH]; intros it c Hc Hf; [lia|]. cbn [try_next_loop].
  destruct (peekable_next_ok _ _ Hc) as (p1 & -> & Hp1). destruct c as [|x c]; cbn [head fmap
    option_fmap option_map tail] in *.
  { eexists _, []. split; [done|]. split; [done|]. split; [done|]. split; [done|done]. }
  cbn [version_item]. destruct (peek_ok _ _ Hp1) as (p2 & -> & Hp2). cbn [last_back].
  cbn [length] in Hf.
  assert (∀ (c' : list VItem) (k : list (bytes * bytes)),
    (length c' ≤ length c)%nat ∧ (k ≠ [] → (length c' < length c)%nat) →
    (length c' ≤ length (x :: c))%nat ∧ (k ≠ [] → (length c' < length (x :: c))%nat)) as Hlen
    by (cbn; intros; lia).
  set (it2 := {| inner := p2; last_back := last_back it |}).
  destruct (IH it2 c Hp2 ltac:(lia)) as (it' & c' & Heq & Hh & He & Hl).
  destruct c as [|y c]; cbn [head fmap option_fmap option_map version_item].
  - rewrite bin_roundtrip. cbn [emit]. unfold live. destruct x as [[k v] [ov|]]; cbn [fst snd].
    + eexists it2, []. repeat split; try done; cbn; lia.
    + cbn [head emit]. rewrite Heq. eexists it', c'. split; [done|]. split; [done|].
      split; [done|]. by apply Hlen.
  - case_decide as Hk; [|rewrite bin_roundtrip].
    + rewrite Heq, emit_cons_same by done. eexists it', c'. split; [done|]. split; [done|].
      split; [done|]. by apply Hlen.
    + change (emit (x :: y :: c)) with
        (if decide (y.1.1 = x.1.1) then emit (y :: c) else live x ++ emit (y :: c)).
      rewrite decide_False by done. unfold live. destruct x as [[k v] [ov|]]; cbn [fst snd].
      * eexists it2, (y :: c). repeat split; try done; cbn; lia.
      * rewrite Heq. eexists it', c'. split; [done|]. split; [done|]. split; [done|].
        by apply Hlen.
Qed.

Lemma try_next_back_loop_ok fuel it c : holds (inner it) c → (length c < fuel)%nat →
  ∃ it' c', try_next_back_loop fuel st it
      = (Ok (head (emit_back (last_back it) (reverse c))), it') ∧
    holds (inner it') c' ∧
    emit_back (last_back it') (reverse c') = tail (emit_back (last_back it) (reverse c)) ∧
    (length c' ≤ length c)%nat ∧
    (emit_back (last_back it) (reverse c) ≠ [] → (length c' < length c)%nat).
Proof.
  revert it c. induction fuel as [|fuel IH]; intros it c Hc Hf; [lia|]. cbn [try_next_back_loop].
  destruct (peekable_next_back_ok _ _ Hc) as (p1 & c1 & -> & Hp1 & Hr).
  destruct c as [|x c _] using rev_ind.
  { cbn. eexists _, c1. rewrite Hr. split; [done|]. split; [done|]. split; [done|].
    apply (f_equal reverse) in Hr. rewrite reverse_involutive in Hr. subst c1. done. }
  rewrite last_snoc. cbn [fmap option_fmap option_map version_item].
  rewrite reverse_snoc in Hr |- *. cbn [tail] in Hr. apply (inj reverse) in Hr as ->.
  rewrite length_app in Hf |- *. cbn [length] in Hf |- *. cbn [emit_back last_back].
  case_decide as Hk; [|rewrite bin_roundtrip].
  - destruct (IH {| inner := p1; last_back := last_back it |} c Hp1 ltac:(lia))
      as (it' & c' & -> & Hh & He & Hl1 & Hl2). cbn [last_back] in *.
    eexists it', c'. repeat split; try done; [lia|]. intros Hne%Hl2. lia.
  - unfold live. destruct x as [[k v] [ov|]]; cbn [fst snd app].
    + eexists _, c. repeat split; try done; cbn; lia.
    + destruct (IH {| inner := p1; last_back := Some k |} c Hp1 ltac:(lia))
        as (it' & c' & -> & Hh & He & Hl1 & Hl2). cbn [last_back] in *.
      eexists it', c'. repeat split; try done; [lia|]. intros Hne%Hl2. lia.
Qed.

(** Collecting from one end, given what one step yields. *)
Lemma collect_loop_ok next (emits : ScanIterator → list VItem → list (bytes * bytes)) fuel it c :
  (∀ it c, holds (inner it) c → ∃ it' c', next it = (Ok (head (emits it c)), it') ∧
    holds (inner it') c' ∧ emits it' c' = tail (emits it c) ∧
    (length c' ≤ length c)%nat ∧ (emits it c ≠ [] → (length c' < length c)%nat)) →
  holds (inner it) c → (length c < fuel)%nat →
  collect_loop fuel next it = Ok (emits it c).
Proof.
  intros Hnext. revert it c. induction fuel as [|fuel IH]; intros it c Hc Hf; [lia|].
  cbn [collect_loop]. destruct (Hnext it c Hc) as (it' & c' & -> & Hh & He & Hl1 & Hl2).
  destruct (emits it c) as [|kv kvs]; [done|]. cbn [head tail] in *.
  specialize (Hl2 ltac:(done)). rewrite (IH it' c' Hh) by lia. by rewrite He.
Qed.

Lemma to_vec_ok l : items_valid l →
  to_vec st (new_iterator (List.map raw_item l)) = Ok (emit (shown l)).
Proof.
  intros Hl. pose proof (holds_new l Hl) as Hh. unfold to_vec.
  apply (collect_loop_ok _ (λ _ c, emit c)).
  - intros it c Hc. apply try_next_loop_ok; [done|].
    destruct it as [p lb]. apply (holds_left p c lb) in Hc. lia.
  - done.
  - apply (holds_left _ _ None) in Hh. unfold new_iterator. lia.
Qed.

Lemma to_vec_rev_ok l : items_valid l → StronglySorted item_lt l →
  to_vec_rev st (new_iterator (List.map raw_item l)) = Ok (reverse (emit (shown l))).
Proof.
  intros Hl Hs. pose proof (holds_new l Hl) as Hh. unfold to_vec_rev.
  pose proof (shown_sorted l Hs) as Hs'.
  rewrite <-emit_reverse by done.
  rewrite (collect_loop_ok _ (λ it c, emit_back (last_back it) (reverse c)) _ _ (shown l)); [done|..].
  - intros it c Hc. apply try_next_back_loop_ok; [done|].
    destruct it as [p lb]. apply (holds_left p c lb) in Hc. lia.
  - done.
  - apply (holds_left _ _ None) in Hh. unfold new_iterator. lia.
Qed.
End iterator.

(** ** Byte ranges *)

Definition start_bytes (b : Bound bytes) : Bound bytes :=
  match b with
  | Excluded k => Excluded (key_bytes (Version k u64_max))
  | Included k => Included (key_bytes (Version k 0))
  | Unbounded => Included (key_bytes (Version [] 0))
  end.
Definition stop_bytes (b : Bound bytes) : Bound bytes :=
  match b with
  | Excluded k => Excluded (key_bytes (Version k 0))
  | Included k => Included (key_bytes (Version k u64_max))
  | Unbounded => Excluded (prefix_bytes PUnversioned)
  end.

Lemma scan_bounds_ok r : scan_bounds r = Ok (start_bytes r.1, stop_bytes r.2).
Proof.
  unfold scan_bounds. destruct r as [[k|k|] [l|l|]]; cbn [fst snd start_bytes stop_bytes];
    rewrite ?encode_valid by done; cbn [mbind res_bind];
    rewrite ?encode_valid by done; done.
Qed.

Lemma version_cmp k v l w :
  compare_key (Version k v) (Version l w) = match bytes_cmp k l with Eq => v ?= w | c => c end.
Proof. done. Qed.

Lemma above_start b k : key_valid k →
  above bytes_cmp (start_bytes b) (key_bytes k)
  = match k with Version key _ => above bytes_cmp b key | Unversioned _ => true | _ => false end.
Proof.
  intros Hk. destruct b as [a|a|]; unfold above, start_bytes; rewrite kb_cmp by done;
    (destruct k as [| | | |key v|]; [done..| |done]); rewrite version_cmp; change (v ≤ u64_max) in Hk.
  - destruct (bytes_cmp a key); [|done..]. destruct (N.compare_spec 0 v); first [done|lia].
  - destruct (bytes_cmp a key); [|done..]. destruct (N.compare_spec u64_max v); first [done|lia].
  - destruct key; cbn; [|done]. by destruct v.
Qed.

Lemma below_stop b k : key_valid k →
  below bytes_cmp (stop_bytes b) (key_bytes k)
  = match k with Version key _ => below bytes_cmp b key | Unversioned _ => false | _ => true end.
Proof.
  intros Hk. destruct b as [a|a|]; unfold below, stop_bytes; cycle 2.
  { destruct k as [| | | | |key]; try done.
    change (key_bytes (Unversioned key)) with (n2b 5 :: ((key ≫= escape) ++ [x00; x00])).
    unfold prefix_bytes. cbn [prefix_index].
    rewrite variant_order by done. by destruct (key ≫= escape). }
  all: rewrite kb_cmp by done;
    (destruct k as [| | | |key v|]; [done..| |done]); rewrite version_cmp; change (v ≤ u64_max) in Hk.
  - destruct (bytes_cmp key a); [|done..]. destruct (N.compare_spec v u64_max); first [done|lia].
  - destruct (bytes_cmp key a); [|done..]. destruct (N.compare_spec v 0); first [done|lia].
Qed.

Lemma scan_range_keys r k : key_valid k →
  in_range bytes_cmp (start_bytes r.1, stop_bytes r.2) (key_bytes k) = true ↔
  ∃ key v, k = Version key v ∧ in_range bytes_cmp r key = true.
Proof.
  intros Hk. unfold in_range at 1. cbn [fst snd]. rewrite above_start, below_stop by done.
  destruct k as [| | | |key v|]; try (split; [done|naive_solver]). unfold in_range. naive_solver.
Qed.

Lemma scan_range_valid (r : KeyRange) :
  range_valid bytes_cmp (start_bytes r.1, stop_bytes r.2) = range_valid bytes_cmp r.
Proof.
  destruct r as [[a|a|] [b|b|]]; cbn [fst snd start_bytes stop_bytes range_valid];
    rewrite ?kb_cmp, ?version_cmp by done; try (by destruct (bytes_cmp a b)); try done;
    by destruct b.
Qed.

(** The chopped prefix of the encoding is the prefix of the keys. *)
Lemma escape_prefix p key rest :
  starts_with (p ≫= escape) ((key ≫= escape) ++ [x00; x00] ++ rest) ↔ starts_with p key.
Proof.
  revert key. induction p as [|a p IH]; intros key.
  - split; intros _; by eexists.
  - destruct key as [|b key].
    + split; [|by intros [? [=]]]. unfold escape. cbn. case_decide; intros [? [=]]. congruence.
    + rewrite starts_with_cons, <-IH, !bind_cons. clear IH.
      unfold escape at 1 3. split.
      * repeat case_decide; subst; cbn [app]; rewrite ?starts_with_cons; naive_solver.
      * intros [-> Hs]. repeat case_decide; cbn [app]; rewrite ?starts_with_cons; naive_solver.
Qed.

Lemma scan_prefix_keys p k : key_valid k →
  let chopped := take (length (prefix_bytes (PVersion p)) - 2) (prefix_bytes (PVersion p)) in
  starts_with chopped (key_bytes k) ↔ ∃ key v, k = Version key v ∧ starts_with p key.
Proof.
  intros Hk. cbn zeta.
  assert (take (length (prefix_bytes (PVersion p)) - 2) (prefix_bytes (PVersion p))
    = n2b 4 :: (p ≫= escape)) as ->.
  { unfold prefix_bytes. cbn [prefix_index key_bytes bytes_key].
    rewrite app_comm_cons. apply take_app_length'. rewrite !length_app. cbn. lia. }
  cbn [key_bytes mvcc_key]. rewrite starts_with_cons. split.
  - intros [Hi Hs]. destruct k as [| | | |key v|]; try done.
    cbn [key_bytes bytes_key] in Hs. rewrite <-app_assoc in Hs.
    apply escape_prefix in Hs. eauto.
  - intros (key & v & -> & Hs). split; [done|]. cbn [key_bytes bytes_key].
    rewrite <-app_assoc. by apply escape_prefix.
Qed.

(** ** Scans of a store *)

Section scans.
Context {E : Type} `{EngineLaws E}.
Context `{BincodeLaws N, BincodeLaws (gset N), BincodeLaws (option bytes)}.
Implicit Types (e : E) (d : Db) (st : TransactionState).

(** The versions a byte range covers, in engine order. *)
Lemma scan_items m d (P Q : bytes → bool) : rep m d → in_width d →
  (∀ k, key_valid k → P (key_bytes k) = true ↔ ∃ key v, k = Version key v ∧ Q key = true) →
  ∃ l, List.map Ok (List.filter (λ kv, P kv.1) m) = List.map raw_item l ∧
    items_valid l ∧ StronglySorted item_lt l ∧
    ∀ key v ov, (key, v, ov) ∈ l ↔ versions d !! (key, v) = Some ov ∧ Q key = true.
Proof.
  intros Hr Hw HP.
  destruct (scan_image m (db_get d) P (λ p : VItem, Version p.1.1 p.1.2) (λ p, bin_serialize p.2) Hr)
    as (l & Heq & Hl).
  { intros k x Hk (key & v & -> & _)%HP Hget; [|done]. cbn in Hget.
    destruct (versions d !! (key, v)) as [ov|]; [|done]. cbn in Hget. simplify_eq.
    by exists (key, v, ov). }
  { intros [[k v] ov] [[l w] ow] [= -> ->] Hx%(inj bin_serialize). cbn in Hx. by subst. }
  exists l. rewrite Heq, List.map_map. split; [done|].
  assert (items_valid l) as Hv. { apply Forall_forall. by intros p (Hp & _)%Hl. }
  split; [done|]. split.
  - pose proof (scan_image_sorted _ _ _ (λ p : VItem, Version p.1.1 p.1.2) _ l Hr Heq) as Hs.
    eapply sorted_impl; [|by apply Hs]. intros p q Hlt. cbn [key_cmp mvcc_key] in Hlt.
    rewrite version_cmp in Hlt. unfold item_lt.
    destruct (bytes_cmp p.1.1 q.1.1) eqn:Ec; [right|by left|done].
    apply cmp_eq in Ec. split; [done|]. by apply N.compare_lt_iff.
  - intros key v ov. rewrite Hl. cbn [fst snd db_get]. split.
    + intros (Hk & Hget & (key' & v' & [= <- <-] & HQ)%HP); [|done]. split; [|done].
      destruct (versions d !! (key, v)); [|done]. cbn in Hget.
      injection Hget as Hx%(inj bin_serialize). by subst.
    + intros [Hget HQ]. destruct Hw as ((_ & Hn) & _ & _ & Hlt & _). pose proof (Hlt _ _ _ Hget).
      assert (key_valid (Version key v)) by (cbn; lia).
      split; [done|]. rewrite Hget. split; [done|]. apply HP; eauto.
Qed.

(** What a scan yields: the live pairs that reads return, in key order. *)
Definition scans d st (Q : bytes → bool) (kvs : list (bytes * bytes)) : Prop :=
  bt_sorted bytes_cmp kvs ∧
  ∀ key x, (key, x) ∈ kvs ↔ Q key = true ∧ reads d (is_visible st) key (Some x).

Lemma iterator_scans m d st P Q : rep m d → in_width d →
  (∀ k, key_valid k → P (key_bytes k) = true ↔ ∃ key v, k = Version key v ∧ Q key = true) →
  ∃ kvs, let it := new_iterator (List.map Ok (List.filter (λ kv, P kv.1) m)) in
    to_vec st it = Ok kvs ∧ to_vec_rev st it = Ok (reverse kvs) ∧ scans d st Q kvs.
Proof.
  intros Hr Hw HP. destruct (scan_items m d P Q Hr Hw HP) as (l & Heq & Hv & Hs & Hl).
  exists (emit (shown st l)). cbn zeta. rewrite Heq, to_vec_ok, to_vec_rev_ok by done.
  split; [done|]. split; [done|].
  pose proof (shown_sorted st l Hs) as Hs'.
  split; [by apply emit_sorted|]. intros key x. rewrite elem_of_emit by done.
  unfold shown. setoid_rewrite list_elem_of_filter. cbn [fst snd]. setoid_rewrite Hl. split.
  - intros (v & (Hvis & Hget & HQ) & Hall). split; [done|]. left. exists v. split; [done|].
    split; [done|]. intros w ow Hw' Hvw. by apply (Hall w ow).
  - intros [HQ [(v & Hget & Hvis & Hall)|[? _]]]; [|done]. exists v. split; [done|].
    intros w ow (Hvw & Hw' & _). by eapply Hall.
Qed.

Lemma txn_scan_rep e d st r : eng_inv e → rep (eng_view e) d → in_width d →
  if range_valid bytes_cmp r then
    ∃ it kvs, txn_scan r e = (Ok it, e) ∧ to_vec st it = Ok kvs ∧
      to_vec_rev st it = Ok (reverse kvs) ∧ scans d st (in_range bytes_cmp r) kvs
  else txn_scan r e = (Panic "range start is greater than range end in BTreeMap", e).
Proof.
  intros He Hr Hw. unfold txn_scan.
  erewrite M_bind_Ok by (unfold lift; by rewrite scan_bounds_ok).
  unfold scan_range, mbind, M_bind. rewrite eng_scan_law by done. unfold bt_range.
  rewrite scan_range_valid. destruct (range_valid bytes_cmp r); [|done]. cbn [fmap res_fmap].
  destruct (iterator_scans (eng_view e) d st
    (in_range bytes_cmp (start_bytes r.1, stop_bytes r.2)) (in_range bytes_cmp r) Hr Hw)
    as (kvs & Hkvs); [intros; by apply scan_range_keys|].
  by eexists _, kvs.
Qed.

Lemma txn_scan_prefix_rep e d st p : eng_inv e → rep (eng_view e) d → in_width d →
  ∃ it kvs, txn_scan_prefix p e = (Ok it, e) ∧ to_vec st it = Ok kvs ∧
    to_vec_rev st it = Ok (reverse kvs) ∧
    scans d st (in_range bytes_cmp (prefix_range p)) kvs.
Proof.
  intros He Hr Hw. unfold txn_scan_prefix.
  erewrite M_bind_Ok by (unfold lift; by rewrite encode_prefix_valid).
  unfold scan_pfx, mbind, M_bind. rewrite scan_prefix_law by done.
  destruct (iterator_scans (eng_view e) d st
    (in_range bytes_cmp (prefix_range (take (length (prefix_bytes (PVersion p)) - 2)
       (prefix_bytes (PVersion p))))) (in_range bytes_cmp (prefix_range p)) Hr Hw)
    as (kvs & Hkvs).
  { intros k Hk. rewrite in_prefix_range. setoid_rewrite in_prefix_range. by apply scan_prefix_keys. }
  by eexists _, kvs.
Qed.
End scans.
