(* ===== verification/MvccSpec.v ===== *)
(** What the MVCC layer promises: snapshot isolation, as a machine over plain
    maps.  A transaction reads the committed state of the moment it began, with
    its own writes on top; a write fails when another open transaction wrote
    the key or one that committed in between did. *)
From Stdlib Require Import Strings.Byte NArith Lia Sorting.Sorted.
From stdpp Require Import base list gmap strings.
From S2P Require Import Prelude BTreeMap KeyCode Engine Bincode Mvcc MvccKeys MvccDb MvccOps.

(** * Commands and answers *)

(** Calls on the MVCC store and its transactions.  Transactions are named by
    the position at which they were opened. *)
Inductive Cmd :=
| Begin
| BeginReadOnly (as_of : option N)
| Resume (h : nat)
| Get (h : nat) (key : bytes)
| Write (h : nat) (key : bytes) (value : option bytes)
| ScanRange (h : nat) (range : KeyRange)
| ScanPrefix (h : nat) (prefix : bytes)
| Commit (h : nat)
| Rollback (h : nat)
| GetUnversioned (key : bytes)
| SetUnversioned (key value : bytes).

Inductive Reply :=
| RUnit
| RTxn (version : N) (read_only : bool)
| RValue (value : option bytes)
| RPairs (kvs : list (bytes * bytes)).

(** * The code *)

Record Sys (E : Type) := { sys_engine : E; sys_handles : list TransactionState }.
Arguments sys_engine {E}.
Arguments sys_handles {E}.

Section run.
Context {E : Type} `{Engine E}.
Context `{Bincode N, Bincode (gset N), Bincode (option bytes)}.

(** A call on the engine, and the transaction it opens. *)
Definition call {A} (m : M E A) (reply : A → Reply) (sys : Sys E) : res Reply * Sys E :=
  let '(r, e) := m (sys_engine sys) in
  (reply <$> r, {| sys_engine := e; sys_handles := sys_handles sys |}).

Definition open_txn (m : M E TransactionState) (sys : Sys E) : res Reply * Sys E :=
  match m (sys_engine sys) with
  | (Ok st, e) => (Ok (RTxn (version st) (read_only st)),
                   {| sys_engine := e; sys_handles := sys_handles sys ++ [st] |})
  | (Err x, e) => (Err x, {| sys_engine := e; sys_handles := sys_handles sys |})
  | (Panic w, e) => (Panic w, {| sys_engine := e; sys_handles := sys_handles sys |})
  end.

Definition with_handle (h : nat) (sys : Sys E)
    (k : TransactionState → res Reply * Sys E) : res Reply * Sys E :=
  match sys_handles sys !! h with
  | Some st => k st
  | None => (Panic "no such transaction", sys)
  end.

Definition run_cmd (c : Cmd) (sys : Sys E) : res Reply * Sys E :=
  match c with
  | Begin => open_txn begin sys
  | BeginReadOnly as_of => open_txn (begin_read_only as_of) sys
  | Resume h => with_handle h sys (λ st, open_txn (resume st) sys)
  | Get h key => with_handle h sys (λ st, call (txn_get st key) RValue sys)
  | Write h key value =>
      with_handle h sys (λ st, call (write_version st key value) (λ _, RUnit) sys)
  | ScanRange h r =>
      with_handle h sys (λ st,
        call (it ← txn_scan r; lift (to_vec st it)) RPairs sys)
  | ScanPrefix h p =>
      with_handle h sys (λ st,
        call (it ← txn_scan_prefix p; lift (to_vec st it)) RPairs sys)
  | Commit h => with_handle h sys (λ st, call (commit st) (λ _, RUnit) sys)
  | Rollback h => with_handle h sys (λ st, call (rollback st) (λ _, RUnit) sys)
  | GetUnversioned key => call (get_unversioned key) RValue sys
  | SetUnversioned key value => call (set_unversioned key value) (λ _, RUnit) sys
  end.

Fixpoint run_cmds (cs : list Cmd) (sys : Sys E) : list (res Reply) * Sys E :=
  match cs with
  | [] => ([], sys)
  | c :: cs =>
      let '(r, sys) := run_cmd c sys in
      let '(rs, sys) := run_cmds cs sys in (r :: rs, sys)
  end.
End run.

(** * The specification *)

(** An open transaction: what it wrote, and the keys that other transactions
    committed since it began. *)
Record Txn := { own : gmap bytes (option bytes); since : gset bytes }.

(** A handle: a read-only transaction with the state it sees, or a read-write
    one. *)
Inductive Handle :=
| HRead (version : N) (state : gmap bytes bytes)
| HWrite (version : N).

Record Spec := {
  sp_next : N;                        (** the next version *)
  sp_db : gmap bytes bytes;           (** the committed state *)
  sp_hist : gmap N (gmap bytes bytes);  (** the committed state at each version *)
  sp_open : gmap N Txn;               (** the open read-write transactions *)
  sp_unversioned : gmap bytes bytes;
  sp_handles : list Handle
}.

Definition spec_init : Spec := {|
  sp_next := 1; sp_db := ∅; sp_hist := {[0 := ∅]}; sp_open := ∅;
  sp_unversioned := ∅; sp_handles := [] |}.

(** Writes on top of a state; [None] is a deletion. *)
Definition overlay (own : gmap bytes (option bytes)) (m : gmap bytes bytes) : gmap bytes bytes :=
  merge (λ o b, match o with Some ov => ov | None => b end) own m.

Definition view (s : Spec) (h : Handle) : gmap bytes bytes :=
  match h with
  | HRead _ m => m
  | HWrite v =>
      overlay (default ∅ (own <$> sp_open s !! v)) (default ∅ (sp_hist s !! v))
  end.

(** The state as sorted pairs. *)
Definition to_entries (m : gmap bytes bytes) : Entries :=
  foldr (λ kv, bt_insert bytes_cmp kv.1 kv.2) [] (map_to_list m).

(** First writer wins. *)
Definition conflict (s : Spec) (v : N) (key : bytes) : Prop :=
  key ∈ default ∅ (since <$> sp_open s !! v) ∨
  map_Exists (λ u t, u ≠ v ∧ is_Some (own t !! key)) (sp_open s).
#[export] Instance conflict_dec s v key : Decision (conflict s v key).
Proof. unfold conflict. apply _. Defined.

Definition add_handle (s : Spec) (h : Handle) : Spec := {|
  sp_next := sp_next s; sp_db := sp_db s; sp_hist := sp_hist s; sp_open := sp_open s;
  sp_unversioned := sp_unversioned s; sp_handles := sp_handles s ++ [h] |}.

Definition spec_begin (s : Spec) : Spec := {|
  sp_next := sp_next s + 1; sp_db := sp_db s;
  sp_hist := <[sp_next s := sp_db s]> (sp_hist s);
  sp_open := <[sp_next s := {| own := ∅; since := ∅ |}]> (sp_open s);
  sp_unversioned := sp_unversioned s; sp_handles := sp_handles s ++ [HWrite (sp_next s)] |}.

Definition with_open (s : Spec) (o : gmap N Txn) : Spec := {|
  sp_next := sp_next s; sp_db := sp_db s; sp_hist := sp_hist s; sp_open := o;
  sp_unversioned := sp_unversioned s; sp_handles := sp_handles s |}.

Definition spec_write (s : Spec) (v : N) (key : bytes) (value : option bytes) : Spec :=
  with_open s (alter (λ t, {| own := <[key := value]> (own t); since := since t |}) v (sp_open s)).

Definition spec_commit (s : Spec) (v : N) : Spec :=
  let w := default ∅ (own <$> sp_open s !! v) in {|
  sp_next := sp_next s; sp_db := overlay w (sp_db s); sp_hist := sp_hist s;
  sp_open := (λ t, {| own := own t; since := dom w ∪ since t |}) <$> delete v (sp_open s);
  sp_unversioned := sp_unversioned s; sp_handles := sp_handles s |}.

Definition spec_rollback (s : Spec) (v : N) : Spec := with_open s (delete v (sp_open s)).

Definition spec_cmd (c : Cmd) (s : Spec) : res Reply * Spec :=
  match c with
  | Begin => (Ok (RTxn (sp_next s) false), spec_begin s)
  | BeginReadOnly None => (Ok (RTxn (sp_next s) true), add_handle s (HRead (sp_next s) (sp_db s)))
  | BeginReadOnly (Some v) =>
      if decide (v < sp_next s) then
        (Ok (RTxn v true), add_handle s (HRead v (default ∅ (sp_hist s !! v))))
      else (Err (EValue (Msg "Version {} does not exist" [FNum v])), s)
  | Resume h =>
      match sp_handles s !! h with
      | Some (HRead v m) => (Ok (RTxn v true), add_handle s (HRead v m))
      | Some (HWrite v) =>
          if decide (is_Some (sp_open s !! v)) then (Ok (RTxn v false), add_handle s (HWrite v))
          else (Err (EInternal (Msg "No active transaction at version {}" [FNum v])), s)
      | None => (Panic "no such transaction", s)
      end
  | Get h key =>
      match sp_handles s !! h with
      | Some hd => (Ok (RValue (view s hd !! key)), s)
      | None => (Panic "no such transaction", s)
      end
  | Write h key value =>
      match sp_handles s !! h with
      | Some (HRead _ _) => (Err EReadOnly, s)
      | Some (HWrite v) =>
          if decide (conflict s v key) then (Err ESerialization, s)
          else (Ok RUnit, spec_write s v key value)
      | None => (Panic "no such transaction", s)
      end
  | ScanRange h r =>
      match sp_handles s !! h with
      | Some hd => (RPairs <$> bt_range bytes_cmp r (to_entries (view s hd)), s)
      | None => (Panic "no such transaction", s)
      end
  | ScanPrefix h p =>
      match sp_handles s !! h with
      | Some hd => (RPairs <$> bt_range bytes_cmp (prefix_range p) (to_entries (view s hd)), s)
      | None => (Panic "no such transaction", s)
      end
  | Commit h =>
      match sp_handles s !! h with
      | Some (HRead _ _) => (Ok RUnit, s)
      | Some (HWrite v) => (Ok RUnit, spec_commit s v)
      | None => (Panic "no such transaction", s)
      end
  | Rollback h =>
      match sp_handles s !! h with
      | Some (HRead _ _) => (Ok RUnit, s)
      | Some (HWrite v) => (Ok RUnit, spec_rollback s v)
      | None => (Panic "no such transaction", s)
      end
  | GetUnversioned key => (Ok (RValue (sp_unversioned s !! key)), s)
  | SetUnversioned key value =>
      (Ok RUnit, {| sp_next := sp_next s; sp_db := sp_db s; sp_hist := sp_hist s;
         sp_open := sp_open s; sp_unversioned := <[key := value]> (sp_unversioned s);
         sp_handles := sp_handles s |})
  end.

Fixpoint spec_cmds (cs : list Cmd) (s : Spec) : list (res Reply) * Spec :=
  match cs with
  | [] => ([], s)
  | c :: cs =>
      let '(r, s) := spec_cmd c s in
      let '(rs, s) := spec_cmds cs s in (r :: rs, s)
  end.

(** Calls a client can make: [commit] and [rollback] consume a transaction,
    after which only [resume] can name it; the iterator of a scan panics on an
    inverted range. *)
Definition usable (s : Spec) (h : nat) : Prop :=
  match sp_handles s !! h with
  | Some (HRead _ _) => True
  | Some (HWrite v) => is_Some (sp_open s !! v)
  | None => False
  end.

Definition enabled (s : Spec) (c : Cmd) : Prop :=
  match c with
  | Resume h => (h < length (sp_handles s))%nat
  | Get h _ | Write h _ _ | Commit h | Rollback h | ScanPrefix h _ => usable s h
  | ScanRange h r => usable s h ∧ range_valid bytes_cmp r = true
  | _ => True
  end.
#[export] Instance usable_dec s h : Decision (usable s h).
Proof. unfold usable. destruct (sp_handles s !! h) as [[]|]; apply _. Defined.
#[export] Instance enabled_dec s c : Decision (enabled s c).
Proof. destruct c; unfold enabled; apply _. Defined.

(** What the commands store is within the limits of the engine and the
    version counter does not overflow. *)
Section fits.
Context {E : Type} `{EngineLaws E}.
Context `{BincodeLaws N, BincodeLaws (gset N), BincodeLaws (option bytes)}.

Definition cmd_fits (s : Spec) (c : Cmd) : Prop :=
  match c with
  | Begin =>
      sp_next s < u64_max ∧
      fits (E:=E) NextVersion (bin_serialize (sp_next s + 1)) ∧
      fits (E:=E) (TxnActiveSnapshot (sp_next s)) (bin_serialize (dom (sp_open s) : gset N)) ∧
      fits (E:=E) (TxnActive (sp_next s)) []
  | Write h key value =>
      match sp_handles s !! h with
      | Some (HWrite v) => write_fits (E:=E) v key value
      | _ => True
      end
  | SetUnversioned key value => fits (E:=E) (Unversioned key) value
  | _ => True
  end.

Fixpoint allowed (s : Spec) (cs : list Cmd) : Prop :=
  match cs with
  | [] => True
  | c :: cs => enabled s c ∧ cmd_fits s c ∧ allowed (spec_cmd c s).2 cs
  end.
End fits.
