(* ===== verification/MvccSI.v ===== *)
(** The MVCC code implements snapshot isolation: every call on the store
    returns what the machine of MvccSpec returns. *)
From Stdlib Require Import Strings.Byte NArith Lia Sorting.Sorted.
From stdpp Require Import base list gmap strings.
From S2P Require Import Prelude BTreeMap KeyCode Engine Memory Bincode Mvcc MvccKeys MvccDb MvccOps MvccInv MvccScan MvccSpec.

#[local] Opaque to_be.

(** * Reads *)

(** What a read returns depends on the visible versions of the key only. *)
Lemma reads_ext d d' vis vis' key r :
  (∀ w ov, versions d !! (key, w) = Some ov ∧ vis w = true ↔
           versions d' !! (key, w) = Some ov ∧ vis' w = true) →
  reads d vis key r → reads d' vis' key r.
Proof.
  intros Heq [(v & Hget & Hvis & Hall)|[-> Hall]].
  - destruct (proj1 (Heq v r) (conj Hget Hvis)) as [Hget' Hvis'].
    left. exists v. split; [done|]. split; [done|]. intros w ow Hw Hvw.
    destruct (proj2 (Heq w ow) (conj Hw Hvw)). by eapply Hall.
  - right. split; [done|]. intros v ov Hget. destruct (vis' v) eqn:Ev; [|done].
    destruct (proj2 (Heq v ov) (conj Hget Ev)) as [Hget' Hv]. apply Hall in Hget'. congruence.
Qed.

Lemma reads_fun d vis key r r' : reads d vis key r → reads d vis key r' → r = r'.
Proof.
  intros [(v & Hget & Hvis & Hall)|[-> Hall]] [(w & Hget' & Hvis' & Hall')|[-> Hall']].
  - assert (v = w) as ->; [|congruence].
    pose proof (Hall _ _ Hget' Hvis'). pose proof (Hall' _ _ Hget Hvis). lia.
  - apply Hall' in Hget. congruence.
  - apply Hall in Hget'. congruence.
  - done.
Qed.

(** Two stores that differ at most in the versions of one transaction. *)
Definition same_but (v : N) (d d' : Db) : Prop :=
  ∀ k w ov, w ≠ v → versions d !! (k, w) = Some ov ↔ versions d' !! (k, w) = Some ov.

Lemma reads_unseen v d d' vis key r :
  same_but v d d' → vis v = false → reads d vis key r → reads d' vis key r.
Proof.
  intros Hs Hv. apply reads_ext. intros w ov. destruct (decide (w = v)) as [->|Hne].
  - rewrite Hv. naive_solver.
  - by rewrite (Hs key w ov Hne).
Qed.

Lemma same_but_write d v key value : same_but v d (db_write d v key value).
Proof.
  intros k w ov Hne. cbn. rewrite lookup_insert_ne; [done|congruence].
Qed.

Lemma same_but_rollback d v : same_but v d (db_rollback d v).
Proof. intros k w ov Hne. rewrite db_rollback_lookup. naive_solver. Qed.

(** The view of a read-only transaction at a version. *)
Definition ro_state (d : Db) (v : N) : TransactionState :=
  {| version := v; read_only := true; active := snapshot d v |}.

(** A view that no open or future transaction can change. *)
Definition sealed (d : Db) (vis : N → bool) : Prop :=
  ∀ v, v ∈ active_set d ∨ next_version d ≤ v → vis v = false.

Lemma ro_visible st w : read_only st = true →
  is_visible st w = true ↔ w < version st ∧ w ∉ active st.
Proof.
  intros Hro. unfold is_visible. rewrite Hro. case_decide; [naive_solver|].
  rewrite N.ltb_lt. tauto.
Qed.

Lemma invisible st w : ¬ (is_visible st w = true) → is_visible st w = false.
Proof. by destruct (is_visible st w). Qed.

Lemma ro_sealed d v : db_inv d → v < next_version d → sealed d (is_visible (ro_state d v)).
Proof.
  intros Hi Hv w Hw. apply invisible. rewrite ro_visible by done. cbn. intros [Hlt Hns].
  destruct Hw as [Hw|Hw]; [|lia]. by apply Hns, (inv_snap_complete d Hi).
Qed.

(** A read-write transaction sees its own writes, then the state it began in. *)
Lemma rw_reads d v key r : db_inv d → reads d (is_visible (ro_state d v)) key r →
  reads d (is_visible (rw_state d v)) key (default r (versions d !! (key, v))).
Proof.
  intros Hi Hr. assert (v ∉ snapshot d v) as Hself.
  { intros Hin%(inv_snap_lt d Hi). lia. }
  destruct (versions d !! (key, v)) as [ov|] eqn:Ev; cbn.
  - left. exists v. split; [done|]. split; [apply rw_visible; split; [lia|done]|].
    intros w ow _ [Hle _]%rw_visible. done.
  - revert Hr. apply reads_ext. intros w ow. rewrite rw_visible, ro_visible by done. cbn.
    split; intros (Hget & Hle & Hns); (split; [done|]); (split; [|done]).
    + lia.
    + assert (w ≠ v) by congruence. lia.
Qed.

(** * Maps as sorted pairs *)

Lemma lookup_overlay o m key :
  overlay o m !! key = match o !! key with Some ov => ov | None => m !! key end.
Proof. unfold overlay. rewrite lookup_merge. by destruct (o !! key), (m !! key). Qed.

Lemma to_entries_ok m :
  bt_sorted bytes_cmp (to_entries m) ∧ ∀ k, bt_get bytes_cmp k (to_entries m) = m !! k.
Proof.
  unfold to_entries.
  assert (∀ l : list (bytes * bytes), NoDup l.*1 → bt_sorted bytes_cmp (foldr (λ kv, bt_insert bytes_cmp kv.1 kv.2) [] l) ∧
    ∀ k x, bt_get bytes_cmp k (foldr (λ kv, bt_insert bytes_cmp kv.1 kv.2) [] l) = Some x ↔
      (k, x) ∈ l) as Hl.
  { induction l as [|[k x] l IH]; intros Hnd; cbn [foldr].
    - split; [constructor|]. intros k x. cbn. split; [done|]. by intros ?%not_elem_of_nil.
    - rewrite fmap_cons in Hnd. apply NoDup_cons in Hnd as [Hnot Hnd]. cbn [fst snd] in *.
      destruct (IH Hnd) as [Hs Hg]. split; [by apply (bt_insert_sorted bytes_cmp)|].
      intros k' x'. rewrite (bt_get_insert bytes_cmp) by done. rewrite elem_of_cons.
      destruct (bytes_cmp k' k) eqn:Ec.
      + apply cmp_eq in Ec as ->. split; [intros [= ->]; by left|].
        intros [[= ->]|Hin]; [done|]. exfalso. apply Hnot. apply list_elem_of_fmap. by exists (k, x').
      + rewrite Hg. apply cmp_lt_ne in Ec. naive_solver.
      + rewrite Hg. assert (k' ≠ k) by (intros ->; by rewrite (cmp_refl (cmp:=bytes_cmp)) in Ec).
        naive_solver. }
  destruct (Hl (map_to_list m) (NoDup_fst_map_to_list m)) as [Hs Hg]. split; [done|].
  intros k. apply option_eq. intros x. by rewrite Hg, elem_of_map_to_list.
Qed.

(** A scan of a view is a range of its entries. *)
Lemma scans_entries (d : Db) (st : TransactionState) (Q : bytes → bool) (m : gmap bytes bytes) (kvs : Entries) :
  (∀ key : bytes, reads d (is_visible st) key (m !! key)) → scans d st Q kvs →
  kvs = List.filter (λ kv, Q kv.1) (to_entries m).
Proof.
  intros Hm [Hs Hkvs]. destruct (to_entries_ok m) as [Hs' Hg].
  apply (bt_ext bytes_cmp); [done|by apply filter_sorted|]. intros k. apply option_eq. intros x.
  rewrite !(bt_get_spec bytes_cmp) by (done || by apply filter_sorted).
  rewrite Hkvs, elem_of_filter_bool, <-(bt_get_spec bytes_cmp), Hg by done. cbn. split.
  - intros [HQ Hr]. split; [|done]. by eapply reads_fun.
  - intros [Heq HQ]. split; [done|]. by rewrite <-Heq.
Qed.

(** * The abstraction *)

Definition committed (d : Db) (w : N) : bool := bool_decide (w ∉ active_set d).

Record abs (d : Db) (s : Spec) : Prop := {
  abs_next : sp_next s = next_version d;
  abs_open : dom (sp_open s) = active_set d;
  abs_unversioned : sp_unversioned s = unversioned d;
  abs_db : ∀ key, reads d (committed d) key (sp_db s !! key);
  abs_hist : ∀ v, v < next_version d → ∃ m, sp_hist s !! v = Some m ∧
    ∀ key, reads d (is_visible (ro_state d v)) key (m !! key);
  abs_own : ∀ v t key, sp_open s !! v = Some t → own t !! key = versions d !! (key, v);
  abs_since : ∀ v t key, sp_open s !! v = Some t → key ∈ since t ↔
    ∃ w ow, versions d !! (key, w) = Some ow ∧ (w ∉ active_set d) ∧
      is_visible (rw_state d v) w = false
}.

Definition handle_abs (d : Db) (st : TransactionState) (h : Handle) : Prop :=
  match h with
  | HRead v m =>
      read_only st = true ∧ version st = v ∧ v ≤ next_version d ∧
      sealed d (is_visible st) ∧ ∀ key, reads d (is_visible st) key (m !! key)
  | HWrite v => v < next_version d ∧ st = rw_state d v
  end.

Lemma empty_reads vis key : reads empty_db vis key None.
Proof. right. split; [done|]. intros v ov Hget. cbn [versions empty_db] in Hget.
  by rewrite lookup_empty in Hget. Qed.

Lemma abs_init : abs empty_db spec_init.
Proof.
  split; try done.
  - intros key. apply empty_reads.
  - intros v Hv. cbn in Hv. assert (v = 0) as -> by lia. exists ∅.
    split; [done|]. intros key. apply empty_reads.
Qed.

(** A change that is invisible to a handle leaves it as it is. *)
Lemma handle_keep v d d' st h : same_but v d d' → v ∈ active_set d →
  next_version d' = next_version d → active_set d' ⊆ active_set d →
  snapshots d' = snapshots d → handle_abs d st h → handle_abs d' st h.
Proof.
  intros Hsame Hv Hn Ha Hs. destruct h as [w m|w]; cbn.
  - intros (Hro & Hver & Hle & Hsealed & Hm). rewrite Hn. repeat split; try done.
    + intros u Hu. apply Hsealed. rewrite <-Hn. set_solver.
    + intros key. eapply reads_unseen; [done| |done]. apply Hsealed. by left.
  - unfold rw_state, snapshot. by rewrite Hn, Hs.
Qed.

Lemma hist_keep v d d' s : same_but v d d' → db_inv d → v ∈ active_set d →
  snapshots d' = snapshots d → abs d s →
  ∀ u, u < next_version d → ∃ m, sp_hist s !! u = Some m ∧
    ∀ key, reads d' (is_visible (ro_state d' u)) key (m !! key).
Proof.
  intros Hsame Hi Hv Hs Habs u Hu. destruct (abs_hist _ _ Habs u Hu) as (m & Hm & Hr).
  exists m. split; [done|]. intros key. unfold ro_state, snapshot. rewrite Hs.
  eapply reads_unseen; [done| |apply Hr]. apply (ro_sealed d u Hi Hu). by left.
Qed.

(** ** Begin *)

Lemma begin_abs d s : db_inv d → abs d s → abs (db_begin d) (spec_begin s).
Proof.
  intros Hi Habs. pose proof (inv_width d Hi) as Hw. pose proof Hw as (_ & Ha & _ & Hv & _).
  pose proof Habs as [Hn Ho Hu Hdb Hh Hown Hsince].
  assert (∀ key w ow, versions d !! (key, w) = Some ow →
    w ∉ active_set (db_begin d) ↔ w ∉ active_set d) as Hact.
  { intros key w ow Hget%Hv. cbn. set_solver by lia. }
  split; cbn [sp_next sp_open sp_db sp_hist sp_unversioned spec_begin db_begin
    next_version unversioned].
  - by rewrite Hn.
  - rewrite dom_insert_L, Ho, Hn. done.
  - done.
  - intros key. generalize (Hdb key). apply reads_ext. intros w ow. unfold committed.
    rewrite !bool_decide_eq_true. change (versions (db_begin d)) with (versions d).
    split; intros [Hget Hc]; (split; [done|]); by eapply Hact.
  - intros v Hlt. rewrite Hn. destruct (decide (v = next_version d)) as [->|Hne].
    + exists (sp_db s). rewrite lookup_insert_eq. split; [done|]. intros key.
      generalize (Hdb key). apply reads_ext. intros w ow. unfold committed.
      rewrite bool_decide_eq_true, ro_visible by done. cbn [version active ro_state].
      rewrite snapshot_begin, decide_True by done. change (versions (db_begin d)) with (versions d).
      split; [intros [Hget Hc]|naive_solver]. pose proof (Hv _ _ _ Hget). done.
    + rewrite lookup_insert_ne by done. destruct (Hh v ltac:(lia)) as (m & Hm & Hr).
      exists m. split; [done|]. intros key. unfold ro_state. rewrite snapshot_begin by done.
      rewrite decide_False by done. exact (Hr key).
  - intros v t key. rewrite Hn, lookup_insert_Some. intros [[<- <-]|[Hne Ht]].
    + cbn. rewrite lookup_empty. destruct (versions d !! (key, next_version d)) eqn:Ev; [|done].
      apply Hv in Ev. lia.
    + by eapply Hown.
  - intros v t key. rewrite Hn, lookup_insert_Some. intros [[<- <-]|[Hne Ht]].
    + split; [set_solver|]. intros (w & ow & Hget & Hc & Hinv). exfalso.
      apply (Hact _ _ _ Hget) in Hc. apply rw_invisible in Hinv.
      rewrite snapshot_begin, decide_True in Hinv by done. pose proof (Hv _ _ _ Hget).
      destruct Hinv; [lia|done].
    + rewrite (Hsince v t key Ht). change (versions (db_begin d)) with (versions d).
      unfold rw_state. rewrite snapshot_begin, decide_False by done.
      split; intros (w & ow & Hget & Hc & Hinv); exists w, ow; (split; [done|]); (split; [|done]);
        by eapply Hact.
Qed.

Lemma begin_handle d st h : db_inv d → handle_abs d st h → handle_abs (db_begin d) st h.
Proof.
  intros Hi. pose proof (inv_width d Hi) as Hw. destruct h as [w m|w]; cbn [handle_abs].
  - intros (Hro & Hver & Hle & Hsealed & Hm). cbn [next_version db_begin]. repeat split; try done.
    + lia.
    + intros u Hu. apply Hsealed. cbn in Hu. set_solver by lia.
  - intros [Hlt ->]. cbn [next_version db_begin]. split; [lia|].
    unfold rw_state. by rewrite snapshot_begin, decide_False by (done || lia).
Qed.

(** ** Write *)

Lemma conflict_blocked d s v key : db_inv d → abs d s → v ∈ active_set d →
  conflict s v key ↔ blocked d (rw_state d v) key.
Proof.
  intros Hi Habs Hv. rewrite blocked_iff by done. rewrite <-(abs_open _ _ Habs) in Hv.
  apply elem_of_dom in Hv as [t Ht]. unfold conflict. rewrite Ht. cbn. unfold id. split.
  - intros [Hin|(u & t' & Hu & Hne & [ov Hov])].
    + apply (abs_since _ _ Habs _ _ _ Ht) in Hin as (w & ow & ? & _ & ?). eauto.
    + rewrite (abs_own _ _ Habs _ _ _ Hu) in Hov. exists u, ov. split; [done|].
      apply rw_invisible. assert (u ∈ active_set d) as Hact.
      { rewrite <-(abs_open _ _ Habs). apply elem_of_dom. eauto. }
      destruct (decide (v < u)); [by left|right]. apply (inv_snap_complete d Hi); [done|lia|].
      destruct (inv_width d Hi) as (_ & Ha & _). apply Ha. rewrite <-(abs_open _ _ Habs).
      apply elem_of_dom. eauto.
  - intros (w & ow & Hget & Hinv). destruct (decide (w ∈ active_set d)) as [Hact|Hc].
    + right. rewrite <-(abs_open _ _ Habs) in Hact. apply elem_of_dom in Hact as [t' Ht'].
      exists w, t'. split; [done|]. split.
      * intros ->. apply rw_invisible in Hinv as [Hlt|Hin%(inv_snap_lt d Hi)]; lia.
      * rewrite (abs_own _ _ Habs _ _ _ Ht'). eauto.
    + left. apply (abs_since _ _ Habs _ _ _ Ht). eauto.
Qed.

Lemma write_abs d s v key value : db_inv d → abs d s → v ∈ active_set d →
  abs (db_write d v key value) (spec_write s v key value).
Proof.
  intros Hi Habs Hv. pose proof Habs as [Hn Ho Hu Hdb Hh Hown Hsince].
  pose proof (same_but_write d v key value) as Hsame.
  split; cbn [sp_next sp_open sp_db sp_hist sp_unversioned spec_write with_open db_write
    next_version unversioned active_set]; try done.
  - by rewrite dom_alter_L.
  - intros k. eapply reads_unseen; [done| |apply Hdb]. by apply bool_decide_eq_false; intros [].
  - by apply (hist_keep v d).
  - intros w t k. cbn [versions db_write]. destruct (decide (w = v)) as [->|Hne].
    + rewrite lookup_alter_eq. intros (t' & Ht' & ->)%fmap_Some. cbn.
      destruct (decide (k = key)) as [->|Hk]; [by rewrite !lookup_insert_eq|].
      rewrite !lookup_insert_ne by congruence. by apply Hown.
    + rewrite lookup_alter_ne by done. intros Ht. rewrite lookup_insert_ne by congruence.
      by apply Hown.
  - intros w t k Ht. assert (∃ t', sp_open s !! w = Some t' ∧ since t = since t') as (t' & Ht' & ->).
    { destruct (decide (w = v)) as [->|Hne].
      - rewrite lookup_alter_eq in Ht. apply fmap_Some in Ht as (t' & Ht' & ->). eauto.
      - rewrite lookup_alter_ne in Ht by done. eauto. }
    rewrite (Hsince w t' k Ht'). change (rw_state (db_write d v key value) w) with (rw_state d w).
    split; intros (u & ou & Hget & Hc & Hinv); exists u, ou;
      (split; [|done]); apply (Hsame k u ou); (done || by intros ->).
Qed.

(** ** Commit and rollback *)

(** No version above that of an open transaction has its keys. *)
Lemma open_newest d v key ov w ow : db_inv d → v ∈ active_set d →
  versions d !! (key, v) = Some ov → versions d !! (key, w) = Some ow → w ≤ v.
Proof.
  intros Hi Hv Hget Hgw. destruct (decide (w ≤ v)); [done|]. exfalso.
  apply (inv_ww d Hi key w v ow ov); [done|done|lia|].
  apply (inv_snap_complete d Hi); [done|lia|].
  destruct (inv_width d Hi) as (_ & _ & _ & Hlt & _). by eapply Hlt.
Qed.

Lemma commit_abs d s v : db_inv d → abs d s → v ∈ active_set d →
  abs (db_commit d v) (spec_commit s v).
Proof.
  intros Hi Habs Hv. pose proof Habs as [Hn Ho Hu Hdb Hh Hown Hsince].
  assert (∃ t, sp_open s !! v = Some t) as [t Ht].
  { rewrite <-Ho in Hv. by apply elem_of_dom in Hv. }
  unfold spec_commit. rewrite Ht. cbn [fmap option_fmap option_map default]. unfold id.
  split; cbn [sp_next sp_open sp_db sp_hist sp_unversioned spec_write with_open db_commit
    next_version unversioned active_set]; try done.
  - by rewrite dom_fmap_L, dom_delete_L, Ho.
  - intros k. rewrite lookup_overlay, (Hown v t k Ht).
    destruct (versions d !! (k, v)) as [ov|] eqn:Ev.
    + left. exists v. split; [done|]. split; [apply bool_decide_eq_true; cbn; set_solver|].
      intros w ow Hget _. by eapply open_newest.
    + generalize (Hdb k). apply reads_ext. intros w ow. unfold committed.
      rewrite !bool_decide_eq_true. cbn. split; [set_solver|]. intros [Hget Hc].
      split; [done|]. intros Hin. apply Hc, elem_of_difference. split; [done|].
      intros ->%elem_of_singleton. congruence.
  - intros w t' k. rewrite lookup_fmap. intros (t0 & [Hne Ht0]%lookup_delete_Some & ->)%fmap_Some.
    cbn. by apply Hown.
  - intros w t' k. rewrite lookup_fmap. intros (t0 & [Hne Ht0]%lookup_delete_Some & ->)%fmap_Some.
    cbn [since]. rewrite elem_of_union, (Hsince w t0 k Ht0), elem_of_dom, (Hown v t k Ht).
    change (rw_state (db_commit d v) w) with (rw_state d w). cbn [versions db_commit].
    assert (is_visible (rw_state d w) v = false) as Hvis.
    { apply rw_invisible. destruct (decide (w < v)); [by left|right].
      apply (inv_snap_complete d Hi); [done|lia|]. destruct (inv_width d Hi) as (_ & Ha & _).
      apply Ha. rewrite <-Ho. apply elem_of_dom. eauto. }
    split.
    + intros [[ov Hov]|(u & ou & Hget & Hc & Hinv)]; [exists v, ov|exists u, ou]; set_solver.
    + intros (u & ou & Hget & Hc & Hinv). destruct (decide (u = v)) as [->|Huv]; [left; eauto|].
      right. exists u, ou. set_solver.
Qed.

Lemma rollback_abs d s v : db_inv d → abs d s → v ∈ active_set d →
  abs (db_rollback d v) (spec_rollback s v).
Proof.
  intros Hi Habs Hv. pose proof Habs as [Hn Ho Hu Hdb Hh Hown Hsince].
  pose proof (same_but_rollback d v) as Hsame.
  assert (∀ k ov, versions (db_rollback d v) !! (k, v) ≠ Some ov) as Hgone.
  { intros k ov [Hget Hno]%db_rollback_lookup. apply Hno. split; [done|].
    apply (inv_writes d Hi). eauto. }
  split; cbn [sp_next sp_open sp_db sp_hist sp_unversioned spec_rollback with_open
    next_version unversioned active_set]; try done.
  - rewrite dom_delete_L, Ho. done.
  - intros k. generalize (Hdb k). apply reads_ext. intros w ow. unfold committed.
    rewrite !bool_decide_eq_true. cbn [active_set db_rollback].
    destruct (decide (w = v)) as [->|Hne]; [specialize (Hgone k ow); naive_solver|].
    rewrite (Hsame k w ow Hne). set_solver.
  - by apply (hist_keep v d).
  - intros w t k [Hne Ht]%lookup_delete_Some. rewrite (Hown w t k Ht). apply option_eq.
    intros ov. by apply Hsame.
  - intros w t k [Hne Ht]%lookup_delete_Some. rewrite (Hsince w t k Ht).
    change (rw_state (db_rollback d v) w) with (rw_state d w).
    change (active_set (db_rollback d v)) with (active_set d ∖ {[v]}).
    split; intros (u & ou & Hget & Hc & Hinv); exists u, ou.
    + split; [|set_solver]. apply Hsame; [|done]. by intros ->.
    + destruct (decide (u = v)) as [->|Huv]; [by apply Hgone in Hget|].
      split; [by apply Hsame in Hget|]. set_solver.
Qed.

(** * The simulation *)

Section simulation.
Context {E : Type} `{EngineLaws E}.
Context `{BincodeLaws N, BincodeLaws (gset N), BincodeLaws (option bytes)}.
Implicit Types (sys : Sys E) (s : Spec) (d : Db).

Definition sim d sys s : Prop :=
  eng_inv (sys_engine sys) ∧ rep (eng_view (sys_engine sys)) d ∧ db_inv d ∧ abs d s ∧
  Forall2 (handle_abs d) (sys_handles sys) (sp_handles s).

Definition implements sys s : Prop := ∃ d, sim d sys s.

(** One command, answered as the specification answers it. *)
Definition simulates (c : Cmd) sys s : Prop :=
  ∃ sys', run_cmd c sys = ((spec_cmd c s).1, sys') ∧ implements sys' (spec_cmd c s).2.

Lemma handle_lookup d sys s h hd : sim d sys s → sp_handles s !! h = Some hd →
  ∃ st, sys_handles sys !! h = Some st ∧ handle_abs d st hd.
Proof.
  intros (_ & _ & _ & _ & Hh) Hlk.
  destruct (Forall2_lookup_r _ _ _ _ _ Hh Hlk) as (st & ? & ?). eauto.
Qed.

Lemma usable_handle d sys s h : sim d sys s → usable s h →
  ∃ st hd, sys_handles sys !! h = Some st ∧ sp_handles s !! h = Some hd ∧ handle_abs d st hd ∧
    match hd with HRead _ _ => True | HWrite v => v ∈ active_set d end.
Proof.
  intros Hsim Hu. unfold usable in Hu. destruct (sp_handles s !! h) as [hd|] eqn:Eh; [|done].
  destruct (handle_lookup d sys s h hd Hsim Eh) as (st & Hst & Ha). exists st, hd.
  do 3 (split; [done|]). destruct hd; [done|].
  destruct Hsim as (_ & _ & _ & Habs & _). rewrite <-(abs_open _ _ Habs). by apply elem_of_dom.
Qed.

(** The state a handle reads is the specification's view of it. *)
Lemma handle_view d s st hd : db_inv d → abs d s → handle_abs d st hd →
  match hd with HRead _ _ => True | HWrite v => v ∈ active_set d end →
  ∀ key, reads d (is_visible st) key (view s hd !! key).
Proof.
  intros Hi Habs Ha Hopen key. destruct hd as [v m|v]; cbn [view handle_abs] in *.
  - by destruct Ha as (_ & _ & _ & _ & Hm).
  - destruct Ha as [Hv ->]. rewrite lookup_overlay.
    destruct (abs_hist _ _ Habs v Hv) as (m & Hm & Hr). rewrite Hm. cbn [default].
    rewrite <-(abs_open _ _ Habs) in Hopen. apply elem_of_dom in Hopen as [t Ht]. rewrite Ht. cbn.
    unfold id. rewrite (abs_own _ _ Habs v t key Ht). pose proof (rw_reads d v key _ Hi (Hr key)) as Hrw.
    by destruct (versions d !! (key, v)).
Qed.

Lemma handle_version d st hd : db_inv d → handle_abs d st hd → version st ≤ u64_max.
Proof.
  intros Hi. destruct (inv_width d Hi) as ((_ & Hn) & _). destruct hd; cbn.
  - intros (_ & -> & Hle & _). lia.
  - intros [Hlt ->]. cbn. lia.
Qed.

Lemma sim_add d sys s st hd : sim d sys s → handle_abs d st hd →
  sim d {| sys_engine := sys_engine sys; sys_handles := sys_handles sys ++ [st] |}
    (add_handle s hd).
Proof.
  intros (He & Hr & Hi & Habs & Hh) Hst. split; [done|]. split; [done|]. split; [done|].
  split; [by destruct Habs|]. apply Forall2_app; [done|]. by constructor.
Qed.

(** A call that leaves the engine as it is. *)
Lemma call_pure {A} d sys s (m : M E A) (reply : A → Reply) r :
  sim d sys s → m (sys_engine sys) = (r, sys_engine sys) →
  ∃ sys', call m reply sys = (reply <$> r, sys') ∧ implements sys' s.
Proof.
  intros Hsim Hm. unfold call. rewrite Hm. eexists. split; [done|]. by exists d.
Qed.

Lemma sim_begin d sys s : sim d sys s → cmd_fits (E:=E) s Begin → simulates Begin sys s.
Proof.
  intros (He & Hr & Hi & Habs & Hh) Hf. cbn [cmd_fits] in Hf.
  rewrite (abs_next _ _ Habs), (abs_open _ _ Habs) in Hf. destruct Hf as (Hlt & Hf).
  pose proof (inv_width d Hi) as Hw.
  destruct (begin_rep _ d He Hr Hw Hlt Hf) as (e' & Hb & He' & Hr').
  unfold simulates. cbn [run_cmd spec_cmd fst snd]. unfold open_txn. rewrite Hb.
  rewrite (abs_next _ _ Habs). eexists. split; [done|].
  exists (db_begin d). split; [done|]. split; [done|]. split; [by apply db_begin_inv|].
  split; [by apply begin_abs|]. cbn [sys_handles sp_handles spec_begin].
  rewrite (abs_next _ _ Habs). apply Forall2_app.
  - eapply Forall2_impl; [exact Hh|]. intros. by apply begin_handle.
  - constructor; [|constructor]. split; [cbn; lia|]. unfold rw_state.
    by rewrite snapshot_begin, decide_True.
Qed.

Lemma sim_begin_read_only d sys s as_of : sim d sys s → simulates (BeginReadOnly as_of) sys s.
Proof.
  intros Hsim. pose proof Hsim as (He & Hr & Hi & Habs & Hh). pose proof (inv_width d Hi) as Hw.
  unfold simulates. cbn [run_cmd]. unfold open_txn. destruct as_of as [v|]; cbn [spec_cmd].
  - rewrite begin_as_of_rep with (d:=d) by done. rewrite (abs_next _ _ Habs).
    case_decide as Hlt; (eexists; split; [done|]); exists d; [|done].
    apply sim_add; [done|]. destruct (abs_hist _ _ Habs v Hlt) as (m & -> & Hm).
    cbn. split; [done|]. split; [done|]. split; [lia|]. split; [by apply ro_sealed|done].
  - rewrite begin_read_only_rep with (d:=d) by done. rewrite (abs_next _ _ Habs).
    eexists. split; [done|]. exists d. apply sim_add; [done|].
    cbn. split; [done|]. split; [done|]. split; [done|]. split.
    + intros w Hact. apply invisible. rewrite ro_visible by done. cbn. intros [? ?].
      destruct Hact; [done|lia].
    + intros key. generalize (abs_db _ _ Habs key). apply reads_ext. intros w ow.
      unfold committed. rewrite bool_decide_eq_true, ro_visible by done. cbn.
      destruct Hw as (_ & _ & _ & Hlt & _). split; [|naive_solver].
      intros [Hget Hc]. split; [done|]. split; [by eapply Hlt|done].
Qed.

Lemma sim_resume d sys s h : sim d sys s → enabled s (Resume h) → simulates (Resume h) sys s.
Proof.
  intros Hsim Hen. pose proof Hsim as (He & Hr & Hi & Habs & Hh). cbn in Hen.
  apply lookup_lt_is_Some in Hen as [hd Ehd].
  destruct (handle_lookup d sys s h hd Hsim Ehd) as (st & Est & Ha).
  unfold simulates. cbn [run_cmd spec_cmd]. unfold with_handle, open_txn. rewrite Est, Ehd.
  rewrite resume_rep with (d:=d) by (done || by eapply handle_version).
  destruct hd as [v m|v].
  - pose proof Ha as (Hro & Hv & _). rewrite Hro. cbn [orb]. eexists. split.
    + by rewrite Hv, Hro.
    + exists d. by apply sim_add.
  - pose proof Ha as [Hv ->]. cbn [read_only rw_state orb version].
    rewrite <-(abs_open _ _ Habs). destruct (decide (is_Some (sp_open s !! v))) as [Ho|Ho].
    + rewrite bool_decide_true by by apply elem_of_dom. eexists. split; [done|].
      exists d. by apply sim_add.
    + rewrite bool_decide_false by by rewrite elem_of_dom. eexists. split; [done|]. by exists d.
Qed.

Lemma sim_get d sys s h key : sim d sys s → enabled s (Get h key) → simulates (Get h key) sys s.
Proof.
  intros Hsim Hen. pose proof Hsim as (He & Hr & Hi & Habs & Hh).
  destruct (usable_handle d sys s h Hsim Hen) as (st & hd & Est & Ehd & Ha & Ho).
  unfold simulates. cbn [run_cmd spec_cmd]. unfold with_handle. rewrite Est, Ehd.
  destruct (get_rep _ d st key He Hr (inv_width d Hi)) as (r & Hget & Hreads).
  { by eapply handle_version. }
  rewrite (reads_fun _ _ _ _ _ (handle_view d s st hd Hi Habs Ha Ho key) Hreads).
  by apply (call_pure d sys s _ RValue (Ok r)).
Qed.

Lemma sim_scan_range d sys s h r : sim d sys s → enabled s (ScanRange h r) →
  simulates (ScanRange h r) sys s.
Proof.
  intros Hsim [Hen Hvalid]. pose proof Hsim as (He & Hr & Hi & Habs & Hh).
  destruct (usable_handle d sys s h Hsim Hen) as (st & hd & Est & Ehd & Ha & Ho).
  unfold simulates. cbn [run_cmd spec_cmd]. unfold with_handle. rewrite Est, Ehd.
  pose proof (txn_scan_rep _ d st r He Hr (inv_width d Hi)) as Hscan. rewrite Hvalid in Hscan.
  destruct Hscan as (it & kvs & Hit & Hvec & _ & Hkvs).
  unfold bt_range. rewrite Hvalid.
  rewrite <-(scans_entries d st _ _ kvs (handle_view d s st hd Hi Habs Ha Ho) Hkvs).
  apply (call_pure d sys s _ RPairs (Ok kvs)); [done|].
  erewrite M_bind_Ok by exact Hit. unfold lift. by rewrite Hvec.
Qed.

Lemma sim_scan_prefix d sys s h p : sim d sys s → enabled s (ScanPrefix h p) →
  simulates (ScanPrefix h p) sys s.
Proof.
  intros Hsim Hen. pose proof Hsim as (He & Hr & Hi & Habs & Hh).
  destruct (usable_handle d sys s h Hsim Hen) as (st & hd & Est & Ehd & Ha & Ho).
  unfold simulates. cbn [run_cmd spec_cmd]. unfold with_handle. rewrite Est, Ehd.
  destruct (txn_scan_prefix_rep _ d st p He Hr (inv_width d Hi))
    as (it & kvs & Hit & Hvec & _ & Hkvs).
  unfold bt_range. rewrite prefix_range_valid.
  rewrite <-(scans_entries d st _ _ kvs (handle_view d s st hd Hi Habs Ha Ho) Hkvs).
  apply (call_pure d sys s _ RPairs (Ok kvs)); [done|].
  erewrite M_bind_Ok by exact Hit. unfold lift. by rewrite Hvec.
Qed.

(** The store after a call that changes one open transaction. *)
Lemma call_change {A} d d' v sys s s' (m : M E A) (reply : A → Reply) r :
  sim d sys s → v ∈ active_set d →
  (∃ e', m (sys_engine sys) = (Ok r, e') ∧ eng_inv e' ∧ rep (eng_view e') d') →
  db_inv d' → abs d' s' → sp_handles s' = sp_handles s →
  same_but v d d' → next_version d' = next_version d → active_set d' ⊆ active_set d →
  snapshots d' = snapshots d →
  ∃ sys', call m reply sys = (Ok (reply r), sys') ∧ implements sys' s'.
Proof.
  intros (_ & _ & _ & _ & Hh) Hv (e' & Hm & He' & Hr') Hi' Habs' Hhs Hsame Hn Ha Hs.
  unfold call. rewrite Hm. eexists. split; [done|]. exists d'. split; [done|]. split; [done|].
  split; [done|]. split; [done|]. cbn [sys_handles]. rewrite Hhs.
  eapply Forall2_impl; [exact Hh|]. intros st h. by apply (handle_keep v).
Qed.

Lemma sim_write d sys s h key value : sim d sys s → enabled s (Write h key value) →
  cmd_fits (E:=E) s (Write h key value) → simulates (Write h key value) sys s.
Proof.
  intros Hsim Hen Hf. pose proof Hsim as (He & Hr & Hi & Habs & Hh).
  destruct (usable_handle d sys s h Hsim Hen) as (st & hd & Est & Ehd & Ha & Ho).
  cbn [cmd_fits] in Hf. rewrite Ehd in Hf.
  unfold simulates. cbn [run_cmd spec_cmd]. unfold with_handle. rewrite Est, Ehd.
  destruct hd as [v m|v].
  - apply (call_pure d sys s _ (λ _, RUnit) (Err EReadOnly)); [done|].
    apply write_read_only. by destruct Ha as [Hro _].
  - destruct Ha as [Hv ->]. pose proof (inv_width d Hi) as Hw.
    destruct (write_version_rep (sys_engine sys) d (rw_state d v) key value) as [[Hb Heq]|[Hb Heq]];
      try done.
    { destruct Hw as ((_ & Hn) & _). split; cbn; [lia|]. apply (inv_snap_lt d Hi). }
    + rewrite decide_True by (by apply (conflict_blocked d)).
      by apply (call_pure d sys s _ (λ _, RUnit) (Err ESerialization)).
    + rewrite decide_False by (by rewrite (conflict_blocked d)).
      apply (call_change d (db_write d v key value) v sys s _ _ (λ _, RUnit) tt); try done.
      * by apply db_write_inv.
      * by apply write_abs.
      * apply same_but_write.
Qed.

Lemma sim_commit d sys s h : sim d sys s → enabled s (Commit h) → simulates (Commit h) sys s.
Proof.
  intros Hsim Hen. pose proof Hsim as (He & Hr & Hi & Habs & Hh).
  destruct (usable_handle d sys s h Hsim Hen) as (st & hd & Est & Ehd & Ha & Ho).
  unfold simulates. cbn [run_cmd spec_cmd]. unfold with_handle. rewrite Est, Ehd.
  destruct hd as [v m|v].
  - apply (call_pure d sys s _ (λ _, RUnit) (Ok tt)); [done|].
    unfold commit. by destruct Ha as [-> _].
  - pose proof (handle_version d st _ Hi Ha) as Hver. destruct Ha as [Hv ->].
    apply (call_change d (db_commit d v) v sys s _ _ (λ _, RUnit) tt); try done.
    + by apply (commit_rep _ d (rw_state d v)).
    + by apply db_commit_inv.
    + by apply commit_abs.
    + cbn. set_solver.
Qed.

Lemma sim_rollback d sys s h : sim d sys s → enabled s (Rollback h) → simulates (Rollback h) sys s.
Proof.
  intros Hsim Hen. pose proof Hsim as (He & Hr & Hi & Habs & Hh).
  destruct (usable_handle d sys s h Hsim Hen) as (st & hd & Est & Ehd & Ha & Ho).
  unfold simulates. cbn [run_cmd spec_cmd]. unfold with_handle. rewrite Est, Ehd.
  destruct hd as [v m|v].
  - apply (call_pure d sys s _ (λ _, RUnit) (Ok tt)); [done|].
    unfold rollback. by destruct Ha as [-> _].
  - pose proof (handle_version d st _ Hi Ha) as Hver. destruct Ha as [Hv ->].
    apply (call_change d (db_rollback d v) v sys s _ _ (λ _, RUnit) tt); try done.
    + apply (rollback_rep _ d (rw_state d v)); try done.
      intros key Hin. by apply (inv_writes d Hi) in Hin as [_ ?].
    + by apply db_rollback_inv.
    + by apply rollback_abs.
    + apply same_but_rollback.
    + cbn. set_solver.
Qed.

Lemma sim_unversioned d sys s key value : sim d sys s →
  cmd_fits (E:=E) s (SetUnversioned key value) → simulates (SetUnversioned key value) sys s.
Proof.
  intros (He & Hr & Hi & Habs & Hh) Hf. cbn [cmd_fits] in Hf.
  destruct (set_unversioned_rep _ d key value He Hr Hf) as (e' & Hset & He' & Hr').
  unfold simulates. cbn [run_cmd spec_cmd]. unfold call. rewrite Hset. eexists. split; [done|].
  exists (with_unversioned d key value). split; [done|]. split; [done|].
  split; [by apply with_unversioned_inv|]. split; [|done].
  destruct Habs as [Hn Ho Hu Hdb Hhist Hown Hsince]. split; try done. cbn. by rewrite Hu.
Qed.

Lemma sim_step sys s c : implements sys s → enabled s c → cmd_fits (E:=E) s c →
  simulates c sys s.
Proof.
  intros [d Hsim] Hen Hf. destruct c.
  - by eapply sim_begin.
  - by eapply sim_begin_read_only.
  - by eapply sim_resume.
  - by eapply sim_get.
  - by eapply sim_write.
  - by eapply sim_scan_range.
  - by eapply sim_scan_prefix.
  - by eapply sim_commit.
  - by eapply sim_rollback.
  - pose proof Hsim as (He & Hr & Hi & Habs & Hh). unfold simulates. cbn [run_cmd spec_cmd].
    rewrite (abs_unversioned _ _ Habs).
    apply (call_pure d sys s _ RValue (Ok (unversioned d !! key))); [done|].
    by apply get_unversioned_rep.
  - by eapply sim_unversioned.
Qed.

Lemma sim_cmds cs sys s : implements sys s → allowed (E:=E) s cs →
  ∃ sys', run_cmds cs sys = ((spec_cmds cs s).1, sys') ∧ implements sys' (spec_cmds cs s).2.
Proof.
  revert sys s. induction cs as [|c cs IH]; intros sys s Himp Hal; [by exists sys|].
  destruct Hal as (Hen & Hf & Hal). cbn [run_cmds spec_cmds].
  destruct (sim_step sys s c Himp Hen Hf) as (sys1 & Hrun & Himp1). rewrite Hrun.
  destruct (spec_cmd c s) as [r s1]. cbn [fst snd] in *.
  destruct (IH sys1 s1 Himp1 Hal) as (sys2 & Hrun2 & Himp2). rewrite Hrun2.
  destruct (spec_cmds cs s1) as [rs s2]. cbn [fst snd] in *. by exists sys2.
Qed.

Definition start (e : E) : Sys E := {| sys_engine := e; sys_handles := [] |}.

Lemma start_implements e : eng_inv e → eng_view e = [] → implements (start e) spec_init.
Proof.
  intros He Hv. exists empty_db. split; [done|]. cbn [sys_engine start]. rewrite Hv. split.
  - split; [constructor|]. split; [by intros kb vb ?%not_elem_of_nil|]. by intros [].
  - split; [apply empty_db_inv|]. split; [apply abs_init|]. constructor.
Qed.

(** C1. On any engine that keeps the engine contract, every history of MVCC
    calls (begin, begin_read_only, begin_as_of, resume, get, set, delete, scan,
    scan_prefix, commit, rollback and the unversioned calls, interleaved over
    any number of transactions) returns exactly what an abstract snapshot-
    isolation machine returns, whose transactions read a committed state
    overlaid with their own writes. *)
Theorem mvcc_refines_si e cs : eng_inv e → eng_view e = [] → allowed (E:=E) spec_init cs →
  (run_cmds cs (start e)).1 = (spec_cmds cs spec_init).1.
Proof.
  intros He Hv Hal. destruct (sim_cmds cs (start e) spec_init) as (sys' & -> & _); [|done|done].
  by apply start_implements.
Qed.
End simulation.
