(* ===== verification/MvccClaims.v ===== *)
(** The guarantees of the MVCC layer, stated on the code: snapshot isolation,
    its consequences for clients, time travel, scans and write conflicts. *)
From Stdlib Require Import Strings.Byte NArith Lia Sorting.Sorted.
From stdpp Require Import base list gmap strings.
From S2P Require Import Prelude BTreeMap KeyCode Engine Memory Bincode Mvcc MvccKeys MvccDb MvccOps MvccInv MvccScan MvccSpec MvccSI.

#[local] Opaque to_be.

(** * How the specification evolves *)

Lemma spec_handles_grow c s : sp_handles s `prefix_of` sp_handles (spec_cmd c s).2.
Proof.
  destruct c as [|[]| | | | | | | | |]; cbn [spec_cmd]; repeat (case_match || case_decide);
    cbn; try done; by eexists.
Qed.

Lemma spec_handle_keep c s h hd : sp_handles s !! h = Some hd →
  sp_handles (spec_cmd c s).2 !! h = Some hd.
Proof. intros Hh. eapply prefix_lookup_Some; [done|apply spec_handles_grow]. Qed.

(** The part of the state a command names through a handle. *)
Definition target (s : Spec) (c : Cmd) : option N :=
  match c with
  | Write h _ _ | Commit h | Rollback h =>
      match sp_handles s !! h with Some (HWrite v) => Some v | _ => None end
  | _ => None
  end.

(** A command leaves the transactions it does not name, and the history,
    alone. *)
Lemma spec_hist_keep c s v : v < sp_next s → sp_hist (spec_cmd c s).2 !! v = sp_hist s !! v ∧
  v < sp_next (spec_cmd c s).2.
Proof.
  intros Hv. destruct c as [|[]| | | | | | | | |]; cbn [spec_cmd]; repeat (case_match || case_decide);
    cbn; try done. rewrite lookup_insert_ne by lia. split; [done|lia].
Qed.

Lemma spec_own_keep c s v : v < sp_next s → target s c ≠ Some v →
  own <$> sp_open (spec_cmd c s).2 !! v = own <$> sp_open s !! v.
Proof.
  intros Hv. unfold target.
  destruct c as [|[]| | | | | | | | |]; cbn [spec_cmd]; intros Ht;
    repeat (case_match || case_decide); cbn; try done.
  - by rewrite lookup_insert_ne by lia.
  - by rewrite lookup_alter_ne by congruence.
  - rewrite lookup_fmap, lookup_delete_ne by congruence. by destruct (sp_open s !! v).
  - by rewrite lookup_delete_ne by congruence.
Qed.

Lemma spec_cmds_cons c cs s : (spec_cmds (c :: cs) s).2 = (spec_cmds cs (spec_cmd c s).2).2.
Proof. cbn [spec_cmds]. destruct (spec_cmd c s) as [r s1]. cbn [snd].
  by destruct (spec_cmds cs s1). Qed.

Lemma spec_cmds_app cs cs' s : (spec_cmds (cs ++ cs') s).2 = (spec_cmds cs' (spec_cmds cs s).2).2.
Proof.
  revert s. induction cs as [|c cs IH]; intros s; [done|].
  by rewrite <-app_comm_cons, !spec_cmds_cons, IH.
Qed.

Section claims.
Context {E : Type} `{EngineLaws E}.
Context `{BincodeLaws N, BincodeLaws (gset N), BincodeLaws (option bytes)}.
Implicit Types (sys : Sys E) (s : Spec) (e : E).

Lemma run_cmds_cons c cs sys : (run_cmds (c :: cs) sys).2 = (run_cmds cs (run_cmd c sys).2).2.
Proof. cbn [run_cmds]. destruct (run_cmd c sys) as [r s1]. cbn [snd].
  by destruct (run_cmds cs s1). Qed.

Lemma run_cmds_app cs cs' sys : (run_cmds (cs ++ cs') sys).2 = (run_cmds cs' (run_cmds cs sys).2).2.
Proof.
  revert sys. induction cs as [|c cs IH]; intros sys; [done|].
  by rewrite <-app_comm_cons, !run_cmds_cons, IH.
Qed.

Lemma allowed_app s cs cs' : allowed (E:=E) s (cs ++ cs') ↔
  allowed (E:=E) s cs ∧ allowed (E:=E) (spec_cmds cs s).2 cs'.
Proof.
  revert s. induction cs as [|c cs IH]; intros s; cbn [app allowed]; [naive_solver|].
  rewrite IH, spec_cmds_cons. tauto.
Qed.

(** The system after a run, and the specification's state. *)
Definition after e cs : Sys E := (run_cmds cs (start e)).2.
Definition spec_after (cs : list Cmd) : Spec := (spec_cmds cs spec_init).2.

Lemma after_implements e cs : eng_inv e → eng_view e = [] → allowed (E:=E) spec_init cs →
  implements (after e cs) (spec_after cs).
Proof.
  intros He Hv Hal. unfold after, spec_after.
  destruct (sim_cmds cs (start e) spec_init) as (sys' & -> & Himp); [by apply start_implements|done|].
  done.
Qed.

Lemma step_answer sys s c : implements sys s → enabled s c → cmd_fits (E:=E) s c →
  (run_cmd c sys).1 = (spec_cmd c s).1 ∧ implements (run_cmd c sys).2 (spec_cmd c s).2.
Proof. intros Hi Hen Hf. by destruct (sim_step sys s c Hi Hen Hf) as (sys' & -> & Himp). Qed.

(** A handle of the code is one of the specification. *)
Lemma implements_handle sys s h st : implements sys s → sys_handles sys !! h = Some st →
  ∃ hd, sp_handles s !! h = Some hd ∧
    match hd with
    | HRead v _ => read_only st = true ∧ version st = v
    | HWrite v => read_only st = false ∧ version st = v ∧ v < sp_next s
    end.
Proof.
  intros (d & _ & _ & _ & Habs & Hh) Hst.
  destruct (Forall2_lookup_l _ _ _ _ _ Hh Hst) as (hd & Hhd & Ha). exists hd. split; [done|].
  destruct hd; cbn in Ha; [naive_solver|]. destruct Ha as [? ->].
  by rewrite (abs_next _ _ Habs).
Qed.

(** ** Isolation *)

(** The command does not write, commit or roll back the transaction [st]. *)
Definition foreign (st : TransactionState) sys (c : Cmd) : Prop :=
  match c with
  | Write h _ _ | Commit h | Rollback h =>
      read_only st = true ∨
      match sys_handles sys !! h with
      | Some st' => read_only st' = true ∨ version st' ≠ version st
      | None => True
      end
  | _ => True
  end.

Fixpoint all_foreign (st : TransactionState) sys (cs : list Cmd) : Prop :=
  match cs with
  | [] => True
  | c :: cs => foreign st sys c ∧ all_foreign st (run_cmd c sys).2 cs
  end.

(** A read through a handle. *)
Definition is_read (h : nat) (c : Cmd) : Prop :=
  match c with
  | Get h' _ | ScanPrefix h' _ => h' = h
  | ScanRange h' r => h' = h ∧ range_valid bytes_cmp r = true
  | _ => False
  end.

Lemma foreign_target sys s h st v c : implements sys s → sys_handles sys !! h = Some st →
  sp_handles s !! h = Some (HWrite v) → foreign st sys c → enabled s c → target s c ≠ Some v.
Proof.
  intros Himp Hst Hhd Hf Hen Ht.
  destruct (implements_handle sys s h st Himp Hst) as (hd & Hhd' & Hm). simplify_eq.
  destruct Hm as (Hro & Hver & _).
  destruct c; try done; cbn in Hf, Ht, Hen; destruct (sp_handles s !! h0) as [[|w]|] eqn:Eh0;
    simplify_eq; (destruct Hf as [Hf|Hf]; [congruence|]); destruct Himp as [d Hsim];
    destruct (handle_lookup d sys s h0 _ Hsim Eh0) as (st' & Est' & [_ ->]);
    rewrite Est' in Hf; cbn in Hf; naive_solver.
Qed.

Lemma view_keep sys s h hd st c : implements sys s → sys_handles sys !! h = Some st →
  sp_handles s !! h = Some hd → usable s h → foreign st sys c → enabled s c →
  view (spec_cmd c s).2 hd = view s hd ∧ usable (spec_cmd c s).2 h.
Proof.
  intros Himp Hst Hhd Hu Hf Hen. unfold usable. rewrite (spec_handle_keep c s h hd Hhd).
  unfold usable in Hu. rewrite Hhd in Hu. destruct hd as [v m|v]; [done|].
  pose proof (foreign_target sys s h st v c Himp Hst Hhd Hf Hen) as Ht.
  destruct (implements_handle sys s h st Himp Hst) as (hd & Hhd' & Hm). simplify_eq.
  destruct Hm as (_ & _ & Hv).
  pose proof (spec_own_keep c s v Hv Ht) as Hown. unfold view.
  rewrite (proj1 (spec_hist_keep c s v Hv)), Hown. split; [done|].
  destruct Hu as [t Hu]. rewrite Hu in Hown. cbn in Hown.
  apply fmap_Some in Hown as (t' & -> & _). eauto.
Qed.

Lemma run_handle_keep sys s h st c : implements sys s → enabled s c → cmd_fits (E:=E) s c →
  sys_handles sys !! h = Some st → sys_handles (run_cmd c sys).2 !! h = Some st.
Proof.
  intros Himp Hen Hf Hst.
  assert (sys_handles sys `prefix_of` sys_handles (run_cmd c sys).2) as Hp.
  { destruct c as [| | | | | | | | | |]; cbn [run_cmd]; unfold with_handle, open_txn, call;
      repeat case_match; cbn; try done; by eexists. }
  by eapply prefix_lookup_Some.
Qed.

Lemma views_keep cs sys s h hd st : implements sys s → allowed (E:=E) s cs →
  sys_handles sys !! h = Some st → sp_handles s !! h = Some hd → usable s h →
  all_foreign st sys cs →
  implements (run_cmds cs sys).2 (spec_cmds cs s).2 ∧
  sp_handles (spec_cmds cs s).2 !! h = Some hd ∧
  view (spec_cmds cs s).2 hd = view s hd ∧ usable (spec_cmds cs s).2 h.
Proof.
  revert sys s. induction cs as [|c cs IH]; intros sys s Himp Hal Hst Hhd Hu Hf; [done|].
  destruct Hal as (Hen & Hfit & Hal). destruct Hf as [Hf Hfs].
  destruct (view_keep sys s h hd st c Himp Hst Hhd Hu Hf Hen) as [Hview Hu'].
  destruct (step_answer sys s c Himp Hen Hfit) as [_ Himp'].
  rewrite run_cmds_cons, spec_cmds_cons, <-Hview.
  apply IH; try done; [by eapply run_handle_keep|by apply spec_handle_keep].
Qed.

Lemma read_answer sys s h hd c : implements sys s → sp_handles s !! h = Some hd → usable s h →
  is_read h c → (run_cmd c sys).1 = match c with
    | Get _ key => Ok (RValue (view s hd !! key))
    | ScanRange _ r => RPairs <$> bt_range bytes_cmp r (to_entries (view s hd))
    | ScanPrefix _ p => RPairs <$> bt_range bytes_cmp (prefix_range p) (to_entries (view s hd))
    | _ => Ok RUnit
    end.
Proof.
  intros Himp Hhd Hu Hr.
  assert (enabled s c ∧ cmd_fits (E:=E) s c) as [Hen Hf].
  { destruct c; try done; cbn in Hr |- *; naive_solver. }
  destruct (step_answer sys s c Himp Hen Hf) as [-> _].
  destruct c; try done; cbn in Hr; destruct_and?; subst; cbn [spec_cmd]; by rewrite Hhd.
Qed.

(** C14. A read of a transaction returns the same answer before and after any
    calls of other transactions. *)
Theorem snapshot_isolation e cs cs' h st c :
  eng_inv e → eng_view e = [] → allowed (E:=E) spec_init (cs ++ cs') →
  sys_handles (after e cs) !! h = Some st → usable (spec_after cs) h →
  all_foreign st (after e cs) cs' → is_read h c →
  (run_cmd c (after e (cs ++ cs'))).1 = (run_cmd c (after e cs)).1.
Proof.
  intros He Hv [Hal Hal']%allowed_app Hst Hu Hf Hr.
  pose proof (after_implements e cs He Hv Hal) as Himp.
  destruct (implements_handle _ _ _ _ Himp Hst) as (hd & Hhd & _).
  destruct (views_keep cs' _ _ h hd st Himp Hal' Hst Hhd Hu Hf) as (Himp' & Hhd' & Hview & Hu').
  unfold after at 1. rewrite run_cmds_app. fold (after e cs).
  rewrite (read_answer _ _ h hd c Himp' Hhd' Hu' Hr), (read_answer _ _ h hd c Himp Hhd Hu Hr).
  by rewrite Hview.
Qed.

(** ** Write conflicts *)

(** The handle of an open read-write transaction. *)
Lemma open_handle sys s h st : implements sys s → sys_handles sys !! h = Some st →
  read_only st = false → usable s h →
  sp_handles s !! h = Some (HWrite (version st)) ∧ is_Some (sp_open s !! version st) ∧
  version st < sp_next s.
Proof.
  intros Himp Hst Hro Hu. destruct (implements_handle sys s h st Himp Hst) as (hd & Hhd & Hm).
  unfold usable in Hu. rewrite Hhd in Hu. destruct hd as [v m|v].
  - destruct Hm; congruence.
  - by destruct Hm as (_ & -> & ?).
Qed.

(** After one transaction writes a key, a concurrent transaction that writes it
    gets a serialization error, both before and after the first one commits. *)
Theorem first_writer_wins e cs h h' st st' key value value' sys1 :
  eng_inv e → eng_view e = [] →
  allowed (E:=E) spec_init (cs ++ [Write h key value; Commit h; Write h' key value']) →
  sys_handles (after e cs) !! h = Some st → sys_handles (after e cs) !! h' = Some st' →
  read_only st = false → read_only st' = false → version st ≠ version st' →
  run_cmd (Write h key value) (after e cs) = (Ok RUnit, sys1) →
  (run_cmd (Write h' key value') sys1).1 = Err ESerialization ∧
  (run_cmd (Write h' key value') (run_cmd (Commit h) sys1).2).1 = Err ESerialization.
Proof.
  intros He Hv [Hal Hal']%allowed_app Hst Hst' Hro Hro' Hne Hrun.
  pose proof (after_implements e cs He Hv Hal) as Himp.
  change (spec_cmds cs spec_init).2 with (spec_after cs) in Hal'.
  destruct Hal' as (Hen1 & Hf1 & Hen2 & Hf2 & Hen3 & Hf3 & _).
  destruct (open_handle _ _ _ _ Himp Hst Hro Hen1) as (Hhd & [t Ht] & _).
  destruct (implements_handle _ _ _ _ Himp Hst') as (hd' & Hhd' & Hm').
  destruct hd' as [|v']; [destruct Hm'; congruence|]. destruct Hm' as (_ & <- & _).
  destruct (step_answer _ _ _ Himp Hen1 Hf1) as [Hans1 Himp1]. rewrite Hrun in Hans1, Himp1.
  set (s0 := spec_after cs) in *. set (v := version st) in *. set (v' := version st') in *.
  assert (spec_cmd (Write h key value) s0 = (Ok RUnit, spec_write s0 v key value)) as Hs1.
  { cbn [spec_cmd] in Hans1 |- *. rewrite Hhd in Hans1 |- *. by case_decide. }
  rewrite Hs1 in *. cbn [fst snd] in *.
  set (s1 := spec_write s0 v key value) in *.
  destruct (step_answer _ _ _ Himp1 Hen2 Hf2) as [_ Himp2].
  destruct (step_answer _ _ _ Himp2 Hen3 Hf3) as [Hans3 _].
  assert (spec_cmd (Commit h) s1 = (Ok RUnit, spec_commit s1 v)) as Hs2.
  { cbn [spec_cmd]. change (sp_handles s1) with (sp_handles s0). by rewrite Hhd. }
  rewrite Hs2 in *. cbn [fst snd] in *.
  assert (sp_open s1 !! v = Some {| own := <[key := value]> (own t); since := since t |}) as Hv1.
  { unfold s1. cbn. by rewrite lookup_alter_eq, Ht. }
  assert (enabled s1 (Write h' key value')) as Hen1'.
  { revert Hen3. cbn [enabled]. unfold usable. cbn [sp_handles spec_commit].
    change (sp_handles s1) with (sp_handles s0). rewrite Hhd'. cbn [sp_open spec_commit].
    rewrite lookup_fmap, fmap_is_Some, lookup_delete_ne by done. done. }
  destruct (step_answer _ _ _ Himp1 Hen1' Hf3) as [Hans1' _].
  rewrite Hans1', Hans3. cbn [spec_cmd]. cbn [sp_handles spec_commit].
  change (sp_handles s1) with (sp_handles s0). rewrite Hhd'. split.
  - rewrite decide_True; [done|]. right. exists v. eexists. split; [done|]. split; [done|].
    cbn. by rewrite lookup_insert_eq.
  - rewrite decide_True; [done|]. left. cbn [enabled] in Hen1'. unfold usable in Hen1'.
    change (sp_handles s1) with (sp_handles s0) in Hen1'. rewrite Hhd' in Hen1'.
    destruct Hen1' as [t' Ht']. cbn [sp_open spec_commit].
    rewrite lookup_fmap, lookup_delete_ne, Ht', Hv1 by done. cbn.
    apply elem_of_union_l, elem_of_dom. rewrite lookup_insert_eq. by eexists.
Qed.

(** A write returns a serialization error exactly when the store holds some
    version of the key that the transaction does not see, although the code only
    looks at the last one. *)
Theorem conflict_check_exact e cs h st key value :
  eng_inv e → eng_view e = [] → allowed (E:=E) spec_init (cs ++ [Write h key value]) →
  sys_handles (after e cs) !! h = Some st → read_only st = false →
  let e' := sys_engine (after e cs) in
  (write_version st key value e').1 = Err ESerialization ↔
  ∃ w x, w ≤ u64_max ∧ get_key (Version key w) e' = (Ok (Some x), e') ∧ is_visible st w = false.
Proof.
  intros He Hv [Hal (Hen & Hf & _)]%allowed_app Hst Hro e'.
  destruct (after_implements e cs He Hv Hal) as (d & Hsim).
  destruct (usable_handle d _ _ h Hsim Hen) as (st0 & hd & Hst0 & Hhd & Ha & Ho).
  destruct Hsim as (He' & Hr & Hi & Habs & Hh). simplify_eq.
  cbn [cmd_fits] in Hf. change (spec_cmds cs spec_init).2 with (spec_after cs) in Hf.
  rewrite Hhd in Hf. destruct hd as [|v]; [destruct Ha; congruence|].
  destruct Ha as [Hlt ->]. pose proof (inv_width d Hi) as ((_ & Hn) & _ & _ & Hver & _).
  destruct (write_version_rep e' d (rw_state d v) key value) as [[Hb ->]|[Hb (e2 & -> & _)]];
    [done|done|by apply inv_width|done|split; cbn; [lia|apply (inv_snap_lt d Hi)]|done|..];
    rewrite blocked_iff in Hb by done; (split; [intros Heq|]); try done.
  - destruct Hb as (w & ow & Hget & Hvis). exists w, (bin_serialize ow).
    pose proof (Hver _ _ _ Hget). split; [lia|]. split; [|done].
    rewrite (get_key_rep _ _ d) by (done || (cbn; lia)). cbn. by rewrite Hget.
  - intros (w & x & Hw & Hget & Hvis). destruct Hb.
    rewrite (get_key_rep _ _ d) in Hget by done. cbn in Hget.
    destruct (versions d !! (key, w)) as [ow|] eqn:Ev; [|done]. eauto.
Qed.

(** ** Committed writes *)

(** A value that a transaction writes and commits is the one that the next
    transaction reads, and a deletion is read as absence. *)
Theorem committed_write_visible e cs h st key value sys1 :
  let n := length (sys_handles (after e cs)) in
  eng_inv e → eng_view e = [] →
  allowed (E:=E) spec_init (cs ++ [Write h key value; Commit h]) →
  sys_handles (after e cs) !! h = Some st →
  run_cmd (Write h key value) (after e cs) = (Ok RUnit, sys1) →
  let sys3 := (run_cmds [Commit h; BeginReadOnly None] sys1).2 in
  (run_cmd (Get n key) sys3).1 = Ok (RValue value).
Proof.
  intros n He Hv [Hal Hal']%allowed_app Hst Hrun sys3.
  pose proof (after_implements e cs He Hv Hal) as Himp.
  change (spec_cmds cs spec_init).2 with (spec_after cs) in Hal'.
  destruct Hal' as (Hen1 & Hf1 & Hen2 & Hf2 & _). set (s0 := spec_after cs) in *.
  assert (n = length (sp_handles s0)) as Hn.
  { destruct Himp as (d & _ & _ & _ & _ & Hh). by apply Forall2_length in Hh. }
  destruct (step_answer _ _ _ Himp Hen1 Hf1) as [Hans1 Himp1]. rewrite Hrun in Hans1, Himp1.
  destruct (implements_handle _ _ _ _ Himp Hst) as (hd & Hhd & Hm).
  cbn [spec_cmd] in Hans1, Himp1, Hen2, Hf2. rewrite Hhd in Hans1, Himp1, Hen2, Hf2.
  destruct hd as [w m|v]; [done|].
  destruct (decide (conflict s0 v key)); [done|]. cbn [fst snd] in *.
  destruct (step_answer _ _ _ Himp1 Hen2 Hf2) as [_ Himp2].
  set (s1 := spec_write s0 v key value) in *.
  assert (spec_cmd (Commit h) s1 = (Ok RUnit, spec_commit s1 v)) as Hs2.
  { cbn [spec_cmd]. change (sp_handles s1) with (sp_handles s0). by rewrite Hhd. }
  rewrite Hs2 in Himp2. cbn [snd] in Himp2.
  destruct (step_answer _ _ (BeginReadOnly None) Himp2) as [_ Himp3]; [done|done|].
  cbn [spec_cmd snd] in Himp3. unfold sys3. rewrite !run_cmds_cons. cbn [run_cmds snd].
  cbn [enabled] in Hen1. unfold usable in Hen1. rewrite Hhd in Hen1. destruct Hen1 as [t Ht].
  rewrite (read_answer _ _ n (HRead (sp_next (spec_commit s1 v)) (sp_db (spec_commit s1 v)))
    _ Himp3); [| | |done].
  - cbn [view sp_db spec_commit]. rewrite lookup_overlay. unfold s1. cbn.
    rewrite lookup_alter_eq, Ht. cbn. by rewrite lookup_insert_eq.
  - cbn. by rewrite Hn, lookup_app_r, Nat.sub_diag by lia.
  - unfold usable. cbn. by rewrite Hn, lookup_app_r, Nat.sub_diag by lia.
Qed.

(** ** Time travel *)

Lemma spec_hist_keeps cs s v : v < sp_next s →
  sp_hist (spec_cmds cs s).2 !! v = sp_hist s !! v ∧ v < sp_next (spec_cmds cs s).2.
Proof.
  revert s. induction cs as [|c cs IH]; intros s Hv; [done|].
  destruct (spec_hist_keep c s v Hv) as [<- Hv1]. rewrite spec_cmds_cons. by apply IH.
Qed.

(** A read-only transaction as of version v reads what the read-write
    transaction with version v read when it began, whatever happened since. *)
Theorem time_travel e cs cs' key :
  let h := length (sys_handles (after e cs)) in
  let v := sp_next (spec_after cs) in
  let sys1 := after e (cs ++ [Begin]) in
  let sys2 := after e (cs ++ [Begin] ++ cs') in
  let h2 := length (sys_handles sys2) in
  eng_inv e → eng_view e = [] → allowed (E:=E) spec_init (cs ++ [Begin] ++ cs') →
  (run_cmd Begin (after e cs)).1 = Ok (RTxn v false) ∧
  (run_cmd (BeginReadOnly (Some v)) sys2).1 = Ok (RTxn v true) ∧
  (run_cmd (Get h2 key) (run_cmd (BeginReadOnly (Some v)) sys2).2).1
  = (run_cmd (Get h key) sys1).1.
Proof.
  intros h v sys1 sys2 h2 He Hv [Hal Hal1]%allowed_app.
  pose proof (after_implements e cs He Hv Hal) as Himp.
  change (spec_cmds cs spec_init).2 with (spec_after cs) in Hal1.
  destruct Hal1 as (Hen1 & Hf1 & Hal2). set (s0 := spec_after cs) in *.
  destruct (step_answer _ _ _ Himp Hen1 Hf1) as [Hans1 Himp1].
  assert (sys1 = (run_cmd Begin (after e cs)).2) as Hsys1.
  { unfold sys1, after. by rewrite run_cmds_app, run_cmds_cons. }
  assert (sys2 = (run_cmds cs' sys1).2) as Hsys2.
  { unfold sys2, sys1, after. by rewrite !run_cmds_app. }
  rewrite <-Hsys1 in Himp1. cbn [spec_cmd snd] in Himp1, Hal2.
  destruct (sim_cmds cs' sys1 (spec_begin s0) Himp1 Hal2) as (sys2' & Hrun2 & Himp2).
  rewrite Hrun2 in Hsys2. cbn [snd] in Hsys2. subst sys2'.
  set (s2 := (spec_cmds cs' (spec_begin s0)).2) in *.
  destruct (spec_hist_keeps cs' (spec_begin s0) v) as [Hhist Hlt]; [cbn; lia|]. fold s2 in Hhist, Hlt.
  cbn [sp_hist spec_begin] in Hhist. rewrite lookup_insert_eq in Hhist.
  destruct (step_answer _ _ (BeginReadOnly (Some v)) Himp2) as [Hans2 Himp3]; [done|done|].
  split; [done|]. rewrite Hans2. cbn [spec_cmd] in Himp3 |- *.
  rewrite decide_True in Himp3 |- * by done. cbn [fst snd] in *. split; [done|].
  assert (h = length (sp_handles s0)) as Hh.
  { destruct Himp as (d & _ & _ & _ & _ & Hh). by apply Forall2_length in Hh. }
  assert (h2 = length (sp_handles s2)) as Hh2.
  { destruct Himp2 as (d & _ & _ & _ & _ & Hh2). by apply Forall2_length in Hh2. }
  rewrite (read_answer _ _ h2 (HRead v (default ∅ (sp_hist s2 !! v))) _ Himp3); [| | |done].
  - rewrite (read_answer _ _ h (HWrite v) _ Himp1); [| | |done].
    + cbn [view]. rewrite Hhist, lookup_overlay. cbn.
      by rewrite !lookup_insert_eq.
    + cbn. by rewrite Hh, lookup_app_r, Nat.sub_diag by lia.
    + unfold usable. cbn. rewrite Hh, lookup_app_r, Nat.sub_diag by lia. cbn.
      rewrite lookup_insert_eq. by eexists.
  - cbn. by rewrite Hh2, lookup_app_r, Nat.sub_diag by lia.
  - unfold usable. cbn. by rewrite Hh2, lookup_app_r, Nat.sub_diag by lia.
Qed.

(** ** Scans *)

(** A range scan of a transaction returns, in key order, exactly the keys of the
    range that get returns a value for, with that value, and a reverse scan
    returns the same items in reverse. *)
Theorem scan_agrees_with_get e cs h st r :
  eng_inv e → eng_view e = [] → allowed (E:=E) spec_init cs →
  sys_handles (after e cs) !! h = Some st → usable (spec_after cs) h →
  range_valid bytes_cmp r = true →
  let e' := sys_engine (after e cs) in
  ∃ it kvs, txn_scan r e' = (Ok it, e') ∧
    to_vec st it = Ok kvs ∧ to_vec_rev st it = Ok (reverse kvs) ∧ bt_sorted bytes_cmp kvs ∧
    ∀ key x, (key, x) ∈ kvs ↔
      in_range bytes_cmp r key = true ∧ txn_get st key e' = (Ok (Some x), e').
Proof.
  intros He Hv Hal Hst Hu Hrange e'.
  destruct (after_implements e cs He Hv Hal) as (d & He' & Hr & Hi & Habs & Hh).
  destruct (Forall2_lookup_l _ _ _ _ _ Hh Hst) as (hd & Hhd & Ha).
  pose proof (txn_scan_rep e' d st r He' Hr (inv_width d Hi)) as Hscan. rewrite Hrange in Hscan.
  destruct Hscan as (it & kvs & Hit & Hvec & Hrev & Hs & Hkvs). exists it, kvs.
  do 4 (split; [done|]). intros key x. rewrite Hkvs.
  destruct (get_rep e' d st key He' Hr (inv_width d Hi)) as (v & Hget & Hreads).
  { by eapply handle_version. }
  rewrite Hget. split; intros [HQ Hx]; (split; [done|]).
  - by rewrite (reads_fun _ _ _ _ _ Hx Hreads).
  - by injection Hx as ->.
Qed.
End claims.

(** * Examples *)

Section examples.
#[local] Instance bin_version : Bincode N := countable_bincode N.
#[local] Instance bin_active : Bincode (gset N) := countable_bincode (gset N).
#[local] Instance bin_value : Bincode (option bytes) := countable_bincode (option bytes).
#[local] Instance bin_version_laws : BincodeLaws N := countable_bincode_laws N.
#[local] Instance bin_active_laws : BincodeLaws (gset N) := countable_bincode_laws (gset N).
#[local] Instance bin_value_laws : BincodeLaws (option bytes) := countable_bincode_laws (option bytes).

Definition key_a : bytes := [x61].
Definition key_b : bytes := [x62; x00].

(** Two concurrent transactions and a third that sees the first. *)
Definition sample_setup : list Cmd :=
  [Begin; Write 0 key_a (Some [x01]); Commit 0; Begin; Begin; Write 1 key_b (Some [x02])].

(** The in-memory engine has no size limits. *)
Fixpoint memory_allowed (s : Spec) (cs : list Cmd) : bool :=
  match cs with
  | [] => true
  | c :: cs =>
      bool_decide (enabled s c) && (sp_next s <? u64_max) && memory_allowed (spec_cmd c s).2 cs
  end.

Lemma memory_allowed_ok s cs : memory_allowed s cs = true → allowed (E:=Memory) s cs.
Proof.
  revert s. induction cs as [|c cs IH]; intros s; [done|]. cbn [memory_allowed allowed].
  rewrite !andb_true_iff, bool_decide_eq_true, N.ltb_lt. intros [[Hen Hlt] Hal].
  split; [done|]. split; [|by apply IH]. destruct c; cbn [cmd_fits]; try done.
  by repeat case_match.
Qed.

Lemma memory_new_inv : eng_inv Memory.new.
Proof. constructor. Qed.

Lemma mvcc_refines_si_witness :
  let cs := sample_setup ++ [Write 2 key_b None; Get 2 key_a; Rollback 1;
    Write 2 key_b None; Commit 2; BeginReadOnly None; ScanPrefix 3 []; Resume 1] in
  allowed (E:=Memory) spec_init cs ∧
  (run_cmds cs (start Memory.new)).1 = (spec_cmds cs spec_init).1.
Proof.
  intros cs. assert (allowed (E:=Memory) spec_init cs) as Hal
    by (apply memory_allowed_ok; vm_compute; reflexivity).
  split; [done|]. by apply (mvcc_refines_si Memory.new cs memory_new_inv eq_refl Hal).
Defined.

(** A transaction whose snapshot others do not disturb. *)
Lemma snapshot_isolation_witness :
  let cs' := [Commit 1; Begin; Write 3 key_a None; Commit 3] in
  (run_cmd (Get 2 key_a) (after Memory.new (sample_setup ++ cs'))).1 = Ok (RValue (Some [x01])).
Proof.
  intros cs'. rewrite (snapshot_isolation Memory.new sample_setup cs' 2
    {| version := 3; read_only := false; active := {[2]} |} (Get 2 key_a)).
  - vm_compute. reflexivity.
  - apply memory_new_inv.
  - reflexivity.
  - apply memory_allowed_ok. vm_compute. reflexivity.
  - vm_compute. reflexivity.
  - vm_compute. eexists. reflexivity.
  - vm_compute. repeat split; right; right; discriminate.
  - reflexivity.
Defined.

Lemma first_writer_wins_witness :
  (run_cmds (sample_setup ++ [Commit 1; Write 2 key_b None]) (start Memory.new)).1 !! 7%nat
  = Some (Err ESerialization).
Proof.
  destruct (first_writer_wins Memory.new (take 5 sample_setup) 1 2
    {| version := 2; read_only := false; active := ∅ |}
    {| version := 3; read_only := false; active := {[2]} |} key_b (Some [x02]) None
    (after Memory.new sample_setup)) as [_ Hlast].
  - apply memory_new_inv.
  - reflexivity.
  - apply memory_allowed_ok. vm_compute. reflexivity.
  - vm_compute. reflexivity.
  - vm_compute. reflexivity.
  - reflexivity.
  - reflexivity.
  - discriminate.
  - vm_compute. reflexivity.
  - rewrite <-Hlast. vm_compute. reflexivity.
Defined.

Lemma conflict_check_exact_witness :
  let e' := sys_engine (after Memory.new sample_setup) in
  let st := {| version := 3; read_only := false; active := {[2]} |} in
  ∃ w x, w ≤ u64_max ∧ get_key (Version key_b w) e' = (Ok (Some x), e') ∧
    is_visible st w = false.
Proof.
  intros e' st. apply (conflict_check_exact Memory.new sample_setup 2 st key_b None).
  - apply memory_new_inv.
  - reflexivity.
  - apply memory_allowed_ok. vm_compute. reflexivity.
  - vm_compute. reflexivity.
  - reflexivity.
  - vm_compute. reflexivity.
Defined.

Lemma committed_write_visible_witness :
  (run_cmd (Get 3 key_b)
    (run_cmds [Commit 1; BeginReadOnly None] (after Memory.new sample_setup)).2).1
  = Ok (RValue (Some [x02])).
Proof.
  refine (eq_trans _ (committed_write_visible Memory.new (take 5 sample_setup) 1
    {| version := 2; read_only := false; active := ∅ |} key_b (Some [x02])
    (after Memory.new sample_setup) _ _ _ _ _)).
  - vm_compute. reflexivity.
  - apply memory_new_inv.
  - reflexivity.
  - apply memory_allowed_ok. vm_compute. reflexivity.
  - vm_compute. reflexivity.
  - vm_compute. reflexivity.
Defined.

Lemma time_travel_witness :
  let cs' := [Write 1 key_a None; Commit 1] in
  let sys2 := after Memory.new (take 3 sample_setup ++ [Begin] ++ cs') in
  (run_cmd (Get 2 key_a) (run_cmd (BeginReadOnly (Some 2)) sys2).2).1 = Ok (RValue (Some [x01])).
Proof.
  intros cs' sys2.
  destruct (time_travel Memory.new (take 3 sample_setup) cs' key_a) as (_ & _ & Heq).
  - apply memory_new_inv.
  - reflexivity.
  - apply memory_allowed_ok. vm_compute. reflexivity.
  - etransitivity; [exact Heq|]. vm_compute. reflexivity.
Defined.

Lemma scan_agrees_with_get_witness :
  let e' := sys_engine (after Memory.new sample_setup) in
  let st := {| version := 2; read_only := false; active := ∅ |} in
  ∃ it kvs, txn_scan (Unbounded, Unbounded) e' = (Ok it, e') ∧
    to_vec st it = Ok kvs ∧ to_vec_rev st it = Ok (reverse kvs) ∧ bt_sorted bytes_cmp kvs ∧
    ∀ key x, (key, x) ∈ kvs ↔
      in_range bytes_cmp (Unbounded, Unbounded) key = true ∧ txn_get st key e' = (Ok (Some x), e').
Proof.
  apply (scan_agrees_with_get Memory.new sample_setup 1).
  - apply memory_new_inv.
  - reflexivity.
  - apply memory_allowed_ok. vm_compute. reflexivity.
  - vm_compute. reflexivity.
  - vm_compute. eexists. reflexivity.
  - reflexivity.
Defined.

(** A scan iterator that is advanced first from the back and then from the front
    returns the key again with an older value. *)
Theorem mixed_ends_stale :
  let e := sys_engine (after Memory.new [Begin; Write 0 key_a (Some [x01]); Commit 0;
             Begin; Write 1 key_a (Some [x02]); Commit 1]) in
  let st := {| version := 3; read_only := true; active := ∅ |} in
  ∃ it, txn_scan (Unbounded, Unbounded) e = (Ok it, e) ∧
    (try_next_back st it).1 = Ok (Some (key_a, [x02])) ∧
    (try_next st (try_next_back st it).2).1 = Ok (Some (key_a, [x01])).
Proof.
  intros e st. eexists. split; [vm_compute; reflexivity|]. split; vm_compute; reflexivity.
Qed.
End examples.
