(* ===== verification/RaftLog.v ===== *)
(** The Raft log (src/src/raft/log.rs): entries, term, vote and commit index in
    a storage engine. *)
From Stdlib Require Import Strings.Byte NArith Lia Sorting.Sorted.
From stdpp Require Import base list strings.
From S2P Require Import Prelude BTreeMap KeyCode Engine Bincode.

(** [raft::Entry]. *)
Record Entry := { index : N; term : N; command : option bytes }.

#[export] Instance Entry_eq_dec : EqDecision Entry.
Proof. solve_decision. Defined.

(** * Keys *)

(** [log::Key], in the order of its variants. *)
Inductive Key :=
| KEntry (index : N)
| KTermVote
| KCommitIndex.

#[export] Instance log_Key_eq_dec : EqDecision Key.
Proof. solve_decision. Defined.

Definition key_index (k : Key) : N :=
  match k with KEntry _ => 0 | KTermVote => 1 | KCommitIndex => 2 end.

(** The derived [Serialize] and [Deserialize]. *)
Definition serialize_key (k : Key) : M Serializer unit :=
  _ ← serialize_unit_variant (key_index k);
  match k with KEntry i => serialize_u64 i | _ => mret tt end.

Definition deserialize_key : M Deserializer Key :=
  i ← variant_index;
  if decide (i = 0) then (v ← deserialize_u64; mret (KEntry v))
  else if decide (i = 1) then mret KTermVote
  else if decide (i = 2) then mret KCommitIndex
  else unknown_variant i 3.

Definition compare_key (a b : Key) : comparison :=
  match a, b with
  | KEntry i, KEntry j => i ?= j
  | _, _ => key_index a ?= key_index b
  end.

#[export] Instance log_key : KeyType Key := {
  encode_key := serialize_key;
  decode_key := deserialize_key;
  key_valid := λ k, match k with KEntry i => i ≤ u64_max | _ => True end;
  key_cmp := compare_key;
  key_bytes := λ k,
    n2b (key_index k) :: match k with KEntry i => @key_bytes _ u64_key i | _ => [] end
}.

Definition encode (k : Key) : res bytes := serialize k.
Definition decode (bs : bytes) : res Key := deserialize bs.

(** [KeyPrefix::Entry.encode()]: the prefix of the entry keys. *)
Definition encode_entry_prefix : res bytes :=
  match serialize_unit_variant 0 {| output := [] |} with
  | (Ok _, s) => Ok (output s)
  | (Err e, _) => Err e
  | (Panic w, _) => Panic w
  end.

(** * The log *)

Record Log (E : Type) := {
  engine : E;
  last_index : N;
  last_term : N;
  commit_index : N;
  commit_term : N;
  sync : bool
}.
Arguments engine {E}.
Arguments last_index {E}.
Arguments last_term {E}.
Arguments commit_index {E}.
Arguments commit_term {E}.
Arguments sync {E}.

Section log.
Context {E : Type} `{Engine E}.
Context `{Bincode (N * option bytes), Bincode (N * N), Bincode (N * option N)}.
Implicit Types (l : Log E).

Definition with_engine l (e : E) : Log E := {|
  engine := e; last_index := last_index l; last_term := last_term l;
  commit_index := commit_index l; commit_term := commit_term l; sync := sync l |}.
Definition with_last (i t : N) l : Log E := {|
  engine := engine l; last_index := i; last_term := t;
  commit_index := commit_index l; commit_term := commit_term l; sync := sync l |}.
Definition with_commit (i t : N) l : Log E := {|
  engine := engine l; last_index := last_index l; last_term := last_term l;
  commit_index := i; commit_term := t; sync := sync l |}.

Definition on_engine {A} (m : M E A) : M (Log E) A := λ l,
  let '(r, e) := m (engine l) in (r, with_engine l e).
Definition gets {A} (f : Log E → A) : M (Log E) A := λ l, (Ok (f l), l).
Definition modify (f : Log E → Log E) : M (Log E) unit := λ l, (Ok tt, f l).

(** [Log::decode_entry_value] and [Log::decode_entry]. *)
Definition decode_entry_value (i : N) (value : bytes) : res Entry :=
  '(t, c) ← bin_deserialize (A:=N * option bytes) value;
  Ok {| index := i; term := t; command := c |}.

Definition decode_entry (key value : bytes) : res Entry :=
  k ← decode key;
  match k with
  | KEntry i => decode_entry_value i value
  | _ => Err (EInternal (Msg "Invalid key {:x?}" [FBytes key]))
  end.

(** [Log::new]. *)
Definition log_new (e : E) (sync : bool) : res (Log E) :=
  p ← encode_entry_prefix;
  items ← scan_prefix p e;
  '(li, lt) ← match last items with
              | None => Ok (0, 0)
              | Some item =>
                  '(k, v) ← item;
                  entry ← decode_entry k v;
                  Ok (index entry, term entry)
              end;
  ck ← encode KCommitIndex;
  let '(o, e) := eng_get ck e in
  o ← o;
  '(ci, ct) ← match o with
              | Some v => bin_deserialize (A:=N * N) v
              | None => Ok (0, 0)
              end;
  Ok {| engine := e; last_index := li; last_term := lt;
        commit_index := ci; commit_term := ct; sync := sync |}.

Definition get_commit_index l : N * N := (commit_index l, commit_term l).
Definition get_last_index l : N * N := (last_index l, last_term l).

(** [Log::status]. *)
Definition log_status : M (Log E) Status := on_engine eng_status.

(** [Log::get_term] and [Log::set_term]. *)
Definition get_term : M (Log E) (N * option N) :=
  k ← lift (encode KTermVote);
  o ← on_engine (eng_get k);
  lift match o with
       | Some v => bin_deserialize (A:=N * option N) v
       | None => Ok (0, None)
       end.

Definition maybe_flush : M (Log E) unit :=
  s ← gets sync;
  if s : bool then on_engine eng_flush else mret tt.

Definition set_term (t : N) (voted_for : option N) : M (Log E) unit :=
  k ← lift (encode KTermVote);
  _ ← on_engine (eng_set k (bin_serialize (t, voted_for)));
  maybe_flush.

(** [Log::append]. *)
Definition append (t : N) (c : option bytes) : M (Log E) N :=
  li ← gets last_index;
  i ← lift (add_u64 li 1);
  k ← lift (encode (KEntry i));
  _ ← on_engine (eng_set k (bin_serialize (t, c)));
  _ ← maybe_flush;
  _ ← modify (with_last i t);
  mret i.

(** [Log::get]. *)
Definition get (i : N) : M (Log E) (option Entry) :=
  k ← lift (encode (KEntry i));
  o ← on_engine (eng_get k);
  lift match o with
       | Some v => Some <$> decode_entry_value i v
       | None => Ok None
       end.

(** [Log::commit]. *)
Definition commit (i : N) : M (Log E) N :=
  ci ← gets commit_index;
  if decide (i < ci) then
    lift (Err (EInternal (Msg "Commit index regression {} -> {}" [FNum ci; FNum i])))
  else
    o ← get i;
    match o with
    | None => lift (Err (EInternal (Msg "Can't commit non-existant index {}" [FNum i])))
    | Some entry =>
        k ← lift (encode KCommitIndex);
        _ ← on_engine (eng_set k (bin_serialize (index entry, term entry)));
        _ ← maybe_flush;
        _ ← modify (with_commit (index entry) (term entry));
        mret i
    end.

(** [Log::has]. *)
Definition has (i t : N) : M (Log E) bool :=
  o ← get i;
  mret match o with
       | Some entry => bool_decide (term entry = t)
       | None => bool_decide (i = 0 ∧ t = 0)
       end.

(** [Log::scan]: the items decode as the iterator yields them. *)
Definition scan_keys (range : Bound N * Bound N) : res KeyRange :=
  from ← match range.1 with
         | Excluded i => k ← encode (KEntry i); Ok (Excluded k)
         | Included i => k ← encode (KEntry i); Ok (Included k)
         | Unbounded => k ← encode (KEntry 0); Ok (Included k)
         end;
  to ← match range.2 with
       | Excluded i => k ← encode (KEntry i); Ok (Excluded k)
       | Included i => k ← encode (KEntry i); Ok (Included k)
       | Unbounded => k ← encode (KEntry u64_max); Ok (Included k)
       end;
  Ok (from, to).

Definition scan (range : Bound N * Bound N) : M (Log E) (list (res Entry)) :=
  r ← lift (scan_keys range);
  items ← ((λ l, (eng_scan r (engine l), l)) : M (Log E) (list (res (bytes * bytes))));
  mret (List.map (λ item : res (bytes * bytes), '(k, v) ← item; decode_entry k v) items).

(** [entries.windows(2).all(|w| w[0].index + 1 == w[1].index)]. *)
Fixpoint contiguous (es : list Entry) : res bool :=
  match es with
  | a :: (b :: _) as rest =>
      i ← add_u64 (index a) 1;
      if decide (i = index b) then contiguous rest else Ok false
  | _ => Ok true
  end.

(** The loop that skips the entries already in the log. *)
Fixpoint skip_matching (items : list (res Entry)) (es : list Entry) : res (list Entry) :=
  match items with
  | [] => Ok es
  | item :: items =>
      e ← item;
      match es with
      | [] => Panic "index out of bounds"
      | e0 :: rest => if decide (term e = term e0) then skip_matching items rest else Ok es
      end
  end.

Definition write_entry (e : Entry) : M (Log E) unit :=
  k ← lift (encode (KEntry (index e)));
  on_engine (eng_set k (bin_serialize (term e, command e))).

Definition delete_entry (i : N) : M (Log E) unit :=
  k ← lift (encode (KEntry i));
  on_engine (eng_delete k).

(** The inclusive range [a..=b]. *)
Definition index_range (a b : N) : list N :=
  List.map (λ i, a + N.of_nat i) (seq 0 (N.to_nat (b + 1 - a))).

(** [Log::splice]. *)
Definition splice (entries : list Entry) : M (Log E) N :=
  match entries with
  | [] => gets last_index
  | first :: _ =>
      li ← gets last_index;
      ok ← (if decide (index first = 0) then mret false
            else next ← lift (add_u64 li 1); mret (bool_decide (index first ≤ next)));
      if negb ok then
        lift (Err (EInternal (Msg "Spliced entries must begin before last index" [])))
      else
        c ← lift (contiguous entries);
        if negb c then
          lift (Err (EInternal (Msg "Spliced entries must be contiguous" [])))
        else
          let final := default first (last entries) in
          items ← scan (Included (index first), Included (index final));
          rest ← lift (skip_matching items entries);
          ci ← gets commit_index;
          if match rest with [] => false | e :: _ => bool_decide (index e ≤ ci) end then
            lift (Err (EInternal (Msg "Spliced entries must begin after commit index" [])))
          else
            _ ← for_each rest write_entry;
            from ← lift (add_u64 (index final) 1);
            _ ← for_each (index_range from li) delete_entry;
            _ ← maybe_flush;
            _ ← modify (with_last (index final) (term final));
            gets last_index
  end.
End log.
