(* ===== verification/RaftLogSpec.v ===== *)
(** The Raft log as a list of entries: an abstract log, and the theorem that
    the code of RaftLog implements it. *)
From Stdlib Require Import Strings.Byte NArith Lia Sorting.Sorted.
From stdpp Require Import base list strings sorting.
From S2P Require Import Prelude BTreeMap KeyCode Engine KeyStore Bincode RaftLog.

#[local] Opaque to_be.

(** * Key codec *)

Lemma log_key_laws_encode k s : key_valid k →
  serialize_key k s = (Ok tt, {| output := output s ++ key_bytes k |}).
Proof.
  intros Hk. unfold serialize_key.
  erewrite M_bind_Ok by (apply variant_encode; by destruct k).
  destruct k; [|done..]. rewrite (key_encode (H:=u64_key)) by done. cbn [output].
  by rewrite <-app_assoc.
Qed.

#[export] Instance log_key_laws : KeyLaws Key.
Proof.
  split.
  - intros. by apply log_key_laws_encode.
  - intros k r Hk. cbn [decode_key log_key]. unfold deserialize_key.
    cbn [key_bytes log_key]. cbn [app].
    erewrite M_bind_Ok by (apply variant_decode; by destruct k).
    destruct k; cbn [key_index]; [|done..].
    rewrite decide_True by done.
    erewrite M_bind_Ok by (by apply (key_decode (H:=u64_key))). done.
  - intros k i r H. cbn [decode_key log_key] in H. unfold deserialize_key in H.
    apply M_bind_Ok_inv in H as (j & d & [Hj ->]%variant_exact & H). destruct d as [i'].
    cbn [input]. repeat case_decide; subst; try done.
    + apply M_bind_Ok_inv in H as (v & d & Hv & H). unfold mret, M_ret in H. simplify_eq.
      apply (key_decode_exact (H:=u64_key)) in Hv as [Hv ->]. done.
    + unfold mret, M_ret in H. by simplify_eq.
    + unfold mret, M_ret in H. by simplify_eq.
  - intros a b r s Ha Hb. cbn [key_bytes log_key key_cmp]. cbn [app].
    rewrite variant_order by (by destruct a, b).
    destruct a, b; cbn [key_index compare_key]; try done.
    by apply (key_order (H:=u64_key)).
  - intros [] []; cbn; try done. by intros ->%N.compare_eq_iff.
  - done.
Qed.

Lemma log_encode_valid k : key_valid k → encode k = Ok (key_bytes k).
Proof. apply serialize_valid. Qed.
Lemma log_decode_bytes k : key_valid k → decode (key_bytes k) = Ok k.
Proof. apply deserialize_bytes_of. Qed.

(** * The abstract log *)

(** The term and command of each entry from index 1, the committed index and
    term, and the term and vote, as last stored. *)
Record ALog := {
  a_entries : list (N * option bytes);
  a_commit : option (N * N);
  a_vote : option (N * option N)
}.

Definition empty_alog : ALog := {| a_entries := []; a_commit := None; a_vote := None |}.

Definition a_length (a : ALog) : N := N.of_nat (length (a_entries a)).
Definition a_commit_index (a : ALog) : N := (default (0, 0) (a_commit a)).1.

Definition with_entries (a : ALog) es : ALog :=
  {| a_entries := es; a_commit := a_commit a; a_vote := a_vote a |}.

(** The payload at an index, and the entry. *)
Definition payload_at (es : list (N * option bytes)) (i : N) : option (N * option bytes) :=
  if decide (i = 0) then None else es !! (N.to_nat i - 1)%nat.

Definition mk_entry (i : N) (p : N * option bytes) : Entry :=
  {| index := i; term := p.1; command := p.2 |}.
Definition payload (e : Entry) : N * option bytes := (term e, command e).

Definition entry_at (a : ALog) (i : N) : option Entry := mk_entry i <$> payload_at (a_entries a) i.

(** All entries with their indexes. *)
Definition indexed (es : list (N * option bytes)) : list Entry :=
  imap (λ i, mk_entry (N.of_nat i + 1)) es.

(** ** Its operations *)

Definition spec_append (t : N) (c : option bytes) (a : ALog) : res N * ALog :=
  (Ok (a_length a + 1), with_entries a (a_entries a ++ [(t, c)])).

Definition spec_commit (i : N) (a : ALog) : res N * ALog :=
  if decide (i < a_commit_index a) then
    (Err (EInternal (Msg "Commit index regression {} -> {}" [FNum (a_commit_index a); FNum i])), a)
  else
    match entry_at a i with
    | None => (Err (EInternal (Msg "Can't commit non-existant index {}" [FNum i])), a)
    | Some e => (Ok i, {| a_entries := a_entries a; a_commit := Some (i, term e);
                          a_vote := a_vote a |})
    end.

Definition spec_has (i t : N) (a : ALog) : bool :=
  match entry_at a i with
  | Some e => bool_decide (term e = t)
  | None => bool_decide (i = 0 ∧ t = 0)
  end.

(** The range with its open ends closed. *)
Definition closed_range (r : Bound N * Bound N) : Bound N * Bound N :=
  (match r.1 with Unbounded => Included 0 | b => b end,
   match r.2 with Unbounded => Included u64_max | b => b end).

Definition spec_scan (r : Bound N * Bound N) (a : ALog) : res (list Entry) :=
  if range_valid N.compare (closed_range r)
  then Ok (List.filter (λ e, in_range N.compare r (index e)) (indexed (a_entries a)))
  else Panic "range start is greater than range end in BTreeMap".

(** The number of leading entries whose terms match. *)
Fixpoint matching (old : list (N * option bytes)) (new : list Entry) : nat :=
  match old, new with
  | (t, _) :: old, e :: new => if decide (t = term e) then S (matching old new) else 0
  | _, _ => 0
  end%nat.

(** What splicing does to a log that it accepts: the entries replace the log
    from the first that does not match, and the log ends with them. *)
Definition spliced (entries : list Entry) (es : list (N * option bytes)) : list (N * option bytes) :=
  match entries with
  | [] => es
  | first :: _ =>
      let start := (N.to_nat (index first) - 1)%nat in
      let n := matching (drop start es) entries in
      take (start + n) es ++ List.map payload (drop n entries)
  end.

Fixpoint is_contiguous (es : list Entry) : bool :=
  match es with
  | a :: (b :: _) as rest => bool_decide (index a + 1 = index b) && is_contiguous rest
  | _ => true
  end.

Definition spec_splice (entries : list Entry) (a : ALog) : res N * ALog :=
  match entries with
  | [] => (Ok (a_length a), a)
  | first :: _ =>
      if decide (index first = 0 ∨ a_length a + 1 < index first) then
        (Err (EInternal (Msg "Spliced entries must begin before last index" [])), a)
      else if negb (is_contiguous entries) then
        (Err (EInternal (Msg "Spliced entries must be contiguous" [])), a)
      else
        let start := (N.to_nat (index first) - 1)%nat in
        let n := matching (drop start (a_entries a)) entries in
        if match drop n entries with
           | [] => false
           | e :: _ => bool_decide (index e ≤ a_commit_index a)
           end then
          (Err (EInternal (Msg "Spliced entries must begin after commit index" [])), a)
        else (Ok (index (default first (last entries))),
              with_entries a (spliced entries (a_entries a)))
  end.

(** ** Facts about splicing *)

Definition indexed_from (n : N) (es : list (N * option bytes)) : list Entry :=
  imap (λ i, mk_entry (n + N.of_nat i)) es.

Lemma indexed_from_cons n p es :
  indexed_from n (p :: es) = mk_entry n p :: indexed_from (n + 1) es.
Proof.
  unfold indexed_from. cbn [imap]. f_equal; [f_equal; lia|]. apply imap_ext.
  intros i q _. cbn. f_equal. lia.
Qed.

Lemma indexed_from_1 es : indexed es = indexed_from 1 es.
Proof. apply imap_ext. intros i q _. f_equal. lia. Qed.

Lemma in_closed lo hi i :
  in_range N.compare (Included lo, Included hi) i = true ↔ lo ≤ i ≤ hi.
Proof.
  unfold in_range, above, below. cbn [fst snd].
  destruct (N.compare_spec lo i), (N.compare_spec i hi); cbn; split; intros; first [done|lia].
Qed.

Lemma filter_indexed_above n lo hi es : lo ≤ n →
  List.filter (λ e, in_range N.compare (Included lo, Included hi) (index e)) (indexed_from n es)
  = indexed_from n (take (N.to_nat (hi + 1 - n)) es).
Proof.
  revert n. induction es as [|p es IH]; intros n Hn; [by rewrite take_nil|].
  rewrite indexed_from_cons. cbn [List.filter index mk_entry]. rewrite IH by lia.
  destruct (in_range N.compare (Included lo, Included hi) n) eqn:Er.
  - apply in_closed in Er. replace (N.to_nat (hi + 1 - n)) with (S (N.to_nat (hi + 1 - (n + 1)))) by lia.
    cbn [take]. by rewrite indexed_from_cons.
  - assert (hi < n).
    { destruct (decide (n ≤ hi)) as [Hle|]; [|lia].
      assert (lo ≤ n ≤ hi) as Hx by lia. apply in_closed in Hx. congruence. }
    replace (N.to_nat (hi + 1 - n)) with 0%nat by lia.
    by replace (N.to_nat (hi + 1 - (n + 1))) with 0%nat by lia.
Qed.

Lemma filter_indexed n lo hi es : n ≤ lo →
  List.filter (λ e, in_range N.compare (Included lo, Included hi) (index e)) (indexed_from n es)
  = indexed_from lo (take (N.to_nat (hi + 1 - lo)) (drop (N.to_nat (lo - n)) es)).
Proof.
  revert n. induction es as [|p es IH]; intros n Hn; [by rewrite drop_nil, take_nil|].
  destruct (decide (n = lo)) as [->|Hne].
  - rewrite filter_indexed_above by lia. by replace (N.to_nat (lo - lo)) with 0%nat by lia.
  - rewrite indexed_from_cons. cbn [List.filter index mk_entry]. rewrite IH by lia.
    destruct (in_range N.compare (Included lo, Included hi) n) eqn:Er.
    { apply in_closed in Er. lia. }
    by replace (N.to_nat (lo - n)) with (S (N.to_nat (lo - (n + 1)))) by lia.
Qed.

Lemma skip_indexed n old new :
  skip_matching (List.map Ok (indexed_from n (take (length new) old))) new
  = Ok (drop (matching old new) new).
Proof.
  revert n old. induction new as [|e new IH]; intros n old; [by destruct old as [|[]]|].
  destruct old as [|[t c] old]; cbn [length take matching]; [done|].
  rewrite indexed_from_cons. cbn [List.map skip_matching mbind res_bind term mk_entry fst].
  case_decide; [|done]. by rewrite IH.
Qed.

Lemma matching_le old new : (matching old new ≤ length old)%nat ∧ (matching old new ≤ length new)%nat.
Proof.
  revert new. induction old as [|[t c] old IH]; intros [|e new]; cbn; try lia.
  case_decide; [|lia]. specialize (IH new). lia.
Qed.

Lemma matching_terms old new k p e : (k < matching old new)%nat →
  old !! k = Some p → new !! k = Some e → p.1 = term e.
Proof.
  revert new k. induction old as [|[t c] old IH]; intros [|e' new] k; cbn; try lia.
  case_decide; [|lia]. intros Hk. destruct k as [|k]; cbn.
  - intros. by simplify_eq.
  - apply IH. lia.
Qed.

Lemma contiguous_ok es : Forall (λ e, index e < u64_max) es → contiguous es = Ok (is_contiguous es).
Proof.
  induction es as [|a [|b es] IH]; intros Hf; [done..|].
  apply Forall_cons in Hf as [Ha Hf]. cbn beta in Ha.
  change (contiguous (a :: b :: es)) with
    (i ← add_u64 (index a) 1; if decide (i = index b) then contiguous (b :: es) else Ok false).
  change (is_contiguous (a :: b :: es)) with
    (bool_decide (index a + 1 = index b) && is_contiguous (b :: es)).
  unfold add_u64. rewrite (decide_True (P:=index a + 1 ≤ u64_max)) by lia.
  cbn [mbind res_bind]. rewrite IH by done.
  case_decide; [by rewrite bool_decide_true|by rewrite bool_decide_false].
Qed.

Lemma contiguous_lookup first es k e : is_contiguous (first :: es) = true →
  (first :: es) !! k = Some e → index e = index first + N.of_nat k.
Proof.
  revert first k. induction es as [|b es IH]; intros first k.
  - intros _. destruct k; cbn; [|done]. intros. simplify_eq. lia.
  - change (is_contiguous (first :: b :: es)) with
      (bool_decide (index first + 1 = index b) && is_contiguous (b :: es)).
    rewrite andb_true_iff, bool_decide_eq_true. intros [Hb Hc].
    destruct k as [|k]; [cbn; intros; simplify_eq; lia|]. intros Hk. cbn in Hk.
    rewrite (IH b k Hc Hk). lia.
Qed.

Lemma contiguous_last first es : is_contiguous (first :: es) = true →
  index (default first (last (first :: es))) = index first + N.of_nat (length es).
Proof.
  intros Hc. rewrite last_lookup. cbn [length Nat.pred].
  destruct ((first :: es) !! length es) as [e|] eqn:Ee; cbn.
  - by apply (contiguous_lookup first es).
  - apply lookup_ge_None in Ee. cbn in Ee. lia.
Qed.

Lemma last_drop_lt {A} n (l : list A) : (n < length l)%nat → last (drop n l) = last l.
Proof. intros Hn. rewrite !last_lookup, lookup_drop, length_drop. f_equal. lia. Qed.

(** The index of the last entry is the length of the spliced log. *)
Lemma spliced_length first es old : is_contiguous (first :: es) = true →
  index first ≠ 0 → index first ≤ N.of_nat (length old) + 1 →
  N.of_nat (length (spliced (first :: es) old)) = index (default first (last (first :: es))).
Proof.
  intros Hc H0 Hle. rewrite contiguous_last by done. unfold spliced.
  set (start := (N.to_nat (index first) - 1)%nat).
  pose proof (matching_le (drop start old) (first :: es)) as [Hm1 Hm2].
  rewrite length_drop in Hm1. rewrite length_app, length_take, List.length_map, length_drop.
  cbn [length] in *. unfold start in *. lia.
Qed.

Lemma spliced_last first es old : is_contiguous (first :: es) = true →
  index first ≠ 0 → index first ≤ N.of_nat (length old) + 1 →
  default 0 (fst <$> last (spliced (first :: es) old)) = term (default first (last (first :: es))).
Proof.
  intros Hc H0 Hle. unfold spliced. set (start := (N.to_nat (index first) - 1)%nat).
  set (n := matching (drop start old) (first :: es)).
  pose proof (matching_le (drop start old) (first :: es)) as [Hm1 Hm2]. fold n in Hm1, Hm2.
  rewrite length_drop in Hm1. cbn [length] in Hm2.
  destruct (decide (n = S (length es))) as [Hn|Hn].
  - rewrite drop_ge by (cbn; lia). cbn [List.map]. rewrite app_nil_r, last_lookup, length_take.
    assert ((Nat.min (start + n) (length old)) = start + n)%nat as -> by lia.
    rewrite lookup_take_lt by lia. rewrite last_lookup. cbn [length Nat.pred].
    destruct ((first :: es) !! length es) as [e|] eqn:Ee;
      [|apply lookup_ge_None in Ee; cbn in Ee; lia].
    destruct (drop start old !! length es) as [p|] eqn:Ep.
    + pose proof (matching_terms (drop start old) (first :: es) (length es) p e
        ltac:(fold n; lia) Ep Ee) as Ht.
      rewrite lookup_drop in Ep. replace (Nat.pred (start + n)) with (start + length es)%nat by lia.
      by rewrite Ep.
    + apply lookup_ge_None in Ep. rewrite length_drop in Ep. lia.
  - rewrite last_app, last_map, last_drop_lt by (cbn; lia).
    destruct (last (first :: es)) as [e|] eqn:Ee; [done|]. by apply last_None in Ee.
Qed.

(** Overwriting from a position on. *)
Definition overwrite (p : nat) (new es : list (N * option bytes)) : list (N * option bytes) :=
  take p es ++ new ++ drop (p + length new) es.

Lemma overwrite_cons p x new es : (p ≤ length es)%nat →
  overwrite (S p) new (overwrite p [x] es) = overwrite p (x :: new) es.
Proof.
  intros Hp. unfold overwrite. cbn [app length].
  assert (length (take p es) = p) as Hl by (rewrite length_take; lia).
  rewrite take_app_ge, Hl by lia. replace (S p - p)%nat with 1%nat by lia. cbn [take].
  rewrite take_0, <-app_assoc. cbn [app]. do 3 f_equal.
  rewrite drop_app_ge, Hl by lia. replace (S p + length new - p)%nat with (S (length new)) by lia.
  cbn [drop]. rewrite drop_drop. f_equal. lia.
Qed.

Lemma payload_overwrite p x es i : (p ≤ length es)%nat →
  payload_at (overwrite p [x] es) i
  = if decide (i = N.of_nat p + 1) then Some x else payload_at es i.
Proof.
  intros Hp. unfold payload_at, overwrite. cbn [length app].
  assert (length (take p es) = p) as Hl by (rewrite length_take; lia).
  repeat case_decide; try lia; try done.
  - rewrite lookup_app_r, Hl by lia. by replace (N.to_nat i - 1 - p)%nat with 0%nat by lia.
  - destruct (decide (N.to_nat i - 1 < p)%nat).
    + rewrite lookup_app_l, lookup_take_lt by lia. done.
    + rewrite lookup_app_r, Hl by lia.
      replace (N.to_nat i - 1 - p)%nat with (S (N.to_nat i - 1 - (p + 1))) by lia.
      change ((x :: drop (p + 1) es) !! S (N.to_nat i - 1 - (p + 1)))
        with (drop (p + 1) es !! (N.to_nat i - 1 - (p + 1))%nat).
      rewrite lookup_drop. f_equal. lia.
Qed.

(** * Representation *)

Section rep.
Context {E : Type} `{EngineLaws E}.
Context `{BincodeLaws (N * option bytes), BincodeLaws (N * N), BincodeLaws (N * option N)}.
Implicit Types (l : Log E) (a : ALog) (es : list (N * option bytes)).

Definition a_key a (k : Key) : option bytes :=
  match k with
  | KEntry i => bin_serialize <$> payload_at (a_entries a) i
  | KTermVote => bin_serialize <$> a_vote a
  | KCommitIndex => bin_serialize <$> a_commit a
  end.

Definition log_rep l a : Prop :=
  eng_inv (engine l) ∧ stores (eng_view (engine l)) (a_key a) ∧
  a_length a ≤ u64_max ∧ last_index l = a_length a ∧
  last_term l = default 0 (fst <$> last (a_entries a)) ∧
  get_commit_index l = default (0, 0) (a_commit a).

(** The log of an empty engine. *)
Lemma empty_rep (e : E) s : eng_inv e → eng_view e = [] →
  log_rep {| engine := e; last_index := 0; last_term := 0; commit_index := 0; commit_term := 0;
             sync := s |} empty_alog.
Proof.
  intros He Hv. split; [done|]. split; [|done]. cbn. rewrite Hv. eapply stores_ext; [|apply stores_empty].
  intros [i| |] _; cbn; [|done..]. unfold payload_at. by case_decide.
Qed.

Definition entry_fits (i : N) (p : N * option bytes) : Prop :=
  eng_writable (key_bytes (KEntry i)) (bin_serialize p).

(** ** The plumbing of the operations *)

Lemma on_engine_Ok {A} (m : M E A) l x e' : m (engine l) = (Ok x, e') →
  on_engine m l = (Ok x, with_engine l e').
Proof. intros Hm. unfold on_engine. by rewrite Hm. Qed.

Lemma with_engine_self l : with_engine l (engine l) = l.
Proof. by destruct l. Qed.

Lemma maybe_flush_Ok l : eng_inv (engine l) → maybe_flush l = (Ok tt, l).
Proof.
  intros He. unfold maybe_flush. erewrite M_bind_Ok by reflexivity.
  destruct (sync l); [|done]. erewrite on_engine_Ok by (by apply eng_flush_law).
  by rewrite with_engine_self.
Qed.

Lemma log_get_rep l a i : log_rep l a → i ≤ u64_max → get i l = (Ok (entry_at a i), l).
Proof.
  intros (He & Hs & _) Hi. unfold get.
  erewrite M_bind_Ok by (unfold lift; by rewrite log_encode_valid).
  erewrite M_bind_Ok by (apply on_engine_Ok, (get_stored (KEntry i)); done).
  rewrite with_engine_self. cbn [a_key]. unfold entry_at, lift.
  destruct (payload_at (a_entries a) i) as [[t c]|]; cbn [fmap option_fmap option_map]; [|done].
  unfold decode_entry_value. by rewrite bin_roundtrip.
Qed.

Lemma payload_at_app es p i : payload_at (es ++ [p]) i =
  if decide (i = N.of_nat (length es) + 1) then Some p else payload_at es i.
Proof.
  unfold payload_at. repeat case_decide; try lia; subst; try done.
  - rewrite lookup_app_r by lia.
    by replace (N.to_nat (N.of_nat (length es) + 1) - 1 - length es)%nat with 0%nat by lia.
  - destruct (decide (N.to_nat i - 1 < length es)%nat).
    + by rewrite lookup_app_l by lia.
    + rewrite !lookup_ge_None_2; [done|lia|]. rewrite length_app. cbn. lia.
Qed.

Lemma append_rep l a t c : log_rep l a → a_length a < u64_max →
  entry_fits (a_length a + 1) (t, c) →
  ∃ l', append t c l = ((spec_append t c a).1, l') ∧ log_rep l' (spec_append t c a).2.
Proof.
  intros (He & Hs & Hlen & Hli & Hlt & Hc) Hn Hf. unfold append.
  erewrite M_bind_Ok by reflexivity. rewrite Hli.
  erewrite M_bind_Ok by (unfold lift, add_u64; rewrite decide_True by lia; reflexivity).
  assert (key_valid (KEntry (a_length a + 1))) as Hk by (cbn; lia).
  erewrite M_bind_Ok by (unfold lift; by rewrite log_encode_valid).
  destruct (set_stored (KEntry (a_length a + 1)) (bin_serialize (t, c)) (engine l) (a_key a)
    (a_key (with_entries a (a_entries a ++ [(t, c)]))) He Hs Hk Hf) as (e' & Hset & He' & Hs').
  { intros [i| |] Hk'; cbn; [|done..]. rewrite payload_at_app. unfold a_length.
    repeat case_decide; naive_solver. }
  erewrite M_bind_Ok by (by apply on_engine_Ok).
  erewrite M_bind_Ok by (by apply maybe_flush_Ok).
  erewrite M_bind_Ok by reflexivity. eexists. split; [done|].
  split; [done|]. split; [done|]. cbn. unfold a_length in *. cbn.
  rewrite length_app, last_snoc. cbn. split; [lia|]. split; [lia|]. done.
Qed.

Lemma log_commit_rep l a i : log_rep l a → i ≤ u64_max →
  (∀ t : N, eng_writable (key_bytes KCommitIndex) (bin_serialize (i, t))) →
  ∃ l', commit i l = ((spec_commit i a).1, l') ∧ log_rep l' (spec_commit i a).2.
Proof.
  intros Hr Hi Hf. pose proof Hr as (He & Hs & Hlen & Hli & Hlt & Hc).
  unfold commit, spec_commit. erewrite M_bind_Ok by reflexivity.
  assert (commit_index l = a_commit_index a) as Hci.
  { unfold a_commit_index. by rewrite <-Hc. }
  rewrite Hci. case_decide; [by exists l|].
  erewrite M_bind_Ok by (by apply log_get_rep).
  destruct (entry_at a i) as [e|] eqn:Ee; [|by exists l].
  assert (index e = i) as Hie.
  { unfold entry_at in Ee. apply fmap_Some in Ee as (p & _ & ->). done. }
  erewrite M_bind_Ok by (unfold lift; by rewrite log_encode_valid).
  destruct (set_stored KCommitIndex (bin_serialize (index e, term e)) (engine l) (a_key a)
    (a_key {| a_entries := a_entries a; a_commit := Some (i, term e); a_vote := a_vote a |})
    He Hs) as (e' & Hset & He' & Hs'); [done|rewrite Hie; apply Hf| |].
  { intros [j| |] Hk'; cbn; try done. by rewrite Hie. }
  erewrite M_bind_Ok by (by apply on_engine_Ok).
  erewrite M_bind_Ok by (by apply maybe_flush_Ok).
  erewrite M_bind_Ok by reflexivity. eexists. split; [done|].
  do 5 (split; [done|]). unfold get_commit_index. cbn. by rewrite Hie.
Qed.

Lemma has_rep l a i t : log_rep l a → i ≤ u64_max → has i t l = (Ok (spec_has i t a), l).
Proof. intros Hr Hi. unfold has. by erewrite M_bind_Ok by (by apply log_get_rep). Qed.

Lemma get_term_rep l a : log_rep l a → get_term l = (Ok (default (0, None) (a_vote a)), l).
Proof.
  intros (He & Hs & _). unfold get_term.
  erewrite M_bind_Ok by (unfold lift; by rewrite log_encode_valid).
  erewrite M_bind_Ok by (apply on_engine_Ok, (get_stored KTermVote); done).
  rewrite with_engine_self. cbn [a_key]. unfold lift.
  destruct (a_vote a) as [v|]; cbn; [|done]. by rewrite bin_roundtrip.
Qed.

Lemma set_term_rep l a t v : log_rep l a →
  eng_writable (key_bytes KTermVote) (bin_serialize (t, v)) →
  ∃ l', set_term t v l = (Ok tt, l') ∧
    log_rep l' {| a_entries := a_entries a; a_commit := a_commit a; a_vote := Some (t, v) |}.
Proof.
  intros (He & Hs & Hlen & Hli & Hlt & Hc) Hf. unfold set_term.
  erewrite M_bind_Ok by (unfold lift; by rewrite log_encode_valid).
  destruct (set_stored KTermVote (bin_serialize (t, v)) (engine l) (a_key a)
    (a_key {| a_entries := a_entries a; a_commit := a_commit a; a_vote := Some (t, v) |})
    He Hs) as (e' & Hset & He' & Hs'); [done|done| |].
  { by intros [j| |] Hk'; cbn. }
  erewrite M_bind_Ok by (by apply on_engine_Ok). rewrite maybe_flush_Ok by done.
  eexists. split; [done|]. done.
Qed.

(** ** Scans *)

Definition bound_key (b : Bound N) : Bound bytes :=
  match b with
  | Included i => Included (key_bytes (KEntry i))
  | Excluded i => Excluded (key_bytes (KEntry i))
  | Unbounded => Unbounded
  end.

Definition bounds_valid (r : Bound N * Bound N) : Prop :=
  match r.1 with Included i | Excluded i => i ≤ u64_max | Unbounded => True end ∧
  match r.2 with Included i | Excluded i => i ≤ u64_max | Unbounded => True end.

Lemma scan_keys_ok r : bounds_valid r →
  scan_keys r = Ok (bound_key (closed_range r).1, bound_key (closed_range r).2).
Proof.
  intros [H1' H2']. unfold scan_keys. destruct r as [[i|i|] [j|j|]]; cbn [fst snd] in *;
    rewrite ?log_encode_valid by done; cbn [mbind res_bind];
    rewrite ?log_encode_valid by done; done.
Qed.

Lemma log_kb_cmp (k k' : Key) : key_valid k → key_valid k' →
  bytes_cmp (key_bytes k) (key_bytes k') = compare_key k k'.
Proof. exact (key_bytes_cmp k k'). Qed.

Lemma scan_keys_range r k : bounds_valid r → key_valid k →
  in_range bytes_cmp (bound_key (closed_range r).1, bound_key (closed_range r).2) (key_bytes k) = true
  ↔ ∃ i, k = KEntry i ∧ in_range N.compare r i = true.
Proof.
  intros [Hb1 Hb2] Hk. unfold in_range. rewrite andb_true_iff. cbn [fst snd].
  assert (above bytes_cmp (bound_key (closed_range r).1) (key_bytes k) = true ↔
    match k with KEntry i => above N.compare r.1 i = true | _ => True end) as ->.
  { destruct r as [[i|i|] r2]; cbn [closed_range bound_key fst snd above] in *;
      rewrite log_kb_cmp by done; destruct k as [j| |]; cbn; try done. by destruct j. }
  assert (below bytes_cmp (bound_key (closed_range r).2) (key_bytes k) = true ↔
    match k with KEntry i => below N.compare r.2 i = true | _ => False end) as ->.
  { destruct r as [r1 [i|i|]]; cbn [closed_range bound_key fst snd below] in *;
      rewrite log_kb_cmp by done; destruct k as [j| |]; cbn [compare_key]; try done.
    cbn in Hk. destruct (N.compare_spec j u64_max); first [done|lia]. }
  destruct k as [j| |].
  - split.
    + intros [Ha Hb]. exists j. by rewrite Ha, Hb.
    + by intros (i & [= <-] & [Ha Hb]%andb_true_iff).
  - split; [by intros [_ []]|by intros (i & ? & _)].
  - split; [by intros [_ []]|by intros (i & ? & _)].
Qed.

Lemma scan_keys_valid r : bounds_valid r →
  range_valid bytes_cmp (bound_key (closed_range r).1, bound_key (closed_range r).2)
  = range_valid N.compare (closed_range r).
Proof.
  intros [Hb1 Hb2]. destruct r as [[i|i|] [j|j|]];
    cbn [closed_range bound_key fst snd range_valid] in *; by rewrite log_kb_cmp.
Qed.

Definition pairs es : list (N * (N * option bytes)) := imap (λ i p, (N.of_nat i + 1, p)) es.

Lemma elem_of_pairs es i p : (i, p) ∈ pairs es ↔ payload_at es i = Some p.
Proof.
  unfold pairs, payload_at. rewrite elem_of_lookup_imap. split.
  - intros (j & q & [= -> ->] & Hj). rewrite decide_False by lia.
    by replace (N.to_nat (N.of_nat j + 1) - 1)%nat with j by lia.
  - case_decide; [done|]. intros Hp. exists (N.to_nat i - 1)%nat, p. split; [|done].
    f_equal. lia.
Qed.

Lemma pairs_sorted es : bt_sorted N.compare (pairs es).
Proof.
  unfold pairs. assert (∀ n, bt_sorted N.compare (imap (λ i p, (N.of_nat (n + i) + 1, p)) es)) as Hs.
  { induction es as [|p es IH]; intros n; cbn [imap]; [constructor|]. constructor.
    - specialize (IH (S n)). eapply eq_rect; [exact IH|]. apply imap_ext. intros i q _. cbn.
      do 2 f_equal. lia.
    - apply Forall_forall. intros [j q] (k & q' & [= -> ->] & _)%elem_of_lookup_imap.
      unfold key_lt. cbn. apply N.compare_lt_iff. lia. }
  exact (Hs 0%nat).
Qed.

Lemma indexed_pairs es : indexed es = List.map (λ p, mk_entry p.1 p.2) (pairs es).
Proof.
  unfold indexed, pairs. symmetry.
  exact (fmap_imap (λ i p, (N.of_nat i + 1, p)) (λ p : N * (N * option bytes), mk_entry p.1 p.2) es).
Qed.

Lemma filter_map_comm {A B} (f : A → B) (P : B → bool) (l : list A) :
  List.filter P (List.map f l) = List.map f (List.filter (λ x, P (f x)) l).
Proof. induction l as [|x l IH]; cbn; [done|]. rewrite IH. by destruct (P (f x)). Qed.

Lemma entry_items l a (P : bytes → bool) r : log_rep l a →
  (∀ k, key_valid k → P (key_bytes k) = true ↔ ∃ i, k = KEntry i ∧ in_range N.compare r i = true) →
  List.filter (λ kv, P kv.1) (eng_view (engine l))
  = List.map (λ p, (key_bytes (KEntry p.1), bin_serialize p.2))
      (List.filter (λ p, in_range N.compare r p.1) (pairs (a_entries a))).
Proof.
  intros (He & Hs & Hlen & _) HP.
  destruct (scan_image (eng_view (engine l)) (a_key a) P
    (λ p : N * (N * option bytes), KEntry p.1) (λ p, bin_serialize p.2) Hs) as (ps & Heq & Hps).
  { intros k y Hk (i & -> & _)%HP Hget; [|done]. cbn in Hget.
    apply fmap_Some in Hget as (p & _ & ->). by exists (i, p). }
  { intros [i p] [j q] [= ->] Hx%(inj bin_serialize). cbn in Hx. by subst. }
  rewrite Heq. f_equal.
  assert (Forall (λ p : N * (N * option bytes), key_valid (KEntry p.1)) ps) as Hv.
  { apply Forall_forall. by intros p (Hp & _)%Hps. }
  apply (bt_ext N.compare).
  - pose proof (scan_image_sorted _ _ _ (λ p : N * (N * option bytes), KEntry p.1) _ ps Hs Heq Hv) as Hps'.
    eapply sorted_impl; [|exact Hps']. done.
  - apply filter_sorted, pairs_sorted.
  - intros i. apply option_eq. intros p. rewrite !(bt_get_spec N.compare).
    + rewrite Hps, elem_of_filter_bool, elem_of_pairs. cbn [fst snd a_key]. split.
      * intros (Hk & Hget & (j & [= <-] & Hr)%HP); [|done]. split; [|done].
        apply fmap_Some in Hget as (q & Hq & Hx%(inj bin_serialize)). by subst.
      * intros [Hp Hr]. assert (key_valid (KEntry i)) as Hk.
        { cbn. unfold payload_at in Hp. case_decide; [done|]. apply lookup_lt_Some in Hp.
          unfold a_length in Hlen. lia. }
        split; [done|]. rewrite Hp. split; [done|]. apply HP; eauto.
    + apply filter_sorted, pairs_sorted.
    + pose proof (scan_image_sorted _ _ _ (λ p : N * (N * option bytes), KEntry p.1) _ ps Hs Heq Hv) as Hps'.
      eapply sorted_impl; [|exact Hps']. done.
Qed.

Lemma decode_item i p : i ≤ u64_max →
  decode_entry (key_bytes (KEntry i)) (bin_serialize p) = Ok (mk_entry i p).
Proof.
  intros Hi. unfold decode_entry. rewrite log_decode_bytes by done. cbn [mbind res_bind].
  unfold decode_entry_value. rewrite bin_roundtrip. by destruct p.
Qed.

Lemma pairs_valid a i p : a_length a ≤ u64_max → (i, p) ∈ pairs (a_entries a) → i ≤ u64_max.
Proof.
  intros Hlen Hp%elem_of_pairs. unfold payload_at in Hp. case_decide; [done|].
  apply lookup_lt_Some in Hp. unfold a_length in Hlen. lia.
Qed.

Lemma scan_rep l a r : log_rep l a → bounds_valid r →
  scan r l = (List.map Ok <$> spec_scan r a, l).
Proof.
  intros Hr Hb. pose proof Hr as (He & Hs & Hlen & _). unfold scan, spec_scan.
  erewrite M_bind_Ok by (unfold lift; by rewrite scan_keys_ok).
  unfold mbind, M_bind. rewrite eng_scan_law by done. unfold bt_range.
  rewrite scan_keys_valid by done. destruct (range_valid N.compare (closed_range r)); [|done].
  cbn [fmap res_fmap]. unfold mret, M_ret. do 2 f_equal.
  rewrite (entry_items l a _ r Hr) by (intros; by apply scan_keys_range).
  rewrite indexed_pairs, filter_map_comm, !List.map_map. apply List.map_ext_in.
  intros [i p] Hin%list_elem_of_In. apply elem_of_filter_bool in Hin as [Hin _].
  apply decode_item. by eapply pairs_valid.
Qed.

(** ** Splice *)

(** The engine holds the entries [es], with the rest of [a]. *)
Definition holds_entries l a es : Prop :=
  eng_inv (engine l) ∧ stores (eng_view (engine l)) (a_key (with_entries a es)).

Definition same_fields l l' : Prop :=
  last_index l' = last_index l ∧ commit_index l' = commit_index l ∧
  commit_term l' = commit_term l ∧ sync l' = sync l.

Lemma write_entry_rep l a es e p : holds_entries l a es → (p ≤ length es)%nat →
  index e = N.of_nat p + 1 → index e ≤ u64_max → entry_fits (index e) (payload e) →
  ∃ l', write_entry e l = (Ok tt, l') ∧ holds_entries l' a (overwrite p [payload e] es) ∧
    same_fields l l'.
Proof.
  intros [He Hs] Hp Hi Hv Hf. unfold write_entry.
  erewrite M_bind_Ok by (unfold lift; by rewrite log_encode_valid).
  destruct (set_stored (KEntry (index e)) (bin_serialize (payload e)) (engine l) _
    (a_key (with_entries a (overwrite p [payload e] es))) He Hs Hv Hf) as (e' & Hset & He' & Hs').
  { intros [i| |] Hk'; cbn; [|done..]. rewrite payload_overwrite by done.
    destruct (decide (i = index e)) as [->|Hne].
    - by rewrite !decide_True by (done || lia).
    - by rewrite !decide_False by (congruence || lia). }
  erewrite on_engine_Ok by exact Hset. eexists. split; [done|]. done.
Qed.

Lemma write_entries_rep new l a es p : holds_entries l a es → (p ≤ length es)%nat →
  (∀ k e, new !! k = Some e → index e = N.of_nat (p + k) + 1) →
  Forall (λ e, index e ≤ u64_max ∧ entry_fits (index e) (payload e)) new →
  ∃ l', for_each new write_entry l = (Ok tt, l') ∧
    holds_entries l' a (overwrite p (List.map payload new) es) ∧ same_fields l l'.
Proof.
  revert l es p. induction new as [|e new IH]; intros l es p Hh Hp Hix Hf.
  - exists l. split; [done|]. split; [|done]. unfold overwrite. cbn [List.map app length].
    by rewrite Nat.add_0_r, take_drop.
  - apply Forall_cons in Hf as [[Hv Hfe] Hf].
    destruct (write_entry_rep l a es e p Hh Hp) as (l1 & Hw & Hh1 & Hsame); [|done|done|].
    { rewrite (Hix 0%nat e) by done. lia. }
    destruct (IH l1 (overwrite p [payload e] es) (S p) Hh1) as (l2 & Hw2 & Hh2 & Hsame2).
    + unfold overwrite. rewrite !length_app, length_take. cbn. lia.
    + intros k e' Hk. rewrite (Hix (S k) e') by done. lia.
    + done.
    + exists l2. cbn [for_each]. erewrite M_bind_Ok by exact Hw. split; [done|].
      split; [|destruct Hsame as (? & ? & ? & ?), Hsame2 as (? & ? & ? & ?);
        unfold same_fields; repeat split; congruence].
      cbn [List.map]. by rewrite <-overwrite_cons.
Qed.

Lemma for_each_delete ixs l : Forall (λ i, i ≤ u64_max) ixs →
  for_each ixs delete_entry l
  = (let '(r, e) := for_each (List.map (λ i, key_bytes (KEntry i)) ixs) eng_delete (engine l) in
     (r, with_engine l e)).
Proof.
  revert l. induction ixs as [|i ixs IH]; intros l Hv.
  - cbn. unfold mret, M_ret. by rewrite with_engine_self.
  - apply Forall_cons in Hv as [Hi Hv]. cbn [for_each List.map]. unfold mbind, M_bind.
    unfold delete_entry at 1. erewrite M_bind_Ok by (unfold lift; by rewrite log_encode_valid).
    unfold on_engine. destruct (eng_delete (key_bytes (KEntry i)) (engine l)) as [[[]|x|w] e1]; [|done..].
    rewrite IH by done. done.
Qed.

Lemma elem_of_index_range i lo hi : i ∈ index_range lo hi ↔ lo ≤ i ≤ hi.
Proof.
  unfold index_range. rewrite elem_of_map. setoid_rewrite elem_of_seq. split.
  - intros (k & -> & Hk). lia.
  - intros Hi. exists (N.to_nat (i - lo)). lia.
Qed.

(** Deleting the tail truncates the log. *)
Lemma delete_tail_rep l a es n m : holds_entries l a es → (n ≤ length es)%nat →
  m = N.of_nat (length es) ∨ (m < N.of_nat n + 1 ∧ length es = n) → m ≤ u64_max →
  ∃ l', for_each (index_range (N.of_nat n + 1) m) delete_entry l = (Ok tt, l') ∧
    holds_entries l' a (take n es) ∧ same_fields l l'.
Proof.
  intros [He Hs] Hn Hm Hmax.
  rewrite for_each_delete by (apply Forall_forall; intros i Hi%elem_of_index_range; lia).
  rewrite <-(List.map_map KEntry key_bytes).
  assert (∀ k, k ∈ List.map KEntry (index_range (N.of_nat n + 1) m) ↔
    ∃ i, k = KEntry i ∧ N.of_nat n + 1 ≤ i ≤ m) as Hks.
  { intros k. rewrite elem_of_map. by setoid_rewrite elem_of_index_range. }
  destruct (delete_keys_stored (List.map KEntry (index_range (N.of_nat n + 1) m)) (engine l) _
    (a_key (with_entries a (take n es))) He Hs) as (e' & Hdel & He' & Hs').
  - intros k (i & -> & Hi)%Hks. split; [cbn; lia|]. cbn. unfold payload_at.
    rewrite decide_False by lia. apply fmap_is_Some, lookup_lt_is_Some. lia.
  - intros k Hk. destruct k as [i| |]; cbn;
      [|rewrite decide_False; [done|rewrite Hks; intros (? & ? & _); discriminate]..].
    unfold payload_at. destruct (decide (i = 0)) as [->|Hi0].
    { by destruct (decide (KEntry 0 ∈ _)). }
    destruct (decide (i ≤ N.of_nat n)) as [Hle|Hgt].
    + rewrite lookup_take_lt by lia. rewrite decide_False; [done|].
      rewrite Hks. intros (j & [= <-] & ?). lia.
    + rewrite lookup_take_ge by lia. cbn. destruct (decide (KEntry i ∈ _)) as [|Hnot]; [done|].
      rewrite lookup_ge_None_2; [done|]. rewrite Hks in Hnot.
      destruct (decide (i ≤ m)); [destruct Hnot; exists i; split; [done|lia]|lia].
  - rewrite Hdel. eexists. split; [done|]. done.
Qed.

(** What the engine must be able to store. *)
Definition splice_fits (entries : list Entry) : Prop :=
  Forall (λ e, index e < u64_max ∧ entry_fits (index e) (payload e)) entries.

(** The part of [splice] after its checks. *)
Lemma splice_commit l a first rest n : log_rep l a →
  is_contiguous (first :: rest) = true → index first ≠ 0 → index first ≤ a_length a + 1 →
  let start := (N.to_nat (index first) - 1)%nat in
  n = matching (drop start (a_entries a)) (first :: rest) →
  splice_fits (first :: rest) →
  let final := default first (last (first :: rest)) in
  ∃ l1 l2, for_each (drop n (first :: rest)) write_entry l = (Ok tt, l1) ∧
    for_each (index_range (index final + 1) (a_length a)) delete_entry l1 = (Ok tt, l2) ∧
    eng_inv (engine l2) ∧ index final < u64_max ∧
    log_rep (with_last (index final) (term final) l2)
      (with_entries a (spliced (first :: rest) (a_entries a))).
Proof.
  intros Hr Hc Hpos Hle start Hn Hf final.
  pose proof Hr as (He & Hs & Hlen & Hli & Hlt & Hci).
  set (es := a_entries a) in *. unfold a_length in *. fold es in Hle, Hlen, Hli.
  pose proof (matching_le (drop start es) (first :: rest)) as [Hm1 Hm2]. rewrite <-Hn in Hm1, Hm2.
  rewrite length_drop in Hm1. cbn [length] in Hm2.
  pose proof (contiguous_last first rest Hc) as Hfin. fold final in Hfin.
  destruct (write_entries_rep (drop n (first :: rest)) l a es (start + n)) as (l1 & Hw & Hh1 & Hsame1).
  { split; [done|]. by destruct a. }
  { unfold start in *. lia. }
  { intros k e Hk. rewrite lookup_drop in Hk. rewrite (contiguous_lookup first rest _ _ Hc Hk).
    unfold start. lia. }
  { apply Forall_drop. eapply Forall_impl; [exact Hf|]. intros e [? ?]. split; [lia|done]. }
  set (es1 := overwrite _ _ es) in Hh1.
  assert (length es1 = Nat.max (length es) (start + S (length rest)))%nat as Hlen1.
  { unfold es1, overwrite. rewrite !length_app, length_take, !length_drop, List.length_map, length_drop.
    cbn [length]. unfold start in *. lia. }
  assert (take (start + S (length rest)) es1 = spliced (first :: rest) es) as Htake.
  { unfold es1, overwrite, spliced. fold start. rewrite <-Hn, app_assoc.
    apply take_app_length'. rewrite length_app, length_take, List.length_map, length_drop.
    cbn [length]. unfold start in *. lia. }
  assert (N.of_nat (start + S (length rest)) = index final) as Hend by (unfold start in *; lia).
  assert (index final < u64_max) as Hfm.
  { assert (final ∈ first :: rest) as Hin.
    { unfold final. destruct (last (first :: rest)) eqn:El; [|by apply last_None in El].
      by apply last_Some_elem_of in El. }
    unfold splice_fits in Hf. rewrite Forall_forall in Hf. by apply Hf in Hin as [? _]. }
  destruct (delete_tail_rep l1 a es1 (start + S (length rest)) (N.of_nat (length es)) Hh1)
    as (l2 & Hd & Hh2 & Hsame2); [lia|lia|lia|].
  rewrite Htake in Hh2. rewrite Hend in Hd. destruct Hh2 as [He2 Hs2].
  exists l1, l2. split; [done|]. split; [done|]. split; [done|]. split; [done|].
  destruct Hsame1 as (_ & Hc1 & Hc2 & _), Hsame2 as (_ & Hc3 & Hc4 & _).
  split; [done|]. split; [done|]. unfold a_length. cbn [a_entries with_entries].
  rewrite spliced_length, spliced_last by done. split; [unfold final in *; lia|].
  split; [done|]. split; [done|]. unfold get_commit_index in *. cbn. rewrite Hc3, Hc4, Hc1, Hc2. done.
Qed.

Lemma splice_rep l a entries : log_rep l a → a_length a < u64_max → splice_fits entries →
  ∃ l', splice entries l = ((spec_splice entries a).1, l') ∧ log_rep l' (spec_splice entries a).2.
Proof.
  intros Hr Hlt Hf. pose proof Hr as (He & Hs & Hlen & Hli & Hlterm & Hci).
  unfold splice, spec_splice. destruct entries as [|first rest].
  { unfold gets. rewrite Hli. by exists l. }
  erewrite M_bind_Ok by reflexivity. rewrite Hli.
  assert (∃ ok : bool, (if decide (index first = 0) then mret false
      else next ← lift (add_u64 (a_length a) 1); mret (bool_decide (index first ≤ next))) l = (Ok ok, l) ∧
      (ok = true ↔ ¬ (index first = 0 ∨ a_length a + 1 < index first))) as (ok & Hok & Hiff).
  { case_decide; [exists false; split; [done|]; split; [done|tauto]|].
    eexists. erewrite M_bind_Ok by (unfold lift, add_u64; rewrite decide_True by lia; reflexivity).
    split; [done|]. rewrite bool_decide_eq_true. lia. }
  erewrite M_bind_Ok by exact Hok. destruct ok; cbn [negb].
  2:{ rewrite decide_True; [by exists l|].
      destruct (decide (index first = 0 ∨ a_length a + 1 < index first)) as [|Hn]; [done|].
      by apply Hiff in Hn. }
  rewrite decide_False by (by apply Hiff).
  assert (Forall (λ e, index e < u64_max) (first :: rest)) as Hix.
  { eapply Forall_impl; [exact Hf|]. by intros e [? _]. }
  erewrite M_bind_Ok by (unfold lift; by rewrite contiguous_ok).
  destruct (is_contiguous (first :: rest)) eqn:Hc; cbn [negb]; [|by exists l].
  pose proof (proj1 Hiff eq_refl) as Hbounds.
  assert (index first ≠ 0 ∧ index first ≤ a_length a + 1) as [H0' Hle] by lia.
  pose proof (contiguous_last first rest Hc) as Hfin.
  set (start := (N.to_nat (index first) - 1)%nat).
  set (n := matching (drop start (a_entries a)) (first :: rest)).
  destruct (splice_commit l a first rest n Hr Hc H0' Hle eq_refl Hf)
    as (l1 & l2 & Hw & Hd & He2 & Hmax & Hr').
  set (final := default first (last (first :: rest))) in *.
  erewrite M_bind_Ok.
  2:{ rewrite (scan_rep l a) by (done || (split; cbn; lia)). unfold spec_scan.
      assert (range_valid N.compare
        (closed_range (Included (index first), Included (index final))) = true) as ->.
      { cbn. destruct (N.compare_spec (index first) (index final)); first [done|lia]. }
      rewrite indexed_from_1, filter_indexed by lia. reflexivity. }
  erewrite M_bind_Ok.
  2:{ unfold lift. cbn [fmap res_fmap]. replace (N.to_nat (index final + 1 - index first)) with
        (length (first :: rest)) by (cbn; lia).
      replace (N.to_nat (index first - 1)) with start by (unfold start; lia).
      rewrite skip_indexed. fold n. reflexivity. }
  erewrite M_bind_Ok by reflexivity.
  assert (commit_index l = a_commit_index a) as -> by (unfold a_commit_index; by rewrite <-Hci).
  destruct (match drop n (first :: rest) with [] => false | e :: _ => _ end); [by exists l|].
  erewrite M_bind_Ok by exact Hw.
  erewrite M_bind_Ok by (unfold lift, add_u64; rewrite decide_True by lia; reflexivity).
  erewrite M_bind_Ok by exact Hd.
  erewrite M_bind_Ok by (by apply maybe_flush_Ok).
  erewrite M_bind_Ok by reflexivity. eexists. split; [done|]. done.
Qed.

(** ** Opening *)

Lemma entry_prefix_ok : encode_entry_prefix = Ok [n2b 0].
Proof. done. Qed.

(** Reopening the engine of a log gives the same log. *)
Lemma new_rep l a s : log_rep l a →
  log_new (engine l) s = Ok {| engine := engine l; last_index := last_index l;
    last_term := last_term l; commit_index := commit_index l; commit_term := commit_term l;
    sync := s |}.
Proof.
  intros Hr. pose proof Hr as (He & Hs & Hlen & Hli & Hlt & Hc). unfold log_new.
  rewrite entry_prefix_ok. cbn [mbind res_bind]. rewrite scan_prefix_law by done.
  rewrite (entry_items l a _ (Unbounded, Unbounded) Hr).
  2:{ intros k Hk. rewrite in_prefix_range. cbn [key_bytes log_key]. split.
      - intros [r [= Hx _]]. destruct k; try done. eauto.
      - intros (i & -> & _). by eexists. }
  assert (List.filter (λ p : N * (N * option bytes), in_range N.compare (Unbounded, Unbounded) p.1)
    (pairs (a_entries a)) = pairs (a_entries a)) as ->.
  { generalize (pairs (a_entries a)). intros ps. by induction ps as [|p ps IH]; cbn; [|f_equal]. }
  cbn [mbind res_bind]. rewrite !last_map.
  assert (last (pairs (a_entries a)) = (λ p, (a_length a, p)) <$> last (a_entries a)) as ->.
  { unfold pairs, a_length. induction (a_entries a) as [|p es _] using rev_ind; [done|].
    rewrite imap_app, last_snoc, length_app. cbn. rewrite last_snoc. cbn. do 2 f_equal. lia. }
  rewrite log_encode_valid by done.
  assert (match a_commit a with Some v => v | None => (0, 0) end = get_commit_index l) as Hci.
  { rewrite Hc. by destruct (a_commit a). }
  unfold get_commit_index in Hci.
  assert (∀ li lt, (li, lt) = (last_index l, last_term l) →
    (let '(o, e) := eng_get (key_bytes KCommitIndex) (engine l) in
     o ← o; '(ci, ct) ← match o with Some v => bin_deserialize (A:=N * N) v | None => Ok (0, 0) end;
     Ok {| engine := e; last_index := li; last_term := lt;
           commit_index := ci; commit_term := ct; sync := s |})
    = Ok {| engine := engine l; last_index := last_index l; last_term := last_term l;
            commit_index := commit_index l; commit_term := commit_term l; sync := s |}) as Hrest.
  { intros li lt [= -> ->]. rewrite (get_stored KCommitIndex _ (a_key a)) by done. cbn [a_key].
    destruct (a_commit a) as [[ci ct]|]; cbn [fmap option_fmap option_map mbind res_bind].
    - rewrite bin_roundtrip. cbn [mbind res_bind]. by injection Hci as -> ->.
    - cbn [mbind res_bind]. by injection Hci as <- <-. }
  destruct (last (a_entries a)) as [[t c]|] eqn:El; cbn [fmap option_fmap option_map mbind res_bind fst snd].
  - rewrite decode_item by done. cbn [mbind res_bind index term mk_entry fst].
    apply Hrest. rewrite Hli, Hlt, ?El. done.
  - apply Hrest. rewrite Hli, Hlt, ?El. apply last_None in El. unfold a_length. by rewrite El.
Qed.
End rep.
