(* ===== verification/RaftLogClaims.v ===== *)
(** What the Raft log guarantees: it is the list of entries that its operations
    describe, it survives a restart, and splicing follows the rule its
    documentation states except when nothing new is spliced. *)
From Stdlib Require Import Strings.Byte NArith Lia Sorting.Sorted.
From stdpp Require Import base list strings sorting.
From S2P Require Import Prelude BTreeMap KeyCode Engine KeyStore Memory Bincode RaftLog RaftLogSpec.

#[local] Opaque to_be.

(** * Runs *)

(** Calls on a log; [LReopen] drops it and opens its engine again. *)
Inductive LogCmd :=
| LAppend (t : N) (c : option bytes)
| LCommit (i : N)
| LGet (i : N)
| LHas (i t : N)
| LScan (range : Bound N * Bound N)
| LSplice (entries : list Entry)
| LGetTerm
| LSetTerm (t : N) (voted_for : option N)
| LLast
| LReopen (sync : bool).

Inductive LogReply :=
| LUnit
| LIndex (i : N)
| LEntry (e : option Entry)
| LBool (b : bool)
| LEntries (es : list (res Entry))
| LTerm (tv : N * option N)
| LEnds (last commit : N * N).

Section run.
Context {E : Type} `{Engine E}.
Context `{Bincode (N * option bytes), Bincode (N * N), Bincode (N * option N)}.

Definition reply {A} (f : A → LogReply) (m : M (Log E) A) (l : Log E) : res LogReply * Log E :=
  let '(r, l) := m l in (f <$> r, l).

Definition run_log (c : LogCmd) (l : Log E) : res LogReply * Log E :=
  match c with
  | LAppend t c => reply LIndex (append t c) l
  | LCommit i => reply LIndex (commit i) l
  | LGet i => reply LEntry (get i) l
  | LHas i t => reply LBool (has i t) l
  | LScan r => reply LEntries (scan r) l
  | LSplice es => reply LIndex (splice es) l
  | LGetTerm => reply LTerm get_term l
  | LSetTerm t v => reply (λ _, LUnit) (set_term t v) l
  | LLast => (Ok (LEnds (get_last_index l) (get_commit_index l)), l)
  | LReopen s =>
      match log_new (engine l) s with
      | Ok l' => (Ok LUnit, l')
      | Err x => (Err x, l)
      | Panic w => (Panic w, l)
      end
  end.

Fixpoint run_logs (cs : list LogCmd) (l : Log E) : list (res LogReply) * Log E :=
  match cs with
  | [] => ([], l)
  | c :: cs =>
      let '(r, l) := run_log c l in
      let '(rs, l) := run_logs cs l in (r :: rs, l)
  end.
End run.

Definition spec_log (c : LogCmd) (a : ALog) : res LogReply * ALog :=
  match c with
  | LAppend t c => (fmap (M:=res) LIndex (spec_append t c a).1, (spec_append t c a).2)
  | LCommit i => (fmap (M:=res) LIndex (spec_commit i a).1, (spec_commit i a).2)
  | LGet i => (Ok (LEntry (entry_at a i)), a)
  | LHas i t => (Ok (LBool (spec_has i t a)), a)
  | LScan r => (fmap (M:=res) (λ es, LEntries (List.map Ok es)) (spec_scan r a), a)
  | LSplice es => (fmap (M:=res) LIndex (spec_splice es a).1, (spec_splice es a).2)
  | LGetTerm => (Ok (LTerm (default (0, None) (a_vote a))), a)
  | LSetTerm t v =>
      (Ok LUnit, {| a_entries := a_entries a; a_commit := a_commit a; a_vote := Some (t, v) |})
  | LLast => (Ok (LEnds (a_length a, default 0 (fst <$> last (a_entries a)))
                        (default (0, 0) (a_commit a))), a)
  | LReopen _ => (Ok LUnit, a)
  end.

Fixpoint spec_logs (cs : list LogCmd) (a : ALog) : list (res LogReply) * ALog :=
  match cs with
  | [] => ([], a)
  | c :: cs =>
      let '(r, a) := spec_log c a in
      let '(rs, a) := spec_logs cs a in (r :: rs, a)
  end.

(** The documented rule: entries that are in the log are skipped; from the first
    that is not, they replace the rest of the log. *)
Definition all_present (entries : list Entry) (es : list (N * option bytes)) : Prop :=
  match entries with
  | [] => True
  | first :: _ =>
      matching (drop (N.to_nat (index first) - 1) es) entries = length entries
  end.
#[export] Instance all_present_dec entries es : Decision (all_present entries es).
Proof. unfold all_present. destruct entries; apply _. Defined.

Definition documented (entries : list Entry) (es : list (N * option bytes)) : list (N * option bytes) :=
  if decide (all_present entries es) then es else spliced entries es.

(** Nothing to do, but the log is longer. *)
Definition redundant (entries : list Entry) (es : list (N * option bytes)) : Prop :=
  match entries with
  | [] => False
  | first :: _ =>
      all_present entries es ∧ index (default first (last entries)) < N.of_nat (length es)
  end.

Lemma spec_splice_Ok entries a i : (spec_splice entries a).1 = Ok i →
  a_entries (spec_splice entries a).2 = spliced entries (a_entries a) ∧
  match entries with
  | [] => True
  | first :: _ => is_contiguous entries = true ∧ index first ≠ 0 ∧ index first ≤ a_length a + 1
  end.
Proof.
  unfold spec_splice. destruct entries as [|first rest]; [done|].
  case_decide as Hb; [done|]. destruct (is_contiguous (first :: rest)); [|done]. cbn [negb].
  destruct (match drop _ _ with [] => false | e :: _ => _ end); [done|]. intros _. cbn.
  split; [done|]. split; [done|]. lia.
Qed.

(** When nothing is lost, splicing present entries changes nothing. *)
Lemma spliced_present first rest es : is_contiguous (first :: rest) = true → index first ≠ 0 →
  all_present (first :: rest) es →
  spliced (first :: rest) es
  = take (N.to_nat (index (default first (last (first :: rest))))) es.
Proof.
  intros Hc H0 Hp. rewrite contiguous_last by done. unfold spliced. rewrite Hp.
  rewrite drop_ge by done. cbn [List.map length]. rewrite app_nil_r. f_equal. lia.
Qed.

#[export] Instance mk_entry_inj i : Inj (=) (=) (mk_entry i).
Proof. intros [] [] [=]. cbn in *. by subst. Qed.

Lemma payloads_eq es es' : es = es' ↔ ∀ i, payload_at es i = payload_at es' i.
Proof.
  split; [by intros ->|]. intros Heq. apply list_eq. intros k.
  specialize (Heq (N.of_nat k + 1)). unfold payload_at in Heq.
  rewrite !decide_False in Heq by lia.
  by replace (N.to_nat (N.of_nat k + 1) - 1)%nat with k in Heq by lia.
Qed.

Lemma spliced_documented entries a i : (spec_splice entries a).1 = Ok i →
  spliced entries (a_entries a) = documented entries (a_entries a) ↔
  ¬ redundant entries (a_entries a).
Proof.
  intros [_ Hb]%spec_splice_Ok. unfold documented. destruct entries as [|first rest].
  { cbn. rewrite decide_True by done. tauto. }
  destruct Hb as (Hc & H0 & Hle). case_decide as Hp; cbn [redundant]; [|tauto].
  rewrite spliced_present by done. set (n := index _).
  split.
  - intros Heq [_ Hlt]. apply (f_equal length) in Heq. rewrite length_take in Heq. lia.
  - intros Hn. apply take_ge. destruct (decide (n < N.of_nat (length (a_entries a)))); [tauto|lia].
Qed.

Section claims.
Context {E : Type} `{EngineLaws E}.
Context `{BincodeLaws (N * option bytes), BincodeLaws (N * N), BincodeLaws (N * option N)}.

(** Indexes are 64-bit and what is written is within the engine's limits. *)
Definition log_fits (a : ALog) (c : LogCmd) : Prop :=
  match c with
  | LAppend t c => a_length a < u64_max ∧ entry_fits (E:=E) (a_length a + 1) (t, c)
  | LCommit i => i ≤ u64_max ∧
      ∀ t : N, eng_writable (E:=E) (key_bytes KCommitIndex) (bin_serialize (i, t))
  | LGet i | LHas i _ => i ≤ u64_max
  | LScan r => bounds_valid r
  | LSplice es => a_length a < u64_max ∧ splice_fits (E:=E) es
  | LSetTerm t v => eng_writable (E:=E) (key_bytes KTermVote) (bin_serialize (t, v))
  | LGetTerm | LLast | LReopen _ => True
  end.

Fixpoint all_fit (a : ALog) (cs : list LogCmd) : Prop :=
  match cs with
  | [] => True
  | c :: cs => log_fits a c ∧ all_fit (spec_log c a).2 cs
  end.

Lemma run_log_rep (l : Log E) a c : log_rep l a → log_fits a c →
  ∃ l', run_log c l = ((spec_log c a).1, l') ∧ log_rep l' (spec_log c a).2.
Proof.
  intros Hr Hf. destruct c; cbn [run_log spec_log log_fits fst snd] in *; unfold reply.
  - destruct Hf as [Hn Hf]. destruct (append_rep l a t c Hr Hn Hf) as (l' & -> & Hr'). eauto.
  - destruct Hf as [Hn Hf]. destruct (log_commit_rep l a i Hr Hn Hf) as (l' & -> & Hr'). eauto.
  - rewrite (log_get_rep l a) by done. eauto.
  - rewrite (has_rep l a) by done. eauto.
  - rewrite (scan_rep l a) by done. exists l. split; [|done]. by destruct (spec_scan range a).
  - destruct Hf as [Hn Hf]. destruct (splice_rep l a entries Hr Hn Hf) as (l' & -> & Hr'). eauto.
  - rewrite (get_term_rep l a) by done. eauto.
  - destruct (set_term_rep l a t voted_for Hr Hf) as (l' & -> & Hr'). eauto.
  - pose proof Hr as (_ & _ & _ & Hli & Hlt & Hc). unfold get_last_index. rewrite Hli, Hlt, Hc. eauto.
  - rewrite (new_rep l a) by done. eexists. split; [done|].
    by destruct Hr as (? & ? & ? & ? & ? & ?).
Qed.

Lemma run_logs_rep cs (l : Log E) a : log_rep l a → all_fit a cs →
  ∃ l', run_logs cs l = ((spec_logs cs a).1, l') ∧ log_rep l' (spec_logs cs a).2.
Proof.
  revert l a. induction cs as [|c cs IH]; intros l a Hr Hf; [by exists l|].
  destruct Hf as [Hf Hfs]. cbn [run_logs spec_logs].
  destruct (run_log_rep l a c Hr Hf) as (l1 & -> & Hr1).
  destruct (spec_log c a) as [r a1]. cbn [fst snd] in *.
  destruct (IH l1 a1 Hr1 Hfs) as (l2 & -> & Hr2).
  destruct (spec_logs cs a1) as [rs a2]. cbn [fst snd] in *. eauto.
Qed.

Lemma new_empty (e : E) s : eng_inv e → eng_view e = [] →
  ∃ l, log_new e s = Ok l ∧ log_rep l empty_alog.
Proof.
  intros He Hv.
  pose proof (empty_rep e s He Hv) as Hr.
  eexists. split; [|exact Hr]. exact (new_rep _ empty_alog s Hr).
Qed.

(** C4. Every sequence of Raft log calls (append, commit, get, has, scan,
    splice, get_term, set_term, reopening) returns what the same calls on a
    plain list of entries with a commit index and a vote return. *)
Theorem log_refines_list (e : E) (s : bool) (cs : list LogCmd) :
  eng_inv e → eng_view e = [] → all_fit empty_alog cs →
  ∃ l, log_new e s = Ok l ∧ (run_logs cs l).1 = (spec_logs cs empty_alog).1.
Proof.
  intros He Hv Hf. destruct (new_empty e s He Hv) as (l & Hl & Hr). exists l. split; [done|].
  by destruct (run_logs_rep cs l empty_alog Hr Hf) as (l' & -> & _).
Qed.

(** Reopening a Raft log after any sequence of calls restores its last index and
    term and its commit index and term. *)
Theorem log_reopen (e : E) (s s' : bool) (cs : list LogCmd) l :
  eng_inv e → eng_view e = [] → all_fit empty_alog cs → log_new e s = Ok l →
  let l' := (run_logs cs l).2 in
  log_new (engine l') s' = Ok {| engine := engine l'; last_index := last_index l';
    last_term := last_term l'; commit_index := commit_index l'; commit_term := commit_term l';
    sync := s' |}.
Proof.
  intros He Hv Hf Hl. destruct (new_empty e s He Hv) as (l0 & Hl0 & Hr).
  rewrite Hl in Hl0. injection Hl0 as <-.
  destruct (run_logs_rep cs l empty_alog Hr Hf) as (l' & -> & Hr'). cbn. by eapply new_rep.
Qed.

Lemma all_fit_app a cs cs' :
  all_fit a (cs ++ cs') ↔ all_fit a cs ∧ all_fit (spec_logs cs a).2 cs'.
Proof.
  revert a. induction cs as [|c cs IH]; intros a; cbn [app all_fit spec_logs]; [naive_solver|].
  destruct (spec_log c a) as [r a1]. cbn [snd]. rewrite IH.
  destruct (spec_logs cs a1). cbn [snd]. tauto.
Qed.

Lemma payload_width l a j p : log_rep (E:=E) l a → payload_at (a_entries a) j = Some p → j ≤ u64_max.
Proof.
  intros (_ & _ & Hlen & _) Hp. unfold payload_at in Hp. case_decide; [done|].
  apply lookup_lt_Some in Hp. unfold a_length in Hlen. lia.
Qed.

(** Splicing follows its documented rule (append what is missing, replace from
    the first term mismatch on) exactly when the entries are not all in the log
    already with more entries after them. *)
Theorem splice_rule (e : E) (s : bool) (cs : list LogCmd) (entries : list Entry) l i :
  let l1 := (run_logs cs l).2 in
  let es := a_entries (spec_logs cs empty_alog).2 in
  let l2 := (splice entries l1).2 in
  eng_inv e → eng_view e = [] → all_fit empty_alog (cs ++ [LSplice entries]) →
  log_new e s = Ok l → (splice entries l1).1 = Ok i →
  (∀ j, j ≤ u64_max → (get j l2).1 = Ok (mk_entry j <$> payload_at (documented entries es) j)) ↔
  ¬ redundant entries es.
Proof.
  intros l1 es l2 He Hv [Hf [[Hlen Hsf] _]]%all_fit_app Hl Hi.
  destruct (new_empty e s He Hv) as (l0 & Hl0 & Hr). rewrite Hl in Hl0. injection Hl0 as <-.
  destruct (run_logs_rep cs l empty_alog Hr Hf) as (l1' & Hrun & Hr1).
  assert (l1 = l1') as <- by (unfold l1; by rewrite Hrun).
  set (a := (spec_logs cs empty_alog).2) in *.
  destruct (splice_rep l1 a entries Hr1 Hlen Hsf) as (l2' & Hsp & Hr2).
  assert (l2 = l2') as <- by (unfold l2; by rewrite Hsp).
  rewrite Hsp in Hi. cbn [fst] in Hi. unfold es.
  fold a. rewrite <-(spliced_documented entries a i Hi).
  pose proof (spec_splice_Ok entries a i Hi) as [Hes _].
  rewrite payloads_eq. split.
  - intros Hget j. destruct (decide (j ≤ u64_max)) as [Hj|Hj].
    + specialize (Hget j Hj). rewrite (log_get_rep l2 _ j Hr2 Hj) in Hget. cbn [fst] in Hget.
      unfold entry_at in Hget. rewrite Hes in Hget. injection Hget as Hget.
      by apply (inj (fmap (M:=option) (mk_entry j))) in Hget.
    + rewrite <-Hes. destruct (payload_at (a_entries (spec_splice entries a).2) j) eqn:Ej.
      { by apply (payload_width l2) in Ej. }
      unfold documented. case_decide; [|rewrite <-Hes; done].
      destruct (payload_at (a_entries a) j) eqn:Ej'; [|done]. by apply (payload_width l1) in Ej'.
  - intros Heq j Hj. rewrite (log_get_rep l2 _ j Hr2 Hj). cbn [fst]. unfold entry_at.
    by rewrite Hes, Heq.
Qed.
End claims.

(** * Examples *)

Section examples.
#[local] Instance bin_payload : Bincode (N * option bytes) := countable_bincode (N * option bytes).
#[local] Instance bin_index_term : Bincode (N * N) := countable_bincode (N * N).
#[local] Instance bin_term_vote : Bincode (N * option N) := countable_bincode (N * option N).
#[local] Instance bin_payload_laws : BincodeLaws (N * option bytes) :=
  countable_bincode_laws (N * option bytes).
#[local] Instance bin_index_term_laws : BincodeLaws (N * N) := countable_bincode_laws (N * N).
#[local] Instance bin_term_vote_laws : BincodeLaws (N * option N) := countable_bincode_laws (N * option N).

Definition sample_log : list LogCmd :=
  [LAppend 1 None; LAppend 1 (Some [x01]); LCommit 1; LAppend 2 (Some [x02]); LSetTerm 2 (Some 3)].

Definition new_log : Log Memory := {|
  engine := Memory.new; last_index := 0; last_term := 0; commit_index := 0; commit_term := 0;
  sync := true |}.

Lemma memory_log_inv : eng_inv Memory.new.
Proof. constructor. Qed.

(** The in-memory engine has no size limits. *)
Definition bound_fits (b : Bound N) : bool :=
  match b with Included i | Excluded i => i <=? u64_max | Unbounded => true end.
Definition memory_fits (a : ALog) (c : LogCmd) : bool :=
  match c with
  | LAppend _ _ => a_length a <? u64_max
  | LCommit i | LGet i | LHas i _ => i <=? u64_max
  | LScan r => bound_fits r.1 && bound_fits r.2
  | LSplice es => (a_length a <? u64_max) && forallb (λ e, index e <? u64_max) es
  | _ => true
  end.
Fixpoint memory_all_fit (a : ALog) (cs : list LogCmd) : bool :=
  match cs with
  | [] => true
  | c :: cs => memory_fits a c && memory_all_fit (spec_log c a).2 cs
  end.

Lemma bound_fits_ok b : bound_fits b = true →
  match b with Included i | Excluded i => i ≤ u64_max | Unbounded => True end.
Proof. by destruct b; cbn [bound_fits]; rewrite ?N.leb_le. Qed.

Lemma memory_all_fit_ok a cs : memory_all_fit a cs = true → all_fit (E:=Memory) a cs.
Proof.
  revert a. induction cs as [|c cs IH]; intros a; [done|]. cbn [memory_all_fit all_fit].
  rewrite andb_true_iff. intros [Hf Hfs]. split; [|by apply IH]. clear IH Hfs.
  destruct c; cbn [memory_fits log_fits] in *;
    rewrite ?N.leb_le, ?N.ltb_lt, ?andb_true_iff in Hf; try done.
  - destruct Hf as [Hf1%bound_fits_ok Hf2%bound_fits_ok]. done.
  - destruct Hf as [Hf1%N.ltb_lt Hf2]. split; [done|]. apply Forall_forall. intros e He.
    rewrite List.forallb_forall in Hf2. split; [|done]. by apply N.ltb_lt, Hf2, list_elem_of_In.
Qed.

Lemma log_refines_list_witness :
  let cs := sample_log ++ [LSplice [{| index := 2; term := 3; command := None |}]; LGet 3;
              LReopen false; LScan (Unbounded, Unbounded); LCommit 4; LLast] in
  ∃ l, log_new Memory.new true = Ok l ∧ (run_logs cs l).1 = (spec_logs cs empty_alog).1.
Proof.
  apply (log_refines_list Memory.new true); [apply memory_log_inv|reflexivity|].
  apply memory_all_fit_ok. vm_compute. reflexivity.
Defined.

Lemma log_reopen_witness :
  let l' := (run_logs sample_log new_log).2 in
  log_new (engine l') false = Ok {| engine := engine l'; last_index := 3; last_term := 2;
    commit_index := 1; commit_term := 1; sync := false |}.
Proof.
  refine (log_reopen Memory.new true false sample_log new_log _ _ _ _).
  - apply memory_log_inv.
  - reflexivity.
  - apply memory_all_fit_ok. vm_compute. reflexivity.
  - reflexivity.
Defined.

Lemma splice_rule_witness :
  let entries := [{| index := 2; term := 1; command := Some [x01] |};
                  {| index := 3; term := 3; command := None |}] in
  let l2 := (splice entries (run_logs sample_log new_log).2).2 in
  (get 3 l2).1 = Ok (Some {| index := 3; term := 3; command := None |}).
Proof.
  intros entries l2.
  refine (proj2 (splice_rule Memory.new true sample_log entries new_log 3 _ _ _ _ _) _ 3 _).
  - apply memory_log_inv.
  - reflexivity.
  - apply memory_all_fit_ok. vm_compute. reflexivity.
  - reflexivity.
  - vm_compute. reflexivity.
  - intros [Hall _]. vm_compute in Hall. discriminate.
  - vm_compute. discriminate.
Defined.

(** Splicing one entry that the log already has deletes the entries after it,
    committed ones included, and leaves the commit index beyond the end of the
    log. *)
Theorem splice_drops_committed :
  let cs := [LAppend 1 None; LAppend 1 (Some [x01]); LAppend 1 (Some [x02]); LCommit 3] in
  let l1 := (run_logs cs new_log).2 in
  let l2 := (splice [{| index := 1; term := 1; command := None |}] l1).2 in
  commit_index l1 = 3 ∧ (get 3 l1).1 = Ok (Some {| index := 3; term := 1; command := Some [x02] |}) ∧
  (splice [{| index := 1; term := 1; command := None |}] l1).1 = Ok 1 ∧
  commit_index l2 = 3 ∧ last_index l2 = 1 ∧ (get 3 l2).1 = Ok None.
Proof. vm_compute. repeat split. Qed.
End examples.
