(* ===== verification/RaftNode.v ===== *)
(** Raft nodes (src/src/raft/message.rs, state.rs and node/): messages, the
    three roles, and how a node handles messages and clock ticks.

    The source encodes the role in the node's type, [RawNode<Role>]: methods
    consume a node and return one with another role.  Here [RawNode] is what all
    roles share; a method of [RawNode<R>] is a computation on it that takes the
    role by value and returns the role it ends with.  Sending a message appends
    it to [node_tx], which has a live receiver and does not fail.  The random
    election timeouts of the rand crate are the parameter [rand_timeout]. *)
From Stdlib Require Import Strings.Byte NArith Lia.
From stdpp Require Import base list gmap strings sorting.
From S2P Require Import Prelude BTreeMap KeyCode Engine Bincode RaftLog.

(** * Messages (message.rs) *)

Inductive Request :=
| ReqRead (command : bytes)
| ReqWrite (command : bytes)
| ReqStatus.

(** [raft::Status]. *)
Record RaftStatus := {
  rs_leader : N;
  rs_term : N;
  rs_last_index : gmap N N;
  rs_commit_index : N;
  rs_apply_index : N;
  rs_storage : Engine.Status
}.

Inductive Response :=
| RespRead (result : bytes)
| RespWrite (result : bytes)
| RespStatus (status : RaftStatus).

Inductive Message :=
| Heartbeat (commit_index commit_term read_seq : N)
| HeartbeatResponse (last_index last_term read_seq : N)
| Campaign (last_index last_term : N)
| CampaignResponse (vote : bool)
| Append (base_index base_term : N) (entries : list Entry)
| AppendResponse (reject : bool) (last_index last_term : N)
| ClientRequest (id : bytes) (request : Request)
| ClientResponse (id : bytes) (response : res Response).

Record Envelope := { from : N; to : N; msg_term : N; message : Message }.

(** * The state machine (state.rs) *)

Class State (S : Type) := {
  get_applied_index : S → N;
  apply_entry : Entry → M S bytes;
  read_state : bytes → S → res bytes
}.

(** * Roles *)

Definition HEARTBEAT_INTERVAL : N := 3.

Record Candidate := {
  votes : gset N;
  election_duration : N;
  c_election_timeout : N
}.

Record Follower := {
  leader : option N;
  leader_seen : N;
  f_election_timeout : N;
  voted_for : option N;
  forwarded : gset bytes
}.

Record Progress := { next : N; last_replicated : N; p_read_seq : N }.
Record Write := { w_from : N; w_id : bytes }.
Record Read := { seq : N; r_from : N; r_id : bytes; r_command : bytes }.

Record Leader := {
  progress : gmap N Progress;
  l_writes : gmap N Write;
  reads : list Read;
  read_seq : N;
  since_heartbeat : N
}.

(** [Node]: the role that a node is in. *)
Inductive Role :=
| RCandidate (c : Candidate)
| RFollower (f : Follower)
| RLeader (l : Leader).

(** * Quorums (node/mod.rs) *)

Definition quorum_size (size : N) : N := size / 2 + 1.

(** [x as u8], and checked addition. *)
Definition as_u8 (n : N) : N := n mod 256.
Definition add_u8 (a b : N) : res N :=
  if decide (a + b ≤ u8_max) then Ok (a + b) else Panic "attempt to add with overflow".

(** The value at the quorum's position in descending order
    ([select_nth_unstable_by]). *)
Definition ge_N (a b : N) : Prop := b ≤ a.
#[export] Instance ge_N_dec a b : Decision (ge_N a b) := N.le_dec b a.
Definition quorum_value (values : list N) : res N :=
  match values with
  | [] => Panic "no values provided"
  | _ =>
      match merge_sort ge_N values
            !! (N.to_nat (quorum_size (as_u8 (N.of_nat (length values)))) - 1)%nat with
      | Some v => Ok v
      | None => Panic "partition_at_index index greater than length of slice"
      end
  end.

Section node.
Context {E : Type} `{Engine E}.
Context `{Bincode (N * option bytes), Bincode (N * N), Bincode (N * option N)}.
Context {S : Type} `{State S}.
Context (rand_timeout : nat → N).

(** [RawNode] without its role; [draws] counts the random numbers drawn. *)
Record RawNode := {
  id : N;
  peers : gset N;
  term : N;
  log : Log E;
  state : S;
  node_tx : list Envelope;
  draws : nat
}.

Definition with_term (t : N) (n : RawNode) : RawNode := {|
  id := id n; peers := peers n; term := t; log := log n; state := state n;
  node_tx := node_tx n; draws := draws n |}.
Definition with_log (l : Log E) (n : RawNode) : RawNode := {|
  id := id n; peers := peers n; term := term n; log := l; state := state n;
  node_tx := node_tx n; draws := draws n |}.
Definition with_state (s : S) (n : RawNode) : RawNode := {|
  id := id n; peers := peers n; term := term n; log := log n; state := s;
  node_tx := node_tx n; draws := draws n |}.
Definition push_tx (e : Envelope) (n : RawNode) : RawNode := {|
  id := id n; peers := peers n; term := term n; log := log n; state := state n;
  node_tx := node_tx n ++ [e]; draws := draws n |}.

Abbreviation MN := (M RawNode).

Definition asks {A} (f : RawNode → A) : MN A := λ n, (Ok (f n), n).
Definition update (f : RawNode → RawNode) : MN unit := λ n, (Ok tt, f n).
Definition on_log {A} (m : M (Log E) A) : MN A := λ n,
  let '(r, l) := m (log n) in (r, with_log l n).
Definition on_state {A} (m : M S A) : MN A := λ n,
  let '(r, s) := m (state n) in (r, with_state s n).

(** [assert!] and [debug_assert!]. *)
Definition check (b : bool) (why : string) : MN unit :=
  lift (if b then Ok tt else Panic why).

Definition rand_election_timeout : MN N := λ n,
  (Ok (rand_timeout (draws n)), {|
     id := id n; peers := peers n; term := term n; log := log n; state := state n;
     node_tx := node_tx n; draws := Datatypes.S (draws n) |}).

(** ** Shared methods (node/mod.rs) *)

Definition cluster_size : MN N :=
  count ← asks (λ n, as_u8 (N.of_nat (base.size (peers n))));
  lift (add_u8 count 1).

Definition node_quorum_size : MN N :=
  size ← cluster_size;
  mret (quorum_size size).

Definition node_quorum_value (values : list N) : MN N :=
  size ← cluster_size;
  _ ← check (bool_decide (N.of_nat (length values) = size)) "values must match cluster size";
  lift (quorum_value values).

Definition send (dest : N) (m : Message) : MN unit := λ n,
  (Ok tt, push_tx {| from := id n; to := dest; msg_term := term n; message := m |} n).

Definition broadcast (m : Message) : MN unit :=
  ps ← asks (λ n, merge_sort N.le (elements (peers n)));
  for_each ps (λ p, send p m).

(** [maybe_apply_with]: [on_apply] gets each index and result, and threads what
    the closure captures. *)
Fixpoint apply_loop {A} (items : list (res Entry)) (on_apply : N → res bytes → A → MN A)
    (acc : A) : MN A :=
  match items with
  | [] => mret acc
  | item :: items =>
      entry ← lift item;
      result ← (λ n, match apply_entry entry (state n) with
                     | (Panic w, s) => (Panic w, with_state s n)
                     | (Err (EInternal m), s) => (Err (EInternal m), with_state s n)
                     | (r, s) => (Ok r, with_state s n)
                     end);
      acc ← on_apply (index entry) result acc;
      apply_loop items on_apply acc
  end.

Definition maybe_apply_with {A} (on_apply : N → res bytes → A → MN A) (acc : A) : MN A :=
  applied_index ← asks (λ n, get_applied_index (state n));
  commit_index ← asks (λ n, (get_commit_index (log n)).1);
  _ ← check (bool_decide (applied_index ≤ commit_index)) "Commit index below applied index";
  if decide (commit_index ≤ applied_index) then mret acc
  else
    first ← lift (add_u64 applied_index 1);
    items ← on_log (scan (Included first, Included commit_index));
    apply_loop items on_apply acc.

Definition maybe_apply : MN unit := maybe_apply_with (λ _ _ _, mret tt) tt.

Definition assert_node : MN unit :=
  t ← asks term;
  '(log_term, _) ← on_log get_term;
  check (bool_decide (t = log_term)) "Term does not match log".

Definition assert_step (msg : Envelope) : MN unit :=
  i ← asks id;
  ps ← asks peers;
  _ ← check (bool_decide (to msg = i)) "Message to other node";
  check (bool_decide (from msg = i ∨ from msg ∈ ps)) "Unknown sender".

(** The term comparison at the start of every step. *)
Inductive TermOrder := PastTerm | FutureTerm | SameTerm.
Definition compare_term (msg : Envelope) : MN TermOrder :=
  t ← asks term;
  mret (if decide (msg_term msg < t) then PastTerm
        else if decide (t < msg_term msg) then FutureTerm else SameTerm).

(** ** Leader (node/leader.rs) *)

Definition leader_new (ps : gset N) (last_index : N) : MN Leader :=
  nx ← lift (add_u64 last_index 1);
  mret {| progress := set_to_map (λ p, (p, {| next := nx; last_replicated := 0; p_read_seq := 0 |})) ps;
          l_writes := ∅; reads := []; read_seq := 0; since_heartbeat := 0 |}.

Definition leader_assert : MN unit :=
  _ ← assert_node;
  t ← asks term;
  _ ← check (bool_decide (t ≠ 0)) "Leaders can't have term 0";
  i ← asks id;
  '(_, v) ← on_log get_term;
  check (bool_decide (v = Some i)) "Log vote does not match self".

Definition heartbeat (l : Leader) : MN unit :=
  '(ci, ct) ← asks (λ n, get_commit_index (log n));
  broadcast (Heartbeat ci ct (read_seq l)).

Definition send_log (l : Leader) (peer : N) : MN unit :=
  '(base_index, base_term) ← match progress l !! peer with
    | Some p =>
        if decide (1 < next p) then
          o ← on_log (get (next p - 1));
          lift match o with
               | Some entry => Ok (index entry, RaftLog.term entry)
               | None => Panic "Missing base entry {}"
               end
        else mret (0, 0)
    | None => lift (Panic "Unknown peer {}")
    end;
  first ← lift (add_u64 base_index 1);
  items ← on_log (scan (Included first, Unbounded));
  entries ← lift (collect items);
  send peer (Append base_index base_term entries).

Definition propose (l : Leader) (command : option bytes) : MN N :=
  t ← asks term;
  i ← on_log (append t command);
  ps ← asks peers;
  _ ← for_each (elements ps) (send_log l);
  mret i.

(** The closure of [maybe_commit_and_apply]: answers the client of a write. *)
Definition respond_write (i : N) (result : res bytes) (ws : gmap N Write) : MN (gmap N Write) :=
  match ws !! i with
  | Some w =>
      _ ← send (w_from w) (ClientResponse (w_id w) (fmap (M:=res) RespWrite result));
      mret (delete i ws)
  | None => mret ws
  end.

Definition with_writes (l : Leader) (ws : gmap N Write) : Leader := {|
  progress := progress l; l_writes := ws; reads := reads l;
  read_seq := read_seq l; since_heartbeat := since_heartbeat l |}.
Definition with_reads (l : Leader) (rs : list Read) : Leader := {|
  progress := progress l; l_writes := l_writes l; reads := rs;
  read_seq := read_seq l; since_heartbeat := since_heartbeat l |}.
Definition with_progress (l : Leader) (p : gmap N Progress) : Leader := {|
  progress := p; l_writes := l_writes l; reads := reads l;
  read_seq := read_seq l; since_heartbeat := since_heartbeat l |}.

Definition maybe_commit_and_apply (l : Leader) : MN (N * Leader) :=
  last ← asks (λ n, (get_last_index (log n)).1);
  quorum_index ← node_quorum_value
    (List.map (λ p : N * Progress, last_replicated p.2) (map_to_list (progress l)) ++ [last]);
  commit_index ← asks (λ n, (get_commit_index (log n)).1);
  if decide (quorum_index ≤ commit_index) then mret (commit_index, l)
  else
    o ← on_log (get quorum_index);
    t ← asks term;
    match o with
    | None => lift (Panic "Commit index {} missing")
    | Some entry =>
        if decide (RaftLog.term entry = t) then
          _ ← on_log (commit quorum_index);
          ws ← maybe_apply_with respond_write (l_writes l);
          mret (quorum_index, with_writes l ws)
        else mret (commit_index, l)
    end.

(** The loop of [maybe_read]. *)
Fixpoint read_loop (rs : list Read) (confirmed : N) : MN (list Read) :=
  match rs with
  | [] => mret []
  | r :: rest =>
      if decide (confirmed < seq r) then mret rs
      else
        result ← (λ n, (match read_state (r_command r) (state n) with
                        | Panic w => Panic w
                        | result => Ok result
                        end, n));
        _ ← send (r_from r) (ClientResponse (r_id r) (fmap (M:=res) RespRead result));
        read_loop rest confirmed
  end.

Definition maybe_read (l : Leader) : MN Leader :=
  match reads l with
  | [] => mret l
  | rs =>
      confirmed ← node_quorum_value
        (List.map (λ p : N * Progress, p_read_seq p.2) (map_to_list (progress l)) ++ [read_seq l]);
      rest ← read_loop rs confirmed;
      mret (with_reads l rest)
  end.

Definition follower_new (ld : option N) (vf : option N) : MN Follower :=
  timeout ← rand_election_timeout;
  mret {| leader := ld; leader_seen := 0; f_election_timeout := timeout;
          voted_for := vf; forwarded := ∅ |}.

(** Aborts a client request. *)
Definition abort (dest : N) (i : bytes) : MN unit := send dest (ClientResponse i (Err EAbort)).

(** [RawNode<Leader>::into_follower]. *)
Definition leader_into_follower (l : Leader) (t : N) : MN Follower :=
  t0 ← asks term;
  _ ← check (bool_decide (t0 ≤ t)) "Term regression {} -> {}";
  _ ← check (bool_decide (t0 < t)) "Can only become follower in later term";
  _ ← for_each (List.map snd (map_to_list (l_writes l))) (λ w, abort (w_from w) (w_id w));
  _ ← for_each (reads l) (λ r, abort (r_from r) (r_id r));
  _ ← update (with_term t);
  _ ← on_log (set_term t None);
  follower_new None None.

(** ** Follower (node/follower.rs) *)

Definition is_leader (f : Follower) (i : N) : bool := bool_decide (leader f = Some i).

Definition with_forwarded (f : Follower) (ids : gset bytes) : Follower := {|
  leader := leader f; leader_seen := leader_seen f; f_election_timeout := f_election_timeout f;
  voted_for := voted_for f; forwarded := ids |}.
Definition with_leader_seen (f : Follower) (ticks : N) : Follower := {|
  leader := leader f; leader_seen := ticks; f_election_timeout := f_election_timeout f;
  voted_for := voted_for f; forwarded := forwarded f |}.
Definition with_voted_for (f : Follower) (v : option N) : Follower := {|
  leader := leader f; leader_seen := leader_seen f; f_election_timeout := f_election_timeout f;
  voted_for := v; forwarded := forwarded f |}.

Definition follower_assert (f : Follower) : MN unit :=
  _ ← assert_node;
  i ← asks id;
  ps ← asks peers;
  t ← asks term;
  _ ← match leader f with
      | Some ld =>
          _ ← check (bool_decide (ld ≠ i)) "Can't follow self";
          _ ← check (bool_decide (ld ∈ ps)) "Leader not in peers";
          check (bool_decide (t ≠ 0)) "Followers with leaders can't have term 0"
      | None => check (bool_decide (forwarded f = ∅)) "Leaderless follower has forwarded requests"
      end;
  '(_, v) ← on_log get_term;
  _ ← check (bool_decide (voted_for f = v)) "Vote does not match log";
  check (bool_decide (leader_seen f < f_election_timeout f)) "Election timeout passed".

Definition abort_forwarded (f : Follower) : MN Follower :=
  i ← asks id;
  _ ← for_each (elements (forwarded f)) (abort i);
  mret (with_forwarded f ∅).

(** [RawNode<Follower>::into_follower]. *)
Definition follower_into_follower (f : Follower) (ld : option N) (t : N) : MN Follower :=
  t0 ← asks term;
  _ ← check (bool_decide (t0 ≤ t)) "Term regression {} -> {}";
  f ← abort_forwarded f;
  match ld with
  | Some ld =>
      _ ← check (bool_decide (leader f = None)) "Already have leader in term";
      _ ← check (bool_decide (t = t0)) "Can't follow leader in different term";
      follower_new (Some ld) (voted_for f)
  | None =>
      _ ← check (bool_decide (t ≠ t0)) "Can't become leaderless follower in current term";
      _ ← update (with_term t);
      _ ← on_log (set_term t None);
      follower_new None None
  end.

(** ** Candidate (node/candidate.rs) *)

Definition candidate_new : MN Candidate :=
  timeout ← rand_election_timeout;
  mret {| votes := ∅; election_duration := 0; c_election_timeout := timeout |}.

Definition candidate_assert (c : Candidate) : MN unit :=
  _ ← assert_node;
  t ← asks term;
  _ ← check (bool_decide (t ≠ 0)) "Candidates can't have term 0";
  i ← asks id;
  _ ← check (bool_decide (i ∈ votes c)) "Candidate did not vote for self";
  '(_, v) ← on_log get_term;
  _ ← check (bool_decide (v = Some i)) "Log vote does not match self";
  check (bool_decide (election_duration c < c_election_timeout c)) "Election timeout passed".

Definition with_votes (c : Candidate) (vs : gset N) : Candidate := {|
  votes := vs; election_duration := election_duration c;
  c_election_timeout := c_election_timeout c |}.

Definition campaign : MN Candidate :=
  t0 ← asks term;
  t ← lift (add_u64 t0 1);
  c ← candidate_new;
  i ← asks id;
  let c := with_votes c ({[i]} ∪ votes c) in
  _ ← update (with_term t);
  _ ← on_log (set_term t (Some i));
  '(li, lt) ← asks (λ n, get_last_index (log n));
  _ ← broadcast (Campaign li lt);
  mret c.

(** [RawNode<Candidate>::into_follower]. *)
Definition candidate_into_follower (t : N) (ld : option N) : MN Follower :=
  t0 ← asks term;
  _ ← check (bool_decide (t0 ≤ t)) "Term regression {} -> {}";
  match ld with
  | Some ld =>
      _ ← check (bool_decide (t = t0)) "Can't follow leader in different term";
      i ← asks id;
      follower_new (Some ld) (Some i)
  | None =>
      _ ← check (bool_decide (t ≠ t0)) "Can't become leaderless follower in current term";
      _ ← update (with_term t);
      _ ← on_log (set_term t None);
      follower_new None None
  end.

(** [RawNode<Candidate>::into_leader]. *)
Definition into_leader : MN Leader :=
  ps ← asks peers;
  last_index ← asks (λ n, (get_last_index (log n)).1);
  l ← leader_new ps last_index;
  _ ← heartbeat l;
  _ ← propose l None;
  mret l.

(** [RawNode<Follower>::into_candidate]. *)
Definition into_candidate (f : Follower) : MN Candidate :=
  _ ← abort_forwarded f;
  _ ← maybe_apply;
  _ ← candidate_new;
  campaign.

(** ** Steps *)

(** Finds or checks the leader that a heartbeat or append comes from. *)
Definition follow_sender (f : Follower) (msg : Envelope) : MN Follower :=
  match leader f with
  | Some ld =>
      _ ← check (bool_decide (from msg = ld)) "Multiple leaders in term";
      mret f
  | None => follower_into_follower f (Some (from msg)) (msg_term msg)
  end.

(** The part of [RawNode<Follower>::step] for a message of the current term. *)
Definition follower_handle (f : Follower) (msg : Envelope) : MN Follower :=
  let f := if is_leader f (from msg) then with_leader_seen f 0 else f in
  match message msg with
  | Heartbeat commit_index commit_term read_seq =>
      f ← follow_sender f msg;
      '(li, lt) ← asks (λ n, get_last_index (log n));
      _ ← send (from msg) (HeartbeatResponse li lt read_seq);
      h ← on_log (has commit_index commit_term);
      ci ← asks (λ n, (get_commit_index (log n)).1);
      if h && bool_decide (ci < commit_index) then
        _ ← on_log (commit commit_index);
        _ ← maybe_apply;
        mret f
      else mret f
  | Append base_index base_term entries =>
      f ← follow_sender f msg;
      reject ← (if decide (0 < base_index) then
                  h ← on_log (has base_index base_term); mret (negb h)
                else mret false);
      _ ← (if reject : bool then mret tt
           else _ ← on_log (splice entries); mret tt);
      '(li, lt) ← asks (λ n, get_last_index (log n));
      _ ← send (from msg) (AppendResponse reject li lt);
      mret f
  | Campaign last_index last_term =>
      let refused := match voted_for f with
                     | Some v => bool_decide (from msg ≠ v)
                     | None => false
                     end in
      if refused then
        _ ← send (from msg) (CampaignResponse false); mret f
      else
        '(log_index, log_term) ← asks (λ n, get_last_index (log n));
        if bool_decide (last_term < log_term)
           || (bool_decide (log_term = last_term) && bool_decide (last_index < log_index)) then
          _ ← send (from msg) (CampaignResponse false); mret f
        else
          _ ← send (from msg) (CampaignResponse true);
          t ← asks term;
          _ ← on_log (set_term t (Some (from msg)));
          mret (with_voted_for f (Some (from msg)))
  | CampaignResponse _ => mret f
  | ClientRequest rid request =>
      i ← asks id;
      _ ← check (bool_decide (from msg = i)) "Client request from other node";
      match leader f with
      | Some ld =>
          _ ← send ld (message msg);
          mret (with_forwarded f ({[rid]} ∪ forwarded f))
      | None => _ ← abort (from msg) rid; mret f
      end
  | ClientResponse rid response =>
      _ ← check (is_leader f (from msg)) "Client response from non-leader";
      if decide (rid ∈ forwarded f) then
        i ← asks id;
        _ ← send i (ClientResponse rid response);
        mret (with_forwarded f (forwarded f ∖ {[rid]}))
      else mret f
  | HeartbeatResponse _ _ _ | AppendResponse _ _ _ => lift (Panic "Received unexpected message")
  end.

(** [RawNode<Follower>::step] calls itself once when the message is from a
    future term: the node is then in that term. *)
Fixpoint follower_step (fuel : nat) (f : Follower) (msg : Envelope) : MN Role :=
  match fuel with
  | O => lift (Panic "follower_step: out of fuel")
  | Datatypes.S fuel =>
      _ ← follower_assert f;
      _ ← assert_step msg;
      o ← compare_term msg;
      match o with
      | PastTerm => mret (RFollower f)
      | FutureTerm =>
          f ← follower_into_follower f None (msg_term msg);
          follower_step fuel f msg
      | SameTerm => f ← follower_handle f msg; mret (RFollower f)
      end
  end.

(** [RawNode<Candidate>::step]. *)
Definition candidate_step (c : Candidate) (msg : Envelope) : MN Role :=
  _ ← candidate_assert c;
  _ ← assert_step msg;
  o ← compare_term msg;
  match o with
  | PastTerm => mret (RCandidate c)
  | FutureTerm =>
      f ← candidate_into_follower (msg_term msg) None;
      follower_step 2 f msg
  | SameTerm =>
      match message msg with
      | Campaign _ _ => mret (RCandidate c)
      | CampaignResponse true =>
          let c := with_votes c ({[from msg]} ∪ votes c) in
          quorum ← node_quorum_size;
          if decide (quorum ≤ as_u8 (N.of_nat (base.size (votes c)))) then
            l ← into_leader; mret (RLeader l)
          else mret (RCandidate c)
      | CampaignResponse false => mret (RCandidate c)
      | Heartbeat _ _ _ | Append _ _ _ =>
          f ← candidate_into_follower (msg_term msg) (Some (from msg));
          follower_step 2 f msg
      | ClientRequest rid _ => _ ← abort (from msg) rid; mret (RCandidate c)
      | HeartbeatResponse _ _ _ | AppendResponse _ _ _ | ClientResponse _ _ =>
          lift (Panic "Received unexpected message")
      end
  end.

(** The part of [RawNode<Leader>::step] for a message of the current term. *)
Definition leader_handle (l : Leader) (msg : Envelope) : MN Leader :=
  match message msg with
  | Heartbeat _ _ _ | Append _ _ _ => lift (Panic "Saw other leader {} in term {}")
  | HeartbeatResponse last_index last_term rs =>
      _ ← check (bool_decide (rs ≤ read_seq l)) "Future read sequence number";
      l ← match progress l !! from msg with
          | None => lift (Panic "called `Option::unwrap()` on a `None` value")
          | Some p =>
              if decide (p_read_seq p < rs) then
                maybe_read (with_progress l (<[from msg := {|
                  next := next p; last_replicated := last_replicated p; p_read_seq := rs |}]>
                  (progress l)))
              else mret l
          end;
      li ← asks (λ n, (get_last_index (log n)).1);
      behind ← (if decide (last_index < li) then mret true
                else h ← on_log (has last_index last_term); mret (negb h));
      _ ← (if behind : bool then send_log l (from msg) else mret tt);
      mret l
  | AppendResponse false last_index last_term =>
      '(li, lt) ← asks (λ n, get_last_index (log n));
      _ ← check (bool_decide (last_index ≤ li)) "Follower accepted entries after last index";
      _ ← check (bool_decide (last_term ≤ lt)) "Follower accepted entries after last term";
      match progress l !! from msg with
      | None => lift (Panic "called `Option::unwrap()` on a `None` value")
      | Some p =>
          if decide (last_replicated p < last_index) then
            nx ← lift (add_u64 last_index 1);
            '(_, l) ← maybe_commit_and_apply (with_progress l (<[from msg := {|
              next := nx; last_replicated := last_index; p_read_seq := p_read_seq p |}]>
              (progress l)));
            mret l
          else mret l
      end
  | AppendResponse true _ _ =>
      let l := with_progress l (alter (λ p,
        if decide (1 < next p) then {| next := next p - 1; last_replicated := last_replicated p;
                                       p_read_seq := p_read_seq p |} else p)
        (from msg) (progress l)) in
      _ ← send_log l (from msg);
      mret l
  | ClientRequest rid (ReqRead command) =>
      rs ← lift (add_u64 (read_seq l) 1);
      let l := {| progress := progress l; l_writes := l_writes l;
                  reads := reads l ++ [{| seq := rs; r_from := from msg; r_id := rid;
                                          r_command := command |}];
                  read_seq := rs; since_heartbeat := since_heartbeat l |} in
      ps ← asks peers;
      l ← (if decide (ps = ∅) then maybe_read l else mret l);
      _ ← heartbeat l;
      mret l
  | ClientRequest rid (ReqWrite command) =>
      i ← propose l (Some command);
      let l := with_writes l (<[i := {| w_from := from msg; w_id := rid |}]> (l_writes l)) in
      ps ← asks peers;
      if decide (ps = ∅) then
        '(_, l) ← maybe_commit_and_apply l; mret l
      else mret l
  | ClientRequest rid ReqStatus =>
      i ← asks id;
      t ← asks term;
      li ← asks (λ n, (get_last_index (log n)).1);
      ci ← asks (λ n, (get_commit_index (log n)).1);
      ai ← asks (λ n, get_applied_index (state n));
      storage ← on_log log_status;
      _ ← send (from msg) (ClientResponse rid (Ok (RespStatus {|
        rs_leader := i; rs_term := t;
        rs_last_index := <[i := li]> (last_replicated <$> progress l);
        rs_commit_index := ci; rs_apply_index := ai; rs_storage := storage |})));
      mret l
  | Campaign _ _ | CampaignResponse _ => mret l
  | ClientResponse _ _ => lift (Panic "Unexpected message")
  end.

(** [RawNode<Leader>::step]. *)
Definition leader_step (l : Leader) (msg : Envelope) : MN Role :=
  _ ← leader_assert;
  _ ← assert_step msg;
  o ← compare_term msg;
  match o with
  | PastTerm => mret (RLeader l)
  | FutureTerm =>
      f ← leader_into_follower l (msg_term msg);
      follower_step 2 f msg
  | SameTerm => l ← leader_handle l msg; mret (RLeader l)
  end.

(** ** Ticks *)

Definition follower_tick (f : Follower) : MN Role :=
  _ ← follower_assert f;
  seen ← lift (add_u8 (leader_seen f) 1);
  if decide (f_election_timeout f ≤ seen) then
    c ← into_candidate (with_leader_seen f seen); mret (RCandidate c)
  else mret (RFollower (with_leader_seen f seen)).

Definition candidate_tick (c : Candidate) : MN Role :=
  _ ← candidate_assert c;
  duration ← lift (add_u8 (election_duration c) 1);
  if decide (c_election_timeout c ≤ duration) then
    c ← campaign; mret (RCandidate c)
  else mret (RCandidate {| votes := votes c; election_duration := duration;
                           c_election_timeout := c_election_timeout c |}).

Definition leader_tick (l : Leader) : MN Role :=
  _ ← leader_assert;
  ticks ← lift (add_u8 (since_heartbeat l) 1);
  if decide (HEARTBEAT_INTERVAL ≤ ticks) then
    _ ← heartbeat l;
    mret (RLeader {| progress := progress l; l_writes := l_writes l; reads := reads l;
                     read_seq := read_seq l; since_heartbeat := 0 |})
  else mret (RLeader {| progress := progress l; l_writes := l_writes l; reads := reads l;
                        read_seq := read_seq l; since_heartbeat := ticks |}).

(** ** Nodes (node/mod.rs) *)

Definition node_step (r : Role) (msg : Envelope) : MN Role :=
  match r with
  | RCandidate c => candidate_step c msg
  | RFollower f => follower_step 2 f msg
  | RLeader l => leader_step l msg
  end.

Definition node_tick (r : Role) : MN Role :=
  match r with
  | RCandidate c => candidate_tick c
  | RFollower f => follower_tick f
  | RLeader l => leader_tick l
  end.

(** [RawNode::new] and [Node::new], on a node whose fields are set. *)
Definition raw_node (i : N) (ps : gset N) (l : Log E) (s : S) (drawn : nat) : RawNode := {|
  id := i; peers := ps; term := 0; log := l; state := s; node_tx := []; draws := drawn |}.

Definition node_new : MN Role :=
  '(t, v) ← on_log get_term;
  _ ← update (with_term t);
  f ← follower_new None v;
  ps ← asks peers;
  if decide (ps = ∅) then
    c ← into_candidate f;
    l ← into_leader;
    mret (RLeader l)
  else mret (RFollower f).
End node.
