(* ===== verification/RaftVote.v ===== *)
(** What one step of a Raft node can do to its term, vote and role, and which
    messages it sends: the facts that election safety rests on. *)
From Stdlib Require Import Strings.Byte NArith Lia.
From stdpp Require Import base list gmap strings sorting.
From S2P Require Import Prelude BTreeMap KeyCode Engine KeyStore Bincode RaftLog RaftLogSpec RaftNode.

#[local] Opaque to_be.

(** * Partial correctness of computations *)

(** If the computation returns, its result and final state satisfy [Q]. *)
Definition post {St A} (m : M St A) (s : St) (Q : A → St → Prop) : Prop :=
  match m s with (Ok a, s') => Q a s' | _ => True end.

Section post.
Context {St : Type}.

Lemma post_bind {A B} (m : M St A) (f : A → M St B) s (Q : B → St → Prop) :
  post m s (λ a s', post (f a) s' Q) → post (m ≫= f) s Q.
Proof. unfold post, mbind, M_bind. by destruct (m s) as [[] ?]. Qed.

Lemma post_mono {A} (m : M St A) s (P Q : A → St → Prop) :
  post m s P → (∀ a s', P a s' → Q a s') → post m s Q.
Proof. unfold post. destruct (m s) as [[] ?]; auto. Qed.

Lemma post_ret {A} (a : A) s (Q : A → St → Prop) : Q a s → post (mret a) s Q.
Proof. done. Qed.

Lemma post_lift {A} (r : res A) s (Q : A → St → Prop) :
  (∀ a, r = Ok a → Q a s) → post (lift r) s Q.
Proof. intros HQ. unfold post, lift. destruct r; auto. Qed.

(** A relation that every computation of a list preserves. *)
Lemma post_for_each {A} (R : St → St → Prop) `{!PreOrder R} (xs : list A) (f : A → M St unit) s :
  (∀ x s, x ∈ xs → post (f x) s (λ _ s', R s s')) → post (for_each xs f) s (λ _ s', R s s').
Proof.
  revert s. induction xs as [|x xs IH]; intros s Hf; cbn [for_each].
  - apply post_ret. reflexivity.
  - apply post_bind. eapply post_mono; [apply Hf, list_elem_of_here|]. intros [] s1 H1.
    eapply post_mono; [apply IH; intros; apply Hf; by apply list_elem_of_further|].
    intros [] s2 H2. by transitivity s1.
Qed.
End post.

(** * The stored vote *)

Section vote.
Context {E : Type} `{EngineLaws E}.
Context `{BincodeLaws (N * option bytes), BincodeLaws (N * N), BincodeLaws (N * option N)}.
(** The engine accepts every write. *)
Context (unlimited : ∀ k v, eng_writable (E:=E) k v).

Definition has_vote (l : Log E) (tv : N * option N) : Prop :=
  eng_inv (engine l) ∧
  match bt_get bytes_cmp (key_bytes KTermVote) (eng_view (engine l)) with
  | Some x => x = bin_serialize tv
  | None => tv = (0, None)
  end.

(** The vote survives. *)
Definition vote_kept (l l' : Log E) : Prop := ∀ tv, has_vote l tv → has_vote l' tv.

#[export] Instance vote_kept_preorder : PreOrder vote_kept.
Proof. split; [by intros l tv|]. intros l1 l2 l3 H12 H23 tv Hv. auto. Qed.

(** A computation that keeps it, whatever it returns. *)
Definition keeps {A} (m : M (Log E) A) : Prop := ∀ l, vote_kept l (m l).2.

Lemma keeps_bind {A B} (m : M (Log E) A) (f : A → M (Log E) B) :
  keeps m → (∀ a, keeps (f a)) → keeps (m ≫= f).
Proof.
  intros Hm Hf l. unfold mbind, M_bind. specialize (Hm l).
  destruct (m l) as [[a| |] l1]; [|done..]. transitivity l1; [done|apply Hf].
Qed.

Lemma keeps_pure {A} (m : M (Log E) A) : (∀ l, (m l).2 = l) → keeps m.
Proof. intros Hm l. by rewrite Hm. Qed.

Lemma keeps_for_each {A} (xs : list A) (f : A → M (Log E) unit) :
  (∀ x, keeps (f x)) → keeps (for_each xs f).
Proof.
  intros Hf. induction xs as [|x xs IH]; cbn [for_each]; [by apply keeps_pure|].
  apply keeps_bind; [done|]. by intros _.
Qed.

(** Engine calls that do not write under the vote's key. *)
Lemma keeps_get k : keeps (on_engine (eng_get k)).
Proof.
  intros l tv [He Hv]. unfold on_engine. rewrite eng_get_law by done. done.
Qed.

Lemma keeps_set k x : k ≠ key_bytes KTermVote → keeps (on_engine (eng_set k x)).
Proof.
  intros Hk l tv [He Hv]. unfold on_engine.
  destruct (eng_set_law k x (engine l) He (unlimited k x)) as (e' & -> & He' & Hview).
  split; [done|]. cbn. rewrite Hview, (bt_get_insert_ne bytes_cmp) by (done || by apply eng_view_sorted).
  done.
Qed.

Lemma keeps_delete k : k ≠ key_bytes KTermVote → keeps (on_engine (eng_delete k)).
Proof.
  intros Hk l tv [He Hv]. unfold on_engine.
  destruct (eng_delete_law k (engine l) He (unlimited k [])) as (e' & -> & He' & Hview).
  split; [done|]. cbn. rewrite Hview, (bt_get_remove_ne bytes_cmp) by (done || by apply eng_view_sorted).
  done.
Qed.

Lemma keeps_flush : keeps (on_engine eng_flush).
Proof. intros l tv [He Hv]. unfold on_engine. by rewrite eng_flush_law. Qed.

Lemma keeps_status : keeps (on_engine eng_status).
Proof.
  intros l tv [He Hv]. unfold on_engine. pose proof (eng_status_law (engine l) He) as Hs.
  destruct (eng_status (engine l)) as [r e]. cbn in *. by subst.
Qed.

Lemma entry_key_ne i : key_bytes (KEntry i) ≠ key_bytes KTermVote.
Proof. done. Qed.
Lemma commit_key_ne : key_bytes KCommitIndex ≠ key_bytes KTermVote.
Proof. done. Qed.

Lemma keeps_lift {A} (r : res A) : keeps (lift r).
Proof. by apply keeps_pure. Qed.
Lemma keeps_gets {A} (f : Log E → A) : keeps (gets f).
Proof. by apply keeps_pure. Qed.
Lemma keeps_ret {A} (a : A) : keeps (mret a).
Proof. by apply keeps_pure. Qed.
Lemma keeps_last i t : keeps (modify (with_last i t)).
Proof. by intros l tv. Qed.
Lemma keeps_commit_fields i t : keeps (modify (with_commit i t)).
Proof. by intros l tv. Qed.

(** A key that [encode] returns is the encoding of its argument. *)
Lemma keeps_encode {A} k (f : bytes → M (Log E) A) :
  (∀ kb, encode k = Ok kb → keeps (f kb)) → keeps (kb ← lift (encode k); f kb).
Proof.
  intros Hf l. unfold mbind, M_bind, lift. destruct (encode k) as [kb| |] eqn:Ek; [|done..].
  by apply Hf.
Qed.

Lemma encode_head k kb : encode k = Ok kb → head kb = Some (n2b (key_index k)).
Proof.
  unfold encode, serialize. cbn [encode_key log_key]. unfold serialize_key.
  unfold serialize_unit_variant. rewrite decide_True by (by destruct k).
  destruct k; cbn; by intros [= <-].
Qed.

Lemma encode_ne k kb : encode k = Ok kb → k ≠ KTermVote → kb ≠ key_bytes KTermVote.
Proof. intros Hk%encode_head Hne ->. by destruct k. Qed.
End vote.

Create HintDb keeps.
#[export] Hint Resolve keeps_get keeps_flush keeps_lift keeps_gets keeps_ret keeps_last
  keeps_commit_fields keeps_set keeps_delete encode_ne : keeps.

(** Walks a log operation and discharges its engine calls. *)
Ltac keeps_tac :=
  repeat first
    [ progress intros
    | apply keeps_encode
    | apply keeps_bind
    | progress case_decide
    | case_match
    | solve [eauto with keeps]
    | (apply keeps_set; [assumption|eapply encode_ne; [eassumption|discriminate]])
    | (apply keeps_delete; [assumption|eapply encode_ne; [eassumption|discriminate]]) ].

Section log_ops.
Context {E : Type} `{EngineLaws E}.
Context `{BincodeLaws (N * option bytes), BincodeLaws (N * N), BincodeLaws (N * option N)}.
Context (unlimited : ∀ k v, eng_writable (E:=E) k v).

Lemma maybe_flush_keeps : keeps (E:=E) maybe_flush.
Proof. unfold maybe_flush. keeps_tac. Qed.
Hint Resolve maybe_flush_keeps : keeps.

Lemma append_keeps t c : keeps (E:=E) (append t c).
Proof. unfold append. keeps_tac. Qed.

Lemma log_get_keeps i : keeps (E:=E) (get i).
Proof. unfold get. keeps_tac. Qed.
Hint Resolve log_get_keeps : keeps.

Lemma log_commit_keeps i : keeps (E:=E) (commit i).
Proof. unfold commit. keeps_tac. Qed.

Lemma has_keeps i t : keeps (E:=E) (has i t).
Proof. unfold has. keeps_tac. Qed.

Lemma scan_keeps r : keeps (E:=E) (scan r).
Proof.
  unfold scan. apply keeps_bind; [apply keeps_lift|]. intros kr.
  apply keeps_bind; [by apply keeps_pure|]. intros. apply keeps_ret.
Qed.
Hint Resolve scan_keeps : keeps.

Lemma splice_keeps es : keeps (E:=E) (splice es).
Proof.
  unfold splice. destruct es as [|first rest]; [apply keeps_gets|].
  apply keeps_bind; [apply keeps_gets|]. intros li.
  apply keeps_bind; [keeps_tac|]. intros ok. destruct (negb ok); [apply keeps_lift|].
  apply keeps_bind; [apply keeps_lift|]. intros c. destruct (negb c); [apply keeps_lift|].
  apply keeps_bind; [apply scan_keeps|]. intros items.
  apply keeps_bind; [apply keeps_lift|]. intros todo.
  apply keeps_bind; [apply keeps_gets|]. intros ci.
  destruct (match todo with [] => false | e :: _ => _ end); [apply keeps_lift|].
  apply keeps_bind.
  { apply keeps_for_each. intros e. unfold write_entry. keeps_tac. }
  intros _. apply keeps_bind; [apply keeps_lift|]. intros from.
  apply keeps_bind.
  { apply keeps_for_each. intros i. unfold delete_entry. keeps_tac. }
  intros _. keeps_tac.
Qed.

Lemma get_term_keeps : keeps (E:=E) get_term.
Proof. unfold get_term. keeps_tac. Qed.

(** Reading and writing the vote. *)
Lemma get_term_vote (l : Log E) tv : has_vote l tv → get_term l = (Ok tv, l).
Proof.
  intros [He Hv]. unfold get_term.
  erewrite M_bind_Ok by (unfold lift; by rewrite log_encode_valid).
  erewrite M_bind_Ok by (apply on_engine_Ok; by apply eng_get_law). rewrite with_engine_self.
  unfold lift. destruct (bt_get _ _ _) as [x|]; subst; [|done]. by rewrite bin_roundtrip.
Qed.

Lemma set_term_vote (l : Log E) tv t v : has_vote l tv →
  ∃ l', set_term t v l = (Ok tt, l') ∧ has_vote l' (t, v).
Proof.
  intros [He Hv]. unfold set_term.
  erewrite M_bind_Ok by (unfold lift; by rewrite log_encode_valid).
  destruct (eng_set_law (key_bytes KTermVote) (bin_serialize (t, v)) (engine l) He
    (unlimited _ _)) as (e' & Hset & He' & Hview).
  erewrite M_bind_Ok by (by apply on_engine_Ok). rewrite maybe_flush_Ok by done.
  eexists. split; [done|]. split; [done|]. cbn.
  by rewrite Hview, (bt_get_insert_eq bytes_cmp) by (by apply eng_view_sorted).
Qed.
End log_ops.
