(* ===== verification/RaftStep.v ===== *)
(** The effect of one step or tick of a Raft node on its term, vote and role,
    and the messages it sends. *)
From Stdlib Require Import Strings.Byte NArith Lia.
From stdpp Require Import base list gmap strings sorting.
From S2P Require Import Prelude BTreeMap KeyCode Engine KeyStore Bincode RaftLog RaftLogSpec RaftNode RaftVote.

#[local] Opaque to_be.

(** Messages that play no part in elections, and those only leaders send. *)
Definition quiet_msg (m : Message) : Prop :=
  match m with
  | Heartbeat _ _ _ | Append _ _ _ | Campaign _ _ | CampaignResponse true => False
  | _ => True
  end.
Definition leader_msg (m : Message) : Prop :=
  match m with Campaign _ _ | CampaignResponse true => False | _ => True end.

Section step.
Context {E : Type} `{EngineLaws E}.
Context `{BincodeLaws (N * option bytes), BincodeLaws (N * N), BincodeLaws (N * option N)}.
Context {St : Type} `{State St}.
Context (rand_timeout : nat → N).
Context (unlimited : ∀ k v, eng_writable (E:=E) k v).

Abbreviation Node := (RawNode (E:=E) (S:=St)).
Implicit Types (n : Node) (P Q : Message → Prop).

(** ** Computations that keep term and vote *)

(** The node sends messages that satisfy [P], in its term. *)
Definition sends P n n' : Prop :=
  id n' = id n ∧ peers n' = peers n ∧ term n' = term n ∧ vote_kept (log n) (log n') ∧
  ∃ out, node_tx n' = node_tx n ++ out ∧
    Forall (λ e, from e = id n ∧ msg_term e = term n ∧ P (message e)) out.

#[export] Instance sends_preorder P : PreOrder (sends P).
Proof.
  split.
  - intros n. split; [done|]. split; [done|]. split; [done|]. split; [done|].
    exists []. by rewrite app_nil_r.
  - intros n1 n2 n3 (Hi & Hp & Ht & Hv & out & Ho & Hf) (Hi' & Hp' & Ht' & Hv' & out' & Ho' & Hf').
    split; [congruence|]. split; [congruence|]. split; [congruence|].
    split; [by etransitivity|]. exists (out ++ out'). rewrite Ho', Ho, app_assoc. split; [done|].
    apply Forall_app. split; [done|]. by rewrite <-Hi, <-Ht.
Qed.

Lemma sends_weaken P Q n n' : (∀ m, P m → Q m) → sends P n n' → sends Q n n'.
Proof.
  intros HPQ (Hi & Hp & Ht & Hv & out & Ho & Hf). do 4 (split; [done|]). exists out.
  split; [done|]. eapply Forall_impl; [exact Hf|]. naive_solver.
Qed.

Definition safe {A} P (m : M Node A) : Prop := ∀ n, post m n (λ _ n', sends P n n').

Lemma safe_bind {A B} P (m : M Node A) (f : A → M Node B) :
  safe P m → (∀ a, safe P (f a)) → safe P (m ≫= f).
Proof.
  intros Hm Hf n. apply post_bind. eapply post_mono; [apply Hm|]. intros a n1 Hn1.
  eapply post_mono; [apply Hf|]. intros b n2 Hn2. by transitivity n1.
Qed.

Lemma safe_weaken {A} P Q (m : M Node A) : (∀ x, P x → Q x) → safe P m → safe Q m.
Proof. intros HPQ Hm n. eapply post_mono; [apply Hm|]. intros ? n' Hs. by eapply sends_weaken. Qed.

(** A computation that only touches fields other than term, vote and outbox. *)
Lemma safe_pure {A} P (m : M Node A) :
  (∀ n, id (m n).2 = id n ∧ peers (m n).2 = peers n ∧ term (m n).2 = term n ∧
     log (m n).2 = log n ∧ node_tx (m n).2 = node_tx n) → safe P m.
Proof.
  intros Hm n. unfold post. destruct (Hm n) as (Hi & Hp & Ht & Hl & Ho).
  destruct (m n) as [[a| |] n']; [|done..]. cbn in *.
  do 3 (split; [done|]). rewrite Hl, Ho. split; [done|]. exists []. by rewrite app_nil_r.
Qed.

Lemma safe_ret {A} P (a : A) : safe P (mret a).
Proof. by apply safe_pure. Qed.
Lemma safe_lift {A} P (r : res A) : safe P (lift r).
Proof. by apply safe_pure. Qed.
Lemma safe_asks {A} P (f : Node → A) : safe P (asks f).
Proof. by apply safe_pure. Qed.
Lemma safe_check P b why : safe P (check b why).
Proof. by apply safe_pure. Qed.
Lemma safe_rand P : safe P (rand_election_timeout rand_timeout).
Proof. by apply safe_pure. Qed.

Lemma safe_on_log {A} P (m : M (Log E) A) : keeps m → safe P (on_log m).
Proof.
  intros Hm n. unfold post, on_log. specialize (Hm (log n)).
  destruct (m (log n)) as [[a| |] l]; [|done..].
  do 3 (split; [done|]). split; [done|]. exists []. by rewrite app_nil_r.
Qed.

Lemma safe_send P dest m : P m → safe P (send dest m).
Proof.
  intros HP n. unfold post, send. do 3 (split; [done|]). split; [done|]. eexists. split; [done|].
  by apply Forall_singleton.
Qed.

Lemma safe_for_each {A} P (xs : list A) (f : A → M Node unit) :
  (∀ x, safe P (f x)) → safe P (for_each xs f).
Proof. intros Hf n. apply post_for_each; [apply _|]. intros x s _. apply Hf. Qed.

Lemma safe_broadcast P m : P m → safe P (broadcast m).
Proof.
  intros HP. unfold broadcast. apply safe_bind; [apply safe_asks|]. intros ps.
  apply safe_for_each. intros p. by apply safe_send.
Qed.
End step.

Create HintDb safe.
#[export] Hint Resolve safe_ret safe_lift safe_asks safe_check safe_rand safe_on_log safe_send
  safe_broadcast : safe.

(** Walks a node operation that keeps term and vote. *)
Ltac safe_tac :=
  repeat match goal with
    | |- ∀ _, _ => intro
    | |- safe _ (mbind _ _) => apply safe_bind
    | |- safe _ (for_each _ _) => apply safe_for_each
    | |- safe _ (mret _) => apply safe_ret
    | |- safe _ (lift _) => apply safe_lift
    | |- safe _ (asks _) => apply safe_asks
    | |- safe _ (check _ _) => apply safe_check
    | |- safe _ (on_log _) => apply safe_on_log
    | |- safe _ (match ?x with _ => _ end) => destruct x
    | |- _ => solve [eauto with safe keeps]
    end.

Section ops.
Context {E : Type} `{EngineLaws E}.
Context `{BincodeLaws (N * option bytes), BincodeLaws (N * N), BincodeLaws (N * option N)}.
Context {St : Type} `{State St}.
Context (rand_timeout : nat → N).
Context (unlimited : ∀ k v, eng_writable (E:=E) k v).

Abbreviation Node := (RawNode (E:=E) (S:=St)).
Implicit Types (n : Node) (P Q : Message → Prop) (f : Follower) (l : Leader) (msg : Envelope).

Hint Resolve append_keeps log_get_keeps log_commit_keeps has_keeps scan_keeps splice_keeps
  get_term_keeps keeps_status : keeps.

Lemma apply_loop_safe {A} P items (on_apply : N → res bytes → A → M Node A) acc :
  (∀ i r a, safe P (on_apply i r a)) → safe P (apply_loop items on_apply acc).
Proof.
  intros Ha. revert acc. induction items as [|item items IH]; intros acc; cbn [apply_loop];
    [apply safe_ret|].
  apply safe_bind; [apply safe_lift|]. intros entry. apply safe_bind.
  { apply safe_pure. intros n. destruct (apply_entry entry (state n)) as [[|[]|] s]; done. }
  intros r. apply safe_bind; [apply Ha|]. intros a. apply IH.
Qed.

Lemma maybe_apply_with_safe {A} P (on_apply : N → res bytes → A → M Node A) acc :
  (∀ i r a, safe P (on_apply i r a)) → safe P (maybe_apply_with on_apply acc).
Proof.
  intros Ha. unfold maybe_apply_with. safe_tac. by apply apply_loop_safe.
Qed.

Lemma maybe_apply_safe P : safe P (maybe_apply (E:=E) (S:=St)).
Proof. apply maybe_apply_with_safe. intros. apply safe_ret. Qed.

Lemma assert_node_safe P : safe P (assert_node (E:=E) (S:=St)).
Proof. unfold assert_node. safe_tac. Qed.
Lemma assert_step_safe P msg : safe P (assert_step (E:=E) (S:=St) msg).
Proof. unfold assert_step. safe_tac. Qed.
Hint Resolve maybe_apply_safe assert_node_safe assert_step_safe : safe.

Lemma quorum_value_safe P vs : safe P (node_quorum_value (E:=E) (S:=St) vs).
Proof. unfold node_quorum_value, cluster_size. safe_tac. Qed.
Lemma quorum_size_safe P : safe P (node_quorum_size (E:=E) (S:=St)).
Proof. unfold node_quorum_size, cluster_size. safe_tac. Qed.
Hint Resolve quorum_value_safe quorum_size_safe : safe.

Lemma heartbeat_safe l : safe leader_msg (heartbeat (E:=E) (S:=St) l).
Proof. unfold heartbeat. safe_tac. by apply safe_broadcast. Qed.

Lemma send_log_safe l p : safe leader_msg (send_log (E:=E) (S:=St) l p).
Proof. unfold send_log. safe_tac. by apply safe_send. Qed.
Hint Resolve heartbeat_safe send_log_safe : safe.

Lemma propose_safe l c : safe leader_msg (propose (E:=E) (S:=St) l c).
Proof. unfold propose. safe_tac. Qed.

Lemma respond_write_safe i r ws : safe leader_msg (respond_write (E:=E) (S:=St) i r ws).
Proof. unfold respond_write. safe_tac. by apply safe_send. Qed.

Lemma maybe_commit_safe l : safe leader_msg (maybe_commit_and_apply (E:=E) (S:=St) l).
Proof.
  unfold maybe_commit_and_apply. safe_tac.
  apply maybe_apply_with_safe. intros. apply respond_write_safe.
Qed.

Lemma read_loop_safe rs c : safe leader_msg (read_loop (E:=E) (S:=St) rs c).
Proof.
  induction rs as [|r rs IH]; cbn [read_loop]; [apply safe_ret|].
  case_decide; [apply safe_ret|]. apply safe_bind.
  { apply safe_pure. intros n. by destruct (read_state (r_command r) (state n)). }
  intros result. apply safe_bind; [by apply safe_send|]. intros _. apply IH.
Qed.

Lemma maybe_read_safe l : safe leader_msg (maybe_read (E:=E) (S:=St) l).
Proof. unfold maybe_read. safe_tac. apply read_loop_safe. Qed.
Hint Resolve propose_safe maybe_commit_safe maybe_read_safe : safe.

Lemma leader_assert_safe P : safe P (leader_assert (E:=E) (S:=St)).
Proof. unfold leader_assert. safe_tac. Qed.
Lemma candidate_assert_safe P c : safe P (candidate_assert (E:=E) (S:=St) c).
Proof. unfold candidate_assert. safe_tac. Qed.
Lemma follower_assert_safe P f : safe P (follower_assert (E:=E) (S:=St) f).
Proof. unfold follower_assert. safe_tac. Qed.
Lemma abort_safe P d i : (∀ i r, P (ClientResponse i r)) → safe P (abort (E:=E) (S:=St) d i).
Proof. intros HP. unfold abort. by apply safe_send. Qed.

Lemma leader_handle_safe l msg : safe leader_msg (leader_handle (E:=E) (S:=St) l msg).
Proof.
  unfold leader_handle. destruct (message msg); safe_tac. by apply safe_send.
Qed.

(** ** Roles and votes *)

(** The vote a node with this role has cast in its term. *)
Definition vote_of (i : N) (r : Role) : option N :=
  match r with
  | RFollower f => voted_for f
  | RCandidate _ | RLeader _ => Some i
  end.

(** The log stores the node's term and vote. *)
Definition role_ok n (r : Role) : Prop := has_vote (log n) (term n, vote_of (id n) r).

Definition follower_msg (lo hi i : N) (vote : option N) (e : Envelope) : Prop :=
  from e = i ∧ lo ≤ msg_term e ≤ hi ∧
  match message e with
  | CampaignResponse true => msg_term e = hi ∧ vote = Some (to e)
  | Heartbeat _ _ _ | Append _ _ _ | Campaign _ _ => False
  | _ => True
  end.

(** A computation that ends as a follower, from a node with vote [v]. *)
Definition ends_follower (v : option N) n (f' : Follower) n' : Prop :=
  id n' = id n ∧ peers n' = peers n ∧ term n ≤ term n' ∧ role_ok n' (RFollower f') ∧
  (term n' = term n → ∀ x, v = Some x → voted_for f' = Some x) ∧
  ∃ out, node_tx n' = node_tx n ++ out ∧
    Forall (follower_msg (term n) (term n') (id n) (voted_for f')) out.

Lemma quiet_follower_msg lo hi i t vote (out : list Envelope) : lo ≤ t → t ≤ hi →
  Forall (λ e, from e = i ∧ msg_term e = t ∧ quiet_msg (message e)) out →
  Forall (follower_msg lo hi i vote) out.
Proof.
  intros Hlo Hhi Hf. eapply Forall_impl; [exact Hf|]. intros e (Hi & Ht & Hq).
  split; [done|]. split; [lia|]. destruct (message e) as [| | |[]| | | |]; done.
Qed.

(** Quiet messages before it change nothing. *)
Lemma ends_follower_quiet v n n1 f' n' :
  sends quiet_msg n n1 → ends_follower v n1 f' n' → ends_follower v n f' n'.
Proof.
  intros (Hi & Hp & Ht & _ & out & Ho & Hf) (Hi' & Hp' & Ht' & Hok & Hv & out' & Ho' & Hf').
  split; [congruence|]. split; [congruence|]. rewrite <-Ht. split; [done|]. split; [done|].
  split; [done|]. exists (out ++ out'). rewrite Ho', Ho, app_assoc. split; [done|].
  apply Forall_app. split; [|by rewrite <-Hi].
  eapply quiet_follower_msg; [..|exact Hf]; lia.
Qed.

(** Entering a later term discards the vote. *)
Definition new_term n (t : N) n1 : Prop :=
  id n1 = id n ∧ peers n1 = peers n ∧ term n1 = t ∧ has_vote (log n1) (t, None) ∧
  ∃ out, node_tx n1 = node_tx n ++ out ∧
    Forall (λ e, from e = id n ∧ msg_term e = term n ∧ quiet_msg (message e)) out.

Lemma ends_follower_new_term v n t n1 f' n' : term n < t → new_term n t n1 →
  ends_follower None n1 f' n' → ends_follower v n f' n'.
Proof.
  intros Hlt (Hi & Hp & Ht & _ & out & Ho & Hf) (Hi' & Hp' & Ht' & Hok & _ & out' & Ho' & Hf').
  split; [congruence|]. split; [congruence|]. split; [lia|]. split; [done|].
  split; [lia|]. exists (out ++ out'). rewrite Ho', Ho, app_assoc. split; [done|].
  apply Forall_app. split.
  - eapply quiet_follower_msg; [..|exact Hf]; lia.
  - rewrite <-Hi. eapply Forall_impl; [exact Hf'|]. intros e (? & ? & ?). split; [done|].
    split; [lia|done].
Qed.

(** ** Becoming a follower *)

(** Setting the term and clearing the vote. *)
Lemma enter_term n t tv : has_vote (log n) tv →
  post (_ ← update (with_term t); _ ← on_log (set_term t None); follower_new rand_timeout None None)
    n (λ f n1, id n1 = id n ∧ peers n1 = peers n ∧ term n1 = t ∧ has_vote (log n1) (t, None) ∧
       node_tx n1 = node_tx n ∧ voted_for f = None).
Proof.
  intros Hv. apply post_bind. unfold post at 1, update. apply post_bind.
  unfold post at 1, on_log. cbn [log with_term].
  destruct (set_term_vote unlimited (log n) tv t None Hv) as (l' & -> & Hv'). done.
Qed.

Lemma check_true b why n (Q : unit → Node → Prop) : (b = true → Q tt n) → post (check b why) n Q.
Proof. intros HQ. unfold post, check, lift. destruct b; auto. Qed.

Lemma abort_all_safe {A} (xs : list A) (dest : A → N) (rid : A → bytes) :
  safe (E:=E) (St:=St) quiet_msg (for_each xs (λ x, abort (dest x) (rid x))).
Proof. apply safe_for_each. intros x. by apply abort_safe. Qed.

Lemma abort_forwarded_ok f n : post (abort_forwarded f) n
  (λ f' n', sends quiet_msg n n' ∧ f' = with_forwarded f ∅).
Proof.
  unfold abort_forwarded. apply post_bind. unfold post at 1, asks. apply post_bind.
  eapply post_mono.
  - apply (abort_all_safe (elements (forwarded f)) (λ _, id n) (λ x, x)).
  - intros [] n1 Hs. by apply post_ret.
Qed.

(** A later term: from any role. *)
Lemma leave_term (m : M Node Follower) n t v :
  has_vote (log n) (term n, v) → term n < t →
  post m n (λ f1 n1, new_term n t n1 ∧ voted_for f1 = None) →
  ∀ (g : Follower → M Node Role),
  (∀ f1 n1, role_ok n1 (RFollower f1) → term n1 = t → voted_for f1 = None →
     post (g f1) n1 (λ r n', ∃ f', r = RFollower f' ∧ ends_follower None n1 f' n')) →
  post (f1 ← m; g f1) n (λ r n', ∃ f', r = RFollower f' ∧ ends_follower v n f' n').
Proof.
  intros Hv Hlt Hm g Hg. apply post_bind. eapply post_mono; [exact Hm|].
  intros f1 n1 [Hnt Hvf]. pose proof Hnt as (Hi & Hp & Ht & Hv1 & _).
  eapply post_mono; [apply Hg; [|done|done]|].
  - unfold role_ok. cbn [vote_of]. by rewrite Hvf, Ht.
  - intros r n' (f' & -> & He). exists f'. split; [done|]. by eapply ends_follower_new_term.
Qed.

Lemma follower_new_term f n t v : has_vote (log n) (term n, v) →
  post (follower_into_follower rand_timeout f None t) n
    (λ f1 n1, new_term n t n1 ∧ voted_for f1 = None).
Proof.
  intros Hv. unfold follower_into_follower. apply post_bind. unfold post at 1, asks.
  apply post_bind, check_true. intros _. apply post_bind.
  eapply post_mono; [apply abort_forwarded_ok|].
  intros f0 n1 [(Hi & Hp & Ht & Hk & out & Ho & Hf) ->]. apply post_bind, check_true. intros _.
  eapply post_mono; [apply (enter_term n1 t (term n, v)); by apply Hk|].
  intros f1 n2 (Hi2 & Hp2 & Ht2 & Hv2 & Ho2 & Hvf). split; [|done].
  split; [congruence|]. split; [congruence|]. split; [done|]. split; [done|]. exists out.
  by rewrite Ho2, Ho.
Qed.

Lemma candidate_new_term n t v : has_vote (log n) (term n, v) →
  post (candidate_into_follower rand_timeout t None) n
    (λ f1 n1, new_term n t n1 ∧ voted_for f1 = None).
Proof.
  intros Hv. unfold candidate_into_follower. apply post_bind. unfold post at 1, asks.
  apply post_bind, check_true. intros _. apply post_bind, check_true. intros _.
  eapply post_mono; [by eapply enter_term|].
  intros f1 n2 (Hi2 & Hp2 & Ht2 & Hv2 & Ho2 & Hvf). split; [|done].
  do 4 (split; [done|]). exists []. by rewrite app_nil_r.
Qed.

Lemma leader_new_term l n t v : has_vote (log n) (term n, v) →
  post (leader_into_follower rand_timeout l t) n
    (λ f1 n1, new_term n t n1 ∧ voted_for f1 = None).
Proof.
  intros Hv. unfold leader_into_follower. apply post_bind. unfold post at 1, asks.
  apply post_bind, check_true. intros _. apply post_bind, check_true. intros _.
  apply post_bind. eapply post_mono; [apply (abort_all_safe _ w_from w_id)|]. intros [] n1 Hs1.
  apply post_bind. eapply post_mono; [apply (abort_all_safe _ r_from r_id)|]. intros [] n2 Hs2.
  assert (sends quiet_msg n n2) as (Hi & Hp & Ht & Hk & out & Ho & Hf) by by transitivity n1.
  eapply post_mono; [apply (enter_term n2 t (term n, v)); by apply Hk|].
  intros f1 n3 (Hi3 & Hp3 & Ht3 & Hv3 & Ho3 & Hvf). split; [|done].
  split; [congruence|]. split; [congruence|]. split; [done|]. split; [done|]. exists out.
  by rewrite Ho3, Ho.
Qed.

(** ** Followers *)

Lemma post_safe {A} P (m : M Node A) n (Q : A → Node → Prop) :
  safe P m → (∀ a n', sends P n n' → Q a n') → post m n Q.
Proof. intros Hm HQ. eapply post_mono; [apply Hm|]. auto. Qed.

(** What handling a message of the current term does. *)
Definition handled f n f' n' : Prop :=
  (sends quiet_msg n n' ∧ voted_for f' = voted_for f) ∨
  ∃ b, id n' = id n ∧ peers n' = peers n ∧ term n' = term n ∧
    has_vote (log n') (term n, Some b) ∧ voted_for f' = Some b ∧
    (voted_for f = None ∨ voted_for f = Some b) ∧
    node_tx n' = node_tx n ++
      [{| from := id n; to := b; msg_term := term n; message := CampaignResponse true |}].

Lemma follow_sender_ok f msg n : post (follow_sender rand_timeout f msg) n
  (λ f' n', sends quiet_msg n n' ∧ voted_for f' = voted_for f).
Proof.
  unfold follow_sender. destruct (leader f).
  { apply post_bind, check_true. intros _. apply post_ret. by split; [reflexivity|]. }
  unfold follower_into_follower. apply post_bind. unfold post at 1, asks.
  apply post_bind, check_true. intros _. apply post_bind.
  eapply post_mono; [apply abort_forwarded_ok|]. intros f0 n1 [Hs ->].
  apply post_bind, check_true. intros _. apply post_bind, check_true. intros _.
  unfold follower_new. apply post_bind. eapply post_safe; [apply (safe_rand rand_timeout quiet_msg)|].
  intros t n2 Hs2. apply post_ret. split; [by transitivity n1|done].
Qed.

(** Quiet computations after a known prefix. *)
Lemma post_quiet {A} (m : M Node A) n0 n (Q : A → Node → Prop) :
  sends quiet_msg n0 n → safe quiet_msg m → (∀ a n', sends quiet_msg n0 n' → Q a n') → post m n Q.
Proof.
  intros Hs Hm HQ. eapply post_safe; [exact Hm|]. intros a n' Hs'. apply HQ. by transitivity n.
Qed.

Lemma quiet_send dest m : quiet_msg m → safe (E:=E) (St:=St) quiet_msg (send dest m).
Proof. apply safe_send. Qed.

Lemma heartbeat_handled f msg ci ct rs n :
  post (f ← follow_sender rand_timeout f msg;
      '(li, lt) ← asks (λ n, get_last_index (log n));
      _ ← send (from msg) (HeartbeatResponse li lt rs);
      h ← on_log (has ci ct);
      c ← asks (λ n, (get_commit_index (log n)).1);
      if h && bool_decide (c < ci) then
        _ ← on_log (commit ci); _ ← maybe_apply; mret f
      else mret f) n
    (λ f' n', sends quiet_msg n n' ∧ voted_for f' = voted_for f).
Proof.
  apply post_bind. eapply post_mono; [apply follow_sender_ok|]. intros f' n1 [Hs1 Hvf].
  apply post_bind. unfold post at 1, asks. destruct (get_last_index (log n1)) as [li lt].
  apply post_bind, (post_quiet _ n _ _ Hs1); [by apply quiet_send|]. intros [] n2 Hs2.
  apply post_bind, (post_quiet _ n _ _ Hs2); [by apply safe_on_log, has_keeps|]. intros h n3 Hs3.
  apply post_bind. unfold post at 1, asks.
  destruct (h && _); [|by apply post_ret].
  apply post_bind, (post_quiet _ n _ _ Hs3); [by apply safe_on_log, log_commit_keeps|]. intros ? n4 Hs4.
  apply post_bind, (post_quiet _ n _ _ Hs4); [apply maybe_apply_safe|]. intros ? n5 Hs5.
  by apply post_ret.
Qed.

Lemma append_handled f msg bi bt es n :
  post (f ← follow_sender rand_timeout f msg;
      reject ← (if decide (0 < bi) then h ← on_log (has bi bt); mret (negb h) else mret false);
      _ ← (if reject : bool then mret tt else _ ← on_log (splice es); mret tt);
      '(li, lt) ← asks (λ n, get_last_index (log n));
      _ ← send (from msg) (AppendResponse reject li lt);
      mret f) n
    (λ f' n', sends quiet_msg n n' ∧ voted_for f' = voted_for f).
Proof.
  apply post_bind. eapply post_mono; [apply follow_sender_ok|]. intros f' n1 [Hs1 Hvf].
  apply post_bind, (post_quiet _ n _ _ Hs1); [safe_tac|]. intros reject n2 Hs2.
  apply post_bind, (post_quiet _ n _ _ Hs2).
  { destruct reject; safe_tac. }
  intros [] n3 Hs3.
  apply post_bind. unfold post at 1, asks. destruct (get_last_index (log n3)) as [li lt].
  apply post_bind, (post_quiet _ n _ _ Hs3); [by apply quiet_send|]. intros [] n4 Hs4.
  by apply post_ret.
Qed.

Lemma follower_handle_ok f msg n : role_ok n (RFollower f) →
  post (follower_handle rand_timeout f msg) n (handled f n).
Proof.
  intros Hok. unfold follower_handle.
  set (f0 := if is_leader f (from msg) then with_leader_seen f 0 else f).
  assert (voted_for f0 = voted_for f ∧ forwarded f0 = forwarded f) as [Hvf Hfw]
    by (unfold f0; by destruct (is_leader f (from msg))).
  assert (∀ f' n', sends quiet_msg n n' ∧ voted_for f' = voted_for f0 → handled f n f' n') as Hquiet.
  { intros f' n' [Hs Hv]. left. split; [done|congruence]. }
  assert (∀ (m : M Node unit) f', safe quiet_msg m → voted_for f' = voted_for f0 →
    post (_ ← m; mret f') n (handled f n)) as Hone.
  { intros m f' Hm Hv. apply post_bind. eapply post_safe; [exact Hm|]. intros ? n' Hs.
    apply post_ret, Hquiet. by split. }
  assert (sends quiet_msg n n) as Hrefl by reflexivity.
  destruct (message msg) as [ci ct rs|li lt rs|li lt|v|bi bt es|rej li lt|rid req|rid resp].
  - eapply post_mono; [apply heartbeat_handled|done].
  - done.
  - set (refused := match voted_for f0 with Some v => bool_decide (from msg ≠ v) | None => false end).
    destruct refused eqn:Er; [by apply Hone; [apply quiet_send|]|].
    apply post_bind. unfold post at 1, asks. destruct (get_last_index (log n)) as [lo tl].
    destruct (_ || _); [by apply Hone; [apply quiet_send|]|].
    apply post_bind. unfold post at 1, send. apply post_bind. unfold post at 1, asks.
    apply post_bind. unfold post at 1, on_log. cbn [log push_tx term].
    destruct (set_term_vote unlimited (log n) _ (term n) (Some (from msg)) Hok) as (l' & -> & Hv').
    right. exists (from msg). repeat (split; [done|]). split; [|done].
    unfold refused in Er. rewrite Hvf in Er. destruct (voted_for f) as [v|]; [right|by left].
    apply bool_decide_eq_false, dec_stable in Er. congruence.
  - apply post_ret, Hquiet. done.
  - eapply post_mono; [apply append_handled|done].
  - done.
  - apply post_bind. unfold post at 1, asks. apply post_bind, check_true. intros _.
    destruct (leader f0).
    + by apply Hone; [apply quiet_send; destruct (message msg)|].
    + by apply Hone; [apply abort_safe|].
  - apply post_bind, check_true. intros _. case_decide; [|by apply post_ret, Hquiet].
    apply post_bind. unfold post at 1, asks. by apply Hone; [apply quiet_send|].
Qed.

Lemma handled_ends f n f' n' : role_ok n (RFollower f) → handled f n f' n' →
  ends_follower (voted_for f) n f' n'.
Proof.
  intros Hok [[(Hi & Hp & Ht & Hk & out & Ho & Hf) Hv]|(b & Hi & Hp & Ht & Hv & Hvf & Hold & Ho)].
  - split; [done|]. split; [done|]. split; [lia|]. split.
    { unfold role_ok. cbn [vote_of]. rewrite Ht, Hv. by apply Hk. }
    split; [by rewrite Hv|]. exists out. split; [done|].
    eapply quiet_follower_msg; [..|exact Hf]; lia.
  - split; [done|]. split; [done|]. split; [lia|]. split.
    { unfold role_ok. cbn [vote_of]. by rewrite Ht, Hvf. }
    split; [intros _ x Hx; destruct Hold; congruence|]. eexists. split; [exact Ho|].
    apply Forall_singleton. split; [done|]. cbn. rewrite Ht. split; [lia|]. done.
Qed.

(** The steps before the message is looked at. *)
Lemma post_asserts {A} (asserts : M Node unit) msg n (k : TermOrder → M Node A) (Q : A → Node → Prop) :
  safe quiet_msg asserts →
  (∀ n1, sends quiet_msg n n1 →
     post (k (if decide (msg_term msg < term n) then PastTerm
              else if decide (term n < msg_term msg) then FutureTerm else SameTerm)) n1 Q) →
  post (_ ← asserts; _ ← assert_step msg; o ← compare_term msg; k o) n Q.
Proof.
  intros Ha Hk. apply post_bind. eapply post_safe; [exact Ha|]. intros [] n1 Hs1.
  apply post_bind. eapply post_safe; [apply (assert_step_safe quiet_msg)|]. intros [] n2 Hs2.
  assert (sends quiet_msg n n2) as Hs by by transitivity n1.
  pose proof Hs as (_ & _ & Ht & _).
  apply post_bind. unfold compare_term. apply post_bind. unfold post at 1, asks. rewrite Ht.
  apply post_ret. by apply Hk.
Qed.

Lemma role_ok_sends P n n1 r : sends P n n1 → role_ok n r → role_ok n1 r.
Proof.
  intros (Hi & Hp & Ht & Hk & _) Hok. unfold role_ok. rewrite Hi, Ht. by apply Hk.
Qed.

Lemma follower_step_same fuel f msg n : role_ok n (RFollower f) → term n = msg_term msg →
  post (follower_step rand_timeout (Datatypes.S fuel) f msg) n
    (λ r n', ∃ f', r = RFollower f' ∧ ends_follower (voted_for f) n f' n').
Proof.
  intros Hok Ht. cbn [follower_step]. apply post_asserts; [apply follower_assert_safe|].
  intros n1 Hs. rewrite !decide_False by lia. pose proof (role_ok_sends _ _ _ _ Hs Hok) as Hok1.
  apply post_bind. eapply post_mono; [by apply follower_handle_ok|]. intros f' n' Hh.
  apply post_ret. exists f'. split; [done|]. eapply ends_follower_quiet; [exact Hs|].
  by apply handled_ends.
Qed.

Lemma follower_step_ok f msg n : role_ok n (RFollower f) →
  post (follower_step rand_timeout 2 f msg) n
    (λ r n', ∃ f', r = RFollower f' ∧ ends_follower (voted_for f) n f' n').
Proof.
  intros Hok. destruct (decide (term n = msg_term msg)) as [|Hne]; [by apply follower_step_same|].
  change (follower_step rand_timeout 2 f msg) with
    (_ ← follower_assert f; _ ← assert_step msg; o ← compare_term msg;
     match o with
     | PastTerm => mret (RFollower f)
     | FutureTerm => f ← follower_into_follower rand_timeout f None (msg_term msg);
                     follower_step rand_timeout 1 f msg
     | SameTerm => f ← follower_handle rand_timeout f msg; mret (RFollower f)
     end : M Node Role).
  apply post_asserts; [apply follower_assert_safe|].
  intros n1 Hs. pose proof (role_ok_sends _ _ _ _ Hs Hok) as Hok1.
  case_decide as Hlt.
  { apply post_ret. exists f. split; [done|]. eapply ends_follower_quiet; [exact Hs|].
    apply handled_ends; [done|]. left. by split; [reflexivity|]. }
  rewrite decide_True by lia. pose proof Hs as (_ & _ & Ht & _).
  eapply post_mono.
  - apply (leave_term _ n1 (msg_term msg) (voted_for f)); [exact Hok1|lia|by eapply follower_new_term|].
    intros f1 n2 Hok2 Ht2 Hvf. eapply post_mono; [by apply follower_step_same|].
    intros r n' (f' & -> & He). exists f'. rewrite Hvf in He. done.
  - intros r n' (f' & -> & He). exists f'. split; [done|]. by eapply ends_follower_quiet.
Qed.

(** ** All roles *)

(** What a node may send while it goes from term [lo] to [n'] in role [r']. *)
Definition out_msg (lo : N) n' (r' : Role) (e : Envelope) : Prop :=
  from e = id n' ∧ lo ≤ msg_term e ≤ term n' ∧
  match message e with
  | CampaignResponse true => msg_term e = term n' ∧ vote_of (id n') r' = Some (to e)
  | Campaign _ _ => msg_term e = term n' ∧ lo < term n' ∧ vote_of (id n') r' = Some (id n')
  | Heartbeat _ _ _ | Append _ _ _ => msg_term e = term n' ∧ ∃ l, r' = RLeader l
  | _ => True
  end.

(** The message is a vote for this node in its term. *)
Definition voted (input : option Envelope) n (x : N) : Prop :=
  ∃ m, input = Some m ∧ message m = CampaignResponse true ∧ msg_term m = term n ∧
    from m = x ∧ to m = id n.

Definition campaigned (t : N) (e : Envelope) : Prop :=
  msg_term e = t ∧ ∃ li lt, message e = Campaign li lt.

Definition ends (input : option Envelope) n r r' n' : Prop :=
  id n' = id n ∧ peers n' = peers n ∧ role_ok n' r' ∧ term n ≤ term n' ∧
  (term n' = term n → ∀ x, vote_of (id n) r = Some x → vote_of (id n) r' = Some x) ∧
  ∃ out, node_tx n' = node_tx n ++ out ∧ Forall (out_msg (term n) n' r') out ∧
    match r' with
    | RFollower _ => True
    | RCandidate c' =>
        (∃ c, r = RCandidate c ∧ term n' = term n ∧
           ∀ x, x ∈ votes c' → x ∈ votes c ∨ voted input n x) ∨
        (term n < term n' ∧ votes c' = {[id n]} ∧
           ∀ p, p ∈ peers n → Exists (campaigned (term n')) out)
    | RLeader _ =>
        peers n = ∅ ∨
        (term n' = term n ∧
         ((∃ l, r = RLeader l) ∨
          ∃ c (V : gset N), r = RCandidate c ∧ (∀ x, x ∈ V → x ∈ votes c ∨ voted input n x) ∧
            quorum_size (N.of_nat (base.size (peers n)) + 1) ≤ N.of_nat (base.size V)))
    end.

Lemma ends_of_follower input n r f' n' :
  ends_follower (vote_of (id n) r) n f' n' → ends input n r (RFollower f') n'.
Proof.
  intros (Hi & Hp & Ht & Hok & Hv & out & Ho & Hf). do 4 (split; [done|]). split; [done|].
  exists out. split; [done|]. split; [|done]. eapply Forall_impl; [exact Hf|].
  intros e (He & Hte & Hm). split; [congruence|]. split; [done|].
  destruct (message e) as [| | |[]| | | |]; try done.
Qed.

Lemma leader_out_msgs lo n n' (l : Leader) (out : list Envelope) :
  id n' = id n → term n' = term n → lo ≤ term n →
  Forall (λ e, from e = id n ∧ msg_term e = term n ∧ leader_msg (message e)) out →
  Forall (out_msg lo n' (RLeader l)) out.
Proof.
  intros Hi Ht Hlo Hf. eapply Forall_impl; [exact Hf|]. intros e (He & Hte & Hm).
  split; [congruence|]. split; [lia|].
  destruct (message e) as [| | |[]| | | |]; try done; (split; [congruence|eauto]).
Qed.

Lemma quiet_out_msgs lo n n' r' (out : list Envelope) :
  id n' = id n → lo ≤ term n → term n ≤ term n' →
  Forall (λ e, from e = id n ∧ msg_term e = term n ∧ quiet_msg (message e)) out →
  Forall (out_msg lo n' r') out.
Proof.
  intros Hi Hlo Hhi Hf. eapply Forall_impl; [exact Hf|]. intros e (He & Hte & Hm).
  split; [congruence|]. split; [lia|]. destruct (message e) as [| | |[]| | | |]; done.
Qed.

(** A leader that stays one. *)
Lemma leader_stays input n l l' n' : role_ok n (RLeader l) → sends leader_msg n n' →
  ends input n (RLeader l) (RLeader l') n'.
Proof.
  intros Hok Hs. pose proof Hs as (Hi & Hp & Ht & Hk & out & Ho & Hf).
  do 2 (split; [done|]). split; [by apply (role_ok_sends _ _ _ (RLeader l) Hs)|].
  split; [lia|]. split; [done|]. exists out. split; [done|].
  split; [by eapply leader_out_msgs|]. right. eauto.
Qed.

Lemma quiet_leader m : quiet_msg m → leader_msg m.
Proof. by destruct m as [| | |[]| | | |]. Qed.

Lemma leader_step_ok l msg n : role_ok n (RLeader l) →
  post (leader_step rand_timeout l msg) n (ends (Some msg) n (RLeader l)).
Proof.
  intros Hok. unfold leader_step. apply post_asserts; [apply leader_assert_safe|].
  intros n1 Hs. pose proof (role_ok_sends _ _ _ _ Hs Hok) as Hok1.
  pose proof Hs as (Hi & _ & Ht & _).
  case_decide.
  { apply post_ret. apply leader_stays; [done|]. eapply sends_weaken; [apply quiet_leader|done]. }
  case_decide.
  - eapply post_mono.
    + apply (leave_term _ n1 (msg_term msg) (Some (id n1))); [exact Hok1|lia|by eapply leader_new_term|].
      intros f1 n2 Hok2 Ht2 Hvf. eapply post_mono; [by apply follower_step_ok|].
      rewrite Hvf. done.
    + intros r n' (f' & -> & He). apply ends_of_follower. eapply ends_follower_quiet; [exact Hs|].
      cbn. by rewrite <-Hi.
  - apply post_bind. eapply post_safe; [by apply leader_handle_safe|]. intros l' n' Hs'.
    apply post_ret, leader_stays; [done|]. transitivity n1; [|done].
    eapply sends_weaken; [apply quiet_leader|done].
Qed.

Lemma leader_tick_ok l n : role_ok n (RLeader l) →
  post (leader_tick l) n (ends None n (RLeader l)).
Proof.
  intros Hok. unfold leader_tick. apply post_bind.
  eapply post_safe; [apply (leader_assert_safe leader_msg)|]. intros [] n1 Hs1.
  apply post_bind, post_lift. intros ticks _.
  case_decide; [|by apply post_ret, leader_stays].
  apply post_bind. eapply post_safe; [apply heartbeat_safe|]. intros [] n2 Hs2.
  apply post_ret, leader_stays; [done|]. by transitivity n1.
Qed.

(** ** Candidates *)

Lemma candidate_stays input n c c' n' : role_ok n (RCandidate c) → sends quiet_msg n n' →
  (∀ x, x ∈ votes c' → x ∈ votes c ∨ voted input n x) →
  ends input n (RCandidate c) (RCandidate c') n'.
Proof.
  intros Hok Hs Hv. pose proof Hs as (Hi & Hp & Ht & Hk & out & Ho & Hf).
  do 2 (split; [done|]). split; [by apply (role_ok_sends _ _ _ (RCandidate c) Hs)|].
  split; [lia|]. split; [done|]. exists out. split; [done|]. split.
  - eapply quiet_out_msgs; [done| | |exact Hf]; lia.
  - left. eauto.
Qed.

Lemma elements_nonempty (s : gset N) p : p ∈ s → merge_sort N.le (elements s) ≠ [].
Proof.
  intros Hp Hnil. assert (p ∈ merge_sort N.le (elements s)) as Hin.
  { rewrite (merge_sort_Permutation N.le (elements s)). by apply elem_of_elements. }
  rewrite Hnil in Hin. by apply not_elem_of_nil in Hin.
Qed.

(** The messages of a broadcast. *)
Lemma broadcast_out m n : post (broadcast m) n (λ _ n',
  id n' = id n ∧ peers n' = peers n ∧ term n' = term n ∧ log n' = log n ∧
  node_tx n' = node_tx n ++ List.map (λ p,
    {| from := id n; to := p; msg_term := term n; message := m |})
    (merge_sort N.le (elements (peers n)))).
Proof.
  unfold broadcast. apply post_bind. unfold post at 1, asks.
  generalize (merge_sort N.le (elements (peers n))). intros ps. revert n.
  induction ps as [|p ps IH]; intros n; cbn [for_each].
  - apply post_ret. cbn. by rewrite app_nil_r.
  - apply post_bind. unfold post at 1, send. eapply post_mono; [apply IH|].
    intros [] n' (Hi & Hp & Ht & Hl & Ho). cbn in *. do 4 (split; [done|]).
    rewrite Ho, <-app_assoc. done.
Qed.

(** Campaigning, after quiet messages. *)
Lemma campaign_ok input n0 r n tv : sends quiet_msg n0 n → has_vote (log n) tv →
  post (campaign rand_timeout) n (λ c' n', ends input n0 r (RCandidate c') n').
Proof.
  intros (Hi & Hp & Ht & Hk & out & Ho & Hf) Hv. unfold campaign.
  apply post_bind. unfold post at 1, asks. apply post_bind, post_lift. intros t Htt.
  apply add_u64_Ok in Htt as [-> _].
  apply post_bind. unfold candidate_new. apply post_bind. unfold post at 1, rand_election_timeout.
  apply post_ret. apply post_bind. unfold post at 1, asks. cbn [votes id].
  apply post_bind. unfold post at 1, update. apply post_bind. unfold post at 1, on_log.
  cbn [log with_term term].
  destruct (set_term_vote unlimited (log n) tv (term n + 1) (Some (id n)) Hv) as (l' & -> & Hv').
  apply post_bind. unfold post at 1, asks. cbn [log with_log].
  destruct (get_last_index l') as [li lt]. apply post_bind.
  eapply post_mono; [apply broadcast_out|]. cbn [id peers term log node_tx with_log with_term].
  intros [] n' (Hi' & Hp' & Ht' & Hl' & Ho'). apply post_ret.
  split; [congruence|]. split; [congruence|]. split.
  { unfold role_ok. cbn [vote_of]. by rewrite Hl', Ht', Hi'. }
  split; [lia|]. split; [lia|]. eexists. split; [rewrite Ho', Ho, <-app_assoc; reflexivity|]. split.
  - apply Forall_app. split.
    + apply (quiet_out_msgs (term n0) n0 n'); [congruence|lia|lia|exact Hf].
    + apply Forall_forall. intros e (p & -> & _)%elem_of_map.
      split; [by rewrite Hi'|]. cbn [msg_term message]. rewrite Ht'. split; [lia|].
      split; [done|]. split; [lia|]. done.
  - right. split; [lia|]. split; [cbn; set_solver|]. intros p Hin. rewrite <-Hp in Hin.
    apply Exists_app. right. apply elements_nonempty in Hin.
    destruct (merge_sort N.le (elements (peers n))); [done|]. cbn. left. split; [done|]. eauto.
Qed.

Lemma candidate_tick_ok c n : role_ok n (RCandidate c) →
  post (candidate_tick rand_timeout c) n (ends None n (RCandidate c)).
Proof.
  intros Hok. unfold candidate_tick. apply post_bind.
  eapply post_safe; [apply (candidate_assert_safe quiet_msg)|]. intros [] n1 Hs1.
  apply post_bind, post_lift. intros ticks _. case_decide.
  - apply post_bind. eapply post_mono.
    + eapply (campaign_ok None n (RCandidate c)); [exact Hs1|].
      by apply (role_ok_sends _ _ _ _ Hs1 Hok).
    + intros c' n' He. by apply post_ret.
  - apply post_ret, candidate_stays; [done..|]. cbn. auto.
Qed.

Lemma into_leader_safe : safe (E:=E) (St:=St) leader_msg into_leader.
Proof.
  unfold into_leader, leader_new. safe_tac.
Qed.

Lemma candidate_wins input n c n1 n' l (V : gset N) : role_ok n (RCandidate c) →
  sends quiet_msg n n1 → sends leader_msg n1 n' →
  (∀ x, x ∈ V → x ∈ votes c ∨ voted input n x) →
  quorum_size (N.of_nat (base.size (peers n)) + 1) ≤ N.of_nat (base.size V) →
  ends input n (RCandidate c) (RLeader l) n'.
Proof.
  intros Hok Hs1 Hs2 HV Hq.
  assert (sends leader_msg n n') as Hs.
  { transitivity n1; [|done]. eapply sends_weaken; [apply quiet_leader|done]. }
  pose proof Hs as (Hi & Hp & Ht & Hk & out & Ho & Hf).
  do 2 (split; [done|]). split; [by apply (role_ok_sends _ _ _ (RCandidate c) Hs)|].
  split; [lia|]. split; [done|]. exists out. split; [done|].
  split; [by eapply leader_out_msgs|]. right. split; [done|]. right. eauto.
Qed.

Lemma as_u8_le x : as_u8 x ≤ x.
Proof. apply N.Div0.mod_le. Qed.

Lemma quorum_size_ok n : N.of_nat (base.size (peers n)) ≤ u8_max →
  post node_quorum_size n (λ q n', n' = n ∧ q = quorum_size (N.of_nat (base.size (peers n)) + 1)).
Proof.
  intros Hsz. unfold node_quorum_size, cluster_size. apply post_bind, post_bind.
  unfold post at 1, asks. apply post_lift. intros size. unfold add_u8.
  case_decide; [|done]. intros [= <-]. apply post_ret. split; [done|].
  unfold as_u8. by rewrite N.mod_small by (unfold u8_max in Hsz; lia).
Qed.

Lemma candidate_follows n ld msg v : has_vote (log n) (term n, Some v) → v = id n →
  term n = msg_term msg →
  post (f ← candidate_into_follower rand_timeout (msg_term msg) (Some ld);
        follower_step rand_timeout 2 f msg) n
    (λ r n', ∃ f', r = RFollower f' ∧ ends_follower (Some v) n f' n').
Proof.
  intros Hv -> Ht. unfold candidate_into_follower. apply post_bind, post_bind.
  unfold post at 1, asks. apply post_bind, check_true. intros _.
  apply post_bind, check_true. intros _. apply post_bind. unfold post at 1, asks.
  unfold follower_new. apply post_bind. eapply post_safe; [apply (safe_rand rand_timeout quiet_msg)|].
  intros timeout n1 Hs. apply post_ret. pose proof Hs as (Hi & _ & Ht1 & Hk & _).
  eapply post_mono; [apply follower_step_ok|].
  - unfold role_ok. cbn. rewrite Ht1. by apply Hk.
  - intros r n' (f' & -> & He). exists f'. split; [done|]. by eapply ends_follower_quiet.
Qed.

Lemma candidate_step_ok c msg n : role_ok n (RCandidate c) → to msg = id n →
  N.of_nat (base.size (peers n)) ≤ u8_max →
  post (candidate_step rand_timeout c msg) n (ends (Some msg) n (RCandidate c)).
Proof.
  intros Hok Hto Hsz. unfold candidate_step. apply post_asserts; [apply candidate_assert_safe|].
  intros n1 Hs. pose proof (role_ok_sends _ _ _ _ Hs Hok) as Hok1.
  pose proof Hs as (Hi & Hp & Ht & _).
  assert (∀ c' n', sends quiet_msg n1 n' → votes c' = votes c →
    ends (Some msg) n (RCandidate c) (RCandidate c') n') as Hstay.
  { intros c' n' Hs' Hvc. apply candidate_stays; [done|by transitivity n1|]. rewrite Hvc. auto. }
  assert (∀ r n', (∃ f', r = RFollower f' ∧ ends_follower (Some (id n1)) n1 f' n') →
    ends (Some msg) n (RCandidate c) r n') as Hfollow.
  { intros r n' (f' & -> & He). apply ends_of_follower. eapply ends_follower_quiet; [exact Hs|].
    cbn. by rewrite <-Hi. }
  assert (sends quiet_msg n1 n1) as Hrefl by reflexivity.
  case_decide; [by apply post_ret, Hstay|].
  case_decide.
  { eapply post_mono; [|exact Hfollow].
    apply (leave_term _ n1 (msg_term msg) (Some (id n1))); [exact Hok1|lia|by eapply candidate_new_term|].
    intros f1 n2 Hok2 Ht2 Hvf. eapply post_mono; [by apply follower_step_ok|]. rewrite Hvf. done. }
  assert (term n1 = msg_term msg) as Hsame by lia.
  destruct (message msg) as [ci ct rs|li lt rs|li lt|[]|bi bt es|rej li lt|rid req|rid resp] eqn:Em;
    try done.
  - eapply post_mono; [|exact Hfollow]. by apply candidate_follows.
  - by apply post_ret, Hstay.
  - assert (∀ x, x ∈ {[from msg]} ∪ votes c → x ∈ votes c ∨ voted (Some msg) n x) as Hvotes.
    { intros x [->%elem_of_singleton|]%elem_of_union; [right|by left].
      exists msg. repeat (split; [done|]). split; [congruence|]. done. }
    apply post_bind. eapply post_mono; [apply quorum_size_ok; by rewrite Hp|]. intros q n2 [-> ->].
    cbn [votes with_votes]. case_decide as Hq.
    + apply post_bind. eapply post_safe; [apply into_leader_safe|]. intros l n3 Hs3. apply post_ret.
      eapply candidate_wins; [done|exact Hs|exact Hs3|exact Hvotes|].
      rewrite <-Hp. etransitivity; [exact Hq|]. apply as_u8_le.
    + apply post_ret, candidate_stays; done.
  - by apply post_ret, Hstay.
  - eapply post_mono; [|exact Hfollow]. by apply candidate_follows.
  - apply post_bind. eapply post_safe; [by apply (abort_safe quiet_msg)|]. intros [] n2 Hs2.
    by apply post_ret, Hstay.
Qed.

(** ** Follower ticks and new nodes *)

Lemma into_candidate_ok input n0 r f n tv : sends quiet_msg n0 n → has_vote (log n) tv →
  post (into_candidate rand_timeout f) n (λ c' n', ends input n0 r (RCandidate c') n').
Proof.
  intros Hs Hv. unfold into_candidate. apply post_bind.
  eapply post_mono; [apply abort_forwarded_ok|]. intros f1 n1 [Hs1 _].
  apply post_bind. eapply post_safe; [apply (maybe_apply_safe quiet_msg)|]. intros [] n2 Hs2.
  apply post_bind. unfold candidate_new. apply post_bind.
  eapply post_safe; [apply (safe_rand rand_timeout quiet_msg)|]. intros t n3 Hs3. apply post_ret.
  assert (sends quiet_msg n n3) as Hs' by (transitivity n1; [done|]; by transitivity n2).
  apply (campaign_ok _ _ _ _ tv); [by transitivity n|].
  destruct Hs' as (_ & _ & _ & Hk & _). by apply Hk.
Qed.

Lemma follower_tick_ok f n : role_ok n (RFollower f) →
  post (follower_tick rand_timeout f) n (ends None n (RFollower f)).
Proof.
  intros Hok. unfold follower_tick. apply post_bind.
  eapply post_safe; [apply (follower_assert_safe quiet_msg)|]. intros [] n1 Hs1.
  pose proof (role_ok_sends _ _ _ _ Hs1 Hok) as Hok1.
  apply post_bind, post_lift. intros seen _. case_decide.
  - apply post_bind. eapply post_mono.
    + eapply (into_candidate_ok None n (RFollower f)); [exact Hs1|exact Hok1].
    + intros c' n' He. by apply post_ret.
  - apply post_ret, ends_of_follower. eapply ends_follower_quiet; [exact Hs1|].
    apply (handled_ends f); [done|]. left. split; [reflexivity|done].
Qed.

Lemma node_step_ok r msg n : role_ok n r → to msg = id n →
  N.of_nat (base.size (peers n)) ≤ u8_max →
  post (node_step rand_timeout r msg) n (ends (Some msg) n r).
Proof.
  intros Hok Hto Hsz. destruct r as [c|f|l]; cbn [node_step].
  - by apply candidate_step_ok.
  - eapply post_mono; [by apply follower_step_ok|]. intros r n' (f' & -> & He).
    by apply ends_of_follower.
  - by apply leader_step_ok.
Qed.

Lemma node_tick_ok r n : role_ok n r → post (node_tick rand_timeout r) n (ends None n r).
Proof.
  intros Hok. destruct r as [c|f|l]; cbn [node_tick].
  - by apply candidate_tick_ok.
  - by apply follower_tick_ok.
  - by apply leader_tick_ok.
Qed.
End ops.
