(* ===== verification/RaftCluster.v ===== *)
(** A Raft cluster: nodes that exchange messages over a network which may lose,
    duplicate, delay and reorder them, and that may restart at any time from
    what their logs stored.  At most one node is ever leader in a term. *)
From Stdlib Require Import Strings.Byte NArith Lia.
From stdpp Require Import base list gmap strings sorting.
From S2P Require Import Prelude BTreeMap KeyCode Engine KeyStore Memory Bincode RaftLog RaftLogSpec RaftNode RaftVote RaftStep.

#[local] Opaque to_be.

(** * Ballots *)

(** The candidate a message is a ballot for: a granted vote is one for its
    recipient, a campaign one for its sender. *)
Definition ballot (e : Envelope) : option N :=
  match message e with
  | CampaignResponse true => Some (to e)
  | Campaign _ _ => Some (from e)
  | _ => None
  end.

(** A message that only the leader of its term sends. *)
Definition claims_leadership (e : Envelope) : Prop :=
  match message e with Heartbeat _ _ _ | Append _ _ _ => True | _ => False end.

(** Every member of [V] cast a ballot for [i] in term [t]. *)
Definition backed (msgs : list Envelope) (i t : N) (V : gset N) : Prop :=
  ∀ x, x ∈ V → ∃ e, e ∈ msgs ∧ from e = x ∧ msg_term e = t ∧ ballot e = Some i.

Definition elected (members : gset N) (msgs : list Envelope) (i t : N) : Prop :=
  ∃ V, V ⊆ members ∧ quorum_size (N.of_nat (base.size members)) ≤ N.of_nat (base.size V) ∧
    backed msgs i t V.

Lemma backed_mono msgs msgs' i t V : msgs ⊆ msgs' → backed msgs i t V → backed msgs' i t V.
Proof. intros Hsub Hb x Hx. destruct (Hb x Hx) as (e & He & ?). exists e. set_solver. Qed.

Lemma elected_mono members msgs msgs' i t : msgs ⊆ msgs' →
  elected members msgs i t → elected members msgs' i t.
Proof. intros Hsub (V & ? & ? & ?). exists V. split; [done|]. split; [done|]. by eapply backed_mono. Qed.

(** Two quorums have a common member. *)
Lemma quorums_meet (members V W : gset N) : V ⊆ members → W ⊆ members →
  quorum_size (N.of_nat (base.size members)) ≤ N.of_nat (base.size V) →
  quorum_size (N.of_nat (base.size members)) ≤ N.of_nat (base.size W) →
  ∃ x, x ∈ V ∧ x ∈ W.
Proof.
  intros HV HW Hv Hw. destruct (decide (V ∩ W = ∅)) as [Hd|Hne].
  - exfalso. assert (base.size (V ∪ W) ≤ base.size members)%nat as Hle
      by (apply subseteq_size; set_solver).
    rewrite size_union in Hle by set_solver. unfold quorum_size in *.
    pose proof (N.div_mod (N.of_nat (base.size members)) 2).
    pose proof (N.mod_lt (N.of_nat (base.size members)) 2). lia.
  - apply set_choose_L in Hne as [x Hx]. exists x. set_solver.
Qed.

(** * Clusters *)

Section cluster.
Context {E : Type} `{EngineLaws E}.
Context `{BincodeLaws (N * option bytes), BincodeLaws (N * N), BincodeLaws (N * option N)}.
Context {St : Type} `{State St}.
Context (rand_timeout : nat → N).
(** The engines accept every write. *)
Context (unlimited : ∀ k v, eng_writable (E:=E) k v).

Abbreviation Node := (RawNode (E:=E) (S:=St)).

(** The nodes with their roles, and every message sent so far. *)
Record Cluster := { nodes : gmap N (Node * Role); net : list Envelope }.

(** The messages a node sent are moved to the network. *)
Definition drain (n : Node) : Node := {|
  id := id n; peers := peers n; term := term n; log := log n; state := state n;
  node_tx := []; draws := draws n |}.
Definition put (c : Cluster) (i : N) (n : Node) (r : Role) : Cluster := {|
  nodes := <[i := (drain n, r)]> (nodes c); net := net c ++ node_tx n |}.

(** A step of the cluster.  A step that fails halts its node, which can then
    restart. *)
Inductive cstep (c : Cluster) : Cluster → Prop :=
| step_deliver e n r n' r' :
    e ∈ net c → nodes c !! to e = Some (n, r) →
    node_step rand_timeout r e n = (Ok r', n') → cstep c (put c (to e) n' r')
| step_client i rid req n r n' r' :
    nodes c !! i = Some (n, r) →
    node_step rand_timeout r
      {| from := i; to := i; msg_term := term n; message := ClientRequest rid req |} n
    = (Ok r', n') → cstep c (put c i n' r')
| step_tick i n r n' r' :
    nodes c !! i = Some (n, r) →
    node_tick rand_timeout r n = (Ok r', n') → cstep c (put c i n' r')
| step_restart i sync s drawn n r l n' r' :
    nodes c !! i = Some (n, r) → log_new (engine (log n)) sync = Ok l →
    node_new rand_timeout (raw_node i (peers n) l s drawn) = (Ok r', n') →
    cstep c (put c i n' r').

Inductive csteps (c : Cluster) : Cluster → Prop :=
| csteps_refl : csteps c c
| csteps_snoc c1 c2 : csteps c c1 → cstep c1 c2 → csteps c c2.

(** A new cluster: every member starts on an empty log. *)
Definition starts (members : gset N) (c : Cluster) : Prop :=
  net c = [] ∧ dom (nodes c) = members ∧
  ∀ i n r, nodes c !! i = Some (n, r) →
    ∃ e sync s drawn l n', eng_inv e ∧ eng_view e = [] ∧ log_new e sync = Ok l ∧
      node_new rand_timeout (raw_node i (members ∖ {[i]}) l s drawn) = (Ok r, n') ∧ n = drain n'.

(** More than one member, and few enough for a byte. *)
Definition good_size (members : gset N) : Prop :=
  (2 ≤ base.size members)%nat ∧ N.of_nat (base.size members) ≤ u8_max.

(** ** The invariant *)

Record cinv (members : gset N) (c : Cluster) : Prop := {
  ci_dom : dom (nodes c) = members;
  ci_node : ∀ i n r, nodes c !! i = Some (n, r) →
    id n = i ∧ peers n = members ∖ {[i]} ∧ role_ok n r ∧ node_tx n = [];
  (** A message is not from the future of its sender, which stands by its
      ballot in the same term. *)
  ci_sent : ∀ e, e ∈ net c → ∃ n r, nodes c !! from e = Some (n, r) ∧ msg_term e ≤ term n ∧
    ∀ b, ballot e = Some b → msg_term e = term n → vote_of (from e) r = Some b;
  ci_once : ∀ e e' b b', e ∈ net c → e' ∈ net c → from e = from e' → msg_term e = msg_term e' →
    ballot e = Some b → ballot e' = Some b' → b = b';
  ci_candidate : ∀ i n cand, nodes c !! i = Some (n, RCandidate cand) →
    backed (net c) i (term n) (votes cand);
  ci_leader : ∀ i n l, nodes c !! i = Some (n, RLeader l) → elected members (net c) i (term n);
  ci_claim : ∀ e, e ∈ net c → claims_leadership e →
    elected members (net c) (from e) (msg_term e)
}.

Lemma elected_unique members c i j t : cinv members c →
  elected members (net c) i t → elected members (net c) j t → i = j.
Proof.
  intros Hc (V & HV & Hq & Hb) (W & HW & Hq' & Hb').
  destruct (quorums_meet members V W HV HW Hq Hq') as (x & Hx & Hx').
  destruct (Hb x Hx) as (e & He & Hf & Ht & Hbal). destruct (Hb' x Hx') as (e' & He' & Hf' & Ht' & Hbal').
  apply (ci_once _ _ Hc e e'); congruence.
Qed.

(** ** New nodes *)

Lemma log_new_engine (e : E) s l : eng_inv e → log_new e s = Ok l → engine l = e.
Proof.
  intros He. unfold log_new. intros (p & _ & (items & _ & ([li lt] & _ & (ck & _ & Hl)
    %res_bind_Ok_inv)%res_bind_Ok_inv)%res_bind_Ok_inv)%res_bind_Ok_inv.
  rewrite eng_get_law in Hl by done.
  apply res_bind_Ok_inv in Hl as (o & _ & ([ci ct] & _ & [= <-])%res_bind_Ok_inv). done.
Qed.

Lemma node_new_ok (n : Node) tv : has_vote (log n) tv → peers n ≠ ∅ →
  post (node_new rand_timeout) n (λ r n', ∃ f, r = RFollower f ∧ id n' = id n ∧
    peers n' = peers n ∧ term n' = tv.1 ∧ voted_for f = tv.2 ∧ has_vote (log n') tv ∧
    node_tx n' = node_tx n).
Proof.
  intros Hv Hp. unfold node_new. apply post_bind. unfold post at 1, on_log.
  rewrite (get_term_vote (log n) tv Hv). destruct tv as [t v].
  apply post_bind. unfold post at 1, update. apply post_bind. unfold follower_new.
  apply post_bind. unfold post at 1, rand_election_timeout. apply post_ret.
  apply post_bind. unfold post at 1, asks. cbn [peers with_term with_log].
  rewrite decide_False by done. apply post_ret. eexists. split; [done|]. done.
Qed.

(** ** Steps keep the invariant *)

(** What a step does to the other nodes and to the network. *)
Lemma put_other c i n' r' j : j ≠ i → nodes (put c i n' r') !! j = nodes c !! j.
Proof. intros. cbn. by rewrite lookup_insert_ne. Qed.
Lemma put_same c i n' r' : nodes (put c i n' r') !! i = Some (drain n', r').
Proof. cbn. by rewrite lookup_insert_eq. Qed.
Lemma put_net c i n' r' : net c ⊆ net (put c i n' r').
Proof. intros e He. cbn. apply elem_of_app. by left. Qed.

(** The votes a step may count are ballots on the network. *)
Definition counted (c : Cluster) (i : N) (input : option Envelope) (n : Node) : Prop :=
  ∀ x, voted input n x → ∃ e, e ∈ net c ∧ from e = x ∧ msg_term e = term n ∧ ballot e = Some i.

Lemma cluster_peers members c i n r : cinv members c → good_size members →
  nodes c !! i = Some (n, r) →
  peers n ≠ ∅ ∧ N.of_nat (base.size (peers n)) + 1 = N.of_nat (base.size members).
Proof.
  intros Hc Hsize Hn. destruct (ci_node _ _ Hc i n r Hn) as (_ & -> & _ & _).
  assert (i ∈ members) as Hi by (rewrite <-(ci_dom _ _ Hc); by apply elem_of_dom_2 in Hn).
  destruct Hsize as [Hs _].
  assert (base.size members = S (base.size (members ∖ {[i]}))) as Heq.
  { rewrite (union_difference_L {[i]} members) at 1 by set_solver.
    rewrite size_union by set_solver. by rewrite size_singleton. }
  split; [|lia]. intros Hempty. rewrite Hempty, size_empty in Heq. lia.
Qed.

Section put.
Context (members : gset N) (c : Cluster) (i : N) (n n' : Node) (r r' : Role)
  (input : option Envelope).
Context (Hc : cinv members c) (Hsize : good_size members)
  (Hn : nodes c !! i = Some (n, r)) (Hends : ends input n r r' n') (Hcount : counted c i input n).

Lemma put_out : ∃ out, node_tx n' = out ∧ Forall (out_msg (term n) n' r') out.
Proof.
  destruct Hends as (_ & _ & _ & _ & _ & out & Ho & Hf & _).
  destruct (ci_node _ _ Hc i n r Hn) as (_ & _ & _ & Htx). rewrite Htx in Ho. eauto.
Qed.

Lemma put_id : id n = i ∧ id n' = i.
Proof.
  destruct (ci_node _ _ Hc i n r Hn) as (Hi & _). destruct Hends as (Hi' & _). split; congruence.
Qed.

(** A message of the new network is an old one or one the node just sent. *)
Lemma put_msg e : e ∈ net (put c i n' r') → e ∈ net c ∨ (from e = i ∧ out_msg (term n) n' r' e).
Proof.
  cbn. intros [He|He]%elem_of_app; [by left|right].
  destruct put_out as (out & Ho & Hf). rewrite Ho in He. rewrite Forall_forall in Hf.
  specialize (Hf e He).
  split; [|done]. destruct Hf as [-> _]. apply put_id.
Qed.

(** A ballot is for the current term, which is the one its sender voted in. *)
Lemma out_ballot e b : out_msg (term n) n' r' e → ballot e = Some b →
  msg_term e = term n' ∧ vote_of i r' = Some b.
Proof.
  destruct put_id as [_ Hid]. intros (Hf & _ & Hm). unfold ballot.
  destruct (message e) as [| | |[]| | | |]; try done; intros [= <-].
  - destruct Hm as (? & ? & Hv). split; [done|]. rewrite Hf. by rewrite Hid in *.
  - by rewrite Hid in Hm.
Qed.

Lemma put_sent e : e ∈ net (put c i n' r') →
  ∃ n1 r1, nodes (put c i n' r') !! from e = Some (n1, r1) ∧ msg_term e ≤ term n1 ∧
    ∀ b, ballot e = Some b → msg_term e = term n1 → vote_of (from e) r1 = Some b.
Proof.
  destruct Hends as (_ & _ & _ & Hle & Hvote & _). destruct put_id as [Hid Hid'].
  intros [He|[Hf He]]%put_msg.
  - destruct (ci_sent _ _ Hc e He) as (n1 & r1 & Hn1 & Ht1 & Hb1).
    destruct (decide (from e = i)) as [Hi|Hi]; [|rewrite put_other by done; eauto].
    rewrite Hi in *. rewrite put_same. assert (n1 = n) as -> by congruence.
    assert (r1 = r) as -> by congruence. exists (drain n'), r'. cbn [term drain].
    split; [done|]. split; [lia|]. intros b Hb Ht. rewrite <-Hid. apply Hvote; [lia|].
    rewrite Hid. apply Hb1; [done|lia].
  - rewrite Hf, put_same. exists (drain n'), r'. cbn [term drain]. split; [done|].
    pose proof He as (_ & Ht & _). split; [lia|]. intros b Hb _.
    by destruct (out_ballot e b He Hb).
Qed.

Lemma put_once e e' b b' : e ∈ net (put c i n' r') → e' ∈ net (put c i n' r') →
  from e = from e' → msg_term e = msg_term e' → ballot e = Some b → ballot e' = Some b' → b = b'.
Proof.
  assert (∀ e1 e2 b1 b2, e1 ∈ net (put c i n' r') → from e2 = i → out_msg (term n) n' r' e2 →
    from e1 = from e2 → msg_term e1 = msg_term e2 →
    ballot e1 = Some b1 → ballot e2 = Some b2 → b1 = b2) as Hnew.
  { intros e1 e2 b1 b2 He1 Hf2 He2 Hf Ht Hb1 Hb2. destruct (out_ballot e2 b2 He2 Hb2) as [Ht2 Hv2].
    destruct (put_sent e1 He1) as (n1 & r1 & Hn1 & _ & Hv1). rewrite Hf, Hf2, put_same in Hn1.
    injection Hn1 as <- <-. rewrite Hf, Hf2 in Hv1. specialize (Hv1 b1 Hb1).
    cbn [term drain] in Hv1. rewrite Hv1 in Hv2 by congruence. by injection Hv2. }
  intros He He' Hf Ht Hb Hb'.
  destruct (put_msg e' He') as [Ho'|[Hf' Ho']]; [|by apply (Hnew e e')].
  destruct (put_msg e He) as [Ho|[Hfe Ho]]; [by apply (ci_once _ _ Hc e e')|].
  symmetry. by apply (Hnew e' e).
Qed.

(** The votes a candidate has counted, and those it now counts. *)
Lemma votes_backed cand (V : gset N) : r = RCandidate cand →
  (∀ x, x ∈ V → x ∈ votes cand ∨ voted input n x) → backed (net c) i (term n) V.
Proof.
  intros -> HV x [Hx|Hx]%HV; [by apply (ci_candidate _ _ Hc i n cand Hn)|by apply Hcount].
Qed.

Lemma put_candidate cand : r' = RCandidate cand →
  backed (net (put c i n' r')) i (term n') (votes cand).
Proof.
  intros Hr. pose proof Hends as (_ & _ & _ & _ & _ & out & Ho & Hf & Hrole).
  rewrite Hr in Hrole. destruct Hrole as [(c0 & Hr0 & -> & HV)|(_ & -> & Hex)].
  - eapply backed_mono; [apply put_net|]. by eapply votes_backed.
  - intros x ->%elem_of_singleton. destruct put_id as [Hid Hid'].
    destruct (set_choose_L _ (proj1 (cluster_peers members c i n r Hc Hsize Hn))) as [p Hp].
    destruct (proj1 (Exists_exists _ _) (Hex p Hp)) as (e & He & Ht & li & lt & Hm).
    exists e. rewrite Forall_forall in Hf. destruct (Hf e He) as [Hfrom _].
    split; [|unfold ballot; rewrite Hm; repeat split; congruence].
    cbn. rewrite Ho. apply elem_of_app. right. apply elem_of_app. by right.
Qed.

Lemma put_leader l : r' = RLeader l → elected members (net (put c i n' r')) i (term n').
Proof.
  intros Hr. pose proof Hends as (_ & _ & _ & _ & _ & out & _ & _ & Hrole).
  destruct (cluster_peers members c i n r Hc Hsize Hn) as [Hp Hsz]. rewrite Hr in Hrole.
  destruct Hrole as [|(-> & [(l0 & Hr0)|(cand & V & Hr0 & HV & Hq)])]; [done|..];
    eapply elected_mono; try apply put_net.
  - eapply ci_leader; [done|]. by rewrite <-Hr0.
  - pose proof (votes_backed cand V Hr0 HV) as Hb. exists V. rewrite <-Hsz.
    split; [|done]. intros x Hx. destruct (Hb x Hx) as (e & He & <- & _).
    destruct (ci_sent _ _ Hc e He) as (n1 & r1 & Hn1 & _). rewrite <-(ci_dom _ _ Hc).
    by apply elem_of_dom_2 in Hn1.
Qed.

Lemma put_inv : cinv members (put c i n' r').
Proof.
  destruct put_id as [Hid Hid']. pose proof Hends as (_ & Hp & Hok & _).
  destruct (ci_node _ _ Hc i n r Hn) as (_ & Hpn & _).
  assert (∀ j n1 r1, nodes (put c i n' r') !! j = Some (n1, r1) →
    (j = i ∧ n1 = drain n' ∧ r1 = r') ∨ (j ≠ i ∧ nodes c !! j = Some (n1, r1))) as Hnodes.
  { intros j n1 r1. destruct (decide (j = i)) as [->|Hj].
    - rewrite put_same. intros [= <- <-]. by left.
    - rewrite put_other by done. by right. }
  split.
  - cbn. rewrite dom_insert_L, (ci_dom _ _ Hc). apply elem_of_dom_2 in Hn.
    rewrite (ci_dom _ _ Hc) in Hn. set_solver.
  - intros j n1 r1 [(-> & -> & ->)|[_ Hj]]%Hnodes; [|by apply (ci_node _ _ Hc)].
    cbn. split; [done|]. split; [congruence|]. done.
  - apply put_sent.
  - apply put_once.
  - intros j n1 cand [(-> & -> & Hr)|[_ Hj]]%Hnodes; [by apply put_candidate|].
    eapply backed_mono; [apply put_net|]. by apply (ci_candidate _ _ Hc).
  - intros j n1 l [(-> & -> & Hr)|[_ Hj]]%Hnodes; [by eapply put_leader|].
    eapply elected_mono; [apply put_net|]. by eapply (ci_leader _ _ Hc).
  - intros e [He|[Hf He]]%put_msg Hcl.
    + eapply elected_mono; [apply put_net|]. by apply (ci_claim _ _ Hc).
    + destruct He as (_ & _ & Hm). unfold claims_leadership in Hcl. rewrite Hf.
      destruct (message e) as [| | |[]| | | |]; try done; destruct Hm as (-> & l & Hr);
        by eapply put_leader.
Qed.
End put.

Lemma no_votes c i n : counted c i None n.
Proof. by intros x (m & ? & _). Qed.

Lemma post_Ok {A} (m : M Node A) n a n' (Q : A → Node → Prop) :
  post m n Q → m n = (Ok a, n') → Q a n'.
Proof. unfold post. intros HQ Hm. by rewrite Hm in HQ. Qed.

(** A restarted node is a follower with the term and vote it stored. *)
Lemma restart_ends i n r sync s drawn l n' r' : id n = i → peers n ≠ ∅ → role_ok n r →
  node_tx n = [] → log_new (engine (log n)) sync = Ok l →
  node_new rand_timeout (raw_node i (peers n) l s drawn) = (Ok r', n') → ends None n r r' n'.
Proof.
  intros Hid Hp Hok Htx Hl Hnew.
  assert (has_vote l (term n, vote_of (id n) r)) as Hv.
  { unfold role_ok, has_vote in *. by rewrite (log_new_engine _ _ _ (proj1 Hok) Hl). }
  destruct (post_Ok _ _ _ _ _ (node_new_ok (raw_node i (peers n) l s drawn) _ Hv Hp) Hnew)
    as (f & -> & Hi' & Hp' & Ht' & Hvf & Hv' & Htx'). cbn in *.
  split; [congruence|]. split; [done|]. split.
  { unfold role_ok. cbn [vote_of]. by rewrite Ht', Hvf. }
  split; [lia|]. split; [intros _ x Hx; cbn; congruence|]. exists []. by rewrite Htx, Htx'.
Qed.

Lemma cstep_inv members c c' : good_size members → cinv members c → cstep c c' → cinv members c'.
Proof.
  intros Hsize Hc Hstep.
  assert (∀ i n r, nodes c !! i = Some (n, r) → N.of_nat (base.size (peers n)) ≤ u8_max) as Hsz.
  { intros i n r Hn. pose proof (proj2 Hsize) as Hs. destruct (cluster_peers members c i n r) as [_ ?]; [done..|].
    lia. }
  destruct Hstep as [e n r n' r' He Hn Hs|i rid req n r n' r' Hn Hs|i n r n' r' Hn Hs
    |i sync s drawn n r l n' r' Hn Hl Hs];
    destruct (ci_node _ _ Hc _ _ _ Hn) as (Hid & Hp & Hok & Htx).
  - eapply (put_inv members c (to e) n n' r r' (Some e)); [done..| |].
    + eapply post_Ok; [by apply node_step_ok; eauto|done].
    + intros x (m & [= <-] & Hm & Ht & Hf & _). exists e. unfold ballot. by rewrite Hm.
  - eapply (put_inv members c i n n' r r'); [done..| |].
    + eapply post_Ok; [|exact Hs]. apply node_step_ok; eauto.
    + by intros x (m & [= <-] & Hm & _).
  - eapply (put_inv members c i n n' r r' None); [done..| |apply no_votes].
    eapply post_Ok; [by apply node_tick_ok|done].
  - eapply (put_inv members c i n n' r r' None); [done..| |apply no_votes].
    eapply restart_ends; [done| |done..]. by destruct (cluster_peers members c i n r).
Qed.

Lemma starts_inv members c : good_size members → starts members c → cinv members c.
Proof.
  intros [Hsize _] (Hnet & Hdom & Hall).
  assert (∀ i n r, nodes c !! i = Some (n, r) → id n = i ∧ peers n = members ∖ {[i]} ∧
    node_tx n = [] ∧ ∃ f, r = RFollower f ∧ role_ok n r) as Hnode.
  { intros i n r Hn. destruct (Hall i n r Hn) as (e & sync & s & drawn & l & n' & He & Hv & Hl & Hs & ->).
    assert (has_vote l (0, None)) as Hvote.
    { unfold has_vote. rewrite (log_new_engine _ _ _ He Hl). split; [done|]. by rewrite Hv. }
    assert (members ∖ {[i]} ≠ ∅) as Hp.
    { intros Hempty. assert (base.size members ≤ base.size (C:=gset N) {[i]})%nat as Hle
        by (apply subseteq_size; intros x Hx; destruct (decide (x = i)); set_solver).
      rewrite size_singleton in Hle. lia. }
    destruct (post_Ok _ _ _ _ _ (node_new_ok (raw_node i (members ∖ {[i]}) l s drawn) _ Hvote Hp) Hs)
      as (f & -> & Hi' & Hp' & Ht' & Hvf & Hv' & Htx'). cbn in *.
    repeat (split; [done|]). exists f. split; [done|]. unfold role_ok. cbn.
    by rewrite Ht', Hvf. }
  split.
  - done.
  - intros i n r Hn. destruct (Hnode i n r Hn) as (? & ? & ? & f & ? & ?). done.
  - rewrite Hnet. by intros e ?%not_elem_of_nil.
  - rewrite Hnet. by intros e e' b b' ?%not_elem_of_nil.
  - intros i n cand Hn. by destruct (Hnode _ _ _ Hn) as (_ & _ & _ & f & ? & _).
  - intros i n l Hn. by destruct (Hnode _ _ _ Hn) as (_ & _ & _ & f & ? & _).
  - rewrite Hnet. by intros e ?%not_elem_of_nil.
Qed.

Lemma csteps_inv members c c' : good_size members → starts members c → csteps c c' →
  cinv members c'.
Proof.
  intros Hsize Hs. induction 1 as [|c1 c2 _ IH Hstep]; [by apply starts_inv|].
  by eapply cstep_inv.
Qed.

(** Terms only grow. *)
Lemma cstep_term members c c' i n r : good_size members → cinv members c → cstep c c' →
  nodes c !! i = Some (n, r) → ∃ n' r', nodes c' !! i = Some (n', r') ∧ term n ≤ term n'.
Proof.
  intros Hsize Hc Hstep Hn.
  assert (∀ j n1 r1 n' r' input, nodes c !! j = Some (n1, r1) → ends input n1 r1 r' n' →
    ∃ n2 r2, nodes (put c j n' r') !! i = Some (n2, r2) ∧ term n ≤ term n2) as Hput.
  { intros j n1 r1 n' r' input Hj (_ & _ & _ & Hle & _). destruct (decide (i = j)) as [<-|Hne].
    - rewrite put_same. assert (n1 = n) as -> by congruence. by exists (drain n'), r'.
    - rewrite put_other by done. exists n, r. split; [done|lia]. }
  destruct Hstep as [e n1 r1 n' r' He Hn1 Hs|j rid req n1 r1 n' r' Hn1 Hs|j n1 r1 n' r' Hn1 Hs
    |j sync s drawn n1 r1 l n' r' Hn1 Hl Hs]; (eapply Hput; [exact Hn1|]);
    destruct (ci_node _ _ Hc _ _ _ Hn1) as (Hid & Hp & Hok & Htx);
    destruct (cluster_peers members c _ n1 r1 Hc Hsize Hn1) as [Hne Hsz];
    pose proof (proj2 Hsize).
  - eapply post_Ok; [|exact Hs]. apply node_step_ok; [done..|lia].
  - eapply post_Ok; [|exact Hs]. apply node_step_ok; [done..|lia].
  - eapply post_Ok; [by apply node_tick_ok|exact Hs].
  - by eapply restart_ends.
Qed.

Lemma csteps_term members c0 c c' i n r : good_size members → starts members c0 → csteps c0 c →
  csteps c c' → nodes c !! i = Some (n, r) →
  ∃ n' r', nodes c' !! i = Some (n', r') ∧ term n ≤ term n'.
Proof.
  intros Hsize Hs Hc Hcs Hn. assert (cinv members c) as Hinv by by eapply csteps_inv.
  assert (cinv members c' ∧ ∃ n' r', nodes c' !! i = Some (n', r') ∧ term n ≤ term n') as [_ ?];
    [|done].
  induction Hcs as [|c1 c2 _ [Hc1 (n1 & r1 & Hn1 & Hle)] Hstep]; [eauto|].
  split; [by eapply cstep_inv|]. destruct (cstep_term _ _ _ _ _ _ Hsize Hc1 Hstep Hn1)
    as (n2 & r2 & Hn2 & Hle'). exists n2, r2. split; [done|lia].
Qed.

(** ** Running a cluster *)

(** What can happen next: the [k]-th message sent so far is delivered, a client
    asks a node, the clock of a node ticks, a node restarts. *)
Inductive Action :=
| Deliver (k : nat)
| Client (i : N) (rid : bytes) (req : Request)
| Tick (i : N)
| RestartNode (i : N) (sync : bool) (s : St) (drawn : nat).

Definition settle (c : Cluster) (i : N) (o : res Role * Node) : option Cluster :=
  match o with (Ok r', n') => Some (put c i n' r') | _ => None end.

Definition act (a : Action) (c : Cluster) : option Cluster :=
  match a with
  | Deliver k =>
      e ← net c !! k;
      '(n, r) ← nodes c !! to e;
      settle c (to e) (node_step rand_timeout r e n)
  | Client i rid req =>
      '(n, r) ← nodes c !! i;
      settle c i (node_step rand_timeout r
        {| from := i; to := i; msg_term := term n; message := ClientRequest rid req |} n)
  | Tick i =>
      '(n, r) ← nodes c !! i;
      settle c i (node_tick rand_timeout r n)
  | RestartNode i sync s drawn =>
      '(n, r) ← nodes c !! i;
      match log_new (engine (log n)) sync with
      | Ok l => settle c i (node_new rand_timeout (raw_node i (peers n) l s drawn))
      | _ => None
      end
  end.

Fixpoint act_all (acts : list Action) (c : Cluster) : option Cluster :=
  match acts with
  | [] => Some c
  | a :: acts => c ← act a c; act_all acts c
  end.

Lemma settle_Some c i o c' : settle c i o = Some c' →
  ∃ r' n', o = (Ok r', n') ∧ c' = put c i n' r'.
Proof. destruct o as [[r'| |] n']; intros [= <-]. eauto. Qed.

Lemma act_step a c c' : act a c = Some c' → cstep c c'.
Proof.
  destruct a as [k|i rid req|i|i sync s drawn]; cbn [act].
  - intros (e & He & ([n r] & Hn & (r' & n' & Hs & ->)%settle_Some)%bind_Some)%bind_Some.
    eapply step_deliver; [by eapply list_elem_of_lookup_2|done|done].
  - intros ([n r] & Hn & (r' & n' & Hs & ->)%settle_Some)%bind_Some. by eapply step_client.
  - intros ([n r] & Hn & (r' & n' & Hs & ->)%settle_Some)%bind_Some. by eapply step_tick.
  - intros ([n r] & Hn & Hl)%bind_Some. destruct (log_new _ _) as [l| |] eqn:El; [|done..].
    apply settle_Some in Hl as (r' & n' & Hs & ->). by eapply step_restart.
Qed.

Lemma csteps_trans c1 c2 c3 : csteps c1 c2 → csteps c2 c3 → csteps c1 c3.
Proof. intros H12. induction 1; [done|]. by eapply csteps_snoc. Qed.

Lemma act_all_steps acts c c' : act_all acts c = Some c' → csteps c c'.
Proof.
  revert c. induction acts as [|a acts IH]; intros c; cbn [act_all].
  - intros [= <-]. constructor.
  - intros (c1 & Ha & Hr)%bind_Some. eapply csteps_trans; [|by apply IH].
    eapply csteps_snoc; [constructor|by eapply act_step].
Qed.
End cluster.
