(* ===== verification/RaftClaims.v ===== *)
(** What the Raft nodes guarantee: quorum arithmetic, commitment of entries,
    election safety in a cluster that loses, reorders and duplicates messages
    and restarts nodes, and two runs that the node code does not handle. *)
From Stdlib Require Import Strings.Byte NArith Lia Sorting.Sorted.
From stdpp Require Import base list gmap strings sorting.
From S2P Require Import Prelude BTreeMap KeyCode Engine KeyStore Memory Bincode RaftLog RaftLogSpec RaftNode RaftVote RaftStep RaftCluster.

#[local] Opaque to_be.

(** * Quorum values *)

(** The number of values that are at least [v]. *)
Definition count_ge (v : N) (values : list N) : nat := length (filter (λ x, v ≤ x) values).

#[local] Instance ge_N_total : Total ge_N.
Proof. intros x y. unfold ge_N. destruct (N.le_ge_cases x y); auto. Qed.
#[local] Instance ge_N_trans : Transitive ge_N.
Proof. intros x y z. unfold ge_N. lia. Qed.

Lemma count_ge_sorted (xs : list N) k v w : StronglySorted ge_N xs → xs !! k = Some v →
  (S k ≤ count_ge w xs)%nat ↔ w ≤ v.
Proof.
  intros Hs Hk. rewrite <-(take_drop_middle xs k v Hk) in Hs |- *. unfold count_ge.
  apply StronglySorted_app in Hs as (Hbefore & _ & Hafter).
  apply StronglySorted_inv in Hafter as [_ Hafter]. rewrite Forall_forall in Hafter.
  assert (length (take k xs) = k) as Hlen.
  { apply length_take_le. apply lookup_lt_Some in Hk. lia. }
  rewrite filter_app, length_app. destruct (decide (w ≤ v)) as [Hv|Hv].
  - split; [done|]. intros _. rewrite filter_id.
    + rewrite filter_cons_True by done. cbn [length]. lia.
    + intros x Hx. specialize (Hbefore x v Hx (list_elem_of_here _ _)). unfold ge_N in Hbefore. lia.
  - split; [|done]. rewrite (filter_none _ (v :: _)).
    + pose proof (length_filter (λ x, w ≤ x) (take k xs)). cbn. lia.
    + intros x [->|Hx%Hafter]%elem_of_cons; [done|]. unfold ge_N in Hx. lia.
Qed.

Lemma count_ge_perm v xs ys : xs ≡ₚ ys → count_ge v xs = count_ge v ys.
Proof. intros Hp. unfold count_ge. by rewrite Hp. Qed.

Lemma quorum_value_ok values : values ≠ [] → N.of_nat (length values) ≤ u8_max →
  ∃ v, quorum_value values = Ok v ∧ v ∈ values ∧
    ∀ w, quorum_size (N.of_nat (length values)) ≤ N.of_nat (count_ge w values) ↔ w ≤ v.
Proof.
  intros Hne Hlen. pose proof (merge_sort_Permutation ge_N values) as Hperm.
  pose proof (StronglySorted_merge_sort ge_N values) as Hs.
  set (q := quorum_size (N.of_nat (length values))).
  assert (N.of_nat (length values) ≠ 0) as Hpos by (by destruct values).
  assert (1 ≤ q ≤ N.of_nat (length values)) as Hq.
  { unfold q, quorum_size. pose proof (N.div_lt (N.of_nat (length values)) 2 ltac:(lia) ltac:(lia)) as Hd.
    revert Hd. generalize (N.of_nat (length values) `div` 2). clear. lia. }
  destruct (lookup_lt_is_Some_2 (merge_sort ge_N values) (N.to_nat q - 1)) as [v Hv].
  { rewrite (Permutation_length Hperm). lia. }
  exists v. split; [|split].
  - unfold quorum_value, as_u8. rewrite N.mod_small by (unfold u8_max in Hlen; lia).
    fold q. rewrite Hv. by destruct values.
  - rewrite <-Hperm. by eapply list_elem_of_lookup_2.
  - intros w. rewrite <-(count_ge_sorted _ _ v w Hs Hv), (count_ge_perm w _ _ Hperm). lia.
Qed.

(** A quorum is a strict majority. *)
Lemma quorum_majority n c : quorum_size n ≤ c ↔ n < 2 * c.
Proof.
  unfold quorum_size. pose proof (N.div_mod n 2 ltac:(done)) as Hd. pose proof (N.mod_lt n 2 ltac:(done)) as Hm.
  revert Hd Hm. generalize (n / 2), (n mod 2). lia.
Qed.

(** The quorum value of a non-empty list of at most 255 values is the greatest
    value that a strict majority of them reaches. *)
Theorem quorum_value_exact (values : list N) :
  values ≠ [] → N.of_nat (length values) ≤ u8_max →
  ∃ v, quorum_value values = Ok v ∧ v ∈ values ∧
    ∀ w, N.of_nat (length values) < 2 * N.of_nat (count_ge w values) ↔ w ≤ v.
Proof.
  intros Hne Hlen. destruct (quorum_value_ok values Hne Hlen) as (v & Hv & Hin & Hc). exists v.
  split_and!; [done..|]. intros w. by rewrite <-quorum_majority.
Qed.

Lemma quorum_value_exact_witness :
  ∃ v, quorum_value [3; 7; 1; 7; 2] = Ok v ∧ v ∈ [3; 7; 1; 7; 2] ∧
    ∀ w, 5 < 2 * N.of_nat (count_ge w [3; 7; 1; 7; 2]) ↔ w ≤ v.
Proof. apply (quorum_value_exact [3; 7; 1; 7; 2]); [done|vm_compute; discriminate]. Defined.

(** * Cluster theorems *)

Section claims.
Context {E : Type} `{EngineLaws E}.
Context `{BincodeLaws (N * option bytes), BincodeLaws (N * N), BincodeLaws (N * option N)}.
Context {St : Type} `{State St}.
Context (rand_timeout : nat → N).

(** ** Commitment *)

(** How far each member of the cluster is known to hold the leader's log. *)
Definition replicas (l : Leader) (n : RawNode (E:=E) (S:=St)) : list N :=
  List.map (λ p : N * Progress, last_replicated p.2) (map_to_list (progress l))
  ++ [(get_last_index (log n)).1].

Lemma node_quorum_value_ok n values v n' :
  node_quorum_value (E:=E) (S:=St) values n = (Ok v, n') →
  n' = n ∧ N.of_nat (length values) = as_u8 (N.of_nat (base.size (peers n))) + 1 ∧
  N.of_nat (length values) ≤ u8_max ∧ quorum_value values = Ok v.
Proof.
  unfold node_quorum_value, cluster_size, asks, check, lift, mbind, M_bind, add_u8.
  destruct (decide (as_u8 _ + 1 ≤ u8_max)) as [Hle|]; [|done].
  destruct (bool_decide _) eqn:Hb; [|done]. apply bool_decide_eq_true in Hb.
  intros [= Hv <-]. by rewrite Hb.
Qed.

(** C33. When a leader advances its commit index to an entry, a strict majority
    of the cluster (the leader and its peers, more than half of them) is known
    to hold the log up to that entry, and the entry is of the leader's own term. *)
Theorem commit_needs_quorum (l l' : Leader) (n n' : RawNode (E:=E) (S:=St)) (ci : N) :
  maybe_commit_and_apply l n = (Ok (ci, l'), n') → (get_commit_index (log n)).1 < ci →
  ci ∈ replicas l n ∧
  N.of_nat (length (replicas l n)) < 2 * N.of_nat (count_ge ci (replicas l n)) ∧
  N.of_nat (length (replicas l n)) = as_u8 (N.of_nat (base.size (peers n))) + 1 ∧
  ∃ entry, (get ci (log n)).1 = Ok (Some entry) ∧ RaftLog.term entry = term n.
Proof.
  intros Hrun Hlt. unfold maybe_commit_and_apply in Hrun.
  apply M_bind_Ok_inv in Hrun as (last & n0 & [= <- <-] & Hrun).
  apply M_bind_Ok_inv in Hrun as (q & n1 & Hq & Hrun).
  change (node_quorum_value (replicas l n) n = (Ok q, n1)) in Hq.
  apply node_quorum_value_ok in Hq as (-> & Hlen & Hmax & Hq).
  apply M_bind_Ok_inv in Hrun as (c & n2 & [= <- <-] & Hrun).
  case_decide as Hle; [injection Hrun as <- _ _; cbn in *; lia|].
  apply M_bind_Ok_inv in Hrun as (o & n3 & Hget & Hrun).
  apply M_bind_Ok_inv in Hrun as (t & n4 & [= <- <-] & Hrun).
  assert (n3 = with_log (log n3) n) as Hn3.
  { unfold on_log in Hget. destruct (get q (log n)) as [? l1]. by injection Hget as _ <-. }
  destruct o as [entry|]; [|done]. case_decide as Ht.
  - apply M_bind_Ok_inv in Hrun as (i & n5 & _ & Hrun).
    apply M_bind_Ok_inv in Hrun as (ws & n6 & _ & [= <- _ _]).
    destruct (quorum_value_ok (replicas l n)) as (v & Hv & Hin & Hcount); [|done|].
    { unfold replicas. by intros [_ ?]%app_nil. }
    assert (v = q) as -> by congruence. split; [done|]. split; [by apply quorum_majority, Hcount|].
    split; [done|]. exists entry. split; [|by rewrite Ht, Hn3].
    unfold on_log in Hget. destruct (get q (log n)). by injection Hget as -> _.
  - injection Hrun as <- _ _. cbn in *. lia.
Qed.

(** ** Elections *)

Context (unlimited : ∀ k v, eng_writable (E:=E) k v).

(** C2. In a cluster whose network may lose, duplicate, delay and reorder
    messages and whose nodes may restart from their logs, no two nodes are
    leaders in the same term, and all heartbeats and appends of a term come from
    its one leader. *)
Theorem election_safety (members : gset N) (c0 c : Cluster (E:=E) (St:=St)) :
  good_size members → starts rand_timeout members c0 → csteps rand_timeout c0 c →
  (∀ i j n1 n2 l1 l2, nodes c !! i = Some (n1, RLeader l1) → nodes c !! j = Some (n2, RLeader l2) →
     term n1 = term n2 → i = j) ∧
  (∀ e1 e2, e1 ∈ net c → e2 ∈ net c → claims_leadership e1 → claims_leadership e2 →
     msg_term e1 = msg_term e2 → from e1 = from e2) ∧
  (∀ e i n l, e ∈ net c → claims_leadership e → nodes c !! i = Some (n, RLeader l) →
     msg_term e = term n → from e = i).
Proof.
  intros Hsize Hs Hc. assert (cinv members c) as Hinv by by eapply csteps_inv.
  split; [|split].
  - intros i j n1 n2 l1 l2 Hi Hj Ht. eapply (elected_unique members c i j (term n1)); [done|..].
    + by eapply ci_leader.
    + rewrite Ht. by eapply ci_leader.
  - intros e1 e2 He1 He2 Hl1 Hl2 Ht. eapply (elected_unique members c _ _ (msg_term e1)); [done|..].
    + by apply (ci_claim _ _ Hinv).
    + rewrite Ht. by apply (ci_claim _ _ Hinv).
  - intros e i n l He Hl Hi Ht. eapply (elected_unique members c _ _ (msg_term e)); [done|..].
    + by apply (ci_claim _ _ Hinv).
    + rewrite Ht. by eapply ci_leader.
Qed.

(** No node, also across restarts, casts ballots for two candidates in one term. *)
Theorem one_vote_per_term (members : gset N) (c0 c : Cluster (E:=E) (St:=St)) (e1 e2 : Envelope) b1 b2 :
  good_size members → starts rand_timeout members c0 → csteps rand_timeout c0 c →
  e1 ∈ net c → e2 ∈ net c → from e1 = from e2 → msg_term e1 = msg_term e2 →
  ballot e1 = Some b1 → ballot e2 = Some b2 → b1 = b2.
Proof.
  intros Hsize Hs Hc. assert (cinv members c) as Hinv by by eapply csteps_inv.
  apply (ci_once _ _ Hinv).
Qed.

(** The term of a node never decreases, also across restarts, and no node has
    sent a message with a term after its own. *)
Theorem terms_grow (members : gset N) (c0 c c' : Cluster (E:=E) (St:=St)) i n r :
  good_size members → starts rand_timeout members c0 → csteps rand_timeout c0 c →
  csteps rand_timeout c c' → nodes c !! i = Some (n, r) →
  (∃ n' r', nodes c' !! i = Some (n', r') ∧ term n ≤ term n') ∧
  ∀ e, e ∈ net c → from e = i → msg_term e ≤ term n.
Proof.
  intros Hsize Hs Hc Hc' Hn. split; [by eapply csteps_term|]. intros e He <-.
  assert (cinv members c) as Hinv by by eapply csteps_inv.
  destruct (ci_sent _ _ Hinv e He) as (n1 & r1 & Hn1 & Ht & _). congruence.
Qed.
End claims.

(** * Runs of a cluster of three *)

Section examples.
#[local] Instance node_payload : Bincode (N * option bytes) := countable_bincode (N * option bytes).
#[local] Instance node_index_term : Bincode (N * N) := countable_bincode (N * N).
#[local] Instance node_term_vote : Bincode (N * option N) := countable_bincode (N * option N).
#[local] Instance node_payload_laws : BincodeLaws (N * option bytes) :=
  countable_bincode_laws (N * option bytes).
#[local] Instance node_index_term_laws : BincodeLaws (N * N) := countable_bincode_laws (N * N).
#[local] Instance node_term_vote_laws : BincodeLaws (N * option N) :=
  countable_bincode_laws (N * option N).

(** A state machine that echoes its commands. *)
Definition echo_apply (e : Entry) : M N bytes := λ _, (Ok (default [] (command e)), index e).
#[local] Instance echo : State N := {
  get_applied_index := λ applied, applied;
  apply_entry := echo_apply;
  read_state := λ command _, Ok command
}.

Definition ten (_ : nat) : N := 10.
Definition three : gset N := {[1; 2; 3]}.

Definition start_node (i : N) : RawNode (E:=Memory) (S:=N) * Role :=
  match log_new Memory.new false with
  | Ok l => match node_new ten (raw_node i (three ∖ {[i]}) l 0 0) with
            | (Ok r, n) => (drain n, r)
            | (_, n) => (n, RCandidate {| votes := ∅; election_duration := 0; c_election_timeout := 0 |})
            end
  | _ => (raw_node i ∅ {| engine := Memory.new; last_index := 0; last_term := 0;
                          commit_index := 0; commit_term := 0; sync := false |} 0 0,
          RCandidate {| votes := ∅; election_duration := 0; c_election_timeout := 0 |})
  end.

Definition start_cluster : Cluster (E:=Memory) (St:=N) := {|
  nodes := list_to_map (List.map (λ i, (i, start_node i)) [1; 2; 3]); net := [] |}.

(** Node 1 times out and wins the votes of node 2. *)
Definition elect : list (Action (St:=N)) := repeat (Tick 1) 10 ++ [Deliver 0; Deliver 2].

Definition cluster_after (acts : list (Action (St:=N))) : Cluster (E:=Memory) (St:=N) :=
  default start_cluster (act_all ten acts start_cluster).

Definition role_after (acts : list (Action (St:=N))) (i : N) : option Role :=
  snd <$> nodes (cluster_after acts) !! i.

(** Node 1 accepts a write and commits it with node 2, which then gets node 1's
    first append late.  Node 2 wins the vote of node 3. *)
Definition lose_write : list (Action (St:=N)) :=
  elect ++ [Client 1 [x07] (ReqWrite [x01]); Deliver 7; Deliver 9; Deliver 5]
  ++ repeat (Tick 2) 10 ++ [Deliver 13; Deliver 14].

Definition entry_after (acts : list (Action (St:=N))) (i at_index : N) : option (res (option Entry)) :=
  (λ p : RawNode (E:=Memory) (S:=N) * Role, (get at_index (log p.1)).1)
    <$> nodes (cluster_after acts) !! i.

Definition start_log : Log Memory := {|
  engine := Memory.new; last_index := 0; last_term := 0; commit_index := 0; commit_term := 0;
  sync := false |}.

Lemma start_cluster_starts : starts ten three start_cluster.
Proof.
  split; [done|]. split; [by apply set_eq; vm_compute; intros x; split|].
  intros i n r Hn. assert (i ∈ [1; 2; 3]) as Hi.
  { apply elem_of_dom_2 in Hn. cbn [nodes start_cluster] in Hn.
    rewrite dom_list_to_map_L in Hn. set_solver. }
  exists Memory.new, false, 0, 0%nat, start_log. rewrite !elem_of_cons in Hi.
  destruct Hi as [->|[->|[->|Hi]]]; [..|by apply not_elem_of_nil in Hi];
    (vm_compute in Hn; injection Hn as <- <-; eexists;
     split; [repeat constructor|]; split; [done|]; split; [by vm_compute|];
     split; [by vm_compute|by vm_compute]).
Qed.

Lemma cluster_after_steps acts : is_Some (act_all ten acts start_cluster) →
  csteps ten start_cluster (cluster_after acts).
Proof. intros [c Hc]. unfold cluster_after. rewrite Hc. by apply (act_all_steps ten acts). Qed.

Lemma memory_unlimited k v : eng_writable (E:=Memory) k v.
Proof. done. Qed.

Lemma three_good : good_size three.
Proof. split; [|vm_compute; discriminate]. vm_compute. lia. Qed.

Lemma election_safety_witness :
  let c := cluster_after elect in
  (∀ i j n1 n2 l1 l2, nodes c !! i = Some (n1, RLeader l1) → nodes c !! j = Some (n2, RLeader l2) →
     term n1 = term n2 → i = j) ∧
  (∃ n l, nodes c !! 1 = Some (n, RLeader l)).
Proof.
  split.
  - refine (proj1 (election_safety (E:=Memory) ten memory_unlimited three start_cluster (cluster_after elect) _ _ _)).
    + apply three_good.
    + apply start_cluster_starts.
    + apply cluster_after_steps. by eexists; vm_compute.
  - vm_compute. eauto.
Defined.

Lemma one_vote_per_term_witness :
  let e := {| from := 2; to := 1; msg_term := 1; message := CampaignResponse true |} in
  e ∈ net (cluster_after elect) ∧
  ∀ e' b, e' ∈ net (cluster_after elect) → from e' = 2 → msg_term e' = 1 → ballot e' = Some b → b = 1.
Proof.
  intros e. assert (e ∈ net (cluster_after elect)) as He.
  { apply (list_elem_of_lookup_2 _ 2). by vm_compute. }
  split; [done|]. intros e' b He' Hf Ht Hb.
  refine (one_vote_per_term (E:=Memory) ten memory_unlimited three start_cluster (cluster_after elect) e' e b 1
    three_good start_cluster_starts _ He' He Hf Ht Hb _).
  - apply cluster_after_steps. by eexists; vm_compute.
  - reflexivity.
Defined.

Lemma terms_grow_witness :
  let c := cluster_after elect in
  ∃ n' r', nodes c !! 2 = Some (n', r') ∧ 0 ≤ term n'.
Proof.
  destruct (nodes start_cluster !! 2) as [[n r]|] eqn:Hn; [|exfalso; vm_compute in Hn; discriminate].
  replace 0 with (term n) by (vm_compute in Hn; injection Hn as <- _; reflexivity).
  refine (proj1 (terms_grow (E:=Memory) ten memory_unlimited three start_cluster start_cluster (cluster_after elect)
    2 n r three_good start_cluster_starts (csteps_refl _ _) _ Hn)).
  apply cluster_after_steps. by eexists; vm_compute.
Defined.

(** The leader of [elect], to which node 3 has acknowledged the first entry. *)
Definition some_leader : Leader * RawNode (E:=Memory) (S:=N) :=
  match nodes (cluster_after elect) !! 1 with
  | Some (n, RLeader l) =>
      (with_progress l (<[3 := {| next := 2; last_replicated := 1; p_read_seq := 0 |}]> (progress l)), n)
  | Some (n, _) => (with_progress {| progress := ∅; l_writes := ∅; reads := []; read_seq := 0;
                                     since_heartbeat := 0 |} ∅, n)
  | None => ({| progress := ∅; l_writes := ∅; reads := []; read_seq := 0; since_heartbeat := 0 |},
             raw_node 1 ∅ start_log 0 0)
  end.

Definition committed_leader : Leader :=
  match (maybe_commit_and_apply some_leader.1 some_leader.2).1 with
  | Ok (_, l') => l'
  | _ => some_leader.1
  end.

Lemma commit_needs_quorum_witness :
  let l := some_leader.1 in let n := some_leader.2 in
  1 ∈ replicas l n ∧
  N.of_nat (length (replicas l n)) < 2 * N.of_nat (count_ge 1 (replicas l n)) ∧
  N.of_nat (length (replicas l n)) = as_u8 (N.of_nat (base.size (peers n))) + 1 ∧
  ∃ entry, (get 1 (log n)).1 = Ok (Some entry) ∧ RaftLog.term entry = term n.
Proof.
  refine (commit_needs_quorum some_leader.1 committed_leader some_leader.2
    (maybe_commit_and_apply some_leader.1 some_leader.2).2 1 _ _); vm_compute; reflexivity.
Defined.

(** ** Runs that go wrong *)

(** C38. A reachable run of a cluster of three in which a client gets a
    successful answer to a write, the write is committed on the old leader, and
    the leader of the next term has a different entry at its index: a late
    append made a follower drop the entry. *)
Theorem acknowledged_write_lost :
  let c := cluster_after lose_write in
  starts ten three start_cluster ∧ csteps ten start_cluster c ∧
  {| from := 1; to := 1; msg_term := 1;
     message := ClientResponse [x07] (Ok (RespWrite [x01])) |} ∈ net c ∧
  (∃ n r, nodes c !! 1 = Some (n, r) ∧ get_commit_index (log n) = (2, 1) ∧
     (get 2 (log n)).1 = Ok (Some {| index := 2; RaftLog.term := 1; command := Some [x01] |})) ∧
  (∃ n l, nodes c !! 2 = Some (n, RLeader l) ∧ term n = 2 ∧
     (get 2 (log n)).1 = Ok (Some {| index := 2; RaftLog.term := 2; command := None |})).
Proof.
  intros c. split; [apply start_cluster_starts|].
  split; [apply cluster_after_steps; by eexists; vm_compute|].
  split; [apply (list_elem_of_lookup_2 _ 10); by vm_compute|].
  split; vm_compute; eauto 10.
Qed.

(** A leader restarts while a response to its heartbeat is on the way. *)
Definition restart_leader : list (Action (St:=N)) :=
  elect ++ [Deliver 3; RestartNode 1 false 0 0].

(** What a node returns when a message is delivered to it. *)
Definition delivery (c : Cluster (E:=Memory) (St:=N)) (e : Envelope) : option (res Role) :=
  (λ p : RawNode * Role, (node_step ten p.2 e p.1).1) <$> nodes c !! to e.

(** A reachable run of a cluster of three in which a leader restarts and then
    panics on the answer to a heartbeat it sent before. *)
Theorem restarted_leader_panics :
  let c := cluster_after restart_leader in
  let e := {| from := 2; to := 1; msg_term := 1; message := HeartbeatResponse 0 0 0 |} in
  starts ten three start_cluster ∧ csteps ten start_cluster c ∧ e ∈ net c ∧
  delivery c e = Some (Panic "Received unexpected message").
Proof.
  intros c e. split; [apply start_cluster_starts|].
  split; [apply cluster_after_steps; by eexists; vm_compute|].
  split; [apply (list_elem_of_lookup_2 _ 7); by vm_compute|].
  vm_compute. reflexivity.
Qed.
End examples.
