(* ===== verification/SqlTypes.v ===== *)
(** SQL values (src/src/sql/types/mod.rs) and the 64-bit arithmetic that
    expressions use.

    Floats are IEEE 754 binary64 values without NaN payloads, which the language
    leaves unspecified.  Strings are their UTF-8 bytes. *)
From Stdlib Require Import Strings.Byte NArith ZArith Lia Floats.SpecFloat.
From stdpp Require Import base list strings.
From S2P Require Import Prelude KeyCode.

Open Scope Z_scope.

(** * Integers *)

(** The result of [checked_add] and the like. *)
Definition in_i64 (z : Z) : bool := (i64_min <=? z) && (z <=? i64_max).
Definition checked (z : Z) : option Z := if in_i64 z then Some z else None.

(** [checked_pow]. *)
Definition checked_pow (z n : Z) : option Z :=
  if n =? 0 then Some 1
  else if z =? 0 then Some 0
  else if z =? 1 then Some 1
  else if z =? -1 then Some (if Z.even n then 1 else -1)
  else if 63 <? n then None
  else checked (z ^ n).

(** [z as u32] and [z as i32]. *)
Definition z_as_u32 (z : Z) : Z := z mod 4294967296.
Definition z_as_i32 (z : Z) : Z :=
  let m := z_as_u32 z in if m <? 2147483648 then m else m - 4294967296.

(** [(1..=i).product()]: an overflow panics, at 21 at the latest. *)
Fixpoint product (ks : list Z) (acc : Z) : res Z :=
  match ks with
  | [] => Ok acc
  | k :: ks =>
      if in_i64 (acc * k) then product ks (acc * k)
      else Panic "attempt to multiply with overflow"
  end.
Definition factorial (i : Z) : res Z :=
  product (Z.of_nat <$> seq 1 (Z.to_nat (Z.min i 21))) 1.

(** * Floats *)

Abbreviation f64 := spec_float.

Definition f64_of_Z (z : Z) : f64 := binary_normalize 53 1024 z 0 false.
Definition f64_add : f64 → f64 → f64 := SFadd 53 1024.
Definition f64_sub : f64 → f64 → f64 := SFsub 53 1024.
Definition f64_mul : f64 → f64 → f64 := SFmul 53 1024.
Definition f64_div : f64 → f64 → f64 := SFdiv 53 1024.

(** The remainder of a division that rounds toward zero; it is exact. *)
Definition f64_rem (x y : f64) : f64 :=
  match x, y with
  | S754_nan, _ | _, S754_nan | S754_infinity _, _ | _, S754_zero _ => S754_nan
  | S754_zero _, _ | S754_finite _ _ _, S754_infinity _ => x
  | S754_finite s m e, S754_finite _ m' e' =>
      let e0 := Z.min e e' in
      let r := (Zpos m * 2 ^ (e - e0)) mod (Zpos m' * 2 ^ (e' - e0)) in
      if r =? 0 then S754_zero s
      else binary_normalize 53 1024 (if s then - r else r) e0 s
  end.

(** [powf] and [powi], whose precision the language leaves to the platform. *)
Class Libm := {
  f64_powf : f64 → f64 → f64;
  f64_powi : f64 → Z → f64
}.

(** * Data types and values *)

Inductive DataType := TBoolean | TInteger | TFloat | TString.

#[export] Instance DataType_eq_dec : EqDecision DataType.
Proof. solve_decision. Defined.

Inductive Value :=
| Null
| Boolean (b : bool)
| Integer (i : Z)
| Float (f : f64)
| String (s : list byte).

#[export] Instance spec_float_eq_dec : EqDecision spec_float.
Proof. solve_decision. Defined.
#[export] Instance Value_eq_dec : EqDecision Value.
Proof. solve_decision. Defined.

Definition datatype (v : Value) : option DataType :=
  match v with
  | Null => None
  | Boolean _ => Some TBoolean
  | Integer _ => Some TInteger
  | Float _ => Some TFloat
  | String _ => Some TString
  end.

(** A value as an argument of a formatted message. *)
Definition show (v : Value) : fmt_arg :=
  match v with
  | Null => FText "NULL"
  | Boolean true => FText "TRUE"
  | Boolean false => FText "FALSE"
  | Integer i => FInt i
  | Float f => FFloat f
  | String s => FBytes s
  end.

Definition value_error {A} (template : string) (args : list fmt_arg) : res A :=
  Err (EValue (Msg template args)).

Definition boolean (v : Value) : res bool :=
  match v with Boolean b => Ok b | v => value_error "Not a boolean: {:?}" [show v] end.
Definition float (v : Value) : res f64 :=
  match v with Float f => Ok f | v => value_error "Not a float: {:?}" [show v] end.
Definition integer (v : Value) : res Z :=
  match v with Integer i => Ok i | v => value_error "Not an integer: {:?}" [show v] end.
Definition string_value (v : Value) : res (list byte) :=
  match v with String s => Ok s | v => value_error "Not a string: {:?}" [show v] end.

(** The derived [PartialEq]: floats compare as numbers. *)
Definition value_eq (a b : Value) : bool :=
  match a, b with
  | Null, Null => true
  | Boolean a, Boolean b => Bool.eqb a b
  | Integer a, Integer b => a =? b
  | Float a, Float b => SFeqb a b
  | String a, String b => bool_decide (a = b)
  | _, _ => false
  end.

(** [PartialOrd]. *)
Definition bool_cmp (a b : bool) : comparison :=
  match a, b with
  | false, true => Lt
  | true, false => Gt
  | _, _ => Eq
  end.

Definition partial_cmp (a b : Value) : option comparison :=
  match a, b with
  | Null, Null => Some Eq
  | Null, _ => Some Lt
  | _, Null => Some Gt
  | Boolean a, Boolean b => Some (bool_cmp a b)
  | Float a, Float b => SFcompare a b
  | Float a, Integer b => SFcompare a (f64_of_Z b)
  | Integer a, Float b => SFcompare (f64_of_Z a) b
  | Integer a, Integer b => Some (a ?= b)
  | String a, String b => Some (bytes_cmp a b)
  | _, _ => None
  end.

(** [Hash]: what is fed to the hasher, with a bound on the depth of calls. *)
Inductive HashInput :=
| HType (t : option DataType)
| HBool (b : bool)
| HInt (z : Z)
| HFloat (f : f64)
| HStr (s : list byte).

Fixpoint hash (depth : nat) (v : Value) : option (list HashInput) :=
  match depth with
  | O => None
  | S depth =>
      (λ rest, HType (datatype v) :: rest) <$>
      match v with
      | Null => hash depth v
      | Boolean b => Some [HBool b]
      | Integer i => Some [HInt i]
      | Float f => Some [HFloat f]
      | String s => Some [HStr s]
      end
  end.

Abbreviation Row := (list Value).
Record Column := { col_name : option (list byte) }.

(** * Properties of the arithmetic *)

Definition value_ok (v : Value) : Prop :=
  match v with Integer i => i64_valid i | _ => True end.

Lemma in_i64_spec z : in_i64 z = true ↔ i64_valid z.
Proof. unfold in_i64, i64_valid. rewrite andb_true_iff, !Z.leb_le. done. Qed.

Lemma checked_spec z r : checked z = Some r ↔ r = z ∧ i64_valid z.
Proof.
  unfold checked. destruct (in_i64 z) eqn:E.
  - apply in_i64_spec in E. split; [by intros [= <-]|by intros [-> _]].
  - split; [done|]. intros [_ Hv%in_i64_spec]. congruence.
Qed.

Lemma pow_one n : 0 ≤ n → (-1) ^ n = if Z.even n then 1 else -1.
Proof.
  intros Hn. destruct (Z.even n) eqn:Ev.
  - apply Z.even_spec in Ev as [k ->]. rewrite Z.pow_mul_r by lia. by rewrite Z.pow_1_l by lia.
  - assert (Z.odd n = true) as [k ->]%Z.odd_spec by (rewrite <-Z.negb_even; by rewrite Ev).
    rewrite Z.pow_add_r, Z.pow_mul_r by lia. by rewrite Z.pow_1_l by lia.
Qed.

(** Raising to a power overflows exactly when the power is out of range. *)
Lemma checked_pow_spec z n : 0 ≤ n → checked_pow z n = checked (z ^ n).
Proof.
  intros Hn. unfold checked_pow. destruct (Z.eqb_spec n 0) as [->|Hn0]; [done|].
  destruct (Z.eqb_spec z 0) as [->|Hz0]; [by rewrite Z.pow_0_l by lia|].
  destruct (Z.eqb_spec z 1) as [->|Hz1]; [by rewrite Z.pow_1_l by lia|].
  destruct (Z.eqb_spec z (-1)) as [->|Hzm]; [rewrite pow_one by lia; by destruct (Z.even n)|].
  destruct (Z.ltb_spec 63 n) as [Hbig|]; [|done].
  unfold checked. destruct (in_i64 (z ^ n)) eqn:E; [|done]. exfalso.
  apply in_i64_spec in E. unfold i64_valid, i64_min, i64_max in E.
  assert (2 ^ 64 ≤ Z.abs (z ^ n)); [|lia]. rewrite Z.abs_pow.
  transitivity (2 ^ n); [by apply Z.pow_le_mono_r; lia|]. apply Z.pow_le_mono_l. lia.
Qed.
