(* ===== verification/SqlExpression.v ===== *)
(** SQL expressions (src/src/sql/types/expression.rs): evaluation, tree
    transformations, normal forms and lookups.

    The regex crate is the parameter [Regex]; [powf] and [powi] are the
    parameter [Libm].  Recursion that is not structural takes fuel: the size of
    the expression is enough, as [normalize_Ok] and [flatten_Ok] show. *)
From Stdlib Require Import Strings.Byte NArith ZArith Lia Floats.SpecFloat.
From stdpp Require Import base list strings.
From S2P Require Import Prelude KeyCode SqlTypes.

(** Regular expressions: [regex::escape], and [Regex::new(pattern)?.is_match]. *)
Class Regex := {
  regex_escape : list byte → list byte;
  regex_is_match : list byte → list byte → res bool
}.

Definition Label : Type := option (option (list byte) * list byte).

Inductive Expression :=
| Constant (v : Value)
| Field (i : N) (label : Label)
| And (lhs rhs : Expression)
| Not (e : Expression)
| Or (lhs rhs : Expression)
| Equal (lhs rhs : Expression)
| GreaterThan (lhs rhs : Expression)
| IsNull (e : Expression)
| LessThan (lhs rhs : Expression)
| Add (lhs rhs : Expression)
| Assert (e : Expression)
| Divide (lhs rhs : Expression)
| Exponentiate (lhs rhs : Expression)
| Factorial (e : Expression)
| Modulo (lhs rhs : Expression)
| Multiply (lhs rhs : Expression)
| Negate (e : Expression)
| Subtract (lhs rhs : Expression)
| Like (lhs rhs : Expression).

#[export] Instance Expression_eq_dec : EqDecision Expression.
Proof. solve_decision. Defined.

(** * Operations on values *)

Definition eval_and (l r : Value) : res Value :=
  match l, r with
  | Boolean l, Boolean r => Ok (Boolean (l && r))
  | Boolean l, Null => Ok (if l then Null else Boolean false)
  | Null, Boolean r => Ok (if r then Null else Boolean false)
  | Null, Null => Ok Null
  | l, r => value_error "Can't and {} and {}" [show l; show r]
  end.

Definition eval_not (v : Value) : res Value :=
  match v with
  | Boolean b => Ok (Boolean (negb b))
  | Null => Ok Null
  | v => value_error "Can't negate {}" [show v]
  end.

Definition eval_or (l r : Value) : res Value :=
  match l, r with
  | Boolean l, Boolean r => Ok (Boolean (l || r))
  | Boolean l, Null => Ok (if l then Boolean true else Null)
  | Null, Boolean r => Ok (if r then Boolean true else Null)
  | Null, Null => Ok Null
  | l, r => value_error "Can't or {} and {}" [show l; show r]
  end.

Definition eval_equal (l r : Value) : res Value :=
  match l, r with
  | Boolean l, Boolean r => Ok (Boolean (Bool.eqb l r))
  | Integer l, Integer r => Ok (Boolean (l =? r)%Z)
  | Integer l, Float r => Ok (Boolean (SFeqb (f64_of_Z l) r))
  | Float l, Integer r => Ok (Boolean (SFeqb l (f64_of_Z r)))
  | Float l, Float r => Ok (Boolean (SFeqb l r))
  | String l, String r => Ok (Boolean (bool_decide (l = r)))
  | Null, _ | _, Null => Ok Null
  | l, r => value_error "Can't compare {} and {}" [show l; show r]
  end.

Definition eval_less (l r : Value) : res Value :=
  match l, r with
  | Boolean l, Boolean r => Ok (Boolean (negb l && r))
  | Integer l, Integer r => Ok (Boolean (l <? r)%Z)
  | Integer l, Float r => Ok (Boolean (SFltb (f64_of_Z l) r))
  | Float l, Integer r => Ok (Boolean (SFltb l (f64_of_Z r)))
  | Float l, Float r => Ok (Boolean (SFltb l r))
  | String l, String r => Ok (Boolean (if bytes_cmp l r is Lt then true else false))
  | Null, _ | _, Null => Ok Null
  | l, r => value_error "Can't compare {} and {}" [show l; show r]
  end.

Definition eval_greater (l r : Value) : res Value :=
  match l, r with
  | Boolean l, Boolean r => Ok (Boolean (l && negb r))
  | Integer l, Integer r => Ok (Boolean (r <? l)%Z)
  | Integer l, Float r => Ok (Boolean (SFltb r (f64_of_Z l)))
  | Float l, Integer r => Ok (Boolean (SFltb (f64_of_Z r) l))
  | Float l, Float r => Ok (Boolean (SFltb r l))
  | String l, String r => Ok (Boolean (if bytes_cmp l r is Gt then true else false))
  | Null, _ | _, Null => Ok Null
  | l, r => value_error "Can't compare {} and {}" [show l; show r]
  end.

Definition eval_is_null (v : Value) : res Value :=
  match v with Null => Ok (Boolean true) | _ => Ok (Boolean false) end.

Definition overflow (o : option Z) : res Value :=
  match o with Some z => Ok (Integer z) | None => value_error "Integer overflow" [] end.

(** The cases that all binary arithmetic operators share: an integer meets a
    float as a float, and NULL absorbs numbers. *)
Definition eval_arith (what : string) (on_int : Z → Z → res Value) (on_float : f64 → f64 → f64)
    (l r : Value) : res Value :=
  match l, r with
  | Integer l, Integer r => on_int l r
  | Integer l, Float r => Ok (Float (on_float (f64_of_Z l) r))
  | Float l, Integer r => Ok (Float (on_float l (f64_of_Z r)))
  | Float l, Float r => Ok (Float (on_float l r))
  | (Integer _ | Float _ | Null), Null | Null, (Integer _ | Float _) => Ok Null
  | l, r => value_error what [show l; show r]
  end.

Definition eval_add : Value → Value → res Value :=
  eval_arith "Can't add {} and {}" (λ l r, overflow (checked (l + r)%Z)) f64_add.
Definition eval_subtract : Value → Value → res Value :=
  eval_arith "Can't subtract {} and {}" (λ l r, overflow (checked (l - r)%Z)) f64_sub.
Definition eval_multiply : Value → Value → res Value :=
  eval_arith "Can't multiply {} and {}" (λ l r, overflow (checked (l * r)%Z)) f64_mul.

Definition eval_divide : Value → Value → res Value :=
  eval_arith "Can't divide {} and {}" (λ l r,
    if (r =? 0)%Z then value_error "Can't divide by zero" []
    else if in_i64 (Z.quot l r) then Ok (Integer (Z.quot l r))
    else Panic "attempt to divide with overflow") f64_div.

(** [%] panics when the division would overflow. *)
Definition eval_modulo : Value → Value → res Value :=
  eval_arith "Can't take modulo of {} and {}" (λ l r,
    if (r =? 0)%Z then value_error "Can't divide by zero" []
    else if in_i64 (Z.quot l r) then Ok (Integer (Z.rem l r))
    else Panic "attempt to calculate the remainder with overflow") f64_rem.

Definition eval_assert (v : Value) : res Value :=
  match v with
  | Float f => Ok (Float f)
  | Integer i => Ok (Integer i)
  | Null => Ok Null
  | v => value_error "Can't take the positive of {}" [show v]
  end.

Definition eval_negate (v : Value) : res Value :=
  match v with
  | Integer i => if in_i64 (- i)%Z then Ok (Integer (- i)%Z)
                 else Panic "attempt to negate with overflow"
  | Float f => Ok (Float (SFopp f))
  | Null => Ok Null
  | v => value_error "Can't negate {}" [show v]
  end.

Definition eval_factorial (v : Value) : res Value :=
  match v with
  | Integer i =>
      if (i <? 0)%Z then value_error "Can't take factorial of negative number" []
      else n ← factorial i; Ok (Integer n)
  | Null => Ok Null
  | v => value_error "Can't take factorial of {}" [show v]
  end.

(** [str::replace]: the matches from the left that do not overlap. *)
Fixpoint replace_loop (fuel : nat) (pat rep s : list byte) : list byte :=
  match fuel, s with
  | O, _ | _, [] => s
  | Datatypes.S fuel, b :: rest =>
      if decide (take (length pat) s = pat) then rep ++ replace_loop fuel pat rep (drop (length pat) s)
      else b :: replace_loop fuel pat rep rest
  end.
Definition str_replace (pat rep s : list byte) : list byte := replace_loop (length s) pat rep s.

Section evaluate.
Context `{Libm, Regex}.

Definition eval_exponentiate (l r : Value) : res Value :=
  match l, r with
  | Integer l, Integer r =>
      if (0 <=? r)%Z then overflow (checked_pow l (z_as_u32 r))
      else Ok (Float (f64_powf (f64_of_Z l) (f64_of_Z r)))
  | Integer l, Float r => Ok (Float (f64_powf (f64_of_Z l) r))
  | Float l, Integer r => Ok (Float (f64_powi l (z_as_i32 r)))
  | Float l, Float r => Ok (Float (f64_powf l r))
  | (Integer _ | Float _ | Null), Null | Null, (Integer _ | Float _) => Ok Null
  | l, r => value_error "Can't exponentiate {} and {}" [show l; show r]
  end.

(** The regular expression for a LIKE pattern: [%] becomes [.*], a doubled one
    a literal [%]; [_] becomes [.], a doubled one a literal [_]. *)
Definition like_pattern (p : list byte) : list byte :=
  [x5e] ++ str_replace [x2e; x2e] [x5f]
    (str_replace [x5f] [x2e]
      (str_replace [x2e; x2a; x2e; x2a] [x25]
        (str_replace [x25] [x2e; x2a] (regex_escape p)))) ++ [x24].

Definition eval_like (l r : Value) : res Value :=
  match l, r with
  | String l, String r => b ← regex_is_match (like_pattern r) l; Ok (Boolean b)
  | String _, Null | Null, String _ => Ok Null
  | l, r => value_error "Can't LIKE {} and {}" [show l; show r]
  end.

(** ** [Expression::evaluate] *)

Definition field_value (row : option Row) (i : N) : Value :=
  default Null (row ≫= λ r, r !! N.to_nat i).

Fixpoint evaluate (e : Expression) (row : option Row) : res Value :=
  let binary (op : Value → Value → res Value) (lhs rhs : Expression) :=
    l ← evaluate lhs row; r ← evaluate rhs row; op l r in
  let unary (op : Value → res Value) (e : Expression) := v ← evaluate e row; op v in
  match e with
  | Constant c => Ok c
  | Field i _ => Ok (field_value row i)
  | And l r => binary eval_and l r
  | Not e => unary eval_not e
  | Or l r => binary eval_or l r
  | Equal l r => binary eval_equal l r
  | GreaterThan l r => binary eval_greater l r
  | LessThan l r => binary eval_less l r
  | IsNull e => unary eval_is_null e
  | Add l r => binary eval_add l r
  | Assert e => unary eval_assert e
  | Divide l r => binary eval_divide l r
  | Exponentiate l r => binary eval_exponentiate l r
  | Factorial e => unary eval_factorial e
  | Modulo l r => binary eval_modulo l r
  | Multiply l r => binary eval_multiply l r
  | Negate e => unary eval_negate e
  | Subtract l r => binary eval_subtract l r
  | Like l r => binary eval_like l r
  end.
End evaluate.

(** * Trees *)

(** What [transform] does below a node: [f] on each child, in order. *)
Definition map_children (f : Expression → res Expression) (e : Expression) : res Expression :=
  let binary (c : Expression → Expression → Expression) l r :=
    l ← f l; r ← f r; Ok (c l r) in
  let unary (c : Expression → Expression) e := e ← f e; Ok (c e) in
  match e with
  | Add l r => binary Add l r
  | And l r => binary And l r
  | Divide l r => binary Divide l r
  | Equal l r => binary Equal l r
  | Exponentiate l r => binary Exponentiate l r
  | GreaterThan l r => binary GreaterThan l r
  | LessThan l r => binary LessThan l r
  | Like l r => binary Like l r
  | Modulo l r => binary Modulo l r
  | Multiply l r => binary Multiply l r
  | Or l r => binary Or l r
  | Subtract l r => binary Subtract l r
  | Assert e => unary Assert e
  | Factorial e => unary Factorial e
  | IsNull e => unary IsNull e
  | Negate e => unary Negate e
  | Not e => unary Not e
  | Constant _ | Field _ _ => Ok e
  end.

(** [Expression::transform]. *)
Fixpoint transform (fuel : nat) (before after : Expression → res Expression) (e : Expression)
    : res Expression :=
  match fuel with
  | O => Panic "transform: out of fuel"
  | Datatypes.S fuel =>
      e ← before e;
      e ← map_children (transform fuel before after) e;
      after e
  end.

(** [Expression::walk] and [Expression::contains]. *)
Fixpoint walk (visitor : Expression → bool) (e : Expression) : bool :=
  visitor e &&
  match e with
  | Add l r | And l r | Divide l r | Equal l r | Exponentiate l r | GreaterThan l r
  | LessThan l r | Like l r | Modulo l r | Multiply l r | Or l r | Subtract l r =>
      walk visitor l && walk visitor r
  | Assert e | Factorial e | IsNull e | Negate e | Not e => walk visitor e
  | Constant _ | Field _ _ => true
  end.
Definition contains (visitor : Expression → bool) (e : Expression) : bool :=
  negb (walk (λ e, negb (visitor e)) e).

(** The number of nodes. *)
Fixpoint expr_size (e : Expression) : nat :=
  match e with
  | Add l r | And l r | Divide l r | Equal l r | Exponentiate l r | GreaterThan l r
  | LessThan l r | Like l r | Modulo l r | Multiply l r | Or l r | Subtract l r =>
      1 + expr_size l + expr_size r
  | Assert e | Factorial e | IsNull e | Negate e | Not e => 1 + expr_size e
  | Constant _ | Field _ _ => 1
  end.

(** * Normal forms *)

(** The closures of [into_nnf], [into_cnf] and [into_dnf]. *)
Definition push_not (e : Expression) : Expression :=
  match e with
  | Not (And l r) => Or (Not l) (Not r)
  | Not (Or l r) => And (Not l) (Not r)
  | Not (Not e) => e
  | e => e
  end.
Definition distribute_or (e : Expression) : Expression :=
  match e with
  | Or (And ll lr) r => And (Or ll r) (Or lr r)
  | Or l (And rl rr) => And (Or l rl) (Or l rr)
  | e => e
  end.
Definition distribute_and (e : Expression) : Expression :=
  match e with
  | And (Or ll lr) r => Or (And ll r) (And lr r)
  | And l (Or rl rr) => Or (And l rl) (And l rr)
  | e => e
  end.

Definition normalize (f : Expression → Expression) (e : Expression) : res Expression :=
  transform (expr_size e) (λ e, Ok (f e)) Ok e.

(** [.unwrap()] of a result: these closures do not fail. *)
Definition into_nnf (e : Expression) : res Expression := normalize push_not e.
Definition into_cnf (e : Expression) : res Expression :=
  e ← into_nnf e; normalize distribute_or e.
Definition into_dnf (e : Expression) : res Expression :=
  e ← into_nnf e; normalize distribute_and e.

(** The loops of [into_cnf_vec] and [into_dnf_vec]; the stack's top is the
    head. *)
Fixpoint flatten (fuel : nat) (split : Expression → option (Expression * Expression))
    (stack out : list Expression) : res (list Expression) :=
  match fuel, stack with
  | _, [] => Ok out
  | O, _ => Panic "flatten: out of fuel"
  | Datatypes.S fuel, e :: stack =>
      match split e with
      | Some (l, r) => flatten fuel split (l :: r :: stack) out
      | None => flatten fuel split stack (out ++ [e])
      end
  end.
Definition split_and (e : Expression) : option (Expression * Expression) :=
  match e with And l r => Some (l, r) | _ => None end.
Definition split_or (e : Expression) : option (Expression * Expression) :=
  match e with Or l r => Some (l, r) | _ => None end.

Definition into_cnf_vec (e : Expression) : res (list Expression) :=
  e ← into_cnf e; flatten (expr_size e) split_and [e] [].
Definition into_dnf_vec (e : Expression) : res (list Expression) :=
  e ← into_dnf e; flatten (expr_size e) split_or [e] [].

Definition from_cnf_vec (cnf : list Expression) : option Expression :=
  match cnf with
  | [] => None
  | e :: rest => Some (foldl And e rest)
  end.
Definition from_dnf_vec (dnf : list Expression) : option Expression :=
  match dnf with
  | [] => None
  | e :: rest => Some (foldl Or e rest)
  end.

(** * Lookups *)

Fixpoint as_lookup (e : Expression) (field : N) : option (list Value) :=
  match e with
  | Equal (Field i _) (Constant v) => if decide (i = field) then Some [v] else None
  | Equal (Constant v) (Field i _) => if decide (i = field) then Some [v] else None
  | IsNull (Field i _) => if decide (i = field) then Some [Null] else None
  | Or l r =>
      match as_lookup l field, as_lookup r field with
      | Some lvalues, Some rvalues => Some (lvalues ++ rvalues)
      | _, _ => None
      end
  | _ => None
  end.

Definition from_lookup (field : N) (label : Label) (values : list Value) : res Expression :=
  match values with
  | [] => Ok (Equal (Field field label) (Constant Null))
  | _ =>
      match from_dnf_vec ((λ v, Equal (Field field label) (Constant v)) <$> values) with
      | Some e => Ok e
      | None => Panic "called `Option::unwrap()` on a `None` value"
      end
  end.

(** * The expression rewrites of the plan optimizers

    Constant folding and noop cleaning (src/src/sql/plan/optimizer.rs). *)

Definition is_field (e : Expression) : bool :=
  match e with Field _ _ => true | _ => false end.

Section fold.
Context `{Libm, Regex}.

(** The closure of [ConstantFolder::optimize], and what it does to an
    expression of a plan node. *)
Definition fold_constant (e : Expression) : res Expression :=
  if contains is_field e then Ok e
  else v ← evaluate e None; Ok (Constant v).
Definition fold_constants (e : Expression) : res Expression :=
  transform (expr_size e) fold_constant Ok e.
End fold.

(** The closure of [NoopCleaner::optimize] for expressions. *)
Definition noop_clean (e : Expression) : Expression :=
  match e with
  | And (Constant (Boolean false)) _ | And (Constant Null) _
  | And _ (Constant (Boolean false)) | And _ (Constant Null) => Constant (Boolean false)
  | And (Constant (Boolean true)) e | And e (Constant (Boolean true)) => e
  | Or (Constant (Boolean false)) e | Or (Constant Null) e
  | Or e (Constant (Boolean false)) | Or e (Constant Null) => e
  | Or (Constant (Boolean true)) _ | Or _ (Constant (Boolean true)) => Constant (Boolean true)
  | e => e
  end.
Definition clean_noops (e : Expression) : res Expression :=
  transform (expr_size e) Ok (λ e, Ok (noop_clean e)) e.
