(* ===== verification/SqlRewrite.v ===== *)
(** Rewriting SQL expressions: when one expression stands for another, and that
    the tree transformations terminate and keep the value. *)
From Stdlib Require Import Strings.Byte NArith ZArith Lia.
From stdpp Require Import base list strings.
From S2P Require Import Prelude KeyCode SqlTypes SqlExpression.

(** * Shapes *)

Definition children (e : Expression) : list Expression :=
  match e with
  | Add l r | And l r | Divide l r | Equal l r | Exponentiate l r | GreaterThan l r
  | LessThan l r | Like l r | Modulo l r | Multiply l r | Or l r | Subtract l r => [l; r]
  | Assert e | Factorial e | IsNull e | Negate e | Not e => [e]
  | Constant _ | Field _ _ => []
  end.

Lemma children_smaller e x : x ∈ children e → (expr_size x < expr_size e)%nat.
Proof.
  destruct e; cbn; rewrite ?elem_of_cons, ?elem_of_nil; intros; destruct_or?; subst; try done; lia.
Qed.

Lemma map_children_total (f : Expression → res Expression) e :
  (∀ x, x ∈ children e → ∃ y, f x = Ok y) → ∃ e', map_children f e = Ok e'.
Proof.
  intros Hf.
  destruct e as [v|i lb|l r|x|l r|l r|l r|x|l r|l r|x|l r|l r|x|l r|l r|x|l r|l r]; cbn in *;
    first
    [ by eauto
    | destruct (Hf x) as [y ->]; [by constructor|]; by eauto
    | destruct (Hf l) as [l' ->]; [by constructor|];
      destruct (Hf r) as [r' ->]; [by repeat constructor|]; by eauto ].
Qed.

(** A rewrite whose result has only smaller children. *)
Definition shrinks (f : Expression → res Expression) : Prop :=
  ∀ e, ∃ e', f e = Ok e' ∧ ∀ x, x ∈ children e' → (expr_size x < expr_size e)%nat.

Lemma transform_total fuel before (after : Expression → res Expression) e : shrinks before →
  (∀ x, ∃ y, after x = Ok y) → (expr_size e ≤ fuel)%nat → ∃ e', transform fuel before after e = Ok e'.
Proof.
  intros Hb Ha. revert e. induction fuel as [|fuel IH]; intros e Hsz; [destruct e; cbn in Hsz; lia|].
  cbn [transform]. destruct (Hb e) as (e1 & -> & Hc). cbn.
  destruct (map_children_total (transform fuel before after) e1) as [e2 ->].
  - intros x Hx. apply IH. specialize (Hc x Hx). lia.
  - apply Ha.
Qed.

Lemma push_not_shrinks : shrinks (λ e, Ok (push_not e)).
Proof.
  intros e. eexists. split; [done|]. intros x Hx. pose proof (children_smaller _ _ Hx) as Hlt.
  destruct e as [| | |[]| | | | | | | | | | | | | | |]; cbn in *;
    rewrite ?elem_of_cons, ?elem_of_nil in Hx; destruct_or?; subst; cbn in *; try done; lia.
Qed.
Lemma distribute_or_shrinks : shrinks (λ e, Ok (distribute_or e)).
Proof.
  intros e. eexists. split; [done|]. intros x Hx. pose proof (children_smaller _ _ Hx) as Hlt.
  destruct e as [| | | |[] []| | | | | | | | | | | | | |]; cbn in *;
    rewrite ?elem_of_cons, ?elem_of_nil in Hx; destruct_or?; subst; cbn in *; try done; lia.
Qed.
Lemma distribute_and_shrinks : shrinks (λ e, Ok (distribute_and e)).
Proof.
  intros e. eexists. split; [done|]. intros x Hx. pose proof (children_smaller _ _ Hx) as Hlt.
  destruct e as [| |[] []| | | | | | | | | | | | | | | |]; cbn in *;
    rewrite ?elem_of_cons, ?elem_of_nil in Hx; destruct_or?; subst; cbn in *; try done; lia.
Qed.

Lemma normalize_Ok f e : shrinks (λ e, Ok (f e)) → ∃ e', normalize f e = Ok e'.
Proof. intros Hf. apply transform_total; eauto. Qed.

(** * Values *)

Section refines.
Context `{Libm, Regex}.

(** Whenever [e] has a value, [e'] has the same one. *)
Definition refines (e e' : Expression) : Prop :=
  ∀ row v, evaluate e row = Ok v → evaluate e' row = Ok v.

#[export] Instance refines_preorder : PreOrder refines.
Proof. split; [by intros e row v|]. intros e1 e2 e3 H12 H23 row v Hv. by apply H23, H12. Qed.

Lemma bind_refines (op : Value → Value → res Value) (l r l' r' : Expression) row v :
  refines l l' → refines r r' →
  (x ← evaluate l row; y ← evaluate r row; op x y) = Ok v →
  (x ← evaluate l' row; y ← evaluate r' row; op x y) = Ok v.
Proof.
  intros Hl Hr (x & Hx & (y & Hy & Hop)%res_bind_Ok_inv)%res_bind_Ok_inv.
  by rewrite (Hl _ _ Hx), (Hr _ _ Hy).
Qed.
Lemma bind_refines_1 (op : Value → res Value) (e e' : Expression) row v :
  refines e e' → (x ← evaluate e row; op x) = Ok v → (x ← evaluate e' row; op x) = Ok v.
Proof. intros He (x & Hx & Hop)%res_bind_Ok_inv. by rewrite (He _ _ Hx). Qed.

(** Replacing the children by expressions that refine them. *)
Lemma map_children_refines f e e' :
  (∀ x y, x ∈ children e → f x = Ok y → refines x y) → map_children f e = Ok e' → refines e e'.
Proof.
  intros Hf Hm.
  destruct e as [v|i lb|l r|x|l r|l r|l r|x|l r|l r|x|l r|l r|x|l r|l r|x|l r|l r]; cbn in Hf, Hm;
    first
    [ injection Hm as <-; reflexivity
    | apply res_bind_Ok_inv in Hm as (y & Hy & [= <-]); intros row v;
      apply bind_refines_1; apply Hf; [by constructor|done]
    | apply res_bind_Ok_inv in Hm as (l' & Hl & (r' & Hr & [= <-])%res_bind_Ok_inv); intros row v;
      apply bind_refines; (apply Hf; [by repeat constructor|done]) ].
Qed.

Lemma transform_refines fuel before after e e' :
  (∀ x y, before x = Ok y → refines x y) → (∀ x y, after x = Ok y → refines x y) →
  transform fuel before after e = Ok e' → refines e e'.
Proof.
  intros Hb Ha. revert e e'. induction fuel as [|fuel IH]; intros e e'; cbn [transform]; [done|].
  intros (e1 & H1 & (e2 & H2 & H3)%res_bind_Ok_inv)%res_bind_Ok_inv.
  transitivity e1; [by apply Hb|]. transitivity e2; [|by apply Ha].
  eapply map_children_refines; [|exact H2]. intros x y _. apply IH.
Qed.

(** ** The logical rewrites *)

(** Evaluates connectives, and splits on the values of their operands. *)
Ltac kleene :=
  repeat match goal with
    | H : mbind _ _ = Ok _ |- _ => apply res_bind_Ok_inv in H as (? & ? & ?)
    end;
  repeat match goal with H : evaluate _ _ = Ok _ |- _ => rewrite H; clear H end; cbn;
  repeat match goal with
    | v : Value |- _ => destruct v as [|[]| | |]; cbn in *; try discriminate
    end; simplify_eq; done.

Lemma not_and_refines l r : refines (Not (And l r)) (Or (Not l) (Not r)).
Proof. intros row v Hv. cbn in *. kleene. Qed.
Lemma not_or_refines l r : refines (Not (Or l r)) (And (Not l) (Not r)).
Proof. intros row v Hv. cbn in *. kleene. Qed.
Lemma not_not_refines e : refines (Not (Not e)) e.
Proof. intros row v Hv. cbn in *. kleene. Qed.
Lemma or_and_l_refines l l' r : refines (Or (And l l') r) (And (Or l r) (Or l' r)).
Proof. intros row v Hv. cbn in *. kleene. Qed.
Lemma or_and_r_refines l r r' : refines (Or l (And r r')) (And (Or l r) (Or l r')).
Proof. intros row v Hv. cbn in *. kleene. Qed.
Lemma and_or_l_refines l l' r : refines (And (Or l l') r) (Or (And l r) (And l' r)).
Proof. intros row v Hv. cbn in *. kleene. Qed.
Lemma and_or_r_refines l r r' : refines (And l (Or r r')) (Or (And l r) (And l r')).
Proof. intros row v Hv. cbn in *. kleene. Qed.
Lemma and_assoc_refines a b c : refines (And (And a b) c) (And a (And b c)).
Proof. intros row v Hv. cbn in *. kleene. Qed.
Lemma and_assoc_refines_r a b c : refines (And a (And b c)) (And (And a b) c).
Proof. intros row v Hv. cbn in *. kleene. Qed.
Lemma or_assoc_refines_r a b c : refines (Or a (Or b c)) (Or (Or a b) c).
Proof. intros row v Hv. cbn in *. kleene. Qed.

Lemma and_refines l r l' r' : refines l l' → refines r r' → refines (And l r) (And l' r').
Proof. intros Hl Hr row v. by apply bind_refines. Qed.
Lemma or_refines l r l' r' : refines l l' → refines r r' → refines (Or l r) (Or l' r').
Proof. intros Hl Hr row v. by apply bind_refines. Qed.

Lemma push_not_refines e : refines e (push_not e).
Proof.
  destruct e as [| | |[]| | | | | | | | | | | | | | |]; try reflexivity.
  - apply not_and_refines.
  - apply not_not_refines.
  - apply not_or_refines.
Qed.
Lemma distribute_or_refines e : refines e (distribute_or e).
Proof.
  destruct e as [| | | |l r| | | | | | | | | | | | | |]; try reflexivity.
  destruct l; try apply or_and_l_refines; destruct r; try reflexivity; apply or_and_r_refines.
Qed.
Lemma distribute_and_refines e : refines e (distribute_and e).
Proof.
  destruct e as [| |l r| | | | | | | | | | | | | | | |]; try reflexivity.
  destruct l; try apply and_or_l_refines; destruct r; try reflexivity; apply and_or_r_refines.
Qed.

Lemma normalize_refines f e e' : (∀ x, refines x (f x)) → normalize f e = Ok e' → refines e e'.
Proof. intros Hf. apply transform_refines; by intros x y [= <-]. Qed.

(** ** Flattening *)

Lemma flatten_Ok fuel split stack out :
  (∀ e l r, split e = Some (l, r) → expr_size e = 1 + expr_size l + expr_size r)%nat →
  (sum_list (expr_size <$> stack) ≤ fuel)%nat → ∃ out', flatten fuel split stack out = Ok out'.
Proof.
  intros Hsplit. revert stack out. induction fuel as [|fuel IH]; intros [|e stack] out Hsz;
    cbn [flatten]; eauto; cbn in Hsz.
  - destruct e; cbn in Hsz; lia.
  - destruct (split e) as [[l r]|] eqn:Es.
    + apply IH. cbn. pose proof (Hsplit _ _ _ Es). lia.
    + apply IH. assert (1 ≤ expr_size e)%nat by (destruct e; cbn; lia). lia.
Qed.

(** All expressions of a list joined by an associative connective. *)
Definition joined (join : Expression → Expression → Expression) (es : list Expression)
    : option Expression :=
  match es with [] => None | e :: rest => Some (foldl join e rest) end.

Definition refines_opt (o o' : option Expression) : Prop :=
  match o, o' with
  | Some e, Some e' => refines e e'
  | None, None => True
  | _, _ => False
  end.

Section join.
Context (join : Expression → Expression → Expression).
Context (join_refines : ∀ l r l' r', refines l l' → refines r r' → refines (join l r) (join l' r')).
Context (join_assoc : ∀ a b c, refines (join a (join b c)) (join (join a b) c)).

Lemma foldl_refines a b rest : refines a b → refines (foldl join a rest) (foldl join b rest).
Proof.
  revert a b. induction rest as [|e rest IH]; intros a b Hab; [done|]. cbn. apply IH.
  apply join_refines; [done|reflexivity].
Qed.

Lemma joined_split xs l r ys : refines_opt (joined join (xs ++ join l r :: ys))
                                           (joined join (xs ++ l :: r :: ys)).
Proof.
  destruct xs as [|x xs]; cbn; [reflexivity|]. rewrite !foldl_app. cbn. apply foldl_refines.
  apply join_assoc.
Qed.

Lemma refines_opt_trans o1 o2 o3 : refines_opt o1 o2 → refines_opt o2 o3 → refines_opt o1 o3.
Proof. destruct o1, o2, o3; cbn; try done. intros H12 H23. by etransitivity. Qed.

Lemma flatten_refines fuel split stack out out' :
  (∀ e l r, split e = Some (l, r) → e = join l r) → flatten fuel split stack out = Ok out' →
  refines_opt (joined join (out ++ stack)) (joined join out').
Proof.
  intros Hsplit. revert stack out. induction fuel as [|fuel IH]; intros [|e stack] out;
    cbn [flatten]; try done.
  - intros [= <-]. rewrite app_nil_r. destruct (joined join out); cbn; [reflexivity|done].
  - intros [= <-]. rewrite app_nil_r. destruct (joined join out); cbn; [reflexivity|done].
  - destruct (split e) as [[l r]|] eqn:Es; intros Hf%IH.
    + apply Hsplit in Es as ->. eapply refines_opt_trans; [apply joined_split|done].
    + by rewrite <-app_assoc in Hf.
Qed.
End join.
End refines.
