(* ===== verification/SqlClaims.v ===== *)
(** What SQL expressions guarantee: integer results stay in range, the normal
    forms, constant folding and noop cleaning keep the value, lookups miss no
    row; and where they do not do what they document. *)
From Stdlib Require Import Strings.Byte NArith ZArith Lia Floats.SpecFloat.
From stdpp Require Import base list strings.
From S2P Require Import Prelude KeyCode SqlTypes SqlExpression SqlRewrite.

(** * Ranges *)

Section range.
Context `{Libm, Regex}.

(** Integer constants fit their type. *)
Definition constant_ok (e : Expression) : bool :=
  match e with Constant (Integer i) => in_i64 i | _ => true end.
Definition constants_ok (e : Expression) : bool := walk constant_ok e.

Lemma walk_spec visitor e : walk visitor e = visitor e && forallb (walk visitor) (children e).
Proof. destruct e; cbn; rewrite ?andb_true_r; done. Qed.

Lemma overflow_ok z v : overflow (checked z) = Ok v → value_ok v.
Proof.
  destruct (checked z) as [r|] eqn:E; [|done]. intros [= <-]. by apply checked_spec in E as [-> ?].
Qed.

Lemma arith_ok what on_int on_float l r v :
  (∀ a b, l = Integer a → r = Integer b → on_int a b = Ok v → value_ok v) →
  eval_arith what on_int on_float l r = Ok v → value_ok v.
Proof. intros Hi. destruct l, r; cbn; try done; try (by intros [= <-]). by eapply Hi. Qed.

Lemma in_range_ok (b : bool) z w v : (b = true → i64_valid z) →
  (if b then Ok (Integer z) else Panic w) = Ok v → value_ok v.
Proof. destruct b; [|done]. intros Hz [= <-]. by apply Hz. Qed.

Lemma rem_ok l r : i64_valid r → r ≠ 0%Z → i64_valid (Z.rem l r).
Proof.
  unfold i64_valid, i64_min, i64_max. intros Hr Hne.
  pose proof (Z.rem_bound_abs l r Hne). lia.
Qed.

Lemma product_ok ks acc n : i64_valid acc → product ks acc = Ok n → i64_valid n.
Proof.
  revert acc. induction ks as [|k ks IH]; intros acc Hacc; cbn; [by intros [= <-]|].
  destruct (in_i64 (acc * k)) eqn:E; [|done]. apply IH. by apply in_i64_spec.
Qed.

Lemma binary_ok (op : Value → Value → res Value) l r row v :
  (∀ x y, value_ok x → value_ok y → op x y = Ok v → value_ok v) →
  (∀ x, evaluate l row = Ok x → value_ok x) → (∀ x, evaluate r row = Ok x → value_ok x) →
  (x ← evaluate l row; y ← evaluate r row; op x y) = Ok v → value_ok v.
Proof.
  intros Hop Hl Hr (x & Hx & (y & Hy & Hv)%res_bind_Ok_inv)%res_bind_Ok_inv. apply (Hop x y); auto.
Qed.
Lemma unary_ok (op : Value → res Value) e row v :
  (∀ x, value_ok x → op x = Ok v → value_ok v) → (∀ x, evaluate e row = Ok x → value_ok x) →
  (x ← evaluate e row; op x) = Ok v → value_ok v.
Proof. intros Hop He (x & Hx & Hv)%res_bind_Ok_inv. apply (Hop x); auto. Qed.

Lemma field_ok row i : Forall value_ok (default [] row) → value_ok (field_value row i).
Proof.
  unfold field_value. destruct row as [r|]; cbn; [|done]. intros Hr.
  destruct (r !! N.to_nat i) as [v|] eqn:E; cbn; [|done]. by eapply Forall_lookup_1.
Qed.

(** Operators that return no integers. *)
Ltac no_integer :=
  intros x y _ _; destruct x as [|[]| | |], y as [|[]| | |]; cbn; try done; by intros [= <-].

Lemma divide_ok x y v : eval_divide x y = Ok v → value_ok v.
Proof.
  apply arith_ok. intros a b _ _. destruct (b =? 0)%Z; [done|].
  apply in_range_ok. apply in_i64_spec.
Qed.
Lemma modulo_ok x y v : value_ok y → eval_modulo x y = Ok v → value_ok v.
Proof.
  intros Hy. apply arith_ok. intros a b -> ->. destruct (Z.eqb_spec b 0); [done|].
  apply in_range_ok. intros _. by apply rem_ok.
Qed.
Lemma exponentiate_ok x y v : eval_exponentiate x y = Ok v → value_ok v.
Proof.
  destruct x, y; cbn [eval_exponentiate]; try done; try (by intros [= <-]).
  destruct (0 <=? i0)%Z; [|by intros [= <-]]. rewrite checked_pow_spec by (apply Z.mod_pos_bound; lia).
  apply overflow_ok.
Qed.
Lemma negate_ok x v : eval_negate x = Ok v → value_ok v.
Proof.
  destruct x; cbn [eval_negate]; try done; try (by intros [= <-]).
  apply in_range_ok. apply in_i64_spec.
Qed.
Lemma factorial_ok x v : eval_factorial x = Ok v → value_ok v.
Proof.
  destruct x; cbn [eval_factorial]; try done; try (by intros [= <-]).
  destruct (i <? 0)%Z; [done|]. intros (n & Hn & [= <-])%res_bind_Ok_inv.
  by eapply product_ok; [|exact Hn].
Qed.
Lemma like_ok x y v : eval_like x y = Ok v → value_ok v.
Proof.
  destruct x, y; cbn [eval_like]; try done; try (by intros [= <-]).
  by intros (b & _ & [= <-])%res_bind_Ok_inv.
Qed.

Lemma evaluate_ok e row v : Forall value_ok (default [] row) → constants_ok e = true →
  evaluate e row = Ok v → value_ok v.
Proof.
  intros Hrow. revert v. induction e as [c|i lb|l IHl r IHr|e IH|l IHl r IHr|l IHl r IHr|l IHl r IHr
    |e IH|l IHl r IHr|l IHl r IHr|e IH|l IHl r IHr|l IHl r IHr|e IH|l IHl r IHr|l IHl r IHr|e IH
    |l IHl r IHr|l IHl r IHr]; intros v Hc; unfold constants_ok in *; rewrite walk_spec in Hc;
    cbn [children forallb constant_ok andb] in Hc; rewrite ?andb_true_r in Hc;
    try (apply andb_true_iff in Hc as [Hcl Hcr]); cbn [evaluate];
    try (apply binary_ok; [|by auto|by auto]); try (apply unary_ok; [|by auto]).
  - intros [= <-]. destruct c; try done. by apply in_i64_spec.
  - intros [= <-]. by apply field_ok.
  - no_integer.
  - intros x _. destruct x; cbn; try done; by intros [= <-].
  - no_integer.
  - no_integer.
  - no_integer.
  - intros x _. destruct x; cbn; by intros [= <-].
  - no_integer.
  - intros x y _ _. apply arith_ok. intros a b _ _. apply overflow_ok.
  - intros x Hx. destruct x; cbn; try done; by intros [= <-].
  - intros x y _ _. apply divide_ok.
  - intros x y _ _. apply exponentiate_ok.
  - intros x _. apply factorial_ok.
  - intros x y _. apply modulo_ok.
  - intros x y _ _. apply arith_ok. intros a b _ _. apply overflow_ok.
  - intros x _. apply negate_ok.
  - intros x y _ _. apply arith_ok. intros a b _ _. apply overflow_ok.
  - intros x y _ _. apply like_ok.
Qed.

(** Evaluation never yields an integer outside the 64-bit range when the
    constants and the row are in range: operations that would overflow return an
    error or panic. *)
Theorem evaluate_in_range (e : Expression) (row : option Row) (v : Value) :
  Forall value_ok (default [] row) → constants_ok e = true → evaluate e row = Ok v → value_ok v.
Proof. apply evaluate_ok. Qed.
End range.

(** * Normal forms *)

Section normal.
Context `{Libm, Regex}.

Lemma into_nnf_Ok e : ∃ e', into_nnf e = Ok e' ∧ refines e e'.
Proof.
  destruct (normalize_Ok push_not e push_not_shrinks) as [e' He]. exists e'. split; [done|].
  eapply normalize_refines; [apply push_not_refines|done].
Qed.
Lemma distribute_Ok f e : shrinks (λ e, Ok (f e)) → (∀ x, refines x (f x)) →
  ∃ e', (e ← into_nnf e; normalize f e) = Ok e' ∧ refines e e'.
Proof.
  intros Hs Hr. destruct (into_nnf_Ok e) as (e1 & -> & H1). cbn.
  destruct (normalize_Ok f e1 Hs) as [e2 H2]. exists e2. split; [done|].
  transitivity e1; [done|]. by eapply normalize_refines.
Qed.

Lemma flatten_one join split e : (∀ l r l' r', refines l l' → refines r r' → refines (join l r) (join l' r')) →
  (∀ a b c, refines (join a (join b c)) (join (join a b) c)) →
  (∀ e l r, split e = Some (l, r) → e = join l r ∧ (expr_size e = 1 + expr_size l + expr_size r)%nat) →
  ∃ es e', flatten (expr_size e) split [e] [] = Ok es ∧ joined join es = Some e' ∧ refines e e'.
Proof.
  intros Hj Ha Hsplit. destruct (flatten_Ok (expr_size e) split [e] []) as [es Hes].
  { intros e0 l r Hs. by apply Hsplit. }
  { cbn. lia. }
  pose proof (flatten_refines join Hj Ha _ split [e] [] es (λ e l r Hs, proj1 (Hsplit e l r Hs)) Hes) as Hr.
  cbn [app joined foldl] in Hr. destruct (joined join es) as [e'|] eqn:Ee; [|done]. eauto.
Qed.

Lemma cnf_vec_Ok e : ∃ clauses conj, into_cnf_vec e = Ok clauses ∧
  from_cnf_vec clauses = Some conj ∧ refines e conj.
Proof.
  destruct (distribute_Ok distribute_or e distribute_or_shrinks distribute_or_refines) as (cnf & Hcnf & Hc).
  destruct (flatten_one And split_and cnf and_refines and_assoc_refines_r) as (clauses & conj & Hcl & Hfc & Hrc).
  { by intros [] l r [= <- <-]. }
  exists clauses, conj. change (into_cnf e = Ok cnf) in Hcnf. unfold into_cnf_vec. rewrite Hcnf.
  split; [done|]. split; [by destruct clauses|]. by transitivity cnf.
Qed.

(** Conversion of an expression to negation, conjunctive and disjunctive normal
    form, to a clause vector and back always returns a result, and whenever the
    expression has a value each of the results has the same value. *)
Theorem normal_forms_keep_value (e : Expression) :
  ∃ nnf cnf dnf clauses terms conj disj,
    into_nnf e = Ok nnf ∧ into_cnf e = Ok cnf ∧ into_dnf e = Ok dnf ∧
    into_cnf_vec e = Ok clauses ∧ from_cnf_vec clauses = Some conj ∧
    into_dnf_vec e = Ok terms ∧ from_dnf_vec terms = Some disj ∧
    ∀ row v, evaluate e row = Ok v →
      evaluate nnf row = Ok v ∧ evaluate cnf row = Ok v ∧ evaluate dnf row = Ok v ∧
      evaluate conj row = Ok v ∧ evaluate disj row = Ok v.
Proof.
  destruct (into_nnf_Ok e) as (nnf & Hnnf & Hn).
  destruct (distribute_Ok distribute_or e distribute_or_shrinks distribute_or_refines) as (cnf & Hcnf & Hc).
  destruct (distribute_Ok distribute_and e distribute_and_shrinks distribute_and_refines)
    as (dnf & Hdnf & Hd).
  destruct (cnf_vec_Ok e) as (clauses & conj & Hcl & Hfc & Hrc).
  destruct (flatten_one Or split_or dnf or_refines or_assoc_refines_r) as (terms & disj & Hte & Hfd & Hrd).
  { by intros [] l r [= <- <-]. }
  exists nnf, cnf, dnf, clauses, terms, conj, disj. split; [done|]. split; [done|]. split; [done|].
  change (into_cnf e = Ok cnf) in Hcnf. change (into_dnf e = Ok dnf) in Hdnf.
  unfold into_dnf_vec. rewrite Hdnf. split; [done|]. split; [done|].
  split; [done|]. split; [by destruct terms|]. intros row v Hv. auto 10.
Qed.
End normal.

(** ** Negation normal form *)

Definition double_not (e : Expression) : bool :=
  match e with Not (Not _) => true | _ => false end.
Definition no_double_not (e : Expression) : bool := walk (λ e, negb (double_not e)) e.

(** A NOT above another logical operator. *)
Definition high_not (e : Expression) : bool :=
  match e with Not (And _ _) | Not (Or _ _) | Not (Not _) => true | _ => false end.
Definition is_nnf (e : Expression) : bool := walk (λ e, negb (high_not e)) e.

Definition logical (e : Expression) : bool :=
  match e with And _ _ | Or _ _ | Not _ => true | _ => false end.
Definition is_not (e : Expression) : bool := match e with Not _ => true | _ => false end.

Lemma map_children_shape f e e' : map_children f e = Ok e' →
  logical e' = logical e ∧ is_not e' = is_not e ∧ Forall2 (λ x y, f x = Ok y) (children e) (children e').
Proof.
  destruct e; cbn; intros Hm;
    repeat match goal with
      | H : mbind _ _ = Ok _ |- _ => apply res_bind_Ok_inv in H as (? & ? & ?)
      end; simplify_eq; cbn; auto 6.
Qed.

Lemma high_not_spec e : high_not e = is_not e && forallb logical (children e).
Proof. by destruct e as [| | |[]| | | | | | | | | | | | | | |]. Qed.

(** Expressions that [push_not] meets on its way down. *)
Definition pushed (e : Expression) : Prop :=
  no_double_not e = true ∨
  ∃ x, e = Not (Not x) ∧ is_not x = false ∧ no_double_not x = true.

Lemma no_double_children e x : no_double_not e = true → x ∈ children e → no_double_not x = true.
Proof.
  unfold no_double_not. rewrite walk_spec, andb_true_iff, forallb_forall. intros [_ Hall] Hx.
  by apply Hall, list_elem_of_In.
Qed.

Lemma pushed_not x : no_double_not x = true → pushed (Not x).
Proof.
  intros Hx. destruct (is_not x) eqn:Ex.
  - right. destruct x as [| | |x| | | | | | | | | | | | | | |]; try done. exists x. split; [done|].
    unfold no_double_not in Hx. rewrite walk_spec in Hx. cbn in Hx.
    apply andb_true_iff in Hx as [Hd Hx]. rewrite andb_true_r in Hx. by destruct x.
  - left. unfold no_double_not in *. rewrite walk_spec. cbn. rewrite Hx. by destruct x.
Qed.

(** One step down: what is left at this node, and below it. *)
Lemma push_not_step e : pushed e →
  (∀ x, x ∈ children (push_not e) → pushed x) ∧
  (is_not (push_not e) = true → push_not e = e ∧ no_double_not e = true ∧ ∀ x, x ∈ children e → logical x = false).
Proof.
  intros [Hn|(x & -> & Hx & Hn)].
  - assert (∀ x, x ∈ children e → no_double_not x = true) as Hc by (intros; by eapply no_double_children).
    destruct e as [| | |e| | | | | | | | | | | | | | |]; cbn [children push_not is_not] in *;
      try (split; [intros x Hx; left; by apply Hc|done]).
    assert (no_double_not e = true) as He by (apply Hc; by constructor).
    destruct e as [| |l r|y|l r| | | | | | | | | | | | | |]; cbn [children push_not is_not] in *;
      try (split; [intros x Hx; left; by apply Hc|];
           intros _; do 2 (split; [done|]); by intros x [->|?%not_elem_of_nil]%elem_of_cons).
    + split; [|done]. intros x. rewrite !elem_of_cons, elem_of_nil.
      intros [->|[->|[]]]; apply pushed_not; (apply (no_double_children (And l r)); [done|cbn; rewrite !elem_of_cons; auto]).
    + split; [|done]. intros x. rewrite !elem_of_cons, elem_of_nil.
      intros [->|[->|[]]]; apply pushed_not; (apply (no_double_children (Or l r)); [done|cbn; rewrite !elem_of_cons; auto]).
  - cbn. split; [|by rewrite Hx]. intros y Hy. left. by eapply no_double_children.
Qed.

Lemma push_not_nnf fuel e e' : pushed e →
  transform fuel (λ e, Ok (push_not e)) Ok e = Ok e' → is_nnf e' = true ∧ (is_not e = false → logical e' = logical e).
Proof.
  revert e e'. induction fuel as [|fuel IH]; intros e e' Hp; cbn [transform]; [done|].
  cbn. intros (e1 & Hm & [= <-])%res_bind_Ok_inv.
  destruct (push_not_step e Hp) as [Hkids Hhead]. apply map_children_shape in Hm as (Hlog & Hnot & Hall).
  split.
  - unfold is_nnf. rewrite walk_spec. apply andb_true_iff. split.
    + rewrite high_not_spec, Hnot. destruct (is_not (push_not e)) eqn:En; [|done].
      destruct (Hhead eq_refl) as (Heq & Hn & Hatoms). rewrite Heq in Hall, Hkids, En.
      destruct e as [| | |x| | | | | | | | | | | | | | |]; try done. cbn in Hall.
      inversion Hall as [|? y ? ? Hy Hnil]; subst. inversion Hnil; subst.
      assert (logical x = false) as Hx by (apply Hatoms; by constructor).
      destruct (IH x y) as [_ Hly]; [apply Hkids; by constructor|done|]. cbn.
      rewrite Hly by (by destruct x). by rewrite Hx.
    + apply forallb_forall. intros y Hy%list_elem_of_In.
      apply list_elem_of_lookup in Hy as [k Hk]. destruct (Forall2_lookup_r _ _ _ _ _ Hall Hk) as (x & Hx & Hf).
      apply (IH x y); [|done]. by apply Hkids, list_elem_of_lookup_2 with k.
  - intros Hn. rewrite Hlog. by destruct e as [| | |[]| | | | | | | | | | | | | | |].
Qed.

(** An expression without a double negation is converted to negation normal
    form: no NOT stands above AND, OR or NOT. *)
Theorem nnf_form (e : Expression) : no_double_not e = true →
  ∃ e', into_nnf e = Ok e' ∧ is_nnf e' = true.
Proof.
  intros He. destruct (normalize_Ok push_not e push_not_shrinks) as [e' Hn]. exists e'. split; [done|].
  by apply (push_not_nnf (expr_size e) e e'); [left|].
Qed.

Definition x (i : N) : Expression := Field i None.

Lemma nnf_form_witness :
  ∃ e', into_nnf (Not (And (Or (x 0) (Not (x 1))) (IsNull (x 2)))) = Ok e' ∧ is_nnf e' = true.
Proof. apply (nnf_form (Not (And (Or (x 0) (Not (x 1))) (IsNull (x 2))))). reflexivity. Defined.

(** Three negations in a row leave a NOT above AND, and a nested OR (AND) leaves
    a conjunction inside a clause of the conjunctive normal form (a disjunction
    inside a term of the disjunctive one). *)
Theorem normal_form_gaps :
  into_nnf (Not (Not (Not (And (x 0) (x 1))))) = Ok (Not (And (x 0) (x 1))) ∧
  into_cnf_vec (Or (Or (And (x 0) (x 1)) (x 2)) (x 3))
    = Ok [Or (And (Or (x 0) (x 2)) (Or (x 1) (x 2))) (x 3)] ∧
  into_dnf_vec (And (And (Or (x 0) (x 1)) (x 2)) (x 3))
    = Ok [And (Or (And (x 0) (x 2)) (And (x 1) (x 2))) (x 3)].
Proof. done. Qed.

(** * Constant folding *)

Definition is_Ok {A} (r : res A) : Prop := ∃ a, r = Ok a.

Section folding.
Context `{Libm, Regex}.

Lemma binary_Ok_inv (op : Value → Value → res Value) l r row v :
  (a ← evaluate l row; b ← evaluate r row; op a b) = Ok v →
  is_Ok (evaluate l row) ∧ is_Ok (evaluate r row).
Proof. intros (a & -> & (b & -> & _)%res_bind_Ok_inv)%res_bind_Ok_inv. split; by eexists. Qed.

(** Every operand of an expression that has a value has one. *)
Lemma evaluate_children e row v y : evaluate e row = Ok v → y ∈ children e → is_Ok (evaluate y row).
Proof.
  destruct e; cbn [children evaluate]; rewrite ?elem_of_cons, ?elem_of_nil; intros Hv Hy;
    destruct_or?; subst; try done;
    first [ by apply binary_Ok_inv in Hv as [??]
          | apply res_bind_Ok_inv in Hv as (a & Ha & _); by eexists ].
Qed.

Lemma no_field_row e row row' : contains is_field e = false → evaluate e row = evaluate e row'.
Proof.
  unfold contains. rewrite negb_false_iff.
  induction e; cbn; rewrite ?andb_true_iff; intros; destruct_and?; try done;
    repeat match goal with IH : _ → evaluate ?y row = _ |- _ => rewrite IH by done; clear IH end; done.
Qed.

Lemma fold_constant_Ok e row v : contains is_field e = false → evaluate e row = Ok v →
  fold_constant e = Ok (Constant v).
Proof.
  intros Hf Hv. unfold fold_constant. by rewrite Hf, (no_field_row e None row Hf), Hv.
Qed.

(** Rebuilding a node from children with the same values. *)
Lemma map_children_equal f e :
  (∀ y, y ∈ children e → ∃ y', f y = Ok y' ∧ ∀ row, evaluate y' row = evaluate y row) →
  ∃ e', map_children f e = Ok e' ∧ ∀ row, evaluate e' row = evaluate e row.
Proof.
  intros Hf.
  destruct e as [v|i lb|l r|u|l r|l r|l r|u|l r|l r|u|l r|l r|u|l r|l r|u|l r|l r]; cbn in *;
    first
    [ by eauto
    | destruct (Hf u) as (u' & -> & Hu); [by constructor|]; eexists; split; [done|];
      intros row; cbn; by rewrite Hu
    | destruct (Hf l) as (l' & -> & Hl); [by constructor|];
      destruct (Hf r) as (r' & -> & Hr); [by repeat constructor|]; eexists; split; [done|];
      intros row; cbn; by rewrite Hl, Hr ].
Qed.

Lemma fold_ok fuel e row v : (expr_size e ≤ fuel)%nat → evaluate e row = Ok v →
  ∃ e', transform fuel fold_constant Ok e = Ok e' ∧ ∀ row', evaluate e' row' = evaluate e row'.
Proof.
  revert e v. induction fuel as [|fuel IH]; intros e v Hsz Hv; [destruct e; cbn in Hsz; lia|].
  cbn [transform]. destruct (contains is_field e) eqn:Ef.
  - assert (fold_constant e = Ok e) as -> by (unfold fold_constant; by rewrite Ef).
    cbn [mbind res_bind]. destruct (map_children_equal (transform fuel fold_constant Ok) e) as (e' & -> & He).
    + intros y Hy. destruct (evaluate_children e row v y Hv Hy) as [w Hw]. apply (IH y w); [|done].
      pose proof (children_smaller e y Hy). lia.
    + cbn. eauto.
  - rewrite (fold_constant_Ok e row v Ef Hv). cbn. eexists. split; [done|].
    intros row'. by rewrite (no_field_row e row' row Ef).
Qed.

(** Constant folding of an expression that has a value on some row succeeds, the
    result evaluates as the expression does on every row, errors included, and
    an expression without fields becomes its value. *)
Theorem constant_folding_exact (e : Expression) (row : option Row) (v : Value) :
  evaluate e row = Ok v →
  ∃ e', fold_constants e = Ok e' ∧ (∀ row', evaluate e' row' = evaluate e row') ∧
    (contains is_field e = false → e' = Constant v).
Proof.
  intros Hv. destruct (fold_ok (expr_size e) e row v (le_n _) Hv) as (e' & He & Heq).
  exists e'. split; [done|]. split; [done|]. intros Hf. unfold fold_constants in He.
  destruct (expr_size e); cbn [transform] in He; [done|].
  rewrite (fold_constant_Ok e row v Hf Hv) in He. cbn in He. by injection He.
Qed.
End folding.

(** * Lookups *)

Section lookup.
Context `{Libm, Regex}.

(** The value of a field is one that a lookup asks for. *)
Definition looked_up (fv v : Value) : Prop :=
  (v = Null ∧ fv = Null) ∨ eval_equal fv v = Ok (Boolean true) ∨ eval_equal v fv = Ok (Boolean true).

Lemma eval_or_true a b : eval_or a b = Ok (Boolean true) → a = Boolean true ∨ b = Boolean true.
Proof. destruct a as [|[]| | |], b as [|[]| | |]; cbn; try done; auto. Qed.

Lemma as_lookup_complete e f vs row : as_lookup e f = Some vs →
  evaluate e row = Ok (Boolean true) → ∃ v, v ∈ vs ∧ looked_up (field_value row f) v.
Proof.
  revert vs. induction e as [| | | |l IHl r IHr|l _ r _| |e _| | | | | | | | | | |]; intros vs; cbn; try done.
  - destruct (as_lookup l f) as [lv|]; [|done]. destruct (as_lookup r f) as [rv|]; [|done].
    intros [= <-] (a & Ha & (b & Hb & Hor)%res_bind_Ok_inv)%res_bind_Ok_inv.
    apply eval_or_true in Hor as [->| ->].
    + destruct (IHl lv eq_refl Ha) as (v & Hv & Hm). exists v. rewrite elem_of_app. auto.
    + destruct (IHr rv eq_refl Hb) as (v & Hv & Hm). exists v. rewrite elem_of_app. auto.
  - destruct l, r; try done; (destruct (decide _) as [->|]; [|done]); intros [= <-] Hv; cbn in Hv;
      (eexists; split; [by constructor|]); unfold looked_up; auto.
  - destruct e as [|i lb| | | | | | | | | | | | | | | | |]; try done. destruct (decide (i = f)) as [->|]; [|done].
    intros [= <-]. cbn. intros Hv. exists Null. split; [by constructor|].
    left. split; [done|]. by destruct (field_value row f).
Qed.

(** When an expression is turned into a lookup on a field, every row for which
    the expression is true has a field value that equals one of the looked-up
    values, or is NULL where NULL is looked up. *)
Theorem lookup_complete (e : Expression) (f : N) (vs : list Value) (row : option Row) :
  as_lookup e f = Some vs → evaluate e row = Ok (Boolean true) →
  ∃ v, v ∈ vs ∧ looked_up (field_value row f) v.
Proof. apply as_lookup_complete. Qed.

(** The lookup for x = NULL is the one for x IS NULL, although the first is
    never true and the second is on a row with NULL. *)
Theorem null_lookup_too_wide :
  as_lookup (Equal (x 0) (Constant Null)) 0 = as_lookup (IsNull (x 0)) 0 ∧
  evaluate (Equal (x 0) (Constant Null)) (Some [Null]) = Ok Null ∧
  evaluate (IsNull (x 0)) (Some [Null]) = Ok (Boolean true).
Proof. done. Qed.
End lookup.

(** * Noop cleaning *)

Section cleaning.
Context `{Libm, Regex}.

Definition is_connective (e : Expression) : bool :=
  match e with And _ _ | Or _ _ => true | _ => false end.

(** AND and OR occur only at the top, not below other operators. *)
Fixpoint positive (e : Expression) : bool :=
  match e with
  | And l r | Or l r => positive l && positive r
  | e => negb (contains is_connective e)
  end.

Lemma clean_atom fuel e : contains is_connective e = false → (expr_size e ≤ fuel)%nat →
  transform fuel Ok (λ e, Ok (noop_clean e)) e = Ok e.
Proof.
  unfold contains. rewrite negb_false_iff. revert e. induction fuel as [|fuel IH]; intros e Hw Hsz;
    [destruct e; cbn in Hsz; lia|].
  cbn [transform]. cbn [mbind res_bind].
  destruct e; cbn in Hw, Hsz |- *; rewrite ?andb_true_iff in Hw; destruct_and?; try done;
    rewrite ?IH by (done || lia); done.
Qed.

Definition is_logical (v : Value) : bool :=
  match v with Null | Boolean _ => true | _ => false end.
Definition is_true (v : Value) : bool := match v with Boolean true => true | _ => false end.

(** Values that a filter does not tell apart. *)
Definition same_truth (v v' : Value) : Prop := is_true v' = is_true v ∧ (is_logical v = true → is_logical v' = true).

Definition never_true (e : Expression) : Prop := e = Constant (Boolean false) ∨ e = Constant Null.

Lemma noop_clean_and l r :
  (noop_clean (And l r) = Constant (Boolean false) ∧ (never_true l ∨ never_true r)) ∨
  (l = Constant (Boolean true) ∧ noop_clean (And l r) = r) ∨
  (r = Constant (Boolean true) ∧ noop_clean (And l r) = l) ∨ noop_clean (And l r) = And l r.
Proof.
  unfold never_true.
  destruct l as [[|[]| | |]| | | | | | | | | | | | | | | | | |]; try (cbn; by auto 6);
    destruct r as [[|[]| | |]| | | | | | | | | | | | | | | | | |]; cbn; by auto 6.
Qed.
Lemma noop_clean_or l r :
  (noop_clean (Or l r) = Constant (Boolean true) ∧ (l = Constant (Boolean true) ∨ r = Constant (Boolean true))) ∨
  (never_true l ∧ noop_clean (Or l r) = r) ∨
  (never_true r ∧ noop_clean (Or l r) = l) ∨ noop_clean (Or l r) = Or l r.
Proof.
  unfold never_true.
  destruct l as [[|[]| | |]| | | | | | | | | | | | | | | | | |]; try (cbn; by auto 7);
    destruct r as [[|[]| | |]| | | | | | | | | | | | | | | | | |]; cbn; by auto 7.
Qed.

Lemma clean_and l r row a b v : evaluate l row = Ok a → evaluate r row = Ok b → eval_and a b = Ok v →
  ∃ v', evaluate (noop_clean (And l r)) row = Ok v' ∧ same_truth v v'.
Proof.
  intros Ha Hb Hv.
  destruct (noop_clean_and l r) as [[-> Hn]|[[-> ->]|[[-> ->]| ->]]]; cbn [evaluate] in *.
  - assert (is_true v = false) as Hf.
    { destruct Hn as [[->| ->]|[->| ->]]; cbn in *; simplify_eq;
        [destruct b as [|[]| | |]|destruct b as [|[]| | |]|destruct a as [|[]| | |]|destruct a as [|[]| | |]];
        cbn in *; by simplify_eq. }
    eexists. split; [done|]. split; [by rewrite Hf|done].
  - simplify_eq. exists b. split; [done|]. destruct b as [|[]| | |]; cbn in *; by simplify_eq.
  - simplify_eq. exists a. split; [done|]. destruct a as [|[]| | |]; cbn in *; by simplify_eq.
  - exists v. rewrite Ha, Hb. done.
Qed.
Lemma clean_or l r row a b v : evaluate l row = Ok a → evaluate r row = Ok b → eval_or a b = Ok v →
  ∃ v', evaluate (noop_clean (Or l r)) row = Ok v' ∧ same_truth v v'.
Proof.
  intros Ha Hb Hv.
  destruct (noop_clean_or l r) as [[-> Hn]|[[Hn ->]|[[Hn ->]| ->]]]; cbn [evaluate] in *.
  - assert (is_true v = true) as Ht.
    { destruct Hn as [->| ->]; cbn in *; simplify_eq; [destruct b as [|[]| | |]|destruct a as [|[]| | |]];
        cbn in *; by simplify_eq. }
    eexists. split; [done|]. split; [by rewrite Ht|done].
  - exists b. split; [done|]. destruct Hn as [->| ->]; cbn in *; simplify_eq;
      destruct b as [|[]| | |]; cbn in *; by simplify_eq.
  - exists a. split; [done|]. destruct Hn as [->| ->]; cbn in *; simplify_eq;
      destruct a as [|[]| | |]; cbn in *; by simplify_eq.
  - exists v. rewrite Ha, Hb. done.
Qed.

(** Operands with the same truth. *)
Lemma and_same_truth a b a' b' v : same_truth a a' → same_truth b b' → eval_and a b = Ok v →
  ∃ v', eval_and a' b' = Ok v' ∧ same_truth v v'.
Proof.
  unfold same_truth. intros [Ht Hl] [Ht' Hl'] Hv.
  destruct a as [|[]| | |], b as [|[]| | |]; cbn in *; simplify_eq;
    specialize (Hl eq_refl); specialize (Hl' eq_refl);
    destruct a' as [|[]| | |], b' as [|[]| | |]; cbn in *; simplify_eq; eauto.
Qed.
Lemma or_same_truth a b a' b' v : same_truth a a' → same_truth b b' → eval_or a b = Ok v →
  ∃ v', eval_or a' b' = Ok v' ∧ same_truth v v'.
Proof.
  unfold same_truth. intros [Ht Hl] [Ht' Hl'] Hv.
  destruct a as [|[]| | |], b as [|[]| | |]; cbn in *; simplify_eq;
    specialize (Hl eq_refl); specialize (Hl' eq_refl);
    destruct a' as [|[]| | |], b' as [|[]| | |]; cbn in *; simplify_eq; eauto.
Qed.
Lemma same_truth_trans a b c : same_truth a b → same_truth b c → same_truth a c.
Proof. unfold same_truth. intros [-> ?] [-> ?]. auto. Qed.

Lemma clean_ok fuel e row v : positive e = true → (expr_size e ≤ fuel)%nat → evaluate e row = Ok v →
  ∃ e' v', transform fuel Ok (λ e, Ok (noop_clean e)) e = Ok e' ∧ evaluate e' row = Ok v' ∧ same_truth v v'.
Proof.
  revert fuel v. induction e as [| |l IHl r IHr| |l IHl r IHr| | | | | | | | | | | | | |];
    intros fuel w Hp Hsz Hw;
    try (apply negb_true_iff in Hp; exists (ltac:(match type of Hw with evaluate ?e _ = _ => exact e end)), w;
         split; [by apply clean_atom|]; by split).
  - cbn in Hp. apply andb_true_iff in Hp as [Hpl Hpr]. destruct fuel as [|fuel]; cbn in Hsz; [lia|].
    cbn in Hw. apply res_bind_Ok_inv in Hw as (a & Ha & (b & Hb & Hv)%res_bind_Ok_inv).
    destruct (IHl fuel a) as (l' & a' & Hl & Ha' & Hta); [done|lia|done|].
    destruct (IHr fuel b) as (r' & b' & Hr & Hb' & Htb); [done|lia|done|].
    destruct (and_same_truth a b a' b' w) as (v1 & Hv1 & Ht1); [done..|].
    destruct (clean_and l' r' row a' b' v1) as (v2 & Hv2 & Ht2); [done..|].
    exists (noop_clean (And l' r')), v2. cbn [transform mbind res_bind map_children]. rewrite Hl, Hr.
    split; [done|]. split; [done|]. by eapply same_truth_trans.
  - cbn in Hp. apply andb_true_iff in Hp as [Hpl Hpr]. destruct fuel as [|fuel]; cbn in Hsz; [lia|].
    cbn in Hw. apply res_bind_Ok_inv in Hw as (a & Ha & (b & Hb & Hv)%res_bind_Ok_inv).
    destruct (IHl fuel a) as (l' & a' & Hl & Ha' & Hta); [done|lia|done|].
    destruct (IHr fuel b) as (r' & b' & Hr & Hb' & Htb); [done|lia|done|].
    destruct (or_same_truth a b a' b' w) as (v1 & Hv1 & Ht1); [done..|].
    destruct (clean_or l' r' row a' b' v1) as (v2 & Hv2 & Ht2); [done..|].
    exists (noop_clean (Or l' r')), v2. cbn [transform mbind res_bind map_children]. rewrite Hl, Hr.
    split; [done|]. split; [done|]. by eapply same_truth_trans.
Qed.

(** For an expression in which AND and OR are not nested below other operators,
    noop cleaning keeps whether the expression is true on a row. *)
Theorem noop_clean_filter (e : Expression) (row : option Row) (v : Value) :
  positive e = true → evaluate e row = Ok v →
  ∃ e' v', clean_noops e = Ok e' ∧ evaluate e' row = Ok v' ∧
    (v' = Boolean true ↔ v = Boolean true).
Proof.
  intros Hp Hv. destruct (clean_ok (expr_size e) e row v Hp (le_n _) Hv) as (e' & v' & He & Hv' & Ht & _).
  exists e', v'. split; [done|]. split; [done|].
  destruct v as [|[]| | |], v' as [|[]| | |]; cbn in Ht; naive_solver.
Qed.

(** Noop cleaning rewrites NOT (NULL AND x) to NOT FALSE, which is true on a row
    where the expression is NULL. *)
Theorem noop_clean_unsound :
  let e := And (Constant Null) (x 0) in
  clean_noops (Not e) = Ok (Not (Constant (Boolean false))) ∧
  evaluate (Not e) (Some [Boolean true]) = Ok Null ∧
  evaluate (Not (Constant (Boolean false))) (Some [Boolean true]) = Ok (Boolean true).
Proof. done. Qed.
End cleaning.

(** * Values as hash keys, LIKE patterns and powers *)

(** Hashing NULL never returns, whatever the stack depth, and hashing any other
    value takes one call. *)
Theorem hash_null_diverges :
  (∀ depth, hash depth Null = None) ∧
  ∀ v, v ≠ Null → ∃ h, ∀ depth, (0 < depth)%nat → hash depth v = Some h.
Proof.
  split.
  - induction depth as [|depth IH]; [done|]. cbn [hash]. by rewrite IH.
  - intros v Hv. destruct v; try done; eexists; intros [|depth] Hd; try lia; done.
Qed.

(** The LIKE patterns a% and a_ become the regular expressions ^a.*$ and ^a.$,
    but a_% becomes ^a_*$, in which the underscore is a literal. *)
Theorem like_underscore_percent `{Regex} :
  (∀ p, Forall (λ b, b ∈ [x61; x5f; x25]) p → regex_escape p = p) →
  like_pattern [x61; x25] = [x5e; x61; x2e; x2a; x24] ∧
  like_pattern [x61; x5f] = [x5e; x61; x2e; x24] ∧
  like_pattern [x61; x5f; x25] = [x5e; x61; x5f; x2a; x24].
Proof.
  intros Hesc. unfold like_pattern.
  rewrite !Hesc by (repeat constructor). done.
Qed.

Section samples.
(** Instances of the parameters. *)
Definition sample_libm : Libm := {| f64_powf := λ a _, a; f64_powi := λ a _, a |}.
Definition special : list byte :=
  [x5c; x2e; x2b; x2a; x3f; x28; x29; x7c; x5b; x5d; x7b; x7d; x5e; x24; x23; x26; x2d; x7e].
Definition sample_regex : Regex := {|
  regex_escape := λ p, p ≫= λ b, if decide (b ∈ special) then [x5c; b] else [b];
  regex_is_match := λ p s, Ok (bool_decide (p = [x5e] ++ s ++ [x24])) |}.
#[local] Existing Instance sample_libm.
#[local] Existing Instance sample_regex.

Lemma like_underscore_percent_witness :
  like_pattern [x61; x5f; x25] = [x5e; x61; x5f; x2a; x24].
Proof.
  refine (proj2 (proj2 (like_underscore_percent _))). intros p Hp.
  induction Hp as [|b p Hb Hp IH]; [done|]. cbn in *. rewrite IH.
  assert ((if decide (b ∈ special) then [x5c; b] else [b]) = [b]) as ->; [|done].
  rewrite !elem_of_cons, elem_of_nil in Hb. destruct Hb as [->|[->|[->|[]]]]; reflexivity.
Defined.

Lemma evaluate_in_range_witness : value_ok (Integer (-9223372036854775808)).
Proof.
  refine (evaluate_in_range (Subtract (Field 0 None) (Constant (Integer 1)))
    (Some [Integer (-9223372036854775807)]) _ _ _ _).
  - repeat constructor; vm_compute; discriminate.
  - reflexivity.
  - vm_compute. reflexivity.
Defined.

Lemma constant_folding_exact_witness :
  ∃ e', fold_constants (Add (x 0) (Multiply (Constant (Integer 6)) (Constant (Integer 7)))) = Ok e' ∧
    ∀ row', evaluate e' row'
      = evaluate (Add (x 0) (Multiply (Constant (Integer 6)) (Constant (Integer 7)))) row'.
Proof.
  destruct (constant_folding_exact (Add (x 0) (Multiply (Constant (Integer 6)) (Constant (Integer 7))))
    (Some [Integer 1]) (Integer 43)) as (e' & He & Hv & _); [reflexivity|]. by exists e'.
Defined.

Lemma lookup_complete_witness :
  ∃ v, v ∈ [Integer 1; Null] ∧ looked_up (Integer 1) v.
Proof.
  refine (lookup_complete (Or (Equal (x 0) (Constant (Integer 1))) (IsNull (x 0))) 0
    [Integer 1; Null] (Some [Integer 1]) _ _); reflexivity.
Defined.

Lemma noop_clean_filter_witness :
  ∃ e' v', clean_noops (And (Constant (Boolean true)) (Or (x 0) (Constant Null))) = Ok e' ∧
    evaluate e' (Some [Boolean true]) = Ok v' ∧ (v' = Boolean true ↔ Boolean true = Boolean true).
Proof.
  apply (noop_clean_filter (And (Constant (Boolean true)) (Or (x 0) (Constant Null)))
    (Some [Boolean true]) (Boolean true)); reflexivity.
Defined.

Lemma normal_forms_keep_value_witness :
  ∃ cnf, into_cnf (Or (And (x 0) (x 1)) (Not (x 2))) = Ok cnf ∧
    evaluate cnf (Some [Boolean true; Null; Boolean true]) = Ok Null.
Proof.
  destruct (normal_forms_keep_value (Or (And (x 0) (x 1)) (Not (x 2))))
    as (nnf & cnf & dnf & cl & te & co & di & _ & Hc & _ & _ & _ & _ & _ & Hv).
  exists cnf. split; [done|]. by apply (Hv (Some [Boolean true; Null; Boolean true]) Null).
Defined.
End samples.

(** An exponent of 2^32 is truncated to zero; exponents below that give the
    exact power or an overflow error. *)
Theorem exponent_wraps `{Libm, Regex} :
  evaluate (Exponentiate (Constant (Integer 2)) (Constant (Integer 4294967296))) None = Ok (Integer 1) ∧
  (∀ z n, (0 ≤ n < 4294967296)%Z →
     eval_exponentiate (Integer z) (Integer n) = overflow (checked (z ^ n)%Z)).
Proof.
  split; [done|]. intros z n Hn. cbn [eval_exponentiate].
  destruct (Z.leb_spec 0 n); [|lia]. unfold z_as_u32. rewrite Z.mod_small by lia.
  by rewrite checked_pow_spec by lia.
Qed.
