(* ===== verification/SqlSchema.v ===== *)
(** SQL schemas (src/src/sql/schema.rs): tables, columns, and what is checked of
    a schema and of a row before it is stored.

    A scan is the list of the items its iterator yields. *)
From Stdlib Require Import Strings.Byte NArith ZArith Lia Floats.SpecFloat.
From stdpp Require Import base list strings.
From S2P Require Import Prelude KeyCode Engine SqlTypes SqlExpression.

Open Scope Z_scope.

(** * Tables and columns *)

(** [schema::Column]. *)
Record Column := {
  c_name : bytes;
  c_datatype : DataType;
  c_primary_key : bool;
  c_nullable : bool;
  c_default : option Value;
  c_unique : bool;
  c_references : option bytes;
  c_index : bool
}.

Record Table := { t_name : bytes; t_columns : list Column }.

#[export] Instance Column_eq_dec : EqDecision Column.
Proof. solve_decision. Defined.
#[export] Instance Table_eq_dec : EqDecision Table.
Proof. solve_decision. Defined.

Definition show_type (t : DataType) : fmt_arg :=
  FText match t with
        | TBoolean => "BOOLEAN" | TInteger => "INTEGER" | TFloat => "FLOAT" | TString => "STRING"
        end.

(** [Iterator::position] and [Iterator::find]. *)
Fixpoint position {A} (P : A → bool) (l : list A) : option nat :=
  match l with
  | [] => None
  | x :: l => if P x then Some O else S <$> position P l
  end.

(** [Option::ok_or_else]. *)
Definition ok_or {A} (o : option A) (e : res A) : res A :=
  match o with Some a => Ok a | None => e end.

(** [Table::new]. *)
Definition new_table (name : bytes) (columns : list Column) : res Table :=
  Ok {| t_name := name; t_columns := columns |}.

Definition get_column (t : Table) (name : bytes) : res Column :=
  ok_or (List.find (λ c, bool_decide (c_name c = name)) (t_columns t))
    (value_error "Column {} not found in table {}" [FBytes name; FBytes (t_name t)]).

Definition get_column_index (t : Table) (name : bytes) : res nat :=
  ok_or (position (λ c, bool_decide (c_name c = name)) (t_columns t))
    (value_error "Column {} not found in table {}" [FBytes name; FBytes (t_name t)]).

Definition get_primary_key (t : Table) : res Column :=
  ok_or (List.find c_primary_key (t_columns t))
    (value_error "Primary key not found in table {}" [FBytes (t_name t)]).

Definition get_row_key (t : Table) (row : Row) : res Value :=
  i ← ok_or (position c_primary_key (t_columns t)) (value_error "Primary key not found" []);
  ok_or (row !! i) (value_error "Primary key value not found for row" []).

(** * The reading half of a transaction *)

(** What schemas and catalogs use of the [Transaction] and [Catalog] traits. *)
Class Reader (T : Type) := {
  tx_read_table : bytes → M T (option Table);
  tx_scan_tables : M T (list Table);
  tx_read : bytes → Value → M T (option Row);
  tx_scan : bytes → option Expression → M T (list (res Row))
}.

Section catalog.
Context {T : Type} `{Reader T}.

Definition must_read_table (table : bytes) : M T Table :=
  o ← tx_read_table table;
  lift (ok_or o (value_error "Table {} does not exist" [FBytes table])).

Definition references_of (table : bytes) (t : Table) : list bytes :=
  c_name <$> List.filter (λ c, bool_decide (c_references c = Some table)) (t_columns t).

Definition table_references (table : bytes) (with_self : bool)
    : M T (list (bytes * list bytes)) :=
  tables ← tx_scan_tables;
  mret (List.filter (λ p, negb (bool_decide (p.2 = [])))
    ((λ t, (t_name t, references_of table t)) <$>
     List.filter (λ t, with_self || negb (bool_decide (t_name t = table))) tables)).

(** * Validation *)

(** [Column::validate]: keys, the default, the reference. *)
Definition validate_default (c : Column) : res unit :=
  match c_default c with
  | Some default =>
      match datatype default with
      | Some t =>
          if decide (t = c_datatype c) then Ok tt
          else value_error "Default value for column {} has datatype {}, must be {}"
                 [FBytes (c_name c); show_type t; show_type (c_datatype c)]
      | None =>
          if c_nullable c then Ok tt
          else value_error "Can't use NULL as default value for non-nullable column {}"
                 [FBytes (c_name c)]
      end
  | None =>
      if c_nullable c
      then value_error "Nullable column {} must have a default value" [FBytes (c_name c)]
      else Ok tt
  end.

Definition validate_column (c : Column) (table : Table) : M T unit :=
  if c_primary_key c && c_nullable c
  then lift (value_error "Primary key {} cannot be nullable" [FBytes (c_name c)])
  else if c_primary_key c && negb (c_unique c)
  then lift (value_error "Primary key {} must be unique" [FBytes (c_name c)])
  else
    _ ← lift (validate_default c);
    match c_references c with
    | None => mret tt
    | Some reference =>
        target ← (if decide (reference = t_name table) then mret table
                  else
                    o ← tx_read_table reference;
                    lift (ok_or o
                      (value_error "Table {} referenced by column {} does not exist"
                         [FBytes reference; FBytes (c_name c)])));
        pk ← lift (get_primary_key target);
        if decide (c_datatype c = c_datatype pk) then mret tt
        else lift (value_error "Can't reference {} primary key of table {} from {} column {}"
               [show_type (c_datatype pk); FBytes (t_name target);
                show_type (c_datatype c); FBytes (c_name c)])
    end.

(** [Table::validate]. *)
Definition validate (t : Table) : M T unit :=
  if decide (t_columns t = [])
  then lift (value_error "Table {} has no columns" [FBytes (t_name t)])
  else
    _ ← lift match length (List.filter c_primary_key (t_columns t)) with
             | 1%nat => Ok tt
             | O => value_error "No primary key in table {}" [FBytes (t_name t)]
             | _ => value_error "Multiple primary keys in table {}" [FBytes (t_name t)]
             end;
    for_each (t_columns t) (λ c, validate_column c t).

(** The datatype and size of a value. *)
Definition validate_type (c : Column) (value : Value) : res unit :=
  _ ← match datatype value with
      | None =>
          if c_nullable c then Ok tt
          else value_error "NULL value not allowed for column {}" [FBytes (c_name c)]
      | Some t =>
          if decide (t = c_datatype c) then Ok tt
          else value_error "Invalid datatype {} for {} column {}"
                 [show_type t; show_type (c_datatype c); FBytes (c_name c)]
      end;
  match value with
  | String s =>
      if (1024 <? length s)%nat
      then value_error "Strings cannot be more than 1024 bytes" []
      else Ok tt
  | _ => Ok tt
  end.

(** The outgoing reference of a value. *)
Definition validate_reference (c : Column) (table : Table) (pk value : Value) : M T unit :=
  match c_references c with
  | None => mret tt
  | Some target =>
      match value with
      | Null | Float S754_nan => mret tt
      | v =>
          if bool_decide (target = t_name table) && value_eq v pk then mret tt
          else
            o ← tx_read target v;
            lift match o with
                 | None => value_error "Referenced primary key {} in table {} does not exist"
                             [show v; FBytes target]
                 | Some _ => Ok tt
                 end
      end
  end.

(** The loop over the stored rows that looks for the same value. *)
Fixpoint find_duplicate (c : Column) (table : Table) (pk value : Value) (index : nat)
    (scan : list (res Row)) : res unit :=
  match scan with
  | [] => Ok tt
  | item :: scan =>
      row ← item;
      if value_eq (default Null (row !! index)) value then
        key ← get_row_key table row;
        if value_eq key pk then find_duplicate c table pk value index scan
        else value_error "Unique value {} already exists for column {}"
               [show value; FBytes (c_name c)]
      else find_duplicate c table pk value index scan
  end.

Definition validate_unique (c : Column) (table : Table) (pk value : Value) : M T unit :=
  if c_unique c && negb (c_primary_key c) && negb (value_eq value Null) then
    index ← lift (get_column_index table (c_name c));
    scan ← tx_scan (t_name table) None;
    lift (find_duplicate c table pk value index scan)
  else mret tt.

(** [Column::validate_value]. *)
Definition validate_value (c : Column) (table : Table) (pk value : Value) : M T unit :=
  _ ← lift (validate_type c value);
  _ ← validate_reference c table pk value;
  validate_unique c table pk value.

(** [Table::validate_row]. *)
Definition validate_row (t : Table) (row : Row) : M T unit :=
  if decide (length row = length (t_columns t)) then
    pk ← lift (get_row_key t row);
    for_each (zip (t_columns t) row) (λ '(c, v), validate_value c t pk v)
  else lift (value_error "Invalid row size for table {}" [FBytes (t_name t)]).
End catalog.
