(* ===== verification/SqlKeys.v ===== *)
(** The keys of the SQL key/value engine (the [Key] and [KeyPrefix] enums of
    src/src/sql/engine/kv.rs) and their KeyCode encoding, in which a value of
    any type is a key field.

    The derived serde implementations are written with the KeyCode methods; an
    [f64] goes through its bit pattern, the quiet NaN for every NaN. *)
From Stdlib Require Import Strings.Byte NArith ZArith Lia Floats.SpecFloat.
From stdpp Require Import base list strings.
From S2P Require Import Prelude KeyCode Engine SqlTypes.

Open Scope N_scope.

(** * Floats as bit patterns *)

Definition sign_bit (s : bool) : N := if s then 9223372036854775808 else 0.

(** [f64::to_bits] and [f64::from_bits]. *)
Definition f64_to_bits (f : f64) : N :=
  match f with
  | S754_zero s => sign_bit s
  | S754_infinity s => sign_bit s + 9218868437227405312
  | S754_nan => 9221120237041090560
  | S754_finite s m e =>
      sign_bit s +
      if Npos m <? 4503599627370496 then Npos m
      else Z.to_N (e + 1075) * 4503599627370496 + (Npos m - 4503599627370496)
  end.

Definition f64_from_bits (n : N) : f64 :=
  let s := bool_decide (9223372036854775808 ≤ n) in
  let n := n mod 9223372036854775808 in
  let e := n / 4503599627370496 in
  let m := n mod 4503599627370496 in
  if e =? 2047 then if m =? 0 then S754_infinity s else S754_nan
  else if e =? 0 then match m with N0 => S754_zero s | Npos m => S754_finite s m (-1074) end
  else match m + 4503599627370496 with
       | N0 => S754_zero s
       | Npos m => S754_finite s m (Z.of_N e - 1075)
       end.

(** The representable floats: what the hardware operations produce. *)
Definition f64_valid (f : f64) : Prop := valid_binary 53 1024 f = true.

Lemma sign_bit_split s n : n < 9223372036854775808 →
  bool_decide (9223372036854775808 ≤ sign_bit s + n) = s ∧
  (sign_bit s + n) mod 9223372036854775808 = n.
Proof.
  intros Hn. destruct s; cbn [sign_bit].
  - rewrite bool_decide_true by lia. split; [done|].
    replace (9223372036854775808 + n) with (n + 1 * 9223372036854775808) by lia.
    rewrite N.Div0.mod_add. by apply N.mod_small.
  - rewrite bool_decide_false by lia. split; [done|]. by apply N.mod_small.
Qed.

Lemma digits2_pos_size m : digits2_pos m = Pos.size m.
Proof. induction m; simpl; by rewrite ?IHm. Qed.

Lemma f64_finite_valid s m e : f64_valid (S754_finite s m e) →
  (e = -1074 ∧ Zpos m < 9007199254740992 ∨
   -1074 ≤ e ≤ 971 ∧ 4503599627370496 ≤ Zpos m < 9007199254740992)%Z.
Proof.
  unfold f64_valid, valid_binary, bounded, canonical_mantissa, fexp, emin.
  rewrite andb_true_iff, Z.eqb_eq, Z.leb_le, digits2_pos_size. intros [He Hle].
  pose proof (Pos.size_gt m) as Hgt. pose proof (Pos.size_le m) as Hlo.
  apply Pos2Z.pos_lt_pos in Hgt. apply Pos2Z.pos_le_pos in Hlo.
  rewrite Pos2Z.inj_xO, !Pos2Z.inj_pow in *.
  assert (Zpos (Pos.size m) ≤ 53)%Z as Hd by lia.
  assert (2 ^ Zpos (Pos.size m) ≤ 2 ^ 53)%Z by (apply Z.pow_le_mono_r; lia).
  change (2 ^ 53)%Z with 9007199254740992%Z in *.
  destruct (decide (Zpos (Pos.size m) = 53)%Z) as [E|E].
  - rewrite E in *. change (2 ^ 53)%Z with 9007199254740992%Z in *. right. lia.
  - left. lia.
Qed.

Lemma f64_bits_parts s e m : e < 2048 → m < 4503599627370496 →
  let n := sign_bit s + (e * 4503599627370496 + m) in
  n ≤ u64_max ∧ bool_decide (9223372036854775808 ≤ n) = s ∧
  n mod 9223372036854775808 / 4503599627370496 = e ∧
  n mod 9223372036854775808 mod 4503599627370496 = m.
Proof.
  intros He Hm n. destruct (sign_bit_split s (e * 4503599627370496 + m)) as [Hs Hn]; [lia|].
  split.
  { subst n. destruct s; cbn [sign_bit]; unfold u64_max; lia. }
  split; [done|]. fold n in Hn. rewrite Hn. split.
  - symmetry. apply (N.div_unique _ _ _ m); lia.
  - symmetry. apply (N.mod_unique _ _ e); lia.
Qed.

Lemma f64_from_parts s e m : e < 2048 → m < 4503599627370496 →
  f64_from_bits (sign_bit s + (e * 4503599627370496 + m))
  = if e =? 2047 then if m =? 0 then S754_infinity s else S754_nan
    else if e =? 0 then match m with N0 => S754_zero s | Npos m => S754_finite s m (-1074) end
    else match m + 4503599627370496 with
         | N0 => S754_zero s
         | Npos m => S754_finite s m (Z.of_N e - 1075)
         end.
Proof.
  intros He Hm. destruct (f64_bits_parts s e m He Hm) as (_ & Hs & Hd & Hr).
  unfold f64_from_bits. by rewrite Hs, Hd, Hr.
Qed.

(** The exponent and mantissa fields of a representable float. *)
Lemma f64_to_bits_parts f : f64_valid f → ∃ s e m, e < 2048 ∧ m < 4503599627370496 ∧
  f64_to_bits f = sign_bit s + (e * 4503599627370496 + m) ∧
  f = f64_from_bits (f64_to_bits f).
Proof.
  destruct f as [s|s| |s m e]; intros Hv.
  - exists s, 0, 0. by destruct s.
  - exists s, 2047, 0. by destruct s.
  - by exists false, 2047, 2251799813685248.
  - apply f64_finite_valid in Hv. cbn [f64_to_bits].
    destruct (N.ltb_spec (Npos m) 4503599627370496) as [Hm|Hm].
    + exists s, 0, (Npos m). split; [done|]. split; [done|]. rewrite N.mul_0_l, N.add_0_l.
      split; [done|]. rewrite <-(N.add_0_l (Npos m)), <-(N.mul_0_l 4503599627370496).
      rewrite f64_from_parts by done. cbn. f_equal. lia.
    + assert (-1074 ≤ e ≤ 971)%Z as He by lia.
      exists s, (Z.to_N (e + 1075)), (Npos m - 4503599627370496).
      split; [lia|]. split; [lia|]. split; [done|].
      rewrite f64_from_parts by lia. rewrite N.sub_add by done.
      destruct (N.eqb_spec (Z.to_N (e + 1075)) 2047); [lia|].
      destruct (N.eqb_spec (Z.to_N (e + 1075)) 0); [lia|]. f_equal. lia.
Qed.

Lemma f64_bits_roundtrip f : f64_valid f → f64_from_bits (f64_to_bits f) = f.
Proof. intros Hv. by destruct (f64_to_bits_parts f Hv) as (s & e & m & _ & _ & _ & <-). Qed.

Lemma f64_to_bits_u64 f : f64_valid f → f64_to_bits f ≤ u64_max.
Proof.
  intros Hv. destruct (f64_to_bits_parts f Hv) as (s & e & m & He & Hm & -> & _).
  apply (f64_bits_parts s e m He Hm).
Qed.

(** * Values as key fields *)

Definition value_index (v : Value) : N :=
  match v with
  | Null => 0
  | Boolean _ => 1
  | Integer _ => 2
  | Float _ => 3
  | String _ => 4
  end.

(** The derived [Serialize] and [Deserialize] of [Value]. *)
Definition serialize_value (v : Value) : M Serializer unit :=
  _ ← serialize_unit_variant (value_index v);
  match v with
  | Null => mret tt
  | Boolean b => serialize_bool b
  | Integer i => serialize_i64 i
  | Float f => serialize_f64 (f64_to_bits f)
  | String s => serialize_str s
  end.

Definition deserialize_value : M Deserializer Value :=
  i ← variant_index;
  if decide (i = 0) then mret Null
  else if decide (i = 1) then (b ← deserialize_bool; mret (Boolean b))
  else if decide (i = 2) then (z ← deserialize_i64; mret (Integer z))
  else if decide (i = 3) then (f ← deserialize_f64; mret (Float (f64_from_bits f)))
  else if decide (i = 4) then (s ← deserialize_str; mret (String s))
  else unknown_variant i 5.

(** The order of the encodings: by type, then by value; floats in total order. *)
Definition compare_value (a b : Value) : comparison :=
  match a, b with
  | Boolean a, Boolean b => @key_cmp _ bool_key a b
  | Integer a, Integer b => Z.compare a b
  | Float a, Float b => f64_cmp (f64_to_bits a) (f64_to_bits b)
  | String a, String b => bytes_cmp a b
  | a, b => value_index a ?= value_index b
  end.

(** What the language guarantees of a value: the integer is 64 bits wide, the
    float is representable, the string is UTF-8. *)
Definition value_valid (v : Value) : Prop :=
  match v with
  | Integer i => i64_valid i
  | Float f => f64_valid f
  | String s => utf8_valid s = true
  | _ => True
  end.

Definition value_field (v : Value) : bytes :=
  match v with
  | Null => []
  | Boolean b => @key_bytes _ bool_key b
  | Integer i => @key_bytes _ i64_key i
  | Float f => @key_bytes _ f64_key (f64_to_bits f)
  | String s => @key_bytes _ str_key s
  end.

#[export] Instance value_key : KeyType Value := {
  encode_key := serialize_value;
  decode_key := deserialize_value;
  key_valid := value_valid;
  key_cmp := compare_value;
  key_bytes := λ v, n2b (value_index v) :: value_field v
}.

#[local] Opaque to_be.

Lemma value_index_u8 v : value_index v ≤ u8_max.
Proof. by destruct v. Qed.

Lemma value_encode v s : value_valid v →
  serialize_value v s = (Ok tt, {| output := output s ++ key_bytes v |}).
Proof.
  intros Hv. unfold serialize_value.
  erewrite M_bind_Ok by (apply variant_encode, value_index_u8).
  destruct v as [|b|i|f|t]; cbn [key_bytes value_key value_field].
  - done.
  - etrans; [by apply (key_encode (H:=bool_key))|]. cbn [output]. by rewrite <-app_assoc.
  - etrans; [by apply (key_encode (H:=i64_key))|]. cbn [output]. by rewrite <-app_assoc.
  - etrans; [by apply (key_encode (H:=f64_key)), f64_to_bits_u64|].
    cbn [output]. by rewrite <-app_assoc.
  - etrans; [by apply (key_encode (H:=str_key))|]. cbn [output]. by rewrite <-app_assoc.
Qed.

Lemma value_decode v r : value_valid v →
  deserialize_value {| input := key_bytes v ++ r |} = (Ok v, {| input := r |}).
Proof.
  intros Hv. unfold deserialize_value. cbn [key_bytes value_key]. cbn [app].
  erewrite M_bind_Ok by (apply variant_decode, value_index_u8).
  destruct v as [|b|i|f|t]; cbn [value_index value_field];
    rewrite ?(decide_False (P:=_ = _)) by done; rewrite (decide_True (P:=_ = _)) by done.
  - done.
  - by erewrite M_bind_Ok by (by apply (key_decode (H:=bool_key))).
  - by erewrite M_bind_Ok by (by apply (key_decode (H:=i64_key))).
  - erewrite M_bind_Ok by (by apply (key_decode (H:=f64_key)), f64_to_bits_u64).
    by rewrite f64_bits_roundtrip.
  - by erewrite M_bind_Ok by (by apply (key_decode (H:=str_key))).
Qed.

Lemma value_order a b r s : value_valid a → value_valid b →
  bytes_cmp (key_bytes a ++ r) (key_bytes b ++ s)
  = match compare_value a b with Eq => bytes_cmp r s | c => c end.
Proof.
  intros Ha Hb. cbn [key_bytes value_key]. cbn [app].
  rewrite variant_order by apply value_index_u8.
  destruct a, b; try done; cbn [value_index value_field compare_value]; rewrite N.compare_refl.
  - by rewrite (key_order (H:=bool_key)).
  - by rewrite (key_order (H:=i64_key)).
  - by rewrite (key_order (H:=f64_key)) by by apply f64_to_bits_u64.
  - by rewrite (key_order (H:=str_key)).
Qed.

Lemma value_bytes_inj v w r s : value_valid v → value_valid w →
  key_bytes v ++ r = key_bytes w ++ s → v = w ∧ r = s.
Proof.
  intros Hv Hw Heq. pose proof (value_decode v r Hv) as Hd.
  rewrite Heq, value_decode in Hd by done. by simplify_eq.
Qed.

(** * Keys *)

(** [kv::Key] and [kv::KeyPrefix], in the order of their variants. *)
Inductive Key :=
| KTable (table : bytes)
| KIndex (table column : bytes) (value : Value)
| KRow (table : bytes) (id : Value).

Inductive KeyPrefix :=
| PTable
| PIndex (table column : bytes)
| PRow (table : bytes).

#[export] Instance Key_eq_dec : EqDecision Key.
Proof. solve_decision. Defined.

Definition serialize_key (k : Key) : M Serializer unit :=
  match k with
  | KTable t => _ ← serialize_unit_variant 0; serialize_str t
  | KIndex t c v =>
      _ ← serialize_unit_variant 1; _ ← serialize_str t; _ ← serialize_str c; serialize_value v
  | KRow t v => _ ← serialize_unit_variant 2; _ ← serialize_str t; serialize_value v
  end.

Definition deserialize_key : M Deserializer Key :=
  i ← variant_index;
  if decide (i = 0) then (t ← deserialize_str; mret (KTable t))
  else if decide (i = 1) then
    t ← field 0 deserialize_str; c ← field 1 deserialize_str;
    v ← field 2 deserialize_value; mret (KIndex t c v)
  else if decide (i = 2) then
    t ← field 0 deserialize_str; v ← field 1 deserialize_value; mret (KRow t v)
  else unknown_variant i 3.

Definition serialize_prefix (p : KeyPrefix) : M Serializer unit :=
  match p with
  | PTable => serialize_unit_variant 0
  | PIndex t c => _ ← serialize_unit_variant 1; _ ← serialize_str t; serialize_str c
  | PRow t => _ ← serialize_unit_variant 2; serialize_str t
  end.

Definition finish (m : M Serializer unit) : res bytes :=
  match m {| output := [] |} with
  | (Ok _, s) => Ok (output s)
  | (Err e, _) => Err e
  | (Panic w, _) => Panic w
  end.

(** [Key::encode], [Key::decode] and [KeyPrefix::encode]. *)
Definition encode (k : Key) : res bytes := finish (serialize_key k).
Definition encode_prefix (p : KeyPrefix) : res bytes := finish (serialize_prefix p).
Definition decode (bs : bytes) : res Key :=
  match deserialize_key {| input := bs |} with
  | (Ok k, d) =>
      match input d with
      | [] => Ok k
      | rest => Err (EInternal (Msg "Unexpected trailing bytes {:x?} at end of key {:x?}"
                  [FBytes rest; FBytes bs]))
      end
  | (Err e, _) => Err e
  | (Panic w, _) => Panic w
  end.

(** * The encoding of keys *)

Definition sql_key_valid (k : Key) : Prop :=
  match k with
  | KTable t => utf8_valid t = true
  | KIndex t c v => utf8_valid t = true ∧ utf8_valid c = true ∧ value_valid v
  | KRow t v => utf8_valid t = true ∧ value_valid v
  end.
Definition prefix_valid (p : KeyPrefix) : Prop :=
  match p with
  | PTable => True
  | PIndex t c => utf8_valid t = true ∧ utf8_valid c = true
  | PRow t => utf8_valid t = true
  end.

Definition str_bytes (s : bytes) : bytes := @key_bytes _ str_key s.

Definition sql_key_bytes (k : Key) : bytes :=
  match k with
  | KTable t => x00 :: str_bytes t
  | KIndex t c v => x01 :: str_bytes t ++ str_bytes c ++ key_bytes v
  | KRow t v => x02 :: str_bytes t ++ key_bytes v
  end.
Definition sql_prefix_bytes (p : KeyPrefix) : bytes :=
  match p with
  | PTable => [x00]
  | PIndex t c => x01 :: str_bytes t ++ str_bytes c
  | PRow t => x02 :: str_bytes t
  end.

(** The keys a prefix covers. *)
Definition covers (p : KeyPrefix) (k : Key) : Prop :=
  match p, k with
  | PTable, KTable _ => True
  | PIndex t c, KIndex t' c' _ => t = t' ∧ c = c'
  | PRow t, KRow t' _ => t = t'
  | _, _ => False
  end.

Lemma str_encode s o : utf8_valid s = true →
  serialize_str s o = (Ok tt, {| output := output o ++ str_bytes s |}).
Proof. apply (key_encode (H:=str_key)). Qed.

Lemma str_bytes_inj a b r s : utf8_valid a = true → utf8_valid b = true →
  str_bytes a ++ r = str_bytes b ++ s → a = b ∧ r = s.
Proof.
  intros Ha Hb Heq. pose proof (key_decode (H:=str_key) a r Ha) as Hd.
  change (@key_bytes _ str_key a) with (str_bytes a) in Hd. rewrite Heq in Hd.
  unfold str_bytes in Hd. rewrite (key_decode (H:=str_key)) in Hd by done. by simplify_eq.
Qed.

Ltac encode_fields :=
  repeat first
    [ erewrite M_bind_Ok by (by apply variant_encode)
    | erewrite M_bind_Ok by (by apply str_encode)
    | rewrite str_encode by done
    | rewrite value_encode by done
    | rewrite variant_encode by done ];
  cbn [output app]; rewrite <-?app_assoc; reflexivity.

Lemma sql_encode_valid k : sql_key_valid k → encode k = Ok (sql_key_bytes k).
Proof.
  destruct k; cbn [sql_key_valid]; intros Hk; destruct_and?; unfold encode, finish;
    cbn [serialize_key sql_key_bytes]; encode_fields.
Qed.

Lemma sql_encode_prefix_valid p : prefix_valid p → encode_prefix p = Ok (sql_prefix_bytes p).
Proof.
  destruct p; cbn [prefix_valid]; intros Hk; destruct_and?; unfold encode_prefix, finish;
    cbn [serialize_prefix sql_prefix_bytes]; encode_fields.
Qed.

Lemma value_field_decode position v : value_valid v →
  field position deserialize_value {| input := key_bytes v |} = (Ok v, {| input := [] |}).
Proof.
  intros Hv. unfold field, next_element, mbind, M_bind. cbn [input].
  change (key_bytes v) with (n2b (value_index v) :: value_field v). cbn iota.
  change (n2b (value_index v) :: value_field v) with (key_bytes v).
  rewrite <-(app_nil_r (key_bytes v)), value_decode by done. done.
Qed.

Lemma decode_valid k : sql_key_valid k → decode (sql_key_bytes k) = Ok k.
Proof.
  intros Hk. unfold decode, deserialize_key.
  destruct k as [t|t c v|t v]; cbn [sql_key_valid] in Hk; destruct_and?; cbn [sql_key_bytes].
  - erewrite M_bind_Ok by (by apply (variant_decode 0)). rewrite decide_True by done.
    rewrite <-(app_nil_r (str_bytes t)).
    by erewrite M_bind_Ok by (by apply (key_decode (H:=str_key))).
  - erewrite M_bind_Ok by (by apply (variant_decode 1)).
    rewrite decide_False, decide_True by done.
    erewrite M_bind_Ok by (by apply (field_decode (H:=str_key))).
    erewrite M_bind_Ok by (by apply (field_decode (H:=str_key))).
    by erewrite M_bind_Ok by (by apply value_field_decode).
  - erewrite M_bind_Ok by (by apply (variant_decode 2)).
    rewrite !decide_False, decide_True by done.
    erewrite M_bind_Ok by (by apply (field_decode (H:=str_key))).
    by erewrite M_bind_Ok by (by apply value_field_decode).
Qed.

Lemma sql_key_bytes_inj a b : sql_key_valid a → sql_key_valid b →
  sql_key_bytes a = sql_key_bytes b → a = b.
Proof.
  intros Ha Hb Heq. pose proof (decode_valid a Ha) as Hd.
  rewrite Heq, decode_valid in Hd by done. by simplify_eq.
Qed.

(** A prefix scan finds exactly the keys it is meant to. *)
Lemma prefix_covers p k : prefix_valid p → sql_key_valid k →
  starts_with (sql_prefix_bytes p) (sql_key_bytes k) ↔ covers p k.
Proof.
  intros Hp Hk. split.
  - intros [r Heq]. destruct p, k; cbn [prefix_valid sql_key_valid] in *; destruct_and?;
      try discriminate Heq; injection Heq as Heq; cbn [covers]; [done|..];
      rewrite <-?app_assoc in Heq.
    + apply str_bytes_inj in Heq as [-> Heq]; [|done..].
      by apply str_bytes_inj in Heq as [-> _].
    + by apply str_bytes_inj in Heq as [-> _].
  - destruct p, k; cbn [covers]; try done; intros; destruct_and?; subst.
    + by eexists.
    + exists (key_bytes value). cbn [sql_key_bytes sql_prefix_bytes app]. by rewrite <-app_assoc.
    + by eexists.
Qed.
