(* ===== verification/SqlKv.v ===== *)
(** The SQL engine over a key/value transaction (src/src/sql/engine/kv.rs).

    The key/value transaction is the interface [KvStore], which the MVCC
    transactions implement; rows, index entries and schemas are bincode, a crate
    that is a parameter.  A [HashSet<Value>] is the list of its elements, which
    are distinct; its order is that of insertion, one of the orders the code can
    meet.  Bincode writes a set as it writes a vector: its length and elements. *)
From Stdlib Require Import Strings.Byte NArith ZArith Lia Floats.SpecFloat.
From stdpp Require Import base list gmap strings.
From S2P Require Import Prelude KeyCode Engine Bincode Mvcc SqlTypes SqlExpression SqlSchema SqlKeys.

(** * Interfaces *)

(** What the SQL engine uses of [storage::mvcc::Transaction].  A scan is the
    list of the items its iterator yields. *)
Class KvStore (T : Type) := {
  kv_get : bytes → M T (option bytes);
  kv_set : bytes → bytes → M T unit;
  kv_delete : bytes → M T unit;
  kv_scan_prefix : bytes → M T (list (res (bytes * bytes)))
}.

(** An SQL transaction: the [Transaction] and [Catalog] traits
    (src/src/sql/engine/mod.rs, src/src/sql/schema.rs), with the methods that
    only read in [Reader]. *)
Class Transaction (T : Type) := {
  tx_reader :: Reader T;
  tx_create : bytes → Row → M T unit;
  tx_delete : bytes → Value → M T unit;
  tx_read_index : bytes → bytes → Value → M T (list Value);
  tx_scan_index : bytes → bytes → M T (list (res (Value * list Value)));
  tx_update : bytes → Value → Row → M T unit;
  tx_create_table : Table → M T unit;
  tx_delete_table : bytes → M T unit
}.

(** * Sets of values *)

#[export] Instance HashInput_eq_dec : EqDecision HashInput.
Proof. solve_decision. Defined.

(** Two values are the same key of a hash table: equal, with equal hashes. *)
Definition same_key (v w : Value) : bool :=
  bool_decide (hash 1 v = hash 1 w) && value_eq v w.

(** Hashing [Null] recurses without end. *)
Definition hashed {A} (v : Value) (r : A) : res A :=
  match v with Null => Panic "stack overflow" | _ => Ok r end.

(** [HashSet::insert] and [HashSet::remove]. *)
Definition set_insert (v : Value) (s : list Value) : res (list Value) :=
  hashed v (if List.existsb (same_key v) s then s else s ++ [v]).
Definition set_remove (v : Value) (s : list Value) : res (list Value) :=
  hashed v (List.filter (λ w, negb (same_key v w)) s).

(** * Operations *)

(** [collect::<Vec<Result<_>>>()]: errors are items, a panic is not. *)
Fixpoint collect_vec {A} (rs : list (res A)) : res (list (res A)) :=
  match rs with
  | [] => Ok []
  | Panic w :: _ => Panic w
  | r :: rs => xs ← collect_vec rs; Ok (r :: xs)
  end.

(** [row[i]]. *)
Definition row_at (row : Row) (i : nat) : res Value :=
  ok_or (row !! i) (Panic "index out of bounds").

(** The indexed columns of a table with their positions. *)
Definition indexes (t : Table) : list (nat * SqlSchema.Column) :=
  List.filter (λ p, c_index p.2) (imap pair (t_columns t)).

Section kv.
Context {T : Type} `{KvStore T}.
Context `{Libm, Regex}.
Context `{Bincode (list Value), Bincode Table}.

Definition deserialize_opt {A} `{Bincode A} (o : option bytes) : res (option A) :=
  match o with Some v => Some <$> bin_deserialize v | None => Ok None end.

Definition index_load (table column : bytes) (value : Value) : M T (list Value) :=
  key ← lift (encode (KIndex table column value));
  o ← kv_get key;
  s ← lift (deserialize_opt o);
  mret (default [] s).

Definition index_save (table column : bytes) (value : Value) (index : list Value) : M T unit :=
  key ← lift (encode (KIndex table column value));
  if decide (index = []) then kv_delete key else kv_set key (bin_serialize index).

(** [Transaction::read]. *)
Definition read (table : bytes) (id : Value) : M T (option Row) :=
  key ← lift (encode (KRow table id));
  o ← kv_get key;
  lift (deserialize_opt o).

Definition read_table (table : bytes) : M T (option Table) :=
  key ← lift (encode (KTable table));
  o ← kv_get key;
  lift (deserialize_opt o).

Definition scan_tables : M T (list Table) :=
  p ← lift (encode_prefix PTable);
  items ← kv_scan_prefix p;
  lift (collect ((λ r, '(_, v) ← r; bin_deserialize v) <$> items)).

(** What a scan does with a row: keep it, drop it, or yield an error. *)
Definition filter_row (filter : option Expression) (item : res Row) : option (res Row) :=
  match item with
  | Ok row =>
      match filter with
      | Some filter =>
          match evaluate filter (Some row) with
          | Ok (Boolean true) => Some (Ok row)
          | Ok (Boolean false) | Ok Null => None
          | Ok v => Some (value_error "Filter returned {}, expected boolean" [show v])
          | Err e => Some (Err e)
          | Panic w => Some (Panic w)
          end
      | None => Some (Ok row)
      end
  | err => Some err
  end.

(** [must_read_table], which the trait derives from [read_table]. *)
Definition must_read (table : bytes) : M T Table :=
  o ← read_table table;
  lift (ok_or o (value_error "Table {} does not exist" [FBytes table])).

Definition scan (table : bytes) (filter : option Expression) : M T (list (res Row)) :=
  t ← must_read table;
  p ← lift (encode_prefix (PRow (t_name t)));
  items ← kv_scan_prefix p;
  lift (collect_vec (omap (filter_row filter) ((λ r, '(_, v) ← r; bin_deserialize v) <$> items))).

#[export] Instance kv_reader : Reader T := {
  tx_read_table := read_table;
  tx_scan_tables := scan_tables;
  tx_read := read;
  tx_scan := scan
}.

Definition read_index (table column : bytes) (value : Value) : M T (list Value) :=
  t ← must_read_table table;
  c ← lift (get_column t column);
  if c_index c then index_load table column value
  else lift (value_error "No index on {}.{}" [FBytes table; FBytes column]).

Definition scan_index (table column : bytes) : M T (list (res (Value * list Value))) :=
  t ← must_read_table table;
  c ← lift (get_column t column);
  if c_index c then
    p ← lift (encode_prefix (PIndex (t_name t) (c_name c)));
    items ← kv_scan_prefix p;
    lift (collect_vec
      ((λ r, '(k, v) ← r;
             key ← decode k;
             value ← match key with
                     | KIndex _ _ pk => Ok pk
                     | _ => Err (EInternal (Msg "Invalid index key" []))
                     end;
             index ← bin_deserialize v;
             Ok (value, index)) <$> items))
  else lift (value_error "No index for {}.{}" [FBytes (t_name t); FBytes (c_name c)]).

(** Adds or removes a row of an index entry. *)
Definition index_add (t : Table) (c : SqlSchema.Column) (value id : Value) : M T unit :=
  index ← index_load (t_name t) (c_name c) value;
  index ← lift (set_insert id index);
  index_save (t_name t) (c_name c) value index.
Definition index_remove (t : Table) (c : SqlSchema.Column) (value id : Value) : M T unit :=
  index ← index_load (t_name t) (c_name c) value;
  index ← lift (set_remove id index);
  index_save (t_name t) (c_name c) value index.

Definition set_row (t : Table) (id : Value) (row : Row) : M T unit :=
  key ← lift (encode (KRow (t_name t) id));
  kv_set key (bin_serialize row).

(** [Transaction::create]. *)
Definition create (table : bytes) (row : Row) : M T unit :=
  t ← must_read_table table;
  _ ← validate_row t row;
  id ← lift (get_row_key t row);
  o ← read (t_name t) id;
  match o with
  | Some _ =>
      lift (value_error "Primary key {} already exists for table {}" [show id; FBytes (t_name t)])
  | None =>
      _ ← set_row t id row;
      for_each (indexes t) (λ '(i, c), v ← lift (row_at row i); index_add t c v id)
  end.

(** The rows of a table that refer to [id]; the row itself may. *)
Fixpoint check_columns (table t : Table) (id : Value) (row : Row) (cs : list (nat * bytes))
    : res unit :=
  match cs with
  | [] => Ok tt
  | (i, c) :: cs =>
      v ← row_at row i;
      refers ← (if value_eq v id then
                  if decide (t_name table = t_name t)
                  then key ← get_row_key table row; Ok (negb (value_eq id key))
                  else Ok true
                else Ok false);
      if refers : bool
      then value_error "Primary key {} is referenced by table {} column {}"
             [show id; FBytes (t_name t); FBytes c]
      else check_columns table t id row cs
  end.

Fixpoint check_rows (table t : Table) (id : Value) (cs : list (nat * bytes))
    (scan : list (res Row)) : res unit :=
  match scan with
  | [] => Ok tt
  | item :: scan =>
      row ← item;
      _ ← check_columns table t id row cs;
      check_rows table t id cs scan
  end.

Definition check_references (table : Table) (id : Value) : M T unit :=
  refs ← table_references (t_name table) true;
  for_each refs (λ '(tn, cs),
    t ← must_read_table tn;
    cs ← lift (collect ((λ c, i ← get_column_index t c; Ok (i, c)) <$> cs));
    items ← scan (t_name t) None;
    lift (check_rows table t id cs items)).

(** [Transaction::delete]. *)
Definition delete (table : bytes) (id : Value) : M T unit :=
  t ← must_read_table table;
  _ ← check_references t id;
  _ ← (if decide (indexes t = []) then mret tt
       else
         o ← read (t_name t) id;
         match o with
         | Some row =>
             for_each (indexes t) (λ '(i, c), v ← lift (row_at row i); index_remove t c v id)
         | None => mret tt
         end);
  key ← lift (encode (KRow (t_name t) id));
  kv_delete key.

(** [Transaction::update]: a changed primary key is a delete and a create. *)
Definition update (table : bytes) (id : Value) (row : Row) : M T unit :=
  t ← must_read_table table;
  key ← lift (get_row_key t row);
  if negb (value_eq id key) then
    _ ← delete (t_name t) id;
    create (t_name t) row
  else
    _ ← (if decide (indexes t = []) then mret tt
         else
           o ← read (t_name t) id;
           old ← lift (ok_or o (Panic "called `Option::unwrap()` on a `None` value"));
           for_each (indexes t) (λ '(i, c),
             v ← lift (row_at old i);
             w ← lift (row_at row i);
             if value_eq v w then mret tt
             else
               _ ← index_remove t c v id;
               index_add t c w id));
    _ ← validate_row t row;
    set_row t id row.

(** * The catalog *)

Definition create_table (t : Table) : M T unit :=
  o ← read_table (t_name t);
  match o with
  | Some _ => lift (value_error "Table {} already exists" [FBytes (t_name t)])
  | None =>
      _ ← validate t;
      key ← lift (encode (KTable (t_name t)));
      kv_set key (bin_serialize t)
  end.

Fixpoint delete_rows (t : Table) (scan : list (res Row)) : M T unit :=
  match scan with
  | [] => mret tt
  | item :: scan =>
      row ← lift item;
      id ← lift (get_row_key t row);
      _ ← delete (t_name t) id;
      delete_rows t scan
  end.

Definition delete_table (table : bytes) : M T unit :=
  t ← must_read_table table;
  refs ← table_references (t_name t) false;
  match refs with
  | (r, cs) :: _ =>
      c ← lift (ok_or (head cs) (Panic "index out of bounds"));
      lift (value_error "Table {} is referenced by table {} column {}"
              [FBytes (t_name t); FBytes r; FBytes c])
  | [] =>
      items ← scan (t_name t) None;
      _ ← delete_rows t items;
      key ← lift (encode (KTable (t_name t)));
      kv_delete key
  end.

#[export] Instance kv_transaction : Transaction T := {
  tx_reader := kv_reader;
  tx_create := create;
  tx_delete := delete;
  tx_read_index := read_index;
  tx_scan_index := scan_index;
  tx_update := update;
  tx_create_table := create_table;
  tx_delete_table := delete_table
}.
End kv.

(** * MVCC transactions *)

(** The items an MVCC scan yields, errors included. *)
Section mvcc_store.
Context {E : Type} `{Engine E}.
Context `{Bincode N, Bincode (gset N), Bincode (option bytes)}.

Fixpoint scan_items (fuel : nat) (st : TransactionState) (it : ScanIterator)
    : res (list (res (bytes * bytes))) :=
  match fuel with
  | O => Panic "scan: out of fuel"
  | S fuel =>
      match try_next st it with
      | (Ok None, _) => Ok []
      | (Ok (Some kv), it) => items ← scan_items fuel st it; Ok (Ok kv :: items)
      | (Err e, it) => items ← scan_items fuel st it; Ok (Err e :: items)
      | (Panic w, _) => Panic w
      end
  end.

(** A transaction as a key/value store: the engine is the state, the
    transaction's own state is fixed. *)
Definition mvcc_store (st : TransactionState) : KvStore E := {|
  kv_get := txn_get st;
  kv_set := txn_set st;
  kv_delete := txn_delete st;
  kv_scan_prefix := λ p, it ← txn_scan_prefix p; lift (scan_items (S (items_left it)) st it)
|}.
End mvcc_store.
