(* ===== verification/SqlStore.v ===== *)
(** What an SQL transaction stores, apart from its encoding: schemas by table
    name, rows by table and primary key, and index entries.  The key/value
    interface gets its laws ([KvLaws]) and the reads and writes of the engine
    are described on this view; [runs] is the program logic of the proofs. *)
From Stdlib Require Import Strings.Byte NArith ZArith Lia Sorting.Sorted.
From stdpp Require Import base list gmap strings.
From S2P Require Import Prelude BTreeMap KeyCode Engine Bincode Mvcc SqlTypes SqlExpression.
From S2P Require Import SqlSchema SqlKeys SqlKv.

(** * Laws of a key/value transaction *)

(** How a write can fail without changing anything: a conflict with another
    transaction, or a read-only transaction. *)
Definition refused (e : Error) : Prop := e = ESerialization ∨ e = EReadOnly.

(** [kv_rep x m]: the transaction sees the map [m]. *)
Class KvLaws (T : Type) `{KvStore T} := {
  kv_rep : T → gmap bytes bytes → Prop;
  kv_get_law x m k : kv_rep x m → kv_get k x = (Ok (m !! k), x);
  kv_set_law x m k v : kv_rep x m →
    (∃ x', kv_set k v x = (Ok tt, x') ∧ kv_rep x' (<[k:=v]> m)) ∨
    (∃ e, kv_set k v x = (Err e, x) ∧ refused e);
  kv_delete_law x m k : kv_rep x m →
    (∃ x', kv_delete k x = (Ok tt, x') ∧ kv_rep x' (base.delete k m)) ∨
    (∃ e, kv_delete k x = (Err e, x) ∧ refused e);
  kv_scan_law x m p : kv_rep x m →
    ∃ kvs, kv_scan_prefix p x = (Ok (List.map Ok kvs), x) ∧ bt_sorted bytes_cmp kvs ∧
      ∀ k v, (k, v) ∈ kvs ↔ starts_with p k ∧ m !! k = Some v
}.

(** * The stored data *)

Record Store := {
  tables : bytes → option Table;
  rows : bytes → Value → option Row;
  index : bytes → bytes → Value → list Value
}.

Definition with_row (s : Store) (n : bytes) (id : Value) (o : option Row) : Store := {|
  tables := tables s;
  rows := λ n' id', if decide (n' = n ∧ id' = id) then o else rows s n' id';
  index := index s |}.

Definition with_index (s : Store) (n c : bytes) (v : Value) (ids : list Value) : Store := {|
  tables := tables s;
  rows := rows s;
  index := λ n' c' v', if decide (n' = n ∧ c' = c ∧ v' = v) then ids else index s n' c' v' |}.

Definition with_table (s : Store) (n : bytes) (o : option Table) : Store := {|
  tables := λ n', if decide (n' = n) then o else tables s n';
  rows := rows s;
  index := index s |}.

Lemma collect_vec_ok {A} (xs : list A) : collect_vec (Ok <$> xs) = Ok (Ok <$> xs).
Proof. induction xs as [|x xs IH]; [done|]. cbn. by rewrite IH. Qed.

Lemma collect_ok {A} (xs : list A) : collect (Ok <$> xs) = Ok xs.
Proof. induction xs as [|x xs IH]; [done|]. cbn. by rewrite IH. Qed.

Section store.
Context {T : Type} `{KvLaws T}.
Context `{Libm, Regex}.
Context `{BincodeLaws (list Value), BincodeLaws Table}.
Implicit Types (x : T) (s : Store) (m : gmap bytes bytes).

Definition store_get s (k : Key) : option bytes :=
  match k with
  | KTable t => bin_serialize <$> tables s t
  | KIndex t c v => if decide (index s t c v = []) then None else Some (bin_serialize (index s t c v))
  | KRow t id => bin_serialize <$> rows s t id
  end.

(** The byte map holds the encodings of the stored data, and nothing else. *)
Definition holds m s : Prop :=
  (∀ kb vb, m !! kb = Some vb → ∃ k, sql_key_valid k ∧ kb = sql_key_bytes k) ∧
  (∀ k, sql_key_valid k → m !! sql_key_bytes k = store_get s k).

Definition sees x s : Prop := ∃ m, kv_rep x m ∧ holds m s.

Lemma get_sees x s k : sees x s → sql_key_valid k →
  kv_get (sql_key_bytes k) x = (Ok (store_get s k), x).
Proof. intros (m & Hx & _ & Hg) Hk. by rewrite (kv_get_law x m), Hg. Qed.

(** A write gives the new store, or is refused and changes nothing. *)
Lemma set_sees x s s' k v : sees x s → sql_key_valid k →
  (∀ k', sql_key_valid k' → store_get s' k' = if decide (k' = k) then Some v else store_get s k') →
  (∃ x', kv_set (sql_key_bytes k) v x = (Ok tt, x') ∧ sees x' s') ∨
  (∃ e, kv_set (sql_key_bytes k) v x = (Err e, x) ∧ refused e).
Proof.
  intros (m & Hx & Hw & Hg) Hk Hs.
  destruct (kv_set_law x m (sql_key_bytes k) v Hx) as [(x' & Hset & Hx')|?]; [left|by right].
  exists x'. split; [done|]. eexists. split; [exact Hx'|]. split.
  - intros kb vb [[<- <-]|[_ ?]]%lookup_insert_Some; [by exists k|eauto].
  - intros k' Hk'. rewrite Hs by done. case_decide as Heq; subst; [by rewrite lookup_insert_eq|].
    rewrite lookup_insert_ne, Hg; [done..|]. intros ?. by apply Heq, sql_key_bytes_inj.
Qed.

Lemma delete_sees x s s' k : sees x s → sql_key_valid k →
  (∀ k', sql_key_valid k' → store_get s' k' = if decide (k' = k) then None else store_get s k') →
  (∃ x', kv_delete (sql_key_bytes k) x = (Ok tt, x') ∧ sees x' s') ∨
  (∃ e, kv_delete (sql_key_bytes k) x = (Err e, x) ∧ refused e).
Proof.
  intros (m & Hx & Hw & Hg) Hk Hs.
  destruct (kv_delete_law x m (sql_key_bytes k) Hx) as [(x' & Hset & Hx')|?]; [left|by right].
  exists x'. split; [done|]. eexists. split; [exact Hx'|]. split.
  - intros kb vb [_ ?]%lookup_delete_Some. eauto.
  - intros k' Hk'. rewrite Hs by done. case_decide as Heq; subst; [by rewrite lookup_delete_eq|].
    rewrite lookup_delete_ne, Hg; [done..|]. intros ?. by apply Heq, sql_key_bytes_inj.
Qed.

(** A prefix scan lists what the prefix covers, in key order. *)
Lemma scan_sees {A} x s p (i : A → Key) (v : A → bytes) : sees x s → prefix_valid p →
  (∀ k y, sql_key_valid k → covers p k → store_get s k = Some y → ∃ a, k = i a ∧ y = v a) →
  (∀ a, covers p (i a)) →
  (∀ a b, i a = i b → v a = v b → a = b) →
  ∃ l, kv_scan_prefix (sql_prefix_bytes p) x
         = (Ok (List.map Ok (List.map (λ a, (sql_key_bytes (i a), v a)) l)), x) ∧
    StronglySorted (λ a b, bytes_cmp (sql_key_bytes (i a)) (sql_key_bytes (i b)) = Lt) l ∧
    ∀ a, a ∈ l ↔ sql_key_valid (i a) ∧ store_get s (i a) = Some (v a).
Proof.
  intros (m & Hx & Hw & Hg) Hp Hi Hc Hinj.
  destruct (kv_scan_law x m (sql_prefix_bytes p) Hx) as (kvs & Hscan & Hsorted & Hkvs).
  destruct (Forall_image (λ a, (sql_key_bytes (i a), v a))
    (λ a, sql_key_valid (i a) ∧ store_get s (i a) = Some (v a)) kvs) as (l & -> & Hl).
  { apply Forall_forall. intros [kb vb] [Hs Hin]%Hkvs.
    destruct (Hw _ _ Hin) as (k & Hk & ->). rewrite Hg in Hin by done.
    apply (prefix_covers p k Hp Hk) in Hs.
    destruct (Hi k vb Hk Hs Hin) as (a & -> & ->). by exists a. }
  exists l. split; [done|]. split.
  - clear -Hsorted. induction l as [|a l IH]; cbn in Hsorted; [constructor|].
    apply StronglySorted_inv in Hsorted as [? Hall]. constructor; [auto|].
    rewrite Forall_forall in Hall. apply Forall_forall. intros b Hb.
    apply (Hall (sql_key_bytes (i b), v b)). apply elem_of_map. eauto.
  - rewrite Forall_forall in Hl. intros a. split; [apply Hl|]. intros [Ha Hget].
    assert ((sql_key_bytes (i a), v a) ∈ List.map (λ a, (sql_key_bytes (i a), v a)) l)
      as (b & [= Hk Hv] & Hb)%elem_of_map.
    { apply Hkvs. rewrite Hg by done. split; [by apply prefix_covers|done]. }
    apply sql_key_bytes_inj in Hk; [|done|by apply Hl]. by rewrite (Hinj a b).
Qed.

(** * Program logic *)

(** From the stored data [s], the computation returns with [Q], or fails with
    [R]; it never panics. *)
Definition runs {A} (m : M T A) s (Q : A → Store → Prop) (R : Error → Store → Prop) : Prop :=
  ∀ x, sees x s →
    match m x with
    | (Ok a, x') => ∃ s', sees x' s' ∧ Q a s'
    | (Err e, x') => ∃ s', sees x' s' ∧ R e s'
    | (Panic _, _) => False
    end.

Lemma runs_bind {A B} (m : M T A) (f : A → M T B) s Q R :
  runs m s (λ a s', runs (f a) s' Q R) R → runs (m ≫= f) s Q R.
Proof.
  intros Hm x Hx. specialize (Hm x Hx). unfold mbind, M_bind.
  destruct (m x) as [[a|e|w] x']; [|done..]. destruct Hm as (s' & Hs' & Hf). by apply Hf.
Qed.

Lemma runs_mono {A} (m : M T A) s (Q Q' : A → Store → Prop) (R R' : Error → Store → Prop) :
  runs m s Q R → (∀ a s', Q a s' → Q' a s') → (∀ e s', R e s' → R' e s') → runs m s Q' R'.
Proof.
  intros Hm HQ HR x Hx. specialize (Hm x Hx).
  destruct (m x) as [[a|e|w] x']; [..|done]; destruct Hm as (s' & ? & ?); eauto.
Qed.

Lemma runs_ret {A} (a : A) s (Q : A → Store → Prop) R : Q a s → runs (mret a) s Q R.
Proof. intros HQ x Hx. cbn. eauto. Qed.

Lemma runs_lift {A} (r : res A) s (Q : A → Store → Prop) (R : Error → Store → Prop) :
  match r with Ok a => Q a s | Err e => R e s | Panic _ => False end → runs (lift r) s Q R.
Proof. intros HQ x Hx. unfold lift. destruct r; eauto. Qed.

(** A computation that only reads. *)
Lemma runs_read {A} (m : M T A) (r : res A) s (Q : A → Store → Prop) (R : Error → Store → Prop) :
  (∀ x, sees x s → m x = (r, x)) →
  match r with Ok a => Q a s | Err e => R e s | Panic _ => False end → runs m s Q R.
Proof. intros Hm HQ x Hx. rewrite Hm by done. destruct r; eauto. Qed.

(** A loop, with an invariant on the elements done so far. *)
Lemma runs_for_each {A} (I : list A → Store → Prop) (xs : list A) (f : A → M T unit) s R :
  I [] s →
  (∀ before a after s', xs = before ++ a :: after → I before s' →
     runs (f a) s' (λ _ s'', I (before ++ [a]) s'') R) →
  runs (for_each xs f) s (λ _ s', I xs s') R.
Proof.
  intros H0' Hstep.
  assert (∀ before after s', xs = before ++ after → I before s' →
    runs (for_each after f) s' (λ _ s'', I xs s'') R) as Hgen.
  { intros before after. revert before.
    induction after as [|a after IH]; intros before s' Heq HI; cbn [for_each].
    - apply runs_ret. by rewrite Heq, app_nil_r.
    - apply runs_bind. eapply runs_mono; [by eapply Hstep| |done].
      intros [] s'' HI'. apply (IH (before ++ [a])); [|done]. by rewrite <-app_assoc. }
  by apply (Hgen [] xs s).
Qed.

(** ** Reads *)

Lemma read_sees x s n id : sees x s → utf8_valid n = true → value_valid id →
  read n id x = (Ok (rows s n id), x).
Proof.
  intros Hx Hn Hid. unfold read.
  erewrite M_bind_Ok by (unfold lift; by rewrite sql_encode_valid).
  erewrite M_bind_Ok by (by apply (get_sees x s)). unfold lift. cbn [store_get].
  destruct (rows s n id); cbn; [by rewrite bin_roundtrip|done].
Qed.

Lemma read_table_sees x s n : sees x s → utf8_valid n = true →
  read_table n x = (Ok (tables s n), x).
Proof.
  intros Hx Hn. unfold read_table.
  erewrite M_bind_Ok by (unfold lift; by rewrite sql_encode_valid).
  erewrite M_bind_Ok by (by apply (get_sees x s)). unfold lift. cbn [store_get].
  destruct (tables s n); cbn; [by rewrite bin_roundtrip|done].
Qed.

Lemma must_read_sees x s n : sees x s → utf8_valid n = true →
  must_read n x
  = (ok_or (tables s n) (value_error "Table {} does not exist" [FBytes n]), x).
Proof.
  intros Hx Hn. unfold must_read.
  by erewrite M_bind_Ok by (by apply (read_table_sees x s)).
Qed.

Lemma index_load_sees x s n c v : sees x s → utf8_valid n = true → utf8_valid c = true →
  value_valid v → index_load n c v x = (Ok (index s n c v), x).
Proof.
  intros Hx Hn Hc Hv. unfold index_load.
  erewrite M_bind_Ok by (unfold lift; by rewrite sql_encode_valid).
  erewrite M_bind_Ok by (by apply (get_sees x s)). cbn [store_get].
  case_decide as Hi; unfold lift, mbind, M_bind; cbn; [by rewrite Hi|by rewrite bin_roundtrip].
Qed.

(** The items of a scan, decoded. *)
Lemma decode_items {A B} `{BincodeLaws B} (v : A → B) (k : A → bytes) (l : list A) :
  (λ r : res (bytes * bytes), '(_, vb) ← r; bin_deserialize vb)
    <$> List.map Ok (List.map (λ a, (k a, bin_serialize (v a))) l)
  = Ok <$> (v <$> l).
Proof. induction l as [|a l IH]; [done|]. cbn. rewrite bin_roundtrip. f_equal. exact IH. Qed.

(** The rows of a table with their primary keys, in the order of the keys. *)
Definition table_rows s n (l : list (Value * Row)) : Prop :=
  StronglySorted (λ p q, compare_value p.1 q.1 = Lt) l ∧
  ∀ id row, (id, row) ∈ l ↔ rows s n id = Some row.

Lemma scan_rows_sees x s n : sees x s → utf8_valid n = true →
  (∀ id row, rows s n id = Some row → value_valid id) →
  ∃ l, table_rows s n l ∧
    ∀ filter, tables s n = None ∨ (∃ t, tables s n = Some t ∧ t_name t = n) →
    scan n filter x
    = (match tables s n with
       | Some _ => collect_vec (omap (filter_row filter) (Ok <$> l.*2))
       | None => value_error "Table {} does not exist" [FBytes n]
       end, x).
Proof.
  intros Hx Hn Hv.
  destruct (scan_sees x s (PRow n) (λ p : Value * Row, KRow n p.1) (λ p, bin_serialize p.2))
    as (l & Hscan & Hsorted & Hl); [done..| | | |].
  - intros [] y Hk Hc Hget; try done. cbn in Hc, Hget. subst.
    apply fmap_Some in Hget as (row & Hrow & ->). by exists (id, row).
  - done.
  - intros [id r] [id' r'] [= ->] ?%(inj bin_serialize). cbn in *. by subst.
  - assert (table_rows s n l) as Htr.
    { split.
      - assert (Forall (λ p, value_valid p.1) l) as Hall.
        { apply Forall_forall. intros [id row] Hin. apply Hl in Hin as [[_ ?] _]. done. }
        revert Hsorted Hall. clear -Hn. induction 1 as [|p l Hs IH Hp]; intros Hall; [constructor|].
        apply Forall_cons in Hall as [Hvp Hall]. constructor; [auto|].
        apply Forall_forall. intros q Hq. rewrite Forall_forall in Hp, Hall.
        specialize (Hp q Hq). cbn [sql_key_bytes] in Hp. unfold str_bytes in Hp.
        unfold bytes_cmp in Hp. cbn [list_cmp] in Hp. fold bytes_cmp in Hp.
        rewrite (key_order (H:=str_key)) in Hp by done. cbn [key_cmp str_key] in Hp.
        unfold byte_cmp in Hp. rewrite N.compare_refl, (cmp_refl (cmp:=bytes_cmp)) in Hp.
        rewrite <-(app_nil_r (key_bytes p.1)), <-(app_nil_r (key_bytes q.1)) in Hp.
        rewrite value_order in Hp by auto. by destruct (compare_value p.1 q.1).
      - intros id row. rewrite Hl. cbn. split.
        + intros [_ Hget]. apply fmap_Some in Hget as (row' & -> & Heq).
          by apply (inj bin_serialize) in Heq as ->.
        + intros Hr. rewrite Hr. split; [split; [done|by eapply Hv]|done]. }
    exists l. split; [done|]. intros filter Ht. unfold scan.
    assert (must_read n x = _) as Hmr by (by apply (must_read_sees x s)).
    destruct Ht as [Ht|(t & Ht & Htn)]; rewrite Ht in Hmr |- *; cbn [ok_or] in Hmr.
    { unfold mbind, M_bind. by rewrite Hmr. }
    erewrite M_bind_Ok by exact Hmr. rewrite Htn.
    erewrite M_bind_Ok by (unfold lift; by rewrite sql_encode_prefix_valid).
    erewrite M_bind_Ok by exact Hscan. unfold lift. do 3 f_equal.
    apply (decode_items (λ p, p.2)).
Qed.

Lemma scan_tables_sees x s : sees x s →
  (∀ n t, tables s n = Some t → utf8_valid n = true) →
  ∃ ts, scan_tables x = (Ok ts, x) ∧ ∀ t, t ∈ ts ↔ ∃ n, tables s n = Some t.
Proof.
  intros Hx Hv.
  destruct (scan_sees x s PTable (λ p : bytes * Table, KTable p.1) (λ p, bin_serialize p.2))
    as (l & Hscan & _ & Hl); [done..| | | |].
  - intros [] y Hk Hc Hget; try done. cbn in Hget.
    apply fmap_Some in Hget as (t & Ht & ->). by exists (table, t).
  - done.
  - intros [n r] [n' r'] [= ->] ?%(inj bin_serialize). cbn in *. by subst.
  - exists l.*2. split.
    + unfold scan_tables. erewrite M_bind_Ok by (unfold lift; by rewrite sql_encode_prefix_valid).
      erewrite M_bind_Ok by exact Hscan. unfold lift. f_equal.
      rewrite (decode_items (λ p, p.2)). apply collect_ok.
    + intros t. rewrite list_elem_of_fmap. split.
      * intros ([n t'] & -> & [_ Hget]%Hl). cbn in Hget. exists n.
        apply fmap_Some in Hget as (t'' & Ht & Heq). by apply (inj bin_serialize) in Heq as ->.
      * intros [n Ht]. exists (n, t). split; [done|]. apply Hl. cbn. rewrite Ht. eauto.
Qed.

(** ** Writes *)

Lemma runs_write {A} (m : M T A) s s' (Q : A → Store → Prop) (R : Error → Store → Prop) a :
  (∀ x, sees x s → (∃ x', m x = (Ok a, x') ∧ sees x' s') ∨ (∃ e, m x = (Err e, x) ∧ refused e)) →
  Q a s' → (∀ e, refused e → R e s) → runs m s Q R.
Proof.
  intros Hm HQ HR x Hx. destruct (Hm x Hx) as [(x' & -> & ?)|(e & -> & ?)]; eauto.
Qed.

Lemma set_row_runs s t id row (Q : unit → Store → Prop) (R : Error → Store → Prop) :
  utf8_valid (t_name t) = true → value_valid id →
  Q tt (with_row s (t_name t) id (Some row)) → (∀ e, refused e → R e s) →
  runs (set_row t id row) s Q R.
Proof.
  intros Hn Hid HQ HR. eapply runs_write; [|exact HQ|done]. intros x Hx. unfold set_row.
  erewrite M_bind_Ok by (unfold lift; by rewrite sql_encode_valid).
  apply (set_sees x s); [done..|]. intros [] Hk; cbn; try done. repeat case_decide; naive_solver.
Qed.

Lemma delete_row_runs s t id (Q : unit → Store → Prop) (R : Error → Store → Prop) :
  utf8_valid (t_name t) = true → value_valid id →
  Q tt (with_row s (t_name t) id None) → (∀ e, refused e → R e s) →
  runs (key ← lift (encode (KRow (t_name t) id)); kv_delete key) s Q R.
Proof.
  intros Hn Hid HQ HR. eapply runs_write; [|exact HQ|done]. intros x Hx.
  erewrite M_bind_Ok by (unfold lift; by rewrite sql_encode_valid).
  apply (delete_sees x s); [done..|]. intros [] Hk; cbn; try done. repeat case_decide; naive_solver.
Qed.

Lemma set_table_runs s n t (Q : unit → Store → Prop) (R : Error → Store → Prop) :
  utf8_valid n = true → Q tt (with_table s n (Some t)) → (∀ e, refused e → R e s) →
  runs (key ← lift (encode (KTable n)); kv_set key (bin_serialize t)) s Q R.
Proof.
  intros Hn HQ HR. eapply runs_write; [|exact HQ|done]. intros x Hx.
  erewrite M_bind_Ok by (unfold lift; by rewrite sql_encode_valid).
  apply (set_sees x s); [done..|]. intros [] Hk; cbn; try done. repeat case_decide; naive_solver.
Qed.

Lemma delete_table_runs s n (Q : unit → Store → Prop) (R : Error → Store → Prop) :
  utf8_valid n = true → Q tt (with_table s n None) → (∀ e, refused e → R e s) →
  runs (key ← lift (encode (KTable n)); kv_delete key) s Q R.
Proof.
  intros Hn HQ HR. eapply runs_write; [|exact HQ|done]. intros x Hx.
  erewrite M_bind_Ok by (unfold lift; by rewrite sql_encode_valid).
  apply (delete_sees x s); [done..|]. intros [] Hk; cbn; try done. repeat case_decide; naive_solver.
Qed.

Lemma index_save_runs s n c v ids (Q : unit → Store → Prop) (R : Error → Store → Prop) :
  utf8_valid n = true → utf8_valid c = true → value_valid v →
  Q tt (with_index s n c v ids) → (∀ e, refused e → R e s) →
  runs (index_save n c v ids) s Q R.
Proof.
  intros Hn Hc Hv HQ HR. eapply runs_write; [|exact HQ|done]. intros x Hx. unfold index_save.
  erewrite M_bind_Ok by (unfold lift; by rewrite sql_encode_valid).
  case_decide as Hi.
  - apply (delete_sees x s); [done..|].
    intros [] Hk; cbn; try done. repeat case_decide; naive_solver.
  - apply (set_sees x s); [done..|].
    intros [] Hk; cbn; try done. repeat case_decide; naive_solver.
Qed.

Lemma index_update_runs (op : list Value → res (list Value)) s n c v ids
    (Q : unit → Store → Prop) (R : Error → Store → Prop) :
  utf8_valid n = true → utf8_valid c = true → value_valid v → op (index s n c v) = Ok ids →
  Q tt (with_index s n c v ids) → (∀ e, refused e → R e s) →
  runs (i ← index_load n c v; i ← lift (op i); index_save n c v i) s Q R.
Proof.
  intros Hn Hc Hv Hop HQ HR. apply runs_bind.
  eapply runs_read; [intros; by apply (index_load_sees _ s)|]. cbn beta iota.
  apply runs_bind, runs_lift. rewrite Hop. by apply index_save_runs.
Qed.
End store.
