(* ===== verification/SqlIntegrity.v ===== *)
(** The integrity of an SQL database: typed rows under their primary keys,
    unique columns, foreign keys that refer to rows, and indexes that list
    exactly the rows with a value.  Every write of the engine preserves it. *)
From Stdlib Require Import Strings.Byte NArith ZArith Lia Sorting.Sorted Floats.SpecFloat.
From stdpp Require Import base list gmap strings.
From S2P Require Import Prelude BTreeMap KeyCode Engine Bincode Mvcc SqlTypes SqlExpression.
From S2P Require Import SqlSchema SqlKeys SqlKv SqlStore.

(** * Values that compare as they are written *)

(** Floats compare as numbers: the two zeros are equal, a NaN equals nothing. *)
Definition plain (v : Value) : Prop := ∀ f, v ≠ Float f.

Lemma value_eq_plain v w : plain v → value_eq v w = true ↔ v = w.
Proof.
  intros Hp. destruct v as [|b|i|f|t], w as [|b'|i'|f'|t']; cbn; try (split; congruence).
  - destruct b, b'; cbn; split; congruence.
  - rewrite Z.eqb_eq. split; congruence.
  - rewrite bool_decide_eq_true. split; congruence.
Qed.

Lemma value_eq_sym v w : value_eq v w = value_eq w v.
Proof.
  destruct v, w; cbn; try done.
  - by destruct b, b0.
  - apply Z.eqb_sym.
  - unfold SFeqb. assert (SFcompare f0 f = CompOpp <$> SFcompare f f0) as ->; [|by destruct (SFcompare f f0) as [[]|]].
    destruct f as [[]|[]| |[] m e], f0 as [[]|[]| |[] m' e']; try done; cbn;
      rewrite (Z.compare_antisym e e'); destruct (Z.compare e e') eqn:Ez; cbn; try done;
      change (Pos.compare_cont Eq m m') with (m ?= m')%positive;
      change (Pos.compare_cont Eq m' m) with (m' ?= m)%positive;
      rewrite (Pos.compare_antisym m m'); by destruct (m ?= m')%positive.
  - case_bool_decide; case_bool_decide; congruence.
Qed.

Lemma same_key_plain v w : plain v → v ≠ Null → same_key v w = true ↔ v = w.
Proof.
  intros Hp Hn. unfold same_key. rewrite andb_true_iff, bool_decide_eq_true, value_eq_plain by done.
  split; [tauto|]. by intros ->.
Qed.

Lemma set_insert_plain v s : plain v → v ≠ Null →
  ∃ s', set_insert v s = Ok s' ∧ (NoDup s → NoDup s') ∧ ∀ w, w ∈ s' ↔ w = v ∨ w ∈ s.
Proof.
  intros Hp Hn. unfold set_insert.
  assert (List.existsb (same_key v) s = true ↔ v ∈ s) as Hin.
  { rewrite existsb_exists. setoid_rewrite same_key_plain; [|done..].
    rewrite list_elem_of_In. naive_solver. }
  destruct (List.existsb (same_key v) s) eqn:E.
  - exists s. split; [by destruct v|]. split; [done|]. intros w. split; [tauto|].
    intros [->|?]; [by apply Hin|done].
  - exists (s ++ [v]). split; [by destruct v|]. assert (v ∉ s) as Hout by (intros ?%Hin; congruence).
    split.
    + intros Hnd. apply NoDup_app. split; [done|]. split; [|apply NoDup_singleton].
      by intros w Hw ->%list_elem_of_singleton.
    + intros w. rewrite elem_of_app, list_elem_of_singleton. tauto.
Qed.

Lemma set_remove_plain v s : plain v → v ≠ Null →
  ∃ s', set_remove v s = Ok s' ∧ (NoDup s → NoDup s') ∧ ∀ w, w ∈ s' ↔ w ≠ v ∧ w ∈ s.
Proof.
  intros Hp Hn. unfold set_remove. exists (List.filter (λ w, negb (same_key v w)) s).
  split; [by destruct v|]. split.
  - intros ?%NoDup_ListNoDup. by apply NoDup_ListNoDup, List.NoDup_filter.
  - intros w. rewrite elem_of_filter_bool, negb_true_iff, <-not_true_iff_false.
    rewrite same_key_plain by done. naive_solver.
Qed.

(** * Schemas *)

(** Keys, indexed columns and references are of types that compare exactly. *)
Definition key_like (c : SqlSchema.Column) : Prop :=
  c_primary_key c = true ∨ c_index c = true ∨ is_Some (c_references c).

Record table_ok (t : Table) : Prop := {
  ok_name : utf8_valid (t_name t) = true;
  ok_columns : Forall (λ c, utf8_valid (c_name c) = true) (t_columns t);
  ok_distinct : NoDup (c_name <$> t_columns t);
  ok_key : length (List.filter c_primary_key (t_columns t)) = 1%nat;
  ok_key_null : Forall (λ c, c_primary_key c = true → c_nullable c = false) (t_columns t);
  ok_types : Forall (λ c, key_like c → c_datatype c ≠ TFloat) (t_columns t);
  ok_refs : Forall (λ c, ∀ n, c_references c = Some n → utf8_valid n = true) (t_columns t);
  ok_defaults : Forall (λ c, ∀ v, c_default c = Some v → value_valid v) (t_columns t)
}.

Lemma position_Some {A} (P : A → bool) l i : position P l = Some i →
  ∃ a, l !! i = Some a ∧ P a = true ∧ ∀ j b, (j < i)%nat → l !! j = Some b → P b = false.
Proof.
  revert i. induction l as [|a l IH]; intros i; cbn; [done|]. destruct (P a) eqn:Ea.
  - intros [= <-]. exists a. split; [done|]. split; [done|]. lia.
  - intros (k & Hk & ->)%fmap_Some. destruct (IH k Hk) as (b & Hb & HP & Hmin).
    exists b. split; [done|]. split; [done|]. intros [|j] c Hj; [by intros [= <-]|].
    intros Hc. apply (Hmin j c); [lia|done].
Qed.

Lemma position_None {A} (P : A → bool) l : position P l = None → ∀ a, a ∈ l → P a = false.
Proof.
  induction l as [|b l IH]; cbn; [by intros _ a ?%not_elem_of_nil|].
  destruct (P b) eqn:Eb; [done|]. intros Hn%fmap_None a [->|?]%elem_of_cons; auto.
Qed.

Lemma column_index t i c : table_ok t → t_columns t !! i = Some c →
  get_column_index t (c_name c) = Ok i.
Proof.
  intros Ht Hi. unfold get_column_index.
  destruct (position _ (t_columns t)) as [j|] eqn:E.
  - apply position_Some in E as (c' & Hj & Hname%bool_decide_eq_true & _). cbn. f_equal.
    eapply NoDup_lookup; [by apply ok_distinct|..]; rewrite list_lookup_fmap_Some; eauto.
  - eapply position_None in E; [|by eapply list_elem_of_lookup_2].
    by apply bool_decide_eq_false in E.
Qed.

Lemma row_key_column t row id : get_row_key t row = Ok id →
  ∃ i c, t_columns t !! i = Some c ∧ c_primary_key c = true ∧ row !! i = Some id ∧
    position c_primary_key (t_columns t) = Some i.
Proof.
  unfold get_row_key. intros (i & Hi & Hrow)%res_bind_Ok_inv.
  destruct (position c_primary_key (t_columns t)) as [j|] eqn:E; cbn in Hi; [|done]. simplify_eq.
  pose proof E as E'. apply position_Some in E' as (c & Hc & Hpk & _).
  exists i, c. destruct (row !! i) eqn:Er; cbn in Hrow; naive_solver.
Qed.

Lemma row_key_unique t i c : table_ok t → t_columns t !! i = Some c → c_primary_key c = true →
  position c_primary_key (t_columns t) = Some i.
Proof.
  intros Ht Hi Hpk. pose proof (ok_key t Ht) as Hone. revert i Hi.
  induction (t_columns t) as [|d l IH]; intros i Hi; [done|]. cbn in *.
  destruct (c_primary_key d) eqn:Ed.
  - destruct i as [|i]; [done|]. cbn in Hi. exfalso. cbn in Hone.
    assert (c ∈ List.filter c_primary_key l) as Hin.
    { apply elem_of_filter_bool. split; [by eapply list_elem_of_lookup_2|done]. }
    destruct (List.filter c_primary_key l); [by apply not_elem_of_nil in Hin|done].
  - destruct i as [|i]; [cbn in Hi; congruence|]. cbn in Hi. by rewrite (IH Hone i Hi).
Qed.

Lemma row_key_total t row : table_ok t → length row = length (t_columns t) →
  ∃ id, get_row_key t row = Ok id.
Proof.
  intros Hok Hlen. unfold get_row_key.
  destruct (position c_primary_key (t_columns t)) as [i|] eqn:Ei.
  - cbn. apply position_Some in Ei as (c & Hc & _). apply lookup_lt_Some in Hc.
    rewrite <-Hlen in Hc. apply lookup_lt_is_Some_2 in Hc as [v Hv]. exists v. by rewrite Hv.
  - pose proof (ok_key t Hok) as Hone.
    destruct (List.filter c_primary_key (t_columns t)) as [|c l] eqn:Ef; [done|].
    assert (c ∈ List.filter c_primary_key (t_columns t)) as [Hin Hpk]%elem_of_filter_bool
      by (rewrite Ef; apply list_elem_of_here).
    by rewrite (position_None _ _ Ei c Hin) in Hpk.
Qed.

(** ** Indexed columns *)

Lemma elem_of_indexes t i c : (i, c) ∈ indexes t ↔ t_columns t !! i = Some c ∧ c_index c = true.
Proof.
  unfold indexes. rewrite elem_of_filter_bool. cbn [snd].
  rewrite list_elem_of_lookup. setoid_rewrite list_lookup_imap.
  split.
  - intros [(j & Hj) Hx]. apply fmap_Some in Hj as (d & Hd & [= -> ->]). done.
  - intros [Hi Hx]. split; [|done]. exists i. by rewrite Hi.
Qed.

Definition index_names (l : list (nat * SqlSchema.Column)) : list bytes := (λ p, c_name p.2) <$> l.

Lemma index_names_distinct t : table_ok t → NoDup (index_names (indexes t)).
Proof.
  intros Ht. pose proof (ok_distinct t Ht) as Hnd. unfold index_names, indexes.
  eapply sublist_NoDup; [exact Hnd|].
  replace (c_name <$> t_columns t) with ((λ p : nat * SqlSchema.Column, c_name p.2) <$> imap pair (t_columns t)).
  - generalize (imap pair (t_columns t)). clear. intros l.
    induction l as [|p l IH]; cbn; [done|]. destruct (c_index p.2); cbn.
    + by apply sublist_skip.
    + by apply sublist_cons.
  - rewrite fmap_imap. clear. generalize (t_columns t). intros l.
    apply list_eq. intros i. rewrite list_lookup_imap, list_lookup_fmap. by destruct (l !! i).
Qed.

(** * The invariant *)

(** A row with the right number of values, of the right types. *)
Definition typed_row (t : Table) (row : Row) : Prop :=
  Forall value_valid row ∧ Forall2 (λ c v, validate_type c v = Ok tt) (t_columns t) row.

(** A reference is null, to the row itself, or to a row of its table. *)
Definition ref_ok (s : Store) (t : Table) (id : Value) (c : SqlSchema.Column) (v : Value) : Prop :=
  ∀ n, c_references c = Some n → v = Null ∨ (n = t_name t ∧ v = id) ∨ is_Some (rows s n v).

(** No other row has the value in a unique column. *)
Definition unique_ok (s : Store) (t : Table) (id : Value) (i : nat) (c : SqlSchema.Column)
    (v : Value) : Prop :=
  c_unique c = true → c_primary_key c = false → v ≠ Null →
  ∀ id' row', rows s (t_name t) id' = Some row' →
    value_eq (default Null (row' !! i)) v = true → id' = id.

Definition row_fits (s : Store) (t : Table) (id : Value) (row : Row) : Prop :=
  typed_row t row ∧ get_row_key t row = Ok id ∧
  ∀ i c v, t_columns t !! i = Some c → row !! i = Some v → ref_ok s t id c v ∧ unique_ok s t id i c v.

Record relational (s : Store) : Prop := {
  rel_table n t : tables s n = Some t → t_name t = n ∧ table_ok t;
  rel_target n t c r : tables s n = Some t → c ∈ t_columns t → c_references c = Some r →
    is_Some (tables s r);
  rel_row n id row : rows s n id = Some row → ∃ t, tables s n = Some t ∧ row_fits s t id row
}.

(** An index entry lists the rows of an indexed column with its value. *)
Definition indexed (s : Store) : Prop :=
  (∀ n c v, NoDup (index s n c v)) ∧
  ∀ n c v id, id ∈ index s n c v ↔
    ∃ t i col row, tables s n = Some t ∧ (i, col) ∈ indexes t ∧ c_name col = c ∧
      rows s n id = Some row ∧ row !! i = Some v.

Definition integrity (s : Store) : Prop := relational s ∧ indexed s.

Lemma typed_value c v : validate_type c v = Ok tt →
  match datatype v with None => c_nullable c = true | Some d => d = c_datatype c end.
Proof.
  unfold validate_type. intros (u & Hu & _)%res_bind_Ok_inv.
  destruct (datatype v); [by case_decide|by destruct (c_nullable c)].
Qed.

Lemma typed_column t row i c v : typed_row t row → t_columns t !! i = Some c → row !! i = Some v →
  validate_type c v = Ok tt.
Proof. intros [_ Hf] Hc Hv. exact (Forall2_lookup_lr _ _ _ _ _ _ Hf Hc Hv). Qed.

Lemma key_like_plain t row i c v : table_ok t → typed_row t row → t_columns t !! i = Some c →
  row !! i = Some v → key_like c → plain v.
Proof.
  intros Ht Hr Hc Hv Hk f ->. pose proof (typed_value _ _ (typed_column _ _ _ _ _ Hr Hc Hv)) as Hd.
  eapply (Forall_lookup_1 _ _ _ _ (ok_types t Ht)); [exact Hc|done|]. by cbn in Hd.
Qed.

Lemma row_key_plain t row id : table_ok t → typed_row t row → get_row_key t row = Ok id →
  plain id ∧ id ≠ Null ∧ value_valid id.
Proof.
  intros Ht Hr (i & c & Hc & Hpk & Hid & _)%row_key_column.
  assert (plain id) as Hp by (eapply key_like_plain; [done..|]; by left).
  split; [done|split].
  - intros ->. pose proof (typed_value _ _ (typed_column _ _ _ _ _ Hr Hc Hid)) as Hd. cbn in Hd.
    pose proof (Forall_lookup_1 _ _ _ _ (ok_key_null t Ht) Hc Hpk). congruence.
  - destruct Hr as [Hv _]. exact (Forall_lookup_1 _ _ _ _ Hv Hid).
Qed.

Lemma stored_row s n id row : relational s → rows s n id = Some row →
  ∃ t, tables s n = Some t ∧ t_name t = n ∧ table_ok t ∧ row_fits s t id row ∧
    plain id ∧ id ≠ Null ∧ value_valid id.
Proof.
  intros Hs Hrow. destruct (rel_row s Hs n id row Hrow) as (t & Ht & Hf).
  destruct (rel_table s Hs n t Ht) as [Hn Hok]. destruct Hf as (Hty & Hkey & Hrest).
  destruct (row_key_plain t row id Hok Hty Hkey) as (? & ? & ?). exists t.
  repeat (split; [done|]). done.
Qed.

(** * Checks *)

(** A result that says whether [P] holds, with a value error if it does not. *)
Definition decides (r : res unit) (P : Prop) : Prop :=
  (r = Ok tt ∧ P) ∨ (∃ msg, r = Err (EValue msg) ∧ ¬ P).

Lemma decides_iff r (P Q : Prop) : (P ↔ Q) → decides r P → decides r Q.
Proof. intros HPQ [[-> ?]|(msg & -> & ?)]; [left; tauto|right; exists msg; tauto]. Qed.

Lemma decides_bind r r' (P Q : Prop) : decides r P → (P → decides r' Q) →
  decides (r ≫= λ _, r') (P ∧ Q).
Proof.
  intros [[-> HP]|(msg & -> & HP)] Hr'; cbn; [|right; exists msg; tauto].
  destruct (Hr' HP) as [[-> ?]|(msg & -> & ?)]; [left; tauto|right; exists msg; tauto].
Qed.

Section checks.
Context {T : Type} `{KvLaws T}.
Context `{Libm, Regex}.
Context `{BincodeLaws (list Value), BincodeLaws Table}.
Implicit Types (x : T) (s : Store).

(** A computation that reads, and succeeds exactly when [P] holds; otherwise it
    fails with a value error. *)
Definition checks (m : M T unit) s (P : Prop) : Prop :=
  ∀ x, sees x s → (m x = (Ok tt, x) ∧ P) ∨ (∃ msg, m x = (Err (EValue msg), x) ∧ ¬ P).

Lemma checks_iff m s (P Q : Prop) : (P ↔ Q) → checks m s P → checks m s Q.
Proof.
  intros HPQ Hm x Hx. destruct (Hm x Hx) as [[? ?]|(? & ? & ?)]; [left; tauto|right].
  eexists. split; [done|]. tauto.
Qed.

Lemma checks_bind m m' s (P Q : Prop) : checks m s P → (P → checks m' s Q) →
  checks (m ≫= λ _, m') s (P ∧ Q).
Proof.
  intros Hm Hm' x Hx. unfold mbind, M_bind. destruct (Hm x Hx) as [[-> HP]|(msg & -> & HP)].
  - destruct (Hm' HP x Hx) as [[-> HQ]|(msg & -> & HQ)]; [by left|right]. exists msg. tauto.
  - right. exists msg. tauto.
Qed.

Lemma checks_lift (r : res unit) s (P : Prop) :
  decides r P → checks (lift r) s P.
Proof.
  intros Hr x Hx. unfold lift. destruct Hr as [[-> ?]|(msg & -> & ?)]; [by left|right; eauto].
Qed.

Lemma checks_read {A} (m : M T A) (f : A → M T unit) a s P :
  (∀ x, sees x s → m x = (Ok a, x)) → checks (f a) s P → checks (m ≫= f) s P.
Proof. intros Hm Hf x Hx. erewrite M_bind_Ok by by apply Hm. by apply Hf. Qed.

Lemma checks_for_each {A} (xs : list A) (f : A → M T unit) s (P : A → Prop) :
  (∀ a, a ∈ xs → checks (f a) s (P a)) → checks (for_each xs f) s (Forall P xs).
Proof.
  induction xs as [|a xs IH]; intros Hf; cbn [for_each].
  - intros x Hx. left. split; [done|]. constructor.
  - eapply checks_iff; [symmetry; apply Forall_cons|]. apply checks_bind.
    + apply Hf, list_elem_of_here.
    + intros _. apply IH. intros b Hb. by apply Hf, list_elem_of_further.
Qed.

Lemma checks_runs m s (P : Prop) (Q : unit → Store → Prop) (R : Error → Store → Prop) :
  checks m s P → (P → Q tt s) → (∀ msg, ¬ P → R (EValue msg) s) → runs m s Q R.
Proof.
  intros Hm HQ HR x Hx. destruct (Hm x Hx) as [[-> ?]|(msg & -> & ?)]; eauto.
Qed.

(** ** Rows *)

Lemma scan_all_sees x s n t : sees x s → relational s → tables s n = Some t →
  ∃ l, table_rows s n l ∧ scan n None x = (Ok (Ok <$> l.*2), x).
Proof.
  intros Hx Hs Ht. destruct (rel_table s Hs n t Ht) as [Hn Hok].
  destruct (scan_rows_sees x s n Hx) as (l & Hl & Hscan).
  { rewrite <-Hn. by apply ok_name. }
  { intros id row Hrow.
    by destruct (stored_row s _ id row Hs Hrow) as (? & ? & ? & ? & ? & ? & ? & ?). }
  exists l. split; [done|]. rewrite (Hscan None), Ht by eauto. f_equal.
  assert (omap (filter_row None) (Ok <$> l.*2) = Ok <$> l.*2) as ->; [|apply collect_vec_ok].
  generalize l.*2. intros rs. induction rs as [|r rs IH]; [done|]. cbn. by f_equal.
Qed.

Lemma validate_type_checks s c v : checks (lift (validate_type c v)) s (validate_type c v = Ok tt).
Proof.
  apply checks_lift.
  assert (validate_type c v = Ok tt ∨ ∃ msg, validate_type c v = Err (EValue msg)) as [->|[msg ->]];
    [|by left|right; by exists msg].
  unfold validate_type, value_error. repeat case_match; simplify_eq/=; eauto.
Qed.

Lemma validate_reference_checks s t id c v : relational s → utf8_valid (t_name t) = true →
  (∀ n, c_references c = Some n → utf8_valid n = true) →
  value_valid v → (is_Some (c_references c) → plain v) →
  checks (validate_reference c t id v) s (ref_ok s t id c v).
Proof.
  intros Hs Ht Hn Hv Hp. unfold validate_reference, ref_ok.
  destruct (c_references c) as [n|] eqn:Er.
  2:{ intros x Hx. left. split; [done|]. intros ? [=]. }
  specialize (Hn n eq_refl). specialize (Hp (mk_is_Some _ _ eq_refl)).
  destruct (decide (v = Null)) as [->|Hnull].
  { intros x Hx. left. split; [done|]. by left. }
  assert (∀ f g : M T unit, match v with Null | Float S754_nan => f | _ => g end = g) as Hm.
  { intros. destruct v; try done. by destruct (Hp f0). }
  rewrite Hm. clear Hm.
  destruct (bool_decide (n = t_name t) && value_eq v id) eqn:Eself.
  - apply andb_true_iff in Eself as [->%bool_decide_eq_true Hid].
    apply value_eq_plain in Hid as ->; [|done]. intros x Hx. left. split; [done|].
    intros n [= <-]. right. left. done.
  - eapply checks_read; [intros x Hx; by apply (read_sees x s)|]. apply checks_lift.
    destruct (rows s n v) eqn:Erow; [left|right].
    + split; [done|]. intros n' [= <-]. right. right. by rewrite Erow.
    + eexists. split; [done|]. intros Hor. destruct (Hor n eq_refl) as [?|[[-> ->]|[? ?]]]; [done| |congruence].
      rewrite bool_decide_true in Eself by done. cbn in Eself.
      assert (value_eq id id = true) by (by apply value_eq_plain). congruence.
Qed.

Lemma find_duplicate_spec c t id v i (l : list (Value * Row)) :
  (∀ id' row', (id', row') ∈ l → get_row_key t row' = Ok id' ∧ plain id') →
  let P := ∀ id' row', (id', row') ∈ l → value_eq (default Null (row' !! i)) v = true → id' = id in
  decides (find_duplicate c t id v i (Ok <$> l.*2)) P.
Proof.
  induction l as [|[k row] l IH]; intros Hl; cbn zeta.
  { left. split; [done|]. by intros ? ? ?%not_elem_of_nil. }
  destruct (Hl k row) as [Hk Hp]; [apply list_elem_of_here|].
  cbn [fmap list_fmap snd find_duplicate mbind res_bind].
  assert ((value_eq (default Null (row !! i)) v = true → k = id) →
    decides (find_duplicate c t id v i (Ok <$> l.*2)) (∀ id' row', (id', row') ∈ (k, row) :: l →
      value_eq (default Null (row' !! i)) v = true → id' = id)) as Hskip.
  { intros Hhd. eapply decides_iff, IH.
    - split; intros HP id' row' Hin; [|by apply HP, list_elem_of_further].
      apply elem_of_cons in Hin as [[= -> ->]|Hin]; [done|by apply HP].
    - intros id' row' Hin. by apply Hl, list_elem_of_further. }
  destruct (value_eq (default Null (row !! i)) v) eqn:Ev.
  - rewrite Hk. cbn [mbind res_bind]. destruct (value_eq k id) eqn:Ek.
    + apply value_eq_plain in Ek as ->; [|done]. by apply Hskip.
    + right. eexists. split; [done|]. intros HP.
      assert (k = id) as <- by (apply (HP k row); [apply list_elem_of_here|done]).
      assert (value_eq k k = true) by (by apply value_eq_plain). congruence.
  - by apply Hskip.
Qed.

Lemma validate_unique_checks s n t id i c v : relational s → tables s n = Some t →
  t_columns t !! i = Some c → checks (validate_unique c t id v) s (unique_ok s t id i c v).
Proof.
  intros Hs Ht Hi. destruct (rel_table s Hs n t Ht) as [Hn Hok].
  unfold validate_unique, unique_ok.
  destruct (c_unique c); cbn [andb]; [|by left; split].
  destruct (c_primary_key c); cbn [andb negb]; [by left; split|].
  assert (value_eq v Null = true ↔ v = Null) as Hnull by (by destruct v).
  destruct (value_eq v Null); cbn [negb].
  { left. split; [done|]. intros _ _ Hv. destruct Hv. by apply Hnull. }
  intros x Hx. rewrite (column_index t i c Hok Hi).
  erewrite M_bind_Ok by reflexivity.
  destruct (scan_all_sees x s n t Hx Hs Ht) as (l & [_ Hl] & Hscan).
  rewrite Hn. erewrite M_bind_Ok by exact Hscan.
  assert (∀ id' row', (id', row') ∈ l → get_row_key t row' = Ok id' ∧ plain id') as Hkeys.
  { intros id' row' Hin%Hl.
    destruct (stored_row s _ id' row' Hs Hin) as (t' & Ht' & _ & _ & (_ & Hk & _) & Hp & _).
    by simplify_eq. }
  destruct (find_duplicate_spec c t id v i l Hkeys) as [[Hr HP]|(msg & Hr & HP)];
    unfold lift; rewrite Hr; [left|right].
  - split; [done|]. intros _ _ _ id' row' Hrow. apply HP, Hl. done.
  - exists msg. split; [done|]. intros Hu. apply HP. intros id' row' Hin%Hl.
    apply Hu; [done..| |done]. intros ->. by discriminate (proj2 Hnull eq_refl).
Qed.

(** Validating a row decides whether it fits. *)
Lemma validate_row_checks s n t row : relational s → tables s n = Some t →
  Forall value_valid row → checks (validate_row t row) s (∃ id, row_fits s t id row).
Proof.
  intros Hs Ht Hval. destruct (rel_table s Hs n t Ht) as [Hn Hok]. unfold validate_row.
  case_decide as Hlen.
  2:{ apply checks_lift. right. eexists. split; [done|]. intros (id & (_ & Hf) & _).
      by apply Forall2_length in Hf. }
  destruct (row_key_total t row Hok Hlen) as [id Hid].
  rewrite Hid. eapply checks_read; [done|].
  eapply checks_iff; [|apply (checks_for_each _ _ s (λ '(c, v), validate_type c v = Ok tt ∧
    ref_ok s t id c v ∧ ∀ i, t_columns t !! i = Some c → unique_ok s t id i c v))].
  - rewrite Forall_lookup. split.
    + intros Hall. exists id. split; [split; [done|]|split; [done|]].
      * apply Forall2_same_length_lookup_2; [done|]. intros i c v Hc Hv.
        by destruct (Hall i (c, v)) as (? & _); [by rewrite lookup_zip_with, Hc; cbn; rewrite Hv|].
      * intros i c v Hc Hv.
        destruct (Hall i (c, v)) as (_ & ? & ?); [by rewrite lookup_zip_with, Hc; cbn; rewrite Hv|].
        auto.
    + intros (id' & Hty & Hid' & Hrest) i [c v]. rewrite lookup_zip_with_Some.
      intros (c' & v' & [= <- <-] & Hc & Hv). rewrite Hid in Hid'. injection Hid' as <-.
      destruct (Hrest i c v Hc Hv) as [Href Hu]. split; [by eapply typed_column|].
      split; [done|]. intros j Hj. pose proof (column_index t i c Hok Hc) as Hci.
      rewrite (column_index t j c Hok Hj) in Hci. by simplify_eq.
  - intros [c v] Hin.
    apply list_elem_of_lookup in Hin as [i Hi]. apply lookup_zip_with_Some in Hi
      as (c' & v' & [= <- <-] & Hc & Hv).
    unfold validate_value. apply checks_bind; [apply validate_type_checks|]. intros Hty.
    assert (key_like c → plain v) as Hkp.
    { intros Hk f ->. apply typed_value in Hty. cbn in Hty.
      by eapply (Forall_lookup_1 _ _ _ _ (ok_types t Hok) Hc). }
    apply checks_bind.
    + apply validate_reference_checks; [done|by apply ok_name|..].
      * by eapply (Forall_lookup_1 _ _ _ _ (ok_refs t Hok) Hc).
      * by eapply Forall_lookup_1.
      * intros Hr. apply Hkp. right. by right.
    + intros _. eapply checks_iff; [|by eapply validate_unique_checks].
      split; [|eauto]. intros Hu j Hj. pose proof (column_index t i c Hok Hc) as Hci.
      rewrite (column_index t j c Hok Hj) in Hci. by simplify_eq.
Qed.
End checks.
