(* ===== verification/SqlWrites.v ===== *)
(** The writes of the SQL engine preserve the integrity of the database. *)
From Stdlib Require Import Strings.Byte NArith ZArith Lia Sorting.Sorted Floats.SpecFloat.
From stdpp Require Import base list gmap strings.
From S2P Require Import Prelude BTreeMap KeyCode Engine Bincode Mvcc SqlTypes SqlExpression.
From S2P Require Import SqlSchema SqlKeys SqlKv SqlStore SqlIntegrity.

(** * Rows *)

(** The same schemas and rows; the indexes may differ. *)
Definition same (s s' : Store) : Prop :=
  (∀ n, tables s' n = tables s n) ∧ (∀ n id, rows s' n id = rows s n id).

(** [s'] is [s] with the row of [id] in table [n] replaced. *)
Definition after (s s' : Store) (n : bytes) (id : Value) (o : option Row) : Prop :=
  same (with_row s n id o) s'.

Lemma same_refl s : same s s.
Proof. by split. Qed.

Lemma same_trans s1 s2 s3 : same s1 s2 → same s2 s3 → same s1 s3.
Proof. intros [H1 H2] [H3 H4]. split; intros; by rewrite ?H3, ?H4. Qed.

Lemma row_fits_same s s' t id row : same s s' → row_fits s t id row ↔ row_fits s' t id row.
Proof.
  intros [_ Hr]. unfold row_fits, ref_ok, unique_ok. by setoid_rewrite Hr.
Qed.

Lemma relational_same s s' : same s s' → relational s → relational s'.
Proof.
  intros Hss [Ht Hg Hr]. pose proof Hss as [HT HR]. split.
  - intros n t. rewrite HT. apply Ht.
  - intros n t c r. rewrite !HT. apply Hg.
  - intros n id row. rewrite HR. intros (t & Htn & Hf)%Hr. exists t. rewrite HT. split; [done|].
    by apply (row_fits_same s s').
Qed.

Lemma rows_put s n id o n' id' :
  rows (with_row s n id o) n' id' = if decide (n' = n ∧ id' = id) then o else rows s n' id'.
Proof. done. Qed.

Lemma put_is_Some s n id row n' id' : is_Some (rows s n' id') →
  is_Some (rows (with_row s n id (Some row)) n' id').
Proof. intros ?. rewrite rows_put. by case_decide. Qed.

Lemma ref_ok_put s t' id' c v n id row : ref_ok s t' id' c v →
  ref_ok (with_row s n id (Some row)) t' id' c v.
Proof.
  intros Hr m Hm. destruct (Hr m Hm) as [?|[?|?]]; [by left|right; by left|right; right].
  by apply put_is_Some.
Qed.

(** The value of a unique column in a row with the table's columns. *)
Lemma row_lookup t row i c : typed_row t row → t_columns t !! i = Some c → is_Some (row !! i).
Proof.
  intros [_ Hf] Hc. apply lookup_lt_is_Some_2. rewrite <-(Forall2_length _ _ _ Hf).
  by eapply lookup_lt_Some.
Qed.

(** Storing a row that fits, new or in place of the row with its key. *)
Lemma relational_put s n t id row : relational s → tables s n = Some t → row_fits s t id row →
  relational (with_row s n id (Some row)).
Proof.
  intros Hs Ht Hfit. pose proof (rel_table s Hs n t Ht) as [Hn Hok].
  pose proof Hfit as (Hty & Hkey & Hrest). split; [apply Hs|apply Hs|].
  intros n' id' row'. rewrite rows_put. case_decide as Heq.
  - destruct Heq as [-> ->]. intros [= <-]. exists t. split; [done|].
    split; [done|]. split; [done|]. intros i c v Hc Hv. destruct (Hrest i c v Hc Hv) as [Href Hu].
    split; [by apply ref_ok_put|]. intros Huq Hpk Hnull id' row'. rewrite rows_put.
    case_decide as Heq; [by destruct Heq|]. by apply Hu.
  - intros Hrow. destruct (rel_row s Hs n' id' row' Hrow) as (t' & Ht' & Hty' & Hkey' & Hrest').
    exists t'. split; [done|]. split; [done|]. split; [done|]. intros i c v Hc Hv.
    destruct (Hrest' i c v Hc Hv) as [Href Hu]. split; [by apply ref_ok_put|].
    intros Huq Hpk Hnull id2 row2. rewrite rows_put. case_decide as Heq2; [|by apply Hu].
    destruct Heq2 as [Hn2 ->]. intros [= <-] Hveq.
    destruct (rel_table s Hs n' t' Ht') as [Hn' _].
    assert (n' = n) as -> by congruence. simplify_eq.
    destruct (row_lookup t row i c Hty Hc) as [w Hw]. rewrite Hw in Hveq. cbn in Hveq.
    destruct (Hrest i c w Hc Hw) as [_ Huw]. symmetry. eapply Huw; [done|done| |done|].
    + intros ->. by destruct v.
    + rewrite Hv. cbn. by rewrite value_eq_sym.
Qed.

(** The rows that refer to a row, other than itself. *)
Definition unreferenced (s : Store) (n : bytes) (id : Value) : Prop :=
  ∀ n' id' row' t' i c, rows s n' id' = Some row' → tables s n' = Some t' →
    t_columns t' !! i = Some c → c_references c = Some n → row' !! i = Some id →
    n' = n ∧ id' = id.

Lemma relational_drop s n id : relational s → id ≠ Null → unreferenced s n id →
  relational (with_row s n id None).
Proof.
  intros Hs Hnull Hun. split; [apply Hs|apply Hs|]. intros n' id' row'. rewrite rows_put.
  case_decide as Hne; [done|]. intros Hrow.
  destruct (rel_row s Hs n' id' row' Hrow) as (t' & Ht' & Hty' & Hkey' & Hrest').
  exists t'. split; [done|]. split; [done|]. split; [done|]. intros i c v Hc Hv.
  destruct (Hrest' i c v Hc Hv) as [Href Hu]. split.
  - intros m Hm. destruct (Href m Hm) as [?|[?|Hsome]]; [by left|right; by left|].
    destruct (decide (m = n ∧ v = id)) as [[-> ->]|Hd].
    + exfalso. apply Hne. by apply (Hun n' id' row' t' i c).
    + right. right. rewrite rows_put. by rewrite decide_False.
  - intros Huq Hpk Hnl id2 row2. rewrite rows_put. case_decide; [done|]. by apply Hu.
Qed.

(** * Indexes *)

(** The index entries of the row [id] in the columns [cs] now say [new], and
    nothing else has changed. *)
Record reindexed (s s' : Store) (n : bytes) (id : Value) (new : nat → option Value)
    (cs : list (nat * SqlSchema.Column)) : Prop := {
  re_nodup : ∀ m c u, NoDup (index s' m c u);
  re_other : ∀ m c u k, ¬ (m = n ∧ k = id ∧ c ∈ index_names cs) →
    k ∈ index s' m c u ↔ k ∈ index s m c u;
  re_done : ∀ i c u, (i, c) ∈ cs → id ∈ index s' n (c_name c) u ↔ new i = Some u
}.

Lemma reindexed_start s n id new : (∀ m c u, NoDup (index s m c u)) → reindexed s s n id new [].
Proof. split; [done|done|]. by intros i c u ?%not_elem_of_nil. Qed.

(** One more column, whose entries changed for this row only. *)
Lemma reindexed_step s s1 s2 n id new cs i c :
  reindexed s s1 n id new cs → c_name c ∉ index_names cs →
  (∀ m d u, NoDup (index s2 m d u)) →
  (∀ m d u k, ¬ (m = n ∧ k = id ∧ d = c_name c) → k ∈ index s2 m d u ↔ k ∈ index s1 m d u) →
  (∀ u, id ∈ index s2 n (c_name c) u ↔ new i = Some u) →
  reindexed s s2 n id new (cs ++ [(i, c)]).
Proof.
  intros [Hnd Ho Hd] Hc Hnd2 Ho2 Hd2. unfold index_names in *. split; [done|..].
  - intros m d u k Hne. unfold index_names in Hne. rewrite fmap_app, elem_of_app in Hne. cbn in Hne.
    rewrite list_elem_of_singleton in Hne. rewrite Ho2, Ho; [done|naive_solver..].
  - intros j d u [Hin|[= -> ->]%list_elem_of_singleton]%elem_of_app; [|done].
    rewrite Ho2; [by apply Hd|]. intros (_ & _ & Heq). apply Hc. rewrite <-Heq.
    apply list_elem_of_fmap. by exists (j, d).
Qed.

(** The entries of a stored row in the index of one of its columns. *)
Lemma indexed_row s n t id i c u : indexed s → table_ok t → tables s n = Some t → (i, c) ∈ indexes t →
  id ∈ index s n (c_name c) u ↔ ∃ row, rows s n id = Some row ∧ row !! i = Some u.
Proof.
  intros [_ Hix] Hok Ht Hic. rewrite Hix. split.
  - intros (t' & j & d & row & Ht' & Hjd & Hname & Hrow & Hu). simplify_eq.
    exists row. split; [done|].
    apply elem_of_indexes in Hic as [Hc _], Hjd as [Hd _].
    assert (i = j) as ->; [|done]. pose proof (column_index t i c Hok Hc) as E1.
    pose proof (column_index t j d Hok Hd) as E2. rewrite Hname, E1 in E2. by simplify_eq.
  - intros (row & Hrow & Hu). by exists t, i, c, row.
Qed.

Lemma indexed_after s s' n t id o : indexed s → table_ok t → tables s n = Some t →
  after s s' n id o → reindexed s s' n id (λ i, o ≫= λ row, row !! i) (indexes t) → indexed s'.
Proof.
  intros Hix Hok Ht [HT HR] [Hnd Ho Hd]. split; [done|]. intros m c v k.
  destruct (decide (m = n ∧ k = id ∧ c ∈ index_names (indexes t))) as [(-> & -> & Hc)|Hne].
  - apply list_elem_of_fmap in Hc as ([i col] & -> & Hic). cbn [snd]. rewrite (Hd i col v Hic).
    setoid_rewrite HT. setoid_rewrite HR. cbn [tables with_row]. setoid_rewrite rows_put.
    rewrite decide_True by done. split.
    + intros (row & -> & Hv)%bind_Some. by exists t, i, col, row.
    + intros (t' & j & d & row & Ht' & Hjd & Hname & -> & Hv). simplify_eq/=.
      apply elem_of_indexes in Hic as [Hci _], Hjd as [Hdj _].
      assert (i = j) as ->; [|done]. pose proof (column_index t i col Hok Hci) as E1.
      pose proof (column_index t j d Hok Hdj) as E2. rewrite Hname, E1 in E2. by simplify_eq.
  - rewrite Ho by done. destruct Hix as [_ Hix]. rewrite Hix.
    setoid_rewrite HT. setoid_rewrite HR. cbn [tables with_row].
    split; intros (t' & j & d & row & Ht' & Hjd & Hname & Hrow & Hv);
      exists t', j, d, row; (split; [done|]; split; [done|]; split; [done|]; split; [|done]);
      rewrite rows_put in *; case_decide as Heq; try done;
      destruct Heq as [-> ->]; exfalso; apply Hne; simplify_eq;
      (split; [done|]; split; [done|]); apply list_elem_of_fmap; by exists (j, d).
Qed.

(** * Operations *)

Section writes.
Context {T : Type} `{KvLaws T}.
Context `{Libm, Regex}.
Context `{BincodeLaws (list Value), BincodeLaws Table}.
Implicit Types (x : T) (s : Store).

Lemma must_read_runs n s (Q : Table → Store → Prop) (R : Error → Store → Prop) :
  utf8_valid n = true →
  match tables s n with Some t => Q t s | None => ∀ msg, R (EValue msg) s end →
  runs (must_read_table n) s Q R.
Proof.
  intros Hn HQ. eapply runs_read; [intros x Hx; by apply (must_read_sees x s)|].
  destruct (tables s n); [done|apply HQ].
Qed.

Lemma read_runs n id s (Q : option Row → Store → Prop) R :
  utf8_valid n = true → value_valid id → Q (rows s n id) s → runs (read n id) s Q R.
Proof. intros Hn Hid HQ. eapply runs_read; [intros x Hx; by apply (read_sees x s)|done]. Qed.

(** ** Single index entries *)

Lemma index_add_runs s t c v id (Q : unit → Store → Prop) (R : Error → Store → Prop) :
  utf8_valid (t_name t) = true → utf8_valid (c_name c) = true → value_valid v →
  plain id → id ≠ Null →
  (∀ s', same s s' → ((∀ m d u, NoDup (index s m d u)) → ∀ m d u, NoDup (index s' m d u)) →
     (∀ m d u k, k ∈ index s' m d u ↔
        (m = t_name t ∧ d = c_name c ∧ u = v ∧ k = id) ∨ k ∈ index s m d u) → Q tt s') →
  (∀ e, refused e → R e s) → runs (index_add t c v id) s Q R.
Proof.
  intros Hn Hc Hv Hp Hnull HQ HR.
  destruct (set_insert_plain id (index s (t_name t) (c_name c) v) Hp Hnull)
    as (ids & Hins & Hnd & Hids).
  eapply (index_update_runs (set_insert id)); [done..| |done]. apply HQ.
  - by split.
  - intros Hall m d u. cbn. case_decide; [by apply Hnd|done].
  - intros m d u k. cbn. case_decide as Heq; [destruct Heq as (-> & -> & ->)|].
    + rewrite Hids. naive_solver.
    + naive_solver.
Qed.

Lemma index_remove_runs s t c v id (Q : unit → Store → Prop) (R : Error → Store → Prop) :
  utf8_valid (t_name t) = true → utf8_valid (c_name c) = true → value_valid v →
  plain id → id ≠ Null →
  (∀ s', same s s' → ((∀ m d u, NoDup (index s m d u)) → ∀ m d u, NoDup (index s' m d u)) →
     (∀ m d u k, k ∈ index s' m d u ↔
        ¬ (m = t_name t ∧ d = c_name c ∧ u = v ∧ k = id) ∧ k ∈ index s m d u) → Q tt s') →
  (∀ e, refused e → R e s) → runs (index_remove t c v id) s Q R.
Proof.
  intros Hn Hc Hv Hp Hnull HQ HR.
  destruct (set_remove_plain id (index s (t_name t) (c_name c) v) Hp Hnull)
    as (ids & Hins & Hnd & Hids).
  eapply (index_update_runs (set_remove id)); [done..| |done]. apply HQ.
  - by split.
  - intros Hall m d u. cbn. case_decide; [by apply Hnd|done].
  - intros m d u k. cbn. case_decide as Heq; [destruct Heq as (-> & -> & ->)|].
    + rewrite Hids. naive_solver.
    + naive_solver.
Qed.

(** A loop over the indexed columns that leaves the schemas and rows alone. *)
Lemma reindex_loop s n t id new (f : nat * SqlSchema.Column → M T unit) :
  table_ok t → (∀ m c u, NoDup (index s m c u)) →
  (∀ cs i c s1, (i, c) ∈ indexes t → c_name c ∉ index_names cs → same s s1 →
     reindexed s s1 n id new cs →
     runs (f (i, c)) s1
       (λ _ s2, same s1 s2 ∧ (∀ m d u, NoDup (index s2 m d u)) ∧
          (∀ m d u k, ¬ (m = n ∧ k = id ∧ d = c_name c) → k ∈ index s2 m d u ↔ k ∈ index s1 m d u) ∧
          ∀ u, id ∈ index s2 n (c_name c) u ↔ new i = Some u) (λ e _, refused e)) →
  runs (for_each (indexes t) f) s
    (λ _ s', same s s' ∧ reindexed s s' n id new (indexes t)) (λ e _, refused e).
Proof.
  intros Hok Hnd0 Hstep.
  eapply (runs_for_each (λ cs s', same s s' ∧ reindexed s s' n id new cs)).
  - split; [apply same_refl|]. by apply reindexed_start.
  - intros before [i c] rest s1 Heq [Hs1 Hre].
    assert (c_name c ∉ index_names before) as Hfresh.
    { pose proof (index_names_distinct t Hok) as Hnd. rewrite Heq in Hnd.
      unfold index_names in *. rewrite fmap_app, fmap_cons in Hnd.
      apply NoDup_app in Hnd as (_ & Hnd & _). intros Hin. apply (Hnd _ Hin), list_elem_of_here. }
    eapply runs_mono; [eapply (Hstep before i c s1)|intros [] s2 (Hs2 & Hnd2 & Ho2 & Hd2)|done];
      [|done..|].
    + rewrite Heq. apply elem_of_app. right. apply list_elem_of_here.
    + split; [by eapply same_trans|]. by eapply reindexed_step.
Qed.

(** ** Create *)

Definition creatable s n (row : Row) : Prop :=
  ∃ t id, tables s n = Some t ∧ row_fits s t id row ∧ rows s n id = None.

Lemma create_runs s n row : integrity s → utf8_valid n = true → Forall value_valid row →
  runs (create n row) s
    (λ _ s', ∃ t id, tables s n = Some t ∧ get_row_key t row = Ok id ∧ creatable s n row ∧
       after s s' n id (Some row) ∧ integrity s')
    (λ e s', refused e ∨ ∃ msg, e = EValue msg ∧ s' = s ∧ ¬ creatable s n row).
Proof.
  intros [Hs Hix] Hn Hval. unfold create. apply runs_bind, must_read_runs; [done|].
  destruct (tables s n) as [t|] eqn:Ht.
  2:{ intros msg. right. exists msg. split; [done|]. split; [done|].
      intros (t & id & Ht' & _). congruence. }
  destruct (rel_table s Hs n t Ht) as [Htn Hok]. apply runs_bind.
  eapply checks_runs; [by eapply validate_row_checks| |].
  2:{ intros msg Hno. right. exists msg. split; [done|]. split; [done|].
      intros (t' & id & Ht' & Hf & _). simplify_eq. eauto. }
  intros (id & Hfit). pose proof Hfit as (Hty & Hkey & _).
  destruct (row_key_plain t row id Hok Hty Hkey) as (Hp & Hnull & Hvid).
  apply runs_bind, runs_lift. rewrite Hkey. cbn beta iota.
  apply runs_bind, read_runs; [by apply ok_name|done|]. rewrite Htn.
  destruct (rows s n id) as [old|] eqn:Hold.
  { apply runs_lift. right. eexists. split; [done|]. split; [done|].
    intros (t' & id' & Ht' & (_ & Hkey' & _) & Hno). simplify_eq. congruence. }
  apply runs_bind, set_row_runs; [by apply ok_name|done| |by left]. rewrite Htn.
  eapply runs_mono.
  - eapply (reindex_loop (with_row s n id (Some row)) n t id (λ i, row !! i)); [done|apply Hix|].
    intros cs i c s1 Hic Hfresh Hs1 [Hnd1 Ho1 _].
    pose proof Hic as [Hci _]%elem_of_indexes.
    destruct (row_lookup t row i c Hty Hci) as [v Hv].
    apply runs_bind, runs_lift. unfold row_at. rewrite Hv. cbn beta iota delta [ok_or].
    apply index_add_runs; [by apply ok_name|
      exact (Forall_lookup_1 _ _ _ _ (ok_columns t Hok) Hci)|
      exact (Forall_lookup_1 _ _ _ _ (proj1 Hty) Hv)|done|done| |by intros].
    intros s2 Hs2 Hnd2 Hin2. split; [done|]. split; [by apply Hnd2|]. rewrite Htn in Hin2. split.
    + intros m d u k Hne. rewrite Hin2. naive_solver.
    + intros u. rewrite Hin2, Ho1 by naive_solver. cbn [index with_row].
      rewrite (indexed_row s n t id i c u), Hold by done. naive_solver.
  - intros [] s' [Hs' Hre]. exists t, id. split; [done|]. split; [done|].
    split; [by exists t, id|]. split; [done|]. split.
    + eapply relational_same; [exact Hs'|]. by eapply relational_put.
    + apply (indexed_after s s' n t id (Some row) Hix Hok Ht Hs'). destruct Hre. by split.
  - by left.
Qed.

(** ** References to a row *)

(** The columns [ics] of a stored row do not refer to [id], unless it is its own key. *)
Lemma check_columns_spec s n t n' t' id id' row (ics : list (nat * bytes)) :
  relational s → tables s n = Some t → tables s n' = Some t' → rows s n' id' = Some row →
  plain id →
  (∀ i nm, (i, nm) ∈ ics → ∃ c, t_columns t' !! i = Some c ∧ is_Some (c_references c)) →
  decides (check_columns t t' id row ics)
    (∀ i nm, (i, nm) ∈ ics → row !! i = Some id → n' = n ∧ id' = id).
Proof.
  intros Hs Ht Ht' Hrow Hp.
  destruct (rel_table s Hs n t Ht) as [Hn Hok]. destruct (rel_table s Hs n' t' Ht') as [Hn' Hok'].
  destruct (rel_row s Hs n' id' row Hrow) as (t'' & Ht'' & Hty & Hkey & _). simplify_eq.
  induction ics as [|[i nm] ics IH]; intros Hics.
  { left. split; [done|]. by intros ? ? ?%not_elem_of_nil. }
  destruct (Hics i nm) as (c & Hc & Href); [apply list_elem_of_here|].
  destruct (row_lookup t' row i c Hty Hc) as [v Hv].
  assert (plain v) as Hpv by (eapply key_like_plain; [done..|]; right; by right).
  cbn [check_columns]. unfold row_at. rewrite Hv. cbn [ok_or mbind res_bind].
  assert (decides (check_columns t t' id row ics)
    (∀ i nm, (i, nm) ∈ ics → row !! i = Some id → t_name t' = t_name t ∧ id' = id)) as IH'.
  { apply IH. intros j m Hin. by eapply Hics, list_elem_of_further. }
  assert ((v = id → t_name t' = t_name t ∧ id' = id) → decides (check_columns t t' id row ics)
    (∀ j m, (j, m) ∈ (i, nm) :: ics → row !! j = Some id → t_name t' = t_name t ∧ id' = id)) as Hskip.
  { intros Hhd. eapply decides_iff; [|exact IH']. split; intros HP j m Hin.
    - apply elem_of_cons in Hin as [[= -> ->]|Hin]; [rewrite Hv; intros [= ->]; auto|by eapply HP].
    - by eapply HP, list_elem_of_further. }
  assert (∀ msg, ¬ (v = id → t_name t' = t_name t ∧ id' = id) →
    decides (Err (EValue msg))
      (∀ j m, (j, m) ∈ (i, nm) :: ics → row !! j = Some id → t_name t' = t_name t ∧ id' = id)) as Hbad.
  { intros msg Hno. right. exists msg. split; [done|]. intros HP. apply Hno. intros ->.
    apply (HP i nm); [apply list_elem_of_here|done]. }
  destruct (value_eq v id) eqn:Ev.
  - apply value_eq_plain in Ev as ->; [|done]. case_decide as Hname.
    + assert (t = t') as -> by congruence. rewrite Hkey. cbn [mbind res_bind].
      destruct (value_eq id id') eqn:Ek; cbn [negb].
      * apply value_eq_plain in Ek as ->; [|done]. by apply Hskip.
      * apply Hbad. intros HP. destruct (HP eq_refl) as [_ ->].
        assert (value_eq id id = true) by (by apply value_eq_plain). congruence.
    + cbn [mbind res_bind]. apply Hbad. intros HP. destruct (HP eq_refl). congruence.
  - cbn [mbind res_bind]. apply Hskip. intros ->.
    assert (value_eq id id = true) by (by apply value_eq_plain). congruence.
Qed.

Lemma check_rows_spec s n t n' t' id (ics : list (nat * bytes)) (l : list (Value * Row)) :
  relational s → tables s n = Some t → tables s n' = Some t' → plain id →
  (∀ i nm, (i, nm) ∈ ics → ∃ c, t_columns t' !! i = Some c ∧ is_Some (c_references c)) →
  (∀ id' row, (id', row) ∈ l → rows s n' id' = Some row) →
  decides (check_rows t t' id ics (Ok <$> l.*2))
    (∀ id' row, (id', row) ∈ l → ∀ i nm, (i, nm) ∈ ics → row !! i = Some id → n' = n ∧ id' = id).
Proof.
  intros Hs Ht Ht' Hp Hics. induction l as [|[k row] l IH]; intros Hl.
  { left. split; [done|]. by intros ? ? ?%not_elem_of_nil. }
  cbn [fmap list_fmap snd check_rows mbind res_bind].
  eapply decides_iff; [|eapply decides_bind].
  2:{ eapply (check_columns_spec s n t n' t' id k row); [done..| |done|done].
      apply Hl, list_elem_of_here. }
  2:{ intros _. apply IH. intros id' r Hin. by apply Hl, list_elem_of_further. }
  split.
  - intros [Hhd Htl] id' r [[= -> ->]|Hin]%elem_of_cons; eauto.
  - intros HP. split.
    + intros i nm. apply (HP k row), list_elem_of_here.
    + intros id' r Hin. by apply HP, list_elem_of_further.
Qed.

Lemma collect_Forall2 {A B} (f : A → res B) (l : list A) :
  (∀ a, a ∈ l → ∃ b, f a = Ok b) → ∃ l', collect (f <$> l) = Ok l' ∧ Forall2 (λ a b, f a = Ok b) l l'.
Proof.
  induction l as [|a l IH]; intros Hf; [by exists []|].
  destruct (Hf a) as [b Hb]; [apply list_elem_of_here|].
  destruct IH as (l' & Hl' & HF); [intros c Hc; by apply Hf, list_elem_of_further|].
  exists (b :: l'). cbn. rewrite Hb. cbn. rewrite Hl'. split; [done|by constructor].
Qed.

Lemma elem_of_references n t nm : nm ∈ references_of n t ↔
  ∃ i c, t_columns t !! i = Some c ∧ c_references c = Some n ∧ nm = c_name c.
Proof.
  unfold references_of. rewrite list_elem_of_fmap. split.
  - intros (c & -> & [Hin Hr]%elem_of_filter_bool). apply list_elem_of_lookup in Hin as [i Hi].
    apply bool_decide_eq_true in Hr. eauto.
  - intros (i & c & Hc & Hr & ->). exists c. split; [done|]. apply elem_of_filter_bool.
    split; [by eapply list_elem_of_lookup_2|]. by apply bool_decide_eq_true.
Qed.

Lemma table_references_sees x s n with_self : sees x s → relational s →
  ∃ refs, table_references n with_self x = (Ok refs, x) ∧
    ∀ n' cs, (n', cs) ∈ refs ↔ ∃ t', tables s n' = Some t' ∧ (with_self = true ∨ n' ≠ n) ∧
      cs = references_of n t' ∧ cs ≠ [].
Proof.
  intros Hx Hs. destruct (scan_tables_sees x s Hx) as (ts & Hts & Hin).
  { intros m t Ht. destruct (rel_table s Hs m t Ht) as [<- Hok]. by apply ok_name. }
  unfold table_references. eexists. split; [by erewrite M_bind_Ok by exact Hts|].
  intros n' cs. rewrite elem_of_filter_bool, list_elem_of_fmap. cbn [snd].
  rewrite negb_true_iff, bool_decide_eq_false. split.
  - intros [(t' & [= -> ->] & [[m Ht']%Hin Hself]%elem_of_filter_bool) Hne]. exists t'.
    destruct (rel_table s Hs m t' Ht') as [Hm _]. rewrite Hm in *. split; [done|]. split; [|done].
    apply orb_true_iff in Hself as [->|Hself]; [by left|right].
    by apply negb_true_iff, bool_decide_eq_false in Hself.
  - intros (t' & Ht' & Hself & -> & Hne). split; [|done]. exists t'.
    destruct (rel_table s Hs n' t' Ht') as [Hn' _]. split; [by rewrite Hn'|].
    apply elem_of_filter_bool. split; [apply Hin; eauto|]. rewrite Hn'.
    destruct Hself as [->|Hself]; [done|]. rewrite bool_decide_false by done. by destruct with_self.
Qed.

(** The positions of the columns that refer to a table. *)
Lemma reference_positions s n n' t' : relational s → tables s n' = Some t' →
  ∃ ics, collect ((λ c, i ← get_column_index t' c; Ok (i, c)) <$> references_of n t') = Ok ics ∧
    ∀ i nm, (i, nm) ∈ ics ↔ ∃ c, t_columns t' !! i = Some c ∧ c_references c = Some n ∧ nm = c_name c.
Proof.
  intros Hs Ht'. destruct (rel_table s Hs n' t' Ht') as [_ Hok].
  destruct (collect_Forall2 (λ c, i ← get_column_index t' c; Ok (i, c)) (references_of n t'))
    as (ics & Hics & HF).
  { intros nm (i & c & Hc & _ & ->)%elem_of_references. exists (i, c_name c).
    by rewrite (column_index t' i c Hok Hc). }
  exists ics. split; [done|]. intros i nm. split.
  - intros [k Hk]%list_elem_of_lookup.
    destruct (Forall2_lookup_r _ _ _ _ _ HF Hk) as (nm' & Hnm & Hget).
    apply list_elem_of_lookup_2, elem_of_references in Hnm as (j & c & Hc & Hr & ->).
    rewrite (column_index t' j c Hok Hc) in Hget. cbn in Hget. simplify_eq. eauto.
  - intros (c & Hc & Hr & ->).
    assert (c_name c ∈ references_of n t') as [k Hk]%list_elem_of_lookup
      by (apply elem_of_references; eauto).
    destruct (Forall2_lookup_l _ _ _ _ _ HF Hk) as ([j nm] & Hj & Hget).
    rewrite (column_index t' i c Hok Hc) in Hget. cbn in Hget. simplify_eq.
    by eapply list_elem_of_lookup_2.
Qed.

Lemma check_references_checks s n t id : relational s → tables s n = Some t → plain id →
  checks (check_references t id) s (unreferenced s n id).
Proof.
  intros Hs Ht Hp x Hx. destruct (rel_table s Hs n t Ht) as [Hn _].
  destruct (table_references_sees x s n true Hx Hs) as (refs & Hrefs & Hin).
  unfold check_references. rewrite Hn.
  erewrite M_bind_Ok by exact Hrefs. revert x Hx Hrefs. intros x Hx _. revert x Hx.
  change (checks (for_each refs (λ '(tn, cs),
    t' ← must_read_table tn;
    cs' ← lift (collect ((λ c, i ← get_column_index t' c; Ok (i, c)) <$> cs));
    items ← scan (t_name t') None;
    lift (check_rows t t' id cs' items))) s (unreferenced s n id)).
  eapply checks_iff; [|apply (checks_for_each _ _ s (λ '(n', _), ∀ t' id' row i c,
    tables s n' = Some t' → rows s n' id' = Some row → t_columns t' !! i = Some c →
    c_references c = Some n → row !! i = Some id → n' = n ∧ id' = id))].
  - rewrite Forall_forall. split.
    + intros Hall n' id' row t' i c Hrow Ht' Hc Hr.
      apply (Hall (n', references_of n t')) with (t' := t') (c := c); [|done..]. apply Hin. exists t'. split; [done|]. split; [by left|]. split; [done|].
      intros Hnil. apply (not_elem_of_nil (c_name c)). rewrite <-Hnil.
      apply elem_of_references. eauto.
    + intros Hun [n' cs] _ t' id' row i c ? ? ? ? ?. by eapply Hun.
  - intros [n' cs] (t' & Ht' & _ & -> & _)%Hin.
    destruct (rel_table s Hs n' t' Ht') as [Hn' Hok'].
    destruct (reference_positions s n n' t' Hs Ht') as (ics & Hcol & Hics).
    eapply checks_read.
    { intros x Hx. etrans; [apply (must_read_sees x s); [done|]|by rewrite Ht'].
      rewrite <-Hn'. by apply ok_name. }
    eapply checks_read; [intros; unfold lift; by rewrite Hcol|].
    intros x Hx. destruct (scan_all_sees x s n' t' Hx Hs Ht') as (l & [_ Hl] & Hscan).
    rewrite Hn'. erewrite M_bind_Ok by exact Hscan. revert x Hx Hscan. intros x Hx _.
    assert (checks (T:=T) (lift (check_rows t t' id ics (Ok <$> l.*2))) s
      (∀ t' id' row i c, tables s n' = Some t' → rows s n' id' = Some row →
         t_columns t' !! i = Some c → c_references c = Some n → row !! i = Some id →
         n' = n ∧ id' = id)) as Hc; [|by apply Hc].
    apply checks_lift. eapply decides_iff; [|apply (check_rows_spec s n t n' t' id ics l Hs Ht Ht' Hp)].
    + split.
      * intros HP t0 id' row i c Ht0 Hrow Hc Hr Hid. simplify_eq.
        eapply (HP id' row); [by apply Hl| |done]. apply Hics. eauto.
      * intros HP id' row Hrow%Hl i nm (c & Hc & Hr & _)%Hics Hid. by eapply HP.
    + intros i nm (c & Hc & Hr & _)%Hics. exists c. rewrite Hr. eauto.
    + intros id' row. apply Hl.
Qed.

(** ** Delete *)

Lemma delete_runs s n id : integrity s → utf8_valid n = true → value_valid id → plain id → id ≠ Null →
  runs (delete n id) s
    (λ _ s', is_Some (tables s n) ∧ unreferenced s n id ∧ after s s' n id None ∧ integrity s')
    (λ e s', refused e ∨ ∃ msg, e = EValue msg ∧ s' = s ∧ (tables s n = None ∨ ¬ unreferenced s n id)).
Proof.
  intros [Hs Hix] Hn Hvid Hp Hnull. unfold delete. apply runs_bind, must_read_runs; [done|].
  destruct (tables s n) as [t|] eqn:Ht.
  2:{ intros msg. right. exists msg. auto. }
  destruct (rel_table s Hs n t Ht) as [Htn Hok]. apply runs_bind.
  eapply checks_runs; [by eapply check_references_checks| |].
  2:{ intros msg Hno. right. exists msg. auto. }
  intros Hun. apply runs_bind.
  eapply (runs_mono _ _ (λ _ s', same s s' ∧ reindexed s s' n id (λ _, None) (indexes t))
    _ (λ e _, refused e)).
  - case_decide as Hno.
    { apply runs_ret. split; [apply same_refl|]. rewrite Hno. apply reindexed_start, Hix. }
    apply runs_bind, read_runs; [by apply ok_name|done|]. rewrite Htn.
    destruct (rows s n id) as [row|] eqn:Hrow.
    + destruct (rel_row s Hs n id row Hrow) as (t' & Ht' & Hty & Hkey & _). simplify_eq.
      eapply (reindex_loop s _ t id (λ _, None)); [done|apply Hix|].
      intros cs i c s1 Hic Hfresh Hs1 [Hnd1 Ho1 _].
      pose proof Hic as [Hci _]%elem_of_indexes.
      destruct (row_lookup t row i c Hty Hci) as [v Hv].
      apply runs_bind, runs_lift. unfold row_at. rewrite Hv. cbn beta iota delta [ok_or].
      apply index_remove_runs; [by apply ok_name|
        exact (Forall_lookup_1 _ _ _ _ (ok_columns t Hok) Hci)|
        exact (Forall_lookup_1 _ _ _ _ (proj1 Hty) Hv)|done|done| |by intros].
      intros s2 Hs2 Hnd2 Hin2. split; [done|]. split; [by apply Hnd2|]. split.
      * intros m d u k Hne. rewrite Hin2. naive_solver.
      * intros u. rewrite Hin2, Ho1 by naive_solver.
        rewrite (indexed_row s (t_name t) t id i c u) by done. naive_solver.
    + apply runs_ret. split; [apply same_refl|]. split; [apply Hix|done|].
      intros i c u Hic. rewrite (indexed_row s n t id i c u), Hrow by done. naive_solver.
  - intros [] s1 [Hs1 Hre]. apply delete_row_runs; [by apply ok_name|done| |by left].
    rewrite Htn. assert (after s (with_row s1 n id None) n id None) as Haf.
    { destruct Hs1 as [HT HR]. split; [done|]. intros m k. rewrite !rows_put. by case_decide. }
    split; [eauto|]. split; [done|]. split; [done|]. split.
    + eapply relational_same; [exact Haf|]. by apply relational_drop.
    + apply (indexed_after s _ n t id None Hix Hok Ht Haf). destruct Hre. by split.
  - by left.
Qed.

(** ** Update *)

(** The rows after an update: the old key is gone, the new key has the row. *)
Definition updated (s s' : Store) (n : bytes) (id id' : Value) (row : Row) : Prop :=
  (∀ m, tables s' m = tables s m) ∧
  ∀ m k, rows s' m k = if decide (m = n ∧ k = id') then Some row
                       else if decide (m = n ∧ k = id) then None else rows s m k.

(** The loop that moves the index entries of a row to its new values. *)
Lemma move_entries_runs s n t id old row : integrity s → tables s n = Some t →
  rows s n id = Some old → length row = length (t_columns t) → Forall value_valid row →
  runs (for_each (indexes t) (λ '(i, c),
      v ← lift (row_at old i);
      w ← lift (row_at row i);
      if value_eq v w then mret tt
      else _ ← index_remove t c v id; index_add t c w id)) s
    (λ _ s', same s s' ∧ reindexed s s' n id (λ i, row !! i) (indexes t)) (λ e _, refused e).
Proof.
  intros [Hs Hix] Ht Hold Hlen Hval.
  destruct (stored_row s n id old Hs Hold) as (t' & Ht' & Hn & Hok & (Hty & _) & Hp & Hnull & Hvid).
  assert (t' = t) as -> by congruence. subst n. eapply reindex_loop; [done|apply Hix|].
  intros cs i c s1 Hic Hfresh Hs1 [Hnd1 Ho1 _]. pose proof Hic as [Hci Hidx]%elem_of_indexes.
  destruct (row_lookup t old i c Hty Hci) as [v Hv].
  assert (is_Some (row !! i)) as [w Hw].
  { apply lookup_lt_is_Some_2. rewrite Hlen. by eapply lookup_lt_Some. }
  assert (plain v) as Hpv by (eapply key_like_plain; [done..|]; right; by left).
  assert (∀ u, id ∈ index s1 (t_name t) (c_name c) u ↔ v = u) as Hcur.
  { intros u. rewrite Ho1 by naive_solver. rewrite (indexed_row s _ t id i c u) by done. naive_solver. }
  pose proof (Forall_lookup_1 _ _ _ _ (ok_columns t Hok) Hci) as Hcn.
  apply runs_bind, runs_lift. unfold row_at. rewrite Hv. cbn beta iota delta [ok_or].
  apply runs_bind, runs_lift. rewrite Hw. cbn beta iota delta [ok_or].
  destruct (value_eq v w) eqn:Evw.
  - apply value_eq_plain in Evw as ->; [|done]. apply runs_ret.
    split; [apply same_refl|]. split; [done|]. split; [done|]. intros u. rewrite Hcur. naive_solver.
  - assert (v ≠ w) as Hvw.
    { intros ->. assert (value_eq w w = true) by (by apply value_eq_plain). congruence. }
    apply runs_bind. apply index_remove_runs; [by apply ok_name|done|
      exact (Forall_lookup_1 _ _ _ _ (proj1 Hty) Hv)|done|done| |by intros].
    intros s2 Hs2 Hnd2 Hin2.
    apply index_add_runs; [by apply ok_name|done|
      exact (Forall_lookup_1 _ _ _ _ Hval Hw)|done|done| |by intros].
    intros s3 Hs3 Hnd3 Hin3. split; [by eapply same_trans|]. split; [auto|]. split.
    + intros m d u k Hne. rewrite Hin3, Hin2. naive_solver.
    + intros u. rewrite Hin3, Hin2, Hcur. naive_solver.
Qed.

Lemma update_runs s n t id old row : integrity s → utf8_valid n = true → tables s n = Some t →
  rows s n id = Some old → length row = length (t_columns t) → Forall value_valid row →
  runs (update n id row) s
    (λ _ s', ∃ id', get_row_key t row = Ok id' ∧ (id' = id ∨ rows s n id' = None) ∧
       updated s s' n id id' row ∧ integrity s')
    (λ e s', refused e ∨ ∃ msg, e = EValue msg ∧ (get_row_key t row = Ok id → same s s')).
Proof.
  intros Hint Hn Ht Hold Hlen Hval. pose proof Hint as [Hs Hix].
  destruct (stored_row s n id old Hs Hold) as (t' & Ht' & Htn & Hok & _ & Hp & Hnull & Hvid).
  assert (t' = t) as -> by congruence.
  destruct (row_key_total t row Hok Hlen) as [key Hkey].
  unfold update. apply runs_bind, must_read_runs; [done|]. rewrite Ht.
  apply runs_bind, runs_lift. rewrite Hkey. cbn beta iota.
  destruct (value_eq id key) eqn:Ek; cbn [negb].
  - apply value_eq_plain in Ek as <-; [|done]. apply runs_bind.
    eapply (runs_mono _ _ (λ _ s', same s s' ∧ reindexed s s' n id (λ i, row !! i) (indexes t))
      _ (λ e _, refused e)).
    + case_decide as Hno.
      { apply runs_ret. split; [apply same_refl|]. rewrite Hno. apply reindexed_start, Hix. }
      apply runs_bind, read_runs; [by apply ok_name|done|]. rewrite Htn, Hold.
      apply runs_bind, runs_lift. cbn beta iota delta [ok_or]. by apply move_entries_runs.
    + intros [] s1 [Hs1 Hre]. apply runs_bind.
      pose proof (relational_same s s1 Hs1 Hs) as Hrel1.
      assert (tables s1 n = Some t) as Ht1 by (destruct Hs1 as [-> _]; done).
      eapply checks_runs; [by eapply validate_row_checks| |].
      2:{ intros msg _. right. exists msg. auto. }
      intros (id' & Hfit). assert (id' = id) as -> by (destruct Hfit as (_ & ? & _); congruence).
      apply set_row_runs; [by apply ok_name|done| |by left]. rewrite Htn.
      assert (after s (with_row s1 n id (Some row)) n id (Some row)) as Haf.
      { destruct Hs1 as [HT HR]. split; [done|]. intros m k. rewrite !rows_put. by case_decide. }
      exists id. split; [done|]. split; [by left|]. split; [|split].
      * destruct Haf as [HT HR]. split; [done|]. intros m k. rewrite HR, rows_put.
        repeat case_decide; done.
      * by eapply relational_put.
      * apply (indexed_after s _ n t id (Some row) Hix Hok Ht Haf). destruct Hre. by split.
    + by left.
  - assert (key ≠ id) as Hne.
    { intros ->. assert (value_eq id id = true) by (by apply value_eq_plain). congruence. }
    rewrite Htn. apply runs_bind. eapply runs_mono; [by apply delete_runs| |].
    + intros [] s1 (_ & _ & [HT1 HR1] & Hint1).
      eapply runs_mono; [by apply create_runs| |].
      * intros [] s2 (t2 & id2 & Ht2 & Hk2 & (t3 & id3 & Ht3 & (_ & Hk3 & _) & Hnone) & [HT2 HR2] & Hint2).
        rewrite HT1 in Ht2, Ht3. cbn in Ht2, Ht3. assert (t2 = t) as -> by congruence.
        assert (t3 = t) as -> by congruence. exists id2.
        assert (id2 = key) as -> by congruence. assert (id3 = key) as -> by congruence.
        split; [done|]. split.
        { right. rewrite HR1, rows_put in Hnone. rewrite decide_False in Hnone by naive_solver. done. }
        split; [|done]. split.
        -- intros m. rewrite HT2. cbn. by rewrite HT1.
        -- intros m k. rewrite HR2, rows_put. case_decide; [done|]. by rewrite HR1.
      * intros e s2 [?|(msg & -> & _)]; [by left|right]. exists msg. split; [done|]. congruence.
    + intros e s1 [?|(msg & -> & _)]; [by left|right]. exists msg. split; [done|]. congruence.
Qed.
End writes.
