(* ===== verification/SqlCatalog.v ===== *)
(** Creating and dropping tables preserves the integrity of the database. *)
From Stdlib Require Import Strings.Byte NArith ZArith Lia Sorting.Sorted Floats.SpecFloat.
From stdpp Require Import base list gmap strings.
From S2P Require Import Prelude BTreeMap KeyCode Engine Bincode Mvcc SqlTypes SqlExpression.
From S2P Require Import SqlSchema SqlKeys SqlKv SqlStore SqlIntegrity SqlWrites.

(** What a schema must satisfy that is not checked when it is created: names are
    strings, column names are distinct, the columns that are compared as keys
    are not floats, and defaults are values of their format. *)
Record declared (t : Table) : Prop := {
  de_name : utf8_valid (t_name t) = true;
  de_columns : Forall (λ c, utf8_valid (c_name c) = true) (t_columns t);
  de_distinct : NoDup (c_name <$> t_columns t);
  de_types : Forall (λ c, key_like c → c_datatype c ≠ TFloat) (t_columns t);
  de_refs : Forall (λ c, ∀ n, c_references c = Some n → utf8_valid n = true) (t_columns t);
  de_defaults : Forall (λ c, ∀ v, c_default c = Some v → value_valid v) (t_columns t)
}.

(** The table a column refers to: itself or a stored one. *)
Definition reference_target (s : Store) (t : Table) (r : bytes) : option Table :=
  if decide (r = t_name t) then Some t else tables s r.

Definition column_fits (s : Store) (t : Table) (c : SqlSchema.Column) : Prop :=
  (c_primary_key c = true → c_nullable c = false) ∧ (c_primary_key c = true → c_unique c = true) ∧
  validate_default c = Ok tt ∧
  ∀ r, c_references c = Some r → ∃ target pk, reference_target s t r = Some target ∧
    get_primary_key target = Ok pk ∧ c_datatype c = c_datatype pk.

Definition schema_fits (s : Store) (t : Table) : Prop :=
  length (List.filter c_primary_key (t_columns t)) = 1%nat ∧ Forall (column_fits s t) (t_columns t).

Lemma primary_key_total t : length (List.filter c_primary_key (t_columns t)) = 1%nat →
  ∃ c, get_primary_key t = Ok c.
Proof.
  intros Hone. unfold get_primary_key. destruct (List.find c_primary_key (t_columns t)) as [c|] eqn:E;
    [by exists c|]. exfalso.
  destruct (List.filter c_primary_key (t_columns t)) as [|c l] eqn:Ef; [done|].
  assert (c ∈ List.filter c_primary_key (t_columns t)) as [Hin Hpk]%elem_of_filter_bool
    by (rewrite Ef; apply list_elem_of_here).
  apply list_elem_of_In in Hin. by rewrite (List.find_none _ _ E c Hin) in Hpk.
Qed.

Section catalog.
Context {T : Type} `{KvLaws T}.
Context `{Libm, Regex}.
Context `{BincodeLaws (list Value), BincodeLaws Table}.
Implicit Types (x : T) (s : Store).

Lemma validate_default_decides c : decides (validate_default c) (validate_default c = Ok tt).
Proof.
  assert (validate_default c = Ok tt ∨ ∃ msg, validate_default c = Err (EValue msg)) as [->|[msg ->]];
    [|by left|right; by exists msg].
  unfold validate_default, value_error. repeat case_match; eauto.
Qed.

Lemma validate_reference_target s t c r : relational s → declared t →
  length (List.filter c_primary_key (t_columns t)) = 1%nat → c_references c = Some r →
  utf8_valid r = true →
  checks (T:=T)
    (target ← (if decide (r = t_name t) then mret t
               else o ← tx_read_table r;
                    lift (ok_or o (value_error "Table {} referenced by column {} does not exist"
                                     [FBytes r; FBytes (c_name c)])));
     pk ← lift (get_primary_key target);
     if decide (c_datatype c = c_datatype pk) then mret tt
     else lift (value_error "Can't reference {} primary key of table {} from {} column {}"
            [show_type (c_datatype pk); FBytes (t_name target);
             show_type (c_datatype c); FBytes (c_name c)])) s
    (∃ target pk, reference_target s t r = Some target ∧ get_primary_key target = Ok pk ∧
       c_datatype c = c_datatype pk).
Proof.
  intros Hs Hd Hone Hr Hu. unfold reference_target.
  assert (∀ target, reference_target s t r = Some target → ∃ pk, get_primary_key target = Ok pk) as Hpk.
  { intros target. unfold reference_target. case_decide.
    - intros [= <-]. by apply primary_key_total.
    - intros Htg. apply primary_key_total. by destruct (rel_table s Hs r target Htg) as [_ []]. }
  unfold reference_target in Hpk. case_decide as Hself.
  - destruct (Hpk t eq_refl) as [pk Hk]. eapply checks_read; [done|].
    eapply checks_read; [intros; unfold lift; by rewrite Hk|]. case_decide as Hty.
    + intros x Hx. left. split; [done|]. by exists t, pk.
    + apply checks_lift. right. eexists. split; [done|].
      intros (target & pk' & [= <-] & Hk' & ?). congruence.
  - intros x Hx. cbn [tx_read_table kv_reader].
    destruct (tables s r) as [target|] eqn:Htg.
    + destruct (Hpk target eq_refl) as [pk Hk].
      erewrite M_bind_Ok.
      2:{ erewrite M_bind_Ok by (by apply (read_table_sees x s)). by rewrite Htg. }
      erewrite M_bind_Ok by (unfold lift; by rewrite Hk). case_decide as Hty.
      * left. split; [done|]. by exists target, pk.
      * right. eexists. split; [done|]. intros (target' & pk' & [= <-] & Hk' & ?). congruence.
    + right. eexists. split; [|by intros (? & ? & ? & _)].
      unfold mbind at 1, M_bind at 1. erewrite M_bind_Ok by (by apply (read_table_sees x s)).
      by rewrite Htg.
Qed.

Lemma validate_column_checks s t c : relational s → declared t →
  length (List.filter c_primary_key (t_columns t)) = 1%nat → c ∈ t_columns t →
  checks (T:=T) (validate_column c t) s (column_fits s t c).
Proof.
  intros Hs Hd Hone Hc. unfold validate_column, column_fits.
  destruct (c_primary_key c && c_nullable c) eqn:E1.
  { apply andb_true_iff in E1 as [Hp Hnl]. apply checks_lift. right. eexists. split; [done|].
    intros (H1' & _). rewrite H1' in Hnl by done. done. }
  destruct (c_primary_key c && negb (c_unique c)) eqn:E2.
  { apply andb_true_iff in E2 as [Hp Hu]. apply checks_lift. right. eexists. split; [done|].
    intros (_ & H2' & _). rewrite H2' in Hu by done. done. }
  eapply checks_iff; [|apply checks_bind].
  2:{ apply checks_lift, validate_default_decides. }
  2:{ intros _. instantiate (1 := ∀ r, c_references c = Some r → ∃ target pk,
        reference_target s t r = Some target ∧ get_primary_key target = Ok pk ∧
        c_datatype c = c_datatype pk).
      destruct (c_references c) as [r|] eqn:Er.
      - eapply checks_iff; [|apply validate_reference_target; [done..|]].
        + split; [by intros ? ? [= <-]|intros Hr; by apply Hr].
        + pose proof (de_refs t Hd) as Hrefs. rewrite Forall_forall in Hrefs. by apply (Hrefs c Hc).
      - intros x Hx. left. split; [done|]. by intros r [=]. }
  assert (c_primary_key c = true → c_nullable c = false) by (intros Hp; by rewrite Hp in E1).
  assert (c_primary_key c = true → c_unique c = true)
    by (intros Hp; rewrite Hp in E2; by destruct (c_unique c)).
  tauto.
Qed.

Lemma validate_checks s t : relational s → declared t →
  checks (T:=T) (validate t) s (schema_fits s t).
Proof.
  intros Hs Hd. unfold validate, schema_fits. case_decide as Hnil.
  { apply checks_lift. right. eexists. split; [done|]. rewrite Hnil. by intros [? _]. }
  apply checks_bind.
  - apply checks_lift. destruct (length _) as [|[|k]]; [right|by left|right]; eexists; by split.
  - intros Hone. apply checks_for_each. intros c Hc. by apply validate_column_checks.
Qed.

(** ** Create *)

Lemma create_table_runs s t : integrity s → declared t →
  runs (create_table t) s
    (λ _ s', s' = with_table s (t_name t) (Some t) ∧ tables s (t_name t) = None ∧
       schema_fits s t ∧ integrity s')
    (λ e s', s' = s ∧ (refused e ∨
       (∃ msg, e = EValue msg) ∧ (is_Some (tables s (t_name t)) ∨ ¬ schema_fits s t))).
Proof.
  intros [Hs [Hnd Hix]] Hd. unfold create_table. apply runs_bind.
  eapply runs_read; [intros x Hx; apply (read_table_sees x s _ Hx), (de_name t Hd)|]. cbn beta iota.
  destruct (tables s (t_name t)) as [t'|] eqn:Ht.
  { apply runs_lift. cbn. eauto 10. }
  apply runs_bind. eapply checks_runs; [by apply validate_checks| |eauto 10].
  intros Hfit. apply set_table_runs; [apply (de_name t Hd)| |by eauto].
  split; [done|]. split; [done|]. split; [done|].
  pose proof Hfit as [Hone Hcols]. rewrite Forall_forall in Hcols.
  assert (∀ id row, rows s (t_name t) id ≠ Some row) as Hempty.
  { intros id row (t' & Ht' & _)%(rel_row s Hs). congruence. }
  split; [split|split].
  - intros n t'. cbn. case_decide as Hn; [|apply Hs]. intros [= <-]. split; [done|].
    split; [apply Hd..|done| |apply Hd|apply Hd|apply Hd]. apply Forall_forall. intros c Hc.
    by apply Hcols.
  - intros n t' c r. cbn. destruct (decide (n = t_name t)) as [->|Hn].
    + intros [= <-] Hc Hr. destruct (Hcols c Hc) as (_ & _ & _ & Href).
      destruct (Href r Hr) as (target & pk & Htg & _). unfold reference_target in Htg.
      case_decide; eauto.
    + intros Ht' Hc Hr. case_decide; [by eauto|]. by eapply rel_target.
  - intros n id row Hrow. cbn in *. destruct (rel_row s Hs n id row Hrow) as (t' & Ht' & Hf).
    exists t'. rewrite decide_False; [done|]. intros ->. congruence.
  - done.
  - intros n c v id. cbn [index with_table]. rewrite Hix. cbn [tables rows with_table].
    split; intros (t' & i & col & row & Ht' & Hic & Hname & Hrow & Hv); exists t', i, col, row.
    + rewrite decide_False; [done|]. intros ->. congruence.
    + case_decide as Hn; [|done]. subst. by apply Hempty in Hrow.
Qed.

(** ** Drop *)

Lemma delete_rows_runs s t (l : list (Value * Row)) : integrity s → utf8_valid (t_name t) = true →
  (∀ id row, (id, row) ∈ l →
     get_row_key t row = Ok id ∧ plain id ∧ id ≠ Null ∧ value_valid id) →
  runs (delete_rows t (Ok <$> l.*2)) s
    (λ _ s', integrity s' ∧ (∀ n, tables s' n = tables s n) ∧
       ∀ n id, rows s' n id = if decide (n = t_name t ∧ id ∈ l.*1) then None else rows s n id)
    (λ e s', refused e ∨ (∃ msg, e = EValue msg) ∧ integrity s').
Proof.
  intros Hint Hu. revert s Hint. induction l as [|[id row] l IH]; intros s Hint Hl.
  - apply runs_ret. split; [done|]. split; [done|]. intros n id. rewrite decide_False; [done|].
    by intros [_ ?%not_elem_of_nil].
  - destruct (Hl id row) as (Hkey & Hp & Hnull & Hv); [apply list_elem_of_here|].
    cbn [fmap list_fmap snd delete_rows].
    apply runs_bind, runs_lift. cbn beta iota. apply runs_bind, runs_lift. rewrite Hkey. cbn beta iota.
    apply runs_bind. eapply runs_mono; [by apply delete_runs| |].
    + intros [] s1 (_ & _ & [HT1 HR1] & Hint1). eapply runs_mono; [apply IH; [done|]| |done].
      * intros id' row' Hin. by apply Hl, list_elem_of_further.
      * intros [] s2 (Hint2 & HT2 & HR2). split; [done|]. split.
        -- intros n. by rewrite HT2, HT1.
        -- intros n k. rewrite HR2, HR1, rows_put. cbn [fst].
           repeat case_decide; rewrite ?elem_of_cons in *; naive_solver.
    + intros e s1 [?|(msg & -> & -> & _)]; [by left|right; eauto].
Qed.

Lemma delete_table_runs' s n : integrity s → utf8_valid n = true →
  runs (delete_table n) s
    (λ _ s', integrity s' ∧ (∀ m, tables s' m = if decide (m = n) then None else tables s m) ∧
       (∀ m id, rows s' m id = if decide (m = n) then None else rows s m id) ∧
       ∀ m t c, tables s m = Some t → m ≠ n → c ∈ t_columns t → c_references c ≠ Some n)
    (λ e s', refused e ∨ (∃ msg, e = EValue msg) ∧ integrity s').
Proof.
  intros Hint Hn. pose proof Hint as [Hs _]. unfold delete_table.
  apply runs_bind, must_read_runs; [done|]. destruct (tables s n) as [t|] eqn:Ht; [|by eauto].
  destruct (rel_table s Hs n t Ht) as [Htn Hok]. rewrite Htn.
  intros x Hx. destruct (table_references_sees x s n false Hx Hs) as (refs & Hrefs & Hin).
  erewrite M_bind_Ok by exact Hrefs. destruct refs as [|[r cs] refs].
  2:{ destruct (proj1 (Hin r cs)) as (t' & _ & _ & _ & Hne); [apply list_elem_of_here|].
      destruct cs; [done|]. exists s. split; [done|]. right. eauto. }
  destruct (scan_all_sees x s n t Hx Hs Ht) as (l & [_ Hl] & Hscan).
  erewrite M_bind_Ok by exact Hscan. revert x Hx Hrefs Hscan. intros x Hx _ _.
  cut (runs (delete_rows t (Ok <$> l.*2) ≫= λ _, key ← lift (encode (KTable n)); kv_delete key) s
    (λ _ s', integrity s' ∧ (∀ m, tables s' m = if decide (m = n) then None else tables s m) ∧
       (∀ m id, rows s' m id = if decide (m = n) then None else rows s m id) ∧
       ∀ m t c, tables s m = Some t → m ≠ n → c ∈ t_columns t → c_references c ≠ Some n)
    (λ e s', refused e ∨ (∃ msg, e = EValue msg) ∧ integrity s')); [intros Hc; by apply Hc|].
  assert (∀ m t' c, tables s m = Some t' → m ≠ n → c ∈ t_columns t' → c_references c ≠ Some n) as Hnone.
  { intros m t' c Hm Hne Hc Hr. apply (not_elem_of_nil (m, references_of n t')). apply Hin.
    exists t'. split; [done|]. split; [by right|]. split; [done|]. intros Hnil.
    apply (not_elem_of_nil (c_name c)). rewrite <-Hnil. apply elem_of_references.
    apply list_elem_of_lookup in Hc as [i Hi]. eauto. }
  apply runs_bind. eapply runs_mono; [apply delete_rows_runs; [done|by apply ok_name|]| |done].
  { intros id row Hin'%Hl.
    destruct (stored_row s n id row Hs Hin') as (t' & Ht' & _ & _ & (_ & Hk & _) & ? & ? & ?).
    assert (t' = t) as -> by congruence. done. }
  intros [] s1 ([Hs1 [Hnd1 Hix1]] & HT1 & HR1). apply delete_table_runs; [done| |by left].
  assert (∀ id, rows s1 n id = None) as Hgone.
  { intros id. rewrite HR1. case_decide as Hd; [done|]. destruct (rows s n id) as [row|] eqn:Hrow; [|done].
    exfalso. apply Hd. split; [done|]. apply list_elem_of_fmap. exists (id, row). split; [done|].
    by apply Hl. }
  split; [split; [split|split]|split; [|split]].
  - intros m t'. cbn. case_decide; [done|]. apply Hs1.
  - intros m t' c r. cbn. case_decide; [done|]. intros Hm Hc Hr. case_decide as Hrn.
    + subst. rewrite HT1 in Hm. by destruct (Hnone m t' c).
    + by eapply rel_target.
  - intros m id row Hrow. cbn in *. destruct (rel_row s1 Hs1 m id row Hrow) as (t' & Ht' & Hf).
    exists t'. rewrite decide_False; [done|]. intros ->. congruence.
  - done.
  - intros m c v id. cbn [index with_table]. rewrite Hix1. cbn [tables rows with_table].
    split; intros (t' & i & col & row & Ht' & Hic & Hname & Hrow & Hv); exists t', i, col, row.
    + rewrite decide_False; [done|]. intros ->. congruence.
    + by case_decide.
  - intros m. cbn. case_decide; [done|]. apply HT1.
  - intros m id. cbn. case_decide as Hm; [by subst|]. rewrite HR1, decide_False; [done|]. naive_solver.
  - done.
Qed.
(** ** Index entries *)

Lemma find_column t i col : table_ok t → t_columns t !! i = Some col →
  get_column t (c_name col) = Ok col.
Proof.
  intros Hok Hi. unfold get_column.
  destruct (List.find _ (t_columns t)) as [c'|] eqn:E.
  - apply List.find_some in E as [Hin Hn%bool_decide_eq_true]. cbn. f_equal.
    apply list_elem_of_In, list_elem_of_lookup in Hin as [j Hj].
    assert (i = j) as <-; [|congruence].
    eapply NoDup_lookup; [by apply ok_distinct|..]; rewrite list_lookup_fmap_Some; eauto.
  - exfalso. assert (In col (t_columns t)) as Hin by (by eapply list_elem_of_In, list_elem_of_lookup_2).
    apply (List.find_none _ _ E) in Hin. by apply bool_decide_eq_false in Hin.
Qed.

Lemma read_index_sees x s n t i col v : sees x s → relational s → tables s n = Some t →
  t_columns t !! i = Some col → c_index col = true → value_valid v →
  read_index n (c_name col) v x = (Ok (index s n (c_name col) v), x).
Proof.
  intros Hx Hs Ht Hc Hidx Hv. destruct (rel_table s Hs n t Ht) as [<- Hok]. unfold read_index.
  assert (must_read_table (t_name t) x = (Ok t, x)) as Hm.
  { change (must_read_table (t_name t) x) with (must_read (t_name t) x).
    rewrite (must_read_sees x s) by (done || by apply ok_name). by rewrite Ht. }
  erewrite M_bind_Ok by exact Hm.
  erewrite M_bind_Ok by (unfold lift; by rewrite (find_column t i col Hok Hc)).
  rewrite Hidx. apply index_load_sees; [done|by apply ok_name| |done].
  exact (Forall_lookup_1 _ _ _ _ (ok_columns t Hok) Hc).
Qed.

(** The rows of an index entry. *)
Lemma index_rows s n t i col v id : integrity s → tables s n = Some t →
  t_columns t !! i = Some col → c_index col = true →
  id ∈ index s n (c_name col) v ↔ ∃ row, rows s n id = Some row ∧ row !! i = Some v.
Proof.
  intros [Hs Hix] Ht Hc Hidx. destruct (rel_table s Hs n t Ht) as [_ Hok].
  rewrite (proj2 Hix). split.
  - intros (t' & j & col' & row & Ht' & [Hj _]%elem_of_indexes & Hn & Hrow & Hval).
    assert (t' = t) as -> by congruence. exists row. split; [done|].
    assert (i = j) as ->; [|done].
    eapply NoDup_lookup; [by apply ok_distinct|..]; rewrite list_lookup_fmap_Some; eauto.
  - intros (row & Hrow & Hval). exists t, i, col, row. rewrite elem_of_indexes. done.
Qed.
End catalog.
