(* ===== verification/SqlMvcc.v ===== *)
(** MVCC transactions implement the key/value interface of the SQL engine: a
    transaction sees a map, its writes change it or are refused, and commit and
    rollback end it. *)
From Stdlib Require Import Strings.Byte NArith ZArith Lia Sorting.Sorted.
From stdpp Require Import base list gmap strings.
From S2P Require Import Prelude BTreeMap KeyCode Engine Bincode Mvcc MvccKeys MvccDb MvccOps.
From S2P Require Import MvccInv MvccScan MvccSI SqlTypes SqlKv SqlStore.

Open Scope N_scope.

Section mvcc.
Context {E : Type} `{EngineLaws E}.
Context `{BincodeLaws N, BincodeLaws (gset N), BincodeLaws (option bytes)}.
Implicit Types (e : E) (d : Db) (st : TransactionState).

(** The handle of a transaction that is still open, or of a read-only one. *)
Definition open_handle d st : Prop :=
  version st ≤ u64_max ∧
  (read_only st = true ∨ version st ∈ active_set d ∧ st = rw_state d (version st)).

(** The map a transaction sees in the engine.  [P] is what is known of the rest
    of the store; the transaction's writes preserve it. *)
Definition txn_rep (P : Db → Prop) st e (m : gmap bytes bytes) : Prop :=
  ∃ d, eng_inv e ∧ rep (eng_view e) d ∧ db_inv d ∧ open_handle d st ∧ P d ∧
    ∀ key, reads d (is_visible st) key (m !! key).

Definition kept (P : Db → Prop) st : Prop :=
  read_only st = false → ∀ d key value, version st ∈ active_set d → P d → P (db_write d (version st) key value).

Lemma reads_own_write d st key value : db_inv d → st = rw_state d (version st) →
  reads (db_write d (version st) key value) (is_visible st) key value.
Proof.
  intros Hd Hst. left. exists (version st). unfold latest. cbn [versions db_write]. rewrite lookup_insert_eq.
  split; [done|]. split; [|intros w ow _ Hw; by apply is_visible_le].
  unfold is_visible. rewrite Hst. cbn. rewrite decide_False; [by apply N.leb_refl|].
  intros Hin. apply (inv_snap_lt d Hd) in Hin. cbn in Hin. lia.
Qed.

Lemma reads_other_write d st vis key key' value r : key' ≠ key → reads d vis key' r →
  reads (db_write d (version st) key value) vis key' r.
Proof.
  intros Hne. apply reads_ext. intros w ov. cbn [versions db_write]. rewrite lookup_insert_ne; [done|congruence].
Qed.

Lemma write_txn_rep P st e m key value :
  (∀ k v, eng_writable (E:=E) k v) → kept P st → txn_rep P st e m →
  (∃ e', write_version st key value e = (Ok tt, e') ∧
     txn_rep P st e' (partial_alter (λ _, value) key m)) ∨
  (∃ err, write_version st key value e = (Err err, e) ∧ refused err).
Proof.
  intros Hunl HP (d & He & Hr & Hd & (Hv & Hopen) & Hd0 & Hreads).
  destruct (read_only st) eqn:Hro.
  { right. exists EReadOnly. split; [by apply write_read_only|by right]. }
  destruct Hopen as [?|[Hact Hst]]; [done|].
  pose proof (inv_width d Hd) as Hw. pose proof Hw as (Hn & Ha & _).
  assert (state_in_width st) as Hsw.
  { split; [apply Ha in Hact; lia|]. rewrite Hst. cbn. intros w Hin. by apply (inv_snap_lt d Hd). }
  destruct (write_version_rep e d st key value He Hr Hw Hro Hsw) as [[_ Hf]|(Hnb & e' & Hok & He' & Hr')];
    [split; apply Hunl|right|left].
  - exists ESerialization. split; [done|by left].
  - exists e'. split; [done|]. exists (db_write d (version st) key value).
    split; [done|]. split; [done|]. rewrite Hst in Hnb.
    split; [by apply db_write_inv|]. split; [by split; [|right]|].
    split; [by apply HP|]. intros key'.
    destruct (decide (key' = key)) as [->|Hne].
    + rewrite lookup_partial_alter_eq. by apply reads_own_write.
    + rewrite lookup_partial_alter_ne by done. by apply reads_other_write.
Qed.

(** Collecting the items of an iterator that yields no error. *)
Lemma scan_items_ok fuel st it kvs : collect_loop fuel (try_next st) it = Ok kvs →
  scan_items fuel st it = Ok (List.map Ok kvs).
Proof.
  revert it kvs. induction fuel as [|fuel IH]; intros it kvs; [done|]. cbn [collect_loop scan_items].
  destruct (try_next st it) as [[[kv|]|err|w] it']; try done.
  - intros (kvs' & Hc & [= <-])%res_bind_Ok_inv. by rewrite (IH it' kvs' Hc).
  - by intros [= <-].
Qed.

(** The interface, over an engine without a size limit. *)
Definition mvcc_laws (Hunl : ∀ k v, eng_writable (E:=E) k v) P st (HP : kept P st)
  : @KvLaws E (mvcc_store st).
Proof.
  refine {| kv_rep := txn_rep P st |}; cbn [kv_get kv_set kv_delete kv_scan_prefix mvcc_store].
  - intros e m k (d & He & Hr & Hd & (Hv & _) & _ & Hreads).
    destruct (get_rep e d st k He Hr (inv_width d Hd) Hv) as (r & Hget & Hrd).
    by rewrite Hget, (reads_fun _ _ _ _ _ Hrd (Hreads k)).
  - intros e m k v. by apply (write_txn_rep P st e m k (Some v)).
  - intros e m k. by apply (write_txn_rep P st e m k None).
  - intros e m p (d & He & Hr & Hd & (Hv & _) & _ & Hreads).
    destruct (txn_scan_prefix_rep e d st p He Hr (inv_width d Hd))
      as (it & kvs & Hscan & Hvec & _ & Hsorted & Hin).
    exists kvs. split; [|split; [done|]].
    + erewrite M_bind_Ok by exact Hscan. unfold lift. f_equal. by apply scan_items_ok.
    + intros k v. rewrite Hin, in_prefix_range. split; intros [Hp Hk]; (split; [done|]).
      * by apply (reads_fun _ _ _ _ _ (Hreads k)).
      * by rewrite <-Hk.
Defined.

(** * Transactions from begin to end *)

(** What the next transaction reads; [n] is the next version. *)
Definition database (n : N) e (m : gmap bytes bytes) : Prop :=
  ∃ d, eng_inv e ∧ rep (eng_view e) d ∧ db_inv d ∧ next_version d = n ∧
    ∀ key, reads d (MvccSI.committed d) key (m !! key).

(** No other transaction began or ended since this one began, on the database
    [m0]. *)
Definition solo st (m0 : gmap bytes bytes) (d : Db) : Prop :=
  next_version d = version st + 1 ∧ active_set d ∖ {[version st]} = active st ∧
  ∀ key, reads d (MvccSI.committed d) key (m0 !! key).

Lemma solo_kept st m0 : kept (solo st m0) st.
Proof.
  intros _ d key value Hact (Hn & Ha & Hreads). split; [done|]. split; [done|]. intros k.
  apply (reads_unseen (version st) d); [apply same_but_write|..|apply Hreads].
  unfold MvccSI.committed. apply bool_decide_eq_false. by intros Hno.
Qed.

Lemma begin_txn n e m : (∀ k v, eng_writable (E:=E) k v) → n < u64_max → database n e m →
  ∃ st e', begin e = (Ok st, e') ∧ read_only st = false ∧ version st = n ∧
    txn_rep (solo st m) st e' m.
Proof.
  intros Hunl Hlt (d & He & Hr & Hd & Hn & Hreads). pose proof (inv_width d Hd) as Hw.
  pose proof Hw as (_ & Ha & _ & Hv & _). rewrite <-Hn in Hlt.
  destruct (begin_rep e d He Hr Hw Hlt) as (e' & Hb & He' & Hr'); [by split; [|split]; intros; apply Hunl|].
  eexists _, e'. split; [exact Hb|]. split; [done|]. split; [done|].
  exists (db_begin d). split; [done|]. split; [done|]. split; [by apply db_begin_inv|].
  assert (∀ key w ow, versions d !! (key, w) = Some ow →
    w ∉ active_set (db_begin d) ↔ w ∉ active_set d) as Hact.
  { intros key w ow Hget%Hv. cbn. set_solver by lia. }
  split; [|split].
  - split; cbn; [lia|]. right. split; [set_solver|]. unfold rw_state.
    by rewrite snapshot_begin, decide_True.
  - split; [done|]. split; [cbn; apply set_eq; intros w; specialize (Ha w); set_solver by lia|].
    intros key. generalize (Hreads key). apply reads_ext. intros w ow. unfold MvccSI.committed.
    rewrite !bool_decide_eq_true. change (versions (db_begin d)) with (versions d).
    split; intros [Hget Hc]; (split; [done|]); by eapply Hact.
  - intros key. generalize (Hreads key). apply reads_ext. intros w ow. unfold MvccSI.committed.
    change (versions (db_begin d)) with (versions d). rewrite bool_decide_eq_true.
    unfold is_visible. cbn. split.
    + intros [Hget Hc]. split; [done|]. rewrite decide_False by done. apply N.leb_le.
      apply Hv in Hget. lia.
    + case_decide; [by intros [_ ?]|naive_solver].
Qed.

(** The transaction that is left open changes nothing for others. *)
Lemma open_txn_database st e m0 m : txn_rep (solo st m0) st e m → database (version st + 1) e m0.
Proof.
  intros (d & He & Hr & Hd & _ & (Hn & _ & Hreads) & _). by exists d.
Qed.

Lemma commit_txn st e m0 m : read_only st = false → txn_rep (solo st m0) st e m →
  ∃ e', commit st e = (Ok tt, e') ∧ database (version st + 1) e' m.
Proof.
  intros Hro (d & He & Hr & Hd & (Hv & Hopen) & (Hn & Ha & _) & Hreads).
  destruct Hopen as [?|[Hact Hst]]; [congruence|].
  destruct (commit_rep e d st He Hr Hro Hv Hact) as (e' & Hc & He' & Hr').
  exists e'. split; [done|]. exists (db_commit d (version st)). split; [done|]. split; [done|].
  split; [by apply db_commit_inv|]. split; [done|]. intros key.
  generalize (Hreads key). apply reads_ext. intros w ow. unfold MvccSI.committed.
  cbn [versions active_set db_commit]. rewrite Ha, bool_decide_eq_true. unfold is_visible.
  rewrite Hro. destruct (inv_width d Hd) as (_ & _ & _ & Hw & _). split.
  - intros [Hget Hvis]. split; [done|]. by case_decide.
  - intros [Hget Hvis]. split; [done|]. rewrite decide_False by done. apply N.leb_le.
    apply Hw in Hget. lia.
Qed.

Lemma rollback_txn st e m0 m : read_only st = false → txn_rep (solo st m0) st e m →
  ∃ e', rollback st e = (Ok tt, e') ∧ database (version st + 1) e' m0.
Proof.
  intros Hro (d & He & Hr & Hd & (Hv & Hopen) & (Hn & Ha & Hreads) & _).
  destruct Hopen as [?|[Hact Hst]]; [congruence|].
  destruct (rollback_rep e d st He Hr Hro Hv Hact) as (e' & Hc & He' & Hr').
  { intros key Hin. by apply (inv_writes d Hd) in Hin as [_ ?]. }
  exists e'. split; [done|]. exists (db_rollback d (version st)). split; [done|]. split; [done|].
  split; [by apply db_rollback_inv|]. split; [done|]. intros key.
  generalize (Hreads key). apply reads_ext. intros w ow. unfold MvccSI.committed.
  rewrite !bool_decide_eq_true, db_rollback_lookup. cbn [active_set db_rollback].
  destruct (decide (w = version st)) as [->|Hne]; [|set_solver].
  pose proof (inv_writes d Hd (version st) key) as Hw. split; [naive_solver|].
  intros [[Hget Hno] _]. exfalso. apply Hno. split; [done|]. apply Hw. eauto.
Qed.

(** A read-only transaction. *)
Lemma begin_ro_txn n e m : database n e m →
  ∃ st, begin_read_only None e = (Ok st, e) ∧ read_only st = true ∧
    txn_rep (λ d, next_version d = n ∧ ∀ key, reads d (MvccSI.committed d) key (m !! key)) st e m.
Proof.
  intros (d & He & Hr & Hd & Hn & Hreads). pose proof (inv_width d Hd) as Hw.
  eexists. split; [by apply begin_read_only_rep|]. split; [done|]. exists d.
  split; [done|]. split; [done|]. split; [done|]. split; [|split; [done|]].
  - split; [|by left]. cbn. destruct Hw as ((_ & ?) & _). done.
  - intros key. generalize (Hreads key). apply reads_ext. intros w ow. unfold MvccSI.committed.
    rewrite bool_decide_eq_true, ro_visible by done. cbn.
    destruct Hw as (_ & _ & _ & Hlt & _). split; [|naive_solver].
    intros [Hget Hc]. split; [done|]. split; [by eapply Hlt|done].
Qed.

Lemma empty_database e : eng_inv e → eng_view e = [] → database 1 e ∅.
Proof.
  intros He Hv. exists empty_db. split; [done|]. split.
  - rewrite Hv. split; [constructor|]. split; [by intros kb vb ?%not_elem_of_nil|]. by intros [].
  - split; [apply empty_db_inv|]. split; [done|]. intros key. rewrite lookup_empty. apply empty_reads.
Qed.
End mvcc.
