(* ===== verification/SqlPlan.v ===== *)
(** Query plans (src/src/sql/plan/mod.rs) and the plan optimizers
    (src/src/sql/plan/optimizer.rs).

    [Node::transform] calls closures that can fail and, in the index lookup
    optimizer, read the catalog: it is a computation.  Its recursion is not
    structural, since a closure may return any node, and takes fuel: the depth
    of the plan is enough for the optimizers, whose closures do not make the plan
    deeper (SqlPlanFuel). *)
From Stdlib Require Import Strings.Byte NArith ZArith Lia.
From stdpp Require Import base list strings.
From S2P Require Import Prelude KeyCode Engine SqlTypes SqlExpression SqlSchema.

Open Scope N_scope.

(** * Plans *)

Inductive Aggregate := Average | Count | Max | Min | Sum.
Inductive Direction := Ascending | Descending.

#[export] Instance Aggregate_eq_dec : EqDecision Aggregate.
Proof. solve_decision. Defined.
#[export] Instance Direction_eq_dec : EqDecision Direction.
Proof. solve_decision. Defined.

Inductive Node :=
| Aggregation (source : Node) (aggregates : list Aggregate)
| CreateTable (schema : Table)
| Delete (table : bytes) (source : Node)
| DropTable (table : bytes) (if_exists : bool)
| Filter (source : Node) (predicate : Expression)
| HashJoin (left : Node) (left_field : N * Label) (right : Node) (right_field : N * Label)
    (outer : bool)
| IndexLookup (table : bytes) (alias : option bytes) (column : bytes) (values : list Value)
| Insert (table : bytes) (columns : list bytes) (expressions : list (list Expression))
| KeyLookup (table : bytes) (alias : option bytes) (keys : list Value)
| Limit (source : Node) (limit : N)
| NestedLoopJoin (left : Node) (left_size : N) (right : Node) (predicate : option Expression)
    (outer : bool)
| Nothing
| Offset (source : Node) (offset : N)
| Order (source : Node) (orders : list (Expression * Direction))
| Projection (source : Node) (expressions : list (Expression * option bytes))
| Scan (table : bytes) (alias : option bytes) (filter : option Expression)
| Update (table : bytes) (source : Node) (expressions : list (N * option bytes * Expression)).

(** The depth of a plan. *)
Fixpoint depth (n : Node) : nat :=
  match n with
  | Aggregation s _ | Delete _ s | Filter s _ | Limit s _ | Offset s _ | Order s _
  | Projection s _ | Update _ s _ => 1 + depth s
  | HashJoin l _ r _ _ | NestedLoopJoin l _ r _ _ => 1 + Nat.max (depth l) (depth r)
  | _ => 1
  end.

(** ** Transformations *)

Section transform.
Context {S : Type}.

(** What [transform] does below a node. *)
Definition map_sources (f : Node → M S Node) (n : Node) : M S Node :=
  match n with
  | CreateTable _ | DropTable _ _ | IndexLookup _ _ _ _ | Insert _ _ _ | KeyLookup _ _ _
  | Nothing | Scan _ _ _ => mret n
  | Aggregation s a => s ← f s; mret (Aggregation s a)
  | Delete t s => s ← f s; mret (Delete t s)
  | Filter s p => s ← f s; mret (Filter s p)
  | HashJoin l lf r rf o => l ← f l; r ← f r; mret (HashJoin l lf r rf o)
  | Limit s k => s ← f s; mret (Limit s k)
  | NestedLoopJoin l k r p o => l ← f l; r ← f r; mret (NestedLoopJoin l k r p o)
  | Offset s k => s ← f s; mret (Offset s k)
  | Order s os => s ← f s; mret (Order s os)
  | Projection s es => s ← f s; mret (Projection s es)
  | Update t s es => s ← f s; mret (Update t s es)
  end.

(** [Node::transform]. *)
Fixpoint transform_node (fuel : nat) (before after : Node → M S Node) (n : Node) : M S Node :=
  match fuel with
  | O => lift (Panic "transform: out of fuel")
  | Datatypes.S fuel =>
      n ← before n;
      n ← map_sources (transform_node fuel before after) n;
      after n
  end.
End transform.

(** [Node::transform_expressions], where [f] is what [Expression::transform]
    does with the two closures. *)
Definition transform_expressions (f : Expression → res Expression) (n : Node) : res Node :=
  match n with
  | Filter s p => p ← f p; Ok (Filter s p)
  | Insert t cs ess => ess ← collect ((λ es, collect (f <$> es)) <$> ess); Ok (Insert t cs ess)
  | Order s os => os ← collect ((λ '(e, o), e ← f e; Ok (e, o)) <$> os); Ok (Order s os)
  | NestedLoopJoin l k r (Some p) o => p ← f p; Ok (NestedLoopJoin l k r (Some p) o)
  | Projection s es =>
      es ← collect ((λ '(e, l), e ← f e; Ok (e, l)) <$> es); Ok (Projection s es)
  | Scan t a (Some p) => p ← f p; Ok (Scan t a (Some p))
  | Update t s es =>
      es ← collect ((λ '(i, l, e), e ← f e; Ok (i, l, e)) <$> es); Ok (Update t s es)
  | n => Ok n
  end.

(** * Constant folding *)

Section constant_folder.
Context {S : Type} `{Libm, Regex}.

Definition constant_folder (n : Node) : M S Node :=
  transform_node (depth n) mret (λ n, lift (transform_expressions fold_constants n)) n.
End constant_folder.

(** * Filter pushdown *)

(** [FilterPushdown::pushdown]: what remains of the expression, and the target
    with the rest. *)
Definition pushdown (e : Expression) (target : Node) : option Expression * Node :=
  match target with
  | Scan t a filter =>
      (None, Scan t a (Some match filter with Some f => And e f | None => e end))
  | NestedLoopJoin l k r predicate o =>
      (None, NestedLoopJoin l k r (Some match predicate with Some p => And e p | None => e end) o)
  | Filter s p => (None, Filter s (And p e))
  | _ => (Some e, target)
  end.

(** The closures of [pushdown_join]. *)
Definition refers_right (boundary : N) (e : Expression) : bool :=
  contains (λ e, match e with Field i _ => boundary <=? i | _ => false end) e.
Definition refers_left (boundary : N) (e : Expression) : bool :=
  contains (λ e, match e with Field i _ => i <? boundary | _ => false end) e.

Definition shift_field (boundary : N) (e : Expression) : res Expression :=
  match e with
  | Field i label => i ← sub_u64 i boundary; Ok (Field i label)
  | e => Ok e
  end.
Definition shift_left (boundary : N) (e : Expression) : res Expression :=
  transform (expr_size e) (shift_field boundary) Ok e.

(** [find_map]. *)
Fixpoint find_map {A B} (f : A → option B) (l : list A) : option B :=
  match l with
  | [] => None
  | x :: l => match f x with Some b => Some b | None => find_map f l end
  end.

(** Constant lookups on one side of an equijoin are transferred to the other. *)
Fixpoint transfer_lookups (cnf push_left push_right : list Expression)
    : res (list Expression * list Expression) :=
  match cnf with
  | [] => Ok (push_left, push_right)
  | Equal (Field i il) (Field j jl) :: cnf =>
      let '(l, ln, r, rn) := if j <? i then (j, jl, i, il) else (i, il, j, jl) in
      match find_map (λ e, as_lookup e l) push_left with
      | Some lvals =>
          e ← from_lookup r rn lvals; transfer_lookups cnf push_left (push_right ++ [e])
      | None =>
          match find_map (λ e, as_lookup e r) push_right with
          | Some rvals =>
              e ← from_lookup l ln rvals; transfer_lookups cnf (push_left ++ [e]) push_right
          | None => transfer_lookups cnf push_left push_right
          end
      end
  | _ :: cnf => transfer_lookups cnf push_left push_right
  end.

(** [FilterPushdown::pushdown_join]. *)
Definition pushdown_join (predicate : Expression) (lsrc rsrc : Node) (boundary : N)
    : res (option Expression * Node * Node) :=
  cnf ← into_cnf_vec predicate;
  let push_left := List.filter (λ e, negb (refers_right boundary e)) cnf in
  let cnf := List.filter (refers_right boundary) cnf in
  let push_right := List.filter (λ e, negb (refers_left boundary e)) cnf in
  let cnf := List.filter (refers_left boundary) cnf in
  '(push_left, push_right) ← transfer_lookups cnf push_left push_right;
  let '(cnf, lsrc) :=
    match from_cnf_vec push_left with
    | Some e =>
        match pushdown e lsrc with
        | (Some remainder, lsrc) => (cnf ++ [remainder], lsrc)
        | (None, lsrc) => (cnf, lsrc)
        end
    | None => (cnf, lsrc)
    end in
  match from_cnf_vec push_right with
  | Some e =>
      e ← shift_left boundary e;
      match pushdown e rsrc with
      | (Some remainder, rsrc) => Ok (from_cnf_vec (cnf ++ [remainder]), lsrc, rsrc)
      | (None, rsrc) => Ok (from_cnf_vec cnf, lsrc, rsrc)
      end
  | None => Ok (from_cnf_vec cnf, lsrc, rsrc)
  end.

(** The closure of [FilterPushdown::optimize]. *)
Definition push_filter (n : Node) : res Node :=
  match n with
  | Filter source predicate =>
      let '(remainder, source) := pushdown predicate source in
      Ok (Filter source (default (Constant (Boolean true)) remainder))
  | NestedLoopJoin l k r (Some predicate) o =>
      '(predicate, l, r) ← pushdown_join predicate l r k;
      Ok (NestedLoopJoin l k r predicate o)
  | n => Ok n
  end.

Definition filter_pushdown {S} (n : Node) : M S Node :=
  transform_node (depth n) (λ n, lift (push_filter n)) mret n.

(** * Index lookups *)

Section index_lookup.
Context {T : Type} `{Reader T}.

Definition wrap_cnf (n : Node) (cnf : list Expression) : Node :=
  match from_cnf_vec cnf with Some predicate => Filter n predicate | None => n end.

(** The first conjunct that is a lookup of the primary key or of an indexed
    column, with the conjuncts before it in reverse order. *)
Fixpoint find_lookup (table : bytes) (alias : option bytes) (columns : list SqlSchema.Column)
    (pk : nat) (before cnf : list Expression) : option Node :=
  match cnf with
  | [] => None
  | e :: rest =>
      match as_lookup e (N.of_nat pk) with
      | Some keys => Some (wrap_cnf (KeyLookup table alias keys) (reverse before ++ rest))
      | None =>
          match find_map (λ '(ci, c), if c_index c
                            then (λ values, (c_name c, values)) <$> as_lookup e (N.of_nat ci)
                            else None) (imap pair columns) with
          | Some (column, values) =>
              Some (wrap_cnf (IndexLookup table alias column values) (reverse before ++ rest))
          | None => find_lookup table alias columns pk (e :: before) rest
          end
      end
  end.

(** The closure of [IndexLookup::optimize]. *)
Definition use_index (n : Node) : M T Node :=
  match n with
  | Scan table alias (Some filter) =>
      t ← must_read_table table;
      pk ← lift (ok_or (position c_primary_key (t_columns t))
                   (Panic "called `Option::unwrap()` on a `None` value"));
      cnf ← lift (into_cnf_vec filter);
      mret (default n (find_lookup table alias (t_columns t) pk [] cnf))
  | n => mret n
  end.

Definition index_lookup (n : Node) : M T Node := transform_node (depth n) mret use_index n.
End index_lookup.

(** * Noops *)

(** The closure that runs while ascending. *)
Definition drop_filter (n : Node) : Node :=
  match n with
  | Filter source (Constant (Boolean true)) => source
  | n => n
  end.

Definition noop_cleaner {S} (n : Node) : M S Node :=
  transform_node (depth n) (λ n, lift (transform_expressions clean_noops n))
    (λ n, mret (drop_filter n)) n.

(** * Join types *)

(** The closure of [JoinType::optimize]. *)
Definition hash_join (n : Node) : res Node :=
  match n with
  | NestedLoopJoin l left_size r (Some (Equal (Field a al) (Field b bl))) o =>
      if a <? left_size then
        k ← sub_u64 b left_size; Ok (HashJoin l (a, al) r (k, bl) o)
      else
        k ← sub_u64 a left_size; Ok (HashJoin l (b, bl) r (k, al) o)
  | n => Ok n
  end.

Definition join_type {S} (n : Node) : M S Node :=
  transform_node (depth n) (λ n, lift (hash_join n)) mret n.

(** * [Plan::optimize] *)

Definition optimize {T} `{Reader T, Libm, Regex} (root : Node) : M T Node :=
  root ← constant_folder root;
  root ← filter_pushdown root;
  root ← index_lookup root;
  root ← noop_cleaner root;
  join_type root.
