(* ===== verification/SqlExec.v ===== *)
(** Plan execution (src/src/sql/execution): one definition per executor, over
    any transaction.

    An iterator of rows is the list of the items it yields.  The items are
    computed on demand, so an error or a panic in an item is met only when the
    item is taken.  An iterator may also never end, repeating an error:
    [forever] is that error. *)
From Stdlib Require Import Strings.Byte NArith ZArith Lia Floats.SpecFloat.
From stdpp Require Import base list gmap strings.
From S2P Require Import Prelude KeyCode Engine SqlTypes SqlExpression SqlSchema SqlKv SqlPlan.

Open Scope N_scope.

(** * Result sets *)

Record Rows := { items : list (res Row); forever : option Error }.

Definition rows_of (l : list (res Row)) : Rows := {| items := l; forever := None |}.

Inductive ResultSet :=
| RBegin (version : N) (read_only : bool)
| RCommit (version : N)
| RRollback (version : N)
| RCreate (count : N)
| RDelete (count : N)
| RUpdate (count : N)
| RCreateTable (name : bytes)
| RDropTable (name : bytes) (existed : bool)
| RQuery (columns : list SqlTypes.Column) (rows : Rows)
| RExplain (n : Node).

(** [Iterator::next]. *)
Definition next (r : Rows) : option (res Row) * Rows :=
  match items r with
  | i :: l => (Some i, {| items := l; forever := forever r |})
  | [] => (Err <$> forever r, r)
  end.

(** [collect::<Result<Vec<Row>>>()], and the loops that stop at an error. *)
Definition collect_rows (r : Rows) : res (list Row) :=
  l ← collect (items r);
  match forever r with Some e => Err e | None => Ok l end.

(** [filter_map] and [map] with closures that pass errors on. *)
Definition filter_map_rows (f : Row → res (option Row)) (r : Rows) : Rows := {|
  items := omap (λ i, match i with
                      | Ok row => match f row with
                                  | Ok o => Ok <$> o
                                  | Err e => Some (Err e)
                                  | Panic w => Some (Panic w)
                                  end
                      | Err e => Some (Err e)
                      | Panic w => Some (Panic w)
                      end) (items r);
  forever := forever r |}.

Definition into_rows (rs : ResultSet) : res Rows :=
  match rs with
  | RQuery _ rows => Ok rows
  | _ => value_error "Not a query result: {:?}" []
  end.
Definition into_row (rs : ResultSet) : res Row :=
  rows ← into_rows rs;
  match (next rows).1 with
  | Some r => r
  | None => value_error "No rows returned" []
  end.
Definition into_value (rs : ResultSet) : res Value :=
  row ← into_row rs;
  ok_or (head row) (value_error "No value returned" []).

(** The source of an executor: a query result, or an internal error. *)
Definition query {A} (what : string) (rs : ResultSet) (f : list SqlTypes.Column → Rows → res A)
    : res A :=
  match rs with RQuery cs rows => f cs rows | _ => Err (EInternal (Msg what [])) end.

(** * Queries *)

Section query.
Context `{Libm, Regex}.

(** [Filter]: keep the rows where the predicate is true. *)
Definition keep_row (predicate : Expression) (row : Row) : res (option Row) :=
  v ← evaluate predicate (Some row);
  match v with
  | Boolean true => Ok (Some row)
  | Boolean false | Null => Ok None
  | v => value_error "Filter returned {}, expected boolean" [show v]
  end.
Definition exec_filter (predicate : Expression) (rs : ResultSet) : res ResultSet :=
  query "Unexpected result" rs (λ cs rows, Ok (RQuery cs (filter_map_rows (keep_row predicate) rows))).

(** [Projection]. *)
Definition project_row (es : list Expression) (row : Row) : res Row :=
  collect ((λ e, evaluate e (Some row)) <$> es).
Definition project_column (cs : list SqlTypes.Column) (e : Expression * option bytes)
    : SqlTypes.Column :=
  match e with
  | (_, Some label) => {| col_name := Some label |}
  | (Field i _, None) => default {| col_name := None |} (cs !! N.to_nat i)
  | (_, None) => {| col_name := None |}
  end.
Definition exec_projection (es : list (Expression * option bytes)) (rs : ResultSet)
    : res ResultSet :=
  query "Unexpected result" rs (λ cs rows,
    Ok (RQuery (project_column cs <$> es)
          (filter_map_rows (λ row, Some <$> project_row es.*1 row) rows))).

(** [Order]: the values to order by are evaluated first, then a stable sort. *)
Fixpoint compare_items (orders : list Direction) (a b : list Value) : res comparison :=
  match orders, a, b with
  | [], _, _ => Ok Eq
  | d :: orders, x :: a, y :: b =>
      match partial_cmp x y with
      | Some Eq | None => compare_items orders a b
      | Some o => Ok match d with Ascending => o | Descending => CompOpp o end
      end
  | _, _, _ => Panic "index out of bounds"
  end.

(** [slice::sort_by], which is stable: equal items keep their order.  The
    result for an order that is not total is unspecified. *)
Fixpoint insert_item (orders : list Direction) (x : Row * list Value)
    (l : list (Row * list Value)) : res (list (Row * list Value)) :=
  match l with
  | [] => Ok [x]
  | y :: l =>
      c ← compare_items orders x.2 y.2;
      match c with
      | Gt => l ← insert_item orders x l; Ok (y :: l)
      | _ => Ok (x :: y :: l)
      end
  end.
Fixpoint sort_items (orders : list Direction) (l : list (Row * list Value))
    : res (list (Row * list Value)) :=
  match l with
  | [] => Ok []
  | x :: l => l ← sort_items orders l; insert_item orders x l
  end.

(** The loop that evaluates the items of the source. *)
Fixpoint order_values (es : list Expression) (l : list (res Row)) : res (list (Row * list Value)) :=
  match l with
  | [] => Ok []
  | i :: l =>
      row ← i;
      vs ← collect ((λ e, evaluate e (Some row)) <$> es);
      rest ← order_values es l;
      Ok ((row, vs) :: rest)
  end.
Definition exec_order (orders : list (Expression * Direction)) (rs : ResultSet) : res ResultSet :=
  query "Unexpected result {:?}" rs (λ cs rows,
    l ← order_values orders.*1 (items rows);
    _ ← match forever rows with Some e => Err e | None => Ok tt end;
    l ← sort_items orders.*2 l;
    Ok (RQuery cs (rows_of (Ok <$> l.*1)))).

(** [Limit] and [Offset]: [Iterator::take] and [Iterator::skip]. *)
Definition take_rows (n : nat) (r : Rows) : Rows :=
  rows_of (take n (items r) ++
    match forever r with Some e => replicate (n - length (items r)) (Err e) | None => [] end).
Definition skip_rows (n : nat) (r : Rows) : Rows :=
  {| items := drop n (items r); forever := forever r |}.
Definition exec_limit (limit : N) (rs : ResultSet) : res ResultSet :=
  query "Unexpected result" rs (λ cs rows, Ok (RQuery cs (take_rows (N.to_nat limit) rows))).
Definition exec_offset (offset : N) (rs : ResultSet) : res ResultSet :=
  query "Unexpected result" rs (λ cs rows, Ok (RQuery cs (skip_rows (N.to_nat offset) rows))).

(** * Joins *)

(** [NestedLoopRows].  The left source is an iterator whose next row has been
    taken; a panic in it surfaces when the row is taken. *)
Record NestedLoopRows := {
  left_rows : Rows;
  left_row : option (res Row);
  right_rows : list Row;
  right_vec : list Row;
  right_empty : list Value;
  right_hit : bool;
  predicate : option Expression;
  outer : bool
}.

(** [left.next()]. *)
Definition left_next (r : Rows) : res (option (res Row) * Rows) :=
  match next r with
  | (Some (Panic w), _) => Panic w
  | p => Ok p
  end.

Definition nested_loop_new (rows : Rows) (rvec : list Row) (width : nat)
    (p : option Expression) (o : bool) : res NestedLoopRows :=
  '(lrow, rows) ← left_next rows;
  Ok {| left_rows := rows; left_row := lrow; right_rows := rvec; right_vec := rvec;
        right_empty := replicate width Null; right_hit := false; predicate := p; outer := o |}.

(** [try_next_hit]: the next match in the right rows, and the rows after it. *)
Fixpoint try_next_hit (p : option Expression) (lrow : Row) (rest : list Row)
    : res (option Row) * list Row :=
  match rest with
  | [] => (Ok None, [])
  | r :: rest =>
      let row := lrow ++ r in
      match p with
      | None => (Ok (Some row), rest)
      | Some p =>
          match evaluate p (Some row) with
          | Ok (Boolean true) => (Ok (Some row), rest)
          | Ok (Boolean false) | Ok Null => try_next_hit (Some p) lrow rest
          | Ok v => (value_error "Join predicate returned {}, expected boolean" [show v], rest)
          | Err e => (Err e, rest)
          | Panic w => (Panic w, rest)
          end
      end
  end.

Definition with_right (s : NestedLoopRows) (rest : list Row) (hit : bool) : NestedLoopRows := {|
  left_rows := left_rows s; left_row := left_row s; right_rows := rest; right_vec := right_vec s;
  right_empty := right_empty s; right_hit := hit; predicate := predicate s; outer := outer s |}.
Definition with_left (s : NestedLoopRows) (lrow : option (res Row)) (rows : Rows)
    : NestedLoopRows := {|
  left_rows := rows; left_row := lrow; right_rows := right_vec s; right_vec := right_vec s;
  right_empty := right_empty s; right_hit := right_hit s; predicate := predicate s;
  outer := outer s |}.

(** [NestedLoopRows::try_next]. *)
Fixpoint join_next (fuel : nat) (s : NestedLoopRows) : res (option Row) * NestedLoopRows :=
  match fuel with
  | O => (Panic "try_next: out of fuel", s)
  | S fuel =>
      match left_row s with
      | Some (Ok lrow) =>
          let '(hit, rest) := try_next_hit (predicate s) lrow (right_rows s) in
          match hit with
          | Ok (Some row) => (Ok (Some row), with_right s rest true)
          | Ok None =>
              match left_next (left_rows s) with
              | Ok (next_row, rows) =>
                  let hit := right_hit s in
                  let s := with_left s next_row rows in
                  if outer s && negb hit then (Ok (Some (lrow ++ right_empty s)), s)
                  else join_next fuel (with_right s (right_vec s) false)
              | Err e => (Err e, s)
              | Panic w => (Panic w, s)
              end
          | Err e => (Err e, with_right s rest (right_hit s))
          | Panic w => (Panic w, with_right s rest (right_hit s))
          end
      | Some (Err e) => (Err e, s)
      | Some (Panic w) => (Panic w, s)
      | None => (Ok None, s)
      end
  end.

(** The rows left on the left side, and the items left to yield. *)
Definition left_count (s : NestedLoopRows) : nat :=
  length (items (left_rows s)) + match left_row s with Some (Ok _) => 1 | _ => 0 end.
Definition join_count (s : NestedLoopRows) : nat :=
  left_count s * (2 + length (right_vec s)) + length (right_rows s).

(** The items of the iterator: an error of the left source repeats. *)
Fixpoint join_rows (fuel : nat) (s : NestedLoopRows) : Rows :=
  match fuel with
  | O => rows_of [Panic "rows: out of fuel"]
  | S fuel =>
      match left_row s with
      | Some (Err e) => {| items := []; forever := Some e |}
      | _ =>
          match join_next (S (left_count s)) s with
          | (Ok None, _) => rows_of []
          | (Ok (Some row), s) =>
              let r := join_rows fuel s in {| items := Ok row :: items r; forever := forever r |}
          | (Err e, s) =>
              match left_row s with
              | Some (Err e) => {| items := []; forever := Some e |}
              | _ => let r := join_rows fuel s in
                     {| items := Err e :: items r; forever := forever r |}
              end
          | (Panic w, _) => rows_of [Panic w]
          end
      end
  end.

Definition exec_nested_loop_join (p : option Expression) (o : bool) (lrs rrs : ResultSet)
    : res ResultSet :=
  query "Unexpected result set" lrs (λ cs rows,
    query "Unexpected result set" rrs (λ rcs rrows,
      rvec ← collect_rows rrows;
      s ← nested_loop_new rows rvec (length rcs) p o;
      Ok (RQuery (cs ++ rcs) (join_rows (S (join_count s)) s)))).

(** [HashJoin]: the right rows in a [HashMap] by their join value; a later row
    replaces an earlier one with the same key. *)
Definition map_insert (k : Value) (row : Row) (m : list (Value * Row)) : res (list (Value * Row)) :=
  hashed k ((k, row) :: List.filter (λ p, negb (same_key k p.1)) m).
Definition map_get (k : Value) (m : list (Value * Row)) : res (option Row) :=
  match m with
  | [] => Ok None
  | _ => hashed k (snd <$> List.find (λ p, same_key k p.1) m)
  end.

Fixpoint hash_rows (r : N) (l : list (res Row)) (m : list (Value * Row))
    : res (list (Value * Row)) :=
  match l with
  | [] => Ok m
  | i :: l =>
      row ← i;
      k ← ok_or (row !! N.to_nat r)
            (Err (EInternal (Msg "Right index {} out of bounds" [FNum r])));
      m ← map_insert k row m;
      hash_rows r l m
  end.

Definition probe_row (l : N) (o : bool) (empty : list Value) (m : list (Value * Row)) (row : Row)
    : res (option Row) :=
  k ← ok_or (row !! N.to_nat l) (value_error "Left index {} out of bounds" [FNum l]);
  hit ← map_get k m;
  Ok match hit with
     | Some hit => Some (row ++ hit)
     | None => if o then Some (row ++ empty) else None
     end.

Definition exec_hash_join (l r : N) (o : bool) (lrs rrs : ResultSet) : res ResultSet :=
  query "Unexpected result set" lrs (λ cs rows,
    query "Unexpected result set" rrs (λ rcs rrows,
      m ← hash_rows r (items rrows) [];
      _ ← match forever rrows with Some e => Err e | None => Ok tt end;
      Ok (RQuery (cs ++ rcs)
            (filter_map_rows (probe_row l o (replicate (length rcs) Null) m) rows)))).
End query.
