(* ===== verification/SqlAggregate.v ===== *)
(** Aggregation (src/src/sql/execution/aggregation.rs): accumulators, and the
    executor that keeps a list of them for every group. *)
From Stdlib Require Import Strings.Byte NArith ZArith Lia Floats.SpecFloat.
From stdpp Require Import base list strings.
From S2P Require Import Prelude KeyCode Engine SqlTypes SqlExpression SqlSchema SqlKv SqlPlan SqlExec.

Open Scope N_scope.

(** * Accumulators *)

Inductive Accumulator :=
| ACount (count : N)
| AAverage (count : N) (sum : option Value)
| AMax (max : option Value)
| AMin (min : option Value)
| ASum (sum : option Value).

(** [Accumulator::from]. *)
Definition accumulator (a : Aggregate) : Accumulator :=
  match a with
  | Average => AAverage 0 None
  | Count => ACount 0
  | Max => AMax None
  | Min => AMin None
  | Sum => ASum None
  end.

(** [Count::accumulate] and [Sum::accumulate]. *)
Definition count_add (count : N) (v : Value) : res N :=
  match v with Null => Ok count | _ => add_u64 count 1 end.
Definition sum_add (sum : option Value) (v : Value) : res (option Value) :=
  match sum, v with
  | Some (Integer s), Integer i =>
      if in_i64 (s + i) then Ok (Some (Integer (s + i)))
      else Panic "attempt to add with overflow"
  | Some (Float s), Float f => Ok (Some (Float (f64_add s f)))
  | None, Integer i => Ok (Some (Integer i))
  | None, Float f => Ok (Some (Float f))
  | _, _ => Ok (Some Null)
  end.

(** [Max::accumulate] and [Min::accumulate]: [better] is the order that
    replaces the value so far. *)
Definition extremum_add (better : comparison) (best : option Value) (v : Value) : option Value :=
  match best with
  | None => Some v
  | Some b =>
      if decide (datatype b = datatype v) then
        match partial_cmp v b with
        | None => Some Null
        | Some c => if decide (c = better) then Some v else Some b
        end
      else Some Null
  end.

Definition accumulate (acc : Accumulator) (v : Value) : res Accumulator :=
  match acc with
  | ACount c => c ← count_add c v; Ok (ACount c)
  | AAverage c s => c ← count_add c v; s ← sum_add s v; Ok (AAverage c s)
  | AMax m => Ok (AMax (extremum_add Gt m v))
  | AMin m => Ok (AMin (extremum_add Lt m v))
  | ASum s => s ← sum_add s v; Ok (ASum s)
  end.

(** [count as i64]. *)
Definition n_as_i64 (n : N) : Z :=
  if n <? 9223372036854775808 then Z.of_N n else (Z.of_N n - 18446744073709551616)%Z.

Definition aggregate (acc : Accumulator) : res Value :=
  match acc with
  | ACount c => Ok (Integer (n_as_i64 c))
  | AAverage c s =>
      match default Null s with
      | Integer s =>
          if decide (n_as_i64 c = 0%Z) then Panic "attempt to divide by zero"
          else Ok (Integer (Z.quot s (n_as_i64 c)))
      | Float s => Ok (Float (f64_div s (f64_of_Z (n_as_i64 c))))
      | _ => Ok Null
      end
  | AMax m | AMin m | ASum m => Ok (default Null m)
  end.

(** * Groups *)

(** The [HashMap] of the accumulators by group, in the order of insertion. *)
Abbreviation Groups := (list (list Value * list Accumulator)).

(** Two groups are the same key of the table; hashing a group with a NULL
    recurses without end. *)
Fixpoint same_group (g h : list Value) : bool :=
  match g, h with
  | [], [] => true
  | v :: g, w :: h => same_key v w && same_group g h
  | _, _ => false
  end.
Fixpoint hashed_group {A} (g : list Value) (r : A) : res A :=
  match g with
  | [] => Ok r
  | Null :: _ => Panic "stack overflow"
  | _ :: g => hashed_group g r
  end.

(** Accumulates a row's values, in pairs. *)
Fixpoint accumulate_all (accs : list Accumulator) (vs : list Value) : res (list Accumulator) :=
  match accs, vs with
  | a :: accs, v :: vs => a ← accumulate a v; accs ← accumulate_all accs vs; Ok (a :: accs)
  | accs, _ => Ok accs
  end.

(** [entry(group).or_insert(..)] and the update. *)
Fixpoint group_add (aggs : list Aggregate) (g : list Value) (vs : list Value) (gs : Groups)
    : res Groups :=
  match gs with
  | [] => accs ← accumulate_all (accumulator <$> aggs) vs; Ok [(g, accs)]
  | (h, accs) :: gs =>
      if same_group h g then accs ← accumulate_all accs vs; Ok ((h, accs) :: gs)
      else gs ← group_add aggs g vs gs; Ok ((h, accs) :: gs)
  end.

Definition add_row (aggs : list Aggregate) (row : Row) (gs : Groups) : res Groups :=
  if (length row <? length aggs)%nat then Panic "`at` split index (is {}) should be <= len"
  else
    let g := drop (length aggs) row in
    _ ← hashed_group g tt;
    group_add aggs g (take (length aggs) row) gs.

Fixpoint add_rows (aggs : list Aggregate) (l : list (res Row)) (gs : Groups) : res Groups :=
  match l with
  | [] => Ok gs
  | i :: l => row ← i; gs ← add_row aggs row gs; add_rows aggs l gs
  end.

(** The row of a group. *)
Definition group_row (g : list Value * list Accumulator) : res Row :=
  vs ← collect (aggregate <$> g.2); Ok (vs ++ g.1).

(** [Aggregation::execute]. *)
Definition exec_aggregation (aggs : list Aggregate) (rs : ResultSet) : res ResultSet :=
  query "Unexpected result {:?}" rs (λ cs rows,
    gs ← add_rows aggs (items rows) [];
    _ ← match forever rows with Some e => Err e | None => Ok tt end;
    let gs := if decide (gs = [] ∧ length aggs = length cs)
              then [([], accumulator <$> aggs)] else gs in
    Ok (RQuery
          (imap (λ i c, if (i <? length aggs)%nat then {| col_name := None |} else c) cs)
          (rows_of (group_row <$> gs)))).
