(* ===== verification/SqlExecutor.v ===== *)
(** The executors that use the transaction (src/src/sql/execution/source.rs,
    mutation.rs and schema.rs), and the execution of a plan
    (src/src/sql/execution/mod.rs). *)
From Stdlib Require Import Strings.Byte NArith ZArith Lia.
From stdpp Require Import base list gmap strings.
From S2P Require Import Prelude KeyCode Engine SqlTypes SqlExpression SqlSchema SqlKv SqlPlan.
From S2P Require Import SqlExec SqlAggregate.

Open Scope N_scope.

(** * Rows to insert *)

(** The loop that collects the values by column name. *)
Fixpoint make_inputs (t : Table) (cvs : list (bytes * Value)) (inputs : gmap bytes Value)
    : res (gmap bytes Value) :=
  match cvs with
  | [] => Ok inputs
  | (c, v) :: cvs =>
      _ ← get_column t c;
      match inputs !! c with
      | Some _ => value_error "Column {} given multiple times" [FBytes c]
      | None => make_inputs t cvs (<[c:=v]> inputs)
      end
  end.

(** [Insert::make_row]. *)
Definition make_row (t : Table) (columns : list bytes) (values : list Value) : res Row :=
  if decide (length columns = length values) then
    inputs ← make_inputs t (zip columns values) ∅;
    collect ((λ c, match inputs !! c_name c with
                   | Some v => Ok v
                   | None => ok_or (c_default c)
                               (value_error "No value given for column {}" [FBytes (c_name c)])
                   end) <$> t_columns t)
  else value_error "Column and value counts do not match" [].

(** [Insert::pad_row]. *)
Definition pad_row (t : Table) (row : Row) : res Row :=
  defaults ← collect ((λ c, ok_or (c_default c)
      (value_error "No default value for column {}" [FBytes (c_name c)]))
    <$> drop (length row) (t_columns t));
  Ok (row ++ defaults).

Definition table_columns (t : Table) : list SqlTypes.Column :=
  (λ c, {| col_name := Some (c_name c) |}) <$> t_columns t.

(** [new[field] = expr.evaluate(row)?] for every expression, in order. *)
Fixpoint set_fields `{Libm, Regex} (es : list (N * Expression)) (row new : Row) : res Row :=
  match es with
  | [] => Ok new
  | (i, e) :: es =>
      v ← evaluate e (Some row);
      if (N.to_nat i <? length new)%nat then set_fields es row (<[N.to_nat i := v]> new)
      else Panic "index out of bounds"
  end.

Section execute.
Context {T : Type} `{Transaction T}.
Context `{Libm, Regex}.

(** * Sources *)

Definition exec_scan (table : bytes) (filter : option Expression) : M T ResultSet :=
  t ← must_read_table table;
  rows ← tx_scan (t_name t) filter;
  mret (RQuery (table_columns t) (rows_of rows)).

(** The rows of a list of primary keys; missing ones are left out. *)
Fixpoint read_keys (table : bytes) (keys : list Value) : M T (list Row) :=
  match keys with
  | [] => mret []
  | key :: keys =>
      o ← tx_read table key;
      rows ← read_keys table keys;
      mret (match o with Some row => row :: rows | None => rows end)
  end.

Definition exec_key_lookup (table : bytes) (keys : list Value) : M T ResultSet :=
  t ← must_read_table table;
  rows ← read_keys (t_name t) keys;
  mret (RQuery (table_columns t) (rows_of (Ok <$> rows))).

(** [HashSet::extend]. *)
Fixpoint set_extend (vs s : list Value) : res (list Value) :=
  match vs with
  | [] => Ok s
  | v :: vs => s ← set_insert v s; set_extend vs s
  end.

Fixpoint read_indexes (table column : bytes) (values : list Value) (pks : list Value)
    : M T (list Value) :=
  match values with
  | [] => mret pks
  | v :: values =>
      ids ← tx_read_index table column v;
      pks ← lift (set_extend ids pks);
      read_indexes table column values pks
  end.

Definition exec_index_lookup (table column : bytes) (values : list Value) : M T ResultSet :=
  t ← must_read_table table;
  pks ← read_indexes table column values [];
  rows ← read_keys (t_name t) pks;
  mret (RQuery (table_columns t) (rows_of (Ok <$> rows))).

Definition exec_nothing : ResultSet := RQuery [] (rows_of [Ok []]).

(** * Mutations *)

Fixpoint insert_rows (t : Table) (columns : list bytes) (rows : list (list Expression)) (count : N)
    : M T N :=
  match rows with
  | [] => mret count
  | es :: rows =>
      row ← lift (collect ((λ e, evaluate e None) <$> es));
      row ← lift (if decide (columns = []) then pad_row t row else make_row t columns row);
      _ ← tx_create (t_name t) row;
      count ← lift (add_u64 count 1);
      insert_rows t columns rows count
  end.

Definition exec_insert (table : bytes) (columns : list bytes) (rows : list (list Expression))
    : M T ResultSet :=
  t ← must_read_table table;
  count ← insert_rows t columns rows 0;
  mret (RCreate count).

(** The end of a loop over an iterator that repeats an error. *)
Definition stop (r : Rows) : res unit :=
  match forever r with Some e => Err e | None => Ok tt end.

Fixpoint update_rows (t : Table) (es : list (N * Expression)) (l : list (res Row))
    (updated : list Value) : M T (list Value) :=
  match l with
  | [] => mret updated
  | i :: l =>
      row ← lift i;
      id ← lift (get_row_key t row);
      seen ← lift (match updated with
                   | [] => Ok false
                   | _ => hashed id (List.existsb (same_key id) updated)
                   end);
      if seen : bool then update_rows t es l updated
      else
        new ← lift (set_fields es row row);
        _ ← tx_update (t_name t) id new;
        updated ← lift (set_insert id updated);
        update_rows t es l updated
  end.

Definition exec_update (table : bytes) (es : list (N * Expression)) (rs : ResultSet)
    : M T ResultSet :=
  match rs with
  | RQuery _ rows =>
      t ← must_read_table table;
      updated ← update_rows t es (items rows) [];
      _ ← lift (stop rows);
      mret (RUpdate (N.of_nat (length updated)))
  | _ => lift (Err (EInternal (Msg "Unexpected response {:?}" [])))
  end.

Fixpoint delete_all_rows (t : Table) (l : list (res Row)) (count : N) : M T N :=
  match l with
  | [] => mret count
  | i :: l =>
      row ← lift i;
      id ← lift (get_row_key t row);
      _ ← tx_delete (t_name t) id;
      count ← lift (add_u64 count 1);
      delete_all_rows t l count
  end.

Definition exec_delete (t : Table) (rs : ResultSet) : M T ResultSet :=
  match rs with
  | RQuery _ rows =>
      count ← delete_all_rows t (items rows) 0;
      _ ← lift (stop rows);
      mret (RDelete count)
  | _ => lift (Err (EInternal (Msg "Unexpected result {:?}" [])))
  end.

(** * Schemas *)

Definition exec_create_table (t : Table) : M T ResultSet :=
  _ ← tx_create_table t;
  mret (RCreateTable (t_name t)).

Definition exec_drop_table (table : bytes) (if_exists : bool) : M T ResultSet :=
  missing ← (if if_exists
             then o ← tx_read_table table; mret (match o with None => true | Some _ => false end)
             else mret false);
  if missing : bool then mret (RDropTable table false)
  else _ ← tx_delete_table table; mret (RDropTable table true).

(** * Plans *)

(** [Executor::build] and [Executor::execute]: the sources run first. *)
Fixpoint execute (n : Node) : M T ResultSet :=
  match n with
  | Aggregation s aggs => rs ← execute s; lift (exec_aggregation aggs rs)
  | CreateTable t => exec_create_table t
  | Delete table s => t ← must_read_table table; rs ← execute s; exec_delete t rs
  | DropTable table if_exists => exec_drop_table table if_exists
  | Filter s p => rs ← execute s; lift (exec_filter p rs)
  | HashJoin l lf r rf o =>
      lrs ← execute l;
      match lrs with
      | RQuery _ _ => rrs ← execute r; lift (exec_hash_join lf.1 rf.1 o lrs rrs)
      | _ => lift (Err (EInternal (Msg "Unexpected result set" [])))
      end
  | IndexLookup table _ column values => exec_index_lookup table column values
  | Insert table columns rows => exec_insert table columns rows
  | KeyLookup table _ keys => exec_key_lookup table keys
  | Limit s k => rs ← execute s; lift (exec_limit k rs)
  | NestedLoopJoin l _ r p o =>
      lrs ← execute l;
      match lrs with
      | RQuery _ _ => rrs ← execute r; lift (exec_nested_loop_join p o lrs rrs)
      | _ => lift (Err (EInternal (Msg "Unexpected result set" [])))
      end
  | Nothing => mret exec_nothing
  | Offset s k => rs ← execute s; lift (exec_offset k rs)
  | Order s orders => rs ← execute s; lift (exec_order orders rs)
  | Projection s es => rs ← execute s; lift (exec_projection es rs)
  | Scan table _ filter => exec_scan table filter
  | Update table s es =>
      rs ← execute s; exec_update table ((λ '(i, _, e), (i, e)) <$> es) rs
  end.
End execute.
