(* ===== verification/SqlJoin.v ===== *)
(** Joins: what the nested loop iterator yields, as a comprehension over the two
    sources, and when a hash join is the same. *)
From Stdlib Require Import Strings.Byte NArith ZArith Lia.
From stdpp Require Import base list gmap strings.
From S2P Require Import Prelude KeyCode Engine SqlTypes SqlExpression SqlSchema SqlKv SqlStore.
From S2P Require Import SqlIntegrity SqlPlan SqlExec.

Open Scope nat_scope.

Section join.
Context `{Libm, Regex}.

(** * The reference *)

(** What a joined row contributes: itself, nothing, or an error. *)
Definition match_row (p : option Expression) (row : Row) : option (res Row) :=
  match p with
  | None => Some (Ok row)
  | Some p =>
      match evaluate p (Some row) with
      | Ok (Boolean true) => Some (Ok row)
      | Ok (Boolean false) | Ok Null => None
      | Ok v => Some (value_error "Join predicate returned {}, expected boolean" [show v])
      | Err e => Some (Err e)
      | Panic w => Some (Panic w)
      end
  end.

Definition matches (p : option Expression) (l : Row) (right : list Row) : list (res Row) :=
  omap (λ r, match_row p (l ++ r)) right.

Definition is_hit (i : res Row) : bool := match i with Ok _ => true | _ => false end.

(** The items for a left row: its matches, or a row of nulls in an outer join. *)
Definition join_left (p : option Expression) (o : bool) (empty : list Value) (hit : bool)
    (l : Row) (right : list Row) : list (res Row) :=
  matches p l right ++
  if o && negb (hit || List.existsb is_hit (matches p l right)) then [Ok (l ++ empty)] else [].

Definition prepend (l : list (res Row)) (r : Rows) : Rows :=
  {| items := l ++ items r; forever := forever r |}.

Fixpoint join_all (p : option Expression) (o : bool) (empty : list Value) (right : list Row)
    (rows : list (res Row)) (tail : option Error) : Rows :=
  match rows with
  | [] => {| items := []; forever := tail |}
  | Ok l :: rows => prepend (join_left p o empty false l right) (join_all p o empty right rows tail)
  | Err e :: _ => {| items := []; forever := Some e |}
  | Panic w :: _ => rows_of [Panic w]
  end.

(** * The iterator *)

Definition returns {A} (r : res A) : Prop := match r with Panic _ => False | _ => True end.

Definition total (p : option Expression) : Prop :=
  ∀ e row, p = Some e → returns (evaluate e (Some row)).

(** What an iterator in a state has left to yield. *)
Definition meaning (s : NestedLoopRows) : Rows :=
  match left_row s with
  | Some (Ok l) =>
      prepend (join_left (predicate s) (outer s) (right_empty s) (right_hit s) l (right_rows s))
        (join_all (predicate s) (outer s) (right_empty s) (right_vec s)
           (items (left_rows s)) (forever (left_rows s)))
  | Some (Err e) => {| items := []; forever := Some e |}
  | Some (Panic w) => rows_of [Panic w]
  | None => rows_of []
  end.

(** A state the constructor and the iterator produce. *)
Definition state_ok (s : NestedLoopRows) : Prop :=
  total (predicate s) ∧ Forall returns (items (left_rows s)) ∧
  match left_row s with
  | Some (Panic _) => False
  | None => items (left_rows s) = [] ∧ forever (left_rows s) = None
  | _ => True
  end.

Lemma matches_cons p l r right :
  matches p l (r :: right)
  = match match_row p (l ++ r) with Some i => i :: matches p l right | None => matches p l right end.
Proof. done. Qed.

(** The search for the next match splits the matches. *)
Lemma try_next_hit_spec p l right : total p →
  match try_next_hit p l right with
  | (Ok (Some row), rest) => matches p l right = Ok row :: matches p l rest ∧ length rest < length right
  | (Ok None, rest) => matches p l right = []
  | (Err e, rest) => matches p l right = Err e :: matches p l rest ∧ length rest < length right
  | (Panic _, _) => False
  end.
Proof.
  intros Ht. induction right as [|r right IH]; [done|]. cbn [try_next_hit].
  rewrite matches_cons. unfold match_row.
  destruct p as [e|]; [|by split; [|cbn; lia]].
  specialize (Ht e (l ++ r) eq_refl).
  destruct (evaluate e (Some (l ++ r))) as [v|err|w]; [|by split; [|cbn; lia]|done].
  destruct v as [|[]| | |]; try (split; [done|cbn; lia]);
    (destruct (try_next_hit (Some e) l right) as [[[row|]|err|w] rest];
      [destruct IH as [-> ?]; split; [done|cbn; lia]|done|
       destruct IH as [-> ?]; split; [done|cbn; lia]|done]).
Qed.

Lemma left_next_spec (r : Rows) : Forall returns (items r) →
  ∃ o r', left_next r = Ok (o, r') ∧ Forall returns (items r') ∧
    match o with
    | Some (Panic _) => False
    | Some (Ok row) => items r = Ok row :: items r' ∧ forever r' = forever r
    | Some (Err e) => ∀ p o empty right,
        join_all p o empty right (items r) (forever r) = {| items := []; forever := Some e |}
    | None => items r = [] ∧ forever r = None ∧ r' = r
    end ∧
    length (items r') + match o with Some (Ok _) => 1 | _ => 0 end ≤ length (items r).
Proof.
  intros Hr. unfold left_next, next. destruct r as [[|[row|e|w] l] f]; cbn in *.
  - destruct f as [e|]; cbn; eexists _, _; (split; [done|]); (split; [done|]); split; try done; cbn; lia.
  - apply Forall_cons in Hr as [_ Hr].
    eexists _, _. split; [done|]. split; [done|]. split; [done|]. cbn. lia.
  - apply Forall_cons in Hr as [_ Hr].
    eexists _, _. split; [done|]. split; [done|]. split; [done|]. cbn. lia.
  - apply Forall_cons in Hr as [[] _].
Qed.

(** The state after the left source moved on. *)
Lemma with_left_meaning s o r' : Forall returns (items (left_rows s)) →
  left_next (left_rows s) = Ok (o, r') →
  meaning (with_right (with_left s o r') (right_vec s) false)
  = join_all (predicate s) (outer s) (right_empty s) (right_vec s)
      (items (left_rows s)) (forever (left_rows s)).
Proof.
  intros Hr Hn. destruct (left_next_spec _ Hr) as (o' & r0 & Hn' & _ & Hspec & _).
  rewrite Hn in Hn'. injection Hn' as <- <-. unfold meaning. cbn.
  destruct o as [[row|e|w]|].
  - destruct Hspec as [-> ->]. done.
  - by rewrite Hspec.
  - done.
  - destruct Hspec as (-> & -> & _). done.
Qed.

Lemma with_left_ok s o r' : state_ok s → left_next (left_rows s) = Ok (o, r') →
  state_ok (with_right (with_left s o r') (right_vec s) false).
Proof.
  intros (Ht & Hr & _) Hn. destruct (left_next_spec _ Hr) as (o' & r0 & Hn' & Hr' & Hspec & _).
  rewrite Hn in Hn'. injection Hn' as <- <-. split; [done|]. split; [done|]. cbn.
  destruct o as [[row|e|w]|]; try done. destruct Hspec as (? & ? & ->). done.
Qed.

Lemma with_left_count s o r' l : left_row s = Some (Ok l) → Forall returns (items (left_rows s)) →
  left_next (left_rows s) = Ok (o, r') →
  left_count (with_right (with_left s o r') (right_vec s) false) < left_count s.
Proof.
  intros Hl Hr Hn. destruct (left_next_spec _ Hr) as (o' & r0 & Hn' & _ & _ & Hlen).
  rewrite Hn in Hn'. injection Hn' as <- <-. unfold left_count. cbn. rewrite Hl. lia.
Qed.

Lemma count_decreases s s' : left_count s' < left_count s → right_vec s' = right_vec s →
  right_rows s' = right_vec s' → join_count s' < join_count s.
Proof. unfold join_count. intros Hc -> ->. nia. Qed.

(** One call of the iterator takes the first of the items left. *)
Lemma join_next_spec fuel s : state_ok s → left_count s < fuel →
  match join_next fuel s with
  | (Ok (Some row), s') =>
      meaning s = prepend [Ok row] (meaning s') ∧ state_ok s' ∧ join_count s' < join_count s
  | (Ok None, _) => meaning s = rows_of []
  | (Err e, s') =>
      match left_row s' with
      | Some (Err e') => meaning s = {| items := []; forever := Some e' |}
      | _ => meaning s = prepend [Err e] (meaning s') ∧ state_ok s' ∧ join_count s' < join_count s
      end
  | (Panic _, _) => False
  end.
Proof.
  revert s. induction fuel as [|fuel IH]; intros s Hok Hfuel; [lia|]. cbn [join_next].
  pose proof Hok as (Ht & Hr & Hl). destruct (left_row s) as [[l|e|w]|] eqn:El.
  2:{ rewrite El. unfold meaning. by rewrite El. }
  2:{ done. }
  2:{ unfold meaning. by rewrite El. }
  assert (meaning s = prepend (join_left (predicate s) (outer s) (right_empty s) (right_hit s) l
      (right_rows s)) (join_all (predicate s) (outer s) (right_empty s) (right_vec s)
      (items (left_rows s)) (forever (left_rows s)))) as -> by (unfold meaning; by rewrite El).
  pose proof (try_next_hit_spec (predicate s) l (right_rows s) Ht) as Hhit.
  destruct (try_next_hit (predicate s) l (right_rows s)) as [[[row|]|e|w] rest].
  - destruct Hhit as [Hm Hlen]. split; [|split].
    + unfold meaning, join_left. cbn. rewrite El, Hm. cbn. rewrite orb_true_r.
      by destruct (outer s).
    + split; [done|]. split; [done|]. cbn. by rewrite El.
    + unfold join_count, left_count. cbn. lia.
  - destruct (left_next_spec _ Hr) as (o & r' & Hn & _). rewrite Hn.
    pose proof (with_left_meaning s o r' Hr Hn) as Hmean.
    pose proof (with_left_ok s o r' Hok Hn) as Hok'.
    pose proof (with_left_count s o r' l El Hr Hn) as Hcount.
    unfold join_left. rewrite Hhit. cbn [app List.existsb]. rewrite orb_false_r.
    cbn [outer with_left]. destruct (outer s && negb (right_hit s)) eqn:Eo.
    + assert (with_left s o r' = with_right (with_left s o r') (right_vec s) false) as ->.
      { unfold with_left, with_right. cbn. apply andb_true_iff in Eo as [_ Eh].
        by destruct (right_hit s). }
      split; [|split; [done|by apply count_decreases]].
      by rewrite Hmean.
    + change (right_vec (with_left s o r')) with (right_vec s).
      rewrite <-Hmean. specialize (IH _ Hok' ltac:(lia)).
      destruct (join_next fuel _) as [[[row|]|e|w] s'].
      * destruct IH as (Hm & Hs' & Hc). split; [|split; [done|]].
        -- rewrite <-Hm. by destruct (meaning _).
        -- etrans; [exact Hc|]. by apply count_decreases.
      * by rewrite IH.
      * destruct (left_row s') as [[]|]; rewrite ?IH; try done;
          destruct IH as (Hm & Hs' & Hc); rewrite <-Hm; (split; [by destruct (meaning _)|]);
          (split; [done|]); (etrans; [exact Hc|]); by apply count_decreases.
      * done.
  - destruct Hhit as [Hm Hlen]. cbn [left_row with_right]. rewrite El. split; [|split].
    + unfold meaning, join_left. cbn. by rewrite El, Hm.
    + split; [done|]. split; [done|]. cbn. by rewrite El.
    + unfold join_count, left_count. cbn. lia.
  - done.
Qed.

Lemma join_rows_spec fuel s : state_ok s → join_count s < fuel → join_rows fuel s = meaning s.
Proof.
  revert s. induction fuel as [|fuel IH]; intros s Hok Hfuel; [lia|]. cbn [join_rows].
  pose proof (join_next_spec (S (left_count s)) s Hok ltac:(lia)) as Hnext.
  assert (∀ A (a b : A), (∀ e, left_row s = Some (Err e) → a = b) →
    match left_row s with Some (Err e) => a | _ => b end = b) as Hm.
  { intros A a b Hab. destruct (left_row s) as [[]|]; eauto. }
  destruct (left_row s) as [[l|e|w]|] eqn:El; [| |by destruct Hok as (_ & _ & Hp); rewrite El in Hp|].
  2:{ unfold meaning. by rewrite El. }
  all: destruct (join_next (S (left_count s)) s) as [[[row|]|e|w'] s'];
    [destruct Hnext as (-> & Hs' & Hc); rewrite IH by (done || lia); done|by rewrite Hnext| |done].
  all: destruct (left_row s') as [[]|]; first
    [by rewrite Hnext
    |destruct Hnext as (-> & Hs' & Hc); rewrite IH by (done || lia); done].
Qed.

(** The executor yields the reference join of its sources. *)
Lemma nested_loop_join_spec p o cs rcs rows rrows rvec :
  total p → Forall returns (items rows) → collect_rows rrows = Ok rvec →
  exec_nested_loop_join p o (RQuery cs rows) (RQuery rcs rrows)
  = Ok (RQuery (cs ++ rcs)
          (join_all p o (replicate (length rcs) Null) rvec (items rows) (forever rows))).
Proof.
  intros Ht Hr Hc. unfold exec_nested_loop_join, query. rewrite Hc. cbn [mbind res_bind].
  unfold nested_loop_new. destruct (left_next_spec _ Hr) as (l & r' & Hn & Hr' & Hspec & _).
  rewrite Hn. cbn [mbind res_bind]. rewrite join_rows_spec; [| |lia].
  - do 2 f_equal. unfold meaning. cbn. destruct l as [[row|e|w]|].
    + by destruct Hspec as [-> ->].
    + by rewrite Hspec.
    + done.
    + by destruct Hspec as (-> & -> & _).
  - split; [done|]. split; [done|]. cbn. destruct l as [[]|]; try done.
    by destruct Hspec as (? & ? & ->).
Qed.

(** * Hash joins *)

Lemma join_all_ok p o empty right ls :
  join_all p o empty right (Ok <$> ls) None = rows_of (ls ≫= λ l, join_left p o empty false l right).
Proof. induction ls as [|l ls IH]; [done|]. cbn. by rewrite IH. Qed.

Lemma filter_all_bool {A} (f : A → bool) (l : list A) :
  (∀ x, x ∈ l → f x = true) → List.filter f l = l.
Proof.
  induction l as [|x l IH]; intros Hf; [done|]. cbn. rewrite Hf by apply list_elem_of_here.
  f_equal. apply IH. intros y Hy. by apply Hf, list_elem_of_further.
Qed.

(** A value of a type that compares exactly. *)
Definition exact (d : DataType) (v : Value) : Prop := datatype v = Some d ∧ d ≠ TFloat.

Lemma exact_plain d v : exact d v → plain v ∧ v ≠ Null.
Proof. intros [Hd Hf]. split; [intros f ->; by simplify_eq/=|by intros ->]. Qed.

Lemma eval_equal_exact d v w : exact d v → exact d w →
  eval_equal v w = Ok (Boolean (bool_decide (v = w))).
Proof.
  intros [Hv Hf] [Hw _].
  destruct v as [|b|i|f|t], w as [|b'|i'|f'|t']; cbn in Hv, Hw; simplify_eq; try done; cbn.
  - repeat f_equal. destruct b, b'; cbn; by case_bool_decide.
  - repeat f_equal. destruct (Z.eqb_spec i i'); case_bool_decide; congruence.
  - repeat f_equal. repeat case_bool_decide; congruence.
Qed.

(** The column [i] of every row has an exact value. *)
Definition exact_column (d : DataType) (i : N) (rows : list Row) : Prop :=
  ∀ r, r ∈ rows → ∃ v, r !! N.to_nat i = Some v ∧ exact d v.

Definition key_of (i : N) (r : Row) : Value := default Null (r !! N.to_nat i).

Lemma hash_rows_spec d b rs m : exact_column d b rs → NoDup (key_of b <$> rs) →
  (∀ r, r ∈ rs → ∀ p, p ∈ m → p.1 ≠ key_of b r) →
  hash_rows b (Ok <$> rs) m = Ok (reverse ((λ r, (key_of b r, r)) <$> rs) ++ m).
Proof.
  revert m. induction rs as [|r rs IH]; intros m Hex Hnd Hm; [done|].
  destruct (Hex r) as (v & Hv & Hd); [apply list_elem_of_here|].
  pose proof (exact_plain d v Hd) as [Hp Hnull].
  assert (key_of b r = v) as Hk by (unfold key_of; by rewrite Hv).
  rewrite (fmap_cons Ok r rs). cbn [hash_rows mbind res_bind]. rewrite Hv. cbn [ok_or mbind res_bind].
  apply NoDup_cons in Hnd as [Hni Hnd].
  assert (List.filter (λ p : Value * Row, negb (same_key v p.1)) m = m) as Hf.
  { apply filter_all_bool. intros p Hin. apply negb_true_iff, not_true_iff_false.
    rewrite same_key_plain by done. intros ->. by apply (Hm r (list_elem_of_here _ _) p Hin). }
  assert (map_insert v r m = Ok ((v, r) :: m)) as ->.
  { unfold map_insert. rewrite Hf. by destruct v. }
  cbn [mbind res_bind]. rewrite IH.
  - by rewrite fmap_cons, reverse_cons, <-app_assoc, Hk.
  - intros r' Hin. by apply Hex, list_elem_of_further.
  - done.
  - intros r' Hin p [->|Hp']%elem_of_cons; [cbn|apply Hm; [by apply list_elem_of_further|done]].
    intros Heq. apply Hni. rewrite Hk, Heq. by apply list_elem_of_fmap_2.
Qed.

Lemma find_key d b rs k : exact_column d b rs → exact d k → NoDup (key_of b <$> rs) →
  snd <$> List.find (λ p, same_key k p.1) (reverse ((λ r, (key_of b r, r)) <$> rs))
  = List.find (λ r, bool_decide (k = key_of b r)) rs.
Proof.
  intros Hex Hk Hnd. pose proof (exact_plain d k Hk) as [Hp Hnull].
  destruct (List.find (λ r, bool_decide (k = key_of b r)) rs) as [r|] eqn:E.
  - apply List.find_some in E as [Hr Heq%bool_decide_eq_true]. apply list_elem_of_In in Hr.
    destruct (List.find _ (reverse _)) as [[k' r']|] eqn:E'.
    + apply List.find_some in E' as [Hin Hs]. apply list_elem_of_In in Hin.
      rewrite elem_of_reverse, list_elem_of_fmap in Hin. destruct Hin as (r2 & [= -> ->] & Hr2).
      cbn in Hs. apply same_key_plain in Hs; [|done..]. cbn. f_equal.
      rewrite Heq in Hs. apply list_elem_of_lookup in Hr as [i Hi], Hr2 as [j Hj].
      assert (i = j) as ->; [|congruence].
      apply (NoDup_lookup (key_of b <$> rs) i j (key_of b r) Hnd); apply list_lookup_fmap_Some; eauto.
    + exfalso. assert ((key_of b r, r) ∈ reverse ((λ r, (key_of b r, r)) <$> rs)) as Hin.
      { apply elem_of_reverse, list_elem_of_fmap. eauto. }
      apply list_elem_of_In in Hin. pose proof (List.find_none _ _ E' _ Hin) as Hs. cbn in Hs.
      apply not_true_iff_false in Hs. by apply Hs, same_key_plain.
  - destruct (List.find _ (reverse _)) as [[k' r']|] eqn:E'; [|done]. exfalso.
    apply List.find_some in E' as [Hin Hs]. apply list_elem_of_In in Hin.
    rewrite elem_of_reverse, list_elem_of_fmap in Hin. destruct Hin as (r2 & [= -> ->] & Hr2).
    cbn in Hs. apply same_key_plain in Hs; [|done..]. apply list_elem_of_In in Hr2.
    pose proof (List.find_none _ _ E _ Hr2) as Hb. by apply bool_decide_eq_false in Hb.
Qed.

(** The matches of an equijoin on a key of the right side. *)
Lemma matches_key d la lb (a b k : N) l rs : length l = N.to_nat k → (a < k)%N →
  exact d (key_of a l) → exact_column d b rs → NoDup (key_of b <$> rs) →
  matches (Some (Equal (Field a la) (Field (k + b) lb))) l rs
  = match List.find (λ r, bool_decide (key_of a l = key_of b r)) rs with
    | Some r => [Ok (l ++ r)]
    | None => []
    end.
Proof.
  intros Hlen Ha Hl. induction rs as [|r rs IH]; intros Hex Hnd; [done|].
  rewrite matches_cons. unfold match_row. cbn [evaluate].
  destruct (Hex r) as (v & Hv & Hd); [apply list_elem_of_here|].
  apply NoDup_cons in Hnd as [Hni Hnd].
  assert (key_of b r = v) as Hk by (unfold key_of; by rewrite Hv).
  assert (field_value (Some (l ++ r)) a = key_of a l) as ->.
  { unfold field_value, key_of. cbn. by rewrite lookup_app_l by lia. }
  assert (field_value (Some (l ++ r)) (k + b) = v) as ->.
  { unfold field_value. cbn. rewrite lookup_app_r by lia.
    replace (N.to_nat (k + b) - length l) with (N.to_nat b) by lia. by rewrite Hv. }
  cbn [mbind res_bind]. rewrite (eval_equal_exact d) by done. cbn [List.find].
  rewrite IH; [|intros r' Hin; by apply Hex, list_elem_of_further|done]. rewrite Hk.
  case_bool_decide as Heq; [|done].
  destruct (List.find _ rs) as [r'|] eqn:E; [|done]. exfalso.
  apply List.find_some in E as [Hin Hb%bool_decide_eq_true]. apply list_elem_of_In in Hin.
  apply Hni. rewrite Hk, <-Heq, Hb. by apply list_elem_of_fmap_2.
Qed.

Lemma hash_join_spec d la lb (a b k : N) o cs rcs (ls rs : list Row) :
  (a < k)%N → (∀ l, l ∈ ls → length l = N.to_nat k ∧ exact d (key_of a l)) →
  exact_column d b rs → NoDup (key_of b <$> rs) →
  exec_hash_join a b o (RQuery cs (rows_of (Ok <$> ls))) (RQuery rcs (rows_of (Ok <$> rs)))
  = exec_nested_loop_join (Some (Equal (Field a la) (Field (k + b) lb))) o
      (RQuery cs (rows_of (Ok <$> ls))) (RQuery rcs (rows_of (Ok <$> rs))).
Proof.
  intros Ha Hls Hex Hnd.
  rewrite (nested_loop_join_spec _ _ _ _ _ _ rs).
  - unfold exec_hash_join, query. cbn [items rows_of forever].
    rewrite (hash_rows_spec d) by (done || by intros ? ? ? ?%not_elem_of_nil).
    cbn [mbind res_bind]. rewrite app_nil_r, join_all_ok. do 2 f_equal.
    unfold filter_map_rows, rows_of. f_equal. cbn [items].
    induction ls as [|l ls IH]; [done|]. cbn [fmap list_fmap omap list_omap mbind list_bind].
    destruct (Hls l) as [Hlen Hl]; [apply list_elem_of_here|].
    fold (fmap (M:=list) (Ok (A:=Row)) ls).
    rewrite IH by (intros l' Hin; by apply Hls, list_elem_of_further).
    unfold probe_row. assert (l !! N.to_nat a = Some (key_of a l)) as ->.
    { unfold key_of. assert (is_Some (l !! N.to_nat a)) as [v ->]; [|done].
      apply lookup_lt_is_Some_2. lia. }
    cbn [ok_or mbind res_bind]. unfold join_left.
    rewrite (matches_key d) by done.
    pose proof (exact_plain d _ Hl) as [Hp Hnull].
    assert (map_get (key_of a l) (reverse ((λ r, (key_of b r, r)) <$> rs))
      = Ok (List.find (λ r, bool_decide (key_of a l = key_of b r)) rs)) as ->.
    { rewrite <-(find_key d b rs (key_of a l)) by done. unfold map_get.
      destruct (reverse _) as [|p m]; [done|]. by destruct (key_of a l). }
    cbn [mbind res_bind]. destruct (List.find _ rs) as [r|]; cbn.
    + by rewrite andb_false_r.
    + by destruct o.
  - intros e row [= <-].
    change (returns (eval_equal (field_value (Some row) a) (field_value (Some row) (k + b)))).
    by destruct (field_value (Some row) a), (field_value (Some row) (k + b)).
  - apply Forall_fmap, Forall_forall. done.
  - unfold collect_rows. cbn. by rewrite collect_ok.
Qed.
End join.
