(* ===== verification/SqlSort.v ===== *)
(** ORDER BY: on values that compare, the executor returns the rows sorted, and
    rows that compare equal in their original order. *)
From Stdlib Require Import Strings.Byte NArith ZArith Lia Sorting.Sorted Floats.SpecFloat.
From stdpp Require Import base list strings sorting.
From S2P Require Import Prelude KeyCode Engine SqlTypes SqlExpression SqlSchema SqlKeys SqlPlan SqlExec.

Open Scope nat_scope.

(** * Total preorders *)

(** A comparison that is a total preorder on the elements of [P]. *)
Record PreOrd {A} (P : A → Prop) (cmp : A → A → comparison) : Prop := {
  po_anti x y : P x → P y → cmp y x = CompOpp (cmp x y);
  po_trans x y z : P x → P y → P z → cmp x y ≠ Gt → cmp y z ≠ Gt → cmp x z ≠ Gt
}.

Section preord.
Context {A : Type} (P : A → Prop) (cmp : A → A → comparison) (Hpo : PreOrd P cmp).

Lemma po_lt_le x y z : P x → P y → P z → cmp x y = Lt → cmp y z ≠ Gt → cmp x z = Lt.
Proof.
  intros Hx Hy Hz Hxy Hyz.
  pose proof (po_trans P cmp Hpo x y z Hx Hy Hz ltac:(congruence) Hyz) as Hxz.
  destruct (cmp x z) eqn:E; [|done|done]. exfalso.
  apply (po_trans P cmp Hpo y z x Hy Hz Hx Hyz).
  - rewrite (po_anti P cmp Hpo x z Hx Hz), E. done.
  - by rewrite (po_anti P cmp Hpo x y Hx Hy), Hxy.
Qed.

Lemma po_le_lt x y z : P x → P y → P z → cmp x y ≠ Gt → cmp y z = Lt → cmp x z = Lt.
Proof.
  intros Hx Hy Hz Hxy Hyz.
  pose proof (po_trans P cmp Hpo x y z Hx Hy Hz Hxy ltac:(congruence)) as Hxz.
  destruct (cmp x z) eqn:E; [|done|done]. exfalso.
  apply (po_trans P cmp Hpo z x y Hz Hx Hy).
  - rewrite (po_anti P cmp Hpo x z Hx Hz), E. done.
  - done.
  - by rewrite (po_anti P cmp Hpo y z Hy Hz), Hyz.
Qed.

Lemma po_eq_trans x y z : P x → P y → P z → cmp x y = Eq → cmp y z = Eq → cmp x z = Eq.
Proof.
  intros Hx Hy Hz Hxy Hyz.
  pose proof (po_trans P cmp Hpo x y z Hx Hy Hz ltac:(congruence) ltac:(congruence)) as H1.
  assert (cmp z x ≠ Gt) as H2.
  { apply (po_trans P cmp Hpo z y x Hz Hy Hx).
    - by rewrite (po_anti P cmp Hpo y z Hy Hz), Hyz.
    - by rewrite (po_anti P cmp Hpo x y Hx Hy), Hxy. }
  rewrite (po_anti P cmp Hpo x z Hx Hz) in H2. by destruct (cmp x z).
Qed.
End preord.

Lemma preord_flip {A} (P : A → Prop) cmp : PreOrd P cmp → PreOrd P (λ x y, CompOpp (cmp x y)).
Proof.
  intros Hpo. split.
  - intros x y Hx Hy. by rewrite (po_anti P cmp Hpo x y Hx Hy).
  - intros x y z Hx Hy Hz Hxy Hyz.
    rewrite <-(po_anti P cmp Hpo) in * by done. by eapply (po_trans P cmp Hpo z y x).
Qed.

Lemma ord_preord {A} (cmp : A → A → comparison) `{!OrdLaws cmp} : PreOrd (λ _, True) cmp.
Proof.
  split.
  - intros x y _ _. apply cmp_antisym.
  - intros x y z _ _ _ Hxy Hyz. destruct (cmp x y) eqn:E1; [| |done].
    + by apply cmp_eq in E1 as ->.
    + destruct (cmp y z) eqn:E2; [| |done].
      * apply cmp_eq in E2 as <-. congruence.
      * by rewrite (cmp_trans x y z).
Qed.

(** * Sorting *)

Section sort.
Context {A : Type} (P : A → Prop) (cmp : A → A → comparison) (Hpo : PreOrd P cmp).

Fixpoint insert_by (x : A) (l : list A) : list A :=
  match l with
  | [] => [x]
  | y :: l => match cmp x y with Gt => y :: insert_by x l | _ => x :: y :: l end
  end.
Fixpoint sort_by (l : list A) : list A :=
  match l with [] => [] | x :: l => insert_by x (sort_by l) end.

Lemma insert_by_perm x l : insert_by x l ≡ₚ x :: l.
Proof.
  induction l as [|y l IH]; [done|]. cbn. destruct (cmp x y); [done..|].
  rewrite IH. apply Permutation_swap.
Qed.

Lemma sort_by_perm l : sort_by l ≡ₚ l.
Proof. induction l as [|x l IH]; [done|]. cbn. by rewrite insert_by_perm, IH. Qed.

Lemma insert_by_sorted x l : P x → Forall P l →
  StronglySorted (λ x y, cmp x y ≠ Gt) l → StronglySorted (λ x y, cmp x y ≠ Gt) (insert_by x l).
Proof.
  intros Hx HP. induction 1 as [|y l Hs IH Hall]; cbn; [by repeat constructor|].
  apply Forall_cons in HP as [Hy HP].
  assert (cmp x y ≠ Gt → StronglySorted (λ x y, cmp x y ≠ Gt) (x :: y :: l)) as Hfront.
  { intros Hle. constructor; [by constructor|]. constructor; [done|].
    rewrite Forall_forall in Hall, HP |- *. intros z Hz.
    eapply (po_trans P cmp Hpo x y z); auto. }
  destruct (cmp x y) eqn:E; [by apply Hfront..|]. constructor; [by apply IH|].
  apply Forall_forall. intros z Hz. rewrite insert_by_perm in Hz.
  apply elem_of_cons in Hz as [->|Hz]; [|rewrite Forall_forall in Hall; auto].
  by rewrite (po_anti P cmp Hpo x y Hx Hy), E.
Qed.

Lemma sort_by_sorted l : Forall P l → StronglySorted (λ x y, cmp x y ≠ Gt) (sort_by l).
Proof.
  induction 1 as [|x l Hx Hl IH]; [constructor|]. cbn. apply insert_by_sorted; [done| |done].
  by rewrite sort_by_perm.
Qed.

(** The elements that compare equal to a given one. *)
Definition peers (z : A) (l : list A) : list A :=
  List.filter (λ y, match cmp z y with Eq => true | _ => false end) l.

Lemma insert_by_stable z x l : P z → P x → Forall P l → peers z (insert_by x l) = peers z (x :: l).
Proof.
  intros Hz Hx. induction 1 as [|y l Hy Hl IH]; [done|]. cbn [insert_by].
  destruct (cmp x y) eqn:E; [done..|].
  unfold peers in *. cbn [List.filter] in *. rewrite IH.
  destruct (cmp z x) eqn:Ezx; [|by destruct (cmp z y)..].
  destruct (cmp z y) eqn:Ezy; [|done..]. exfalso.
  assert (cmp x z = Eq) as Exz by (by rewrite (po_anti P cmp Hpo z x Hz Hx), Ezx).
  by rewrite (po_eq_trans P cmp Hpo x z y Hx Hz Hy Exz Ezy) in E.
Qed.

Lemma sort_by_stable z l : P z → Forall P l → peers z (sort_by l) = peers z l.
Proof.
  intros Hz. induction 1 as [|x l Hx Hl IH]; [done|]. cbn [sort_by].
  rewrite insert_by_stable; [|done|done|by rewrite sort_by_perm].
  unfold peers in *. cbn. by rewrite IH.
Qed.
End sort.

(** * Values *)

(** An integer with the order of a float: by sign, exponent and mantissa. *)
Definition float_rank (f : f64) : Z :=
  match f with
  | S754_zero _ | S754_nan => 0
  | S754_infinity s => if s then -1208925819614629174706176 else 1208925819614629174706176
  | S754_finite s m e =>
      let r := (e + 1075) * 9007199254740992 + Zpos m in if s then - r else r
  end%Z.

Lemma pos_compare_cont m m' : Pos.compare_cont Eq m m' = (m ?= m')%positive.
Proof. done. Qed.

Lemma SFcompare_rank f g : f64_valid f → f64_valid g → f ≠ S754_nan → g ≠ S754_nan →
  SFcompare f g = Some (float_rank f ?= float_rank g)%Z.
Proof.
  intros Hf Hg Hnf Hng.
  assert (∀ s m e, f64_valid (S754_finite s m e) →
    (0 < (e + 1075) * 9007199254740992 + Zpos m < 1208925819614629174706176 ∧ Zpos m < 9007199254740992)%Z) as Hb.
  { intros s m e Hv%f64_finite_valid. lia. }
  assert (∀ m e m' e', (Zpos m < 9007199254740992 → Zpos m' < 9007199254740992 →
    ((e + 1075) * 9007199254740992 + Zpos m ?= (e' + 1075) * 9007199254740992 + Zpos m')
    = match e ?= e' with Eq => Zpos m ?= Zpos m' | c => c end)%Z) as Hlex.
  { intros m e m' e' Hm Hm'. destruct (Z.compare_spec e e') as [->|Hlt|Hgt].
    - rewrite Z.add_compare_mono_l. done.
    - apply Z.compare_lt_iff. lia.
    - apply Z.compare_gt_iff. lia. }
  destruct f as [s|s| |s m e], g as [s'|s'| |s' m' e']; try done; cbn [SFcompare float_rank];
    try (pose proof (Hb s m e Hf)); try (pose proof (Hb s' m' e' Hg)); clear Hb.
  all: f_equal.
  all: repeat match goal with b : bool |- _ => destruct b end; try done; symmetry.
  all: try (apply Z.compare_eq_iff; lia).
  all: try (apply Z.compare_lt_iff; lia).
  all: try (apply Z.compare_gt_iff; lia).
  - rewrite Z.compare_opp, Hlex by lia. rewrite (Z.compare_antisym e e').
    destruct (e ?= e')%Z; try done. rewrite (Z.compare_antisym (Zpos m)). done.
  - rewrite Hlex by lia. by destruct (e ?= e')%Z.
Qed.

(** NULL, or a value of the type that is not a NaN. *)
Definition comparable (d : DataType) (v : Value) : Prop :=
  v = Null ∨ datatype v = Some d ∧ ∀ f, v = Float f → f64_valid f ∧ f ≠ S754_nan.

Definition value_cmp (v w : Value) : comparison := default Eq (partial_cmp v w).

#[local] Instance Z_compare_laws : OrdLaws Z.compare.
Proof.
  split.
  - intros x y. by rewrite Z.compare_antisym.
  - intros x y z. rewrite !Z.compare_lt_iff. lia.
  - apply Z.compare_eq_iff.
Qed.

(** A comparison through a key in a totally ordered type. *)
Lemma preord_image {A B} (P : A → Prop) (key : A → B) cmp (cmp' : A → A → comparison) :
  PreOrd (λ _, True) cmp → (∀ x y, P x → P y → cmp' x y = cmp (key x) (key y)) → PreOrd P cmp'.
Proof.
  intros Hpo Hk. split.
  - intros x y Hx Hy. rewrite !Hk by done. by apply (po_anti _ cmp Hpo).
  - intros x y z Hx Hy Hz. rewrite !Hk by done. by apply (po_trans _ cmp Hpo).
Qed.

(** A least element added to a preorder. *)
Lemma preord_null (Q : Value → Prop) : (∀ v, Q v → v ≠ Null) → PreOrd Q value_cmp →
  PreOrd (λ v, v = Null ∨ Q v) value_cmp.
Proof.
  intros Hn Hpo.
  assert (∀ v, Q v → value_cmp Null v = Lt ∧ value_cmp v Null = Gt) as Hnull.
  { intros v Hv. apply Hn in Hv. by destruct v. }
  split.
  - intros x y [->|Hx] [->|Hy]; [done|..].
    + by destruct (Hnull y Hy) as [-> ->].
    + by destruct (Hnull x Hx) as [-> ->].
    + by apply (po_anti _ _ Hpo).
  - intros x y z Hx Hy Hz Hxy Hyz.
    destruct Hx as [->|Hx]; [destruct Hz as [->|Hz]; [done|]; by rewrite (proj1 (Hnull z Hz))|].
    destruct Hy as [->|Hy]; [by rewrite (proj2 (Hnull x Hx)) in Hxy|].
    destruct Hz as [->|Hz]; [by rewrite (proj2 (Hnull y Hy)) in Hyz|].
    by apply (po_trans _ _ Hpo x y z).
Qed.

Lemma comparable_preord d : PreOrd (comparable d) value_cmp.
Proof.
  apply preord_null; [by intros v [Hd _] ->|].
  pose (key v := match v with
    | Boolean b => if b then 1 else 0 | Integer i => i | Float f => float_rank f | _ => 0 end%Z).
  destruct d.
  - apply (preord_image _ key Z.compare); [apply ord_preord, _|].
    intros [] [] [Hv _] [Hw _]; try done. by destruct b, b0.
  - apply (preord_image _ key Z.compare); [apply ord_preord, _|].
    intros [] [] [Hv _] [Hw _]; try done.
  - apply (preord_image _ key Z.compare); [apply ord_preord, _|].
    intros [] [] [Hv Hf] [Hw Hg]; try done. unfold value_cmp. cbn.
    destruct (Hf f eq_refl), (Hg f0 eq_refl). by rewrite SFcompare_rank.
  - apply (preord_image _ (λ v, match v with String s => s | _ => [] end) bytes_cmp);
      [apply ord_preord, _|].
    intros [] [] [Hv _] [Hw _]; try done.
Qed.

Lemma comparable_cmp d v w : comparable d v → comparable d w → partial_cmp v w = Some (value_cmp v w).
Proof.
  intros Hv Hw. unfold value_cmp. destruct (partial_cmp v w) as [c|] eqn:E; [done|]. exfalso.
  destruct Hv as [->|[Hv Hf]], Hw as [->|[Hw Hg]].
  - done.
  - by destruct w.
  - by destruct v.
  - destruct v, w; cbn in Hv, Hw; simplify_eq; cbn in E; try done.
    destruct (Hf f eq_refl), (Hg f0 eq_refl). by rewrite SFcompare_rank in E.
Qed.

(** * Lists of values *)

Definition direct (d : Direction) (c : comparison) : comparison :=
  match d with Ascending => c | Descending => CompOpp c end.

Fixpoint values_cmp (orders : list Direction) (a b : list Value) : comparison :=
  match orders, a, b with
  | d :: orders, x :: a, y :: b =>
      match direct d (value_cmp x y) with Eq => values_cmp orders a b | c => c end
  | _, _, _ => Eq
  end.

(** Values of the given types, one for every order. *)
Definition comparables (ts : list DataType) (vs : list Value) : Prop := Forall2 comparable ts vs.

Lemma compare_items_ok orders ts a b : length orders = length ts → comparables ts a →
  comparables ts b → compare_items orders a b = Ok (values_cmp orders a b).
Proof.
  intros Hlen Ha Hb. revert orders b Hlen Hb.
  induction Ha as [|t v ts a Hv Ha IH]; intros [|d orders] b Hlen Hb; try done.
  inversion Hb as [|? w ? b' Hw Hb']; subst. cbn [compare_items values_cmp].
  rewrite (comparable_cmp t v w Hv Hw). injection Hlen as Hlen.
  destruct d, (value_cmp v w); cbn; by try apply IH.
Qed.

Lemma values_preord orders ts : length orders = length ts →
  PreOrd (comparables ts) (values_cmp orders).
Proof.
  revert orders. induction ts as [|t ts IH]; intros [|d orders] Hlen; try done.
  injection Hlen as Hlen. specialize (IH orders Hlen).
  assert (PreOrd (comparable t) (λ v w, direct d (value_cmp v w))) as Hd.
  { destruct d; [apply comparable_preord|apply preord_flip, comparable_preord]. }
  split.
  - intros a b Ha Hb. inversion Ha as [|? v ? a' Hv Ha']; inversion Hb as [|? w ? b' Hw Hb']; subst.
    cbn. rewrite (po_anti _ _ Hd v w Hv Hw).
    destruct (direct d (value_cmp v w)); cbn; [by apply (po_anti _ _ IH)|done..].
  - intros a b c Ha Hb Hc. inversion Ha as [|? v ? a' Hv Ha']; inversion Hb as [|? w ? b' Hw Hb'];
      inversion Hc as [|? u ? c' Hu Hc']; subst. cbn.
    destruct (direct d (value_cmp v w)) eqn:E1; [| |done];
      destruct (direct d (value_cmp w u)) eqn:E2; intros Hab Hbc; try done.
    + rewrite (po_eq_trans _ _ Hd v w u Hv Hw Hu E1 E2). exact (po_trans _ _ IH a' b' c' Ha' Hb' Hc' Hab Hbc).
    + rewrite (po_le_lt _ _ Hd v w u Hv Hw Hu); [done|congruence|done].
    + rewrite (po_lt_le _ _ Hd v w u Hv Hw Hu); [done|done|congruence].
    + rewrite (po_lt_le _ _ Hd v w u Hv Hw Hu); [done|done|congruence].
Qed.

(** * The executor *)

Definition item_cmp (orders : list Direction) (x y : Row * list Value) : comparison :=
  values_cmp orders x.2 y.2.

Lemma item_preord orders ts : length orders = length ts →
  PreOrd (λ x : Row * list Value, comparables ts x.2) (item_cmp orders).
Proof.
  intros Hlen. pose proof (values_preord orders ts Hlen) as Hpo. split.
  - intros x y. apply (po_anti _ _ Hpo).
  - intros x y z. apply (po_trans _ _ Hpo).
Qed.

Lemma sort_items_ok orders ts l : length orders = length ts →
  Forall (λ x : Row * list Value, comparables ts x.2) l →
  sort_items orders l = Ok (sort_by (item_cmp orders) l).
Proof.
  intros Hlen. induction 1 as [|x l Hx Hl IH]; [done|]. cbn [sort_items sort_by].
  rewrite IH. cbn [mbind res_bind].
  assert (Forall (λ x : Row * list Value, comparables ts x.2) (sort_by (item_cmp orders) l)) as Hs
    by (by rewrite sort_by_perm).
  revert Hs. generalize (sort_by (item_cmp orders) l) as l'. clear -Hx Hlen.
  induction 1 as [|y l' Hy Hl IH]; [done|]. cbn [insert_item insert_by].
  rewrite (compare_items_ok orders ts) by done. cbn [mbind res_bind]. unfold item_cmp at 1.
  destruct (values_cmp orders x.2 y.2); [done..|]. by rewrite IH.
Qed.

Section order.
Context `{Libm, Regex}.

(** The rows of the source with the values to order by. *)
Definition ordered_by (orders : list (Expression * Direction)) (x : Row * list Value) : Prop :=
  collect ((λ e, evaluate e (Some x.1)) <$> orders.*1) = Ok x.2.

Lemma order_values_ok orders (l : list (Row * list Value)) : Forall (ordered_by orders) l →
  order_values orders.*1 (Ok <$> l.*1) = Ok l.
Proof.
  induction 1 as [|[row vs] l Hx Hl IH]; [done|]. cbn. unfold ordered_by in Hx. cbn in Hx.
  rewrite Hx. cbn. by rewrite IH.
Qed.

Lemma exec_order_ok orders ts cs (l : list (Row * list Value)) :
  length orders = length ts → Forall (ordered_by orders) l →
  Forall (λ x, comparables ts x.2) l →
  exec_order orders (RQuery cs (rows_of (Ok <$> l.*1)))
  = Ok (RQuery cs (rows_of (Ok <$> (sort_by (item_cmp orders.*2) l).*1))).
Proof.
  intros Hlen Hord Hcmp. unfold exec_order, query. cbn [items rows_of forever].
  rewrite order_values_ok by done. cbn [mbind res_bind].
  by rewrite (sort_items_ok orders.*2 ts) by (rewrite ?length_fmap; done).
Qed.
End order.
