(* ===== verification/SqlGroup.v ===== *)
(** Aggregation: a group holds what accumulating the values of its rows gives,
    and the accumulators compute counts, sums, averages and extrema. *)
From Stdlib Require Import Strings.Byte NArith ZArith Lia.
From stdpp Require Import base list strings.
From S2P Require Import Prelude BTreeMap KeyCode Engine SqlTypes SqlExpression SqlSchema SqlKv.
From S2P Require Import SqlStore SqlIntegrity SqlPlan SqlExec SqlAggregate.

Open Scope nat_scope.

(** * Groups *)

(** A group key whose values compare exactly. *)
Definition exact_group (g : list Value) : Prop := Forall (λ v, plain v ∧ v ≠ Null) g.

Lemma same_group_exact g h : exact_group g → same_group g h = true ↔ g = h.
Proof.
  intros Hg. revert h. induction Hg as [|v g [Hp Hn] Hg IH]; intros [|w h]; cbn; try (split; congruence).
  rewrite andb_true_iff, same_key_plain, IH by done. split; [intros [-> ->]; done|by intros [= -> ->]].
Qed.

Lemma hashed_exact {A} g (r : A) : exact_group g → hashed_group g r = Ok r.
Proof. induction 1 as [|v g [_ Hn] Hg IH]; [done|]. by destruct v. Qed.

(** The group and the values of a row with [n] aggregates. *)
Definition group_of (n : nat) (row : Row) : list Value := drop n row.
Definition rows_in (n : nat) (g : list Value) (rows : list Row) : list Row :=
  List.filter (λ row, bool_decide (group_of n row = g)) rows.

(** Accumulating the rows of a group, one after the other. *)
Fixpoint accumulate_rows (n : nat) (rows : list Row) (accs : list Accumulator)
    : res (list Accumulator) :=
  match rows with
  | [] => Ok accs
  | row :: rows => accs ← accumulate_all accs (take n row); accumulate_rows n rows accs
  end.

Lemma accumulate_rows_snoc n rows row accs :
  accumulate_rows n (rows ++ [row]) accs
  = (accs ← accumulate_rows n rows accs; accumulate_all accs (take n row)).
Proof.
  revert accs. induction rows as [|r rows IH]; intros accs; cbn.
  - by destruct (accumulate_all accs (take n row)).
  - destruct (accumulate_all accs (take n r)); cbn; [apply IH|done..].
Qed.

(** The groups after some rows: each key once, with its rows accumulated. *)
Definition grouped (aggs : list Aggregate) (rows : list Row) (gs : Groups) : Prop :=
  NoDup gs.*1 ∧
  (∀ g, g ∈ gs.*1 ↔ ∃ row, row ∈ rows ∧ group_of (length aggs) row = g) ∧
  ∀ g accs, (g, accs) ∈ gs →
    accumulate_rows (length aggs) (rows_in (length aggs) g rows) (accumulator <$> aggs) = Ok accs.

Lemma rows_in_snoc n g rows row :
  rows_in n g (rows ++ [row])
  = rows_in n g rows ++ if bool_decide (group_of n row = g) then [row] else [].
Proof. unfold rows_in. rewrite List.filter_app. cbn. by case_bool_decide. Qed.

Lemma rows_in_none n g rows : (∀ row, row ∈ rows → group_of n row ≠ g) → rows_in n g rows = [].
Proof.
  intros Hn. unfold rows_in. induction rows as [|r rows IH]; [done|]. cbn.
  rewrite bool_decide_false by (apply Hn, list_elem_of_here). apply IH.
  intros row Hr. by apply Hn, list_elem_of_further.
Qed.

(** What [entry(..).or_insert(..)] does, on the list of groups. *)
Lemma group_add_spec aggs g vs gs gs' : Forall (λ p, exact_group p.1) gs → NoDup gs.*1 →
  group_add aggs g vs gs = Ok gs' →
  (∃ gs1 accs accs' gs2, gs = gs1 ++ (g, accs) :: gs2 ∧ gs' = gs1 ++ (g, accs') :: gs2 ∧
     accumulate_all accs vs = Ok accs') ∨
  ((g ∉ gs.*1) ∧ ∃ accs', gs' = gs ++ [(g, accs')] ∧
     accumulate_all (accumulator <$> aggs) vs = Ok accs').
Proof.
  intros Hex Hnd. revert gs'. induction Hex as [|[h accs] gs Hh Hex IH]; intros gs' Hadd; cbn in Hadd.
  - apply res_bind_Ok_inv in Hadd as (accs' & Ha & [= <-]). right.
    split; [apply not_elem_of_nil|]. eauto.
  - apply NoDup_cons in Hnd as [Hni Hnd]. cbn in Hh. destruct (same_group h g) eqn:E.
    + apply same_group_exact in E as ->; [|done].
      apply res_bind_Ok_inv in Hadd as (accs' & Ha & [= <-]). left. by exists [], accs, accs', gs.
    + apply res_bind_Ok_inv in Hadd as (gs2 & Ha & [= <-]).
      assert (h ≠ g) as Hne.
      { intros ->. assert (same_group g g = true) by (by apply same_group_exact). congruence. }
      destruct (IH Hnd gs2 Ha) as [(g1 & a & a' & g2 & -> & -> & Hacc)|(Hni2 & a' & -> & Hacc)].
      * left. by exists ((h, accs) :: g1), a, a', g2.
      * right. split; [|by exists a']. cbn. rewrite not_elem_of_cons. done.
Qed.

Lemma add_row_grouped aggs rows row gs gs' :
  Forall (λ r, exact_group (group_of (length aggs) r)) (rows ++ [row]) →
  grouped aggs rows gs → add_row aggs row gs = Ok gs' → grouped aggs (rows ++ [row]) gs'.
Proof.
  intros Hex (Hnd & Hkeys & Haccs) Hadd. apply Forall_app in Hex as [Hex Hrow].
  apply Forall_cons in Hrow as [Hrow _]. unfold add_row in Hadd.
  destruct (length row <? length aggs); [done|].
  rewrite hashed_exact in Hadd by done. cbn [mbind res_bind] in Hadd.
  change (drop (length aggs) row) with (group_of (length aggs) row) in Hadd.
  remember (group_of (length aggs) row) as g eqn:Hg.
  assert (Forall (λ p, exact_group p.1) gs) as Hexg.
  { apply Forall_forall. intros [h accs] Hin.
    assert (h ∈ gs.*1) as (r & Hr & <-)%Hkeys by (apply list_elem_of_fmap; by exists (h, accs)).
    rewrite Forall_forall in Hex. by apply Hex. }
  assert (∀ h accs, h ≠ g → (h, accs) ∈ gs →
    accumulate_rows (length aggs) (rows_in (length aggs) h (rows ++ [row])) (accumulator <$> aggs)
    = Ok accs) as Hother.
  { intros h accs Hne Hin. rewrite rows_in_snoc, bool_decide_false by congruence.
    rewrite app_nil_r. by apply Haccs. }
  apply group_add_spec in Hadd as [(g1 & a & a' & g2 & -> & -> & Hacc)|(Hni & a' & -> & Hacc)];
    [| |done..].
  - assert ((g1 ++ (g, a) :: g2).*1 = (g1 ++ (g, a') :: g2).*1) as Hfst by (by rewrite !fmap_app).
    split; [by rewrite <-Hfst|]. split.
    + intros h. rewrite <-Hfst, Hkeys. setoid_rewrite elem_of_app.
      setoid_rewrite list_elem_of_singleton. split; [naive_solver|].
      intros (r & [Hr| ->] & <-); [eauto|]. rewrite <-Hg. apply Hkeys. rewrite fmap_app, fmap_cons.
      apply elem_of_app. right. apply list_elem_of_here.
    + intros h accs Hin. destruct (decide (h = g)) as [->|Hne].
      * assert (accs = a') as ->.
        { apply elem_of_app in Hin as [Hin|[[= <-]|Hin]%elem_of_cons]; [|done|];
            exfalso; rewrite fmap_app, fmap_cons in Hnd; apply NoDup_app in Hnd as (_ & Hd & Hnd).
          - apply (Hd g); [apply list_elem_of_fmap; by exists (g, accs)|apply list_elem_of_here].
          - apply NoDup_cons in Hnd as [Hn _]. apply Hn, list_elem_of_fmap. by exists (g, accs). }
        rewrite rows_in_snoc, bool_decide_true, accumulate_rows_snoc by done.
        rewrite (Haccs g a) by (apply elem_of_app; right; apply list_elem_of_here). done.
      * apply Hother; [done|]. apply elem_of_app in Hin as [Hin|[[= ??]|Hin]%elem_of_cons];
          [|done|]; apply elem_of_app; [by left|right; by apply list_elem_of_further].
  - split; [|split].
    + rewrite fmap_app. apply NoDup_app. split; [done|]. split; [|apply NoDup_singleton].
      by intros h Hh ->%list_elem_of_singleton.
    + intros h. rewrite fmap_app, elem_of_app, Hkeys. setoid_rewrite elem_of_app.
      cbn. rewrite list_elem_of_singleton. setoid_rewrite list_elem_of_singleton. split.
      * intros [(r & Hr & <-)| ->]; eauto.
      * intros (r & [Hr| ->] & <-); eauto.
    + intros h accs [Hin|[= -> ->]%list_elem_of_singleton]%elem_of_app.
      * apply Hother; [|done]. intros ->. apply Hni, list_elem_of_fmap. by exists (g, accs).
      * rewrite rows_in_snoc, bool_decide_true, rows_in_none by
          (done || intros r Hr Heq; apply Hni, Hkeys; eauto).
        cbn. by rewrite Hacc.
Qed.

Lemma add_rows_grouped aggs rows done gs gs' :
  Forall (λ r, exact_group (group_of (length aggs) r)) (done ++ rows) →
  grouped aggs done gs → add_rows aggs (Ok <$> rows) gs = Ok gs' →
  grouped aggs (done ++ rows) gs'.
Proof.
  revert done gs. induction rows as [|row rows IH]; intros dn gs Hex Hgs Hadd.
  - rewrite app_nil_r. cbn in Hadd. by simplify_eq.
  - rewrite fmap_cons in Hadd. cbn [add_rows mbind res_bind] in Hadd.
    apply res_bind_Ok_inv in Hadd as (gs1 & H1 & H2).
    rewrite (cons_middle row dn rows), app_assoc in Hex |- *. eapply IH; [done| |done].
    eapply add_row_grouped; [|done..]. by apply Forall_app in Hex as [? _].
Qed.

(** * Accumulators over integers *)

Definition sum_of (zs : list Z) : Z := foldl Z.add 0%Z zs.
Definition best_of (f : Z → Z → Z) (zs : list Z) : option Z :=
  foldl (λ o z, Some (match o with None => z | Some m => f m z end)) None zs.

(** The state of an accumulator after some integers, and the aggregate. *)
Definition state_of (a : Aggregate) (zs : list Z) : Accumulator :=
  let sum := if decide (zs = []) then None else Some (Integer (sum_of zs)) in
  match a with
  | Count => ACount (N.of_nat (length zs))
  | Average => AAverage (N.of_nat (length zs)) sum
  | Max => AMax (Integer <$> best_of Z.max zs)
  | Min => AMin (Integer <$> best_of Z.min zs)
  | Sum => ASum sum
  end.

Definition expected (a : Aggregate) (zs : list Z) : Value :=
  match a with
  | Count => Integer (Z.of_nat (length zs))
  | Average => Integer (Z.quot (sum_of zs) (Z.of_nat (length zs)))
  | Max => Integer (default 0%Z (best_of Z.max zs))
  | Min => Integer (default 0%Z (best_of Z.min zs))
  | Sum => Integer (sum_of zs)
  end.

Lemma sum_of_snoc zs z : sum_of (zs ++ [z]) = (sum_of zs + z)%Z.
Proof. unfold sum_of. by rewrite foldl_app. Qed.

Lemma best_of_snoc f zs z :
  best_of f (zs ++ [z]) = Some (match best_of f zs with None => z | Some m => f m z end).
Proof. unfold best_of. by rewrite foldl_app. Qed.

(** Integers whose sums stay within 64 bits. *)
Definition bounded (b : Z) (zs : list Z) : Prop :=
  Forall (λ z, - b ≤ z ≤ b)%Z zs ∧ (b * Z.of_nat (length zs) ≤ i64_max)%Z.

Lemma bounded_sum b zs : (0 ≤ b)%Z → Forall (λ z, - b ≤ z ≤ b)%Z zs →
  (- (b * Z.of_nat (length zs)) ≤ sum_of zs ≤ b * Z.of_nat (length zs))%Z.
Proof.
  intros Hb. induction zs as [|z zs IH] using rev_ind; intros Hall; [cbn; lia|].
  apply Forall_app in Hall as [Hall Hz]. apply Forall_cons in Hz as [Hz _].
  rewrite sum_of_snoc, length_app. cbn [length]. specialize (IH Hall). lia.
Qed.

Lemma in_range_sum b zs : (0 ≤ b)%Z → bounded b zs → in_i64 (sum_of zs) = true.
Proof.
  intros Hb [Hall Hlen]. pose proof (bounded_sum b zs Hb Hall).
  apply in_i64_spec. unfold i64_valid, i64_min, i64_max in *. lia.
Qed.

Lemma accumulate_integer b a zs z : (0 ≤ b)%Z → bounded b (zs ++ [z]) →
  (N.of_nat (length zs) < u64_max)%N →
  accumulate (state_of a zs) (Integer z) = Ok (state_of a (zs ++ [z])).
Proof.
  intros Hb Hbd Hlen. pose proof (in_range_sum b _ Hb Hbd) as Hin. rewrite sum_of_snoc in Hin.
  assert (zs ++ [z] ≠ []) as Hne by (by destruct zs).
  assert (count_add (N.of_nat (length zs)) (Integer z) = Ok (N.of_nat (length (zs ++ [z])))) as Hc.
  { cbn. rewrite add_u64_Ok by lia. f_equal. rewrite length_app. cbn. lia. }
  assert (∀ s, s = (if decide (zs = []) then None else Some (Integer (sum_of zs))) →
    sum_add s (Integer z) = Ok (Some (Integer (sum_of (zs ++ [z]))))) as Hs.
  { intros s ->. rewrite sum_of_snoc. case_decide as Hz; [by subst|]. cbn [sum_add]. by rewrite Hin. }
  destruct a; cbn [state_of accumulate]; rewrite ?(decide_False (P:=zs ++ [z] = [])) by done.
  - rewrite Hc. cbn [mbind res_bind]. by rewrite (Hs _ eq_refl).
  - by rewrite Hc.
  - rewrite best_of_snoc. destruct (best_of Z.max zs) as [m|]; [|done]. cbn.
    do 2 f_equal. destruct (Z.compare_spec z m); case_decide; try done; repeat f_equal; lia.
  - rewrite best_of_snoc. destruct (best_of Z.min zs) as [m|]; [|done]. cbn.
    do 2 f_equal. destruct (Z.compare_spec z m); case_decide; try done; repeat f_equal; lia.
  - by rewrite (Hs _ eq_refl).
Qed.

Lemma aggregate_integers a zs : zs ≠ [] → (Z.of_nat (length zs) ≤ i64_max)%Z →
  aggregate (state_of a zs) = Ok (expected a zs).
Proof.
  intros Hne Hlen. assert (n_as_i64 (N.of_nat (length zs)) = Z.of_nat (length zs)) as Hc.
  { unfold n_as_i64, i64_max in *. destruct (N.ltb_spec (N.of_nat (length zs)) 9223372036854775808); lia. }
  assert (length zs ≠ 0%nat) as Hl by (by destruct zs).
  assert (∀ f, ∃ m, best_of f zs = Some m) as Hbest.
  { intros f. destruct zs as [|z zs] using rev_ind; [done|]. rewrite best_of_snoc. eauto. }
  destruct a; cbn [state_of aggregate expected]; rewrite ?(decide_False (P:=zs = [])) by done.
  - cbn. rewrite Hc, decide_False by lia. done.
  - by rewrite Hc.
  - by destruct (Hbest Z.max) as [m ->].
  - by destruct (Hbest Z.min) as [m ->].
  - done.
Qed.

(** ** Rows of integers *)

(** The integer in a column of a row. *)
Definition int_at (i : nat) (row : Row) : Z :=
  match row !! i with Some (Integer z) => z | _ => 0%Z end.
Definition int_row (n : nat) (row : Row) : Prop :=
  ∀ i, i < n → row !! i = Some (Integer (int_at i row)).

Lemma accumulate_all_integers (b : Z) (aggs : list Aggregate) (zss : nat → list Z) (row : Row) (k : nat) : (0 ≤ b)%Z →
  (∀ i, i < length aggs → row !! (k + i)%nat = Some (Integer (int_at (k + i)%nat row))) →
  (∀ i, i < length aggs → bounded b (zss (k + i)%nat ++ [int_at (k + i)%nat row]) ∧
     (N.of_nat (length (zss (k + i)%nat)) < u64_max)%N) →
  accumulate_all (imap (λ i a, state_of a (zss (k + i)%nat)) aggs) (take (length aggs) (drop k row))
  = Ok (imap (λ i a, state_of a (zss (k + i)%nat ++ [int_at (k + i)%nat row])) aggs).
Proof.
  intros Hb. revert k. induction aggs as [|a aggs IH]; intros k Hrow Hbd; [done|].
  pose proof (Hrow 0 ltac:(cbn; lia)) as Hk. rewrite Nat.add_0_r in Hk.
  rewrite (drop_S _ _ _ Hk). cbn [length take imap accumulate_all].
  destruct (Hbd 0 ltac:(cbn; lia)) as [Hb0 Hl0]. rewrite Nat.add_0_r in *.
  rewrite (accumulate_integer b) by done. cbn [mbind res_bind].
  specialize (IH (S k)).
  assert (∀ f : nat → list Z, imap ((λ i a, state_of a (f (k + i)%nat)) ∘ S) aggs
    = imap (λ i a, state_of a (f (S k + i))) aggs) as Hshift.
  { intros f. apply imap_ext. intros i a' _. cbn. by rewrite Nat.add_succ_r. }
  rewrite (Hshift zss). rewrite IH.
  - cbn [mbind res_bind]. do 2 f_equal.
    by rewrite (Hshift (λ j, zss j ++ [int_at j row])).
  - intros i Hi. specialize (Hrow (S i) ltac:(cbn; lia)). by rewrite Nat.add_succ_r in Hrow.
  - intros i Hi. specialize (Hbd (S i) ltac:(cbn; lia)). by rewrite Nat.add_succ_r in Hbd.
Qed.

(** Rows with integers of bounded size in the aggregated columns. *)
Definition summable (b : Z) (n : nat) (rows : list Row) : Prop :=
  (0 ≤ b)%Z ∧ Forall (λ row, int_row n row ∧ ∀ i, i < n → (- b ≤ int_at i row ≤ b)%Z) rows ∧
  (b * Z.of_nat (length rows) ≤ i64_max)%Z ∧ (Z.of_nat (length rows) ≤ i64_max)%Z.

Lemma summable_sub b n rows rows' : summable b n rows → length rows' ≤ length rows →
  (∀ r, r ∈ rows' → r ∈ rows) → summable b n rows'.
Proof.
  intros (Hb & Hall & H1 & H2) Hlen Hsub. split; [done|]. split; [|split; nia].
  rewrite Forall_forall in *. auto.
Qed.

Lemma summable_bounded b n rows i : summable b n rows → i < n → bounded b (int_at i <$> rows).
Proof.
  intros (Hb & Hall & H1 & _) Hi. split; [|by rewrite length_fmap].
  apply Forall_fmap. eapply Forall_impl; [exact Hall|]. intros row [_ Hr]. by apply Hr.
Qed.

Lemma accumulate_rows_integers b aggs rows : summable b (length aggs) rows →
  accumulate_rows (length aggs) rows (accumulator <$> aggs)
  = Ok (imap (λ i a, state_of a (int_at i <$> rows)) aggs).
Proof.
  induction rows as [|row rows IH] using rev_ind; intros Hs.
  - cbn. f_equal. apply list_eq. intros i. rewrite list_lookup_fmap, list_lookup_imap.
    destruct (aggs !! i) as [[]|]; done.
  - rewrite accumulate_rows_snoc, IH.
    2:{ eapply summable_sub; [exact Hs|rewrite length_app; lia|].
        intros r Hr. apply elem_of_app. by left. }
    cbn [mbind res_bind].
    pose proof (accumulate_all_integers b aggs (λ i, int_at i <$> rows) row 0) as Hacc.
    rewrite drop_0 in Hacc. cbn [Nat.add] in Hacc. rewrite Hacc.
    + f_equal. apply imap_ext. intros i a _. cbn. by rewrite fmap_app.
    + apply Hs.
    + destruct Hs as (_ & Hall & _). rewrite Forall_forall in Hall. intros i Hi.
      apply Hall; [apply elem_of_app; right; apply list_elem_of_here|done].
    + intros i Hi. split.
      * pose proof (summable_bounded b _ _ i Hs Hi) as Hbd. by rewrite fmap_app in Hbd.
      * rewrite length_fmap. destruct Hs as (_ & _ & _ & Hlen). rewrite length_app in Hlen.
        unfold i64_max, u64_max in *. cbn in Hlen. lia.
Qed.

Lemma length_rows_in n g rows : length (rows_in n g rows) ≤ length rows.
Proof. apply List.filter_length_le. Qed.

Lemma elem_of_rows_in n g rows r : r ∈ rows_in n g rows ↔ r ∈ rows ∧ group_of n r = g.
Proof. unfold rows_in. by rewrite elem_of_filter_bool, bool_decide_eq_true. Qed.

Lemma group_add_total aggs g vs gs :
  (∀ h accs, (h, accs) ∈ gs → exact_group h) →
  (∀ accs, (g, accs) ∈ gs → ∃ accs', accumulate_all accs vs = Ok accs') →
  (∃ accs', accumulate_all (accumulator <$> aggs) vs = Ok accs') →
  ∃ gs', group_add aggs g vs gs = Ok gs'.
Proof.
  intros Hex Hin Hnew. induction gs as [|[h accs] gs IH]; cbn.
  - destruct Hnew as [a ->]. cbn. eauto.
  - destruct (same_group h g) eqn:E.
    + apply same_group_exact in E as ->; [|eapply Hex, list_elem_of_here].
      destruct (Hin accs (list_elem_of_here _ _)) as [a ->]. cbn. eauto.
    + destruct IH as [gs' ->]; [|intros; by apply Hin, list_elem_of_further|cbn; eauto].
      intros h' a Ha. by eapply Hex, list_elem_of_further.
Qed.

Lemma add_rows_total b aggs rows dn gs :
  Forall (λ r, exact_group (group_of (length aggs) r)) (dn ++ rows) →
  summable b (length aggs) (dn ++ rows) → grouped aggs dn gs →
  ∃ gs', add_rows aggs (Ok <$> rows) gs = Ok gs'.
Proof.
  revert dn gs. induction rows as [|row rows IH]; intros dn gs Hex Hs Hgs; [cbn; eauto|].
  rewrite fmap_cons. cbn [add_rows mbind res_bind].
  rewrite (cons_middle row dn rows), app_assoc in Hex, Hs.
  pose proof Hex as [Hex1 _]%Forall_app.
  assert (summable b (length aggs) (dn ++ [row])) as Hs1.
  { eapply summable_sub; [exact Hs|rewrite !length_app; cbn; lia|].
    intros r Hr. apply elem_of_app. by left. }
  assert (∃ gs1, add_row aggs row gs = Ok gs1) as [gs1 Hadd].
  { unfold add_row. pose proof Hs1 as (_ & Hall & _). rewrite Forall_forall in Hall.
    destruct (Hall row) as [Hint _]; [apply elem_of_app; right; apply list_elem_of_here|].
    destruct (Nat.ltb_spec (length row) (length aggs)) as [Hlt|_].
    { exfalso. specialize (Hint (length row) Hlt). by rewrite lookup_ge_None_2 in Hint. }
    pose proof Hex1 as Hex2. rewrite Forall_forall in Hex2.
    rewrite hashed_exact by (apply Hex2, elem_of_app; right; apply list_elem_of_here).
    cbn [mbind res_bind]. destruct Hgs as (_ & Hkeys & Haccs).
    assert (∀ rs, (∀ r, r ∈ rs → r ∈ dn) → length rs ≤ length dn →
      ∀ accs, accumulate_rows (length aggs) rs (accumulator <$> aggs) = Ok accs →
      ∃ accs', accumulate_all accs (take (length aggs) row) = Ok accs') as Hacc.
    { intros rs Hsub Hlen accs Hrs.
      pose proof (accumulate_rows_integers b aggs (rs ++ [row])) as Hall2.
      rewrite accumulate_rows_snoc, Hrs in Hall2. cbn [mbind res_bind] in Hall2.
      eexists. apply Hall2. eapply summable_sub; [exact Hs1|rewrite !length_app; cbn; lia|].
      intros r [Hr|Hr]%elem_of_app; apply elem_of_app; auto. }
    apply group_add_total.
    - intros h accs Hin.
      assert (h ∈ gs.*1) as (r & Hr & <-)%Hkeys by (apply list_elem_of_fmap; by exists (h, accs)).
      apply Hex2, elem_of_app. by left.
    - intros accs Hin. eapply Hacc; [| |by apply Haccs].
      + by intros r [? _]%elem_of_rows_in.
      + apply length_rows_in.
    - apply (Hacc []); [by intros ? ?%not_elem_of_nil|cbn; lia|done]. }
  rewrite Hadd. cbn [mbind res_bind]. eapply IH; [exact Hex|exact Hs|].
  by eapply add_row_grouped.
Qed.

(** The groups of the rows, with the aggregates of their integers. *)
Lemma exec_aggregation_integers b aggs cs rows : rows ≠ [] →
  Forall (λ r, exact_group (group_of (length aggs) r)) rows → summable b (length aggs) rows →
  ∃ cs' out, exec_aggregation aggs (RQuery cs (rows_of (Ok <$> rows)))
      = Ok (RQuery cs' (rows_of (Ok <$> out))) ∧
    NoDup (group_of (length aggs) <$> out) ∧
    ∀ r, r ∈ out ↔ ∃ row, row ∈ rows ∧
      r = imap (λ i a, expected a (int_at i <$> rows_in (length aggs) (group_of (length aggs) row) rows)) aggs
          ++ group_of (length aggs) row.
Proof.
  intros Hne Hex Hs. assert (grouped aggs [] []) as H0.
  { split; [constructor|]. split; [|by intros ? ? ?%not_elem_of_nil].
    intros g. split; [by intros ?%not_elem_of_nil|by intros (? & ?%not_elem_of_nil & _)]. }
  destruct (add_rows_total b aggs rows [] [] Hex Hs H0) as [gs Hgs].
  pose proof (add_rows_grouped aggs rows [] [] gs Hex H0 Hgs) as (Hnd & Hkeys & Haccs).
  unfold exec_aggregation, query. cbn [items rows_of forever]. rewrite Hgs. cbn [mbind res_bind].
  assert (gs ≠ []) as Hgne.
  { intros ->. destruct rows as [|row rows]; [done|].
    apply (not_elem_of_nil (group_of (length aggs) row)), Hkeys. exists row.
    split; [apply list_elem_of_here|done]. }
  rewrite decide_False by tauto.
  pose (out := (λ g, imap (λ i a, expected a (int_at i <$> rows_in (length aggs) g rows)) aggs ++ g)
    <$> gs.*1).
  assert (group_row <$> gs = Ok <$> out) as Hout.
  { subst out. rewrite <-!list_fmap_compose. apply list_fmap_ext. intros k [g accs] Hk. cbn.
    apply list_elem_of_lookup_2 in Hk. specialize (Haccs g accs Hk).
    assert (∃ row, row ∈ rows ∧ group_of (length aggs) row = g) as (row & Hrow & Hg).
    { apply Hkeys, list_elem_of_fmap. by exists (g, accs). }
    assert (summable b (length aggs) (rows_in (length aggs) g rows)) as Hsg.
    { eapply summable_sub; [exact Hs|apply length_rows_in|]. by intros r [? _]%elem_of_rows_in. }
    rewrite (accumulate_rows_integers b) in Haccs by done. simplify_eq. unfold group_row. cbn [fst snd].
    assert (aggregate <$> imap (λ i a, state_of a (int_at i <$> rows_in (length aggs)
        (group_of (length aggs) row) rows)) aggs
      = Ok <$> imap (λ i a, expected a (int_at i <$> rows_in (length aggs)
        (group_of (length aggs) row) rows)) aggs) as ->.
    { apply list_eq. intros i. rewrite !list_lookup_fmap, !list_lookup_imap.
      destruct (aggs !! i); [|done]. cbn. f_equal. apply aggregate_integers.
      - intros Hnil%fmap_nil_inv. apply (not_elem_of_nil row). rewrite <-Hnil.
        by apply elem_of_rows_in.
      - rewrite length_fmap. apply Hsg. }
    rewrite collect_ok. done. }
  eexists _, out. split; [by rewrite Hout|].
  assert (group_of (length aggs) <$> out = gs.*1) as Hgo.
  { subst out. rewrite <-list_fmap_compose. rewrite <-(list_fmap_id gs.*1) at 2.
    apply list_fmap_ext. intros k g _. unfold group_of, compose.
    rewrite drop_app_length'; [done|]. by rewrite length_imap. }
  split; [by rewrite Hgo|]. intros r. subst out. rewrite list_elem_of_fmap. split.
  - intros (g & -> & (row & Hrow & <-)%Hkeys). eauto.
  - intros (row & Hrow & ->). eexists. split; [done|]. apply Hkeys. eauto.
Qed.
