(* ===== verification/SqlAst.v ===== *)
(** The abstract syntax of SQL statements (src/src/sql/parser/ast.rs).  The
    constructors carry the prefix [A] (expressions and operations), [L]
    (literals) and [S] (statements). *)
From Stdlib Require Import Strings.Byte NArith ZArith Lia Floats.SpecFloat.
From stdpp Require Import base list strings.
From S2P Require Import Prelude KeyCode Engine SqlTypes.

(** [ast::Literal]. *)
Inductive Literal :=
| LNull
| LBoolean (b : bool)
| LInteger (i : Z)
| LFloat (f : f64)
| LString (s : bytes).

(** [ast::Operation], over the type of its operands. *)
Inductive Operation (E : Type) :=
| AAnd (lhs rhs : E)
| ANot (expr : E)
| AOr (lhs rhs : E)
| AEqual (lhs rhs : E)
| AGreaterThan (lhs rhs : E)
| AGreaterThanOrEqual (lhs rhs : E)
| AIsNull (expr : E)
| ALessThan (lhs rhs : E)
| ALessThanOrEqual (lhs rhs : E)
| ANotEqual (lhs rhs : E)
| AAdd (lhs rhs : E)
| AAssert (expr : E)
| ADivide (lhs rhs : E)
| AExponentiate (lhs rhs : E)
| AFactorial (expr : E)
| AModulo (lhs rhs : E)
| AMultiply (lhs rhs : E)
| ANegate (expr : E)
| ASubtract (lhs rhs : E)
| ALike (lhs rhs : E).
Arguments AAnd {E} lhs rhs.
Arguments ANot {E} expr.
Arguments AOr {E} lhs rhs.
Arguments AEqual {E} lhs rhs.
Arguments AGreaterThan {E} lhs rhs.
Arguments AGreaterThanOrEqual {E} lhs rhs.
Arguments AIsNull {E} expr.
Arguments ALessThan {E} lhs rhs.
Arguments ALessThanOrEqual {E} lhs rhs.
Arguments ANotEqual {E} lhs rhs.
Arguments AAdd {E} lhs rhs.
Arguments AAssert {E} expr.
Arguments ADivide {E} lhs rhs.
Arguments AExponentiate {E} lhs rhs.
Arguments AFactorial {E} expr.
Arguments AModulo {E} lhs rhs.
Arguments AMultiply {E} lhs rhs.
Arguments ANegate {E} expr.
Arguments ASubtract {E} lhs rhs.
Arguments ALike {E} lhs rhs.

(** [ast::Expression]. *)
#[warnings="-register-all"]
Inductive AstExpression :=
| AField (table : option bytes) (name : bytes)
| AColumn (i : N)
| ALiteral (l : Literal)
| AFunction (name : bytes) (args : list AstExpression)
| AOperation (op : Operation AstExpression).

(** [ast::Column]. *)
Record AstColumn := {
  ac_name : bytes;
  ac_datatype : DataType;
  ac_primary_key : bool;
  ac_nullable : option bool;
  ac_default : option AstExpression;
  ac_unique : bool;
  ac_index : bool;
  ac_references : option bytes
}.

(** [ast::JoinType]. *)
Inductive JoinType := JCross | JInner | JLeft | JRight.

(** [ast::FromItem]. *)
Inductive FromItem :=
| FTable (name : bytes) (alias : option bytes)
| FJoin (lhs rhs : FromItem) (type : JoinType) (predicate : option AstExpression).

(** [ast::Order]. *)
Inductive AstOrder := OAscending | ODescending.

(** The clauses of a SELECT statement. *)
Record SelectStatement := {
  s_select : list (AstExpression * option bytes);
  s_from : list FromItem;
  s_where : option AstExpression;
  s_group_by : list AstExpression;
  s_having : option AstExpression;
  s_order : list (AstExpression * AstOrder);
  s_offset : option AstExpression;
  s_limit : option AstExpression
}.

(** [ast::Statement].  The assignments of an UPDATE are in a [BTreeMap], here
    the list of its entries by column name. *)
Inductive Statement :=
| SBegin (read_only : bool) (as_of : option N)
| SCommit
| SRollback
| SExplain (statement : Statement)
| SCreateTable (name : bytes) (columns : list AstColumn)
| SDropTable (name : bytes) (if_exists : bool)
| SDelete (table : bytes) (where_ : option AstExpression)
| SInsert (table : bytes) (columns : option (list bytes)) (values : list (list AstExpression))
| SUpdate (table : bytes) (set_ : list (bytes * AstExpression)) (where_ : option AstExpression)
| SSelect (select : SelectStatement).

(** * Equality *)

(** The derived [PartialEq]: floats compare as numbers. *)
Definition literal_eq (a b : Literal) : bool :=
  match a, b with
  | LNull, LNull => true
  | LBoolean x, LBoolean y => Bool.eqb x y
  | LInteger x, LInteger y => (x =? y)%Z
  | LFloat x, LFloat y => SFeqb x y
  | LString x, LString y => bool_decide (x = y)
  | _, _ => false
  end.

Fixpoint ast_eq (a b : AstExpression) : bool :=
  match a, b with
  | AField t n, AField t' n' => bool_decide (t = t' ∧ n = n')
  | AColumn i, AColumn j => (i =? j)%N
  | ALiteral l, ALiteral l' => literal_eq l l'
  | AFunction f args, AFunction f' args' =>
      bool_decide (f = f') &&
      (fix all l l' :=
         match l, l' with
         | [], [] => true
         | x :: l, y :: l' => ast_eq x y && all l l'
         | _, _ => false
         end) args args'
  | AOperation op, AOperation op' =>
      match op, op' with
      | AAnd x y, AAnd x' y' | AOr x y, AOr x' y' | AEqual x y, AEqual x' y'
      | AGreaterThan x y, AGreaterThan x' y' | AGreaterThanOrEqual x y, AGreaterThanOrEqual x' y'
      | ALessThan x y, ALessThan x' y' | ALessThanOrEqual x y, ALessThanOrEqual x' y'
      | ANotEqual x y, ANotEqual x' y' | AAdd x y, AAdd x' y' | ADivide x y, ADivide x' y'
      | AExponentiate x y, AExponentiate x' y' | AModulo x y, AModulo x' y'
      | AMultiply x y, AMultiply x' y' | ASubtract x y, ASubtract x' y'
      | ALike x y, ALike x' y' => ast_eq x x' && ast_eq y y'
      | ANot x, ANot x' | AIsNull x, AIsNull x' | AAssert x, AAssert x'
      | AFactorial x, AFactorial x' | ANegate x, ANegate x' => ast_eq x x'
      | _, _ => false
      end
  | _, _ => false
  end.

(** * Traversals *)

Section transform.
Context {T : Type} (before after : AstExpression → M T AstExpression).

(** The operands, left to right. *)
Definition map_operands (f : AstExpression → M T AstExpression) (e : AstExpression)
    : M T AstExpression :=
  let binary (c : AstExpression → AstExpression → Operation AstExpression) l r :=
    l ← f l; r ← f r; mret (AOperation (c l r)) in
  let unary (c : AstExpression → Operation AstExpression) x :=
    x ← f x; mret (AOperation (c x)) in
  match e with
  | AOperation op =>
      match op with
      | AAdd l r => binary AAdd l r
      | AAnd l r => binary AAnd l r
      | ADivide l r => binary ADivide l r
      | AEqual l r => binary AEqual l r
      | AExponentiate l r => binary AExponentiate l r
      | AGreaterThan l r => binary AGreaterThan l r
      | AGreaterThanOrEqual l r => binary AGreaterThanOrEqual l r
      | ALessThan l r => binary ALessThan l r
      | ALessThanOrEqual l r => binary ALessThanOrEqual l r
      | ALike l r => binary ALike l r
      | AModulo l r => binary AModulo l r
      | AMultiply l r => binary AMultiply l r
      | ANotEqual l r => binary ANotEqual l r
      | AOr l r => binary AOr l r
      | ASubtract l r => binary ASubtract l r
      | AAssert x => unary AAssert x
      | AFactorial x => unary AFactorial x
      | AIsNull x => unary AIsNull x
      | ANegate x => unary ANegate x
      | ANot x => unary ANot x
      end
  | AFunction name args =>
      args ← (fix go l := match l with
                          | [] => mret []
                          | x :: l => x ← f x; l ← go l; mret (x :: l)
                          end) args;
      mret (AFunction name args)
  | ALiteral _ | AField _ _ | AColumn _ => mret e
  end.

(** [Expression::transform]; the closures may change [T].  The recursion is on
    what [before] returns, which the depth bounds when it does not grow. *)
Fixpoint ast_transform (fuel : nat) (e : AstExpression) : M T AstExpression :=
  e ← before e;
  match fuel with
  | O => lift (Panic "transform: out of fuel")
  | S fuel => e ← map_operands (ast_transform fuel) e; after e
  end.
End transform.

(** The depth of an expression. *)
Fixpoint ast_depth (e : AstExpression) : nat :=
  match e with
  | AOperation op =>
      match op with
      | AAdd l r | AAnd l r | ADivide l r | AEqual l r | AExponentiate l r | AGreaterThan l r
      | AGreaterThanOrEqual l r | ALessThan l r | ALessThanOrEqual l r | ALike l r
      | AModulo l r | AMultiply l r | ANotEqual l r | AOr l r | ASubtract l r =>
          S (max (ast_depth l) (ast_depth r))
      | AAssert x | AFactorial x | AIsNull x | ANegate x | ANot x => S (ast_depth x)
      end
  | AFunction _ args => S (foldr (λ x n, max (ast_depth x) n) O args)
  | ALiteral _ | AField _ _ | AColumn _ => 1%nat
  end.

(** [Expression::walk]. *)
Fixpoint ast_walk (visitor : AstExpression → bool) (e : AstExpression) : bool :=
  visitor e &&
  match e with
  | AOperation op =>
      match op with
      | AAdd l r | AAnd l r | ADivide l r | AEqual l r | AExponentiate l r | AGreaterThan l r
      | AGreaterThanOrEqual l r | ALessThan l r | ALessThanOrEqual l r | ALike l r
      | AModulo l r | AMultiply l r | ANotEqual l r | AOr l r | ASubtract l r =>
          ast_walk visitor l && ast_walk visitor r
      | AAssert x | AFactorial x | AIsNull x | ANegate x | ANot x => ast_walk visitor x
      end
  | AFunction _ args => forallb (ast_walk visitor) args
  | ALiteral _ | AField _ _ | AColumn _ => true
  end.

(** [Expression::contains]. *)
Definition ast_contains (visitor : AstExpression → bool) (e : AstExpression) : bool :=
  negb (ast_walk (λ e, negb (visitor e)) e).

(** * Induction *)

(** What holds of every operand. *)
Definition operands_all (P : AstExpression → Prop) (op : Operation AstExpression) : Prop :=
  match op with
  | AAdd l r | AAnd l r | ADivide l r | AEqual l r | AExponentiate l r | AGreaterThan l r
  | AGreaterThanOrEqual l r | ALessThan l r | ALessThanOrEqual l r | ALike l r
  | AModulo l r | AMultiply l r | ANotEqual l r | AOr l r | ASubtract l r => P l ∧ P r
  | AAssert x | AFactorial x | AIsNull x | ANegate x | ANot x => P x
  end.

Lemma ast_ind (P : AstExpression → Prop) :
  (∀ t n, P (AField t n)) → (∀ i, P (AColumn i)) → (∀ l, P (ALiteral l)) →
  (∀ f args, Forall P args → P (AFunction f args)) →
  (∀ op, operands_all P op → P (AOperation op)) →
  ∀ e, P e.
Proof.
  intros Hf Hc Hl Hfn Hop. fix IH 1. intros [t n|i|l|f args|op]; [apply Hf|apply Hc|apply Hl|..].
  - apply Hfn. induction args as [|x args IHargs]; constructor; [apply IH|apply IHargs].
  - apply Hop. destruct op; cbn; auto.
Qed.
