(* ===== verification/SqlLexer.v ===== *)
(** The SQL lexer (src/src/sql/parser/lexer.rs).  Its state is what is left of
    the input, as the iterator [Chars] yields it: a list of characters, which
    are Unicode scalar values.  The tables of Unicode in the standard library
    are the class [Unicode], with their ASCII part as its laws. *)
From Stdlib Require Import Strings.Byte Strings.Ascii Strings.String NArith ZArith Lia.
From stdpp Require Import base list strings.
From S2P Require Import Prelude KeyCode Engine SqlTypes.

Open Scope N_scope.

(** * Characters *)

Abbreviation char := N.

(** [String::push]: a character as UTF-8. *)
Definition utf8_char (c : char) : bytes :=
  if c <? 128 then [n2b c]
  else if c <? 2048 then [n2b (192 + c / 64); n2b (128 + c mod 64)]
  else if c <? 65536 then
    [n2b (224 + c / 4096); n2b (128 + (c / 64) mod 64); n2b (128 + c mod 64)]
  else
    [n2b (240 + c / 262144); n2b (128 + (c / 4096) mod 64); n2b (128 + (c / 64) mod 64);
     n2b (128 + c mod 64)].

(** A string from its characters. *)
Definition str (cs : list char) : bytes := concat (utf8_char <$> cs).

(** [str::chars], on valid UTF-8. *)
Fixpoint chars (bs : bytes) : list char :=
  match bs with
  | [] => []
  | b0 :: r =>
      let n := b2n b0 in
      if n <? 128 then n :: chars r
      else if n <? 224 then
        match r with
        | b1 :: r => (n - 192) * 64 + (b2n b1 - 128) :: chars r
        | _ => []
        end
      else if n <? 240 then
        match r with
        | b1 :: b2 :: r => (n - 224) * 4096 + (b2n b1 - 128) * 64 + (b2n b2 - 128) :: chars r
        | _ => []
        end
      else
        match r with
        | b1 :: b2 :: b3 :: r =>
            (n - 240) * 262144 + (b2n b1 - 128) * 4096 + (b2n b2 - 128) * 64 + (b2n b3 - 128)
            :: chars r
        | _ => []
        end
  end.

(** A literal of the source. *)
Definition ch (a : ascii) : char := N_of_ascii a.
Arguments ch a%_char_scope.
Definition text (s : string) : list char := ch <$> list_ascii_of_string s.

(** The character classes and case mappings of Unicode. *)
Class Unicode := {
  is_alphabetic : char → bool;
  is_numeric : char → bool;
  is_whitespace : char → bool;
  to_uppercase : list char → list char;
  to_lowercase : list char → list char
}.

Definition ascii_upper (c : char) : bool := (65 <=? c) && (c <=? 90).
Definition ascii_lower (c : char) : bool := (97 <=? c) && (c <=? 122).
Definition is_ascii_digit (c : char) : bool := (48 <=? c) && (c <=? 57).
Definition ascii_space (c : char) : bool := (c =? 32) || ((9 <=? c) && (c <=? 13)).
Definition upper (c : char) : char := if ascii_lower c then c - 32 else c.
Definition lower (c : char) : char := if ascii_upper c then c + 32 else c.
Definition is_ascii (c : char) : Prop := c < 128.
(** A Unicode scalar value, as a [char] is. *)
Definition scalar (c : char) : Prop := c < 55296 ∨ 57344 <= c < 1114112.

Class UnicodeLaws `{Unicode} : Prop := {
  alphabetic_ascii c : is_ascii c → is_alphabetic c = ascii_upper c || ascii_lower c;
  numeric_ascii c : is_ascii c → is_numeric c = is_ascii_digit c;
  whitespace_ascii c : is_ascii c → is_whitespace c = ascii_space c;
  uppercase_ascii cs : Forall is_ascii cs → to_uppercase cs = upper <$> cs;
  lowercase_ascii cs : Forall is_ascii cs → to_lowercase cs = lower <$> cs;
  lowercase_scalar cs : Forall scalar cs → Forall scalar (to_lowercase cs);
  alphabetic_not_space c : is_alphabetic c = true → is_whitespace c = false
}.

(** [char::is_alphanumeric]. *)
Definition is_alphanumeric `{Unicode} (c : char) : bool := is_alphabetic c || is_numeric c.

(** * Tokens *)

Inductive Keyword :=
| KwAnd | KwAs | KwAsc | KwBegin | KwBool | KwBoolean | KwBy | KwChar | KwCommit
| KwCreate | KwCross | KwDefault | KwDelete | KwDesc | KwDouble | KwDrop | KwExists
| KwExplain | KwFalse | KwFloat | KwFrom | KwGroup | KwHaving | KwIf | KwIndex
| KwInfinity | KwInner | KwInsert | KwInt | KwInteger | KwInto | KwIs | KwJoin | KwKey
| KwLeft | KwLike | KwLimit | KwNaN | KwNot | KwNull | KwOf | KwOffset | KwOn | KwOnly
| KwOr | KwOrder | KwOuter | KwPrimary | KwRead | KwReferences | KwRight | KwRollback
| KwSelect | KwSet | KwString | KwSystem | KwTable | KwText | KwTime | KwTransaction
| KwTrue | KwUnique | KwUpdate | KwValues | KwVarchar | KwWhere | KwWrite.

#[export] Instance keyword_eq_dec : EqDecision Keyword.
Proof. solve_decision. Defined.

(** The arms of [Keyword::from_str]. *)
Definition keywords : list (string * Keyword) := [
  ("AS", KwAs); ("ASC", KwAsc); ("AND", KwAnd); ("BEGIN", KwBegin); ("BOOL", KwBool);
  ("BOOLEAN", KwBoolean); ("BY", KwBy); ("CHAR", KwChar); ("COMMIT", KwCommit);
  ("CREATE", KwCreate); ("CROSS", KwCross); ("DEFAULT", KwDefault);
  ("DELETE", KwDelete); ("DESC", KwDesc); ("DOUBLE", KwDouble); ("DROP", KwDrop);
  ("EXISTS", KwExists); ("EXPLAIN", KwExplain); ("FALSE", KwFalse); ("FLOAT", KwFloat);
  ("FROM", KwFrom); ("GROUP", KwGroup); ("HAVING", KwHaving); ("IF", KwIf);
  ("INDEX", KwIndex); ("INFINITY", KwInfinity); ("INNER", KwInner);
  ("INSERT", KwInsert); ("INT", KwInt); ("INTEGER", KwInteger); ("INTO", KwInto);
  ("IS", KwIs); ("JOIN", KwJoin); ("KEY", KwKey); ("LEFT", KwLeft); ("LIKE", KwLike);
  ("LIMIT", KwLimit); ("NAN", KwNaN); ("NOT", KwNot); ("NULL", KwNull); ("OF", KwOf);
  ("OFFSET", KwOffset); ("ON", KwOn); ("ONLY", KwOnly); ("OR", KwOr);
  ("ORDER", KwOrder); ("OUTER", KwOuter); ("PRIMARY", KwPrimary); ("READ", KwRead);
  ("REFERENCES", KwReferences); ("RIGHT", KwRight); ("ROLLBACK", KwRollback);
  ("SELECT", KwSelect); ("SET", KwSet); ("STRING", KwString); ("SYSTEM", KwSystem);
  ("TABLE", KwTable); ("TEXT", KwText); ("TIME", KwTime);
  ("TRANSACTION", KwTransaction); ("TRUE", KwTrue); ("UNIQUE", KwUnique);
  ("UPDATE", KwUpdate); ("VALUES", KwValues); ("VARCHAR", KwVarchar);
  ("WHERE", KwWhere); ("WRITE", KwWrite)].

Definition from_str `{Unicode} (ident : list char) : option Keyword :=
  snd <$> List.find (λ p, bool_decide (text p.1 = to_uppercase ident)) keywords.

Definition to_str (k : Keyword) : string :=
  match k with
  | KwAs => "AS" | KwAsc => "ASC" | KwAnd => "AND" | KwBegin => "BEGIN"
  | KwBool => "BOOL" | KwBoolean => "BOOLEAN" | KwBy => "BY" | KwChar => "CHAR"
  | KwCommit => "COMMIT" | KwCreate => "CREATE" | KwCross => "CROSS"
  | KwDefault => "DEFAULT" | KwDelete => "DELETE" | KwDesc => "DESC"
  | KwDouble => "DOUBLE" | KwDrop => "DROP" | KwExists => "EXISTS"
  | KwExplain => "EXPLAIN" | KwFalse => "FALSE" | KwFloat => "FLOAT" | KwFrom => "FROM"
  | KwGroup => "GROUP" | KwHaving => "HAVING" | KwIf => "IF" | KwIndex => "INDEX"
  | KwInfinity => "INFINITY" | KwInner => "INNER" | KwInsert => "INSERT"
  | KwInt => "INT" | KwInteger => "INTEGER" | KwInto => "INTO" | KwIs => "IS"
  | KwJoin => "JOIN" | KwKey => "KEY" | KwLeft => "LEFT" | KwLike => "LIKE"
  | KwLimit => "LIMIT" | KwNaN => "NAN" | KwNot => "NOT" | KwNull => "NULL"
  | KwOf => "OF" | KwOffset => "OFFSET" | KwOn => "ON" | KwOnly => "ONLY"
  | KwOuter => "OUTER" | KwOr => "OR" | KwOrder => "ORDER" | KwPrimary => "PRIMARY"
  | KwRead => "READ" | KwReferences => "REFERENCES" | KwRight => "RIGHT"
  | KwRollback => "ROLLBACK" | KwSelect => "SELECT" | KwSet => "SET"
  | KwString => "STRING" | KwSystem => "SYSTEM" | KwTable => "TABLE" | KwText => "TEXT"
  | KwTime => "TIME" | KwTransaction => "TRANSACTION" | KwTrue => "TRUE"
  | KwUnique => "UNIQUE" | KwUpdate => "UPDATE" | KwValues => "VALUES"
  | KwVarchar => "VARCHAR" | KwWhere => "WHERE" | KwWrite => "WRITE"
  end.

Inductive Token :=
| TokNumber (n : bytes)
| TokString (s : bytes)
| TokIdent (s : bytes)
| TokKeyword (k : Keyword)
| TokPeriod
| TokEqual
| TokGreaterThan
| TokGreaterThanOrEqual
| TokLessThan
| TokLessThanOrEqual
| TokLessOrGreaterThan
| TokPlus
| TokMinus
| TokAsterisk
| TokSlash
| TokCaret
| TokPercent
| TokExclamation
| TokNotEqual
| TokQuestion
| TokOpenParen
| TokCloseParen
| TokComma
| TokSemicolon.

#[export] Instance token_eq_dec : EqDecision Token.
Proof. solve_decision. Defined.

(** [Display]. *)
Definition show_token (t : Token) : list char :=
  match t with
  | TokNumber n => chars n
  | TokString s => chars s
  | TokIdent s => chars s
  | TokKeyword k => text (to_str k)
  | TokPeriod => text "."
  | TokEqual => text "="
  | TokGreaterThan => text ">"
  | TokGreaterThanOrEqual => text ">="
  | TokLessThan => text "<"
  | TokLessThanOrEqual => text "<="
  | TokLessOrGreaterThan => text "<>"
  | TokPlus => text "+"
  | TokMinus => text "-"
  | TokAsterisk => text "*"
  | TokSlash => text "/"
  | TokCaret => text "^"
  | TokPercent => text "%"
  | TokExclamation => text "!"
  | TokNotEqual => text "!="
  | TokQuestion => text "?"
  | TokOpenParen => text "("
  | TokCloseParen => text ")"
  | TokComma => text ","
  | TokSemicolon => text ";"
  end.

(** * The lexer *)

Abbreviation Lexer := (list char).

Section lexer.
Context `{Unicode}.

(** [Peekable::peek] and [Peekable::next] on the input. *)
Definition peek_char (it : Lexer) : option char := head it.

(** [Lexer::next_if]. *)
Definition next_if_char (predicate : char → bool) (it : Lexer) : option char * Lexer :=
  match it with
  | c :: r => if predicate c then (Some c, r) else (None, it)
  | [] => (None, [])
  end.

(** The loop of [Lexer::next_while], which pushes the characters that match;
    its callers that need at least one test the result. *)
Fixpoint next_while (predicate : char → bool) (it : Lexer) : list char * Lexer :=
  match it with
  | c :: r =>
      if predicate c then let '(value, r') := next_while predicate r in (c :: value, r')
      else ([], it)
  | [] => ([], [])
  end.

Definition consume_whitespace (it : Lexer) : Lexer := (next_while is_whitespace it).2.

(** [Lexer::scan_ident]. *)
Definition scan_ident (it : Lexer) : option Token * Lexer :=
  match next_if_char is_alphabetic it with
  | (None, it) => (None, it)
  | (Some c, it) =>
      let '(name, it) := next_while (λ c, is_alphanumeric c || (c =? ch "_")) it in
      (match from_str (c :: name) with
       | Some k => Some (TokKeyword k)
       | None => Some (TokIdent (str (to_lowercase (c :: name))))
       end, it)
  end.

(** The loop of [scan_ident_quoted] and [scan_string]: up to the closing quote,
    where a doubled quote stands for one.  [None] at the end of the input. *)
Fixpoint quoted (quote : char) (it : Lexer) : option (list char * Lexer) :=
  match it with
  | [] => None
  | c :: r =>
      if c =? quote then
        match r with
        | c' :: r' =>
            if c' =? quote then '(s, it) ← quoted quote r'; Some (quote :: s, it)
            else Some ([], r)
        | [] => Some ([], [])
        end
      else '(s, it) ← quoted quote r; Some (c :: s, it)
  end.

Definition scan_ident_quoted : M Lexer (option Token) := λ it,
  match next_if_char (λ c, c =? 34) it with
  | (None, it) => (Ok None, it)
  | (Some _, it) =>
      match quoted 34 it with
      | Some (ident, it) => (Ok (Some (TokIdent (str ident))), it)
      | None => (Err (EParse (Msg "Unexpected end of quoted identifier" [])), [])
      end
  end.

Definition scan_string : M Lexer (option Token) := λ it,
  match next_if_char (λ c, c =? ch "'") it with
  | (None, it) => (Ok None, it)
  | (Some _, it) =>
      match quoted (ch "'") it with
      | Some (s, it) => (Ok (Some (TokString (str s))), it)
      | None => (Err (EParse (Msg "Unexpected end of string literal" [])), [])
      end
  end.

(** [Lexer::scan_number]: digits, then a fraction, then an exponent. *)
Definition scan_fraction (it : Lexer) : list char * Lexer :=
  match next_if_char (λ c, c =? ch ".") it with
  | (Some sep, it) => let '(ds, it) := next_while is_ascii_digit it in (sep :: ds, it)
  | (None, it) => ([], it)
  end.
Definition scan_exponent (it : Lexer) : list char * Lexer :=
  match next_if_char (λ c, (c =? ch "e") || (c =? ch "E")) it with
  | (Some exp, it) =>
      let '(sign, it) := next_if_char (λ c, (c =? ch "+") || (c =? ch "-")) it in
      let '(ds, it) := next_while is_ascii_digit it in
      (exp :: option_list sign ++ ds, it)
  | (None, it) => ([], it)
  end.
Definition scan_number (it : Lexer) : option Token * Lexer :=
  match next_while is_ascii_digit it with
  | ([], it) => (None, it)
  | (num, it) =>
      let '(fraction, it) := scan_fraction it in
      let '(exponent, it) := scan_exponent it in
      (Some (TokNumber (str (num ++ fraction ++ exponent))), it)
  end.

(** [Lexer::scan_symbol]. *)
Definition symbol (c : char) : option Token :=
  if c =? ch "." then Some TokPeriod
  else if c =? ch "=" then Some TokEqual
  else if c =? ch ">" then Some TokGreaterThan
  else if c =? ch "<" then Some TokLessThan
  else if c =? ch "+" then Some TokPlus
  else if c =? ch "-" then Some TokMinus
  else if c =? ch "*" then Some TokAsterisk
  else if c =? ch "/" then Some TokSlash
  else if c =? ch "^" then Some TokCaret
  else if c =? ch "%" then Some TokPercent
  else if c =? ch "!" then Some TokExclamation
  else if c =? ch "?" then Some TokQuestion
  else if c =? ch "(" then Some TokOpenParen
  else if c =? ch ")" then Some TokCloseParen
  else if c =? ch "," then Some TokComma
  else if c =? ch ";" then Some TokSemicolon
  else None.

(** [Lexer::next_if_token]. *)
Definition next_if_symbol (tokenizer : char → option Token) (it : Lexer) : option Token * Lexer :=
  match it with
  | c :: r => match tokenizer c with Some t => (Some t, r) | None => (None, it) end
  | [] => (None, [])
  end.

Definition scan_symbol (it : Lexer) : option Token * Lexer :=
  match next_if_symbol symbol it with
  | (Some TokExclamation, it) =>
      match next_if_char (λ c, c =? ch "=") it with
      | (Some _, it) => (Some TokNotEqual, it)
      | (None, it) => (Some TokExclamation, it)
      end
  | (Some TokLessThan, it) =>
      match next_if_char (λ c, c =? ch ">") it with
      | (Some _, it) => (Some TokLessOrGreaterThan, it)
      | (None, it) =>
          match next_if_char (λ c, c =? ch "=") it with
          | (Some _, it) => (Some TokLessThanOrEqual, it)
          | (None, it) => (Some TokLessThan, it)
          end
      end
  | (Some TokGreaterThan, it) =>
      match next_if_char (λ c, c =? ch "=") it with
      | (Some _, it) => (Some TokGreaterThanOrEqual, it)
      | (None, it) => (Some TokGreaterThan, it)
      end
  | r => r
  end.

(** [Lexer::scan]. *)
Definition scan_token : M Lexer (option Token) := λ it,
  let it := consume_whitespace it in
  match peek_char it with
  | Some c =>
      if c =? ch "'" then scan_string it
      else if c =? 34 then scan_ident_quoted it
      else if is_ascii_digit c then let '(t, it) := scan_number it in (Ok t, it)
      else if is_alphabetic c then let '(t, it) := scan_ident it in (Ok t, it)
      else let '(t, it) := scan_symbol it in (Ok t, it)
  | None => (Ok None, it)
  end.

(** [Iterator::next] for [Lexer]: [None] at the end of the input. *)
Definition lexer_next (it : Lexer) : option (res Token) * Lexer :=
  match scan_token it with
  | (Ok (Some token), it) => (Some (Ok token), it)
  | (Ok None, it) =>
      ((λ c, Err (EParse (Msg "Unexpected character {}" [FBytes (utf8_char c)]))) <$> peek_char it,
       it)
  | (Err e, it) => (Some (Err e), it)
  | (Panic w, it) => (Some (Panic w), it)
  end.
End lexer.

(** * An instance of Unicode *)

(** The ASCII characters only, for examples. *)
Definition ascii_unicode : Unicode := {|
  is_alphabetic c := ascii_upper c || ascii_lower c;
  is_numeric := is_ascii_digit;
  is_whitespace := ascii_space;
  to_uppercase := fmap upper;
  to_lowercase := fmap lower
|}.

Lemma ascii_unicode_laws : @UnicodeLaws ascii_unicode.
Proof.
  split; try done.
  - intros cs Hcs. cbn. apply Forall_fmap. apply (Forall_impl _ _ _ Hcs).
    intros c. unfold compose, lower, ascii_upper, scalar.
    destruct (N.leb_spec 65 c), (N.leb_spec c 90); cbn [andb]; lia.
  - intros c. cbn. unfold ascii_upper, ascii_lower, ascii_space.
    rewrite orb_true_iff, !andb_true_iff, orb_false_iff, andb_false_iff, N.eqb_neq, !N.leb_le, !N.leb_gt. lia.
Qed.
