(* ===== verification/SqlParser.v ===== *)
(** The SQL parser (src/src/sql/parser/mod.rs), on the tokens of [SqlLexer].
    Its loops and recursive calls take fuel; [parse] supplies one unit more
    than the input has characters, and [SqlParserSpec] proves that this is
    enough for every input. *)
From Stdlib Require Import Strings.Byte Strings.Ascii Strings.String NArith ZArith Lia
  Floats.SpecFloat.
From stdpp Require Import base list strings.
From S2P Require Import Prelude BTreeMap KeyCode Engine SqlTypes SqlAst SqlLexer.

Open Scope N_scope.

(** [Parser]: a peekable lexer. *)
Record Parser := {
  peeked : option (option (res Token));
  lexer : Lexer
}.

Definition parser_new (query : bytes) : Parser := {| peeked := None; lexer := chars query |}.

Definition parse_error {A} (m : string) (args : list fmt_arg) : res A := Err (EParse (Msg m args)).
Definition shown (t : Token) : fmt_arg := FBytes (str (show_token t)).
Definition unexpected {A} (t : Token) : res A := parse_error "Unexpected token {}" [shown t].

Definition is_some {A} (o : option A) : bool := match o with Some _ => true | None => false end.
Definition is_none {A} (o : option A) : bool := negb (is_some o).

(** * Numbers *)

(** [str::parse::<u64>] and [str::parse::<i64>], on digits without a sign. *)
Fixpoint parse_digits (limit : N) (cs : list char) (acc : N) : res N :=
  match cs with
  | [] => Ok acc
  | c :: cs =>
      if is_ascii_digit c then
        let acc := acc * 10 + (c - 48) in
        if acc <=? limit then parse_digits limit cs acc
        else parse_error "number too large to fit in target type" []
      else parse_error "invalid digit found in string" []
  end.
Definition parse_unsigned (limit : N) (cs : list char) : res N :=
  match cs with
  | [] => parse_error "cannot parse integer from empty string" []
  | _ => parse_digits limit cs 0
  end.
Definition parse_u64 (cs : list char) : res N := parse_unsigned u64_max cs.
Definition parse_i64 (cs : list char) : res Z :=
  Z.of_N <$> parse_unsigned 9223372036854775807 cs.

(** The float nearest to [m * 10 ^ e], ties to even. *)
Definition decimal_f64 (m : N) (e : Z) : f64 :=
  match m with
  | N0 => S754_zero false
  | Npos m =>
      match e with
      | Zneg k => SFdiv 53 1024 (S754_finite false m 0) (S754_finite false (10 ^ k) 0)
      | e => binary_normalize 53 1024 (Zpos m * 10 ^ e) 0 false
      end
  end.

(** [str::parse::<f64>], on a number without a sign that begins with a digit. *)
Definition digits_value (ds : list char) : N := foldl (λ acc c, acc * 10 + (c - 48)) 0 ds.
Definition parse_f64 (cs : list char) : res f64 :=
  let '(int, r) := next_while is_ascii_digit cs in
  let '(frac, r) := match r with
                    | c :: r' => if c =? ch "." then next_while is_ascii_digit r' else ([], r)
                    | [] => ([], [])
                    end in
  let m := digits_value (int ++ frac) in
  let invalid := parse_error "invalid float literal" [] in
  match r with
  | [] => Ok (decimal_f64 m (- Z.of_nat (length frac)))
  | c :: r =>
      if (c =? ch "e") || (c =? ch "E") then
        let '(sign, r) := next_if_char (λ c, (c =? ch "+") || (c =? ch "-")) r in
        let '(ds, r) := next_while is_ascii_digit r in
        match ds, r with
        | _ :: _, [] =>
            let e := Z.of_N (digits_value ds) in
            let e := if bool_decide (sign = Some (ch "-")) then (- e)%Z else e in
            Ok (decimal_f64 m (e - Z.of_nat (length frac)))
        | _, _ => invalid
        end
      else invalid
  end.

(** * Tokens *)

Section parser.
Context `{Unicode}.

(** [Peekable::peek] and [Peekable::next]. *)
Definition lexer_peek (p : Parser) : option (res Token) * Parser :=
  match peeked p with
  | Some t => (t, p)
  | None =>
      let '(t, it) := lexer_next (lexer p) in
      (t, {| peeked := Some t; lexer := it |})
  end.
Definition take_token (p : Parser) : option (res Token) * Parser :=
  match peeked p with
  | Some t => (t, {| peeked := None; lexer := lexer p |})
  | None =>
      let '(t, it) := lexer_next (lexer p) in
      (t, {| peeked := None; lexer := it |})
  end.

(** [Parser::next]. *)
Definition next : M Parser Token := λ p,
  let '(t, p) := take_token p in
  (match t with Some t => t | None => parse_error "Unexpected end of input" [] end, p).

(** [Parser::peek]. *)
Definition peek : M Parser (option Token) := λ p,
  let '(t, p) := lexer_peek p in
  (match t with Some t => Some <$> t | None => Ok None end, p).

(** [self.peek().unwrap_or(None)]. *)
Definition peek_or_none : M Parser (option Token) := λ p,
  match peek p with
  | (Ok t, p) => (Ok t, p)
  | (Err _, p) => (Ok None, p)
  | (Panic w, p) => (Panic w, p)
  end.

(** [Parser::next_expect], with a token and with none. *)
Definition next_expect (t : Token) : M Parser Token :=
  token ← next;
  if decide (token = t) then mret token
  else lift (parse_error "Expected token {}, found {}" [shown t; shown token]).
Definition expect_end : M Parser unit :=
  t ← peek;
  match t with
  | Some token => lift (unexpected token)
  | None => mret tt
  end.

(** [Parser::next_ident]. *)
Definition next_ident : M Parser bytes :=
  t ← next;
  match t with
  | TokIdent ident => mret ident
  | token => lift (parse_error "Expected identifier, got {}" [shown token])
  end.

(** [Parser::next_if]. *)
Definition next_if (predicate : Token → bool) : M Parser (option Token) :=
  t ← peek_or_none;
  match t with
  | Some t => if predicate t then t ← next; mret (Some t) else mret None
  | None => mret None
  end.
Definition next_if_keyword : M Parser (option Token) :=
  next_if (λ t, match t with TokKeyword _ => true | _ => false end).
Definition next_if_token (token : Token) : M Parser (option Token) :=
  next_if (λ t, bool_decide (t = token)).
Definition next_if_kw (k : Keyword) : M Parser bool :=
  t ← next_if_token (TokKeyword k); mret (is_some t).
Definition expect_kw (k : Keyword) : M Parser Token := next_expect (TokKeyword k).

(** [loop { push(item); if next_if_token(Comma).is_none() { break } }]. *)
Fixpoint comma_list {A} (fuel : nat) (item : M Parser A) : M Parser (list A) :=
  match fuel with
  | O => lift (Panic "list: out of fuel")
  | S fuel =>
      x ← item;
      comma ← next_if_token TokComma;
      if is_none comma then mret [x]
      else l ← comma_list fuel item; mret (x :: l)
  end.

(** The same up to a closing parenthesis. *)
Fixpoint paren_list {A} (fuel : nat) (item : M Parser A) : M Parser (list A) :=
  match fuel with
  | O => lift (Panic "list: out of fuel")
  | S fuel =>
      x ← item;
      t ← next;
      match t with
      | TokCloseParen => mret [x]
      | TokComma => l ← paren_list fuel item; mret (x :: l)
      | token => lift (unexpected token)
      end
  end.

(** * Operators *)

(** The trait [Operator]. *)
Class Operator (O : Type) := {
  op_from : Token → option O;
  op_augment : O → M Parser O;
  op_assoc : O → N;
  op_prec : O → N
}.

Definition ASSOC_LEFT : N := 1.
Definition ASSOC_RIGHT : N := 0.

(** [Parser::next_if_operator]. *)
Definition next_if_operator {O} `{Operator O} (min_prec : N) : M Parser (option O) :=
  t ← peek_or_none;
  match t ≫= op_from with
  | Some operator =>
      if min_prec <=? op_prec operator then
        _ ← next;
        operator ← op_augment operator;
        mret (Some operator)
      else mret None
  | None => mret None
  end.

Inductive PrefixOperator := PMinus | PNot | PPlus.

Definition build_prefix (op : PrefixOperator) (rhs : AstExpression) : AstExpression :=
  AOperation match op with
             | PPlus => AAssert rhs
             | PMinus => ANegate rhs
             | PNot => ANot rhs
             end.

#[export] Instance prefix_operator : Operator PrefixOperator := {
  op_from token :=
    match token with
    | TokKeyword KwNot => Some PNot
    | TokMinus => Some PMinus
    | TokPlus => Some PPlus
    | _ => None
    end;
  op_augment op := mret op;
  op_assoc _ := ASSOC_RIGHT;
  op_prec _ := 9
}.

Inductive InfixOperator :=
| IAdd | IAnd | IDivide | IEqual | IExponentiate | IGreaterThan | IGreaterThanOrEqual
| ILessThan | ILessThanOrEqual | ILike | IModulo | IMultiply | INotEqual | IOr | ISubtract.

Definition build_infix (op : InfixOperator) (lhs rhs : AstExpression) : AstExpression :=
  AOperation match op with
             | IAdd => AAdd lhs rhs
             | IAnd => AAnd lhs rhs
             | IDivide => ADivide lhs rhs
             | IEqual => AEqual lhs rhs
             | IExponentiate => AExponentiate lhs rhs
             | IGreaterThan => AGreaterThan lhs rhs
             | IGreaterThanOrEqual => AGreaterThanOrEqual lhs rhs
             | ILessThan => ALessThan lhs rhs
             | ILessThanOrEqual => ALessThanOrEqual lhs rhs
             | ILike => ALike lhs rhs
             | IModulo => AModulo lhs rhs
             | IMultiply => AMultiply lhs rhs
             | INotEqual => ANotEqual lhs rhs
             | IOr => AOr lhs rhs
             | ISubtract => ASubtract lhs rhs
             end.

#[export] Instance infix_operator : Operator InfixOperator := {
  op_from token :=
    match token with
    | TokAsterisk => Some IMultiply
    | TokCaret => Some IExponentiate
    | TokEqual => Some IEqual
    | TokGreaterThan => Some IGreaterThan
    | TokGreaterThanOrEqual => Some IGreaterThanOrEqual
    | TokKeyword KwAnd => Some IAnd
    | TokKeyword KwLike => Some ILike
    | TokKeyword KwOr => Some IOr
    | TokLessOrGreaterThan => Some INotEqual
    | TokLessThan => Some ILessThan
    | TokLessThanOrEqual => Some ILessThanOrEqual
    | TokMinus => Some ISubtract
    | TokNotEqual => Some INotEqual
    | TokPercent => Some IModulo
    | TokPlus => Some IAdd
    | TokSlash => Some IDivide
    | _ => None
    end;
  op_augment op := mret op;
  op_assoc op := match op with IExponentiate => ASSOC_RIGHT | _ => ASSOC_LEFT end;
  op_prec op :=
    match op with
    | IOr => 1
    | IAnd => 2
    | IEqual | INotEqual | ILike => 3
    | IGreaterThan | IGreaterThanOrEqual | ILessThan | ILessThanOrEqual => 4
    | IAdd | ISubtract => 5
    | IMultiply | IDivide | IModulo => 6
    | IExponentiate => 7
    end
}.

Inductive PostfixOperator := PFactorial | PIsNull (not : bool).

Definition build_postfix (op : PostfixOperator) (lhs : AstExpression) : AstExpression :=
  AOperation match op with
             | PIsNull true => ANot (AOperation (AIsNull lhs))
             | PIsNull false => AIsNull lhs
             | PFactorial => AFactorial lhs
             end.

#[export] Instance postfix_operator : Operator PostfixOperator := {
  op_from token :=
    match token with
    | TokExclamation => Some PFactorial
    | TokKeyword KwIs => Some (PIsNull false)
    | _ => None
    end;
  op_augment op :=
    match op with
    | PIsNull not =>
        n ← next_if_kw KwNot;
        _ ← expect_kw KwNull;
        mret (PIsNull (n || not))
    | op => mret op
    end;
  op_assoc _ := ASSOC_LEFT;
  op_prec _ := 8
}.

(** * Expressions *)

(** The arguments of a function call, after the opening parenthesis. *)
Fixpoint parse_args (fuel : nat) (expression : M Parser AstExpression) (name : bytes)
    (args : list AstExpression) : M Parser (list AstExpression) :=
  match fuel with
  | O => lift (Panic "arguments: out of fuel")
  | S fuel =>
      close ← next_if_token TokCloseParen;
      if is_some close then mret args
      else
        _ ← (match args with [] => mret tt | _ => _ ← next_expect TokComma; mret tt end);
        star ← (if bool_decide (name = str (text "count")) then next_if_token TokAsterisk
                else mret None);
        if is_some star then
          parse_args fuel expression name (args ++ [ALiteral (LBoolean true)])
        else
          e ← expression;
          parse_args fuel expression name (args ++ [e])
  end.

(** [Parser::parse_expression_atom]; the recursive calls are all with
    precedence 0. *)
Definition parse_expression_atom (fuel : nat) (expression : M Parser AstExpression)
    : M Parser AstExpression :=
  t ← next;
  match t with
  | TokIdent i =>
      open ← next_if_token TokOpenParen;
      if is_some open then
        args ← parse_args fuel expression i [];
        mret (AFunction i args)
      else
        dot ← next_if_token TokPeriod;
        if is_some dot then field ← next_ident; mret (AField (Some i) field)
        else mret (AField None i)
  | TokNumber n =>
      if forallb is_ascii_digit (chars n)
      then i ← lift (parse_i64 (chars n)); mret (ALiteral (LInteger i))
      else f ← lift (parse_f64 (chars n)); mret (ALiteral (LFloat f))
  | TokOpenParen =>
      e ← expression;
      _ ← next_expect TokCloseParen;
      mret e
  | TokString s => mret (ALiteral (LString s))
  | TokKeyword KwFalse => mret (ALiteral (LBoolean false))
  | TokKeyword KwInfinity => mret (ALiteral (LFloat (S754_infinity false)))
  | TokKeyword KwNaN => mret (ALiteral (LFloat S754_nan))
  | TokKeyword KwNull => mret (ALiteral LNull)
  | TokKeyword KwTrue => mret (ALiteral (LBoolean true))
  | t => lift (parse_error "Expected expression atom, found {}" [shown t])
  end.

(** The two loops of [Parser::parse_expression]. *)
Fixpoint postfix_loop (fuel : nat) (min_prec : N) (lhs : AstExpression) : M Parser AstExpression :=
  match fuel with
  | O => lift (Panic "operators: out of fuel")
  | S fuel =>
      postfix ← next_if_operator (O:=PostfixOperator) min_prec;
      match postfix with
      | Some op => postfix_loop fuel min_prec (build_postfix op lhs)
      | None => mret lhs
      end
  end.
Fixpoint infix_loop (fuel : nat) (expression : N → M Parser AstExpression) (min_prec : N)
    (lhs : AstExpression) : M Parser AstExpression :=
  match fuel with
  | O => lift (Panic "operators: out of fuel")
  | S fuel =>
      infix ← next_if_operator (O:=InfixOperator) min_prec;
      match infix with
      | Some op =>
          rhs ← expression (op_prec op + op_assoc op);
          infix_loop fuel expression min_prec (build_infix op lhs rhs)
      | None => mret lhs
      end
  end.

(** [Parser::parse_expression]: precedence climbing. *)
Fixpoint parse_expression (fuel : nat) (min_prec : N) : M Parser AstExpression :=
  match fuel with
  | O => lift (Panic "expression: out of fuel")
  | S fuel =>
      prefix ← next_if_operator (O:=PrefixOperator) min_prec;
      lhs ← match prefix with
            | Some op =>
                rhs ← parse_expression fuel (op_prec op + op_assoc op);
                mret (build_prefix op rhs)
            | None => parse_expression_atom fuel (parse_expression fuel 0)
            end;
      lhs ← postfix_loop fuel min_prec lhs;
      infix_loop fuel (parse_expression fuel) min_prec lhs
  end.

(** * Clauses *)

Section clauses.
Context (fuel : nat).

Definition expression : M Parser AstExpression := parse_expression fuel 0.

(** A clause of one expression after its keyword: WHERE, HAVING, LIMIT, OFFSET. *)
Definition optional_clause (k : Keyword) : M Parser (option AstExpression) :=
  found ← next_if_kw k;
  if found : bool then e ← expression; mret (Some e) else mret None.
Definition parse_clause_where := optional_clause KwWhere.
Definition parse_clause_having := optional_clause KwHaving.

(** [Parser::parse_clause_from_table]. *)
Definition parse_clause_from_item : M Parser FromItem :=
  name ← next_ident;
  as_ ← next_if_kw KwAs;
  if as_ : bool then alias ← next_ident; mret (FTable name (Some alias))
  else
    t ← peek;
    match t with
    | Some (TokIdent _) => alias ← next_ident; mret (FTable name (Some alias))
    | _ => mret (FTable name None)
    end.

Definition parse_clause_from_jointype : M Parser (option JoinType) :=
  cross ← next_if_kw KwCross;
  if cross : bool then _ ← expect_kw KwJoin; mret (Some JCross)
  else
    inner ← next_if_kw KwInner;
    if inner : bool then _ ← expect_kw KwJoin; mret (Some JInner)
    else
      join ← next_if_kw KwJoin;
      if join : bool then mret (Some JInner)
      else
        l ← next_if_kw KwLeft;
        if l : bool then
          _ ← next_if_kw KwOuter;
          _ ← expect_kw KwJoin;
          mret (Some JLeft)
        else
          r ← next_if_kw KwRight;
          if r : bool then
            _ ← next_if_kw KwOuter;
            _ ← expect_kw KwJoin;
            mret (Some JRight)
          else mret None.

(** The chain of joins after an item. *)
Fixpoint join_loop (fuel' : nat) (item : FromItem) : M Parser FromItem :=
  match fuel' with
  | O => lift (Panic "joins: out of fuel")
  | S fuel' =>
      jointype ← parse_clause_from_jointype;
      match jointype with
      | None => mret item
      | Some type =>
          rhs ← parse_clause_from_item;
          predicate ← match type with
                      | JCross => mret None
                      | _ => _ ← expect_kw KwOn; e ← expression; mret (Some e)
                      end;
          join_loop fuel' (FJoin item rhs type predicate)
      end
  end.
Definition parse_clause_from : M Parser (list FromItem) :=
  from ← next_if_kw KwFrom;
  if from : bool then comma_list fuel (item ← parse_clause_from_item; join_loop fuel item)
  else mret [].

Definition parse_clause_group_by : M Parser (list AstExpression) :=
  group ← next_if_kw KwGroup;
  if group : bool then _ ← expect_kw KwBy; comma_list fuel expression
  else mret [].

Definition parse_order : M Parser (AstExpression * AstOrder) :=
  e ← expression;
  asc ← next_if_kw KwAsc;
  if asc : bool then mret (e, OAscending)
  else
    desc ← next_if_kw KwDesc;
    mret (e, if desc : bool then ODescending else OAscending).
Definition parse_clause_order : M Parser (list (AstExpression * AstOrder)) :=
  order ← next_if_kw KwOrder;
  if order : bool then _ ← expect_kw KwBy; comma_list fuel parse_order
  else mret [].

(** [Parser::parse_clause_select]. *)
Definition parse_label : M Parser (option bytes) :=
  t ← peek;
  match t with
  | Some (TokKeyword KwAs) => _ ← next; label ← next_ident; mret (Some label)
  | Some (TokIdent _) => label ← next_ident; mret (Some label)
  | _ => mret None
  end.
Fixpoint select_loop (fuel' : nat) (select : list (AstExpression * option bytes))
    : M Parser (list (AstExpression * option bytes)) :=
  match fuel' with
  | O => lift (Panic "select: out of fuel")
  | S fuel' =>
      star ← next_if_token TokAsterisk;
      if is_some star && bool_decide (select = []) then mret select
      else
        e ← expression;
        label ← parse_label;
        comma ← next_if_token TokComma;
        if is_none comma then mret (select ++ [(e, label)])
        else select_loop fuel' (select ++ [(e, label)])
  end.
Definition parse_clause_select : M Parser (list (AstExpression * option bytes)) :=
  select ← next_if_kw KwSelect;
  if select : bool then select_loop fuel [] else mret [].

(** * Statements *)

Definition parse_datatype : M Parser DataType :=
  t ← next;
  match t with
  | TokKeyword KwBool | TokKeyword KwBoolean => mret TBoolean
  | TokKeyword KwChar => mret TString
  | TokKeyword KwDouble | TokKeyword KwFloat => mret TFloat
  | TokKeyword KwInt | TokKeyword KwInteger => mret TInteger
  | TokKeyword KwString | TokKeyword KwText | TokKeyword KwVarchar => mret TString
  | token => lift (unexpected token)
  end.

Definition both_nullable {A} (column : AstColumn) : res A :=
  Err (EValue (Msg "Column {} can't be both not nullable and nullable" [FBytes (ac_name column)])).

(** The constraints of [Parser::parse_ddl_columnspec]. *)
Fixpoint column_loop (fuel' : nat) (c : AstColumn) : M Parser AstColumn :=
  match fuel' with
  | O => lift (Panic "column: out of fuel")
  | S fuel' =>
      t ← next_if_keyword;
      match t with
      | Some (TokKeyword keyword) =>
          c ← match keyword with
              | KwPrimary =>
                  _ ← expect_kw KwKey;
                  mret {| ac_name := ac_name c; ac_datatype := ac_datatype c; ac_primary_key := true;
                          ac_nullable := ac_nullable c; ac_default := ac_default c;
                          ac_unique := ac_unique c; ac_index := ac_index c;
                          ac_references := ac_references c |}
              | KwNull =>
                  if bool_decide (ac_nullable c = Some false) then lift (both_nullable c)
                  else
                    mret {| ac_name := ac_name c; ac_datatype := ac_datatype c;
                            ac_primary_key := ac_primary_key c;
                            ac_nullable := Some true; ac_default := ac_default c;
                            ac_unique := ac_unique c; ac_index := ac_index c;
                            ac_references := ac_references c |}
              | KwNot =>
                  _ ← expect_kw KwNull;
                  if bool_decide (ac_nullable c = Some true) then lift (both_nullable c)
                  else
                    mret {| ac_name := ac_name c; ac_datatype := ac_datatype c;
                            ac_primary_key := ac_primary_key c;
                            ac_nullable := Some false; ac_default := ac_default c;
                            ac_unique := ac_unique c; ac_index := ac_index c;
                            ac_references := ac_references c |}
              | KwDefault =>
                  e ← expression;
                  mret {| ac_name := ac_name c; ac_datatype := ac_datatype c;
                          ac_primary_key := ac_primary_key c;
                          ac_nullable := ac_nullable c; ac_default := Some e;
                          ac_unique := ac_unique c; ac_index := ac_index c;
                          ac_references := ac_references c |}
              | KwUnique =>
                  mret {| ac_name := ac_name c; ac_datatype := ac_datatype c;
                          ac_primary_key := ac_primary_key c;
                          ac_nullable := ac_nullable c; ac_default := ac_default c;
                          ac_unique := true; ac_index := ac_index c;
                          ac_references := ac_references c |}
              | KwIndex =>
                  mret {| ac_name := ac_name c; ac_datatype := ac_datatype c;
                          ac_primary_key := ac_primary_key c;
                          ac_nullable := ac_nullable c; ac_default := ac_default c;
                          ac_unique := ac_unique c; ac_index := true;
                          ac_references := ac_references c |}
              | KwReferences =>
                  r ← next_ident;
                  mret {| ac_name := ac_name c; ac_datatype := ac_datatype c;
                          ac_primary_key := ac_primary_key c;
                          ac_nullable := ac_nullable c; ac_default := ac_default c;
                          ac_unique := ac_unique c; ac_index := ac_index c;
                          ac_references := Some r |}
              | keyword =>
                  lift (parse_error "Unexpected keyword {}" [FText (to_str keyword)])
              end;
          column_loop fuel' c
      | _ => mret c
      end
  end.
Definition parse_ddl_columnspec : M Parser AstColumn :=
  name ← next_ident;
  datatype ← parse_datatype;
  column_loop fuel
    {| ac_name := name; ac_datatype := datatype; ac_primary_key := false; ac_nullable := None;
       ac_default := None; ac_unique := false; ac_index := false; ac_references := None |}.

Definition parse_ddl_create_table : M Parser Statement :=
  name ← next_ident;
  _ ← next_expect TokOpenParen;
  columns ← comma_list fuel parse_ddl_columnspec;
  _ ← next_expect TokCloseParen;
  mret (SCreateTable name columns).

(** [next_if_keyword] takes any keyword. *)
Definition parse_ddl_drop_table : M Parser Statement :=
  t ← next_if_keyword;
  if_exists ← match t with
              | Some (TokKeyword KwIf) => _ ← expect_kw KwExists; mret true
              | _ => mret false
              end;
  name ← next_ident;
  mret (SDropTable name if_exists).

Definition parse_ddl : M Parser Statement :=
  t ← next;
  match t with
  | TokKeyword KwCreate =>
      t ← next;
      match t with
      | TokKeyword KwTable => parse_ddl_create_table
      | token => lift (unexpected token)
      end
  | TokKeyword KwDrop =>
      t ← next;
      match t with
      | TokKeyword KwTable => parse_ddl_drop_table
      | token => lift (unexpected token)
      end
  | token => lift (unexpected token)
  end.

Definition parse_statement_delete : M Parser Statement :=
  _ ← expect_kw KwDelete;
  _ ← expect_kw KwFrom;
  table ← next_ident;
  where_ ← parse_clause_where;
  mret (SDelete table where_).

Definition parse_statement_insert : M Parser Statement :=
  _ ← expect_kw KwInsert;
  _ ← expect_kw KwInto;
  table ← next_ident;
  open ← next_if_token TokOpenParen;
  columns ← (if is_some open then cols ← paren_list fuel next_ident; mret (Some cols)
             else mret None);
  _ ← expect_kw KwValues;
  values ← comma_list fuel (_ ← next_expect TokOpenParen; paren_list fuel expression);
  mret (SInsert table columns values).

Definition parse_statement_select : M Parser Statement :=
  select ← parse_clause_select;
  from ← parse_clause_from;
  where_ ← parse_clause_where;
  group_by ← parse_clause_group_by;
  having ← parse_clause_having;
  order ← parse_clause_order;
  limit ← optional_clause KwLimit;
  offset ← optional_clause KwOffset;
  mret (SSelect {| s_select := select; s_from := from; s_where := where_; s_group_by := group_by;
                   s_having := having; s_order := order; s_offset := offset; s_limit := limit |}).

(** The assignments of [Parser::parse_statement_update]. *)
Fixpoint set_loop (fuel' : nat) (set_ : list (bytes * AstExpression))
    : M Parser (list (bytes * AstExpression)) :=
  match fuel' with
  | O => lift (Panic "set: out of fuel")
  | S fuel' =>
      column ← next_ident;
      _ ← next_expect TokEqual;
      e ← expression;
      match bt_get bytes_cmp column set_ with
      | Some _ =>
          lift (Err (EValue (Msg "Duplicate values given for column {}" [FBytes column])))
      | None =>
          let set_ := bt_insert bytes_cmp column e set_ in
          comma ← next_if_token TokComma;
          if is_none comma then mret set_ else set_loop fuel' set_
      end
  end.
Definition parse_statement_update : M Parser Statement :=
  _ ← expect_kw KwUpdate;
  table ← next_ident;
  _ ← expect_kw KwSet;
  set_ ← set_loop fuel [];
  where_ ← parse_clause_where;
  mret (SUpdate table set_ where_).

Definition parse_transaction : M Parser Statement :=
  t ← next;
  match t with
  | TokKeyword KwBegin =>
      _ ← next_if_kw KwTransaction;
      read ← next_if_kw KwRead;
      readonly ← (if read : bool then
                    t ← next;
                    match t with
                    | TokKeyword KwOnly => mret true
                    | TokKeyword KwWrite => mret false
                    | token => lift (unexpected token)
                    end
                  else mret false);
      as_ ← next_if_kw KwAs;
      version ← (if as_ : bool then
                   _ ← expect_kw KwOf;
                   _ ← expect_kw KwSystem;
                   _ ← expect_kw KwTime;
                   t ← next;
                   match t with
                   | TokNumber n => v ← lift (parse_u64 (chars n)); mret (Some v)
                   | token => lift (parse_error "Unexpected token {}, wanted number" [shown token])
                   end
                 else mret None);
      mret (SBegin readonly version)
  | TokKeyword KwCommit => mret SCommit
  | TokKeyword KwRollback => mret SRollback
  | token => lift (unexpected token)
  end.

(** [Parser::parse_statement], and the EXPLAIN of a statement that is not
    itself an EXPLAIN: the recursion is at most two deep. *)
Definition parse_plain_statement (explain : M Parser Statement) : M Parser Statement :=
  t ← peek;
  match t with
  | Some (TokKeyword KwBegin) | Some (TokKeyword KwCommit) | Some (TokKeyword KwRollback) =>
      parse_transaction
  | Some (TokKeyword KwCreate) | Some (TokKeyword KwDrop) => parse_ddl
  | Some (TokKeyword KwDelete) => parse_statement_delete
  | Some (TokKeyword KwInsert) => parse_statement_insert
  | Some (TokKeyword KwSelect) => parse_statement_select
  | Some (TokKeyword KwUpdate) => parse_statement_update
  | Some (TokKeyword KwExplain) => explain
  | Some token => lift (unexpected token)
  | None => lift (parse_error "Unexpected end of input" [])
  end.
Definition parse_statement_explain (statement : M Parser Statement) : M Parser Statement :=
  _ ← expect_kw KwExplain;
  t ← peek;
  match t with
  | Some (TokKeyword KwExplain) => lift (parse_error "Cannot nest EXPLAIN statements" [])
  | _ => s ← statement; mret (SExplain s)
  end.
Definition parse_statement : M Parser Statement :=
  parse_plain_statement
    (parse_statement_explain
       (parse_plain_statement (lift (Panic "nested EXPLAIN")))).
End clauses.

(** [Parser::parse]. *)
Definition parse_parser (fuel : nat) : M Parser Statement :=
  statement ← parse_statement fuel;
  _ ← next_if_token TokSemicolon;
  _ ← expect_end;
  mret statement.

(** [Parser::new(query).parse()]. *)
Definition parse (query : bytes) : res Statement :=
  (parse_parser (S (length (chars query))) (parser_new query)).1.
End parser.
