(* ===== verification/SqlPlanner.v ===== *)
(** The query planner (src/src/sql/plan/planner.rs): scopes, which map names to
    columns, and the translation of statements into plans.  Planning reads the
    catalog and is a computation on a transaction. *)
From Stdlib Require Import Strings.Byte Strings.String NArith ZArith Lia.
From stdpp Require Import base list gmap strings.
From S2P Require Import Prelude KeyCode Engine SqlTypes SqlExpression SqlSchema SqlPlan SqlAst.
From S2P Require Import SqlLexer.

Open Scope N_scope.

(** * Scopes *)

(** [Scope].  Its [columns] are the (table, name) labels of a row's fields. *)
Record Scope := {
  sc_constant : bool;
  sc_tables : gmap bytes Table;
  sc_columns : list (option bytes * option bytes);
  sc_qualified : gmap (bytes * bytes) N;
  sc_unqualified : gmap bytes N;
  sc_ambiguous : gset bytes
}.

Definition scope_new : Scope := {|
  sc_constant := false; sc_tables := ∅; sc_columns := []; sc_qualified := ∅;
  sc_unqualified := ∅; sc_ambiguous := ∅ |}.

Definition scope_constant : Scope := {|
  sc_constant := true; sc_tables := ∅; sc_columns := []; sc_qualified := ∅;
  sc_unqualified := ∅; sc_ambiguous := ∅ |}.

(** [Scope::len]. *)
Definition scope_len (s : Scope) : N := N.of_nat (length (sc_columns s)).

(** [Scope::add_column]. *)
Definition add_column (table label : option bytes) (s : Scope) : Scope :=
  let n := scope_len s in
  {| sc_constant := sc_constant s;
     sc_tables := sc_tables s;
     sc_columns := sc_columns s ++ [(table, label)];
     sc_qualified :=
       match label, table with
       | Some l, Some t => <[(t, l) := n]> (sc_qualified s)
       | _, _ => sc_qualified s
       end;
     sc_unqualified :=
       match label with
       | Some l =>
           if decide (l ∈ sc_ambiguous s) then sc_unqualified s
           else match sc_unqualified s !! l with
                | None => <[l := n]> (sc_unqualified s)
                | Some _ => base.delete l (sc_unqualified s)
                end
       | None => sc_unqualified s
       end;
     sc_ambiguous :=
       match label with
       | Some l =>
           if decide (l ∈ sc_ambiguous s) then sc_ambiguous s
           else match sc_unqualified s !! l with
                | None => sc_ambiguous s
                | Some _ => {[l]} ∪ sc_ambiguous s
                end
       | None => sc_ambiguous s
       end |}.

Definition with_tables (s : Scope) (ts : gmap bytes Table) : Scope := {|
  sc_constant := sc_constant s; sc_tables := ts; sc_columns := sc_columns s;
  sc_qualified := sc_qualified s; sc_unqualified := sc_unqualified s;
  sc_ambiguous := sc_ambiguous s |}.

Definition constant_scope {A} : res A := Err (EInternal (Msg "Can't modify constant scope" [])).
Definition duplicate_table {A} (label : bytes) : res A :=
  value_error "Duplicate table name {}" [FBytes label].

(** [Scope::add_table]. *)
Definition add_table (label : bytes) (t : Table) (s : Scope) : res Scope :=
  if sc_constant s then constant_scope
  else
    match sc_tables s !! label with
    | Some _ => duplicate_table label
    | None =>
        let s := foldl (λ s c, add_column (Some label) (Some (c_name c)) s) s (t_columns t) in
        Ok (with_tables s (<[label := t]> (sc_tables s)))
    end.

(** [Scope::from_table]. *)
Definition from_table (t : Table) : res Scope := add_table (t_name t) t scope_new.

(** [Scope::get_column] and [Scope::get_label]. *)
Definition scope_column (s : Scope) (index : N) : res (option bytes * option bytes) :=
  if sc_constant s then value_error "Expression must be constant, found column {}" [FNum index]
  else ok_or (sc_columns s !! N.to_nat index) (value_error "Column index {} not found" [FNum index]).
Definition get_label (s : Scope) (index : N) : res Label :=
  c ← scope_column s index;
  Ok match c with
     | (table, Some name) => Some (table, name)
     | _ => None
     end.

(** [Scope::merge]. *)
Fixpoint merge_tables (ts : list (bytes * Table)) (s : Scope) : res Scope :=
  match ts with
  | [] => Ok s
  | (label, t) :: ts =>
      match sc_tables s !! label with
      | Some _ => duplicate_table label
      | None => merge_tables ts (with_tables s (<[label := t]> (sc_tables s)))
      end
  end.
Definition merge (s s' : Scope) : res Scope :=
  if sc_constant s then constant_scope
  else
    s ← merge_tables (map_to_list (sc_tables s')) s;
    Ok (foldl (λ s '(t, l), add_column t l s) s (sc_columns s')).

(** [Scope::resolve]. *)
Definition resolve (s : Scope) (table : option bytes) (name : bytes) : res N :=
  if sc_constant s then
    value_error "Expression must be constant, found field {}"
      (match table with Some t => [FBytes t; FBytes name] | None => [FBytes name] end)
  else
    match table with
    | Some t =>
        match sc_tables s !! t with
        | None => value_error "Unknown table {}" [FBytes t]
        | Some _ =>
            ok_or (sc_qualified s !! (t, name))
              (value_error "Unknown field {}.{}" [FBytes t; FBytes name])
        end
    | None =>
        if decide (name ∈ sc_ambiguous s) then value_error "Ambiguous field {}" [FBytes name]
        else ok_or (sc_unqualified s !! name) (value_error "Unknown field {}" [FBytes name])
    end.

(** One column of [Scope::project]; a field whose unqualified name is not (or
    no longer) in the scope adds none. *)
Definition project_label (s : Scope) (p : Expression * option bytes) (new : Scope) : res Scope :=
  match p with
  | (_, Some label) => Ok (add_column None (Some label) new)
  | (Field _ (Some (Some table, name)), None) => Ok (add_column (Some table) (Some name) new)
  | (Field _ (Some (None, name)), None) =>
      match sc_unqualified s !! name with
      | Some i =>
          c ← ok_or (sc_columns s !! N.to_nat i) (Panic "index out of bounds");
          Ok (add_column c.1 c.2 new)
      | None => Ok new
      end
  | (Field i None, None) =>
      let c := default (None, None) (sc_columns s !! N.to_nat i) in
      Ok (add_column c.1 c.2 new)
  | _ => Ok (add_column None None new)
  end.
Fixpoint project_labels (s : Scope) (ps : list (Expression * option bytes)) (new : Scope)
    : res Scope :=
  match ps with
  | [] => Ok new
  | p :: ps => new ← project_label s p new; project_labels s ps new
  end.
(** [Scope::project]. *)
Definition project (s : Scope) (projection : list (Expression * option bytes)) : res Scope :=
  if sc_constant s then constant_scope
  else project_labels s projection (with_tables scope_new (sc_tables s)).

(** * Expressions *)

Definition build_literal (l : Literal) : Value :=
  match l with
  | LNull => Null
  | LBoolean b => Boolean b
  | LInteger i => Integer i
  | LFloat f => Float f
  | LString s => SqlTypes.String s
  end.

(** [Planner::build_expression]. *)
Fixpoint build_expression (s : Scope) (e : AstExpression) : res Expression :=
  match e with
  | ALiteral l => Ok (Constant (build_literal l))
  | AColumn i => label ← get_label s i; Ok (Field i label)
  | AField table name => i ← resolve s table name; Ok (Field i (Some (table, name)))
  | AFunction name _ => value_error "Unknown function {}" [FBytes name]
  | AOperation op =>
      let binary (c : Expression → Expression → Expression) l r :=
        l ← build_expression s l; r ← build_expression s r; Ok (c l r) in
      let unary (c : Expression → Expression) x := x ← build_expression s x; Ok (c x) in
      match op with
      | AAnd l r => binary And l r
      | ANot x => unary Not x
      | AOr l r => binary Or l r
      | AEqual l r => binary Equal l r
      | AGreaterThan l r => binary GreaterThan l r
      | AGreaterThanOrEqual l r => binary (λ l r, Or (GreaterThan l r) (Equal l r)) l r
      | AIsNull x => unary IsNull x
      | ALessThan l r => binary LessThan l r
      | ALessThanOrEqual l r => binary (λ l r, Or (LessThan l r) (Equal l r)) l r
      | ALike l r => binary Like l r
      | ANotEqual l r => binary (λ l r, Not (Equal l r)) l r
      | AAssert x => unary Assert x
      | AAdd l r => binary Add l r
      | ADivide l r => binary Divide l r
      | AExponentiate l r => binary Exponentiate l r
      | AFactorial x => unary Factorial x
      | AModulo l r => binary Modulo l r
      | AMultiply l r => binary Multiply l r
      | ANegate x => unary Negate x
      | ASubtract l r => binary Subtract l r
      end
  end.

(** [e.map(|e| ...).transpose()]. *)
Definition build_option (s : Scope) (o : option AstExpression) : res (option Expression) :=
  match o with
  | Some e => e ← build_expression s e; Ok (Some e)
  | None => Ok None
  end.

(** * Aggregates *)

Definition aggregate_from_name (name : bytes) : option Aggregate :=
  if bool_decide (name = str (text "avg")) then Some Average
  else if bool_decide (name = str (text "count")) then Some Count
  else if bool_decide (name = str (text "max")) then Some Max
  else if bool_decide (name = str (text "min")) then Some Min
  else if bool_decide (name = str (text "sum")) then Some Sum
  else None.

Definition is_aggregate (e : AstExpression) : bool :=
  ast_contains (λ e, match e with
                     | AFunction f _ =>
                         match aggregate_from_name f with Some _ => true | None => false end
                     | _ => false
                     end) e.

Abbreviation Aggregates := (list (Aggregate * AstExpression)).
Abbreviation Selected := (list (AstExpression * option bytes)).

(** [transform_mut] with [Ok] as its second closure. *)
Definition transform_before {S} (before : AstExpression → M S AstExpression) (e : AstExpression)
    : M S AstExpression :=
  ast_transform before mret (ast_depth e) e.

(** The closure of [Planner::extract_aggregates]: the state is the aggregates
    found so far. *)
Definition extract_aggregate (e : AstExpression) : M Aggregates AstExpression := λ aggregates,
  match e with
  | AFunction f [arg] =>
      match aggregate_from_name f with
      | Some aggregate =>
          (Ok (AColumn (N.of_nat (length aggregates))), aggregates ++ [(aggregate, arg)])
      | None => (Ok e, aggregates)
      end
  | _ => (Ok e, aggregates)
  end.
Fixpoint extract_loop (exprs : Selected) : M Aggregates Selected :=
  match exprs with
  | [] => mret []
  | (e, l) :: exprs =>
      e ← transform_before extract_aggregate e;
      exprs ← extract_loop exprs;
      mret ((e, l) :: exprs)
  end.
Definition extract_aggregates (exprs : Selected) : res (Selected * Aggregates) :=
  let '(r, aggregates) := extract_loop exprs [] in
  exprs ← r;
  if existsb (λ '(_, e), is_aggregate e) aggregates
  then value_error "Aggregate functions can't be nested" []
  else Ok (exprs, aggregates).

(** [Planner::extract_groups]. *)
Definition group_position (exprs : Selected) (g : AstExpression) : option nat :=
  match
    match g with
    | AField None label => position (λ '(_, l), bool_decide (l = Some label)) exprs
    | _ => None
    end
  with
  | Some i => Some i
  | None => position (λ '(e, _), ast_eq e g) exprs
  end.
Fixpoint extract_groups_loop (offset : N) (group_by : list AstExpression) (exprs groups : Selected)
    : Selected * Selected :=
  match group_by with
  | [] => (exprs, groups)
  | g :: group_by =>
      match group_position exprs g with
      | Some i =>
          match exprs !! i with
          | Some (e, l) =>
              extract_groups_loop offset group_by
                (<[i := (AColumn (offset + N.of_nat (length groups)), l)]> exprs)
                (groups ++ [(e, l)])
          | None => (exprs, groups)
          end
      | None => extract_groups_loop offset group_by exprs (groups ++ [(g, None)])
      end
  end.
Definition extract_groups (exprs : Selected) (group_by : list AstExpression) (offset : N)
    : res (Selected * Selected) :=
  let '(exprs, groups) := extract_groups_loop offset group_by exprs [] in
  if existsb (λ '(e, _), is_aggregate e) groups
  then value_error "Group expression cannot contain aggregates" []
  else Ok (exprs, groups).

(** * Hidden columns *)

(** The first loop of [Planner::inject_hidden]. *)
Definition label_column (label : bytes) (i : N) (e : AstExpression) : M unit AstExpression :=
  mret match e with
       | AField None l => if bool_decide (l = label) then AColumn i else e
       | e => e
       end.
Fixpoint replace_selected (i : N) (select : Selected) (e : AstExpression) : res AstExpression :=
  match select with
  | [] => Ok e
  | (sexpr, label) :: select =>
      if ast_eq e sexpr then replace_selected (i + 1) select (AColumn i)
      else
        match label with
        | Some label =>
            e ← (transform_before (label_column label i) e tt).1;
            replace_selected (i + 1) select e
        | None => replace_selected (i + 1) select e
        end
  end.

(** The closure of the second: the state is the select list, which grows. *)
Definition push_hidden (e : AstExpression) : M Selected AstExpression := λ select,
  (Ok (AColumn (N.of_nat (length select))), select ++ [(e, None)]).
Definition hide (e : AstExpression) : M Selected AstExpression := λ select,
  match e with
  | AFunction f args =>
      match aggregate_from_name f with
      | Some _ =>
          match args with
          | [] => (Panic "index out of bounds", select)
          | AColumn c :: _ =>
              match select !! N.to_nat c with
              | Some (se, _) =>
                  if is_aggregate se
                  then (value_error "Aggregate function cannot reference aggregate" [], select)
                  else push_hidden e select
              | None => (Panic "index out of bounds", select)
              end
          | _ => push_hidden e select
          end
      | None => (Ok e, select)
      end
  | AField _ _ => push_hidden e select
  | e => (Ok e, select)
  end.

(** [Planner::inject_hidden]; the number of hidden columns is how much the
    select list grew. *)
Definition inject_hidden (e : AstExpression) : M Selected AstExpression := λ select,
  match replace_selected 0 select e with
  | Ok e => transform_before hide e select
  | Err err => (Err err, select)
  | Panic w => (Panic w, select)
  end.

(** * Plans *)

Section planner.
Context {T : Type} `{Reader T, Libm, Regex}.

(** [Planner::evaluate_constant]. *)
Definition evaluate_constant (e : AstExpression) : res Value :=
  e ← build_expression scope_constant e;
  evaluate e None.

(** [Planner::build_from_item]: the scope is passed along. *)
Definition right_projection (s : Scope) (left_size : N) : res (list (Expression * option bytes)) :=
  let n := N.to_nat left_size in
  collect ((λ i, label ← get_label s (N.of_nat i); Ok (Field (N.of_nat i) label, None)) <$>
           (seq n (length (sc_columns s) - n) ++ seq 0 n)).
Fixpoint build_from_item (item : FromItem) (s : Scope) : M T (Node * Scope) :=
  match item with
  | FTable name alias =>
      t ← must_read_table name;
      s ← lift (add_table (default name alias) t s);
      mret (Scan name alias None, s)
  | FJoin l r type predicate =>
      '(lhs, s) ← match type with JRight => build_from_item r s | _ => build_from_item l s end;
      let left_size := scope_len s in
      '(rhs, s) ← match type with JRight => build_from_item l s | _ => build_from_item r s end;
      predicate ← lift (build_option s predicate);
      let outer := match type with JCross | JInner => false | JLeft | JRight => true end in
      let node := NestedLoopJoin lhs left_size rhs predicate outer in
      match type with
      | JRight =>
          expressions ← lift (right_projection s left_size);
          s ← lift (project s expressions);
          mret (Projection node expressions, s)
      | _ => mret (node, s)
      end
  end.

(** [Planner::build_from_clause]. *)
Fixpoint build_from_loop (base : Scope) (items : list FromItem) (node : Node) (s : Scope)
    : M T (Node * Scope) :=
  match items with
  | [] => mret (node, s)
  | item :: items =>
      '(rhs, right_scope) ← build_from_item item base;
      let node := NestedLoopJoin node (scope_len s) rhs None false in
      s ← lift (merge s right_scope);
      build_from_loop base items node s
  end.
Definition build_from_clause (from : list FromItem) (s : Scope) : M T (Node * Scope) :=
  match from with
  | [] => lift (value_error "No from items given" [])
  | item :: items =>
      '(node, s') ← build_from_item item s;
      build_from_loop s items node s'
  end.

(** [Planner::build_aggregation]. *)
Definition build_labelled (s : Scope) (es : Selected) : res (list (Expression * option bytes)) :=
  collect ((λ '(e, l), e ← build_expression s e; Ok (e, l)) <$> es).
Definition build_aggregation (s : Scope) (source : Node) (groups : Selected)
    (aggregations : Aggregates) : res (Node * Scope) :=
  args ← build_labelled s ((λ '(_, e), (e, None)) <$> aggregations);
  keys ← build_labelled s groups;
  s ← project s (((λ _, (Constant Null, None)) <$> args) ++ keys);
  Ok (Aggregation (Projection source (args ++ keys)) aggregations.*1, s).

(** A LIMIT or OFFSET. *)
Definition build_count (message : string) (e : AstExpression) : res N :=
  v ← evaluate_constant e;
  match v with
  | Integer i => if (0 <=? i)%Z then Ok (Z.to_N i) else value_error message [show v]
  | v => value_error message [show v]
  end.

(** The SELECT clause of a query: the select list with its hidden columns. *)
Fixpoint inject_orders (order : list (AstExpression * AstOrder))
    : M Selected (list (AstExpression * AstOrder)) :=
  match order with
  | [] => mret []
  | (e, o) :: order =>
      e ← inject_hidden e;
      order ← inject_orders order;
      mret ((e, o) :: order)
  end.
Definition inject_all (having : option AstExpression) (order : list (AstExpression * AstOrder))
    : M Selected (option AstExpression * list (AstExpression * AstOrder)) :=
  having ← match having with
           | Some e => e ← inject_hidden e; mret (Some e)
           | None => mret None
           end;
  order ← inject_orders order;
  mret (having, order).

Definition build_select_list (s : Scope) (node : Node) (select : Selected)
    (group_by : list AstExpression) : res (Node * Scope) :=
  '(select, aggregates) ← extract_aggregates select;
  '(select, groups) ← extract_groups select group_by (N.of_nat (length aggregates));
  '(node, s) ← (if bool_decide (aggregates = [] ∧ groups = []) then Ok (node, s)
                else build_aggregation s node groups aggregates);
  expressions ← build_labelled s select;
  s ← project s expressions;
  Ok (Projection node expressions, s).

Definition direction (o : AstOrder) : Direction :=
  match o with OAscending => Ascending | ODescending => Descending end.

(** A SELECT statement after its FROM clause. *)
Definition build_query (q : SelectStatement) (node : Node) (s : Scope) : res Node :=
  node ← match s_where q with
         | Some e => p ← build_expression s e; Ok (Filter node p)
         | None => Ok node
         end;
  '(node, s, having, order, hidden) ←
    match s_select q with
    | [] => Ok (node, s, s_having q, s_order q, 0)
    | select =>
        let '(r, select') := inject_all (s_having q) (s_order q) select in
        '(having, order) ← r;
        '(node, s) ← build_select_list s node select' (s_group_by q);
        Ok (node, s, having, order, N.of_nat (length select' - length select))
    end;
  node ← match having with
         | Some e => p ← build_expression s e; Ok (Filter node p)
         | None => Ok node
         end;
  node ← match order with
         | [] => Ok node
         | _ =>
             orders ← collect ((λ '(e, o), e ← build_expression s e; Ok (e, direction o)) <$> order);
             Ok (Order node orders)
         end;
  node ← match s_offset q with
         | Some e => n ← build_count "Invalid offset {}" e; Ok (Offset node n)
         | None => Ok node
         end;
  node ← match s_limit q with
         | Some e => n ← build_count "Invalid limit {}" e; Ok (Limit node n)
         | None => Ok node
         end;
  if 0 <? hidden then
    n ← sub_u64 (scope_len s) hidden;
    Ok (Projection node ((λ i, (Field (N.of_nat i) None, None)) <$> seq 0 (N.to_nat n)))
  else Ok node.

(** A column of CREATE TABLE. *)
Definition build_column (c : AstColumn) : res SqlSchema.Column :=
  let nullable := default (negb (ac_primary_key c)) (ac_nullable c) in
  def ← match ac_default c with
        | Some e => v ← evaluate_constant e; Ok (Some v)
        | None => Ok (if nullable then Some Null else None)
        end;
  Ok {| c_name := ac_name c; c_datatype := ac_datatype c; c_primary_key := ac_primary_key c;
        c_nullable := nullable; c_default := def;
        c_unique := ac_unique c || ac_primary_key c; c_references := ac_references c;
        c_index := ac_index c && negb (ac_primary_key c) |}.

(** An assignment of UPDATE. *)
Definition build_assignment (s : Scope) (a : bytes * AstExpression)
    : res (N * option bytes * Expression) :=
  i ← resolve s None a.1;
  e ← build_expression s a.2;
  Ok (i, Some a.1, e).

(** [Planner::build_statement]. *)
Definition build_statement (statement : Statement) : M T Node :=
  match statement with
  | SBegin _ _ | SCommit | SRollback =>
      lift (Err (EInternal (Msg "Unexpected transaction statement {:?}" [])))
  | SExplain _ => lift (Err (EInternal (Msg "Unexpected explain statement" [])))
  | SCreateTable name columns =>
      columns ← lift (collect (build_column <$> columns));
      t ← lift (new_table name columns);
      mret (CreateTable t)
  | SDropTable name if_exists => mret (DropTable name if_exists)
  | SDelete table where_ =>
      t ← must_read_table table;
      s ← lift (from_table t);
      filter ← lift (build_option s where_);
      mret (Delete table (Scan table None filter))
  | SInsert table columns values =>
      es ← lift (collect ((λ row, collect (build_expression scope_constant <$> row)) <$> values));
      mret (Insert table (default [] columns) es)
  | SUpdate table set_ where_ =>
      t ← must_read_table table;
      s ← lift (from_table t);
      filter ← lift (build_option s where_);
      es ← lift (collect (build_assignment s <$> set_));
      mret (Update table (Scan table None filter) es)
  | SSelect q =>
      '(node, s) ← match s_from q, s_select q with
                   | [], [] => lift (value_error "Can't select * without a table" [])
                   | [], _ => mret (Nothing, scope_new)
                   | from, _ => build_from_clause from scope_new
                   end;
      lift (build_query q node s)
  end.

(** [Plan::build]. *)
Definition plan_build (statement : Statement) : M T Node := build_statement statement.
End planner.
