(* ===== verification/SqlSession.v ===== *)
(** SQL engines and sessions (src/src/sql/engine/mod.rs), and the engine over
    MVCC (the struct [KV] of src/src/sql/engine/kv.rs). *)
From Stdlib Require Import Strings.Byte Strings.String NArith ZArith Lia.
From stdpp Require Import base list gmap strings.
From S2P Require Import Prelude KeyCode Engine Bincode Mvcc SqlTypes SqlExpression SqlSchema SqlKv.
From S2P Require Import SqlPlan SqlExec SqlAggregate SqlExecutor SqlAst SqlLexer SqlParser.
From S2P Require Import SqlPlanner.

Open Scope N_scope.

(** The traits [Engine] and [Transaction].  [S] is what the engine shares
    between its transactions; a transaction is a handle [H], and reads and
    writes through the handle are the class [Transaction]. *)
Class SqlEngine (S H : Type) := {
  sql_begin : M S H;
  sql_begin_read_only : M S H;
  sql_begin_as_of : N → M S H;
  sql_version : H → N;
  sql_read_only : H → bool;
  sql_commit : H → M S unit;
  sql_rollback : H → M S unit;
  sql_txn : H → Transaction S
}.

(** * Sessions *)

Section session.
Context {S H : Type} `{SqlEngine S H} `{Libm, Regex, Unicode}.

Record Session := {
  engine : S;
  txn : option H
}.

(** [Engine::session]. *)
Definition session (e : S) : Session := {| engine := e; txn := None |}.

(** A call of the engine from a session. *)
Definition on_engine {A} (m : M S A) : M Session A := λ s,
  let '(r, e) := m (engine s) in (r, {| engine := e; txn := txn s |}).
Definition get_txn : M Session (option H) := λ s, (Ok (txn s), s).
Definition set_txn (t : option H) : M Session unit := λ s,
  (Ok tt, {| engine := engine s; txn := t |}).

(** [Plan::build(statement, txn)?.optimize(txn)?]. *)
Definition build_plan (h : H) (statement : Statement) : M S Node :=
  let _ := sql_txn h in
  node ← plan_build statement;
  optimize node.

(** [Plan::execute]. *)
Definition execute_plan (h : H) (node : Node) : M S ResultSet :=
  let _ := sql_txn h in execute node.

(** [result], after [end_txn?]. *)
Definition finally {A} (m : M S A) (end_txn : M S unit) : M S A := λ e,
  let '(r, e) := m e in
  match r with
  | Panic w => (Panic w, e)
  | r =>
      match end_txn e with
      | (Ok _, e) => (r, e)
      | (Err err, e) => (Err err, e)
      | (Panic w, e) => (Panic w, e)
      end
  end.

(** [Session::with_txn_read_only]. *)
Definition with_txn_read_only {A} (f : H → M S A) : M Session A :=
  t ← get_txn;
  match t with
  | Some h => on_engine (f h)
  | None => on_engine (h ← sql_begin_read_only; finally (f h) (sql_rollback h))
  end.

(** The plan is built and optimized before the outcome of its execution is
    looked at: an error there returns at once. *)
Definition commit_or_rollback (h : H) (m : M S ResultSet) : M S ResultSet := λ e,
  match m e with
  | (Ok result, e) => (_ ← sql_commit h; mret result) e
  | (Err error, e) => (_ ← sql_rollback h; lift (Err error)) e
  | (Panic w, e) => (Panic w, e)
  end.
Definition autocommit (statement : Statement) : M S ResultSet :=
  h ← sql_begin;
  node ← build_plan h statement;
  commit_or_rollback h (execute_plan h node).

Definition begin_with (read_only : bool) (start : M S H) (version : H → N) : M Session ResultSet :=
  h ← on_engine start;
  _ ← set_txn (Some h);
  mret (RBegin (version h) read_only).

(** [Session::execute], on a parsed statement. *)
Definition execute_statement (statement : Statement) : M Session ResultSet :=
  t ← get_txn;
  match statement, t with
  | SBegin _ _, Some _ => lift (value_error "Already in a transaction" [])
  | SBegin true None, None => begin_with true sql_begin_read_only sql_version
  | SBegin true (Some version), None => begin_with true (sql_begin_as_of version) (λ _, version)
  | SBegin false (Some _), None =>
      lift (value_error "Can't start read-write transaction in a given version" [])
  | SBegin false None, None => begin_with false sql_begin sql_version
  | SCommit, None | SRollback, None => lift (value_error "Not in a transaction" [])
  | SCommit, Some h =>
      _ ← set_txn None;
      _ ← on_engine (sql_commit h);
      mret (RCommit (sql_version h))
  | SRollback, Some h =>
      _ ← set_txn None;
      _ ← on_engine (sql_rollback h);
      mret (RRollback (sql_version h))
  | SExplain statement, _ =>
      node ← with_txn_read_only (λ h, build_plan h statement);
      mret (RExplain node)
  | statement, Some h =>
      on_engine (node ← build_plan h statement; execute_plan h node)
  | SSelect q, None =>
      on_engine (h ← sql_begin_read_only;
                 node ← build_plan h (SSelect q);
                 finally (execute_plan h node) (sql_rollback h))
  | statement, None => on_engine (autocommit statement)
  end.

(** [Session::execute]. *)
Definition session_execute (query : bytes) : M Session ResultSet :=
  statement ← lift (parse query);
  execute_statement statement.

(** [Drop for Session]: an open transaction is rolled back. *)
Definition session_drop (s : Session) : Session := (session_execute (str (text "ROLLBACK")) s).2.
End session.
Arguments Session S H : clear implicits.

(** * The engine over MVCC *)

Section kv.
Context {E : Type} `{Engine E}.
Context `{Bincode N, Bincode (gset N), Bincode (option bytes)}.
Context `{Bincode (list Value), Bincode Table, Libm, Regex}.

#[export] Instance kv_engine : SqlEngine E TransactionState := {
  sql_begin := begin;
  sql_begin_read_only := begin_read_only None;
  sql_begin_as_of v := begin_read_only (Some v);
  sql_version := version;
  sql_read_only := read_only;
  sql_commit := commit;
  sql_rollback := rollback;
  sql_txn st := let _ := mvcc_store st in kv_transaction
}.

(** [KV::resume], [KV::get_metadata] and [KV::set_metadata]. *)
Definition kv_resume : TransactionState → M E TransactionState := resume.
Definition get_metadata : bytes → M E (option bytes) := get_unversioned.
Definition set_metadata : bytes → bytes → M E unit := set_unversioned.
End kv.
