(* ===== verification/SqlRaft.v ===== *)
(** The SQL engine over Raft (src/src/sql/engine/raft.rs): the state machine
    that Raft applies commands to, which is an engine over MVCC with the index
    of the last command, and the engine that sends its calls to it.  The
    channel to the local Raft node is the class [Client]; commands and answers
    are bincode. *)
From Stdlib Require Import Strings.Byte Strings.String NArith ZArith Lia.
From stdpp Require Import base list gmap strings.
From S2P Require Import Prelude KeyCode Engine Bincode Mvcc RaftLog RaftNode SqlTypes.
From S2P Require Import SqlExpression SqlSchema SqlKv SqlLexer SqlSession.

Open Scope N_scope.

(** * Commands *)

Inductive Mutation :=
| MBegin
| MCommit (txn : TransactionState)
| MRollback (txn : TransactionState)
| MCreate (txn : TransactionState) (table : bytes) (row : Row)
| MDelete (txn : TransactionState) (table : bytes) (id : Value)
| MUpdate (txn : TransactionState) (table : bytes) (id : Value) (row : Row)
| MCreateTable (txn : TransactionState) (schema : Table)
| MDeleteTable (txn : TransactionState) (table : bytes).

Inductive Query :=
| QBeginReadOnly (as_of : option N)
| QStatus
| QRead (txn : TransactionState) (table : bytes) (id : Value)
| QReadIndex (txn : TransactionState) (table column : bytes) (value : Value)
| QScan (txn : TransactionState) (table : bytes) (filter : option Expression)
| QScanIndex (txn : TransactionState) (table column : bytes)
| QScanTables (txn : TransactionState)
| QReadTable (txn : TransactionState) (table : bytes).

(** The types that cross the channel. *)
Class Codecs := {
  bin_mutation :: Bincode Mutation;
  bin_query :: Bincode Query;
  bin_state :: Bincode TransactionState;
  bin_unit :: Bincode unit;
  bin_row :: Bincode (option Row);
  bin_values :: Bincode (list Value);
  bin_rows :: Bincode (list Row);
  bin_entries :: Bincode (list (Value * list Value));
  bin_table :: Bincode Table;
  bin_option_table :: Bincode (option Table);
  bin_tables :: Bincode (list Table);
  bin_status :: Bincode MvccStatus;
  bin_N :: Bincode N;
  bin_set :: Bincode (gset N);
  bin_value :: Bincode (option bytes)
}.

(** * The state machine *)

Section state.
Context {E : Type} `{Engine E, Codecs, Libm, Regex}.

(** [State]. *)
Record SqlState := {
  kv : E;
  applied_index : N
}.

Definition applied_key : bytes := str (text "applied_index").

(** [State::new]. *)
Definition load_applied : M E N :=
  o ← get_metadata applied_key;
  lift (match o with Some b => bin_deserialize b | None => Ok 0 end).
Definition state_new (engine : E) : res SqlState :=
  let '(r, e) := load_applied engine in
  index ← r;
  Ok {| kv := e; applied_index := index |}.

(** A call on the transaction that a command carries, and its answer. *)
Definition with_txn {A} `{Bincode A} (st : TransactionState)
    (f : Transaction E → TransactionState → M E A) : M E bytes :=
  st ← kv_resume st;
  a ← f (sql_txn st) st;
  mret (bin_serialize a).

(** [State::mutate]. *)
Definition state_mutate (mutation : Mutation) : M E bytes :=
  match mutation with
  | MBegin => st ← sql_begin; mret (bin_serialize st)
  | MCommit txn => with_txn txn (λ _ st, sql_commit st)
  | MRollback txn => with_txn txn (λ _ st, sql_rollback st)
  | MCreate txn table row => with_txn txn (λ t _, tx_create table row)
  | MDelete txn table id => with_txn txn (λ t _, tx_delete table id)
  | MUpdate txn table id row => with_txn txn (λ t _, tx_update table id row)
  | MCreateTable txn schema => with_txn txn (λ t _, tx_create_table schema)
  | MDeleteTable txn table => with_txn txn (λ t _, tx_delete_table table)
  end.

(** A call of the underlying engine. *)
Definition on_kv {A} (m : M E A) : M SqlState A := λ s,
  let '(r, e) := m (kv s) in (r, {| kv := e; applied_index := applied_index s |}).

(** [State::apply]: an internal error is returned without recording the entry
    as applied. *)
Definition record_applied (index : N) (result : res bytes) : M SqlState bytes := λ s,
  (_ ← on_kv (set_metadata applied_key (bin_serialize index)); lift result)
    {| kv := kv s; applied_index := index |}.
Definition state_apply (entry : Entry) : M SqlState bytes := λ s,
  if decide (RaftLog.index entry = applied_index s + 1) then
    match command entry with
    | Some command =>
        match bin_deserialize command with
        | Ok mutation =>
            match on_kv (state_mutate mutation) s with
            | (Err (EInternal m), s) => (Err (EInternal m), s)
            | (Panic w, s) => (Panic w, s)
            | (result, s) => record_applied (RaftLog.index entry) result s
            end
        | Err e => (Err e, s)
        | Panic w => (Panic w, s)
        end
    | None => record_applied (RaftLog.index entry) (Ok []) s
    end
  else (Panic "entry index not after applied index", s).

(** [State::read]. *)
Definition state_query (query : Query) : M E bytes :=
  match query with
  | QBeginReadOnly as_of =>
      st ← match as_of with Some v => sql_begin_as_of v | None => sql_begin_read_only end;
      mret (bin_serialize st)
  | QStatus => s ← status; mret (bin_serialize s)
  | QRead txn table id => with_txn txn (λ t _, tx_read table id)
  | QReadIndex txn table column value => with_txn txn (λ t _, tx_read_index table column value)
  | QScan txn table filter =>
      with_txn txn (λ t _, rows ← tx_scan table filter; lift (collect rows))
  | QScanIndex txn table column =>
      with_txn txn (λ t _, entries ← tx_scan_index table column; lift (collect entries))
  | QScanTables txn => with_txn txn (λ t _, tx_scan_tables)
  | QReadTable txn table => with_txn txn (λ t _, tx_read_table table)
  end.
Definition state_read (command : bytes) (s : SqlState) : res bytes :=
  query ← bin_deserialize command;
  (state_query query (kv s)).1.

#[export] Instance sql_state : State SqlState := {
  get_applied_index := applied_index;
  apply_entry := state_apply;
  read_state := state_read
}.
End state.
Arguments SqlState E : clear implicits.

(** * The engine *)

(** [Client::execute]: a request to the local Raft node, and its response. *)
Class Client (S : Type) := client_execute : Request → M S Response.

Section raft.
Context {S : Type} `{Client S, Codecs}.

(** [Client::mutate], [Client::query] and [Client::status]. *)
Definition client_mutate {V} `{Bincode V} (mutation : Mutation) : M S V :=
  resp ← client_execute (ReqWrite (bin_serialize mutation));
  match resp with
  | RespWrite response => lift (bin_deserialize response)
  | _ => lift (Err (EInternal (Msg "Unexpected Raft mutation response {:?}" [])))
  end.
Definition client_query {V} `{Bincode V} (query : Query) : M S V :=
  resp ← client_execute (ReqRead (bin_serialize query));
  match resp with
  | RespRead response => lift (bin_deserialize response)
  | _ => lift (Err (EInternal (Msg "Unexpected Raft query response {:?}" [])))
  end.
Definition client_status : M S RaftStatus :=
  resp ← client_execute ReqStatus;
  match resp with
  | RespStatus status => mret status
  | _ => lift (Err (EInternal (Msg "Unexpected Raft status response {:?}" [])))
  end.

(** [Raft::status]. *)
Definition raft_status : M S (RaftStatus * MvccStatus) :=
  raft ← client_status;
  mvcc ← client_query QStatus;
  mret (raft, mvcc).

(** [Transaction::begin]. *)
Definition raft_begin (read_only : bool) (as_of : option N) : M S TransactionState :=
  if read_only || match as_of with Some _ => true | None => false end
  then client_query (QBeginReadOnly as_of)
  else client_mutate MBegin.

Definition raft_commit (st : TransactionState) : M S unit :=
  if read_only st then mret tt else client_mutate (MCommit st).
Definition raft_rollback (st : TransactionState) : M S unit :=
  if read_only st then mret tt else client_mutate (MRollback st).

(** The rows of a scan arrive as a vector. *)
Definition raft_scan (st : TransactionState) (table : bytes) (filter : option Expression)
    : M S (list (res Row)) :=
  rows ← client_query (QScan st table filter); mret (Ok <$> (rows : list Row)).
Definition raft_scan_index (st : TransactionState) (table column : bytes)
    : M S (list (res (Value * list Value))) :=
  entries ← client_query (QScanIndex st table column);
  mret (Ok <$> (entries : list (Value * list Value))).

Definition raft_transaction (st : TransactionState) : Transaction S := {|
  tx_reader := {| tx_read_table table := client_query (QReadTable st table);
                  tx_scan_tables := client_query (QScanTables st);
                  tx_read table id := client_query (QRead st table id);
                  tx_scan := raft_scan st |};
  tx_create table row := client_mutate (MCreate st table row);
  tx_delete table id := client_mutate (MDelete st table id);
  tx_read_index table column value := client_query (QReadIndex st table column value);
  tx_scan_index := raft_scan_index st;
  tx_update table id row := client_mutate (MUpdate st table id row);
  tx_create_table schema := client_mutate (MCreateTable st schema);
  tx_delete_table table := client_mutate (MDeleteTable st table)
|}.

#[export] Instance raft_engine : SqlEngine S TransactionState := {
  sql_begin := raft_begin false None;
  sql_begin_read_only := raft_begin true None;
  sql_begin_as_of v := raft_begin true (Some v);
  sql_version := version;
  sql_read_only := read_only;
  sql_commit := raft_commit;
  sql_rollback := raft_rollback;
  sql_txn := raft_transaction
}.
End raft.
