(* ===== verification/SqlValid.v ===== *)
(** Values stay in their formats: integers and floats within 64 bits, strings
    valid UTF-8.  Rounding yields a canonical mantissa and exponent, and so do
    the arithmetic operations and the decimal literals of the parser; evaluation
    keeps all formats. *)
From Stdlib Require Import Strings.Byte NArith ZArith Lia Floats.SpecFloat.
From stdpp Require Import base list strings.
From S2P Require Import Prelude KeyCode Engine SqlTypes SqlExpression SqlRewrite SqlClaims SqlKeys.
From S2P Require Import SqlAst SqlLexer SqlParser.

Open Scope Z_scope.

Lemma fexp64 e : fexp 53 1024 e = Z.max (e - 53) (-1074).
Proof. reflexivity. Qed.

Lemma digits2_bounds p : 2 ^ (Zpos (digits2_pos p) - 1) ≤ Zpos p < 2 ^ Zpos (digits2_pos p).
Proof.
  induction p as [p IH|p IH|]; cbn [digits2_pos]; [..|cbn; lia];
    rewrite Pos2Z.inj_succ; replace (Z.succ (Zpos (digits2_pos p)) - 1) with (Zpos (digits2_pos p)) by lia;
    rewrite Z.pow_succ_r by lia;
    replace (2 ^ Zpos (digits2_pos p)) with (2 * 2 ^ (Zpos (digits2_pos p) - 1)) in *
      by (rewrite <-Z.pow_succ_r by lia; f_equal; lia); lia.
Qed.

(** [d] is the number of binary digits of [m]. *)
Record has_digits (m d : Z) : Prop := {
  hd_range : 0 ≤ m < 2 ^ d;
  hd_pos : 0 ≤ d;
  hd_low : 0 < m → 2 ^ (d - 1) ≤ m;
  hd_zero : m = 0 → d = 0
}.

Lemma Zdigits2_spec m : 0 ≤ m → has_digits m (Zdigits2 m).
Proof.
  intros Hm. destruct m as [|p|p]; [split; cbn; lia| |lia]. cbn [Zdigits2].
  pose proof (digits2_bounds p). split; lia.
Qed.

Lemma digits_le m d k : has_digits m d → 0 ≤ k → m < 2 ^ k → d ≤ k.
Proof.
  intros [Hm Hd Hlo Hz] Hk Hlt. destruct (Z.le_gt_cases d k); [done|].
  destruct (Z.eq_dec m 0) as [->|]; [lia|]. specialize (Hlo ltac:(lia)).
  assert (2 ^ k ≤ 2 ^ (d - 1)) by (apply Z.pow_le_mono_r; lia). lia.
Qed.

Lemma digits_ge m d k : has_digits m d → 0 ≤ k → 2 ^ k ≤ m → k + 1 ≤ d.
Proof.
  intros [Hm Hd Hlo Hz] Hk Hle. destruct (Z.le_gt_cases (k + 1) d); [done|].
  assert (2 ^ d ≤ 2 ^ k) by (apply Z.pow_le_mono_r; lia). lia.
Qed.

(** Shifting right drops digits. *)
Lemma digits_shift m d k : has_digits m d → 0 ≤ k → has_digits (m / 2 ^ k) (Z.max (d - k) 0).
Proof.
  intros Hm Hk. pose proof Hm as [Hr Hd Hlo Hz].
  assert (0 < 2 ^ k) as Hp by (apply Z.pow_pos_nonneg; lia).
  pose proof (Z.div_pos m (2 ^ k) ltac:(lia) Hp) as H0.
  destruct (Z.le_gt_cases d k) as [Hdk|Hdk].
  - rewrite Z.max_r by lia. assert (2 ^ d ≤ 2 ^ k) by (apply Z.pow_le_mono_r; lia).
    rewrite Z.div_small by lia. split; cbn; lia.
  - rewrite Z.max_l by lia.
    assert (2 ^ d = 2 ^ k * 2 ^ (d - k)) as Hpow by (rewrite <-Z.pow_add_r by lia; f_equal; lia).
    assert (m / 2 ^ k < 2 ^ (d - k)) as Hlt by (apply Z.div_lt_upper_bound; lia).
    assert (0 < m) as Hpos.
    { destruct (Z.eq_dec m 0) as [E|]; [specialize (Hz E); lia|lia]. }
    assert (2 ^ (d - k - 1) ≤ m / 2 ^ k) as Hge.
    { apply Z.div_le_lower_bound; [done|]. rewrite <-Z.pow_add_r by lia.
      replace (k + (d - k - 1)) with (d - 1) by lia. by apply Hlo. }
    assert (0 < 2 ^ (d - k - 1)) by (apply Z.pow_pos_nonneg; lia).
    split; lia.
Qed.

Lemma digits_unique m d d' : has_digits m d → has_digits m d' → d = d'.
Proof.
  intros Hm Hm'. destruct (Z.eq_dec m 0) as [E|E].
  - by rewrite (hd_zero _ _ Hm E), (hd_zero _ _ Hm' E).
  - pose proof (digits_le m d d' Hm (hd_pos _ _ Hm') (proj2 (hd_range _ _ Hm'))).
    pose proof (digits_le m d' d Hm' (hd_pos _ _ Hm) (proj2 (hd_range _ _ Hm))). lia.
Qed.

(** * Shifts *)

Lemma shr_1_m r : 0 ≤ shr_m r → shr_m (shr_1 r) = shr_m r / 2.
Proof.
  destruct r as [m r s]. cbn [shr_m]. intros Hm. unfold shr_1.
  destruct m as [|[p|p|]|p]; cbn [shr_m]; try lia; try done.
  - rewrite Pos2Z.inj_xI. apply (Z.div_unique _ _ _ 1); lia.
  - rewrite Pos2Z.inj_xO. apply (Z.div_unique _ _ _ 0); lia.
Qed.

Lemma iter_shr_m p r : 0 ≤ shr_m r → shr_m (SpecFloat.iter_pos shr_1 p r) = shr_m r / 2 ^ Zpos p.
Proof.
  revert r. induction p as [p IH|p IH|]; intros r Hr; cbn [SpecFloat.iter_pos].
  - assert (0 ≤ shr_m (shr_1 r)) by (rewrite shr_1_m by done; by apply Z.div_pos).
    assert (0 ≤ shr_m (SpecFloat.iter_pos shr_1 p (shr_1 r))).
    { rewrite IH by done. apply Z.div_pos; [done|]. by apply Z.pow_pos_nonneg. }
    rewrite !IH, shr_1_m by done. rewrite !Z.div_div by (try apply Z.pow_pos_nonneg; lia).
    f_equal. replace (Zpos p~1) with (Zpos p + Zpos p + 1) by lia.
    rewrite !Z.pow_add_r, Z.pow_1_r by lia. ring.
  - assert (0 ≤ shr_m (SpecFloat.iter_pos shr_1 p r)).
    { rewrite IH by done. apply Z.div_pos; [done|]. by apply Z.pow_pos_nonneg. }
    rewrite !IH by done. rewrite Z.div_div by (try apply Z.pow_pos_nonneg; lia).
    f_equal. rewrite <-Z.pow_add_r by lia. f_equal. lia.
  - by rewrite shr_1_m.
Qed.

Lemma shr_of_loc m l : shr_m (shr_record_of_loc m l) = m.
Proof. by destruct l as [|[]]. Qed.

(** A mantissa whose exponent is not above the canonical one is shifted to it. *)
Lemma shr_fexp_spec m e l : 0 ≤ m → e ≤ fexp 53 1024 (Zdigits2 m + e) →
  ∃ r, shr_fexp 53 1024 m e l = (r, fexp 53 1024 (Zdigits2 m + e)) ∧
    shr_m r = m / 2 ^ (fexp 53 1024 (Zdigits2 m + e) - e).
Proof.
  intros Hm He. unfold shr_fexp, shr. remember (fexp 53 1024 (Zdigits2 m + e)) as f eqn:Hf.
  destruct (f - e) as [|p|p] eqn:E; [|eexists; split; [f_equal; lia|]|lia].
  - eexists. split; [f_equal; lia|]. by rewrite shr_of_loc, Z.pow_0_r, Z.div_1_r.
  - rewrite iter_shr_m; by rewrite shr_of_loc.
Qed.

Lemma round_even_range m l : m ≤ round_nearest_even m l ≤ m + 1.
Proof. unfold round_nearest_even. destruct l as [|[]]; repeat case_match; lia. Qed.

(** * Rounding *)

Theorem round_valid sx mx ex lx : 0 ≤ mx → ex ≤ fexp 53 1024 (Zdigits2 mx + ex) →
  f64_valid (binary_round_aux 53 1024 sx mx ex lx).
Proof.
  intros Hm He. unfold binary_round_aux.
  destruct (shr_fexp_spec mx ex lx Hm He) as (r & -> & Hr).
  pose proof (digits_shift _ _ (fexp 53 1024 (Zdigits2 mx + ex) - ex) (Zdigits2_spec mx Hm) ltac:(lia)) as Hd.
  rewrite <-Hr in Hd. remember (fexp 53 1024 (Zdigits2 mx + ex)) as e1 eqn:He1.
  rewrite fexp64 in He1.
  pose proof (round_even_range (shr_m r) (loc_of_shr_record r)) as Hround.
  remember (round_nearest_even (shr_m r) (loc_of_shr_record r)) as m2 eqn:Hm2. clear Hm2.
  pose proof Hd as [Hrr _ Hlow _].
  assert (m2 ≤ 2 ^ 53) as Hmax.
  { assert (2 ^ Z.max (Zdigits2 mx - (e1 - ex)) 0 ≤ 2 ^ 53) by (apply Z.pow_le_mono_r; lia). lia. }
  pose proof (Zdigits2_spec m2 ltac:(lia)) as Hd2.
  assert (Zdigits2 m2 ≤ 54) by (apply (digits_le m2); [done|lia|]; change (2 ^ 54) with (2 * 2 ^ 53); lia).
  assert (m2 = 0 ∨ e1 = -1074 ∨ 53 ≤ Zdigits2 m2) as Hcases.
  { destruct (Z.eq_dec e1 (-1074)); [tauto|]. right. right.
    assert (e1 = Zdigits2 mx + ex - 53) as E by lia.
    replace (Z.max (Zdigits2 mx - (e1 - ex)) 0) with 53 in * by lia.
    assert (0 < shr_m r).
    { destruct (Z.eq_dec (shr_m r) 0) as [E0|]; [|lia]. pose proof (hd_zero _ _ Hd E0). lia. }
    apply (digits_ge m2 _ 52 Hd2); [done|]. specialize (Hlow ltac:(lia)). cbn in *. lia. }
  destruct (Z.eq_dec m2 0) as [->|Hne].
  { unfold shr_fexp, shr. cbn [Zdigits2]. destruct (_ - e1); [by cbn|..]; [|by cbn].
    pose proof (iter_shr_m p (shr_record_of_loc 0 loc_Exact)) as Hi. rewrite shr_of_loc in Hi.
    rewrite Hi, Z.div_0_l by (try apply Z.pow_nonzero; lia). done. }
  destruct (shr_fexp_spec m2 e1 loc_Exact ltac:(lia)) as (r2 & -> & Hr2); [rewrite fexp64; lia|].
  pose proof (digits_shift _ _ (fexp 53 1024 (Zdigits2 m2 + e1) - e1) Hd2 ltac:(rewrite fexp64; lia)) as Hd3.
  rewrite <-Hr2 in Hd3. remember (fexp 53 1024 (Zdigits2 m2 + e1)) as e2 eqn:He2. rewrite fexp64 in He2.
  destruct (shr_m r2) as [|p|p] eqn:Ep; [done| |pose proof (hd_range _ _ Hd3); lia].
  destruct (Z.leb_spec e2 (1024 - 53)); [|done].
  unfold f64_valid. cbn [valid_binary]. unfold bounded, canonical_mantissa. rewrite fexp64.
  pose proof (digits_unique _ _ _ Hd3 (Zdigits2_spec (Zpos p) ltac:(lia))) as Hu. cbn [Zdigits2] in Hu.
  rewrite <-Hu. apply andb_true_iff. split; [apply Z.eqb_eq|apply Z.leb_le]; lia.
Qed.

(** * Operations *)

Lemma digits2_iter_xO m d : Zpos (digits2_pos (Pos.iter xO m d)) = Zpos (digits2_pos m) + Zpos d.
Proof.
  induction d as [|d IH] using Pos.peano_ind; [cbn; lia|].
  rewrite Pos.iter_succ. cbn [digits2_pos]. rewrite Pos2Z.inj_succ, IH, Pos2Z.inj_succ. lia.
Qed.

Lemma normalize_valid m e s : f64_valid (binary_normalize 53 1024 m e s).
Proof.
  assert (∀ sx p, f64_valid (binary_round 53 1024 sx p e)) as Hr.
  { intros sx p. unfold binary_round, shl_align.
    remember (fexp 53 1024 (Zpos (digits2_pos p) + e)) as f eqn:Hf.
    destruct (f - e) as [|q|q] eqn:E; cbn beta iota.
    - apply round_valid; [done|]. cbn [Zdigits2]. lia.
    - apply round_valid; [done|]. cbn [Zdigits2]. lia.
    - apply round_valid; [done|]. cbn [Zdigits2]. rewrite digits2_iter_xO, Hf, !fexp64 in *. lia. }
  destruct m; [done|apply Hr..].
Qed.

Lemma f64_of_Z_valid z : f64_valid (f64_of_Z z).
Proof. apply normalize_valid. Qed.

Lemma f64_add_valid x y : f64_valid x → f64_valid y → f64_valid (f64_add x y).
Proof.
  intros Hx Hy. unfold f64_add. destruct x as [[]|[]| |], y as [[]|[]| |]; cbn [SFadd]; try done.
  apply normalize_valid.
Qed.

Lemma f64_sub_valid x y : f64_valid x → f64_valid y → f64_valid (f64_sub x y).
Proof.
  intros Hx Hy. unfold f64_sub. destruct x as [[]|[]| |], y as [[]|[]| |]; cbn [SFsub]; try done.
  apply normalize_valid.
Qed.

(** The exponent of a valid float, and its digits. *)
Lemma finite_exponent s m e : f64_valid (S754_finite s m e) →
  -1074 ≤ e ∧ (e = -1074 ∨ Zpos (digits2_pos m) = 53).
Proof.
  unfold f64_valid. cbn [valid_binary]. unfold bounded, canonical_mantissa. rewrite fexp64.
  rewrite andb_true_iff, Z.eqb_eq. lia.
Qed.

Lemma digits_mul p q :
  Zpos (digits2_pos p) + Zpos (digits2_pos q) - 1 ≤ Zdigits2 (Zpos (p * q)).
Proof.
  pose proof (digits2_bounds p) as [Hp _]. pose proof (digits2_bounds q) as [Hq _].
  replace (Zpos (digits2_pos p) + Zpos (digits2_pos q) - 1)
    with ((Zpos (digits2_pos p) - 1) + (Zpos (digits2_pos q) - 1) + 1) by lia.
  apply (digits_ge (Zpos (p * q))); [by apply Zdigits2_spec|lia|].
  rewrite Z.pow_add_r, Pos2Z.inj_mul by lia. apply Z.mul_le_mono_nonneg; try done; apply Z.pow_nonneg; lia.
Qed.

Lemma f64_mul_valid x y : f64_valid x → f64_valid y → f64_valid (f64_mul x y).
Proof.
  intros Hx Hy. unfold f64_mul. destruct x as [| | |sx mx ex], y as [| | |sy my ey]; cbn [SFmul]; try done.
  apply finite_exponent in Hx as [Hx1 Hx2], Hy as [Hy1 Hy2].
  apply round_valid; [done|]. rewrite fexp64. pose proof (digits_mul mx my). lia.
Qed.

(** A quotient has the digits its exponent asks for, whatever the operands. *)
Lemma div_core_valid s mx ex my ey :
  f64_valid (SFdiv 53 1024 (S754_finite s mx ex) (S754_finite false my ey)) ∧
  ∀ s', f64_valid (SFdiv 53 1024 (S754_finite s mx ex) (S754_finite s' my ey)).
Proof.
  cut (∀ s', f64_valid (SFdiv 53 1024 (S754_finite s mx ex) (S754_finite s' my ey))); [auto|].
  intros s'. cbn [SFdiv]. unfold SFdiv_core_binary. cbn [Zdigits2].
  remember (Z.min (fexp 53 1024 (Zpos (digits2_pos mx) + ex - (Zpos (digits2_pos my) + ey))) (ex - ey))
    as e' eqn:He.
  remember (match ex - ey - e' with
            | Z0 => Zpos mx | Zpos _ => Z.shiftl (Zpos mx) (ex - ey - e') | Zneg _ => 0 end) as m' eqn:Hm.
  assert (m' = Zpos mx * 2 ^ (ex - ey - e')) as Hm'.
  { destruct (ex - ey - e') eqn:E; [|by rewrite Hm, Z.shiftl_mul_pow2|lia].
    by rewrite Hm, Z.pow_0_r, Z.mul_1_r. }
  pose proof (digits2_bounds mx) as [Hx _]. pose proof (digits2_bounds my) as [_ Hy].
  pose proof (Z_div_mod m' (Zpos my) ltac:(lia)) as Hdiv.
  destruct (Z.div_eucl m' (Zpos my)) as [q r]. destruct Hdiv as [Hq Hr].
  assert (0 < 2 ^ (ex - ey - e')) by (apply Z.pow_pos_nonneg; lia).
  assert (0 ≤ q) as Hq0 by nia. apply round_valid; [done|].
  assert (Zpos (digits2_pos mx) + (ex - ey - e') - Zpos (digits2_pos my) ≤ Zdigits2 q) as Hd.
  { pose proof (Zdigits2_spec q Hq0) as Hdq. pose proof (hd_pos _ _ Hdq).
    destruct (Z.le_gt_cases (Zpos (digits2_pos mx) + (ex - ey - e') - Zpos (digits2_pos my)) 0); [lia|].
    replace (Zpos (digits2_pos mx) + (ex - ey - e') - Zpos (digits2_pos my)) with
      ((Zpos (digits2_pos mx) - 1 + (ex - ey - e') - Zpos (digits2_pos my)) + 1) by lia.
    apply (digits_ge q); [done|lia|]. apply Z.nlt_ge. intros Hlt.
    assert (2 ^ (Zpos (digits2_pos mx) - 1 + (ex - ey - e') - Zpos (digits2_pos my))
      * 2 ^ Zpos (digits2_pos my) = 2 ^ (Zpos (digits2_pos mx) - 1) * 2 ^ (ex - ey - e')) as Hpow.
    { rewrite <-!Z.pow_add_r by lia. f_equal. lia. }
    assert (2 ^ (Zpos (digits2_pos mx) - 1) * 2 ^ (ex - ey - e') ≤ m') by nia. nia. }
  rewrite fexp64 in *. lia.
Qed.

Lemma f64_div_valid x y : f64_valid x → f64_valid y → f64_valid (f64_div x y).
Proof.
  intros Hx Hy. unfold f64_div.
  destruct x as [| | |sx mx ex], y as [| | |sy my ey]; [done..|by apply div_core_valid].
Qed.

Lemma f64_rem_valid x y : f64_valid x → f64_valid y → f64_valid (f64_rem x y).
Proof.
  intros Hx Hy. destruct x as [| | |sx mx ex], y as [| | |sy my ey]; cbn [f64_rem]; try done.
  destruct (_ =? 0); [done|apply normalize_valid].
Qed.

(** The literals of the parser. *)
Lemma decimal_f64_valid m e : f64_valid (decimal_f64 m e).
Proof.
  unfold decimal_f64. destruct m as [|m]; [done|].
  destruct e; [apply normalize_valid..|apply div_core_valid].
Qed.

(** The constants of an expression. *)
Fixpoint constants_valid (e : Expression) : Prop :=
  match e with
  | Constant v => value_valid v
  | Field _ _ => True
  | And l r | Or l r | Equal l r | GreaterThan l r | LessThan l r | Add l r | Divide l r
  | Exponentiate l r | Modulo l r | Multiply l r | Subtract l r | Like l r =>
      constants_valid l ∧ constants_valid r
  | Not x | IsNull x | Assert x | Factorial x | Negate x => constants_valid x
  end.

(** The formats other than that of integers. *)
Definition formatted (v : Value) : Prop :=
  match v with Float f => f64_valid f | String s => utf8_valid s = true | _ => True end.

Lemma value_valid_iff v : value_valid v ↔ value_ok v ∧ formatted v.
Proof. destruct v; cbn; tauto. Qed.

(** Powers are floats of the format. *)
Class LibmLaws `{Libm} : Prop := {
  powf_valid x y : f64_valid x → f64_valid y → f64_valid (f64_powf x y);
  powi_valid x n : f64_valid x → f64_valid (f64_powi x n)
}.

#[export] Hint Resolve f64_of_Z_valid f64_add_valid f64_sub_valid f64_mul_valid f64_div_valid
  f64_rem_valid powf_valid powi_valid : radb.

Section valid.
Context `{LibmLaws, Regex}.

Lemma constants_ok_valid e : constants_valid e → constants_ok e = true.
Proof.
  unfold constants_ok. induction e; cbn [constants_valid]; intros Hc; rewrite walk_spec;
    cbn [children forallb constant_ok andb]; rewrite ?andb_true_r; auto;
    try (destruct Hc; apply andb_true_iff; auto; fail).
  destruct v; try done. by apply in_i64_spec.
Qed.

Lemma binary_formatted (op : Value → Value → res Value) l r row v :
  (∀ x y, formatted x → formatted y → op x y = Ok v → formatted v) →
  (∀ x, evaluate l row = Ok x → formatted x) → (∀ x, evaluate r row = Ok x → formatted x) →
  (x ← evaluate l row; y ← evaluate r row; op x y) = Ok v → formatted v.
Proof.
  intros Hop Hl Hr (x & Hx & (y & Hy & Hv)%res_bind_Ok_inv)%res_bind_Ok_inv. apply (Hop x y); auto.
Qed.
Lemma unary_formatted (op : Value → res Value) e row v :
  (∀ x, formatted x → op x = Ok v → formatted v) → (∀ x, evaluate e row = Ok x → formatted x) →
  (x ← evaluate e row; op x) = Ok v → formatted v.
Proof. intros Hop He (x & Hx & Hv)%res_bind_Ok_inv. apply (Hop x); auto. Qed.

Lemma arith_formatted what on_int on_float l r v :
  (∀ a b, on_int a b = Ok v → formatted v) →
  (∀ x y, f64_valid x → f64_valid y → f64_valid (on_float x y)) →
  formatted l → formatted r → eval_arith what on_int on_float l r = Ok v → formatted v.
Proof.
  intros Hi Hf Hl Hr. destruct l, r; cbn; try done; try (by intros [= <-]);
    try (by apply Hi); intros [= <-]; cbn in *; auto with radb.
Qed.

Lemma overflow_formatted o v : overflow o = Ok v → formatted v.
Proof. destruct o; [|done]. by intros [= <-]. Qed.

(** Operators that return no floats and no strings. *)
Ltac no_float :=
  intros x y _ _; destruct x as [|[]| | |], y as [|[]| | |]; cbn; try done; by intros [= <-].

Lemma exponentiate_formatted x y v : formatted x → formatted y → eval_exponentiate x y = Ok v →
  formatted v.
Proof.
  intros Hx Hy. destruct x, y; cbn [eval_exponentiate]; try done;
    try (intros [= <-]; cbn in *; auto with radb; fail).
  destruct (0 <=? i0); [apply overflow_formatted|]. intros [= <-]. cbn. auto with radb.
Qed.

Lemma evaluate_formatted e row v : Forall formatted (default [] row) → constants_valid e →
  evaluate e row = Ok v → formatted v.
Proof.
  intros Hrow. revert v. induction e as [c|i lb|l IHl r IHr|e IH|l IHl r IHr|l IHl r IHr|l IHl r IHr
    |e IH|l IHl r IHr|l IHl r IHr|e IH|l IHl r IHr|l IHl r IHr|e IH|l IHl r IHr|l IHl r IHr|e IH
    |l IHl r IHr|l IHl r IHr]; intros v Hc; cbn [constants_valid] in Hc;
    try (destruct Hc as [Hcl Hcr]); cbn [evaluate];
    try (apply binary_formatted; [|by auto|by auto]); try (apply unary_formatted; [|by auto]).
  - intros [= <-]. by apply value_valid_iff in Hc as [_ ?].
  - intros [= <-]. unfold field_value. destruct row as [row|]; cbn; [|done].
    destruct (row !! N.to_nat i) as [v|] eqn:E; cbn; [|done]. exact (Forall_lookup_1 _ _ _ _ Hrow E).
  - no_float.
  - intros x _. destruct x; cbn; try done; by intros [= <-].
  - no_float.
  - no_float.
  - no_float.
  - intros x _. destruct x; cbn; by intros [= <-].
  - no_float.
  - intros x y. apply arith_formatted; [|auto with radb]. intros a b. apply overflow_formatted.
  - intros x Hx. destruct x; cbn; try done; by intros [= <-].
  - intros x y. apply arith_formatted; [|auto with radb]. intros a b.
    destruct (b =? 0); [done|]. destruct (in_i64 _); [by intros [= <-]|done].
  - intros x y. apply exponentiate_formatted.
  - intros x _. destruct x; cbn [eval_factorial]; try done; try (by intros [= <-]).
    destruct (i <? 0); [done|]. by intros (n & _ & [= <-])%res_bind_Ok_inv.
  - intros x y. apply arith_formatted; [|auto with radb]. intros a b.
    destruct (b =? 0); [done|]. destruct (in_i64 _); [by intros [= <-]|done].
  - intros x y. apply arith_formatted; [|auto with radb]. intros a b. apply overflow_formatted.
  - intros x Hx. destruct x as [| | |f|]; cbn [eval_negate]; try done; try (by intros [= <-]).
    + destruct (in_i64 _); [by intros [= <-]|done].
    + intros [= <-]. by destruct f.
  - intros x y. apply arith_formatted; [|auto with radb]. intros a b. apply overflow_formatted.
  - intros x y _ _. destruct x, y; cbn [eval_like]; try done; try (by intros [= <-]).
    by intros (b & _ & [= <-])%res_bind_Ok_inv.
Qed.

(** The value of an expression is of its format when its constants and the row are. *)
Lemma evaluate_valid e row v : Forall value_valid (default [] row) → constants_valid e →
  evaluate e row = Ok v → value_valid v.
Proof.
  intros Hrow Hc Hv. apply value_valid_iff. split.
  - eapply evaluate_ok; [|by apply constants_ok_valid|exact Hv].
    eapply Forall_impl; [exact Hrow|]. by intros w [? _]%value_valid_iff.
  - eapply evaluate_formatted; [|exact Hc|exact Hv].
    eapply Forall_impl; [exact Hrow|]. by intros w [_ ?]%value_valid_iff.
Qed.
End valid.
