(* ===== verification/SqlTyping.v ===== *)
(** Types of SQL expressions: an expression that has a type evaluates, on rows
    of the columns' types, to NULL or to a value of that type, or fails in its
    arithmetic, and not because a value has the wrong type, LIKE on two NULLs
    apart. *)
From Stdlib Require Import Strings.Byte Strings.String NArith ZArith Lia Floats.SpecFloat.
From stdpp Require Import base list strings.
From S2P Require Import Prelude KeyCode Engine SqlTypes SqlExpression SqlKeys SqlRewrite SqlClaims.
From S2P Require Import SqlValid.

Open Scope Z_scope.

(** The type of an expression: [None] when it is always NULL. *)
Abbreviation Ty := (option DataType).

Definition same_type (a b : DataType) : bool :=
  match a, b with
  | TBoolean, TBoolean | TInteger, TInteger | TFloat, TFloat | TString, TString => true
  | _, _ => false
  end.

(** NULL is of every type. *)
Definition fits (d : DataType) (t : Ty) : bool :=
  match t with None => true | Some d' => same_type d' d end.
Definition numeric (t : Ty) : bool := fits TInteger t || fits TFloat t.

(** Numbers compare with numbers, other values with values of their type. *)
Definition comparable_types (a b : Ty) : bool :=
  match a, b with
  | None, _ | _, None => true
  | Some a, Some b => same_type a b || (numeric (Some a) && numeric (Some b))
  end.

(** The type of a sum: an integer meets a float as a float. *)
Definition join (a b : Ty) : Ty :=
  match a, b with
  | None, _ | _, None => None
  | Some TInteger, Some TInteger => Some TInteger
  | _, _ => Some TFloat
  end.

Definition always_integer (t : Ty) : bool := match t with Some TInteger => true | _ => false end.

Definition guard_type (b : bool) (t : Ty) : option Ty := if b then Some t else None.

(** The type of an expression on rows of columns [cols], if it has one. *)
Fixpoint infer (cols : list DataType) (e : Expression) : option Ty :=
  let binary (rule : Ty → Ty → option Ty) l r :=
    a ← infer cols l; b ← infer cols r; rule a b in
  let logic := binary (λ a b, guard_type (fits TBoolean a && fits TBoolean b) (Some TBoolean)) in
  let comparison := binary (λ a b, guard_type (comparable_types a b) (Some TBoolean)) in
  let arith := binary (λ a b, guard_type (numeric a && numeric b) (join a b)) in
  match e with
  | Constant v => Some (datatype v)
  | Field i _ => Some <$> cols !! N.to_nat i
  | And l r | Or l r => logic l r
  | Not x => a ← infer cols x; guard_type (fits TBoolean a) (Some TBoolean)
  | Equal l r | GreaterThan l r | LessThan l r => comparison l r
  | IsNull x => _ ← infer cols x; Some (Some TBoolean)
  | Add l r | Subtract l r | Multiply l r | Divide l r | Modulo l r => arith l r
  | Exponentiate l r =>
      binary (λ a b, guard_type (numeric a && numeric b && negb (always_integer (join a b)))
                (join a b)) l r
  | Assert x | Negate x => a ← infer cols x; guard_type (numeric a) a
  | Factorial x => a ← infer cols x; guard_type (fits TInteger a) a
  | Like l r => binary (λ a b, guard_type (fits TString a && fits TString b) (Some TBoolean)) l r
  end.

Definition has_type (v : Value) (t : Ty) : Prop := v = Null ∨ datatype v = t.

(** The errors of arithmetic. *)
Definition arithmetic_errors : list string :=
  ["Integer overflow"; "Can't divide by zero"; "Can't take factorial of negative number"].
Definition arithmetic_panics : list string :=
  ["attempt to divide with overflow"; "attempt to calculate the remainder with overflow";
   "attempt to negate with overflow"; "attempt to multiply with overflow"].

(** The one mismatch of a typed expression: LIKE on two NULLs. *)
Definition null_like : Error := EValue (Msg "Can't LIKE {} and {}" [show Null; show Null]).

Section typing.
Context `{LibmLaws, Regex}.

Definition typed_outcome (t : Ty) (r : res Value) : Prop :=
  match r with
  | Ok v => has_type v t
  | Err e => (∃ m, e = EValue (Msg m []) ∧ m ∈ arithmetic_errors) ∨ e = null_like ∨
      ∃ p s, regex_is_match p s = Err e
  | Panic w => w ∈ arithmetic_panics ∨ ∃ p s, regex_is_match p s = Panic w
  end.

Lemma typed_binary (op : Value → Value → res Value) a b t r1 r2 :
  (∀ x y, has_type x a → has_type y b → typed_outcome t (op x y)) →
  typed_outcome a r1 → typed_outcome b r2 → typed_outcome t (x ← r1; y ← r2; op x y).
Proof. intros Hop Ha Hb. destruct r1; cbn in *; [|done..]. destruct r2; cbn in *; [|done..]. auto. Qed.

Lemma typed_unary (op : Value → res Value) a t r :
  (∀ x, has_type x a → typed_outcome t (op x)) → typed_outcome a r → typed_outcome t (x ← r; op x).
Proof. intros Hop Ha. destruct r; cbn in *; [|done..]. auto. Qed.

Lemma arithmetic_error t m : m ∈ arithmetic_errors → typed_outcome t (value_error m []).
Proof. intros Hm. left. by exists m. Qed.
Lemma arithmetic_panic t w : w ∈ arithmetic_panics → typed_outcome t (Panic w).
Proof. by left. Qed.

(** Membership in a list of messages. *)
Ltac listed := apply (bool_decide_unpack _); vm_compute; exact I.

(** The values of typed operands. *)
Ltac values Hx Hy x y :=
  destruct Hx as [->|<-], Hy as [->|<-];
  [|destruct y as [|[]| | |]|destruct x as [|[]| | |]|destruct x as [|[]| | |], y as [|[]| | |]];
  cbn in *; try discriminate.
(** The premise of a typing rule. *)
Ltac rule := unfold guard_type; match goal with |- context [if ?b then _ else _] => destruct b eqn:?; [|done] end;
  repeat match goal with H : _ && _ = true |- _ => apply andb_true_iff in H as [? ?] end.

Lemma logic_typed op a b t x y : op = eval_and ∨ op = eval_or → has_type x a → has_type y b →
  guard_type (fits TBoolean a && fits TBoolean b) (Some TBoolean) = Some t → typed_outcome t (op x y).
Proof.
  intros Hop Hx Hy. rule. intros [= <-]. values Hx Hy x y; destruct Hop as [-> | ->]; first [by left | by right].
Qed.

Lemma comparison_typed op a b t x y : op = eval_equal ∨ op = eval_greater ∨ op = eval_less →
  has_type x a → has_type y b → guard_type (comparable_types a b) (Some TBoolean) = Some t →
  typed_outcome t (op x y).
Proof.
  intros Hop Hx Hy. rule. intros [= <-].
  values Hx Hy x y; destruct Hop as [-> |[-> | ->]]; first [by left | by right].
Qed.

Lemma overflow_typed o : typed_outcome (Some TInteger) (overflow o).
Proof. destruct o; [by right|]. apply arithmetic_error. listed. Qed.

Lemma arith_typed what on_int on_float a b t x y :
  (∀ i j, typed_outcome (Some TInteger) (on_int i j)) → has_type x a → has_type y b →
  guard_type (numeric a && numeric b) (join a b) = Some t →
  typed_outcome t (eval_arith what on_int on_float x y).
Proof.
  intros Hint Hx Hy. rule. intros [= <-].
  values Hx Hy x y; try (first [by left | by right]); apply Hint.
Qed.

Lemma divide_typed (f : Z → Z → Z) w i j : w ∈ arithmetic_panics →
  typed_outcome (Some TInteger) (if j =? 0 then value_error "Can't divide by zero" []
    else if in_i64 (Z.quot i j) then Ok (Integer (f i j)) else Panic w).
Proof.
  intros Hw. destruct (j =? 0); [apply arithmetic_error; listed|].
  destruct (in_i64 _); [by right|by apply arithmetic_panic].
Qed.

Lemma exponentiate_typed a b t x y : has_type x a → has_type y b →
  guard_type (numeric a && numeric b && negb (always_integer (join a b))) (join a b) = Some t →
  typed_outcome t (eval_exponentiate x y).
Proof. intros Hx Hy. rule. intros [= <-]. values Hx Hy x y; first [by left | by right]. Qed.

Lemma like_typed a b t x y : has_type x a → has_type y b →
  guard_type (fits TString a && fits TString b) (Some TBoolean) = Some t → typed_outcome t (eval_like x y).
Proof.
  intros Hx Hy. rule. intros [= <-]. values Hx Hy x y; try (first [by left | by right | by right; left]).
  destruct (regex_is_match _ _) as [c|e|w] eqn:E; cbn; [by right|right; right; eauto|right; eauto].
Qed.

Lemma factorial_typed i : typed_outcome (Some TInteger) (n ← factorial i; Ok (Integer n)).
Proof.
  unfold factorial. generalize 1 as acc. induction (Z.of_nat <$> _) as [|k ks IH]; intros acc; cbn [product].
  - by right.
  - destruct (in_i64 _); [apply IH|]. apply arithmetic_panic. listed.
Qed.

(** A row with a value of its type in each column. *)
Definition typed_row (cols : list DataType) (row : Row) : Prop :=
  Forall2 (λ v d, has_type v (Some d)) row cols.

Lemma infer_binary (rule : Ty → Ty → option Ty) cols l r t :
  (a ← infer cols l; b ← infer cols r; rule a b) = Some t →
  ∃ a b, infer cols l = Some a ∧ infer cols r = Some b ∧ rule a b = Some t.
Proof. intros (a & Ha & (b & Hb & Hr)%bind_Some)%bind_Some. by exists a, b. Qed.

Lemma infer_sound cols row e t : typed_row cols row → infer cols e = Some t →
  typed_outcome t (evaluate e (Some row)).
Proof.
  intros Hrow. revert t. induction e as [c|i lb|l IHl r IHr|e IH|l IHl r IHr|l IHl r IHr|l IHl r IHr
    |e IH|l IHl r IHr|l IHl r IHr|e IH|l IHl r IHr|l IHl r IHr|e IH|l IHl r IHr|l IHl r IHr|e IH
    |l IHl r IHr|l IHl r IHr]; intros t; cbn [infer evaluate];
    try (intros (a & b & Ha & Hb & Hr)%infer_binary; apply (typed_binary _ a b); [|by apply IHl|by apply IHr];
      intros x y Hx Hy; revert Hr;
      first [apply logic_typed; by auto | apply comparison_typed; by auto | by apply exponentiate_typed
            | by apply like_typed
            | apply arith_typed; [intros|done..]; first [apply overflow_typed|apply divide_typed; listed]]);
    try (intros (a & Ha & Hr)%bind_Some; apply (typed_unary _ a); [|by apply IH]; intros x Hx; revert Hr).
  - intros [= <-]. by right.
  - intros (d & Hd & ->)%fmap_Some. unfold field_value. cbn.
    destruct (Forall2_lookup_r _ _ _ _ _ Hrow Hd) as (v & -> & Hv). done.
  - rule. intros [= <-]. destruct Hx as [->|<-]; [by left|]. destruct x; try done; by (left + right).
  - intros [= <-]. destruct x; by right.
  - rule. intros [= <-]. destruct Hx as [->|<-]; [by left|]. destruct x; try done; by (left + right).
  - rule. intros [= <-]. destruct Hx as [->|<-]; [by left|]. destruct x; try done; [by left|].
    cbn. destruct (_ <? 0); [apply arithmetic_error; listed|apply factorial_typed].
  - rule. intros [= <-]. destruct Hx as [->|<-]; [by left|]. destruct x; try done; [by left| |by right].
    cbn. destruct (in_i64 _); [by right|apply arithmetic_panic; listed].
Qed.

(** C29. An expression that has a type evaluates, on a row of the columns'
    types, to NULL or a value of that type, in range and well formed, or fails
    with an arithmetic error, an arithmetic panic or an error of the regex
    crate; the only mismatch of types at run time is LIKE on two NULLs. *)
Theorem evaluate_typed cols row e t : typed_row cols row → Forall value_valid row →
  constants_valid e → infer cols e = Some t →
  typed_outcome t (evaluate e (Some row)) ∧ ∀ v, evaluate e (Some row) = Ok v → value_valid v.
Proof.
  intros Hrow Hv Hc Ht. split; [by eapply infer_sound|]. intros v.
  by apply (evaluate_valid e (Some row)).
Qed.
End typing.

(** * An example *)

(** [#1 > 2 * #0 OR #2 LIKE 'a%'] on an integer, a float and a string. *)
Definition sample_condition : Expression :=
  Or (GreaterThan (Field 1 None) (Multiply (Constant (Integer 2)) (Field 0 None)))
     (Like (Field 2 None) (Constant (String [x61; x25]))).

Lemma evaluate_typed_witness :
  let _ := sample_libm in let _ := sample_regex in
  infer [TInteger; TFloat; TString] sample_condition = Some (Some TBoolean) ∧
  typed_outcome (Some TBoolean) (evaluate sample_condition (Some [Integer 3; Null; String [x61]])).
Proof.
  intros libm regex. split; [reflexivity|].
  refine (proj1 (@evaluate_typed libm _ regex [TInteger; TFloat; TString]
    [Integer 3; Null; String [x61]] sample_condition (Some TBoolean) _ _ _ _)).
  - by split.
  - repeat constructor; by (left + right).
  - by repeat constructor.
  - by repeat constructor.
  - reflexivity.
Defined.
