(* ===== verification/SqlStatements.v ===== *)
(** Executing a plan keeps the integrity of the database: INSERT, UPDATE,
    DELETE, CREATE TABLE and DROP TABLE plans that succeed lead from a database
    with integrity to one with integrity, and queries change nothing. *)
From Stdlib Require Import Strings.Byte NArith ZArith Lia Sorting.Sorted Floats.SpecFloat.
From stdpp Require Import base list gmap strings.
From S2P Require Import Prelude BTreeMap KeyCode Engine Bincode Mvcc SqlTypes SqlExpression.
From S2P Require Import SqlSchema SqlKeys SqlKv SqlStore SqlIntegrity SqlWrites SqlCatalog SqlPlan.
From S2P Require Import SqlExec SqlAggregate SqlExecutor SqlValid.

(** * Program logic *)

Section logic.
Context {T : Type} `{KvLaws T}.
Context `{BincodeLaws (list Value), BincodeLaws Table}.
Implicit Types (x : T) (s : Store).

(** A computation that changes nothing, whatever it returns; what it returns
    without an error satisfies [P]. *)
Definition finds {A} (m : M T A) s (P : A → Prop) : Prop :=
  ∀ x, sees x s → ∃ r, m x = (r, x) ∧ ∀ a, r = Ok a → P a.

Lemma finds_bind {A B} (m : M T A) (f : A → M T B) s P Q :
  finds m s P → (∀ a, P a → finds (f a) s Q) → finds (m ≫= f) s Q.
Proof.
  intros Hm Hf x Hx. destruct (Hm x Hx) as (r & Hr & HP). unfold mbind, M_bind. rewrite Hr.
  destruct r as [a|e|w]; [apply (Hf a); auto|by eexists|by eexists].
Qed.

Lemma finds_seq {A B} (m : M T A) (f : A → M T B) s Q :
  finds m s (λ _, True) → (∀ a, finds (f a) s Q) → finds (m ≫= f) s Q.
Proof. intros Hm Hf. eapply finds_bind; [exact Hm|]. auto. Qed.

Lemma finds_lift {A} (r : res A) s (P : A → Prop) : (∀ a, r = Ok a → P a) → finds (lift r) s P.
Proof. intros HP x Hx. by exists r. Qed.

Lemma finds_ret {A} (a : A) s (P : A → Prop) : P a → finds (mret a) s P.
Proof. intros HP x Hx. exists (Ok a). split; [done|]. by intros b [= <-]. Qed.

Lemma finds_mono {A} (m : M T A) s (P Q : A → Prop) :
  finds m s P → (∀ a, P a → Q a) → finds m s Q.
Proof. intros Hm HPQ x Hx. destruct (Hm x Hx) as (r & ? & ?). eauto. Qed.

Lemma finds_get k s : finds (kv_get k) s (λ _, True).
Proof. intros x (m & Hx & _). eexists. by rewrite (kv_get_law x m). Qed.

Lemma finds_scan p s : finds (kv_scan_prefix p) s (λ _, True).
Proof.
  intros x (m & Hx & _). destruct (kv_scan_law x m p Hx) as (kvs & Hs & _). eexists. by rewrite Hs.
Qed.

(** What a known read returns. *)
Lemma finds_read {A} (m : M T A) s (r : res A) (P : A → Prop) :
  (∀ x, sees x s → m x = (r, x)) → (∀ a, r = Ok a → P a) → finds m s P.
Proof. intros Hm HP x Hx. exists r. by rewrite Hm. Qed.

(** A computation that succeeds with [Q]; nothing is said of a failure, but that
    the transaction can go on. *)
Definition keeps {A} (m : M T A) s (Q : A → Store → Prop) : Prop :=
  ∀ x, sees x s →
    match m x with
    | (Ok a, x') => ∃ s', sees x' s' ∧ Q a s'
    | (Err _, x') | (Panic _, x') => ∃ s', sees x' s'
    end.

Lemma keeps_then {A B} (m : M T A) (f : A → M T B) s P Q :
  keeps m s P → (∀ a s', P a s' → keeps (f a) s' Q) → keeps (m ≫= f) s Q.
Proof.
  intros Hm Hf x Hx. specialize (Hm x Hx). unfold mbind, M_bind.
  destruct (m x) as [[a|e|w] x']; [|done..]. destruct Hm as (s' & Hs' & HP). by apply (Hf a s').
Qed.

Lemma keeps_runs {A} (m : M T A) s Q R : runs m s Q R → keeps m s Q.
Proof.
  intros Hm x Hx. specialize (Hm x Hx). destruct (m x) as [[a|e|w] x']; [done| |done].
  destruct Hm as (s' & ? & _). eauto.
Qed.

Lemma keeps_mono {A} (m : M T A) s (Q Q' : A → Store → Prop) :
  keeps m s Q → (∀ a s', Q a s' → Q' a s') → keeps m s Q'.
Proof.
  intros Hm HQ x Hx. specialize (Hm x Hx). destruct (m x) as [[a|e|w] x']; [|done..].
  destruct Hm as (s' & ? & ?). eauto.
Qed.

Lemma keeps_finds {A} (m : M T A) s (P : A → Prop) (Q : A → Store → Prop) :
  finds m s P → (∀ a, P a → Q a s) → keeps m s Q.
Proof.
  intros Hm HQ x Hx. destruct (Hm x Hx) as (r & -> & HP). destruct r as [a|e|w]; [|by eexists..].
  exists s. auto.
Qed.

Lemma keeps_result {A} (r : res A) s (Q : A → Store → Prop) :
  (∀ a, r = Ok a → Q a s) → keeps (lift r) s Q.
Proof. intros HQ. apply (keeps_finds _ _ (λ a, r = Ok a)); [by apply finds_lift|done]. Qed.

Lemma keeps_value {A} (a : A) s (Q : A → Store → Prop) : Q a s → keeps (mret a) s Q.
Proof. intros HQ. apply (keeps_finds _ _ (eq a)); [by apply finds_ret|by intros ? <-]. Qed.

(** ** The reads of a transaction *)

Context `{Libm, Regex}.

Local Ltac reads :=
  repeat first
    [ apply finds_ret; done | apply finds_lift; done | apply finds_get | apply finds_scan
    | apply finds_seq; [|intros ?] ].

Lemma read_table_finds n s : finds (read_table n) s (λ _, True).
Proof. unfold read_table. reads. Qed.
Lemma scan_tables_finds s : finds scan_tables s (λ _, True).
Proof. unfold scan_tables. reads. Qed.
Lemma read_finds n id s : finds (read n id) s (λ _, True).
Proof. unfold read. reads. Qed.
Lemma must_read_finds n s : finds (must_read n) s (λ _, True).
Proof. unfold must_read. apply finds_seq; [apply read_table_finds|]. intros. reads. Qed.
Lemma scan_finds n f s : finds (scan n f) s (λ _, True).
Proof. unfold scan. apply finds_seq; [apply must_read_finds|]. intros. reads. Qed.
Lemma index_load_finds n c v s : finds (index_load n c v) s (λ _, True).
Proof. unfold index_load. reads. Qed.
Lemma must_read_table_finds n s : finds (must_read_table n) s (λ _, True).
Proof. unfold must_read_table. apply finds_seq; [apply read_table_finds|]. intros. reads. Qed.
End logic.

(** * Plans *)

(** A plan without a mutation. *)
Fixpoint reads_only (n : Node) : bool :=
  match n with
  | Aggregation s _ | Filter s _ | Limit s _ | Offset s _ | Order s _ | Projection s _ => reads_only s
  | HashJoin l _ r _ _ | NestedLoopJoin l _ r _ _ => reads_only l && reads_only r
  | IndexLookup _ _ _ _ | KeyLookup _ _ _ | Nothing | Scan _ _ _ => true
  | CreateTable _ | Delete _ _ | DropTable _ _ | Insert _ _ _ | Update _ _ _ => false
  end.

(** A plan for rows of the table [n]: a scan or a lookup, and filters. *)
Fixpoint source_of (n : bytes) (p : Node) : Prop :=
  match p with
  | Scan t _ f => t = n ∧ match f with Some e => constants_valid e | None => True end
  | KeyLookup t _ keys => t = n ∧ Forall value_valid keys
  | IndexLookup t _ c vs => t = n ∧ utf8_valid c = true ∧ Forall value_valid vs
  | Filter s e => source_of n s ∧ constants_valid e
  | _ => False
  end.

(** The plans of statements. *)
Definition safe_plan (p : Node) : Prop :=
  match p with
  | CreateTable t => declared t
  | DropTable n _ => utf8_valid n = true
  | Insert n _ rows => utf8_valid n = true ∧ Forall (Forall constants_valid) rows
  | Delete n p => utf8_valid n = true ∧ source_of n p
  | Update n p es =>
      utf8_valid n = true ∧ source_of n p ∧ Forall (λ '(_, _, e), constants_valid e) es
  | p => reads_only p = true
  end.

Lemma filter_row_keeps `{Libm, Regex} f i row : filter_row f i = Some (Ok row) → i = Ok row.
Proof.
  unfold filter_row. destruct i as [r|e|w]; [|by intros [= ]..].
  destruct f as [f|]; [|by intros [= ->]].
  destruct (evaluate f (Some r)) as [[|[]| | |]| |]; try done. by intros [= ->].
Qed.

Section sources.
Context {T : Type} `{KvLaws T}.
Context `{Libm, Regex}.
Context `{BincodeLaws (list Value), BincodeLaws Table}.
Implicit Types (x : T) (s : Store).

Lemma read_keys_reads n ks s : finds (read_keys n ks) s (λ _, True).
Proof.
  induction ks as [|k ks IH]; cbn [read_keys]; [by apply finds_ret|].
  apply finds_seq; [apply read_finds|intros o]. apply finds_seq; [done|]. intros. by apply finds_ret.
Qed.

Lemma read_index_reads n c v s : finds (read_index n c v) s (λ _, True).
Proof.
  unfold read_index. apply finds_seq; [apply must_read_table_finds|intros t].
  apply finds_seq; [by apply finds_lift|intros col].
  destruct (c_index col); [apply index_load_finds|by apply finds_lift].
Qed.

Lemma read_indexes_reads n c vs pks s : finds (read_indexes n c vs pks) s (λ _, True).
Proof.
  revert pks. induction vs as [|v vs IH]; intros pks; cbn [read_indexes]; [by apply finds_ret|].
  apply finds_seq; [apply read_index_reads|intros ids].
  apply finds_seq; [by apply finds_lift|]. intros. apply IH.
Qed.

(** Queries change nothing. *)
Lemma execute_reads p s : reads_only p = true → finds (execute p) s (λ _, True).
Proof.
  assert (∀ (m : M T ResultSet) (f : ResultSet → res ResultSet), finds m s (λ _, True) →
    finds (rs ← m; lift (f rs)) s (λ _ : ResultSet, True)) as Hlift.
  { intros m f Hm. apply finds_seq; [done|]. intros. by apply finds_lift. }
  assert (∀ (m m' : M T ResultSet) f, finds m s (λ _, True) → finds m' s (λ _, True) →
    finds (lrs ← m; match lrs with
                    | RQuery _ _ => rrs ← m'; lift (f lrs rrs)
                    | _ => lift (Err (EInternal (Msg "Unexpected result set" [])))
                    end) s (λ _ : ResultSet, True)) as Hjoin.
  { intros m m' f Hm Hm'. apply finds_seq; [done|]. intros lrs.
    destruct lrs; try (by apply finds_lift). by apply Hlift. }
  induction p; cbn [reads_only execute]; intros Hp; try done; auto.
  - apply andb_true_iff in Hp as [? ?]. apply Hjoin; auto.
  - unfold exec_index_lookup. apply finds_seq; [apply must_read_table_finds|intros t].
    apply finds_seq; [apply read_indexes_reads|intros pks].
    apply finds_seq; [apply read_keys_reads|]. intros. by apply finds_ret.
  - unfold exec_key_lookup. apply finds_seq; [apply must_read_table_finds|intros t].
    apply finds_seq; [apply read_keys_reads|]. intros. by apply finds_ret.
  - apply andb_true_iff in Hp as [? ?]. apply Hjoin; auto.
  - by apply finds_ret.
  - unfold exec_scan. apply finds_seq; [apply must_read_table_finds|intros t].
    apply finds_seq; [apply scan_finds|]. intros. by apply finds_ret.
Qed.

(** ** The rows of a source *)

Definition stored s n (row : Row) : Prop := ∃ id, rows s n id = Some row.

(** The rows that a result set holds, apart from errors. *)
Definition rows_stored s n (rs : ResultSet) : Prop :=
  match rs with
  | RQuery _ l => ∀ row, Ok row ∈ items l → stored s n row
  | _ => True
  end.

Lemma must_read_table_named n s t : relational s → utf8_valid n = true → tables s n = Some t →
  finds (must_read_table n) s (λ t', t' = t).
Proof.
  intros Hs Hn Ht. eapply finds_read.
  - intros x Hx. unfold must_read_table. erewrite M_bind_Ok by (by apply read_table_sees). by rewrite Ht.
  - cbn. by intros ? [= <-].
Qed.

Lemma read_keys_stored n ks s : utf8_valid n = true → Forall value_valid ks →
  finds (read_keys n ks) s (λ l, ∀ row, row ∈ l → stored s n row).
Proof.
  intros Hn. induction ks as [|k ks IH]; intros Hks; cbn [read_keys].
  { apply finds_ret. by intros row ?%not_elem_of_nil. }
  apply Forall_cons in Hks as [Hk Hks]. eapply finds_bind; [|intros o Ho].
  { eapply (finds_read _ _ _ (λ o, o = rows s n k)); [intros x Hx; by apply read_sees|]. by intros ? [= <-]. }
  eapply finds_bind; [by apply IH|]. intros l Hl. apply finds_ret.
  destruct o as [row'|]; [|done]. intros row [->|?]%elem_of_cons; [by exists k|auto].
Qed.

Lemma set_extend_elem vs l l' v : set_extend vs l = Ok l' → v ∈ l' → v ∈ vs ∨ v ∈ l.
Proof.
  revert l. induction vs as [|w vs IH]; intros l; cbn [set_extend]; [intros [= <-]; by right|].
  intros (l1 & Hins & Hext)%res_bind_Ok_inv Hv. destruct (IH l1 Hext Hv) as [?|Hl1].
  - left. by apply list_elem_of_further.
  - unfold set_insert, hashed in Hins. destruct w; try done;
      destruct (List.existsb _ l); simplify_eq/=; try (by right);
      apply elem_of_app in Hl1 as [?| ->%list_elem_of_singleton]; (by right) || (left; apply list_elem_of_here).
Qed.

Lemma read_indexes_valid n c vs pks s : integrity s → utf8_valid n = true → utf8_valid c = true →
  Forall value_valid vs → Forall value_valid pks →
  finds (read_indexes n c vs pks) s (Forall value_valid).
Proof.
  intros [Hs [_ Hix]] Hn Hc. revert pks.
  induction vs as [|v vs IH]; intros pks Hvs Hpks; cbn [read_indexes]; [by apply finds_ret|].
  apply Forall_cons in Hvs as [Hv Hvs].
  eapply (finds_bind _ _ _ (Forall value_valid)); [|intros ids Hids].
  { unfold tx_read_index, kv_transaction, read_index.
    apply finds_seq; [apply must_read_table_finds|intros t].
    apply finds_seq; [by apply finds_lift|intros col]. destruct (c_index col); [|by apply finds_lift].
    eapply finds_read; [intros x Hx; by apply index_load_sees|]. intros ids [= <-].
    apply Forall_forall. intros id (t' & i & col' & row & _ & _ & _ & Hrow & _)%Hix.
    by destruct (stored_row s n id row Hs Hrow) as (? & _ & _ & _ & _ & _ & _ & ?). }
  eapply (finds_bind _ _ _ (Forall value_valid)); [|intros pks' ?; by apply IH].
  apply finds_lift. intros pks' Hext. apply Forall_forall. intros w Hw.
  rewrite Forall_forall in Hids, Hpks. destruct (set_extend_elem _ _ _ _ Hext Hw); auto.
Qed.

Lemma keep_row_stored s n e r : (∀ row, Ok row ∈ items r → stored s n row) →
  ∀ row, Ok row ∈ items (filter_map_rows (keep_row e) r) → stored s n row.
Proof.
  intros Hr row. cbn [items filter_map_rows]. intros (i & Hi & Hf)%list_elem_of_omap.
  destruct i as [row'| |]; [|done..]. apply Hr.
  unfold keep_row in Hf. destruct (evaluate e (Some row')) as [[|[]| | |]| |]; cbn in Hf; try done.
  by injection Hf as ->.
Qed.

Lemma source_reads n p : source_of n p → reads_only p = true.
Proof. induction p; cbn; try done. intros [? _]. auto. Qed.

Lemma source_rows n p s t : integrity s → utf8_valid n = true → tables s n = Some t →
  source_of n p → finds (execute p) s (rows_stored s n).
Proof.
  intros Hint Hn Ht. pose proof Hint as [Hs Hix]. destruct (rel_table s Hs n t Ht) as [Htn Hok].
  induction p; cbn [source_of execute]; try done.
  - intros [Hp _]. eapply finds_bind; [by apply IHp|]. intros rs Hrs. apply finds_lift.
    unfold exec_filter, query. destruct rs; try done. intros ? [= <-]. exact (keep_row_stored s n _ _ Hrs).
  - intros (-> & Hc & Hvs). unfold exec_index_lookup.
    eapply finds_bind; [by eapply must_read_table_named|intros ? ->].
    eapply finds_bind; [by apply read_indexes_valid; [..|constructor]|intros pks Hpks]. rewrite Htn.
    eapply finds_bind; [by apply read_keys_stored|]. intros l Hl. apply finds_ret. cbn.
    intros row (? & [= <-] & ?)%list_elem_of_fmap. auto.
  - intros [-> Hks]. unfold exec_key_lookup.
    eapply finds_bind; [by eapply must_read_table_named|intros ? ->]. rewrite Htn.
    eapply finds_bind; [by apply read_keys_stored|]. intros l Hl. apply finds_ret. cbn.
    intros row (? & [= <-] & ?)%list_elem_of_fmap. auto.
  - intros [-> _]. unfold exec_scan.
    eapply finds_bind; [by eapply must_read_table_named|intros ? ->]. rewrite Htn.
    eapply (finds_bind _ _ _ (λ l, ∀ row, Ok row ∈ l → stored s n row)).
    2:{ intros l Hl. apply finds_ret. exact Hl. }
    intros x Hx. destruct (scan_rows_sees x s n Hx Hn) as (l & [_ Hl] & Hscan).
    { intros id row Hrow. by destruct (stored_row s n id row Hs Hrow) as (? & _ & _ & _ & _ & _ & _ & ?). }
    cbn [tx_scan tx_reader kv_transaction kv_reader]. rewrite Hscan by (right; eauto). rewrite Ht.
    eexists. split; [done|]. intros out Hout row Hrow.
    assert (Ok row ∈ omap (filter_row filter) (Ok <$> l.*2)) as Hin.
    { revert Hout Hrow. generalize (omap (filter_row filter) (Ok <$> l.*2)). clear.
      intros l. revert out. induction l as [|[r|e|w] l IH]; intros out; cbn; [by intros [= <-]|..|done];
        intros (out' & Hout & [= <-])%res_bind_Ok_inv [[= ->]|?]%elem_of_cons;
        (apply list_elem_of_here || (apply list_elem_of_further; eauto)). }
    apply list_elem_of_omap in Hin as (i & (r & -> & Hr)%list_elem_of_fmap & Hf).
    apply filter_row_keeps in Hf as [= ->].
    apply list_elem_of_fmap in Hr as ([id row'] & -> & Hin). exists id. by apply Hl.
Qed.
End sources.

(** * Values of a row *)

Lemma collect_fmap_Ok {A B} (f : A → res B) (l : list A) l' :
  collect (f <$> l) = Ok l' → Forall2 (λ a b, f a = Ok b) l l'.
Proof.
  revert l'. induction l as [|a l IH]; intros l'; cbn; [intros [= <-]; constructor|].
  destruct (f a) as [b| |] eqn:E; cbn; try done. intros (l1 & Hl1 & [= <-])%res_bind_Ok_inv.
  constructor; auto.
Qed.

Section values.
Context `{LibmLaws, Regex}.

Lemma evaluate_all_valid es row l : Forall value_valid (default [] row) → Forall constants_valid es →
  collect ((λ e, evaluate e row) <$> es) = Ok l → Forall value_valid l.
Proof.
  intros Hrow Hes Hl. apply collect_fmap_Ok in Hl. revert Hes.
  induction Hl as [|e v es l Hv _ IH]; [constructor|]. intros [He Hes]%Forall_cons.
  constructor; [by eapply evaluate_valid|auto].
Qed.

Lemma make_inputs_valid t cvs m m' : Forall (λ p, value_valid p.2) cvs → map_Forall (λ _, value_valid) m →
  make_inputs t cvs m = Ok m' → map_Forall (λ _, value_valid) m'.
Proof.
  revert m. induction cvs as [|[c v] cvs IH]; intros m Hcvs Hm; cbn [make_inputs]; [by intros [= <-]|].
  apply Forall_cons in Hcvs as [Hv Hcvs]. intros (col & _ & Hrest)%res_bind_Ok_inv.
  destruct (m !! c); [done|]. eapply IH; [done| |exact Hrest]. by apply map_Forall_insert_2.
Qed.

(** Given values and defaults make a row of values. *)
Lemma make_row_valid t columns values row : table_ok t → Forall value_valid values →
  make_row t columns values = Ok row → Forall value_valid row.
Proof.
  intros Ht Hv. unfold make_row. case_decide as Hlen; [|done].
  intros (inputs & Hin & Hrow)%res_bind_Ok_inv.
  assert (map_Forall (λ _, value_valid) inputs) as Hinputs.
  { eapply make_inputs_valid; [|apply map_Forall_empty|exact Hin].
    apply Forall_forall. intros [c v] Hcv%elem_of_zip_r. by eapply Forall_forall. }
  apply collect_fmap_Ok in Hrow. pose proof (ok_defaults t Ht) as Hd.
  induction Hrow as [|c v cs row Hc _ IH]; [constructor|]. apply Forall_cons in Hd as [Hc' Hd].
  constructor; [|auto]. destruct (inputs !! c_name c) as [w|] eqn:Ew.
  - injection Hc as ->. by apply (Hinputs (c_name c)).
  - unfold ok_or in Hc. destruct (c_default c) as [w|]; [|done]. injection Hc as ->. by apply Hc'.
Qed.

Lemma pad_row_valid t values row : table_ok t → Forall value_valid values →
  pad_row t values = Ok row → Forall value_valid row.
Proof.
  intros Ht Hv. unfold pad_row. intros (ds & Hds & [= <-])%res_bind_Ok_inv.
  apply Forall_app. split; [done|]. apply collect_fmap_Ok in Hds.
  pose proof (Forall_drop _ (length values) _ (ok_defaults t Ht)) as Hd.
  induction Hds as [|c v cs ds Hc _ IH]; [constructor|]. apply Forall_cons in Hd as [Hc' Hd].
  constructor; [|auto]. unfold ok_or in Hc. destruct (c_default c) as [w|]; [|done].
  injection Hc as ->. by apply Hc'.
Qed.

Lemma set_fields_valid es row new new' : Forall value_valid row → Forall value_valid new →
  Forall (λ p, constants_valid p.2) es → set_fields es row new = Ok new' →
  Forall value_valid new' ∧ length new' = length new.
Proof.
  intros Hrow. revert new. induction es as [|[i e] es IH]; intros new Hnew Hes; cbn [set_fields].
  { by intros [= <-]. }
  apply Forall_cons in Hes as [He Hes]. intros (v & Hv & Hrest)%res_bind_Ok_inv.
  destruct (N.to_nat i <? length new)%nat; [|done].
  destruct (IH (<[N.to_nat i := v]> new)) as [? Hlen]; [|done..|].
  - apply Forall_insert; [done|]. by apply (evaluate_valid e (Some row)).
  - split; [done|]. by rewrite Hlen, length_insert.
Qed.
End values.

(** * Mutations *)

Section mutations.
Context {T : Type} `{KvLaws T}.
Context `{LibmLaws, Regex}.
Context `{BincodeLaws (list Value), BincodeLaws Table}.
Implicit Types (x : T) (s : Store).

Definition sound {A} (_ : A) s : Prop := integrity s.

Lemma insert_rows_keeps t columns es count s : integrity s → table_ok t →
  Forall (Forall constants_valid) es → keeps (insert_rows t columns es count) s sound.
Proof.
  intros Hs Ht. revert count s Hs.
  induction es as [|e es IH]; intros count s Hs Hes; cbn [insert_rows]; [by apply keeps_value|].
  apply Forall_cons in Hes as [He Hes].
  eapply keeps_then; [by apply (keeps_result _ _ (λ l s', Forall value_valid l ∧ s' = s));
    intros l Hl; split; [eapply (evaluate_all_valid _ None); [constructor|done..]|]|].
  intros values ? [Hv ->].
  eapply keeps_then; [apply (keeps_result _ _ (λ l s', Forall value_valid l ∧ s' = s))|].
  { intros row. case_decide; intros Hrow; (split; [|done]);
      [by eapply pad_row_valid|by eapply make_row_valid]. }
  intros row ? [Hrow ->]. eapply keeps_then.
  { eapply keeps_runs, create_runs; [done|by apply ok_name|done]. }
  intros [] s' (t' & id & _ & _ & _ & _ & Hs').
  eapply keeps_then; [by apply (keeps_result _ _ (λ _ s'', s'' = s'))|]. intros n ? ->. by apply IH.
Qed.

(** The rows left to update or delete have keys. *)
Definition keyed t (items : list (res Row)) : Prop :=
  ∀ row, Ok row ∈ items → ∃ id, get_row_key t row = Ok id ∧ plain id ∧ id ≠ Null ∧ value_valid id.

Lemma keyed_cons t i items : keyed t (i :: items) → keyed t items.
Proof. intros Hk row Hin. by apply Hk, list_elem_of_further. Qed.

Lemma stored_keyed s n t items : relational s → tables s n = Some t →
  (∀ row, Ok row ∈ items → stored s n row) → keyed t items.
Proof.
  intros Hs Ht Hst row [id Hid]%Hst.
  destruct (stored_row s n id row Hs Hid) as (t' & Ht' & _ & _ & (_ & Hk & _) & ?).
  simplify_eq. eauto.
Qed.

Lemma delete_rows_keeps n t items count s : integrity s → utf8_valid n = true → t_name t = n →
  keyed t items → keeps (delete_all_rows t items count) s sound.
Proof.
  intros Hs Hn Htn. revert count s Hs.
  induction items as [|i items IH]; intros count s Hs Hk; cbn [delete_all_rows]; [by apply keeps_value|].
  eapply keeps_then; [by apply (keeps_result _ _ (λ row s', i = Ok row ∧ s' = s))|].
  intros row ? [-> ->]. destruct (Hk row) as (id & Hid & Hp & Hnull & Hv); [apply list_elem_of_here|].
  eapply keeps_then; [by apply (keeps_result _ _ (λ k s', k = id ∧ s' = s)); rewrite Hid; intros ? [= <-]|].
  intros ? ? [-> ->]. rewrite Htn. eapply keeps_then.
  { by eapply keeps_runs, delete_runs. }
  intros [] s' (_ & _ & _ & Hs').
  eapply keeps_then; [by apply (keeps_result _ _ (λ _ s'', s'' = s'))|]. intros c ? ->.
  apply IH; [done|]. by eapply keyed_cons.
Qed.

Lemma seen_false id l : plain id → id ≠ Null →
  hashed id (List.existsb (same_key id) l) = Ok false → id ∉ l.
Proof.
  intros Hp Hn Hb Hin. assert (List.existsb (same_key id) l = false) as Hf
    by (unfold hashed in Hb; destruct id; congruence).
  apply Bool.not_true_iff_false in Hf. apply Hf, existsb_exists. exists id.
  split; [by apply list_elem_of_In|]. by apply same_key_plain.
Qed.

(** The rows left to update: those of keys that are not done are still stored. *)
Definition pending s n t (done_ : list Value) (items : list (res Row)) : Prop :=
  ∀ row id, Ok row ∈ items → get_row_key t row = Ok id → id ∉ done_ → rows s n id = Some row.

Lemma pending_update s s' n t done_ items id id' new : updated s s' n id id' new →
  id' = id ∨ rows s n id' = None → pending s n t done_ items →
  pending s' n t (done_ ++ [id]) items.
Proof.
  intros [_ Hr] Hfresh Hp row k Hin Hk [Hnd Hne]%not_elem_of_app.
  rewrite list_elem_of_singleton in Hne. pose proof (Hp row k Hin Hk Hnd) as Hrow.
  rewrite Hr, decide_False, decide_False; [done|naive_solver|].
  intros [_ ->]. destruct Hfresh as [->|Hnone]; [done|]. congruence.
Qed.

Lemma update_rows_keeps n t es items done_ s : integrity s → utf8_valid n = true →
  tables s n = Some t → Forall (λ p, constants_valid p.2) es → keyed t items →
  pending s n t done_ items → keeps (update_rows t es items done_) s sound.
Proof.
  intros Hs Hn Ht Hes. revert done_ s Hs Ht.
  induction items as [|i items IH]; intros done_ s Hs Ht Hk Hp; cbn [update_rows]; [by apply keeps_value|].
  eapply keeps_then; [by apply (keeps_result _ _ (λ row s', i = Ok row ∧ s' = s))|].
  intros row ? [-> ->]. destruct (Hk row) as (id & Hid & Hpl & Hnull & Hv); [apply list_elem_of_here|].
  eapply keeps_then; [by apply (keeps_result _ _ (λ k s', k = id ∧ s' = s)); rewrite Hid; intros ? [= <-]|].
  intros ? ? [-> ->].
  assert (pending s n t done_ items) as Hp' by (intros r k ?; by apply Hp, list_elem_of_further).
  eapply keeps_then; [apply (keeps_result _ _ (λ (b : bool) s', (b = false → id ∉ done_) ∧ s' = s))|].
  { intros b Hb. split; [|done]. intros ->. destruct done_ as [|w ws]; [apply not_elem_of_nil|].
    by apply seen_false in Hb. }
  intros seen ? [Hseen ->]. destruct seen; [apply IH; [done..|by eapply keyed_cons|done]|].
  specialize (Hp row id (list_elem_of_here _ _) Hid (Hseen eq_refl)).
  destruct Hs as [Hrel Hidx] eqn:Heq. clear Heq.
  destruct (stored_row s n id row Hrel Hp) as (t' & Ht' & Htn & Hok & (Hty & _) & _).
  assert (t' = t) as -> by congruence. clear Ht'.
  eapply keeps_then; [apply (keeps_result _ _ (λ new s', (Forall value_valid new ∧ length new = length row) ∧ s' = s))|].
  { intros new Hnew. split; [|done]. eapply set_fields_valid; [apply Hty..|done|done]. }
  intros new ? [[Hnew Hlen] ->]. rewrite Htn. eapply keeps_then.
  { eapply keeps_runs, (update_runs s n t id row new); [done..| |done].
    rewrite Hlen. symmetry. apply (Forall2_length _ _ _ (proj2 Hty)). }
  intros [] s' (id' & _ & Hfresh & Hupd & Hs').
  eapply keeps_then; [apply (keeps_result _ _ (λ d s'', (∀ k, k ∈ done_ ++ [id] → k ∈ d) ∧ s'' = s'))|].
  { intros d Hd. split; [|done]. destruct (set_insert_plain id done_ Hpl Hnull) as (d' & Hd' & _ & Hin).
    assert (d' = d) as -> by congruence. intros k [?|?%list_elem_of_singleton]%elem_of_app; apply Hin; auto. }
  intros d ? [Hd ->]. apply IH; [done| |by eapply keyed_cons|].
  - destruct Hupd as [HT _]. by rewrite HT.
  - intros r k Hin Hkey Hnd. eapply (pending_update s s' n t done_ items id id' new); [done..|].
    intros Hin'. apply Hnd. auto.
Qed.

(** ** Plans *)

Lemma must_read_keeps n s : utf8_valid n = true →
  keeps (must_read_table n) s (λ t s', tables s n = Some t ∧ s' = s).
Proof.
  intros Hn. apply (keeps_finds _ _ (λ t, tables s n = Some t)); [|auto].
  eapply finds_read.
  - intros x Hx. unfold must_read_table. erewrite M_bind_Ok by (by apply read_table_sees). reflexivity.
  - unfold ok_or. destruct (tables s n); [|done]. by intros ? [= <-].
Qed.

Lemma delete_keeps n p s : integrity s → utf8_valid n = true → source_of n p →
  keeps (execute (Delete n p)) s sound.
Proof.
  intros Hs Hn Hp. cbn [execute]. eapply keeps_then; [by apply must_read_keeps|]. intros t ? [Ht ->].
  destruct (rel_table s (proj1 Hs) n t Ht) as [Htn _].
  eapply keeps_then.
  { apply (keeps_finds _ _ (rows_stored s n) (λ rs s', rows_stored s n rs ∧ s' = s)); [|auto].
    by eapply source_rows. }
  intros rs ? [Hrs ->]. unfold exec_delete. destruct rs as [| | | | | | | |cs rows|];
    try (by apply keeps_result).
  eapply keeps_then; [eapply delete_rows_keeps; [done..|]|].
  { eapply (stored_keyed s); [apply Hs|done|exact Hrs]. }
  intros c s' Hs'. eapply keeps_then; [by apply (keeps_result _ _ (λ _ s'', s'' = s'))|].
  intros _ ? ->. by apply keeps_value.
Qed.

Lemma update_keeps n p es s : integrity s → utf8_valid n = true → source_of n p →
  Forall (λ '(_, _, e), constants_valid e) es → keeps (execute (Update n p es)) s sound.
Proof.
  intros Hs Hn Hp Hes. cbn [execute].
  assert (∀ rs t, tables s n = Some t → rows_stored s n rs →
    keeps (exec_update n ((λ '(i, _, e), (i, e)) <$> es) rs) s sound) as Hexec.
  { intros rs t Ht Hrs. unfold exec_update. destruct rs as [| | | | | | | |cs rows|];
      try (by apply keeps_result).
    eapply keeps_then; [by apply must_read_keeps|]. intros ? ? [Ht' ->]. simplify_eq.
    eapply keeps_then; [eapply (update_rows_keeps n t); [done..| | |]|].
    - apply Forall_fmap. eapply Forall_impl; [exact Hes|]. by intros [[]].
    - eapply (stored_keyed s); [apply Hs|done|exact Hrs].
    - intros row id Hin Hid _. destruct (Hrs row Hin) as [id' Hrow].
      destruct (stored_row s n id' row (proj1 Hs) Hrow) as (t' & Ht' & _ & _ & (_ & Hk & _) & _).
      simplify_eq. assert (id' = id) as -> by congruence. done.
    - intros d s' Hs'. eapply keeps_then; [by apply (keeps_result _ _ (λ _ s'', s'' = s'))|].
      intros _ ? ->. by apply keeps_value. }
  destruct (tables s n) as [t|] eqn:Ht.
  - eapply keeps_then.
    { apply (keeps_finds _ _ (rows_stored s n) (λ rs s', rows_stored s n rs ∧ s' = s)); [|auto].
      by eapply source_rows. }
    intros rs ? [Hrs ->]. by eapply Hexec.
  - eapply keeps_then.
    { apply (keeps_finds _ _ (λ _, True) (λ rs s', s' = s)); [|auto].
      by apply execute_reads, (source_reads n). }
    intros rs ? ->. unfold exec_update. destruct rs as [| | | | | | | |cs rows|];
      try (by apply keeps_result).
    eapply keeps_then; [by apply must_read_keeps|]. intros ? ? [Ht' _]. congruence.
Qed.

(** A plan that succeeds leaves the database with integrity. *)
Lemma execute_keeps p s : integrity s → safe_plan p → keeps (execute p) s sound.
Proof.
  intros Hs Hp.
  assert (reads_only p = true → keeps (execute p) s sound) as Hread.
  { intros Hr. by eapply keeps_finds; [by apply execute_reads|]. }
  destruct p as [| t | n p | n ie | | | | n cols es | | | | | | | | | n p es]; try (by apply Hread).
  - cbn [safe_plan execute] in *. unfold exec_create_table.
    eapply keeps_then; [by eapply keeps_runs, create_table_runs|].
    intros [] s' (_ & _ & _ & Hs'). by apply keeps_value.
  - destruct Hp. by apply delete_keeps.
  - cbn [safe_plan execute] in *. unfold exec_drop_table.
    eapply (keeps_then _ _ _ (λ (_ : bool) s', s' = s)).
    { destruct ie; [|by apply keeps_value]. apply (keeps_finds _ _ (λ _, True)); [|done].
      apply finds_seq; [apply read_table_finds|]. intros. by apply finds_ret. }
    intros missing ? ->. destruct missing; [by apply keeps_value|].
    eapply keeps_then; [by eapply keeps_runs, delete_table_runs'|].
    intros [] s' (Hs' & _). by apply keeps_value.
  - destruct Hp as [Hn Hes]. cbn [execute]. unfold exec_insert.
    eapply keeps_then; [by apply must_read_keeps|]. intros t ? [Ht ->].
    eapply keeps_then; [apply insert_rows_keeps; [done|by eapply rel_table; [apply Hs|]|done]|].
    intros c s' Hs'. by apply keeps_value.
  - destruct Hp as (Hn & Hp & Hes). by apply update_keeps.
Qed.
End mutations.
