(* ===== verification/SqlPlanSafe.v ===== *)
(** Planning a statement and optimizing the plan yields a plan that is safe to
    execute: the plan of a query stays one, and the source of an UPDATE or
    DELETE yields rows of its table only.  Transforming a plan or an expression
    with the fuel of its depth is the transformation without fuel. *)
From Stdlib Require Import Strings.Byte NArith ZArith Lia Floats.SpecFloat.
From stdpp Require Import base list strings gmap.
From S2P Require Import Prelude BTreeMap KeyCode Engine Bincode Mvcc SqlTypes SqlExpression.
From S2P Require Import SqlSchema SqlKeys SqlKv SqlStore SqlIntegrity SqlWrites SqlCatalog SqlPlan.
From S2P Require Import SqlExec SqlAggregate SqlExecutor SqlAst SqlPlanner SqlValid SqlStatements.

Open Scope nat_scope.

(** A closure whose results are no deeper. *)
Definition shallow {S A} (measure : A → nat) (f : A → M S A) : Prop :=
  ∀ n x n' x', f n x = (Ok n', x') → measure n' ≤ measure n.

Lemma shallow_ret {S A} (measure : A → nat) : shallow measure (λ n : A, mret n : M S A).
Proof. by intros n x n' x' [= <- <-]. Qed.

Lemma bind_ext {S A B} (m m' : M S A) (f g : A → M S B) x : m x = m' x →
  (∀ a y, f a y = g a y) → (m ≫= f) x = (m' ≫= g) x.
Proof. intros Hm Hf. unfold mbind, M_bind. rewrite Hm. destruct (m' x) as [[a| |] y]; auto. Qed.

(** * Plans *)

Section nodes.
Context {S : Type}.

Lemma map_sources_ext (f g : Node → M S Node) n x :
  (∀ s y, depth s < depth n → f s y = g s y) → map_sources f n x = map_sources g n x.
Proof.
  intros Hfg. destruct n; cbn [map_sources depth] in *; try done;
    (apply bind_ext; [apply Hfg; lia|]); intros a y; try done;
    (apply bind_ext; [apply Hfg; lia|done]).
Qed.

Lemma transform_any_fuel (before after : Node → M S Node) f1 f2 n x : shallow depth before →
  depth n ≤ f1 → depth n ≤ f2 →
  transform_node f1 before after n x = transform_node f2 before after n x.
Proof.
  intros Hb. revert f2 n x. induction f1 as [|f1 IH]; intros f2 n x H1 H2; [destruct n; cbn in H1; lia|].
  destruct f2 as [|f2]; [destruct n; cbn in H2; lia|]. cbn [transform_node].
  unfold mbind, M_bind at 1 3. destruct (before n x) as [[n'| |] y] eqn:E; [|done..].
  apply Hb in E. apply bind_ext; [|done]. apply map_sources_ext. intros s z Hs. apply IH; lia.
Qed.
End nodes.

Lemma expressions_depth f n n' : transform_expressions f n = Ok n' → depth n' = depth n.
Proof.
  destruct n; cbn [transform_expressions]; try (by intros [= <-]);
    try (by intros (? & _ & [= <-])%res_bind_Ok_inv).
  - destruct predicate; [by intros (? & _ & [= <-])%res_bind_Ok_inv|by intros [= <-]].
  - destruct filter; [by intros (? & _ & [= <-])%res_bind_Ok_inv|by intros [= <-]].
Qed.
Lemma expressions_shallow {S} f : shallow depth (λ n, lift (transform_expressions f n) : M S Node).
Proof. intros n x n' x' [= E <-]. by rewrite (expressions_depth f n n'). Qed.

Lemma pushdown_depth e n : depth (pushdown e n).2 = depth n.
Proof. by destruct n. Qed.

Lemma pushdown_join_depth p l r b p' l' r' : pushdown_join p l r b = Ok (p', l', r') →
  depth l' = depth l ∧ depth r' = depth r.
Proof.
  unfold pushdown_join. intros (cnf & _ & ([pl pr] & _ & E)%res_bind_Ok_inv)%res_bind_Ok_inv.
  set (X := match from_cnf_vec pl with Some _ => _ | None => _ end) in E.
  assert (depth X.2 = depth l) as HX.
  { unfold X. destruct (from_cnf_vec pl) as [e|]; [|done]. rewrite <-(pushdown_depth e l).
    by destruct (pushdown e l) as [[]]. }
  destruct X as [cnf' l1]. cbn [snd] in HX. destruct (from_cnf_vec pr) as [e|]; [|by simplify_eq].
  apply res_bind_Ok_inv in E as (e' & _ & E). rewrite <-(pushdown_depth e' r).
  destruct (pushdown e' r) as [[]]; by simplify_eq.
Qed.

Lemma push_filter_shallow {S} : shallow depth (λ n, lift (push_filter n) : M S Node).
Proof.
  intros n x n' x' [= E <-]. destruct n; cbn [push_filter] in E; try (by simplify_eq).
  - match type of E with context [pushdown ?e ?s] =>
      pose proof (pushdown_depth e s) as Hd; destruct (pushdown e s) as [o s'] end.
    cbn [snd] in Hd. simplify_eq. cbn [depth]. lia.
  - match goal with o : option Expression |- _ => destruct o as [p|]; [|by simplify_eq] end.
    apply res_bind_Ok_inv in E as ([[p' l'] r'] & Ep & [= <-]). apply pushdown_join_depth in Ep as [Hl Hr].
    cbn [depth]. lia.
Qed.

Lemma hash_join_shallow {S} : shallow depth (λ n, lift (hash_join n) : M S Node).
Proof.
  intros n x n' x' [= E <-]. unfold hash_join in E. repeat case_match; simplify_eq; try done;
    apply res_bind_Ok_inv in E as (? & _ & [= <-]); done.
Qed.

(** Every optimizer is the transformation by its closures with any fuel that
    is at least the depth of the plan. *)
Theorem optimizers_any_fuel {T} `{Reader T, Libm, Regex} fuel n (x : T) : depth n ≤ fuel →
  constant_folder n x
    = transform_node fuel mret (λ n, lift (transform_expressions fold_constants n)) n x ∧
  filter_pushdown n x = transform_node fuel (λ n, lift (push_filter n)) mret n x ∧
  index_lookup n x = transform_node fuel mret use_index n x ∧
  noop_cleaner n x = transform_node fuel (λ n, lift (transform_expressions clean_noops n))
    (λ n, mret (drop_filter n)) n x ∧
  join_type n x = transform_node fuel (λ n, lift (hash_join n)) mret n x.
Proof.
  intros Hf. split_and!; apply transform_any_fuel; try done;
    auto using shallow_ret, push_filter_shallow, hash_join_shallow, expressions_shallow.
Qed.

(** * Syntax trees *)

Section trees.
Context {T : Type}.

Lemma map_operands_ext (f g : AstExpression → M T AstExpression) e x :
  (∀ a y, ast_depth a < ast_depth e → f a y = g a y) → map_operands f e x = map_operands g e x.
Proof.
  intros Hfg. destruct e as [| | |name args|op]; try done.
  - cbn [map_operands ast_depth] in *. apply bind_ext; [|done].
    assert (∀ a y, a ∈ args → f a y = g a y) as Hin.
    { intros a y Ha. apply Hfg. clear -Ha. induction Ha; cbn; lia. }
    clear Hfg. revert x. induction args as [|a args IH]; intros x; [done|].
    apply bind_ext; [apply Hin; left|]. intros a' y. apply bind_ext; [|done].
    apply IH. intros b z Hb. apply Hin. by right.
  - destruct op; cbn [map_operands ast_depth] in *; (apply bind_ext; [apply Hfg; lia|]); intros a y;
      try done; (apply bind_ext; [apply Hfg; lia|done]).
Qed.

Lemma ast_transform_any_fuel (before after : AstExpression → M T AstExpression) f1 f2 e x :
  shallow ast_depth before → ast_depth e ≤ f1 → ast_depth e ≤ f2 →
  ast_transform before after f1 e x = ast_transform before after f2 e x.
Proof.
  assert (∀ e, 0 < ast_depth e) as Hpos by (intros []; cbn; repeat case_match; lia).
  intros Hb. revert f2 e x. induction f1 as [|f1 IH]; intros f2 e x H1 H2; [specialize (Hpos e); lia|].
  destruct f2 as [|f2]; [specialize (Hpos e); lia|]. cbn [ast_transform].
  unfold mbind, M_bind at 1 3. destruct (before e x) as [[e'| |] y] eqn:E; [|done..].
  apply Hb in E. apply bind_ext; [|done]. apply map_operands_ext. intros a z Ha. apply IH; lia.
Qed.
End trees.

Lemma extract_aggregate_shallow : shallow ast_depth extract_aggregate.
Proof.
  intros e x e' x'. unfold extract_aggregate. repeat case_match; intros [= <- <-]; cbn; lia.
Qed.
Lemma label_column_shallow label i : shallow ast_depth (label_column label i).
Proof. intros e x e' x' [= <- <-]. repeat case_match; cbn; lia. Qed.
Lemma hide_shallow : shallow ast_depth hide.
Proof.
  intros e x e' x'. unfold hide, push_hidden. repeat case_match; intros; simplify_eq; cbn; lia.
Qed.

(** The same for the transformations of the planner. *)
Theorem planner_any_fuel fuel e : ast_depth e ≤ fuel →
  (∀ aggregates, transform_before extract_aggregate e aggregates
     = ast_transform extract_aggregate mret fuel e aggregates) ∧
  (∀ label i, transform_before (label_column label i) e tt
     = ast_transform (label_column label i) mret fuel e tt) ∧
  (∀ select, transform_before hide e select = ast_transform hide mret fuel e select).
Proof.
  intros Hf. split_and!; intros; apply ast_transform_any_fuel; try done;
    auto using extract_aggregate_shallow, label_column_shallow, hide_shallow.
Qed.

(** * Rewritten expressions *)

Lemma map_children_valid f e e' :
  (∀ c c', constants_valid c → f c = Ok c' → constants_valid c') → constants_valid e →
  map_children f e = Ok e' → constants_valid e'.
Proof.
  intros Hf. destruct e; cbn [map_children constants_valid]; intros Hc;
    try (by intros [= <-]);
    try (destruct Hc as [Hl Hr]; intros (l & El & (r & Er & [= <-])%res_bind_Ok_inv)%res_bind_Ok_inv;
         cbn; eauto; fail);
    intros (x & Ex & [= <-])%res_bind_Ok_inv; cbn; eauto.
Qed.

Lemma transform_valid fuel before after e e' :
  (∀ c c', constants_valid c → before c = Ok c' → constants_valid c') →
  (∀ c c', constants_valid c → after c = Ok c' → constants_valid c') →
  constants_valid e → transform fuel before after e = Ok e' → constants_valid e'.
Proof.
  intros Hb Ha. revert e e'. induction fuel as [|fuel IH]; intros e e' He; cbn [transform]; [done|].
  intros (e1 & E1 & (e2 & E2 & E3)%res_bind_Ok_inv)%res_bind_Ok_inv.
  eapply Ha; [|exact E3]. eapply map_children_valid; [exact IH|by eapply Hb|exact E2].
Qed.

Lemma normalize_constants f e e' : (∀ c, constants_valid c → constants_valid (f c)) →
  constants_valid e → normalize f e = Ok e' → constants_valid e'.
Proof. intros Hf. apply transform_valid; intros c c' Hc [= <-]; auto. Qed.

Lemma push_not_valid e : constants_valid e → constants_valid (push_not e).
Proof. destruct e; try done. destruct e; cbn; tauto. Qed.
Lemma distribute_or_valid e : constants_valid e → constants_valid (distribute_or e).
Proof. destruct e; try done. destruct e1, e2; cbn; tauto. Qed.

Lemma flatten_valid fuel split stack out out' :
  (∀ e l r, split e = Some (l, r) → constants_valid e → constants_valid l ∧ constants_valid r) →
  Forall constants_valid stack → Forall constants_valid out →
  flatten fuel split stack out = Ok out' → Forall constants_valid out'.
Proof.
  intros Hs. revert stack out. induction fuel as [|fuel IH]; intros stack out Hst Hout.
  { destruct stack; cbn; [by intros [= <-]|done]. }
  destruct stack as [|e stack]; cbn [flatten]; [by intros [= <-]|].
  apply Forall_cons in Hst as [He Hst]. destruct (split e) as [[l r]|] eqn:E.
  - apply IH; [|done]. destruct (Hs e l r E He). by repeat constructor.
  - apply IH; [done|]. apply Forall_app. split; [done|by constructor].
Qed.

Lemma into_cnf_vec_valid e cnf : constants_valid e → into_cnf_vec e = Ok cnf → Forall constants_valid cnf.
Proof.
  intros He. unfold into_cnf_vec, into_cnf, into_nnf.
  intros (e2 & (e1 & E1 & E2)%res_bind_Ok_inv & Hf)%res_bind_Ok_inv.
  apply normalize_constants in E1; [|apply push_not_valid|done].
  apply normalize_constants in E2; [|apply distribute_or_valid|done].
  eapply flatten_valid; [| |constructor|exact Hf]; [|by constructor].
  intros [] l r; try done. by intros [= <- <-].
Qed.

Lemma from_cnf_vec_valid cnf e : Forall constants_valid cnf → from_cnf_vec cnf = Some e → constants_valid e.
Proof.
  destruct cnf as [|e0 cnf]; [done|]. cbn [from_cnf_vec]. intros [H0 Hc]%Forall_cons [= <-].
  revert e0 H0. induction Hc; intros e0 H0; cbn; [done|]. by apply IHHc.
Qed.

Lemma as_lookup_valid e i vs : constants_valid e → as_lookup e i = Some vs → Forall value_valid vs.
Proof.
  revert vs. induction e; intros vs Hc; cbn [as_lookup]; try done.
  - cbn in Hc. destruct (as_lookup e1 i) as [l|]; [|done]. destruct (as_lookup e2 i) as [r|]; [|done].
    intros [= <-]. apply Forall_app. split; [apply IHe1|apply IHe2]; tauto.
  - cbn in Hc. destruct e1, e2; try done; case_decide; try done; intros [= <-]; constructor;
      try constructor; tauto.
  - destruct e; try done. case_decide; [|done]. intros [= <-]. by repeat constructor.
Qed.

Lemma noop_clean_valid e : constants_valid e → constants_valid (noop_clean e).
Proof.
  destruct e; try done; destruct e1 as [[|[]| | |]| | | | | | | | | | | | | | | | | |];
    try (cbn; tauto); destruct e2 as [[|[]| | |]| | | | | | | | | | | | | | | | | |]; cbn; tauto.
Qed.

Lemma clean_noops_valid e e' : constants_valid e → clean_noops e = Ok e' → constants_valid e'.
Proof.
  apply transform_valid; [by intros c c' Hc [= <-]|]. intros c c' Hc [= <-]. by apply noop_clean_valid.
Qed.

Lemma fold_constants_valid `{LibmLaws, Regex} e e' : constants_valid e → fold_constants e = Ok e' →
  constants_valid e'.
Proof.
  apply transform_valid; [|by intros c c' Hc [= <-]]. intros c c' Hc. unfold fold_constant.
  destruct (contains is_field c); [by intros [= <-]|]. intros (v & Hv & [= <-])%res_bind_Ok_inv.
  cbn. by eapply (evaluate_valid c None).
Qed.

(** * Passes over a plan *)

(** A mutation that is as safe as another: only its expressions differ. *)
Definition like_plan (p p' : Node) : Prop :=
  match p with
  | Update n s _ => ∃ es, p' = Update n s es ∧ Forall (λ '(_, _, e), constants_valid e) es
  | Insert n cs _ => ∃ rows, p' = Insert n cs rows ∧ Forall (Forall constants_valid) rows
  | p => p' = p
  end.

Section passes.
Context {T : Type} `{KvLaws T}.
Context `{LibmLaws, Regex}.
Context `{BincodeLaws (list Value), BincodeLaws Table}.
Implicit Types (x : T) (s : Store).

Record pass (f : Node → M T Node) s : Prop := {
  pass_reads p : reads_only p = true → finds (f p) s (λ p', reads_only p' = true);
  pass_source n p : utf8_valid n = true → source_of n p → finds (f p) s (source_of n);
  pass_mutation p : reads_only p = false → safe_plan p → finds (f p) s (like_plan p)
}.

(** A pass that rewrites without reading. *)
Lemma pass_lift (f : Node → res Node) s :
  (∀ p p', f p = Ok p' → reads_only p = true → reads_only p' = true) →
  (∀ n p p', f p = Ok p' → source_of n p → source_of n p') →
  (∀ p p', f p = Ok p' → reads_only p = false → safe_plan p → like_plan p p') →
  pass (λ p, lift (f p)) s.
Proof. intros Hr Hs Hm. split; intros; apply finds_lift; eauto. Qed.

(** Only mutations are safe without being queries. *)
Ltac mutation_cases p Hr Hp :=
  destruct p as [| | | | | | |n cs rows| | |? ? ? []| | | | |? ? []|n p es];
  cbn [reads_only safe_plan] in Hr, Hp; try congruence.

Lemma like_refl p : reads_only p = false → safe_plan p → like_plan p p.
Proof.
  intros Hr Hp. mutation_cases p Hr Hp; try done; cbn; [destruct Hp|destruct Hp as (_ & _ & ?)]; eauto.
Qed.

Lemma pass_ret s : pass mret s.
Proof. split; intros; apply finds_ret; auto using like_refl. Qed.

Lemma map_sources_reads f p s : (∀ c, reads_only c = true → finds (f c) s (λ c', reads_only c' = true)) →
  reads_only p = true → finds (map_sources f p) s (λ p', reads_only p' = true).
Proof.
  intros Hf. destruct p; cbn [map_sources reads_only]; try done; intros Hp;
    try (by apply finds_ret);
    try (eapply finds_bind; [by apply Hf|]; intros; by apply finds_ret);
    apply andb_true_iff in Hp as [Hl Hr]; (eapply finds_bind; [by apply Hf|]); intros l Hl';
    (eapply finds_bind; [by apply Hf|]); intros r Hr'; apply finds_ret; cbn; by rewrite Hl', Hr'.
Qed.

Lemma map_sources_source f n p s : (∀ c, source_of n c → finds (f c) s (source_of n)) →
  source_of n p → finds (map_sources f p) s (source_of n).
Proof.
  intros Hf. destruct p; cbn [map_sources source_of]; try done; intros Hp; try (by apply finds_ret).
  destruct Hp as [Hp Hc]. eapply finds_bind; [by apply Hf|]. intros. by apply finds_ret.
Qed.

Section transform.
Context (before after : Node → M T Node) (s : Store).
Context (Hb : pass before s) (Ha : pass after s).

Lemma transform_reads fuel p : reads_only p = true →
  finds (transform_node fuel before after p) s (λ p', reads_only p' = true).
Proof.
  revert p. induction fuel as [|fuel IH]; intros p Hp; cbn [transform_node]; [by apply finds_lift|].
  eapply finds_bind; [by apply (pass_reads before s Hb)|]. intros p1 Hp1.
  eapply finds_bind; [by apply map_sources_reads|]. intros p2. apply (pass_reads after s Ha).
Qed.

Lemma transform_source fuel n p : utf8_valid n = true → source_of n p →
  finds (transform_node fuel before after p) s (source_of n).
Proof.
  intros Hn. revert p. induction fuel as [|fuel IH]; intros p Hp; cbn [transform_node];
    [by apply finds_lift|].
  eapply finds_bind; [by apply (pass_source before s Hb n)|]. intros p1 Hp1.
  eapply finds_bind; [by apply map_sources_source|]. intros p2. by apply (pass_source after s Ha).
Qed.

Lemma like_safe p p' : reads_only p = false → safe_plan p → like_plan p p' →
  reads_only p' = false ∧ safe_plan p'.
Proof.
  intros Hr Hp. mutation_cases p Hr Hp; cbn [like_plan]; try (by intros ->).
  - intros (rows' & -> & Hrows). cbn. tauto.
  - intros (es' & -> & Hes). cbn. tauto.
Qed.

Lemma map_sources_mutation fuel p : reads_only p = false → safe_plan p →
  finds (map_sources (transform_node fuel before after) p) s
    (λ p', reads_only p' = false ∧ safe_plan p').
Proof.
  intros Hr Hp. mutation_cases p Hr Hp; cbn [map_sources]; try (by apply finds_ret).
  - destruct Hp as [Hn Hp]. eapply finds_bind; [by apply transform_source|].
    intros p' Hp'. by apply finds_ret.
  - destruct Hp as (Hn & Hp & Hes). eapply finds_bind; [by apply transform_source|].
    intros p' Hp'. by apply finds_ret.
Qed.

Lemma safe_reads p : reads_only p = true → safe_plan p.
Proof. destruct p; done. Qed.
Lemma safe_cases p : safe_plan p → reads_only p = true ∨ reads_only p = false ∧ safe_plan p.
Proof. destruct (reads_only p); auto. Qed.

Lemma transform_safe fuel p : safe_plan p → finds (transform_node fuel before after p) s safe_plan.
Proof.
  intros [Hr|[Hr Hp]]%safe_cases.
  { eapply finds_mono; [by apply transform_reads|]. apply safe_reads. }
  destruct fuel as [|fuel]; cbn [transform_node]; [by apply finds_lift|].
  eapply finds_bind; [by apply (pass_mutation before s Hb)|]. intros p1 [Hr1 Hp1]%like_safe; [|done..].
  eapply finds_bind; [by apply map_sources_mutation|]. intros p2 [Hr2 Hp2].
  eapply finds_mono; [by apply (pass_mutation after s Ha)|]. intros p3 [_ ?]%like_safe; done.
Qed.
End transform.

(** ** The optimizers *)

Lemma collect_valid {A B} (f : A → res B) (P : A → Prop) (Q : B → Prop) l l' :
  (∀ a b, P a → f a = Ok b → Q b) → Forall P l → collect (f <$> l) = Ok l' → Forall Q l'.
Proof.
  intros Hf Hl Hc%collect_fmap_Ok. induction Hc; [constructor|].
  apply Forall_cons in Hl as [? ?]. constructor; eauto.
Qed.

Lemma expressions_pass f s : (∀ e e', constants_valid e → f e = Ok e' → constants_valid e') →
  pass (λ p, lift (transform_expressions f p)) s.
Proof.
  intros Hf. apply pass_lift.
  - intros p p'. destruct p as [| | | | | | | | | |? ? ? []| | | | |? ? []|]; cbn [transform_expressions];
      try (by intros [= <-]); try (by intros (? & _ & [= <-])%res_bind_Ok_inv).
  - intros n p p'. destruct p as [| | | | | | | | | |? ? ? []| | | | |? ? []|]; cbn [transform_expressions];
      try (by intros [= <-]); try done; intros (fe & He & [= <-])%res_bind_Ok_inv; cbn; naive_solver.
  - intros p p' Hpp Hr Hp. mutation_cases p Hr Hp; cbn [transform_expressions] in Hpp;
      try (by injection Hpp as <-); apply res_bind_Ok_inv in Hpp as (r & Hrr & [= <-]).
    + exists r. split; [done|]. eapply (collect_valid _ (Forall constants_valid)); [|apply Hp|exact Hrr].
      intros es es' Hes. by eapply collect_valid.
    + exists r. split; [done|]. destruct Hp as (_ & _ & Hes).
      eapply (collect_valid _ (λ '(_, _, e), constants_valid e)); [|exact Hes|exact Hrr].
      intros [[i l] e] b He (e' & He' & [= <-])%res_bind_Ok_inv. by eapply Hf.
Qed.

Lemma pushdown_reads e p : reads_only (pushdown e p).2 = reads_only p.
Proof. by destruct p. Qed.

Lemma pushdown_join_reads e l r k o l' r' : pushdown_join e l r k = Ok (o, l', r') →
  reads_only l' = reads_only l ∧ reads_only r' = reads_only r.
Proof.
  unfold pushdown_join. intros (cnf & _ & ([pl pr] & _ & Hrest)%res_bind_Ok_inv)%res_bind_Ok_inv.
  assert (∀ cnf0 (q : option Expression) src,
    reads_only (match q with
                | Some e => match pushdown e src with
                            | (Some rem, src) => (cnf0 ++ [rem], src)
                            | (None, src) => (cnf0, src)
                            end
                | None => (cnf0, src)
                end).2 = reads_only src) as Hpush.
  { intros cnf0 [q|] src; [|done]. pose proof (pushdown_reads q src).
    by destruct (pushdown q src) as [[]]. }
  match type of Hrest with context [let '(_, _) := ?X in _] => remember X as X0 eqn:HX end.
  pose proof (Hpush (List.filter (refers_left k) (List.filter (refers_right k) cnf)) (from_cnf_vec pl) l) as Hl.
  rewrite <-HX in Hl. destruct X0 as [cnf1 l1]. cbn [snd] in Hl.
  destruct (from_cnf_vec pr) as [q|]; [|by simplify_eq].
  apply res_bind_Ok_inv in Hrest as (q' & _ & Hrest). pose proof (pushdown_reads q' r).
  destruct (pushdown q' r) as [[rem|] r1]; by simplify_eq.
Qed.

Lemma push_filter_pass s : pass (λ p, lift (push_filter p)) s.
Proof.
  apply pass_lift.
  - intros p p'. destruct p as [| | | |p e| | | | | |l k r [e|] o| | | | | |]; cbn [push_filter];
      try (by intros [= <-]).
    + pose proof (pushdown_reads e p). destruct (pushdown e p) as [rem q]. intros [= <-]. cbn in *. congruence.
    + intros ([[o' l'] r'] & [Hl Hr]%pushdown_join_reads & [= <-])%res_bind_Ok_inv. cbn.
      by rewrite Hl, Hr.
  - intros n p p'. destruct p as [| | | |p e| | | | | |l k r [e|] o| | | | | |]; cbn [push_filter];
      try (by intros [= <-]); try done. destruct p as [| | | | | | | | | | | | | | |? ? []|]; cbn;
      intros [= <-]; cbn; intros Hp; destruct_and?; done.
  - intros p p' Hpp Hr Hp. assert (p' = p) as -> by (mutation_cases p Hr Hp; by injection Hpp).
    by apply like_refl.
Qed.

Lemma find_lookup_source table alias columns pk before cnf p :
  Forall (λ c, utf8_valid (c_name c) = true) columns →
  Forall constants_valid before → Forall constants_valid cnf →
  find_lookup table alias columns pk before cnf = Some p → source_of table p.
Proof.
  intros Hcols. revert before. induction cnf as [|e cnf IH]; intros before Hbef Hcnf; cbn [find_lookup]; [done|].
  apply Forall_cons in Hcnf as [He Hcnf].
  assert (∀ q, source_of table q → source_of table (wrap_cnf q (reverse before ++ cnf))) as Hwrap.
  { intros q Hq. unfold wrap_cnf. destruct (from_cnf_vec _) as [f|] eqn:Ef; [|done]. split; [done|].
    eapply from_cnf_vec_valid; [|exact Ef]. apply Forall_app. split; [by apply Forall_reverse|done]. }
  destruct (as_lookup e (N.of_nat pk)) as [ks|] eqn:Ek.
  { intros [= <-]. apply Hwrap. split; [done|]. by eapply as_lookup_valid. }
  destruct (find_map _ (imap pair columns)) as [[c vs]|] eqn:Ef.
  - intros [= <-]. apply Hwrap. split; [done|].
    assert (∀ l : list (nat * SqlSchema.Column), Forall (λ q, utf8_valid (c_name q.2) = true) l →
      find_map (λ '(ci, c), if c_index c
         then (λ values, (c_name c, values)) <$> as_lookup e (N.of_nat ci) else None) l = Some (c, vs) →
      utf8_valid c = true ∧ Forall value_valid vs) as Hfind.
    { clear Ef. induction l as [|[i col] l IHl]; cbn; [done|]. intros [Hc Hl]%Forall_cons.
      destruct (c_index col); [|by apply IHl].
      destruct (as_lookup e (N.of_nat i)) as [v|] eqn:Ev; cbn; [|by apply IHl].
      intros [= <- <-]. split; [done|]. by eapply as_lookup_valid. }
    eapply Hfind; [|exact Ef]. apply Forall_forall. intros [i col] Hin. cbn.
    apply list_elem_of_lookup in Hin as [j Hj]. rewrite list_lookup_imap in Hj.
    apply fmap_Some in Hj as (col' & Hcol & [= -> ->]). exact (Forall_lookup_1 _ _ _ _ Hcols Hcol).
  - apply IH; [by constructor|done].
Qed.

Lemma find_lookup_reads table alias columns pk before cnf p :
  find_lookup table alias columns pk before cnf = Some p → reads_only p = true.
Proof.
  revert before. induction cnf as [|e cnf IH]; intros before; cbn [find_lookup]; [done|].
  unfold wrap_cnf. destruct (from_cnf_vec _); destruct (as_lookup e (N.of_nat pk));
    try (by intros [= <-]); destruct (find_map _ _) as [[]|]; try (by intros [= <-]); apply IH.
Qed.

Lemma use_index_pass s : relational s → pass use_index s.
Proof.
  intros Hs. split.
  - intros p Hp. destruct p as [| | | | | | | | | | | | | | |t a [f|]|]; try done; try (by apply finds_ret).
    cbn [use_index]. apply finds_seq; [apply must_read_table_finds|intros t'].
    apply finds_seq; [by apply finds_lift|intros pk]. apply finds_seq; [by apply finds_lift|intros cnf].
    apply finds_ret. destruct (find_lookup _ _ _ _ _ _) eqn:E; cbn; [|done]. by eapply find_lookup_reads.
  - intros n p Hn Hp. destruct p as [| | | | | | | | | | | | | | |t a [f|]|]; try done; try (by apply finds_ret).
    cbn [use_index]. destruct Hp as [-> Hf].
    eapply (finds_bind _ _ _ (λ t, tables s n = Some t)).
    { eapply finds_read.
      - intros x Hx. unfold must_read_table. erewrite M_bind_Ok by (by apply read_table_sees). reflexivity.
      - unfold ok_or. destruct (tables s n); [|done]. by intros ? [= <-]. }
    intros t' Ht'. destruct (rel_table s Hs n t' Ht') as [_ Hok].
    apply finds_seq; [by apply finds_lift|intros pk].
    eapply finds_bind; [apply finds_lift; intros cnf; by apply into_cnf_vec_valid|intros cnf Hcnf].
    apply finds_ret. destruct (find_lookup _ _ _ _ _ _) eqn:E; cbn; [|done].
    eapply find_lookup_source; [apply (ok_columns t' Hok)|constructor|exact Hcnf|exact E].
  - intros p Hr Hp. pose proof (like_refl p Hr Hp). mutation_cases p Hr Hp; by apply finds_ret.
Qed.

Lemma drop_filter_pass s : pass (λ p, mret (drop_filter p)) s.
Proof.
  split.
  - intros p Hp. apply finds_ret. destruct p as [| | | |p e| | | | | | | | | | | |]; try done.
    destruct e as [[|[]| | |]| | | | | | | | | | | | | | | | | |]; done.
  - intros n p _ Hp. apply finds_ret. destruct p as [| | | |p e| | | | | | | | | | | |]; try done.
    destruct e as [[|[]| | |]| | | | | | | | | | | | | | | | | |]; try done; by destruct Hp.
  - intros p Hr Hp. apply finds_ret. pose proof (like_refl p Hr Hp). by mutation_cases p Hr Hp.
Qed.

Lemma hash_join_pass s : pass (λ p, lift (hash_join p)) s.
Proof.
  assert (∀ p p', hash_join p = Ok p' → p' = p ∨
    ∃ l a r b o k pr, p = NestedLoopJoin l k r pr o ∧ p' = HashJoin l a r b o) as Hh.
  { intros p p'. destruct p as [| | | | | | | | | |l k r [e|] o| | | | | |]; cbn [hash_join];
      try (intros [= <-]; by left).
    destruct e; try (intros [= <-]; by left). destruct e1; try (intros [= <-]; by left).
    destruct e2; try (intros [= <-]; by left).
    destruct (_ <? _)%N; intros (? & _ & [= <-])%res_bind_Ok_inv; right; by repeat eexists. }
  apply pass_lift.
  - by intros p p' [->|(l & a & r & b & o & k & pr & -> & ->)]%Hh.
  - by intros n p p' [->|(l & a & r & b & o & k & pr & -> & ->)]%Hh.
  - intros p p' [->|(l & a & r & b & o & k & pr & -> & ->)]%Hh; [apply like_refl|].
    intros Hr Hp. cbn in Hr, Hp. congruence.
Qed.

(** Optimizing a safe plan reads the catalog only, and gives a safe plan. *)
Lemma optimize_safe p s : relational s → safe_plan p → finds (optimize p) s safe_plan.
Proof.
  intros Hs Hp. unfold optimize, constant_folder, filter_pushdown, index_lookup, noop_cleaner, join_type.
  eapply finds_bind; [apply transform_safe; [apply pass_ret| |done]|].
  { apply expressions_pass. intros e e'. apply fold_constants_valid. }
  intros p1 Hp1. eapply finds_bind; [by apply transform_safe; [apply push_filter_pass|apply pass_ret|]|].
  intros p2 Hp2. eapply finds_bind; [by apply transform_safe; [apply pass_ret|apply use_index_pass|]|].
  intros p3 Hp3. eapply finds_bind; [apply transform_safe; [|apply drop_filter_pass|done]|].
  { apply expressions_pass, clean_noops_valid. }
  intros p4 Hp4. by apply transform_safe; [apply hash_join_pass|apply pass_ret|].
Qed.

Lemma optimize_reads p s : relational s → reads_only p = true →
  finds (optimize p) s (λ p', reads_only p' = true).
Proof.
  intros Hs Hp. unfold optimize, constant_folder, filter_pushdown, index_lookup, noop_cleaner, join_type.
  eapply finds_bind; [apply transform_reads; [apply pass_ret| |done]|].
  { apply expressions_pass. intros e e'. apply fold_constants_valid. }
  intros p1 Hp1. eapply finds_bind; [by apply transform_reads; [apply push_filter_pass|apply pass_ret|]|].
  intros p2 Hp2. eapply finds_bind; [by apply transform_reads; [apply pass_ret|apply use_index_pass|]|].
  intros p3 Hp3. eapply finds_bind; [apply transform_reads; [|apply drop_filter_pass|done]|].
  { apply expressions_pass, clean_noops_valid. }
  intros p4 Hp4. by apply transform_reads; [apply hash_join_pass|apply pass_ret|].
Qed.
End passes.

(** * Statements *)

(** The literals of an expression are values of their formats. *)
Definition literal_valid (l : Literal) : Prop := value_valid (build_literal l).

Fixpoint ast_valid (e : AstExpression) : Prop :=
  match e with
  | ALiteral l => literal_valid l
  | AField _ _ | AColumn _ => True
  | AFunction _ args => foldr (λ a P, ast_valid a ∧ P) True args
  | AOperation op =>
      match op with
      | AAdd l r | AAnd l r | ADivide l r | AEqual l r | AExponentiate l r | AGreaterThan l r
      | AGreaterThanOrEqual l r | ALessThan l r | ALessThanOrEqual l r | ALike l r
      | AModulo l r | AMultiply l r | ANotEqual l r | AOr l r | ASubtract l r => ast_valid l ∧ ast_valid r
      | AAssert x | AFactorial x | AIsNull x | ANegate x | ANot x => ast_valid x
      end
  end.

Definition option_valid (o : option AstExpression) : Prop :=
  match o with Some e => ast_valid e | None => True end.

(** What the parser ensures of a statement, and what no one checks of the
    columns of a table: distinct names, and keys that are not floats. *)
Definition statement_valid (st : Statement) : Prop :=
  match st with
  | SCreateTable name columns =>
      utf8_valid name = true ∧ NoDup (ac_name <$> columns) ∧
      Forall (λ c, utf8_valid (ac_name c) = true ∧ option_valid (ac_default c) ∧
        (∀ r, ac_references c = Some r → utf8_valid r = true) ∧
        (ac_primary_key c = true ∨ ac_index c = true ∨ is_Some (ac_references c) →
         ac_datatype c ≠ TFloat)) columns
  | SDropTable name _ => utf8_valid name = true
  | SDelete table where_ => utf8_valid table = true ∧ option_valid where_
  | SInsert table _ values => utf8_valid table = true ∧ Forall (Forall ast_valid) values
  | SUpdate table set_ where_ =>
      utf8_valid table = true ∧ option_valid where_ ∧ Forall (λ p, ast_valid p.2) set_
  | _ => True
  end.

Lemma build_expression_valid sc e e' : ast_valid e → build_expression sc e = Ok e' → constants_valid e'.
Proof.
  revert e'. induction e as [t n|i|l|f args _|op IH] using ast_ind; intros e'; cbn [ast_valid build_expression].
  - intros _ (i & _ & [= <-])%res_bind_Ok_inv. done.
  - intros _ (lb & _ & [= <-])%res_bind_Ok_inv. done.
  - by intros Hl [= <-].
  - done.
  - destruct op; cbn [operands_all] in IH; cbn [ast_valid];
      try (intros [Hl Hr] (l & El & (r & Er & [= <-])%res_bind_Ok_inv)%res_bind_Ok_inv;
           destruct IH as [IHl IHr]; cbn; repeat split; eauto; fail);
      intros Hx (x & Ex & [= <-])%res_bind_Ok_inv; cbn; eauto.
Qed.

Lemma build_option_valid sc o f : option_valid o → build_option sc o = Ok f →
  match f with Some e => constants_valid e | None => True end.
Proof.
  destruct o as [e|]; cbn; [|by intros _ [= <-]].
  intros He (e' & He' & [= <-])%res_bind_Ok_inv. by eapply build_expression_valid.
Qed.

Section build.
Context {T : Type} `{KvLaws T}.
Context `{LibmLaws, Regex}.
Context `{BincodeLaws (list Value), BincodeLaws Table}.
Implicit Types (x : T) (s : Store).

Lemma evaluate_constant_valid e v : ast_valid e → evaluate_constant e = Ok v → value_valid v.
Proof.
  intros He (e' & He' & Hv)%res_bind_Ok_inv.
  eapply (evaluate_valid e' None); [constructor|by eapply build_expression_valid|done].
Qed.

(** The table of a CREATE TABLE statement. *)
Lemma build_columns_declared name columns cs t : statement_valid (SCreateTable name columns) →
  collect (build_column <$> columns) = Ok cs → new_table name cs = Ok t → declared t.
Proof.
  intros (Hname & Hnd & Hcols) Hcs%collect_fmap_Ok [= <-].
  assert (Forall2 (λ a c, c_name c = ac_name a ∧ c_datatype c = ac_datatype a ∧
    c_references c = ac_references a ∧ (c_primary_key c = true → ac_primary_key a = true) ∧
    (c_index c = true → ac_index a = true) ∧ ∀ v, c_default c = Some v → value_valid v) columns cs) as Hall.
  { clear Hnd. induction Hcs as [|a c columns cs Hc _ IH]; [constructor|].
    apply Forall_cons in Hcols as [(_ & Hdef & _) Hcols]. constructor; [|auto].
    unfold build_column in Hc. apply res_bind_Ok_inv in Hc as (def & Hd & [= <-]). cbn.
    do 4 (split; [done|]). split; [by intros [? _]%andb_true_iff|].
    destruct (ac_default a) as [e|].
    - apply res_bind_Ok_inv in Hd as (v & Hv & [= <-]). intros ? [= <-]. by eapply evaluate_constant_valid.
    - injection Hd as <-. destruct (default _ _); [|done]. by intros ? [= <-]. }
  assert (c_name <$> cs = ac_name <$> columns) as Hnames.
  { clear -Hall. induction Hall as [|a c ? ? (Hn & _)]; [done|]. cbn. congruence. }
  assert (Forall (λ c, utf8_valid (c_name c) = true ∧
    (∀ r, c_references c = Some r → utf8_valid r = true) ∧ (key_like c → c_datatype c ≠ TFloat) ∧
    ∀ v, c_default c = Some v → value_valid v) cs) as Hgood.
  { clear -Hall Hcols. induction Hall as [|a c ? ? (Hn & Hdt & Hr & Hpk & Hi & Hd)]; [constructor|].
    apply Forall_cons in Hcols as [(Hn' & _ & Hr' & Hf) Hcols]. constructor; [|auto].
    rewrite Hn, Hr, Hdt. split; [done|]. split; [done|]. split; [|done].
    intros Hk. apply Hf. unfold key_like in Hk. rewrite Hr in Hk. tauto. }
  split; cbn [t_name t_columns]; [done| |by rewrite Hnames|..];
    (eapply Forall_impl; [exact Hgood|]); cbn; tauto.
Qed.

Lemma build_from_item_reads item sc s :
  finds (build_from_item item sc) s (λ r, reads_only r.1 = true).
Proof.
  revert sc. induction item as [name alias|l IHl r IHr type pred]; intros sc; cbn [build_from_item].
  - apply finds_seq; [apply must_read_table_finds|intros t].
    apply finds_seq; [by apply finds_lift|]. intros. by apply finds_ret.
  - destruct type; (eapply finds_bind; [first [apply IHl|apply IHr]|]); intros [a sc1] Ha;
      (eapply finds_bind; [first [apply IHr|apply IHl]|]); intros [b sc2] Hb;
      (apply finds_seq; [by apply finds_lift|intros o]); cbn in Ha, Hb;
      try (apply finds_ret; cbn; by rewrite Ha, Hb).
    apply finds_seq; [by apply finds_lift|intros es]. apply finds_seq; [by apply finds_lift|intros sc3].
    apply finds_ret. cbn. by rewrite Ha, Hb.
Qed.

Lemma build_from_reads from sc s : finds (build_from_clause from sc) s (λ r, reads_only r.1 = true).
Proof.
  destruct from as [|item items]; cbn [build_from_clause]; [by apply finds_lift|].
  eapply finds_bind; [apply build_from_item_reads|]. intros [node sc'] Hnode. cbn in Hnode.
  revert node sc' Hnode. induction items as [|i items IH]; intros node sc' Hnode; cbn [build_from_loop].
  - by apply finds_ret.
  - eapply finds_bind; [apply build_from_item_reads|]. intros [r sc2] Hr.
    apply finds_seq; [by apply finds_lift|]. intros sc3. apply IH. cbn in *. by rewrite Hnode, Hr.
Qed.

(** Every clause of a query wraps its source. *)
Lemma build_query_reads q node sc p : reads_only node = true → build_query q node sc = Ok p →
  reads_only p = true.
Proof.
  intros Hnode. unfold build_query. intros (n1 & H1' & Hrest)%res_bind_Ok_inv.
  assert (reads_only n1 = true) as Hn1.
  { destruct (s_where q); [|by injection H1' as <-].
    by apply res_bind_Ok_inv in H1' as (? & _ & [= <-]). }
  clear H1'. apply res_bind_Ok_inv in Hrest as ([[[[n2 sc2] having] order] hidden] & H2' & Hrest).
  assert (reads_only n2 = true) as Hn2.
  { destruct (s_select q); [by injection H2' as <-|].
    destruct (inject_all _ _ _) as [r select']. apply res_bind_Ok_inv in H2' as ([h o] & _ & H2').
    apply res_bind_Ok_inv in H2' as ([n sc'] & Hsel & [= <- _ _ _ _]).
    unfold build_select_list in Hsel. apply res_bind_Ok_inv in Hsel as ([sel aggs] & _ & Hsel).
    apply res_bind_Ok_inv in Hsel as ([sel' groups] & _ & Hsel).
    apply res_bind_Ok_inv in Hsel as ([n' sc3] & Hagg & Hsel).
    apply res_bind_Ok_inv in Hsel as (es & _ & Hsel). apply res_bind_Ok_inv in Hsel as (sc4 & _ & [= <- _]).
    cbn. case_bool_decide; [by injection Hagg as <-|]. unfold build_aggregation in Hagg.
    apply res_bind_Ok_inv in Hagg as (? & _ & Hagg). apply res_bind_Ok_inv in Hagg as (? & _ & Hagg).
    by apply res_bind_Ok_inv in Hagg as (? & _ & [= <- _]). }
  clear H2'. apply res_bind_Ok_inv in Hrest as (n3 & H3' & Hrest).
  assert (reads_only n3 = true) as Hn3.
  { destruct having; [|by injection H3' as <-]. by apply res_bind_Ok_inv in H3' as (? & _ & [= <-]). }
  clear H3'. apply res_bind_Ok_inv in Hrest as (n4 & H4' & Hrest).
  assert (reads_only n4 = true) as Hn4.
  { destruct order; [by injection H4' as <-|]. by apply res_bind_Ok_inv in H4' as (? & _ & [= <-]). }
  clear H4'. apply res_bind_Ok_inv in Hrest as (n5 & H5' & Hrest).
  assert (reads_only n5 = true) as Hn5.
  { destruct (s_offset q); [|by injection H5' as <-]. by apply res_bind_Ok_inv in H5' as (? & _ & [= <-]). }
  clear H5'. apply res_bind_Ok_inv in Hrest as (n6 & H6' & Hrest).
  assert (reads_only n6 = true) as Hn6.
  { destruct (s_limit q); [|by injection H6' as <-]. by apply res_bind_Ok_inv in H6' as (? & _ & [= <-]). }
  destruct (0 <? hidden)%N; [|by injection Hrest as <-].
  by apply res_bind_Ok_inv in Hrest as (? & _ & [= <-]).
Qed.

Lemma plan_select_reads q s : finds (plan_build (SSelect q)) s (λ p, reads_only p = true).
Proof.
  cbn [plan_build build_statement]. eapply (finds_bind _ _ _ (λ r : Node * Scope, reads_only r.1 = true)).
  - destruct (s_from q), (s_select q); try (apply build_from_reads); [by apply finds_lift|].
    by apply finds_ret.
  - intros [node sc] Hnode. apply finds_lift. intros p Hp. by eapply build_query_reads.
Qed.

(** Planning a statement reads the catalog only, and gives a safe plan. *)
Lemma plan_safe st s : statement_valid st → finds (plan_build st) s safe_plan.
Proof.
  intros Hst. destruct st as [ | | |st|name cols|name ie|table w|table cols vs|table set_ w|q];
    cbn [plan_build build_statement]; try (by apply finds_lift).
  - eapply (finds_bind _ _ _ (λ cs, collect (build_column <$> cols) = Ok cs)); [by apply finds_lift|].
    intros cs Hcs. eapply (finds_bind _ _ _ (λ t, new_table name cs = Ok t)); [by apply finds_lift|].
    intros t Ht. apply finds_ret. cbn. by eapply build_columns_declared.
  - by apply finds_ret.
  - destruct Hst as [Hn Hw]. apply finds_seq; [apply must_read_table_finds|intros t].
    apply finds_seq; [by apply finds_lift|intros sc].
    eapply finds_bind; [apply finds_lift; intros f; by apply build_option_valid|intros f Hf].
    by apply finds_ret.
  - destruct Hst as [Hn Hvs].
    eapply (finds_bind _ _ _ (Forall (Forall constants_valid))); [apply finds_lift|].
    + intros es. eapply collect_valid; [|exact Hvs]. intros row row' Hrow.
      eapply collect_valid; [|exact Hrow]. intros e e'. apply build_expression_valid.
    + intros es Hes. by apply finds_ret.
  - destruct Hst as (Hn & Hw & Hset). apply finds_seq; [apply must_read_table_finds|intros t].
    apply finds_seq; [by apply finds_lift|intros sc].
    eapply finds_bind; [apply finds_lift; intros f; by apply build_option_valid|intros f Hf].
    eapply (finds_bind _ _ _ (Forall (λ '(_, _, e), constants_valid e))); [apply finds_lift|].
    + intros es. eapply collect_valid; [|exact Hset]. intros [c e] [[i l] e'] He.
      intros (i' & _ & (e2 & He2 & [= <- <- <-])%res_bind_Ok_inv)%res_bind_Ok_inv.
      by eapply build_expression_valid.
    + intros es Hes. by apply finds_ret.
  - eapply finds_mono; [apply plan_select_reads|]. apply safe_reads.
Qed.
End build.
