(* ===== verification/SqlLexSpec.v ===== *)
(** Characters and tokens: UTF-8 is decoded to scalar values and encoded back,
    and each token that the lexer returns is valid and takes at least one
    character from the input. *)
From Stdlib Require Import Strings.Byte Strings.Ascii Strings.String NArith ZArith Lia.
From stdpp Require Import base list strings.
From S2P Require Import Prelude KeyCode Engine SqlTypes SqlLexer.

Open Scope N_scope.

(** * UTF-8 *)

(** The digits of a character in base 64, with their equation. *)
Lemma digit_split c : ∃ q r, c / 64 = q ∧ c mod 64 = r ∧ c = q * 64 + r ∧ r < 64.
Proof.
  exists (c / 64), (c mod 64). repeat split; [|by apply N.mod_lt].
  rewrite N.mul_comm. by apply N.div_mod.
Qed.

Lemma div_4096 c : c / 4096 = c / 64 / 64.
Proof. by rewrite N.Div0.div_div. Qed.
Lemma div_262144 c : c / 262144 = c / 64 / 64 / 64.
Proof. by rewrite !N.Div0.div_div. Qed.

(** Decides a test on numbers, by cases where it is open. *)
Ltac test :=
  match goal with
  | |- context [b2n (n2b ?x)] => rewrite (b2n_n2b_small x) by lia
  | |- context [?a <? ?b] =>
      first [rewrite (proj2 (N.ltb_lt a b)) by lia | rewrite (proj2 (N.ltb_ge a b)) by lia
            | destruct (N.ltb_spec a b)]
  | |- context [?a <=? ?b] =>
      first [rewrite (proj2 (N.leb_le a b)) by lia | rewrite (proj2 (N.leb_gt a b)) by lia
            | destruct (N.leb_spec a b)]
  | |- context [?a =? ?b] =>
      first [rewrite (proj2 (N.eqb_eq a b)) by lia | rewrite (proj2 (N.eqb_neq a b)) by lia
            | destruct (N.eqb_spec a b)]
  end.

(** The encoding of a character by its digits. *)
Ltac digits c :=
  rewrite ?div_262144, ?div_4096;
  let q := fresh "q" in let r := fresh "r" in
  destruct (digit_split c) as (q & r & -> & -> & ? & ?);
  let q' := fresh "q" in let r' := fresh "r" in
  try (destruct (digit_split q) as (q' & r' & -> & -> & ? & ?);
       try (destruct (digit_split q') as (? & ? & -> & -> & ? & ?))).

Lemma utf8_char_valid c bs : scalar c → utf8_valid (utf8_char c ++ bs) = utf8_valid bs.
Proof.
  unfold scalar, utf8_char. intros Hc.
  destruct (N.ltb_spec c 128); [|destruct (N.ltb_spec c 2048); [|destruct (N.ltb_spec c 65536)]];
    [|digits c..]; cbn [app utf8_valid]; unfold between, continuation, between;
    repeat (test; cbn [andb]); lia || done.
Qed.

Lemma str_valid cs : Forall scalar cs → utf8_valid (str cs) = true.
Proof.
  induction 1 as [|c cs Hc _ IH]; [done|]. unfold str in *. rewrite fmap_cons, concat_cons.
  by rewrite utf8_char_valid.
Qed.

Lemma chars_char c bs : scalar c → chars (utf8_char c ++ bs) = c :: chars bs.
Proof.
  unfold scalar, utf8_char. intros Hc.
  destruct (N.ltb_spec c 128); [|destruct (N.ltb_spec c 2048); [|destruct (N.ltb_spec c 65536)]];
    [|digits c..]; cbn [app chars]; repeat test; f_equal; lia.
Qed.

(** Decoding inverts encoding. *)
Lemma chars_str cs : Forall scalar cs → chars (str cs) = cs.
Proof.
  induction 1 as [|c cs Hc _ IH]; [done|]. unfold str in *. rewrite fmap_cons, concat_cons.
  by rewrite chars_char, IH.
Qed.

Lemma chars_scalar bs : utf8_valid bs = true → Forall scalar (chars bs).
Proof.
  remember (length bs) as n eqn:Hn. revert bs Hn.
  induction n as [n IH] using lt_wf_ind. intros [|b0 r] Hn; [constructor|].
  cbn [utf8_valid chars]. unfold between, continuation, between.
  repeat (test; cbn [andb]); try done; intros Hv; cbn [length] in Hn;
  repeat match goal with
  | H : match ?r with [] => _ | _ => _ end = true |- _ => destruct r; [done|]; cbn [length] in Hn
  | H : _ && _ = true |- _ => apply andb_true_iff in H as [? ?]
  | H : (if ?a =? ?b then _ else _) = true |- _ => destruct (N.eqb_spec a b)
  | H : (_ <=? _) = true |- _ => apply N.leb_le in H
  end; (constructor; [unfold scalar; lia|]; eapply IH; [|reflexivity|done]; lia).
Qed.

Lemma digit_join a b : b < 64 → (a * 64 + b) / 64 = a ∧ (a * 64 + b) mod 64 = b.
Proof.
  intros Hb. split.
  - by rewrite N.div_add_l, (N.div_small b), N.add_0_r by lia.
  - by rewrite N.add_comm, N.Div0.mod_add, N.mod_small.
Qed.

(** The bytes of a character of two, three and four bytes. *)
Lemma utf8_two x y : 2 <= x → x < 32 → y < 64 →
  utf8_char (x * 64 + y) = [n2b (192 + x); n2b (128 + y)].
Proof.
  intros Hx Hx' Hy. unfold utf8_char. destruct (digit_join x y Hy) as [-> ->]. by repeat test.
Qed.
Lemma utf8_three x y z : x < 16 → y < 64 → z < 64 → 32 <= x * 64 + y →
  utf8_char (x * 4096 + y * 64 + z) = [n2b (224 + x); n2b (128 + y); n2b (128 + z)].
Proof.
  intros Hx Hy Hz Hlow. replace (x * 4096 + y * 64 + z) with ((x * 64 + y) * 64 + z) by lia.
  unfold utf8_char. rewrite div_4096. destruct (digit_join (x * 64 + y) z Hz) as [-> ->].
  destruct (digit_join x y Hy) as [-> ->]. by repeat test.
Qed.
Lemma utf8_four x y z w : y < 64 → z < 64 → w < 64 → 16 <= x * 64 + y →
  utf8_char (x * 262144 + y * 4096 + z * 64 + w) = [n2b (240 + x); n2b (128 + y); n2b (128 + z); n2b (128 + w)].
Proof.
  intros Hy Hz Hw Hlow.
  replace (x * 262144 + y * 4096 + z * 64 + w) with (((x * 64 + y) * 64 + z) * 64 + w) by lia.
  unfold utf8_char. rewrite div_262144, div_4096. destruct (digit_join ((x * 64 + y) * 64 + z) w Hw) as [-> ->].
  destruct (digit_join (x * 64 + y) z Hz) as [-> ->]. destruct (digit_join x y Hy) as [-> ->]. by repeat test.
Qed.

(** Encoding inverts decoding. *)
Lemma str_chars bs : utf8_valid bs = true → str (chars bs) = bs.
Proof.
  remember (length bs) as n eqn:Hn. revert bs Hn.
  induction n as [n IH] using lt_wf_ind. intros [|b0 r] Hn; [done|].
  cbn [utf8_valid chars]. unfold between, continuation, between.
  repeat (test; cbn [andb]); try done; intros Hv; cbn [length] in Hn;
  repeat match goal with
  | H : match ?r with [] => _ | _ => _ end = true |- _ => destruct r; [done|]; cbn [length] in Hn
  | H : _ && _ = true |- _ => apply andb_true_iff in H as [? ?]
  | H : (if ?a =? ?b then _ else _) = true |- _ => destruct (N.eqb_spec a b)
  | H : (_ <=? _) = true |- _ => apply N.leb_le in H
  end; unfold str; rewrite fmap_cons, concat_cons;
  first [rewrite utf8_four by lia | rewrite utf8_three by lia | rewrite utf8_two by lia
        | unfold utf8_char; test];
  repeat match goal with
  | |- context [n2b (?k + (b2n ?b - ?k))] => replace (k + (b2n b - k)) with (b2n b) by lia
  end; rewrite ?n2b_b2n; cbn [app]; repeat f_equal; (eapply IH; [|reflexivity|done]; lia).
Qed.

(** * What the lexer takes from the input *)

Lemma next_while_app P it cs r : next_while P it = (cs, r) →
  it = cs ++ r ∧ Forall (λ c, P c = true) cs.
Proof.
  revert cs r. induction it as [|c it IH]; intros cs r; cbn [next_while]; [by intros [= <- <-]|].
  destruct (P c) eqn:Hc; [|by intros [= <- <-]].
  destruct (next_while P it) as [v r'] eqn:E. intros [= <- <-].
  destruct (IH v r' eq_refl) as [-> Hv]. auto.
Qed.

Lemma next_if_char_split P it o r : next_if_char P it = (o, r) → it = option_list o ++ r.
Proof. destruct it as [|c it]; cbn; [by intros [= <- <-]|]. destruct (P c); by intros [= <- <-]. Qed.

Lemma quoted_split q it cs r : quoted q it = Some (cs, r) →
  (∃ used, it = used ++ r ∧ used ≠ []) ∧ ∀ P : char → Prop, P q → Forall P it → Forall P cs.
Proof.
  remember (length it) as n eqn:Hn. revert it cs r Hn.
  induction n as [n IH] using lt_wf_ind. intros it cs r ->. destruct it as [|c it]; [done|].
  cbn [quoted]. destruct (c =? q) eqn:Hc.
  - destruct it as [|c' it]; [by intros [= <- <-]; split; [by exists [c]|auto]|].
    destruct (c' =? q).
    + intros ([s r'] & Hs & [= <- <-])%bind_Some.
      destruct (IH (length it) ltac:(cbn; lia) it s r' eq_refl Hs) as [(used & -> & _) HP].
      split; [by exists (c :: c' :: used)|]. intros P Hq [_ [_ HF]%Forall_cons]%Forall_cons.
      constructor; [done|by apply HP].
    + intros [= <- <-]. split; [by exists [c]|auto].
  - intros ([s r'] & Hs & [= <- <-])%bind_Some.
    destruct (IH (length it) ltac:(cbn; lia) it s r' eq_refl Hs) as [(used & -> & _) HP].
    split; [by exists (c :: used)|]. intros P Hq [Hc' HF]%Forall_cons. constructor; [done|by apply HP].
Qed.

(** A token with its strings well formed. *)
Definition token_valid (t : Token) : Prop :=
  match t with TokIdent s | TokString s => utf8_valid s = true | _ => True end.

(** An input that is left over. *)
Definition rest_of (it r : Lexer) : Prop := ∃ used, it = used ++ r.

Lemma rest_refl it : rest_of it it.
Proof. by exists []. Qed.
Lemma rest_trans a b c : rest_of a b → rest_of b c → rest_of a c.
Proof. intros [u ->] [v ->]. exists (u ++ v). by rewrite (assoc_L (++)). Qed.
Lemma rest_length it r : rest_of it r → (length r ≤ length it)%nat.
Proof. intros [u ->]. rewrite length_app. lia. Qed.
Lemma rest_Forall (P : char → Prop) it r : rest_of it r → Forall P it → Forall P r.
Proof. intros [u ->]. by intros [_ ?]%Forall_app. Qed.

Section lexer.
Context `{UnicodeLaws}.

(** An item of the lexer: a valid token that took characters, an error of the
    syntax, or the end. *)
Definition lexed (it : Lexer) (out : option (res Token) * Lexer) : Prop :=
  rest_of it out.2 ∧
  match out.1 with
  | Some (Ok t) => (length out.2 < length it)%nat ∧ (Forall scalar it → token_valid t)
  | Some (Err e) => ∃ m, e = EParse m
  | Some (Panic _) => False
  | None => True
  end.

(** The item for the outcome of a scan. *)
Definition scanned (it : Lexer) (out : res (option Token) * Lexer) : Prop :=
  rest_of it out.2 ∧
  match out.1 with
  | Ok (Some t) => (length out.2 < length it)%nat ∧ (Forall scalar it → token_valid t)
  | Ok None => True
  | Err e => ∃ m, e = EParse m
  | Panic _ => False
  end.

Lemma scan_symbol_scanned it : scanned it (let '(t, it) := scan_symbol it in (Ok t, it)).
Proof.
  destruct it as [|c it]; [by split; [apply rest_refl|]|].
  assert (∀ t r, rest_of it r → token_valid t → scanned (c :: it) (Ok (Some t), r)) as Hok.
  { intros t r Hr Ht. split; [by apply (rest_trans _ it); [by exists [c]|]|].
    cbn [fst snd]. pose proof (rest_length _ _ Hr). split; [cbn; lia|done]. }
  assert (∀ P o r, next_if_char P it = (o, r) → rest_of it r) as Hnext.
  { intros P o r Hs%next_if_char_split. by exists (option_list o). }
  unfold scan_symbol, next_if_symbol.
  destruct (symbol c) as [t|] eqn:Hs; [|by split; [apply rest_refl|]].
  assert (token_valid t) as Ht.
  { unfold symbol in Hs. repeat case_match; simplify_eq; done. }
  destruct t; try (by apply Hok; [apply rest_refl|]);
    repeat match goal with
    | |- context [next_if_char ?P it] => destruct (next_if_char P it) as [[]] eqn:?
    | |- context [next_if_char ?P ?l] =>
        destruct (next_if_char P l) as [[]] eqn:?; [|]
    end; apply Hok; eauto.
  all: eapply rest_trans; [by eapply Hnext|]; eexists; by eapply next_if_char_split.
Qed.

Lemma scan_ident_scanned it : scanned it (let '(t, it) := scan_ident it in (Ok t, it)).
Proof.
  unfold scan_ident. destruct (next_if_char is_alphabetic it) as [o r] eqn:Ho.
  apply next_if_char_split in Ho as ->. destruct o as [c|]; [|by split; [apply rest_refl|]].
  destruct (next_while _ r) as [name r'] eqn:Hw. apply next_while_app in Hw as [-> _].
  split; [by exists (c :: name); cbn|]. cbn [fst snd option_list app].
  assert (length r' < length (c :: name ++ r'))%nat by (cbn; rewrite length_app; lia).
  destruct (from_str _); (split; [done|]); [done|]. intros Hs. cbn. apply str_valid, lowercase_scalar.
  by apply (proj1 (Forall_app _ (c :: name) r')).
Qed.

Lemma scan_number_scanned it : scanned it (let '(t, it) := scan_number it in (Ok t, it)).
Proof.
  unfold scan_number. destruct (next_while is_ascii_digit it) as [[|d ds] r] eqn:Hw;
    apply next_while_app in Hw as [-> _]; [by split; [exists []|]|].
  assert (∀ r', rest_of r r' → ∀ n, scanned ((d :: ds) ++ r) (Ok (Some (TokNumber n)), r')) as Hok.
  { intros r' Hr n. pose proof (rest_length _ _ Hr). split; [by apply (rest_trans _ r); [exists (d :: ds)|]|].
    split; [|done]. cbn [snd]. rewrite length_app. cbn. lia. }
  assert (rest_of r (scan_fraction r).2) as H1.
  { unfold scan_fraction. destruct (next_if_char _ r) as [o r1] eqn:Ho. apply next_if_char_split in Ho as ->.
    destruct o; [|apply rest_refl]. destruct (next_while _ r1) as [x r2] eqn:Hw.
    apply next_while_app in Hw as [-> _]. by exists (n :: x). }
  destruct (scan_fraction r) as [fr r1]. cbn [snd] in H1.
  assert (rest_of r1 (scan_exponent r1).2) as H2.
  { unfold scan_exponent. destruct (next_if_char _ r1) as [o r2] eqn:Ho. apply next_if_char_split in Ho as ->.
    destruct o as [e|]; [|apply rest_refl]. destruct (next_if_char _ r2) as [sg r3] eqn:Hsg.
    apply next_if_char_split in Hsg as ->. destruct (next_while _ r3) as [x r4] eqn:Hw.
    apply next_while_app in Hw as [-> _]. exists (e :: option_list sg ++ x). cbn. by rewrite <-(assoc_L (++)). }
  destruct (scan_exponent r1) as [ex r2]. cbn [snd] in H2. apply Hok. by eapply rest_trans.
Qed.

(** The two kinds of quoted tokens. *)
Lemma quoted_scanned q it (make : list char → Token) msg :
  scalar q → (∀ cs, Forall scalar cs → token_valid (make cs)) →
  scanned it match next_if_char (λ c, c =? q) it with
             | (None, it) => (Ok None, it)
             | (Some _, it) =>
                 match quoted q it with
                 | Some (cs, it) => (Ok (Some (make cs)), it)
                 | None => (Err (EParse msg), [])
                 end
             end.
Proof.
  intros Hq Hmake. destruct (next_if_char _ it) as [o r] eqn:Ho. apply next_if_char_split in Ho as ->.
  destruct o as [c|]; [|by split; [apply rest_refl|]]. cbn [option_list app].
  destruct (quoted q r) as [[cs r']|] eqn:Hr; [|split; [|by exists msg]].
  - apply quoted_split in Hr as [(used & -> & _) HP]. split; [by exists (c :: used)|]. cbn [fst snd].
    split; [cbn; rewrite length_app; lia|]. intros [_ Hs]%Forall_cons. by apply Hmake, HP.
  - exists (c :: r). by rewrite app_nil_r.
Qed.

Lemma scan_token_scanned it : scanned it (scan_token it).
Proof.
  unfold scan_token, consume_whitespace. destruct (next_while is_whitespace it) as [ws r] eqn:Hw.
  apply next_while_app in Hw as [-> _]. cbn [snd].
  assert (∀ out, scanned r out → scanned (ws ++ r) out) as Hskip.
  { intros [o r'] [Hr Ho]. split; [by apply (rest_trans _ r); [exists ws|]|]. cbn [fst snd] in *.
    destruct o as [[t|]| |]; try done. destruct Ho as [Hl Hv]. rewrite length_app.
    split; [lia|]. intros [_ Hs]%Forall_app. auto. }
  apply Hskip. destruct (peek_char r) as [c|]; [|by split; [apply rest_refl|]].
  destruct (c =? ch "'"); [|destruct (c =? 34); [|destruct (is_ascii_digit c); [|destruct (is_alphabetic c)]]].
  - apply (quoted_scanned (ch "'") r (λ s, TokString (str s))); [by left|apply str_valid].
  - apply (quoted_scanned 34 r (λ s, TokIdent (str s))); [by left|apply str_valid].
  - apply scan_number_scanned.
  - apply scan_ident_scanned.
  - apply scan_symbol_scanned.
Qed.

Lemma lexer_next_lexed it : lexed it (lexer_next it).
Proof.
  unfold lexer_next. destruct (scan_token it) as [o r] eqn:E.
  pose proof (scan_token_scanned it) as Hs. rewrite E in Hs. destruct Hs as [Hr Ho]. cbn [fst snd] in *.
  destruct o as [[t|]| |]; (split; [done|]); cbn [fst snd]; try done.
  destruct (peek_char r); cbn; eauto.
Qed.
End lexer.
