(* ===== verification/SqlParserSpec.v ===== *)
(** The SQL parser returns for every input: its fuel, one unit more than the
    input has characters, is enough, it never panics, and its errors are
    syntax errors or value errors.  What it returns is well formed: names are
    valid UTF-8 and literals are values of their formats. *)
From Stdlib Require Import Strings.Byte Strings.Ascii Strings.String NArith ZArith Lia
  Floats.SpecFloat.
From stdpp Require Import base list strings.
From S2P Require Import Prelude BTreeMap KeyCode Engine SqlTypes SqlKeys SqlAst SqlLexer SqlParser.
From S2P Require Import SqlLexSpec SqlValid SqlPlanner SqlPlanSafe.

Open Scope nat_scope.

(** * Computations of the parser *)

(** What is left to read: the characters of the input and a peeked token. *)
Definition left_of (p : Parser) : nat :=
  length (lexer p) + match peeked p with Some (Some (Ok _)) => 1 | _ => 0 end.

Definition parser_ok (p : Parser) : Prop :=
  Forall scalar (lexer p) ∧
  match peeked p with
  | Some (Some (Ok t)) => token_valid t
  | Some (Some (Err e)) => ∃ m, e = EParse m
  | Some (Some (Panic _)) => False
  | _ => True
  end.

Definition syntax_error (e : Error) : Prop := (∃ m, e = EParse m) ∨ (∃ m, e = EValue m).

(** With at most [k] left to read, [m] returns: a value that satisfies [Q],
    after reading at least [d] of it, or an error. *)
Definition parses {A} (k : nat) (d : A → nat) (Q : A → Prop) (m : M Parser A) : Prop :=
  ∀ p, parser_ok p → left_of p ≤ k →
  match m p with
  | (Ok a, p') => parser_ok p' ∧ left_of p' + d a ≤ left_of p ∧ Q a
  | (Err e, _) => syntax_error e
  | (Panic _, _) => False
  end.

(** An option that is there was read. *)
Definition taken {A} (o : option A) : nat := match o with Some _ => 1 | None => 0 end.

Lemma parses_ret {A} k d (Q : A → Prop) a : Q a → d a = 0 → parses k d Q (mret a).
Proof. intros HQ Hd p Hp _. cbn. rewrite Hd. split_and!; [done|lia|done]. Qed.

Lemma parses_err {A} k d (Q : A → Prop) r : (∃ e, r = Err e ∧ syntax_error e) → parses k d Q (lift r).
Proof. intros (e & -> & He) p _ _. done. Qed.

Lemma parses_lift {A} k d (Q : A → Prop) r :
  match r with Ok a => Q a ∧ d a = 0 | Err e => syntax_error e | Panic _ => False end →
  parses k d Q (lift r).
Proof. intros Hr p Hp _. destruct r; cbn in *; [|done..]. destruct Hr as [? ->]. split_and!; [done|lia|done]. Qed.

Lemma parses_bind {A B} k d1 d2 Q1 Q2 (m : M Parser A) (f : A → M Parser B) :
  parses k d1 Q1 m →
  (∀ a, Q1 a → d1 a ≤ k → parses (k - d1 a) (λ b, d2 b - d1 a) Q2 (f a)) →
  parses k d2 Q2 (m ≫= f).
Proof.
  intros Hm Hf p Hp Hk. specialize (Hm p Hp Hk). cbn. unfold mbind, M_bind.
  destruct (m p) as [[a| |] p1]; [|done..]. destruct Hm as (Hp1 & Hl & HQ).
  specialize (Hf a HQ ltac:(lia) p1 Hp1 ltac:(lia)). destruct (f a p1) as [[b| |] p2]; [|done..].
  destruct Hf as (? & ? & ?). split_and!; [done|lia|done].
Qed.

Lemma parses_weaken {A} k k' d d' (Q Q' : A → Prop) m :
  parses k d Q m → k' ≤ k → (∀ a, Q a → d' a ≤ d a) → (∀ a, Q a → Q' a) → parses k' d' Q' m.
Proof.
  intros Hm Hk Hd HQ p Hp Hl. specialize (Hm p Hp ltac:(lia)). destruct (m p) as [[a| |] p']; [|done..].
  destruct Hm as (? & ? & Ha). specialize (Hd a Ha). split_and!; [done|lia|auto].
Qed.

(** The error of a branch that always fails. *)
Lemma parse_error_syntax {A} m args : ∃ e, @parse_error A m args = Err e ∧ syntax_error e.
Proof. eexists. split; [reflexivity|]. left. by eexists. Qed.
Lemma value_error_syntax {A} m : ∃ e, @Err A (EValue m) = Err e ∧ syntax_error e.
Proof. eexists. split; [reflexivity|]. right. by eexists. Qed.
Create HintDb parser.
#[export] Hint Resolve parses_err parse_error_syntax value_error_syntax : parser.

(** The branches of a token match that fail. *)
Ltac fails := first [by apply parses_err, parse_error_syntax | by apply parses_err, value_error_syntax].
Ltac by_token t :=
  let kw := fresh "kw" in
  destruct t as [?|?|?|kw| | | | | | | | | | | | | | | | | | | |]; try fails;
  try (destruct kw; try fails).

(** One step of a computation: the first call by its lemma. *)
Ltac then_ := eapply parses_bind; [solve [eauto 3 with parser]|].
(** Arithmetic on what is left. *)
Ltac bound := cbn beta iota delta [taken] in *; lia.
(** The end of a computation. *)
Ltac returns := apply parses_ret; [try done|cbn; lia].

Section parser.
Context `{UnicodeLaws}.

(** * Tokens *)

Lemma take_token_ok p : parser_ok p →
  match take_token p with
  | (Some (Ok t), p') => parser_ok p' ∧ left_of p' + 1 ≤ left_of p ∧ token_valid t
  | (Some (Err e), p') => syntax_error e
  | (Some (Panic _), _) => False
  | (None, _) => True
  end.
Proof.
  destruct p as [[o|] it]; intros [Hit Hp]; unfold take_token; cbn [peeked lexer] in *.
  - destruct o as [[t|e|]|]; cbn; [|by left|done..]. unfold left_of, parser_ok; cbn. split_and!; [done..|lia|done].
  - destruct (lexer_next it) as [o it'] eqn:E. pose proof (lexer_next_lexed it) as Hl. rewrite E in Hl.
    destruct Hl as [Hr Ho]. cbn [fst snd] in *. destruct o as [[t|e|]|]; cbn; [|by left|done..].
    destruct Ho as [Hl Ht]. unfold left_of, parser_ok; cbn.
    split_and!; [by eapply rest_Forall|done|lia|auto].
Qed.

Lemma lexer_peek_ok p : parser_ok p →
  parser_ok (lexer_peek p).2 ∧ left_of (lexer_peek p).2 ≤ left_of p ∧
  peeked (lexer_peek p).2 = Some (lexer_peek p).1.
Proof.
  destruct p as [[o|] it]; intros [Hit Hp]; unfold lexer_peek; cbn [peeked lexer] in *; [done|].
  destruct (lexer_next it) as [o it'] eqn:E. pose proof (lexer_next_lexed it) as Hl. rewrite E in Hl.
  destruct Hl as [Hr Ho]. cbn [fst snd] in *. pose proof (rest_length _ _ Hr).
  unfold left_of, parser_ok; cbn. split_and!; [by eapply rest_Forall| | |done];
    destruct o as [[t|e|]|]; try done; destruct Ho; try lia; auto.
Qed.

Lemma next_parses k : parses k (λ _, 1) token_valid next.
Proof.
  intros p Hp Hk. pose proof (take_token_ok p Hp) as Ht. unfold next.
  destruct (take_token p) as [[[t|e|]|] p']; try done. left. by eexists.
Qed.

Lemma peek_parses k : parses k (λ _, 0) (λ _, True) peek.
Proof.
  intros p Hp Hk. destruct (lexer_peek_ok p Hp) as (Hp' & Hl & Hpk). unfold peek.
  destruct (lexer_peek p) as [o p']. cbn [fst snd] in *.
  destruct Hp' as [Hs Ho]. rewrite Hpk in Ho.
  destruct o as [[t|e|]|]; cbn; try done; try (split_and!; [|lia|done]; split; [done|by rewrite Hpk]).
  by left.
Qed.

(** After a peek at a token, it is the next one. *)
Lemma peek_or_none_parses k {A} d Q (f : option Token → M Parser A) :
  (∀ o, parses k d Q (f o)) → parses k d Q (peek_or_none ≫= f).
Proof.
  intros Hf p Hp Hk. unfold mbind, M_bind, peek_or_none, peek.
  destruct (lexer_peek_ok p Hp) as (Hp' & Hl & Hpk).
  destruct (lexer_peek p) as [o p']. cbn [fst snd] in *.
  assert (∀ o, match f o p' with
    | (Ok a, p') => parser_ok p' ∧ left_of p' + d a ≤ left_of p ∧ Q a
    | (Err e, _) => syntax_error e | (Panic _, _) => False end) as Hall.
  { intros o'. specialize (Hf o' p' Hp' ltac:(lia)). destruct (f o' p') as [[a| |] p2]; [|done..].
    destruct Hf as (? & ? & ?). split_and!; [done|lia|done]. }
  destruct o as [[t|e|]|]; cbn; try apply Hall.
  destruct Hp' as [_ Ho]. by rewrite Hpk in Ho.
Qed.

Hint Resolve next_parses peek_parses : parser.

Lemma next_expect_parses k t : parses k (λ _, 1) (λ _, True) (next_expect t).
Proof. unfold next_expect. then_. intros token _ _. case_decide; [returns|fails]. Qed.

Lemma expect_end_parses k : parses k (λ _, 0) (λ _, True) expect_end.
Proof. unfold expect_end. then_. intros [token|] _ _; [fails|returns]. Qed.

Lemma next_ident_parses k : parses k (λ _, 1) (λ s, utf8_valid s = true) next_ident.
Proof. unfold next_ident. then_. intros t Ht _. by_token t. by returns. Qed.

Lemma next_if_parses k P :
  parses k taken (λ o, match o with Some t => token_valid t | None => True end)
    (next_if P).
Proof.
  unfold next_if. apply peek_or_none_parses. intros [t|]; [|returns].
  destruct (P t); [|returns]. then_. intros t' Ht' _. by returns.
Qed.

Lemma next_if_keyword_parses k :
  parses k taken (λ o, match o with Some t => token_valid t | None => True end)
    next_if_keyword.
Proof. apply next_if_parses. Qed.
Lemma next_if_token_parses k t : parses k taken (λ _, True) (next_if_token t).
Proof. eapply parses_weaken; [apply next_if_parses|..]; auto. Qed.
Hint Resolve next_if_token_parses next_if_keyword_parses next_expect_parses expect_end_parses
  next_ident_parses : parser.

Lemma next_if_kw_parses k kw : parses k (λ b : bool, if b then 1 else 0) (λ _, True) (next_if_kw kw).
Proof. unfold next_if_kw. then_. intros [t|] _ _; returns. Qed.
Lemma expect_kw_parses k kw : parses k (λ _, 1) (λ _, True) (expect_kw kw).
Proof. apply next_expect_parses. Qed.
Hint Resolve next_if_kw_parses expect_kw_parses : parser.

(** * Lists *)

Lemma comma_list_parses {A} (Q : A → Prop) item fuel k : k < fuel →
  parses k (λ _, 0) Q item → parses k (λ _, 0) (Forall Q) (comma_list fuel item).
Proof.
  revert k. induction fuel as [|fuel IH]; intros k Hk Hitem; [lia|]. cbn [comma_list].
  eapply parses_bind; [done|]. intros x Hx _. then_. intros [t|] _ Hd; cbn; [|by returns; auto].
  eapply parses_bind.
  - apply IH; [bound|]. eapply parses_weaken; [done|lia|auto..].
  - intros l Hl _. returns. by constructor.
Qed.

Lemma paren_list_parses {A} (Q : A → Prop) item fuel k : k < fuel →
  parses k (λ _, 0) Q item → parses k (λ _, 0) (Forall Q) (paren_list fuel item).
Proof.
  revert k. induction fuel as [|fuel IH]; intros k Hk Hitem; [lia|]. cbn [paren_list].
  eapply parses_bind; [done|]. intros x Hx _. then_. intros t _ Hd. by_token t; [by returns; auto|].
  eapply parses_bind.
  - apply IH; [bound|]. eapply parses_weaken; [done|lia|auto..].
  - intros l Hl _. returns. by constructor.
Qed.

(** * Expressions *)

Lemma next_if_operator_parses {O} `{Operator O} k min_prec :
  (∀ k op, parses k (λ _, 0) (λ _, True) (op_augment op)) →
  parses k taken (λ _, True) (next_if_operator (O:=O) min_prec).
Proof.
  intros Haug. unfold next_if_operator. apply peek_or_none_parses. intros o.
  destruct (o ≫= op_from) as [op|]; [|returns]. destruct (_ <=? _)%N; [|returns].
  then_. intros ? _ _. eapply parses_bind; [apply Haug|]. intros op' _ _. returns.
Qed.

Lemma prefix_parses k min_prec :
  parses k taken (λ _, True) (next_if_operator (O:=PrefixOperator) min_prec).
Proof. apply next_if_operator_parses. intros k' op. returns. Qed.
Lemma infix_parses k min_prec :
  parses k taken (λ _, True) (next_if_operator (O:=InfixOperator) min_prec).
Proof. apply next_if_operator_parses. intros k' op. returns. Qed.
Lemma postfix_parses k min_prec :
  parses k taken (λ _, True) (next_if_operator (O:=PostfixOperator) min_prec).
Proof.
  apply next_if_operator_parses. intros k' [|n]; [returns|]. cbn [op_augment postfix_operator].
  then_. intros b _ _. then_. intros ? _ _. returns.
Qed.
Hint Resolve prefix_parses infix_parses postfix_parses : parser.

Abbreviation expression_parses k m := (parses k (λ _, 1) ast_valid m).

Lemma args_valid args : Forall ast_valid args → foldr (λ a P, ast_valid a ∧ P) True args.
Proof. induction 1; cbn; auto. Qed.

Lemma parse_args_parses fuel k e n args : k < fuel → expression_parses k e → Forall ast_valid args →
  parses k (λ _, 0) (Forall ast_valid) (parse_args fuel e n args).
Proof.
  revert k args. induction fuel as [|fuel IH]; intros k args Hk He Hargs; [lia|]. cbn [parse_args].
  then_. intros [close|] _ _; cbn [is_some]; [by returns|].
  eapply (parses_bind _ (λ _, 0) _ (λ _, True)).
  { destruct args; [returns|]. then_. intros ? _ _. returns. }
  intros ? _ _. eapply (parses_bind _ taken _ (λ _, True)).
  { case_bool_decide; [eauto with parser|returns]. }
  intros [star|] _ Hstar; cbn [is_some].
  - eapply parses_weaken; [apply (IH (k - 1)); [bound| |]|bound|intros; bound|auto].
    + eapply parses_weaken; [done|lia|auto..].
    + apply Forall_app. split; [done|]. by repeat constructor.
  - eapply (parses_bind _ (λ _, 1) _ ast_valid); [eapply parses_weaken; [done|bound|intros; bound|auto]|].
    intros arg Harg Hd.
    eapply parses_weaken; [apply (IH (k - 1)); [bound| |]|bound|intros; bound|auto].
    + eapply parses_weaken; [done|lia|auto..].
    + apply Forall_app. split; [done|]. by repeat constructor.
Qed.

Lemma parse_unsigned_ok limit cs : match parse_unsigned limit cs with
  | Ok n => (n <= limit)%N | Err e => syntax_error e | Panic _ => False end.
Proof.
  assert (∀ acc, (acc <= limit)%N → match parse_digits limit cs acc with
    | Ok n => (n <= limit)%N | Err e => syntax_error e | Panic _ => False end) as Hd.
  { induction cs as [|c cs IH]; intros acc Hacc; cbn [parse_digits]; [done|].
    destruct (is_ascii_digit c); [|left; by eexists].
    destruct (N.leb_spec (acc * 10 + (c - 48)) limit); [by apply IH|left; by eexists]. }
  unfold parse_unsigned. destruct cs; [left; by eexists|]. apply Hd. lia.
Qed.

Lemma parse_f64_ok cs : match parse_f64 cs with
  | Ok f => f64_valid f | Err e => syntax_error e | Panic _ => False end.
Proof.
  assert (∀ m args, syntax_error (EParse (Msg m args))) as Herr by (left; by eexists).
  unfold parse_f64. destruct (next_while is_ascii_digit cs) as [int r].
  destruct (match r with [] => _ | _ => _ end) as [frac [|c r']]; [apply decimal_f64_valid|].
  destruct (_ || _); [|apply Herr]. destruct (next_if_char _ r') as [sign r2].
  destruct (next_while _ r2) as [[|d ds] [|c' r3]]; try apply Herr. apply decimal_f64_valid.
Qed.

(** Numbers are read as valid literals. *)
Lemma number_parses k n :
  parses k (λ _, 0) ast_valid
    (if forallb is_ascii_digit (chars n)
     then i ← lift (parse_i64 (chars n)); mret (ALiteral (LInteger i))
     else f ← lift (parse_f64 (chars n)); mret (ALiteral (LFloat f))).
Proof.
  destruct (forallb _ _).
  - eapply (parses_bind _ (λ _, 0) _ i64_valid); [|intros i Hi _; by returns].
    apply parses_lift. unfold parse_i64. pose proof (parse_unsigned_ok 9223372036854775807 (chars n)) as Hn.
    destruct (parse_unsigned _ _) as [m|e|]; cbn; [|done..]. split; [|done]. unfold i64_valid, i64_min, i64_max. lia.
  - eapply (parses_bind _ (λ _, 0) _ f64_valid); [|intros f Hf _; by returns].
    apply parses_lift. pose proof (parse_f64_ok (chars n)) as Hn. by destruct (parse_f64 _).
Qed.

Lemma atom_parses fuel k e : k < S fuel → (1 ≤ k → expression_parses (k - 1) e) →
  expression_parses k (parse_expression_atom fuel e).
Proof.
  intros Hk He. unfold parse_expression_atom. then_. intros t Ht Hd.
  specialize (He Hd). by_token t; try (by returns).
  - eapply parses_weaken; [apply number_parses|..]; auto; cbn; lia.
  - then_. intros [open|] _ Hopen; cbn [is_some].
    + eapply parses_bind; [apply (parse_args_parses _ (k - 1 - 1))|]; [bound|..|by constructor|].
      * eapply parses_weaken; [done|lia|auto..].
      * intros args Hargs _. returns. by apply args_valid.
    + then_. intros [dot|] _ Hdot; cbn [is_some]; [|by returns]. then_. intros field _ _. by returns.
  - eapply parses_bind; [done|]. intros a Ha _. then_. intros ? _ _. by returns.
Qed.

Lemma build_postfix_valid op e : ast_valid e → ast_valid (build_postfix op e).
Proof. by destruct op as [|[]]. Qed.
Lemma build_prefix_valid op e : ast_valid e → ast_valid (build_prefix op e).
Proof. by destruct op. Qed.
Lemma build_infix_valid op l r : ast_valid l → ast_valid r → ast_valid (build_infix op l r).
Proof. by destruct op. Qed.
Hint Resolve build_postfix_valid build_prefix_valid build_infix_valid : parser.

Lemma postfix_loop_parses fuel k min_prec e : k < fuel → ast_valid e →
  parses k (λ _, 0) ast_valid (postfix_loop fuel min_prec e).
Proof.
  revert k e. induction fuel as [|fuel IH]; intros k e Hk He; [lia|]. cbn [postfix_loop].
  then_. intros [op|] _ Hd; [|by returns].
  eapply parses_weaken; [apply (IH (k - 1)); [bound|auto with parser]|bound|intros; bound|auto].
Qed.

Lemma infix_loop_parses fuel k expr min_prec e : k < fuel →
  (∀ prec, expression_parses (k - 1) (expr prec)) → ast_valid e →
  parses k (λ _, 0) ast_valid (infix_loop fuel expr min_prec e).
Proof.
  revert k e. induction fuel as [|fuel IH]; intros k e Hk Hx He; [lia|]. cbn [infix_loop].
  then_. intros [op|] _ Hd; [|by returns]. eapply parses_bind; [apply Hx|]. intros rhs Hrhs Hr.
  eapply parses_weaken; [apply (IH (k - 1)); [bound| |by apply build_infix_valid]|bound|intros; bound|auto].
  intros prec. eapply parses_weaken; [apply Hx|lia|auto..].
Qed.

Lemma parse_expression_parses fuel k min_prec : k < fuel →
  expression_parses k (parse_expression fuel min_prec).
Proof.
  revert k min_prec. induction fuel as [|fuel IH]; intros k min_prec Hk; [lia|]. cbn [parse_expression].
  then_. intros prefix _ Hd.
  eapply (parses_bind _ (λ _, 1 - taken prefix) _ ast_valid).
  { destruct prefix as [op|].
    - eapply parses_bind; [apply IH; bound|]. intros rhs Hrhs _. returns. by apply build_prefix_valid.
    - eapply parses_weaken; [apply (atom_parses _ k); [lia|intros Hk1; apply IH; lia]|bound|intros; bound|auto]. }
  intros lhs Hlhs Hd1. eapply parses_bind; [apply postfix_loop_parses; [|done]; destruct prefix; bound|].
  intros lhs' Hlhs' _. eapply parses_weaken; [apply (infix_loop_parses _ (k - 1)); [| |done]|..].
  - destruct prefix; bound.
  - intros prec. apply IH. destruct prefix; bound.
  - destruct prefix; bound.
  - intros a _. destruct prefix; bound.
  - done.
Qed.

(** * Clauses *)

Section clauses.
Context (fuel : nat).

Lemma expression_parse k : k < fuel → expression_parses k (expression fuel).
Proof. apply parse_expression_parses. Qed.
Lemma expression_item k : k < fuel → parses k (λ _, 0) ast_valid (expression fuel).
Proof. intros Hk. eapply parses_weaken; [by apply expression_parse|done|intros; bound|done]. Qed.
Hint Extern 1 (parses _ _ _ (expression fuel)) => apply expression_parse; bound : parser.

Lemma optional_clause_parses k kw : k < fuel → parses k (λ _, 0) option_valid (optional_clause fuel kw).
Proof.
  intros Hk. unfold optional_clause. then_. intros [] _ Hd; [|by returns].
  then_. intros e He _. by returns.
Qed.

Fixpoint from_formed (f : FromItem) : Prop :=
  match f with
  | FTable n alias => utf8_valid n = true ∧ (∀ a, alias = Some a → utf8_valid a = true)
  | FJoin l r _ p => from_formed l ∧ from_formed r ∧ option_valid p
  end.

Lemma from_item_parses k : parses k (λ _, 1) from_formed parse_clause_from_item.
Proof.
  unfold parse_clause_from_item. then_. intros n Hn _. then_. intros [] _ _.
  - then_. intros a Ha _. returns. split; [done|]. by intros ? [= <-].
  - then_. intros o _ _. destruct o as [t|]; [|by returns].
    destruct t; try (by returns). then_. intros a Ha _. returns. split; [done|]. by intros ? [= <-].
Qed.

Lemma jointype_parses k : parses k taken (λ _, True) parse_clause_from_jointype.
Proof.
  unfold parse_clause_from_jointype.
  repeat (then_; intros [] _ _; [try (then_; intros ? _ _); try (then_; intros ? _ _); returns|]).
  returns.
Qed.
Hint Resolve from_item_parses jointype_parses : parser.

Lemma join_loop_parses fuel' k item : k < fuel' → k < fuel → from_formed item →
  parses k (λ _, 0) from_formed (join_loop fuel fuel' item).
Proof.
  revert k item. induction fuel' as [|fuel' IH]; intros k item Hk Hf Hi; [lia|]. cbn [join_loop].
  then_. intros [type|] _ Hd; [|by returns]. then_. intros rhs Hrhs Hd1.
  eapply (parses_bind _ (λ _, 0) _ option_valid).
  { destruct type; [by returns|..]; (then_; intros ? _ Hd2; then_; intros e He _; by returns). }
  intros predicate Hpred _. eapply parses_weaken; [apply (IH (k - 1)); [bound|bound|done]|bound|intros; bound|auto].
Qed.

Lemma clause_from_parses k : k < fuel → parses k (λ _, 0) (Forall from_formed) (parse_clause_from fuel).
Proof.
  intros Hk. unfold parse_clause_from. then_. intros [] _ Hd; [|by returns].
  eapply parses_weaken; [apply (comma_list_parses from_formed _ _ (k - 1)); [bound|]|bound|intros; bound|auto].
  eapply parses_bind; [apply from_item_parses|]. intros item Hi _.
  eapply parses_weaken; [apply (join_loop_parses _ (k - 1)); [bound|bound|done]|bound|intros; bound|auto].
Qed.

(** A clause of a list of items after its keyword and BY. *)
Lemma by_clause_parses {A} k kw (Q : A → Prop) item : k < fuel → parses (k - 1 - 1) (λ _, 0) Q item →
  parses k (λ _, 0) (Forall Q)
    (found ← next_if_kw kw; if found : bool then _ ← expect_kw KwBy; comma_list fuel item else mret []).
Proof.
  intros Hk Hi. then_. intros [] _ Hd; [|by returns]. then_. intros ? _ Hd1.
  eapply parses_weaken; [apply comma_list_parses; [|done]; bound|bound|intros; bound|auto].
Qed.

Lemma group_by_parses k : k < fuel → parses k (λ _, 0) (Forall ast_valid) (parse_clause_group_by fuel).
Proof. intros Hk. apply by_clause_parses; [done|]. apply expression_item. lia. Qed.

Lemma order_parses k : k < fuel →
  parses k (λ _, 0) (Forall (λ o, ast_valid o.1)) (parse_clause_order fuel).
Proof.
  intros Hk. apply by_clause_parses; [done|]. unfold parse_order. then_. intros e He _.
  then_. intros [] _ _; [by returns|]. then_. intros d _ _. by returns.
Qed.

Lemma label_parses k : parses k (λ _, 0) (λ o, ∀ l, o = Some l → utf8_valid l = true) parse_label.
Proof.
  unfold parse_label. then_. intros o _ _. destruct o as [t|]; [|by returns].
  destruct t as [| | |kw| | | | | | | | | | | | | | | | | | | |]; try (by returns).
  - then_. intros l Hl _. returns. by intros ? [= <-].
  - destruct kw; try (by returns). then_. intros ? _ _. then_. intros l Hl _. returns. by intros ? [= <-].
Qed.

Lemma select_loop_parses fuel' k select : k < fuel' → k < fuel → Forall (λ p, ast_valid p.1) select →
  parses k (λ _, 0) (Forall (λ p, ast_valid p.1)) (select_loop fuel fuel' select).
Proof.
  revert k select. induction fuel' as [|fuel' IH]; intros k select Hk Hf Hs; [lia|]. cbn [select_loop].
  then_. intros star _ Hd. destruct (_ && _); [by returns|].
  then_. intros e He Hd1. eapply parses_bind; [apply label_parses|]. intros label _ _.
  assert (Forall (λ p : AstExpression * option bytes, ast_valid p.1) (select ++ [(e, label)])) as Hs'
    by (apply Forall_app; auto).
  then_. intros [comma|] _ Hd2; cbn [is_none is_some negb]; [|by returns].
  eapply parses_weaken; [apply (IH (k - 1)); [bound|bound|done]|bound|intros; bound|auto].
Qed.

Lemma clause_select_parses k : k < fuel →
  parses k (λ _, 0) (Forall (λ p, ast_valid p.1)) (parse_clause_select fuel).
Proof.
  intros Hk. unfold parse_clause_select. then_. intros [] _ Hd; [|by returns].
  eapply parses_weaken; [apply (select_loop_parses _ (k - 1)); [bound|bound|done]|bound|intros; bound|auto].
Qed.

(** * Statements *)

Record column_formed (c : AstColumn) : Prop := {
  cf_name : utf8_valid (ac_name c) = true;
  cf_default : option_valid (ac_default c);
  cf_references r : ac_references c = Some r → utf8_valid r = true
}.

Record select_formed (q : SelectStatement) : Prop := {
  sf_select : Forall (λ p, ast_valid p.1) (s_select q);
  sf_from : Forall from_formed (s_from q);
  sf_where : option_valid (s_where q);
  sf_group_by : Forall ast_valid (s_group_by q);
  sf_having : option_valid (s_having q);
  sf_order : Forall (λ p, ast_valid p.1) (s_order q);
  sf_offset : option_valid (s_offset q);
  sf_limit : option_valid (s_limit q)
}.

(** Names are valid UTF-8, literals are valid values, and no EXPLAIN is
    explained. *)
Definition plain_formed (st : Statement) : Prop :=
  match st with
  | SBegin _ _ | SCommit | SRollback => True
  | SExplain _ => False
  | SCreateTable name columns => utf8_valid name = true ∧ Forall column_formed columns
  | SDropTable name _ => utf8_valid name = true
  | SDelete table where_ => utf8_valid table = true ∧ option_valid where_
  | SInsert table _ values => utf8_valid table = true ∧ Forall (Forall ast_valid) values
  | SUpdate table set_ where_ =>
      utf8_valid table = true ∧ option_valid where_ ∧ Forall (λ p, ast_valid p.2) set_
  | SSelect q => select_formed q
  end.
Definition statement_formed (st : Statement) : Prop :=
  match st with SExplain st => plain_formed st | st => plain_formed st end.

Lemma datatype_parses k : parses k (λ _, 1) (λ _, True) parse_datatype.
Proof. unfold parse_datatype. then_. intros t _ _. by_token t; returns. Qed.
Hint Resolve datatype_parses : parser.

Lemma column_loop_parses fuel' k c : k < fuel' → k < fuel → column_formed c →
  parses k (λ _, 0) column_formed (column_loop fuel fuel' c).
Proof.
  revert k c. induction fuel' as [|fuel' IH]; intros k c Hk Hf Hc; [lia|]. cbn [column_loop].
  then_. intros [t|] _ Hd; [|by returns]. destruct t as [| | |kw| | | | | | | | | | | | | | | | | | | |];
    try (by returns).
  eapply (parses_bind _ (λ _, 0) _ column_formed).
  { destruct Hc. destruct kw; try fails; try case_bool_decide; try fails; try (by returns; split).
    - then_. intros e He _. by returns; split.
    - then_. intros ? _ _. fails.
    - then_. intros ? _ _. by returns; split.
    - then_. intros ? _ _. by returns; split.
    - then_. intros r Hr _. returns. split; [done..|]. by intros ? [= <-]. }
  intros c' Hc' _. eapply parses_weaken; [apply (IH (k - 1)); [bound|bound|done]|bound|intros; bound|auto].
Qed.

Lemma columnspec_parses k : k < fuel → parses k (λ _, 0) column_formed (parse_ddl_columnspec fuel).
Proof.
  intros Hk. unfold parse_ddl_columnspec. then_. intros n Hn _. then_. intros d _ _.
  eapply parses_weaken; [apply (column_loop_parses _ k); [done..|by split]|bound|intros; bound|auto].
Qed.

Lemma create_table_parses k : k < fuel →
  parses k (λ _, 0) plain_formed (parse_ddl_create_table fuel).
Proof.
  intros Hk. unfold parse_ddl_create_table. then_. intros n Hn _. then_. intros ? _ _.
  eapply parses_bind; [apply comma_list_parses; [|apply columnspec_parses]; bound|].
  intros cs Hcs _. then_. intros ? _ _. by returns.
Qed.

Lemma drop_table_parses k : parses k (λ _, 0) plain_formed parse_ddl_drop_table.
Proof.
  unfold parse_ddl_drop_table. then_. intros t _ _. eapply (parses_bind _ (λ _, 0) _ (λ _, True)).
  { destruct t as [t|]; [|returns]. destruct t as [| | |kw| | | | | | | | | | | | | | | | | | | |];
      try returns. destruct kw; try returns. then_. intros ? _ _. returns. }
  intros b _ _. then_. intros n Hn _. by returns.
Qed.

Lemma ddl_parses k : k < fuel → parses k (λ _, 0) plain_formed (parse_ddl fuel).
Proof.
  intros Hk. unfold parse_ddl. then_. intros t _ _. by_token t; (then_; intros t _ _; by_token t).
  - eapply parses_weaken; [apply (create_table_parses k)|bound|intros; bound|]; auto.
  - eapply parses_weaken; [apply (drop_table_parses k)|bound|intros; bound|]; auto.
Qed.

Hint Extern 1 (parses _ _ _ (optional_clause fuel _)) => apply optional_clause_parses; bound : parser.
Hint Extern 1 (parses _ _ _ (parse_clause_where fuel)) => apply optional_clause_parses; bound : parser.
Hint Extern 1 (parses _ _ _ (parse_clause_having fuel)) => apply optional_clause_parses; bound : parser.

Lemma delete_parses k : k < fuel → parses k (λ _, 0) plain_formed (parse_statement_delete fuel).
Proof.
  intros Hk. unfold parse_statement_delete. then_. intros ? _ _. then_. intros ? _ _.
  then_. intros n Hn _. then_. intros w Hw _. by returns.
Qed.

Lemma insert_parses k : k < fuel → parses k (λ _, 0) plain_formed (parse_statement_insert fuel).
Proof.
  intros Hk. unfold parse_statement_insert. then_. intros ? _ _. then_. intros ? _ _.
  then_. intros n Hn _. then_. intros open _ _. eapply (parses_bind _ (λ _, 0) _ (λ _, True)).
  { destruct (is_some open); [|returns].
    eapply parses_bind; [apply (paren_list_parses (λ _, True)); [bound|]|intros; returns].
    eapply parses_weaken; [apply next_ident_parses|reflexivity|intros; bound|done]. }
  intros cs _ _. then_. intros ? _ _.
  eapply parses_bind; [apply (comma_list_parses (Forall ast_valid)); [bound|]|intros vs Hvs _; by returns].
  then_. intros ? _ _. eapply parses_weaken; [apply (paren_list_parses ast_valid _ _ k); [done|]|bound|intros; bound|auto].
  by apply expression_item.
Qed.

Lemma select_parses k : k < fuel → parses k (λ _, 0) plain_formed (parse_statement_select fuel).
Proof.
  intros Hk. unfold parse_statement_select.
  eapply parses_bind; [by apply clause_select_parses|]. intros sel Hsel _.
  eapply parses_bind; [apply clause_from_parses; bound|]. intros from Hfrom _.
  then_. intros w Hw _. eapply parses_bind; [apply group_by_parses; bound|]. intros g Hg _.
  then_. intros h Hh _. eapply parses_bind; [apply order_parses; bound|]. intros o Ho _.
  then_. intros l Hl _. then_. intros off Hoff _. by returns.
Qed.

Lemma set_loop_parses fuel' k set_ : k < fuel' → k < fuel → Forall (λ p, ast_valid p.2) set_ →
  parses k (λ _, 0) (Forall (λ p, ast_valid p.2)) (set_loop fuel fuel' set_).
Proof.
  revert k set_. induction fuel' as [|fuel' IH]; intros k set_ Hk Hf Hs; [lia|]. cbn [set_loop].
  then_. intros c _ Hd. then_. intros ? _ _. then_. intros e He _.
  destruct (bt_get _ _ _); [fails|].
  assert (Forall (λ p, ast_valid p.2) (bt_insert bytes_cmp c e set_)) as Hs'
    by (apply bt_insert_Forall; [apply _|by intros|done]).
  then_. intros [comma|] _ _; cbn [is_none is_some negb]; [|by returns].
  eapply parses_weaken; [apply (IH (k - 1)); [bound|bound|done]|bound|intros; bound|auto].
Qed.

Lemma update_parses k : k < fuel → parses k (λ _, 0) plain_formed (parse_statement_update fuel).
Proof.
  intros Hk. unfold parse_statement_update. then_. intros ? _ _. then_. intros n Hn _.
  then_. intros ? _ _. eapply parses_bind; [apply set_loop_parses; [bound|bound|done]|].
  intros set_ Hs _. then_. intros w Hw _. by returns.
Qed.

Lemma transaction_parses k : parses k (λ _, 0) plain_formed parse_transaction.
Proof.
  unfold parse_transaction. then_. intros t _ _. by_token t; try (by returns).
  then_. intros ? _ _. then_. intros rd _ _. eapply (parses_bind _ (λ _, 0) _ (λ _, True)).
  { destruct rd; [|returns]. then_. intros t _ _. by_token t; returns. }
  intros ro _ _. then_. intros as_ _ _. eapply (parses_bind _ (λ _, 0) _ (λ _, True)).
  { destruct as_; [|returns]. then_. intros ? _ _. then_. intros ? _ _. then_. intros ? _ _.
    then_. intros t _ _. by_token t. eapply (parses_bind _ (λ _, 0) _ (λ _, True)); [|intros; returns].
    apply parses_lift. unfold parse_u64. pose proof (parse_unsigned_ok u64_max (chars n)).
    by destruct (parse_unsigned _ _). }
  intros v _ _. by returns.
Qed.

(** A second peek sees the same token. *)
Lemma peek_again p o p' : peek p = (Ok o, p') → peek p' = (Ok o, p').
Proof.
  unfold peek, lexer_peek. destruct p as [[t|] it]; cbn [peeked lexer]; [|destruct (lexer_next it) as [t it']];
    intros [= Ho <-]; cbn; by rewrite Ho.
Qed.
Lemma peek_known {A} k d (Q : A → Prop) (F : option Token → M Parser A) :
  (∀ o p, parser_ok p → left_of p ≤ k → peek p = (Ok o, p) →
     match F o p with
     | (Ok a, p') => parser_ok p' ∧ left_of p' + d a ≤ left_of p ∧ Q a
     | (Err e, _) => syntax_error e
     | (Panic _, _) => False
     end) → parses k d Q (peek ≫= F).
Proof.
  intros HF p Hp Hk. pose proof (peek_parses k p Hp Hk) as Hpk. unfold mbind, M_bind.
  destruct (peek p) as [[o| |] p'] eqn:E; [|done..]. destruct Hpk as (Hp' & Hl & _).
  specialize (HF o p' Hp' ltac:(lia) (peek_again _ _ _ E)).
  destruct (F o p') as [[a| |] p2]; [|done..]. destruct HF as (? & ? & ?). split_and!; [done|lia|done].
Qed.

(** The branches of a statement that is not an EXPLAIN. *)
Lemma plain_branch k explain t : k < fuel → t ≠ Some (TokKeyword KwExplain) →
  parses k (λ _, 0) plain_formed (match t with
  | Some (TokKeyword KwBegin) | Some (TokKeyword KwCommit) | Some (TokKeyword KwRollback) =>
      parse_transaction
  | Some (TokKeyword KwCreate) | Some (TokKeyword KwDrop) => parse_ddl fuel
  | Some (TokKeyword KwDelete) => parse_statement_delete fuel
  | Some (TokKeyword KwInsert) => parse_statement_insert fuel
  | Some (TokKeyword KwSelect) => parse_statement_select fuel
  | Some (TokKeyword KwUpdate) => parse_statement_update fuel
  | Some (TokKeyword KwExplain) => explain
  | Some token => lift (unexpected token)
  | None => lift (parse_error "Unexpected end of input" [])
  end).
Proof.
  intros Hk Ht. destruct t as [t|]; [|fails]. by_token t;
    auto using transaction_parses, ddl_parses, delete_parses, insert_parses, select_parses, update_parses.
  done.
Qed.

Lemma plain_parses_at k explain t p : k < fuel → t ≠ Some (TokKeyword KwExplain) →
  parser_ok p → left_of p ≤ k → peek p = (Ok t, p) →
  match parse_plain_statement fuel explain p with
  | (Ok st, p') => parser_ok p' ∧ left_of p' + 0 ≤ left_of p ∧ plain_formed st
  | (Err e, _) => syntax_error e
  | (Panic _, _) => False
  end.
Proof.
  intros Hk Ht Hp Hl Hpk. unfold parse_plain_statement, mbind, M_bind. rewrite Hpk.
  by apply (plain_branch k explain t Hk Ht p).
Qed.

Lemma explain_parses k explain : k < fuel →
  parses k (λ _, 0) statement_formed (parse_statement_explain (parse_plain_statement fuel explain)).
Proof.
  intros Hk. unfold parse_statement_explain. then_. intros ? _ _. apply peek_known. intros t p Hp Hl Hpk.
  assert (t ≠ Some (TokKeyword KwExplain) →
    match (s ← parse_plain_statement fuel explain; mret (SExplain s)) p with
    | (Ok a, p') => parser_ok p' ∧ left_of p' + (0 - 1) ≤ left_of p ∧ statement_formed a
    | (Err e, _) => syntax_error e
    | (Panic _, _) => False
    end) as Hplain.
  { intros Ht. pose proof (plain_parses_at _ explain t p Hk Ht Hp ltac:(bound) Hpk) as Hs.
    unfold mbind, M_bind. destruct (parse_plain_statement fuel explain p) as [[st| |] p']; [|done..].
    destruct Hs as (? & ? & ?). cbn. split_and!; [done|lia|done]. }
  destruct t as [t|]; [|by apply Hplain].
  destruct t as [| | |kw| | | | | | | | | | | | | | | | | | | |]; try (by apply Hplain).
  destruct kw; try (by apply Hplain). cbn. left. by eexists.
Qed.

Lemma statement_parses k : k < fuel → parses k (λ _, 0) statement_formed (parse_statement fuel).
Proof.
  intros Hk. unfold parse_statement. apply peek_known. intros t p Hp Hl Hpk.
  destruct (decide (t = Some (TokKeyword KwExplain))) as [->|Ht].
  - by apply (explain_parses k).
  - apply (parses_weaken k k _ _ _ statement_formed _ (plain_branch k _ t Hk Ht)); [lia|auto| |done..].
    by intros [].
Qed.
End clauses.

Lemma parse_parser_parses fuel k : k < fuel → parses k (λ _, 0) statement_formed (parse_parser fuel).
Proof.
  intros Hk. unfold parse_parser. eapply parses_bind; [by apply statement_parses|]. intros st Hst _.
  then_. intros ? _ _. then_. intros ? _ _. by returns.
Qed.

(** [parse] returns for every query. *)
Lemma parse_returns q : utf8_valid q = true →
  match parse q with
  | Ok st => statement_formed st
  | Err e => syntax_error e
  | Panic _ => False
  end.
Proof.
  intros Hq. unfold parse.
  pose proof (parse_parser_parses (S (length (chars q))) (length (chars q)) ltac:(lia) (parser_new q)) as Hp.
  destruct (parse_parser _ _) as [[st| |] p']; apply Hp; try (split; [by apply chars_scalar|done]);
    unfold left_of; cbn; lia.
Qed.
End parser.

(** What no one checks of the columns of a new table: distinct names, and keys
    that are not floats. *)
Definition sound_schema (st : Statement) : Prop :=
  match st with
  | SCreateTable _ columns =>
      NoDup (ac_name <$> columns) ∧
      Forall (λ c, ac_primary_key c = true ∨ ac_index c = true ∨ is_Some (ac_references c) →
        ac_datatype c ≠ TFloat) columns
  | _ => True
  end.

Lemma formed_valid st : statement_formed st → sound_schema st → statement_valid st.
Proof.
  destruct st; cbn; try done. intros [Hn Hcs] [Hnd Hk]. split_and!; [done..|].
  apply Forall_lookup. intros i c Hi. rewrite Forall_lookup in Hcs, Hk.
  destruct (Hcs i c Hi). split_and!; [done..|by apply (Hk i)].
Qed.
