(* ===== verification/SqlGrammar.v ===== *)
(** The grammar of SQL expressions, with its precedences, as a relation between
    tokens and syntax trees: the parser reads every expression of the grammar
    as the tree that the grammar gives it. *)
From Stdlib Require Import Strings.Byte Strings.Ascii Strings.String NArith ZArith Lia
  Floats.SpecFloat.
From stdpp Require Import base list strings.
From S2P Require Import Prelude KeyCode Engine SqlTypes SqlAst SqlLexer SqlParser.

Open Scope N_scope.

(** * The grammar *)

(** The literals of one token. *)
Inductive literal : Token → Literal → Prop :=
| l_integer n i : forallb is_ascii_digit (chars n) = true → parse_i64 (chars n) = Ok i →
    literal (TokNumber n) (LInteger i)
| l_float n f : forallb is_ascii_digit (chars n) = false → parse_f64 (chars n) = Ok f →
    literal (TokNumber n) (LFloat f)
| l_string s : literal (TokString s) (LString s)
| l_false : literal (TokKeyword KwFalse) (LBoolean false)
| l_true : literal (TokKeyword KwTrue) (LBoolean true)
| l_infinity : literal (TokKeyword KwInfinity) (LFloat (S754_infinity false))
| l_nan : literal (TokKeyword KwNaN) (LFloat S754_nan)
| l_null : literal (TokKeyword KwNull) LNull.

Inductive postfix : list Token → PostfixOperator → Prop :=
| x_factorial : postfix [TokExclamation] PFactorial
| x_is_null : postfix [TokKeyword KwIs; TokKeyword KwNull] (PIsNull false)
| x_is_not_null : postfix [TokKeyword KwIs; TokKeyword KwNot; TokKeyword KwNull] (PIsNull true).

(** The least precedences of the operands of an infix operator: operators of
    the same precedence associate to the left, or to the right. *)
Definition left_prec (op : InfixOperator) : N := op_prec op + (1 - op_assoc op).
Definition right_prec (op : InfixOperator) : N := op_prec op + op_assoc op.

Section grammar.
Context `{Unicode}.

(** [primary]: atoms and prefix operators on them; [postfixed]: with postfix
    operators; [climbs p]: with infix operators of precedence at least [p];
    [arguments f]: those of a call of [f], and what follows the first one. *)
Inductive primary : list Token → AstExpression → Prop :=
| p_literal t l : literal t l → primary [t] (ALiteral l)
| p_field i : primary [TokIdent i] (AField None i)
| p_qualified i j : primary [TokIdent i; TokPeriod; TokIdent j] (AField (Some i) j)
| p_paren ts e : climbs 0 ts e → primary (TokOpenParen :: ts ++ [TokCloseParen]) e
| p_function f ts es : arguments f ts es →
    primary (TokIdent f :: TokOpenParen :: ts ++ [TokCloseParen]) (AFunction f es)
| p_prefix t op ts e : op_from t = Some op → primary ts e → primary (t :: ts) (build_prefix op e)
with postfixed : list Token → AstExpression → Prop :=
| f_primary ts e : primary ts e → postfixed ts e
| f_postfix ts e xs op : postfixed ts e → postfix xs op → postfixed (ts ++ xs) (build_postfix op e)
with climbs : N → list Token → AstExpression → Prop :=
| c_postfixed p ts e : postfixed ts e → climbs p ts e
| c_infix p ls l t op rs r : p <= op_prec op → op_from t = Some op →
    climbs (left_prec op) ls l → climbs (right_prec op) rs r →
    climbs p (ls ++ t :: rs) (build_infix op l r)
with arguments : bytes → list Token → list AstExpression → Prop :=
| a_none f : arguments f [] []
| a_some f ts e us es : argument f ts e → more f us es → arguments f (ts ++ us) (e :: es)
with argument : bytes → list Token → AstExpression → Prop :=
| a_expression f ts e : climbs 0 ts e → argument f ts e
| a_star : argument (str (text "count")) [TokAsterisk] (ALiteral (LBoolean true))
with more : bytes → list Token → list AstExpression → Prop :=
| m_none f : more f [] []
| m_some f ts e us es : argument f ts e → more f us es → more f (TokComma :: ts ++ us) (e :: es).

Scheme primary_mut := Induction for primary Sort Prop
with postfixed_mut := Induction for postfixed Sort Prop
with climbs_mut := Induction for climbs Sort Prop
with arguments_mut := Induction for arguments Sort Prop
with argument_mut := Induction for argument Sort Prop
with more_mut := Induction for more Sort Prop.
Combined Scheme grammar_ind from primary_mut, postfixed_mut, climbs_mut, arguments_mut, argument_mut,
  more_mut.

(** * Streams of tokens *)

(** The tokens that a lexer yields up to its end, and a parser. *)
Fixpoint lexes (it : Lexer) (ts : list Token) : Prop :=
  match ts with
  | [] => (lexer_next it).1 = None
  | t :: ts => (lexer_next it).1 = Some (Ok t) ∧ lexes (lexer_next it).2 ts
  end.
Definition feeds (p : Parser) (ts : list Token) : Prop :=
  match peeked p with
  | None => lexes (lexer p) ts
  | Some o =>
      match o, ts with
      | Some (Ok t), t' :: ts => t = t' ∧ lexes (lexer p) ts
      | None, [] => True
      | _, _ => False
      end
  end.

(** From the tokens [ts], [m] returns [a] and leaves [us]. *)
Definition takes {A} (m : M Parser A) (ts : list Token) (a : A) (us : list Token) : Prop :=
  ∀ p, feeds p ts → ∃ p', m p = (Ok a, p') ∧ feeds p' us.

Lemma takes_ret {A} (a : A) ts : takes (mret a) ts a ts.
Proof. intros p Hp. by exists p. Qed.
Lemma takes_bind {A B} (m : M Parser A) (f : A → M Parser B) ts a us b vs :
  takes m ts a us → takes (f a) us b vs → takes (m ≫= f) ts b vs.
Proof.
  intros Hm Hf p (p1 & E1 & H1)%Hm. destruct (Hf p1 H1) as (p2 & E2 & H2). exists p2. split; [|done].
  unfold mbind, M_bind. by rewrite E1.
Qed.

Lemma takes_next t ts : takes next (t :: ts) t ts.
Proof.
  intros [[o|] it] Hp; unfold feeds, next, take_token in *; cbn [peeked lexer] in *.
  - destruct o as [[t'| |]|]; try done. destruct Hp as [-> Hp]. eexists. split; [reflexivity|done].
  - destruct Hp as [Ht Hts]. destruct (lexer_next it) as [o it']. cbn [fst snd] in *. subst o.
    eexists. split; [reflexivity|done].
Qed.

Lemma takes_peek ts : takes peek ts (head ts) ts.
Proof.
  intros [[o|] it] Hp; unfold feeds, peek, lexer_peek in *; cbn [peeked lexer] in *.
  - destruct o as [[t'| |]|], ts; try done; [destruct Hp as [-> Hp]|]; eexists; (split; [reflexivity|done]).
  - destruct ts as [|t ts].
    + cbn [lexes] in Hp. destruct (lexer_next it) as [o it']. cbn [fst] in Hp. subst o. eexists. by split.
    + destruct Hp as [Ht Hts]. destruct (lexer_next it) as [o it']. cbn [fst snd] in *. subst o.
      eexists. by split.
Qed.
Lemma takes_peek_or_none ts : takes peek_or_none ts (head ts) ts.
Proof. intros p (p' & E & Hp')%(takes_peek ts). exists p'. unfold peek_or_none. by rewrite E. Qed.

(** A token that is taken when it is next, and one that is not there. *)
Lemma takes_expect t ts : takes (next_expect t) (t :: ts) t ts.
Proof. eapply takes_bind; [apply takes_next|]. rewrite decide_True by done. apply takes_ret. Qed.
Lemma takes_ident i ts : takes next_ident (TokIdent i :: ts) i ts.
Proof. eapply takes_bind; [apply takes_next|]. apply takes_ret. Qed.
Lemma takes_if t ts : takes (next_if_token t) (t :: ts) (Some t) ts.
Proof.
  eapply takes_bind; [apply takes_peek_or_none|]. cbn [head]. rewrite bool_decide_true by done.
  eapply takes_bind; [apply takes_next|apply takes_ret].
Qed.
Lemma takes_if_not t ts : head ts ≠ Some t → takes (next_if_token t) ts None ts.
Proof.
  intros Ht. eapply takes_bind; [apply takes_peek_or_none|].
  destruct (head ts) as [t'|]; [|apply takes_ret]. rewrite bool_decide_false by congruence. apply takes_ret.
Qed.
Lemma takes_kw k ts : takes (next_if_kw k) (TokKeyword k :: ts) true ts.
Proof. eapply takes_bind; [apply takes_if|apply takes_ret]. Qed.
Lemma takes_kw_not k ts : head ts ≠ Some (TokKeyword k) → takes (next_if_kw k) ts false ts.
Proof. intros Hk. eapply takes_bind; [by apply takes_if_not|apply takes_ret]. Qed.

(** The same for operators: [next_op ts] is the operator at the head. *)
Definition next_op {O} `{Operator O} (ts : list Token) : option O := head ts ≫= op_from.

Lemma takes_operator {O} `{Operator O} min t op op' ts us : op_from t = Some op → min <= op_prec op →
  takes (op_augment op) ts op' us → takes (next_if_operator min) (t :: ts) (Some op') us.
Proof.
  intros Ht Hp Ha. eapply takes_bind; [apply takes_peek_or_none|]. cbn [head mbind option_bind].
  rewrite Ht, (proj2 (N.leb_le _ _) Hp). eapply takes_bind; [apply takes_next|].
  eapply takes_bind; [exact Ha|apply takes_ret].
Qed.
Lemma takes_no_operator {O} `{Operator O} min ts :
  (∀ op : O, next_op ts = Some op → op_prec op < min) → takes (next_if_operator (O:=O) min) ts None ts.
Proof.
  intros Hop. eapply takes_bind; [apply takes_peek_or_none|]. unfold next_op in Hop.
  destruct (head ts ≫= op_from) as [op|]; [|apply takes_ret].
  rewrite (proj2 (N.leb_gt _ _)) by auto. apply takes_ret.
Qed.

(** * Loops and recursion, with enough fuel *)

Definition expr_takes (min : N) ts e us : Prop :=
  ∃ n, ∀ f, (n ≤ f)%nat → takes (parse_expression f min) ts e us.
Definition infix_takes (min : N) lhs ts e us : Prop :=
  ∃ n, ∀ f g, (n ≤ f)%nat → (n ≤ g)%nat → takes (infix_loop f (parse_expression g) min lhs) ts e us.
Definition tail_takes (min : N) lhs ts e us : Prop :=
  ∃ n, ∀ f f' g, (n ≤ f)%nat → (n ≤ f')%nat → (n ≤ g)%nat →
    takes (lhs ← postfix_loop f min lhs; infix_loop f' (parse_expression g) min lhs) ts e us.
Definition args_takes f args ts es us : Prop :=
  ∃ n, ∀ k g, (n ≤ k)%nat → (n ≤ g)%nat → takes (parse_args k (parse_expression g 0) f args) ts es us.

Lemma infix_stops min lhs ts : (∀ op : InfixOperator, next_op ts = Some op → op_prec op < min) →
  infix_takes min lhs ts lhs ts.
Proof.
  intros Hop. exists 1%nat. intros [|f] g Hf _; [lia|]. cbn [infix_loop].
  eapply takes_bind; [by apply takes_no_operator|apply takes_ret].
Qed.

Lemma infix_steps min lhs t op ts rhs us e vs : op_from t = Some op → min <= op_prec op →
  expr_takes (right_prec op) ts rhs us → infix_takes min (build_infix op lhs rhs) us e vs →
  infix_takes min lhs (t :: ts) e vs.
Proof.
  intros Ht Hp [n Hr] [m Hl]. exists (S (n `max` m)). intros [|f] g Hf Hg; [lia|]. cbn [infix_loop].
  eapply takes_bind; [by eapply takes_operator; [done|done|apply takes_ret]|]. cbn iota beta.
  eapply takes_bind; [apply Hr; lia|]. apply Hl; lia.
Qed.

Lemma tail_stops min lhs ts e us : (∀ op : PostfixOperator, next_op ts = Some op → op_prec op < min) →
  infix_takes min lhs ts e us → tail_takes min lhs ts e us.
Proof.
  intros Hop [n Hi]. exists (S n). intros [|f] f' g Hf Hf' Hg; [lia|]. cbn [postfix_loop].
  eapply takes_bind; [|apply Hi; lia].
  eapply takes_bind; [by apply takes_no_operator|apply takes_ret].
Qed.

Lemma takes_bind_assoc {A B C} (m : M Parser A) (f : A → M Parser B) (g : B → M Parser C) ts c us :
  takes (m ≫= λ a, f a ≫= g) ts c us → takes ((m ≫= f) ≫= g) ts c us.
Proof.
  intros Hm p Hp. destruct (Hm p Hp) as (p' & E & Hp'). exists p'. split; [|done]. rewrite <-E.
  unfold mbind, M_bind. by destruct (m p) as [[a| |] p1].
Qed.

Lemma tail_steps min lhs xs op ts e us : postfix xs op → min <= 8 →
  tail_takes min (build_postfix op lhs) ts e us → tail_takes min lhs (xs ++ ts) e us.
Proof.
  intros Hx Hp [n Ht]. exists (S n). intros [|f] f' g Hf Hf' Hg; [lia|]. cbn [postfix_loop].
  apply takes_bind_assoc. eapply (takes_bind _ _ _ (Some op)); [|apply (Ht f f' g); lia].
  destruct Hx; cbn [app]; (eapply takes_operator; [reflexivity|done|]); cbn [op_augment postfix_operator].
  - apply takes_ret.
  - eapply takes_bind; [by apply takes_kw_not|]. eapply takes_bind; [apply takes_expect|apply takes_ret].
  - eapply takes_bind; [apply takes_kw|]. eapply takes_bind; [apply takes_expect|apply takes_ret].
Qed.

(** An expression that begins with an atom, and with a prefix operator. *)
Lemma expr_atom min ts e us b vs : next_op (O:=PrefixOperator) ts = None →
  (∃ n, ∀ f, (n ≤ f)%nat → takes (parse_expression_atom f (parse_expression f 0)) ts e us) →
  tail_takes min e us b vs → expr_takes min ts b vs.
Proof.
  intros Hop [n Ha] [m Ht]. exists (S (n `max` m)). intros [|f] Hf; [lia|]. cbn [parse_expression].
  eapply takes_bind; [apply takes_no_operator; by rewrite Hop|].
  eapply takes_bind; [apply Ha; lia|apply Ht; lia].
Qed.
Lemma expr_prefix min t op ts e us b vs : min <= 9 → op_from t = Some op → expr_takes 9 ts e us →
  tail_takes min (build_prefix op e) us b vs → expr_takes min (t :: ts) b vs.
Proof.
  intros Hp Ht [n He] [m Htail]. exists (S (n `max` m)). intros [|f] Hf; [lia|]. cbn [parse_expression].
  eapply takes_bind; [by eapply takes_operator; [done|done|apply takes_ret]|]. cbn iota beta.
  eapply takes_bind; [|apply Htail; lia].
  eapply takes_bind; [apply He; lia|apply takes_ret].
Qed.

(** ** What an expression begins with and what may follow it *)

Definition starts (t : Token) : bool :=
  match t with
  | TokNumber _ | TokString _ | TokIdent _ | TokOpenParen | TokMinus | TokPlus => true
  | TokKeyword (KwFalse | KwTrue | KwInfinity | KwNaN | KwNull | KwNot) => true
  | _ => false
  end.
Definition started (ts : list Token) : Prop := ∃ t us, ts = t :: us ∧ starts t = true.

Lemma started_app ts us : started ts → started (ts ++ us).
Proof. intros (t & vs & -> & Ht). by exists t, (vs ++ us). Qed.

Lemma climbs_started p ts e : climbs p ts e → started ts.
Proof.
  cut ((∀ ts e, primary ts e → started ts) ∧ (∀ ts e, postfixed ts e → started ts) ∧
    (∀ p ts e, climbs p ts e → started ts) ∧ (∀ f ts es, arguments f ts es → True) ∧
    (∀ f ts e, argument f ts e → True) ∧ (∀ f ts es, more f ts es → True)); [intros (_ & _ & Hc & _); eauto|].
  apply grammar_ind; auto using started_app.
  - intros t l Hl. exists t, []. by destruct Hl.
  - intros i. by exists (TokIdent i), [].
  - intros i j. by eexists _, _.
  - intros ts' e' _ _. by eexists _, _.
  - intros f ts' es _ _. by eexists _, _.
  - intros t op ts' e' Ht _ _. exists t, ts'. split; [done|].
    destruct t as [| | |k| | | | | | | | | | | | | | | | | | | |]; try done. by destruct k.
Qed.

(** A name is not followed by a parenthesis or a period, an operand not by a
    postfix operator. *)
Record follow (rest : list Token) : Prop := {
  fo_paren : head rest ≠ Some TokOpenParen;
  fo_period : head rest ≠ Some TokPeriod;
  fo_postfix : next_op (O:=PostfixOperator) rest = None
}.
Definition follow_atom (rest : list Token) : Prop :=
  head rest ≠ Some TokOpenParen ∧ head rest ≠ Some TokPeriod.

(** An expression of precedence [p] is followed by an operator of a lower
    precedence, or of the same one when that associates to the left. *)
Definition follow_infix (p : N) (rest : list Token) : Prop :=
  ∀ op : InfixOperator, next_op rest = Some op →
    op_prec op < p ∨ op_prec op = p ∧ op_assoc op = ASSOC_LEFT.

Lemma infix_follow t op ts : op_from t = Some op → follow (t :: ts) ∧ follow_infix (left_prec op) (t :: ts).
Proof.
  intros Ht. split.
  - destruct t as [| | |k| | | | | | | | | | | | | | | | | | | |]; try done. by destruct k.
  - intros op'. unfold next_op. cbn [head mbind option_bind]. rewrite Ht. intros [= <-].
    unfold left_prec. destruct op; first [by left | by right].
Qed.
Lemma postfix_follow xs op ts : postfix xs op → follow_atom (xs ++ ts).
Proof. by intros []. Qed.

(** The right operand is read up to what follows. *)
Lemma right_follow p op rest : p <= op_prec op → follow_infix p rest →
  follow_infix (right_prec op) rest ∧ ∀ op', next_op rest = Some op' → op_prec op' < right_prec op.
Proof.
  intros Hp Hf. cut (∀ op', next_op rest = Some op' → op_prec op' < right_prec op).
  { intros Hlt. split; [|done]. intros op' Hop. left. auto. }
  intros op' Hop. destruct (Hf op' Hop) as [Hlt|[Heq Ha]]; unfold right_prec; [lia|].
  subst p. destruct op, op'; cbn in *; try lia; done.
Qed.

(** ** The parser reads the grammar *)

(** The step of [parse_args] after the comma. *)
Definition arg_takes f args ts es us : Prop :=
  ∃ n, ∀ k g, (n ≤ k)%nat → (n ≤ g)%nat →
    takes (star ← (if bool_decide (f = str (text "count")) then next_if_token TokAsterisk else mret None);
           if is_some star then parse_args k (parse_expression g 0) f (args ++ [ALiteral (LBoolean true)])
           else e ← parse_expression g 0; parse_args k (parse_expression g 0) f (args ++ [e])) ts es us.

(** An argument is followed by a comma or a closing parenthesis. *)
Definition follow_arg (rest : list Token) : Prop :=
  head rest = Some TokComma ∨ head rest = Some TokCloseParen.
Lemma follow_arg_follow rest : follow_arg rest → follow rest ∧ next_op (O:=InfixOperator) rest = None.
Proof. unfold next_op. intros [Hr|Hr]; (split; [split|]); unfold next_op; by rewrite Hr. Qed.
Lemma more_follow f us es rest : more f us es → follow_arg (us ++ TokCloseParen :: rest).
Proof. intros []; [by right|by left]. Qed.

Lemma argument_started f ts e : argument f ts e → head ts ≠ Some TokCloseParen ∧ ts ≠ [].
Proof. intros [f' ts' e' (t & us & -> & Ht)%climbs_started|]; [|done]. split; [|done]. by intros [= ->]. Qed.

Lemma literal_takes f x t l ts : literal t l → takes (parse_expression_atom f x) (t :: ts) (ALiteral l) ts.
Proof.
  intros Hl. eapply takes_bind; [apply takes_next|]. destruct Hl as [n i Hd Hi|n v Hd Hv| | | | | |];
    try apply takes_ret; rewrite Hd; [rewrite Hi|rewrite Hv]; (eapply takes_bind; [|apply takes_ret]);
    intros p Hp; by exists p.
Qed.

Lemma args_end f args rest : args_takes f args (TokCloseParen :: rest) args rest.
Proof.
  exists 1%nat. intros [|k] g Hk _; [lia|]. cbn [parse_args].
  eapply takes_bind; [apply takes_if|]. apply takes_ret.
Qed.

Lemma args_first f ts es us : head ts ≠ Some TokCloseParen → arg_takes f [] ts es us →
  args_takes f [] ts es us.
Proof.
  intros Hts [n Ha]. exists (S n). intros [|k] g Hk Hg; [lia|]. cbn [parse_args].
  eapply takes_bind; [by apply takes_if_not|]. cbn [is_some].
  eapply takes_bind; [apply takes_ret|]. apply Ha; lia.
Qed.
Lemma args_more f args ts es us : args ≠ [] → arg_takes f args ts es us →
  args_takes f args (TokComma :: ts) es us.
Proof.
  intros Hargs [n Ha]. exists (S n). intros [|k] g Hk Hg; [lia|]. cbn [parse_args].
  eapply takes_bind; [by apply takes_if_not|]. cbn [is_some].
  eapply takes_bind; [|apply Ha; lia]. destruct args; [done|].
  eapply takes_bind; [apply takes_expect|apply takes_ret].
Qed.

Lemma arg_expression f args ts e us es vs : started ts → expr_takes 0 ts e us →
  args_takes f (args ++ [e]) us es vs → arg_takes f args ts es vs.
Proof.
  intros (t & ts' & -> & Ht) [n He] [m Ha]. exists (Nat.max n m). intros k g Hk Hg.
  eapply takes_bind.
  { case_bool_decide; [|apply takes_ret]. apply takes_if_not. cbn. by intros [= ->]. }
  cbn [is_some]. eapply takes_bind; [apply He; lia|apply Ha; lia].
Qed.
Lemma arg_star args us es vs :
  args_takes (str (text "count")) (args ++ [ALiteral (LBoolean true)]) us es vs →
  arg_takes (str (text "count")) args (TokAsterisk :: us) es vs.
Proof.
  intros [m Ha]. exists m. intros k g Hk Hg. rewrite bool_decide_true by done.
  eapply takes_bind; [apply takes_if|]. cbn [is_some]. apply Ha; lia.
Qed.

Definition reads_primary ts e : Prop := ∀ min rest b us, min <= 9 → follow_atom rest →
  tail_takes min e rest b us → expr_takes min (ts ++ rest) b us.
Definition reads_postfixed ts e : Prop := ∀ min rest b us, min <= 8 → follow_atom rest →
  tail_takes min e rest b us → expr_takes min (ts ++ rest) b us.
Definition reads_climbs p ts e : Prop := ∀ min rest b us, min <= p → min <= 8 → follow rest →
  follow_infix p rest → infix_takes min e rest b us → expr_takes min (ts ++ rest) b us.

(** An expression that is read to its end. *)
Lemma reads_end p ts e rest : reads_climbs p ts e → p <= 8 → follow rest →
  (∀ op : InfixOperator, next_op rest = Some op → op_prec op < p) → expr_takes p (ts ++ rest) e rest.
Proof.
  intros Hr Hp Hf Hi. apply Hr; [done..| |by apply infix_stops]. intros op Hop. left. auto.
Qed.

Lemma paren_takes min ts e rest b us : reads_climbs 0 ts e → tail_takes min e rest b us →
  expr_takes min (TokOpenParen :: (ts ++ [TokCloseParen]) ++ rest) b us.
Proof.
  intros He. apply expr_atom; [done|]. rewrite <-(assoc_L (++)).
  destruct (reads_end 0 ts e (TokCloseParen :: rest) He) as [n Hn]; [done..|].
  exists n. intros f Hf. eapply takes_bind; [apply takes_next|]. cbn iota beta.
  eapply takes_bind; [by apply Hn|]. eapply takes_bind; [apply takes_expect|apply takes_ret].
Qed.

Lemma field_takes min i rest b us : follow_atom rest → tail_takes min (AField None i) rest b us →
  expr_takes min (TokIdent i :: rest) b us.
Proof.
  intros [Hp Hd]. apply expr_atom; [done|]. exists 0%nat. intros f _.
  eapply takes_bind; [apply takes_next|]. cbn iota beta. eapply takes_bind; [by apply takes_if_not|].
  eapply takes_bind; [by apply takes_if_not|]. apply takes_ret.
Qed.
Lemma qualified_takes min i j rest b us : tail_takes min (AField (Some i) j) rest b us →
  expr_takes min (TokIdent i :: TokPeriod :: TokIdent j :: rest) b us.
Proof.
  apply expr_atom; [done|]. exists 0%nat. intros f _.
  eapply takes_bind; [apply takes_next|]. cbn iota beta. eapply takes_bind; [by apply takes_if_not|].
  eapply takes_bind; [apply takes_if|]. eapply takes_bind; [apply takes_ident|]. apply takes_ret.
Qed.
Lemma function_takes min f ts es rest b us : args_takes f [] (ts ++ TokCloseParen :: rest) es rest →
  tail_takes min (AFunction f es) rest b us →
  expr_takes min (TokIdent f :: TokOpenParen :: (ts ++ [TokCloseParen]) ++ rest) b us.
Proof.
  intros [n Ha]. apply expr_atom; [done|]. rewrite <-(assoc_L (++)). exists n. intros k Hk.
  eapply takes_bind; [apply takes_next|]. cbn iota beta. eapply takes_bind; [apply takes_if|].
  eapply takes_bind; [by apply Ha|]. apply takes_ret.
Qed.

Lemma prefix_reads t op ts e : op_from t = Some op → reads_primary ts e →
  reads_primary (t :: ts) (build_prefix op e).
Proof.
  intros Ht He min rest b us Hmin Hf Htail. eapply expr_prefix; [done..| |exact Htail].
  apply He; [done..|]. apply tail_stops; [by intros []|]. apply infix_stops.
  intros op' _. by destruct op'.
Qed.

Lemma infix_reads p ls l t op rs r : p <= op_prec op → op_from t = Some op →
  reads_climbs (left_prec op) ls l → reads_climbs (right_prec op) rs r →
  reads_climbs p (ls ++ t :: rs) (build_infix op l r).
Proof.
  intros Hp Ht Hl Hr min rest b us Hmin Hmin8 Hf Hi Htakes. rewrite <-(assoc_L (++)). cbn [app].
  destruct (infix_follow t op (rs ++ rest) Ht) as [Hft Hit].
  assert (right_prec op <= 8) as Hr8 by (by destruct op).
  apply Hl; [unfold left_prec; lia|done..|].
  destruct (right_follow p op rest Hp Hi) as [_ Hlt].
  eapply infix_steps; [done|lia|by apply reads_end|done].
Qed.

(** Every expression of the grammar is read as its tree. *)
Theorem grammar_read :
  (∀ ts e, primary ts e → reads_primary ts e) ∧ (∀ ts e, postfixed ts e → reads_postfixed ts e) ∧
  (∀ p ts e, climbs p ts e → reads_climbs p ts e) ∧
  (∀ f ts es, arguments f ts es → ∀ rest, args_takes f [] (ts ++ TokCloseParen :: rest) es rest) ∧
  (∀ f ts e, argument f ts e → ∀ args rest es us, follow_arg rest →
     args_takes f (args ++ [e]) rest es us → arg_takes f args (ts ++ rest) es us) ∧
  (∀ f us es, more f us es → ∀ args rest, args ≠ [] →
     args_takes f args (us ++ TokCloseParen :: rest) (args ++ es) rest).
Proof.
  apply grammar_ind.
  - intros t l Hl min rest b us _ _. apply expr_atom; [by destruct Hl|].
    exists 0%nat. intros f _. by apply literal_takes.
  - intros i min rest b us _ Hf. by apply field_takes.
  - intros i j min rest b us _ Hf. apply qualified_takes.
  - intros ts e _ He min rest b us _ _. by apply paren_takes.
  - intros f ts es _ Hes min rest b us _ _. by apply function_takes.
  - intros t op ts e Ht _ He. by apply prefix_reads.
  - intros ts e _ He min rest b us Hmin. apply He. lia.
  - intros ts e xs op _ He Hx min rest b us Hmin Hf Ht. rewrite <-(assoc_L (++)).
    apply He; [done|by eapply postfix_follow|by eapply tail_steps].
  - intros p ts e _ He min rest b us _ Hmin [Hp Hd Hx] _ Hi. apply He; [done..|].
    apply tail_stops; [|done]. by rewrite Hx.
  - intros p ls l t op rs r Hp Ht _ Hl _ Hr. by apply infix_reads.
  - intros f rest. apply args_end.
  - intros f ts e us es Ha IHa Hm IHm rest. rewrite <-(assoc_L (++)).
    destruct (argument_started f ts e Ha) as [Hhead Hne]. apply args_first; [by destruct ts|].
    apply IHa; [by eapply more_follow|]. by apply IHm.
  - intros f ts e He IH args rest es us Hf Ha.
    destruct (follow_arg_follow rest Hf) as [Hf1 Hf2].
    eapply arg_expression; [by eapply started_app, climbs_started| |done].
    apply reads_end; [done..|]. by rewrite Hf2.
  - intros args rest es us _ Ha. by apply arg_star.
  - intros f args rest Hargs. rewrite app_nil_r. apply args_end.
  - intros f ts e us es Ha IHa Hm IHm args rest Hargs. cbn [app]. rewrite <-(assoc_L (++)).
    apply args_more; [done|]. apply IHa; [by eapply more_follow|].
    replace (args ++ e :: es) with ((args ++ [e]) ++ es) by (by rewrite <-(assoc_L (++))).
    apply IHm. by destruct args.
Qed.

Lemma expression_read ts e rest : climbs 0 ts e → follow rest → next_op (O:=InfixOperator) rest = None →
  expr_takes 0 (ts ++ rest) e rest.
Proof.
  intros Hc Hf Hi. apply reads_end; [by apply grammar_read|done..|]. by rewrite Hi.
Qed.
End grammar.
