(* ===== verification/SqlPrint.v ===== *)
(** Text for tokens and tokens for syntax trees: the lexer reads the text of
    tokens back, and the tokens that are printed for an expression are in the
    grammar.  More fuel never changes what the parser returns. *)
From Stdlib Require Import Strings.Byte Strings.Ascii Strings.String NArith ZArith Lia
  Floats.SpecFloat.
From stdpp Require Import base list strings.
From S2P Require Import Prelude KeyCode Engine SqlTypes SqlAst SqlLexer SqlParser SqlLexSpec.
From S2P Require Import SqlPlanner SqlPlanSafe SqlParserSpec SqlGrammar.

Open Scope N_scope.

(** * Fuel *)

(** [m'] returns what [m] returns, unless [m] panics. *)
Definition approx {A} (m m' : M Parser A) : Prop := ∀ p, (∃ w p', m p = (Panic w, p')) ∨ m p = m' p.

Lemma approx_refl {A} (m : M Parser A) : approx m m.
Proof. intros p. by right. Qed.
Lemma approx_panic {A} w (m : M Parser A) : approx (lift (Panic w)) m.
Proof. intros p. left. by eexists _, _. Qed.
Lemma approx_bind {A B} (m m' : M Parser A) (f f' : A → M Parser B) :
  approx m m' → (∀ a, approx (f a) (f' a)) → approx (m ≫= f) (m' ≫= f').
Proof.
  intros Hm Hf p. unfold mbind, M_bind. destruct (Hm p) as [(w & p' & ->)| ->]; [by left; eexists _, _|].
  destruct (m' p) as [[a| |] p1]; [apply Hf|by right..].
Qed.
#[local] Hint Resolve approx_refl approx_panic : core.
(** A computation with the same first call. *)
Ltac same := apply approx_bind; [apply approx_refl|].

Section fuel.
Context `{Unicode}.

Lemma parse_args_approx k k' x x' f args : (k ≤ k')%nat → approx x x' →
  approx (parse_args k x f args) (parse_args k' x' f args).
Proof.
  intros Hk Hx. revert k' args Hk. induction k as [|k IH]; intros k' args Hk; [apply approx_panic|].
  destruct k' as [|k']; [lia|].
  cbn [parse_args]. same. intros close. destruct (is_some close); [done|]. same. intros _. same.
  intros star. destruct (is_some star); [apply IH; lia|]. apply approx_bind; [done|]. intros e. apply IH. lia.
Qed.

Lemma atom_approx k k' x x' : (k ≤ k')%nat → approx x x' →
  approx (parse_expression_atom k x) (parse_expression_atom k' x').
Proof.
  intros Hk Hx. unfold parse_expression_atom. same. intros t.
  destruct t; try done.
  - same. intros open. destruct (is_some open); [|done].
    apply approx_bind; [by apply parse_args_approx|done].
  - by apply approx_bind.
Qed.

Lemma postfix_loop_approx k k' min e : (k ≤ k')%nat → approx (postfix_loop k min e) (postfix_loop k' min e).
Proof.
  revert k' e. induction k as [|k IH]; intros k' e Hk; [apply approx_panic|].
  destruct k' as [|k']; [lia|].
  cbn [postfix_loop]. same. intros [op|]; [apply IH; lia|done].
Qed.
Lemma infix_loop_approx k k' x x' min e : (k ≤ k')%nat → (∀ p, approx (x p) (x' p)) →
  approx (infix_loop k x min e) (infix_loop k' x' min e).
Proof.
  intros Hk Hx. revert k' e Hk. induction k as [|k IH]; intros k' e Hk; [apply approx_panic|].
  destruct k' as [|k']; [lia|].
  cbn [infix_loop]. same. intros [op|]; [|done]. apply approx_bind; [done|]. intros rhs. apply IH. lia.
Qed.

Lemma parse_expression_approx k k' min : (k ≤ k')%nat →
  approx (parse_expression k min) (parse_expression k' min).
Proof.
  revert k' min. induction k as [|k IH]; intros k' min Hk; [apply approx_panic|].
  destruct k' as [|k']; [lia|].
  cbn [parse_expression]. same. intros prefix. apply approx_bind.
  - destruct prefix; [apply approx_bind; [apply IH; lia|done]|].
    apply atom_approx; [lia|apply IH; lia].
  - intros lhs. apply approx_bind; [apply postfix_loop_approx; lia|]. intros e.
    apply infix_loop_approx; [lia|]. intros p. apply IH. lia.
Qed.
End fuel.

(** * The text of tokens *)

Definition double (q : char) (cs : list char) : list char :=
  cs ≫= λ c, if c =? q then [q; q] else [c].

(** Names are quoted, so that any string is one. *)
Definition print_token (t : Token) : list char :=
  match t with
  | TokString s => ch "'" :: double (ch "'") (chars s) ++ [ch "'"]
  | TokIdent s => 34 :: double 34 (chars s) ++ [34]
  | t => show_token t
  end.

(** Tokens with a space after each. *)
Definition print_tokens (ts : list Token) : list char := ts ≫= λ t, print_token t ++ [32].

(** The tokens that have a text: numbers are digits here. *)
Definition token_text (t : Token) : Prop :=
  match t with
  | TokNumber n => ∃ ds, n = str ds ∧ ds ≠ [] ∧ Forall (λ c, is_ascii_digit c = true) ds
  | TokString s | TokIdent s => utf8_valid s = true
  | _ => True
  end.

Lemma next_while_stops P cs c it : Forall (λ c, P c = true) cs → P c = false →
  next_while P (cs ++ c :: it) = (cs, c :: it).
Proof.
  intros Hcs Hc. induction Hcs as [|x cs Hx Hcs IH]; cbn [app next_while]; [by rewrite Hc|].
  by rewrite Hx, IH.
Qed.

Lemma quoted_double q cs sep it : q ≠ sep → quoted q (double q cs ++ q :: sep :: it) = Some (cs, sep :: it).
Proof.
  intros Hq. assert ((sep =? q) = false) as Hsep by (by apply N.eqb_neq).
  induction cs as [|c cs IH].
  { change (double q []) with (@nil char). cbn [app quoted]. by rewrite N.eqb_refl, Hsep. }
  change (double q (c :: cs)) with ((if c =? q then [q; q] else [c]) ++ double q cs).
  destruct (N.eqb_spec c q) as [->|Hc]; cbn [app quoted].
  - by rewrite N.eqb_refl, IH.
  - by rewrite (proj2 (N.eqb_neq c q) Hc), IH.
Qed.

(** What may follow the text of a token: a space, the end of a line, a comma, or
    a closing parenthesis. *)
Definition separates (sep : char) : Prop := sep = 32 ∨ sep = 10 ∨ sep = 44 ∨ sep = 41.

Section lexing.
Context `{UnicodeLaws}.

(** A space before a token is skipped. *)
Lemma lexer_next_space it : lexer_next (32 :: it) = lexer_next it.
Proof.
  unfold lexer_next, scan_token, consume_whitespace. cbn [next_while].
  rewrite whitespace_ascii by done. cbn. by destruct (next_while is_whitespace it).
Qed.

Lemma scan_at c it : is_ascii c → ascii_space c = false →
  scan_token (c :: it) = if c =? ch "'" then scan_string (c :: it)
    else if c =? 34 then scan_ident_quoted (c :: it)
    else if is_ascii_digit c then let '(t, it) := scan_number (c :: it) in (Ok t, it)
    else if ascii_upper c || ascii_lower c then let '(t, it) := scan_ident (c :: it) in (Ok t, it)
    else let '(t, it) := scan_symbol (c :: it) in (Ok t, it).
Proof.
  intros Hc Hs. unfold scan_token, consume_whitespace. cbn [next_while].
  rewrite whitespace_ascii, Hs by done. cbn [snd peek_char head]. by rewrite alphabetic_ascii.
Qed.

Lemma lex_number ds sep it : separates sep → ds ≠ [] → Forall (λ c, is_ascii_digit c = true) ds →
  scan_number (ds ++ sep :: it) = (Some (TokNumber (str ds)), sep :: it).
Proof.
  intros Hsep Hne Hds. unfold scan_number. rewrite next_while_stops; [|done|by destruct Hsep as [->|[->|[->| ->]]]].
  destruct ds; [done|].
  assert (scan_fraction (sep :: it) = (@nil char, sep :: it)) as -> by (by destruct Hsep as [->|[->|[->| ->]]]).
  assert (scan_exponent (sep :: it) = (@nil char, sep :: it)) as -> by (by destruct Hsep as [->|[->|[->| ->]]]).
  by rewrite !app_nil_r.
Qed.

Lemma digit_char c : is_ascii_digit c = true →
  is_ascii c ∧ ascii_space c = false ∧ (c =? ch "'") = false ∧ (c =? 34) = false.
Proof.
  unfold is_ascii_digit, is_ascii, ascii_space. intros [?%N.leb_le ?%N.leb_le]%andb_true_iff.
  split_and!; [lia|..]; rewrite ?orb_false_iff, ?andb_false_iff, ?N.eqb_neq, ?N.leb_gt; change (ch "'") with 39; lia.
Qed.

(** The letters of a keyword. *)
Lemma upper_char c : ascii_upper c = true →
  is_ascii c ∧ ascii_space c = false ∧ (c =? ch "'") = false ∧ (c =? 34) = false ∧ is_ascii_digit c = false.
Proof.
  unfold ascii_upper, is_ascii, ascii_space, is_ascii_digit. intros [?%N.leb_le ?%N.leb_le]%andb_true_iff.
  split_and!; [lia|..]; rewrite ?orb_false_iff, ?andb_false_iff, ?N.eqb_neq, ?N.leb_gt;
    change (ch "'") with 39; lia.
Qed.

Lemma separates_word sep : separates sep → is_alphanumeric sep || (sep =? ch "_") = false.
Proof.
  intros Hsep. unfold is_alphanumeric. rewrite alphabetic_ascii, numeric_ascii;
    destruct Hsep as [->|[->|[->| ->]]]; done.
Qed.
Lemma lex_word k c cs sep it : separates sep → Forall (λ c, ascii_upper c = true) (c :: cs) →
  from_str (c :: cs) = Some k → scan_token (c :: cs ++ sep :: it) = (Ok (Some (TokKeyword k)), sep :: it).
Proof.
  intros Hsep [Hc Hcs]%Forall_cons Hk. destruct (upper_char c Hc) as (Ha & Hs & H1 & H2 & H3).
  rewrite scan_at, H1, H2, H3, Hc by done. cbn [orb]. unfold scan_ident. cbn [next_if_char].
  rewrite alphabetic_ascii, Hc by done. cbn [orb]. rewrite next_while_stops; [by rewrite Hk|..].
  - eapply Forall_impl; [exact Hcs|]. intros x Hx. destruct (upper_char x Hx) as (Hxa & _).
    unfold is_alphanumeric. by rewrite alphabetic_ascii, Hx.
  - by apply separates_word.
Qed.

Lemma lex_keyword k sep it : separates sep →
  scan_token (text (to_str k) ++ sep :: it) = (Ok (Some (TokKeyword k)), sep :: it).
Proof.
  intros Hsep. destruct k; (apply lex_word; [done|by repeat constructor|]);
    unfold from_str; (rewrite uppercase_ascii; [reflexivity|by repeat constructor]).
Qed.

(** Each token is read back from its text. *)
Lemma lex_token t sep it : separates sep → token_text t →
  lexer_next (print_token t ++ sep :: it) = (Some (Ok t), sep :: it).
Proof.
  intros Hsep Ht. unfold lexer_next. assert (ch "'" ≠ sep ∧ 34 ≠ sep) as [Hq Hq'] by (by destruct Hsep as [->|[->|[->| ->]]]).
  assert (scan_token (print_token t ++ sep :: it) = (Ok (Some t), sep :: it)) as ->; [|done].
  destruct t as [n|s|s|k| | | | | | | | | | | | | | | | | | | |]; cbn [print_token];
    try (cbn [show_token text list_ascii_of_string fmap list_fmap app];
         rewrite scan_at by done; by destruct Hsep as [->|[->|[->| ->]]]).
  - destruct Ht as (ds & -> & Hne & Hds). cbn [show_token]. rewrite chars_str.
    2:{ eapply Forall_impl; [exact Hds|]. intros c Hc. destruct (digit_char c Hc). left. unfold is_ascii in *. lia. }
    destruct ds as [|d ds]; [done|]. pose proof (Forall_inv Hds) as Hd.
    destruct (digit_char d Hd) as (Ha & Hs & H1 & H2). cbn [app]. rewrite scan_at, H1, H2, Hd by done.
    change (d :: ds ++ sep :: it) with ((d :: ds) ++ sep :: it). by rewrite lex_number.
  - cbn [app]. rewrite scan_at by done. rewrite <-(assoc_L (++)). cbn [app N.eqb Pos.eqb].
    change (scan_string (ch "'" :: double (ch "'") (chars s) ++ ch "'" :: sep :: it)) with
      (match quoted (ch "'") (double (ch "'") (chars s) ++ ch "'" :: sep :: it) with
       | Some (s, it) => (Ok (Some (TokString (str s))), it)
       | None => (Err (EParse (Msg "Unexpected end of string literal" [])), [])
       end).
    by rewrite quoted_double, str_chars.
  - cbn [app]. rewrite scan_at by done. rewrite <-(assoc_L (++)). cbn [app N.eqb Pos.eqb].
    change (scan_ident_quoted (34 :: double 34 (chars s) ++ 34 :: sep :: it)) with
      (match quoted 34 (double 34 (chars s) ++ 34 :: sep :: it) with
       | Some (s, it) => (Ok (Some (TokIdent (str s))), it)
       | None => (Err (EParse (Msg "Unexpected end of quoted identifier" [])), [])
       end).
    by rewrite quoted_double, str_chars.
  - by apply lex_keyword.
Qed.

Lemma lex_end : lexer_next [32] = (None, []).
Proof. by rewrite lexer_next_space. Qed.

Lemma lexes_space it ts : lexes it ts → lexes (32 :: it) ts.
Proof. destruct ts; cbn [lexes]; by rewrite lexer_next_space. Qed.

Lemma print_tokens_lexes ts : Forall token_text ts → lexes (print_tokens ts) ts.
Proof.
  induction 1 as [|t ts Ht Hts IH]; [done|].
  change (print_tokens (t :: ts)) with ((print_token t ++ [32]) ++ print_tokens ts).
  rewrite <-(assoc_L (++)). cbn [app lexes]. rewrite lex_token by (by left || done). split; [done|]. by apply lexes_space.
Qed.
End lexing.

(** * The tokens of expressions *)

(** Decimal digits. *)
Fixpoint digits (fuel : nat) (n : N) : list char :=
  match fuel with
  | O => []
  | S fuel => if n <? 10 then [48 + n] else digits fuel (n / 10) ++ [48 + n mod 10]
  end.

Lemma parse_digits_snoc limit ds d acc :
  parse_digits limit (ds ++ [d]) acc = (a ← parse_digits limit ds acc; parse_digits limit [d] a).
Proof.
  revert acc. induction ds as [|c ds IH]; intros acc; [done|]. cbn [app parse_digits].
  destruct (is_ascii_digit c); [|done]. destruct (_ <=? limit); [apply IH|done].
Qed.
Lemma digit_spec d : d < 10 → is_ascii_digit (48 + d) = true ∧ 48 + d - 48 = d.
Proof. unfold is_ascii_digit. intros Hd. rewrite andb_true_iff, !N.leb_le. lia. Qed.

Lemma digits_spec limit fuel n : n < 10 ^ N.of_nat fuel → n <= limit →
  parse_digits limit (digits fuel n) 0 = Ok n ∧ Forall (λ c, is_ascii_digit c = true) (digits fuel n) ∧
  (fuel ≠ O → digits fuel n ≠ []).
Proof.
  revert n. induction fuel as [|fuel IH]; intros n Hn Hl; [cbn in *; split_and!; [f_equal; lia|done..]|].
  rewrite Nat2N.inj_succ, N.pow_succ_r in Hn by lia. cbn [digits]. destruct (N.ltb_spec n 10) as [Hs|Hs].
  - destruct (digit_spec n Hs) as [Hd E]. cbn [parse_digits]. rewrite Hd, E, N.mul_0_l, N.add_0_l.
    rewrite (proj2 (N.leb_le _ _) Hl). split_and!; [done|by repeat constructor|done].
  - assert (n mod 10 < 10) as Hm by (by apply N.mod_lt). destruct (digit_spec _ Hm) as [Hd E].
    assert (n = n / 10 * 10 + n mod 10) as Hdiv by (rewrite N.mul_comm; by apply N.div_mod).
    destruct (IH (n / 10)) as (IHp & IHd & _); [nia|nia|].
    rewrite parse_digits_snoc, IHp. cbn [mbind res_bind parse_digits]. rewrite Hd, E, <-Hdiv.
    rewrite (proj2 (N.leb_le _ _) Hl). split_and!; [done| |by destruct (digits fuel (n / 10))].
    apply Forall_app. split; [done|by constructor].
Qed.

Definition print_literal (l : Literal) : option (list Token) :=
  match l with
  | LNull => Some [TokKeyword KwNull]
  | LBoolean b => Some [TokKeyword (if b then KwTrue else KwFalse)]
  | LInteger i =>
      if ((0 <=? i) && (i <=? i64_max))%Z then Some [TokNumber (str (digits 20 (Z.to_N i)))] else None
  | LFloat (S754_infinity false) => Some [TokKeyword KwInfinity]
  | LFloat S754_nan => Some [TokKeyword KwNaN]
  | LFloat _ => None
  | LString s => if utf8_valid s then Some [TokString s] else None
  end.

Definition print_name (n : bytes) : option Token := if utf8_valid n then Some (TokIdent n) else None.

Definition infix_token (op : InfixOperator) : Token :=
  match op with
  | IAdd => TokPlus | IAnd => TokKeyword KwAnd | IDivide => TokSlash | IEqual => TokEqual
  | IExponentiate => TokCaret | IGreaterThan => TokGreaterThan
  | IGreaterThanOrEqual => TokGreaterThanOrEqual | ILessThan => TokLessThan
  | ILessThanOrEqual => TokLessThanOrEqual | ILike => TokKeyword KwLike | IModulo => TokPercent
  | IMultiply => TokAsterisk | INotEqual => TokNotEqual | IOr => TokKeyword KwOr
  | ISubtract => TokMinus
  end.

Definition paren (b : bool) (ts : list Token) : list Token :=
  if b then TokOpenParen :: ts ++ [TokCloseParen] else ts.

(** The tokens of an expression in a place that takes precedence [p], with
    parentheses only where the precedences need them.  [None] for numbers that
    have no literal of digits, and for what the parser does not return. *)
Fixpoint print (p : N) (e : AstExpression) : option (list Token) :=
  let infix op l r :=
    ls ← print (left_prec op) l; rs ← print (right_prec op) r;
    Some (paren (op_prec op <? p) (ls ++ infix_token op :: rs)) in
  let prefix t x := xs ← print 9 x; Some (t :: xs) in
  let postfix ts x := xs ← print 8 x; Some (paren (8 <? p) (xs ++ ts)) in
  match e with
  | ALiteral l => print_literal l
  | AField None n => t ← print_name n; Some [t]
  | AField (Some r) n => t ← print_name r; u ← print_name n; Some [t; TokPeriod; u]
  | AColumn _ => None
  | AFunction f args =>
      t ← print_name f;
      ts ← match args with
           | [] => Some []
           | x :: args =>
               xs ← print 0 x;
               us ← (fix more args := match args with
                     | [] => Some []
                     | x :: args => xs ← print 0 x; us ← more args; Some (TokComma :: xs ++ us)
                     end) args;
               Some (xs ++ us)
           end;
      Some (t :: TokOpenParen :: ts ++ [TokCloseParen])
  | AOperation op =>
      match op with
      | AAdd l r => infix IAdd l r | AAnd l r => infix IAnd l r | ADivide l r => infix IDivide l r
      | AEqual l r => infix IEqual l r | AExponentiate l r => infix IExponentiate l r
      | AGreaterThan l r => infix IGreaterThan l r
      | AGreaterThanOrEqual l r => infix IGreaterThanOrEqual l r
      | ALessThan l r => infix ILessThan l r | ALessThanOrEqual l r => infix ILessThanOrEqual l r
      | ALike l r => infix ILike l r | AModulo l r => infix IModulo l r
      | AMultiply l r => infix IMultiply l r | ANotEqual l r => infix INotEqual l r
      | AOr l r => infix IOr l r | ASubtract l r => infix ISubtract l r
      | AAssert x => prefix TokPlus x | ANegate x => prefix TokMinus x
      | ANot x => prefix (TokKeyword KwNot) x
      | AFactorial x => postfix [TokExclamation] x
      | AIsNull x => postfix [TokKeyword KwIs; TokKeyword KwNull] x
      end
  end.

Section printing.
Context `{UnicodeLaws}.

(** The part of the grammar for precedence [p]. *)
Definition derives (p : N) (ts : list Token) (e : AstExpression) : Prop :=
  primary ts e ∨ p <= 8 ∧ postfixed ts e ∨ p <= 7 ∧ climbs p ts e.
Definition printed (p : N) (e : AstExpression) (ts : list Token) : Prop :=
  derives p ts e ∧ Forall token_text ts.

Lemma derives_primary ts e : derives 9 ts e → primary ts e.
Proof. by intros [?|[[? _]|[? _]]]. Qed.
Lemma derives_postfixed ts e : derives 8 ts e → postfixed ts e.
Proof. intros [?|[[_ ?]|[? _]]]; [by apply f_primary|done..]. Qed.
Lemma derives_climbs p ts e : derives p ts e → climbs p ts e.
Proof. intros [?|[[_ ?]|[_ ?]]]; [by apply c_postfixed, f_primary|by apply c_postfixed|done]. Qed.

Lemma paren_printed (b : bool) p e ts : (b = false → derives p ts e) → climbs 0 ts e → Forall token_text ts →
  printed p e (paren b ts).
Proof.
  intros Hd Hc Ht. destruct b; cbn [paren]; [|split; auto]. split; [left; by apply p_paren|].
  constructor; [done|]. apply Forall_app. split; [done|by constructor].
Qed.

Lemma infix_from op : op_from (infix_token op) = Some op.
Proof. by destruct op. Qed.
Lemma infix_printed p op l r ls rs : printed (left_prec op) l ls → printed (right_prec op) r rs →
  printed p (build_infix op l r) (paren (op_prec op <? p) (ls ++ infix_token op :: rs)).
Proof.
  intros [Hl Hls] [Hr Hrs]. assert (∀ q, q <= op_prec op →
    climbs q (ls ++ infix_token op :: rs) (build_infix op l r)) as Hc.
  { intros q Hq. apply c_infix; auto using infix_from, derives_climbs. }
  apply paren_printed.
  - intros Hp%N.ltb_ge. right; right. split; [|by apply Hc]. transitivity (op_prec op); [done|by destruct op].
  - apply Hc. lia.
  - apply Forall_app. split; [done|]. constructor; [by destruct op|done].
Qed.
Lemma prefix_printed p t op e xs : op_from t = Some op → token_text t → printed 9 e xs →
  printed p (build_prefix op e) (t :: xs).
Proof.
  intros Ht Htt [He Hxs]. split; [left; apply p_prefix; [done|by apply derives_primary]|by constructor].
Qed.
Lemma postfix_printed p ts op e xs : postfix ts op → printed 8 e xs →
  printed p (build_postfix op e) (paren (8 <? p) (xs ++ ts)).
Proof.
  intros Ht [He Hxs]. assert (postfixed (xs ++ ts) (build_postfix op e)) as Hf
    by (apply f_postfix; [by apply derives_postfixed|done]).
  apply paren_printed; [|by apply c_postfixed|].
  - intros Hp%N.ltb_ge. right. by left.
  - apply Forall_app. split; [done|]. destruct Ht; by repeat constructor.
Qed.

Lemma literal_printed p l ts : print_literal l = Some ts → printed p (ALiteral l) ts.
Proof.
  cut (∀ t, literal t l → token_text t → printed p (ALiteral l) [t]).
  { intros Hlit. destruct l as [|b|i|f|s]; cbn [print_literal].
    - intros [= <-]. apply Hlit; constructor.
    - intros [= <-]. destruct b; apply Hlit; constructor.
    - destruct ((0 <=? i)%Z && (i <=? i64_max)%Z) eqn:Hi; [|done].
      apply andb_true_iff in Hi as [Hi0%Z.leb_le Hi1%Z.leb_le]. unfold i64_max in Hi1.
      destruct (digits_spec 9223372036854775807 20 (Z.to_N i)) as (Hp & Hd & Hne);
        [change (10 ^ N.of_nat 20) with 100000000000000000000; lia|lia|].
      specialize (Hne ltac:(done)). generalize dependent (digits 20 (Z.to_N i)).
      intros ds Hp Hd Hne [= <-]. assert (chars (str ds) = ds) as Hc.
      { apply chars_str. eapply Forall_impl; [exact Hd|]. intros c Hcd.
        destruct (digit_char c Hcd). left. unfold is_ascii in *. lia. }
      apply Hlit; [|by eexists]. apply l_integer; rewrite Hc.
      + apply forallb_forall. intros c Hin%list_elem_of_In. rewrite Forall_forall in Hd. auto.
      + unfold parse_i64, parse_unsigned. destruct ds; [done|]. rewrite Hp. cbn. f_equal. lia.
    - destruct f as [|[]| |]; try done; intros [= <-]; apply Hlit; constructor.
    - destruct (utf8_valid s) eqn:Hs; [|done]. intros [= <-]. apply Hlit; [constructor|done]. }
  intros t Hl Ht. split; [left; by apply p_literal|by constructor].
Qed.

Lemma name_printed n t : print_name n = Some t → t = TokIdent n ∧ token_text t.
Proof. unfold print_name. destruct (utf8_valid n) eqn:Hn; [|done]. intros [= <-]. done. Qed.

(** The arguments after the first. *)
Definition print_more : list AstExpression → option (list Token) :=
  fix more args := match args with
    | [] => Some []
    | x :: args => xs ← print 0 x; us ← more args; Some (TokComma :: xs ++ us)
    end.

Lemma more_printed f args us : Forall (λ e, ∀ p ts, print p e = Some ts → printed p e ts) args →
  print_more args = Some us → more f us args ∧ Forall token_text us.
Proof.
  intros Hargs. revert us. induction Hargs as [|x args Hx Hargs IH]; intros us.
  - intros [= <-]. split; constructor.
  - change (print_more (x :: args)) with
      (xs ← print 0 x; us ← print_more args; Some (TokComma :: xs ++ us)).
    intros (xs & Hxs & (us' & Hus & [= <-])%bind_Some)%bind_Some.
    destruct (Hx 0 xs Hxs) as [Hd Ht]. destruct (IH us' Hus) as [Hm Hmt]. split.
    + apply m_some; [|done]. by apply a_expression, derives_climbs.
    + constructor; [done|]. by apply Forall_app.
Qed.

Lemma function_printed p f args ts : Forall (λ e, ∀ p ts, print p e = Some ts → printed p e ts) args →
  print p (AFunction f args) = Some ts → printed p (AFunction f args) ts.
Proof.
  intros Hargs. change (print p (AFunction f args)) with
    (t ← print_name f;
     ts ← match args with [] => Some [] | x :: args => xs ← print 0 x; us ← print_more args; Some (xs ++ us) end;
     Some (t :: TokOpenParen :: ts ++ [TokCloseParen])).
  intros (t & [-> Hf]%name_printed & (us & Hus & [= <-])%bind_Some)%bind_Some.
  assert (arguments f us args ∧ Forall token_text us) as [Ha Ht].
  { destruct args as [|x args]; [injection Hus as <-; split; constructor|].
    apply Forall_cons in Hargs as [Hx Hargs].
    apply bind_Some in Hus as (xs & Hxs & (vs & Hvs & [= <-])%bind_Some).
    destruct (Hx 0 xs Hxs) as [Hd Hxt]. destruct (more_printed f args vs Hargs Hvs) as [Hm Hmt]. split.
    - apply a_some; [|done]. by apply a_expression, derives_climbs.
    - by apply Forall_app. }
  split; [left; by apply p_function|]. repeat (constructor; [done|]).
  apply Forall_app. split; [done|by repeat constructor].
Qed.

(** What is printed is in the grammar, and has a text. *)
Lemma print_printed e : ∀ p ts, print p e = Some ts → printed p e ts.
Proof.
  induction e as [t n|i|l|f args IH|op IH] using ast_ind; intros p ts.
  - destruct t as [r|]; cbn [print].
    + intros (t & [-> Hr]%name_printed & (u & [-> Hn]%name_printed & [= <-])%bind_Some)%bind_Some.
      split; [left; apply p_qualified|by repeat constructor].
    + intros (t & [-> Hn]%name_printed & [= <-])%bind_Some.
      split; [left; apply p_field|by repeat constructor].
  - done.
  - apply literal_printed.
  - by apply function_printed.
  - destruct op; cbn [operands_all] in IH; cbn [print];
      try (intros (ls & Hls & (rs & Hrs & [= <-])%bind_Some)%bind_Some; destruct IH as [IHl IHr];
           match type of Hls with print (left_prec ?op) _ = _ => apply (infix_printed p op) end;
           by auto);
      intros (xs & Hxs & [= <-])%bind_Some; specialize (IH _ _ Hxs).
    + by apply (prefix_printed p (TokKeyword KwNot) PNot).
    + by apply (postfix_printed p [TokKeyword KwIs; TokKeyword KwNull] (PIsNull false)); [constructor|].
    + by apply (prefix_printed p TokPlus PPlus).
    + by apply (postfix_printed p [TokExclamation] PFactorial); [constructor|].
    + by apply (prefix_printed p TokMinus PMinus).
Qed.
End printing.
