(* ===== verification/SqlStatementPrint.v ===== *)
(** Statements as text: the tokens of a statement, clause by clause, and the logic
    [phrase] in which the parser is shown to read them. *)
From Stdlib Require Import Strings.Byte Strings.Ascii Strings.String NArith ZArith Lia
  Floats.SpecFloat.
From stdpp Require Import base list strings sets.
From S2P Require Import Prelude BTreeMap KeyCode Engine SqlTypes SqlKeys SqlAst SqlLexer SqlParser.
From S2P Require Import SqlLexSpec SqlPlanner SqlPlanSafe SqlParserSpec SqlGrammar SqlPrint.

Open Scope N_scope.

(** * More fuel for statements *)

Section fuel.
Context `{Unicode}.
Context (k k' : nat) (Hk : (k ≤ k')%nat).

Lemma comma_list_approx {A} (x x' : M Parser A) g g' : (g ≤ g')%nat → approx x x' →
  approx (comma_list g x) (comma_list g' x').
Proof.
  intros Hg Hx. revert g' Hg. induction g as [|g IH]; intros g' Hg; [apply approx_panic|].
  destruct g' as [|g']; [lia|]. cbn [comma_list]. apply approx_bind; [done|]. intros a. same.
  intros comma. destruct (is_none comma); [apply approx_refl|].
  apply approx_bind; [apply IH; lia|]. intros l. apply approx_refl.
Qed.
Lemma paren_list_approx {A} (x x' : M Parser A) g g' : (g ≤ g')%nat → approx x x' →
  approx (paren_list g x) (paren_list g' x').
Proof.
  intros Hg Hx. revert g' Hg. induction g as [|g IH]; intros g' Hg; [apply approx_panic|].
  destruct g' as [|g']; [lia|]. cbn [paren_list]. apply approx_bind; [done|]. intros a. same.
  intros []; try apply approx_refl. apply approx_bind; [apply IH; lia|]. intros l. apply approx_refl.
Qed.

Lemma expression_approx : approx (expression k) (expression k').
Proof. by apply parse_expression_approx. Qed.

(** Follow the calls of a definition on both sides. *)
Ltac follow :=
  repeat first
    [ apply approx_refl
    | apply expression_approx
    | apply comma_list_approx; [exact Hk|]
    | apply paren_list_approx; [exact Hk|]
    | assumption
    | apply approx_bind; [|intros ?]
    | match goal with |- approx (match ?x with _ => _ end) _ => destruct x end ].

Lemma optional_clause_approx kw : approx (optional_clause k kw) (optional_clause k' kw).
Proof. unfold optional_clause. follow. Qed.

Lemma join_loop_approx g g' item : (g ≤ g')%nat → approx (join_loop k g item) (join_loop k' g' item).
Proof.
  revert g' item. induction g as [|g IH]; intros g' item Hg; [apply approx_panic|].
  destruct g' as [|g']; [lia|]. cbn [join_loop]. same. intros [type|]; [|apply approx_refl].
  same. intros rhs. apply approx_bind; [follow|]. intros predicate. apply IH. lia.
Qed.
Lemma from_approx : approx (parse_clause_from k) (parse_clause_from k').
Proof.
  assert (∀ item, approx (join_loop k k item) (join_loop k' k' item)) as Hj by (intros; by apply join_loop_approx).
  unfold parse_clause_from. same. intros []; [|apply approx_refl].
  apply comma_list_approx; [done|]. same. done.
Qed.
Lemma group_by_approx : approx (parse_clause_group_by k) (parse_clause_group_by k').
Proof. unfold parse_clause_group_by. follow. Qed.
Lemma order_approx : approx (parse_clause_order k) (parse_clause_order k').
Proof. unfold parse_clause_order, parse_order. follow. Qed.
Lemma select_loop_approx g g' l : (g ≤ g')%nat → approx (select_loop k g l) (select_loop k' g' l).
Proof.
  revert g' l. induction g as [|g IH]; intros g' l Hg; [apply approx_panic|].
  destruct g' as [|g']; [lia|]. cbn [select_loop]. same. intros star.
  destruct (is_some star && _); [apply approx_refl|]. apply approx_bind; [apply expression_approx|].
  intros e. same. intros label. same. intros comma. destruct (is_none comma); [apply approx_refl|].
  apply IH. lia.
Qed.
Lemma select_approx : approx (parse_statement_select k) (parse_statement_select k').
Proof.
  unfold parse_statement_select, parse_clause_select, parse_clause_where, parse_clause_having.
  apply approx_bind; [same; intros []; [by apply select_loop_approx|apply approx_refl]|]. intros select.
  apply approx_bind; [apply from_approx|]. intros from.
  apply approx_bind; [apply optional_clause_approx|]. intros where_.
  apply approx_bind; [apply group_by_approx|]. intros group_by.
  apply approx_bind; [apply optional_clause_approx|]. intros having.
  apply approx_bind; [apply order_approx|]. intros order.
  do 2 (apply approx_bind; [apply optional_clause_approx|]; intros ?). apply approx_refl.
Qed.

Lemma column_loop_approx g g' c : (g ≤ g')%nat → approx (column_loop k g c) (column_loop k' g' c).
Proof.
  revert g' c. induction g as [|g IH]; intros g' c Hg; [apply approx_panic|].
  destruct g' as [|g']; [lia|]. cbn [column_loop]. same. intros [t|]; [|apply approx_refl].
  destruct t; try apply approx_refl. apply approx_bind; [follow|]. intros c'. apply IH. lia.
Qed.
Lemma ddl_approx : approx (parse_ddl k) (parse_ddl k').
Proof.
  assert (∀ c, approx (column_loop k k c) (column_loop k' k' c)) as Hc by (intros; by apply column_loop_approx).
  unfold parse_ddl, parse_ddl_create_table, parse_ddl_columnspec. same. intros t.
  destruct t as [| | |kw| | | | | | | | | | | | | | | | | | | |]; try apply approx_refl.
  destruct kw; try apply approx_refl. same. intros t.
  destruct t as [| | |kw| | | | | | | | | | | | | | | | | | | |]; try apply approx_refl.
  destruct kw; try apply approx_refl. do 2 (same; intros ?).
  apply approx_bind; [|intros; apply approx_refl]. apply comma_list_approx; [done|].
  do 2 (same; intros ?). apply Hc.
Qed.

Lemma set_loop_approx g g' l : (g ≤ g')%nat → approx (set_loop k g l) (set_loop k' g' l).
Proof.
  revert g' l. induction g as [|g IH]; intros g' l Hg; [apply approx_panic|].
  destruct g' as [|g']; [lia|]. cbn [set_loop]. same. intros column. same. intros _.
  apply approx_bind; [apply expression_approx|]. intros e.
  destruct (bt_get _ _ _); [apply approx_refl|]. same. intros comma.
  destruct (is_none comma); [apply approx_refl|]. apply IH. lia.
Qed.

Lemma plain_statement_approx x x' : approx x x' →
  approx (parse_plain_statement k x) (parse_plain_statement k' x').
Proof.
  intros Hx. unfold parse_plain_statement. same. intros [t|]; [|apply approx_refl].
  destruct t as [| | |kw| | | | | | | | | | | | | | | | | | | |]; try apply approx_refl.
  destruct kw; try apply approx_refl; try done; try apply ddl_approx; [| |apply select_approx|].
  - unfold parse_statement_delete, parse_clause_where. do 3 (same; intros ?).
    apply approx_bind; [apply optional_clause_approx|]. intros ?. apply approx_refl.
  - unfold parse_statement_insert. follow.
  - unfold parse_statement_update, parse_clause_where. do 3 (same; intros ?).
    apply approx_bind; [by apply set_loop_approx|]. intros ?.
    apply approx_bind; [apply optional_clause_approx|]. intros ?. apply approx_refl.
Qed.

(** More fuel changes nothing for a query. *)
Lemma parse_parser_approx : approx (parse_parser k) (parse_parser k').
Proof.
  unfold parse_parser, parse_statement, parse_statement_explain. apply approx_bind; [|intros; apply approx_refl].
  apply plain_statement_approx. same. intros _. same. intros t.
  assert (approx (s ← parse_plain_statement k (lift (Panic "nested EXPLAIN")); mret (SExplain s))
    (s ← parse_plain_statement k' (lift (Panic "nested EXPLAIN")); mret (SExplain s))) as Hs
    by (apply approx_bind; [apply plain_statement_approx, approx_refl|intros; apply approx_refl]).
  destruct t as [t|]; [|exact Hs]. destruct t as [| | |kw| | | | | | | | | | | | | | | | | | | |]; try exact Hs.
  destruct kw; first [exact Hs | apply approx_refl].
Qed.
End fuel.

(** * The tokens of statements *)

Abbreviation KW := TokKeyword.

(** Items with commas between them. *)
Fixpoint commas {A} (f : A → option (list Token)) (x : A) (xs : list A) : option (list Token) :=
  match xs with
  | [] => f x
  | y :: xs => ts ← f x; us ← commas f y xs; Some (ts ++ TokComma :: us)
  end.
Definition print_list {A} (f : A → option (list Token)) (xs : list A) : option (list Token) :=
  match xs with [] => None | x :: xs => commas f x xs end.

(** The tokens [before] a phrase that need not be there. *)
Definition print_option {A} (before : list Token) (f : A → option (list Token)) (o : option A)
    : option (list Token) :=
  match o with None => Some [] | Some x => ts ← f x; Some (before ++ ts) end.
Definition print_clause {A} (before : list Token) (f : A → option (list Token)) (xs : list A)
    : option (list Token) :=
  match xs with [] => Some [] | _ => ts ← print_list f xs; Some (before ++ ts) end.
Definition print_flag (b : bool) (ts : list Token) : list Token := if b then ts else [].

Definition print_ident (n : bytes) : option (list Token) := t ← print_name n; Some [t].
Definition print_select_item (x : AstExpression * option bytes) : option (list Token) :=
  ts ← print 0 x.1; ls ← print_option [KW KwAs] print_ident x.2; Some (ts ++ ls).
Definition print_order_item (x : AstExpression * AstOrder) : option (list Token) :=
  ts ← print 0 x.1; Some (ts ++ [KW match x.2 with OAscending => KwAsc | ODescending => KwDesc end]).

Definition print_table (n : bytes) (alias : option bytes) : option (list Token) :=
  ts ← print_ident n; us ← print_option [KW KwAs] print_ident alias; Some (ts ++ us).
(** Joins are to the left, of a table each. *)
Fixpoint print_from (f : FromItem) : option (list Token) :=
  match f with
  | FTable n alias => print_table n alias
  | FJoin l (FTable n alias) type predicate =>
      ls ← print_from l;
      ts ← print_table n alias;
      match type, predicate with
      | JCross, None => Some (ls ++ KW KwCross :: KW KwJoin :: ts)
      | JCross, Some _ | _, None => None
      | type, Some e =>
          es ← print 0 e;
          Some (ls ++ match type with JLeft => [KW KwLeft] | JRight => [KW KwRight] | _ => [] end ++
                KW KwJoin :: ts ++ KW KwOn :: es)
      end
  | FJoin _ (FJoin _ _ _ _) _ _ => None
  end.

Definition print_items (l : list (AstExpression * option bytes)) : option (list Token) :=
  match l with [] => Some [TokAsterisk] | x :: l => commas print_select_item x l end.
Definition print_select (s : SelectStatement) : option (list Token) :=
  select ← print_items (s_select s);
  from ← print_clause [KW KwFrom] print_from (s_from s);
  where_ ← print_option [KW KwWhere] (print 0) (s_where s);
  group_by ← print_clause [KW KwGroup; KW KwBy] (print 0) (s_group_by s);
  having ← print_option [KW KwHaving] (print 0) (s_having s);
  order ← print_clause [KW KwOrder; KW KwBy] print_order_item (s_order s);
  limit ← print_option [KW KwLimit] (print 0) (s_limit s);
  offset ← print_option [KW KwOffset] (print 0) (s_offset s);
  Some (KW KwSelect :: select ++ from ++ where_ ++ group_by ++ having ++ order ++ limit ++ offset).

Definition print_datatype (t : DataType) : Token :=
  KW match t with TBoolean => KwBoolean | TInteger => KwInteger | TFloat => KwFloat | TString => KwString end.
Definition print_column (c : AstColumn) : option (list Token) :=
  name ← print_ident (ac_name c);
  default ← print_option [KW KwDefault] (print 0) (ac_default c);
  references ← print_option [KW KwReferences] print_ident (ac_references c);
  Some (name ++ print_datatype (ac_datatype c) ::
        print_flag (ac_primary_key c) [KW KwPrimary; KW KwKey] ++
        match ac_nullable c with
        | Some true => [KW KwNull]
        | Some false => [KW KwNot; KW KwNull]
        | None => []
        end ++ default ++ print_flag (ac_unique c) [KW KwUnique] ++ references ++
        print_flag (ac_index c) [KW KwIndex]).

(** Assignments, by increasing column. *)
Definition print_assignment (x : bytes * AstExpression) : option (list Token) :=
  cs ← print_ident x.1; es ← print 0 x.2; Some (cs ++ TokEqual :: es).
Fixpoint increasing {A} (l : list (bytes * A)) : bool :=
  match l with
  | (x, _) :: ((y, _) :: _) as l' => bool_decide (bytes_cmp x y = Lt) && increasing l'
  | _ => true
  end.
Definition print_row (row : list AstExpression) : option (list Token) :=
  ts ← print_list (print 0) row; Some (TokOpenParen :: ts ++ [TokCloseParen]).
Definition print_version (v : N) : option (list Token) :=
  if v <=? u64_max then Some [TokNumber (str (digits 20 v))] else None.

Definition print_plain (st : Statement) : option (list Token) :=
  match st with
  | SBegin read_only as_of =>
      version ← print_option [KW KwAs; KW KwOf; KW KwSystem; KW KwTime] print_version as_of;
      Some (KW KwBegin :: print_flag read_only [KW KwRead; KW KwOnly] ++ version)
  | SCommit => Some [KW KwCommit]
  | SRollback => Some [KW KwRollback]
  | SExplain _ => None
  | SCreateTable name columns =>
      n ← print_ident name; ts ← print_list print_column columns;
      Some (KW KwCreate :: KW KwTable :: n ++ TokOpenParen :: ts ++ [TokCloseParen])
  | SDropTable name if_exists =>
      n ← print_ident name;
      Some (KW KwDrop :: KW KwTable :: print_flag if_exists [KW KwIf; KW KwExists] ++ n)
  | SDelete table where_ =>
      n ← print_ident table; ts ← print_option [KW KwWhere] (print 0) where_;
      Some (KW KwDelete :: KW KwFrom :: n ++ ts)
  | SInsert table columns values =>
      n ← print_ident table;
      cs ← print_option [TokOpenParen] (λ cs, ts ← print_list print_ident cs; Some (ts ++ [TokCloseParen])) columns;
      ts ← print_list print_row values;
      Some (KW KwInsert :: KW KwInto :: n ++ cs ++ KW KwValues :: ts)
  | SUpdate table set_ where_ =>
      if increasing set_ then
        n ← print_ident table; ts ← print_list print_assignment set_;
        us ← print_option [KW KwWhere] (print 0) where_;
        Some (KW KwUpdate :: n ++ KW KwSet :: ts ++ us)
      else None
  | SSelect s => print_select s
  end.
Definition print_statement (st : Statement) : option (list Token) :=
  match st with
  | SExplain st => ts ← print_plain st; Some (KW KwExplain :: ts)
  | st => print_plain st
  end.
(** The text of a statement. *)
Definition statement_text (st : Statement) : option bytes :=
  ts ← print_statement st; Some (str (print_tokens ts)).

(** * Phrases *)

(** What may follow a phrase: the end, or one of some tokens. *)
Definition after (ends : list Token) (rest : list Token) : Prop := ∀ t, head rest = Some t → t ∈ ends.

Lemma after_cons ends t rest : t ∈ ends → after ends (t :: rest).
Proof. by intros Ht ? [= <-]. Qed.
Lemma after_nil ends : after ends [].
Proof. by intros ?. Qed.
Lemma after_weaken ends ends' rest : after ends rest → ends ⊆ ends' → after ends' rest.
Proof. intros Ha Hs t Ht. by apply Hs, Ha. Qed.
Lemma after_not ends rest t : after ends rest → bool_decide (t ∈ ends) = false → head rest ≠ Some t.
Proof. intros Ha Hd Hh. apply bool_decide_eq_false in Hd. by apply Hd, Ha. Qed.

(** The tokens that may follow an expression. *)
Definition closes (t : Token) : bool :=
  match t with
  | TokComma | TokCloseParen => true
  | TokKeyword (KwAnd | KwLike | KwOr | KwIs) => false
  | TokKeyword _ => true
  | _ => false
  end.
Lemma after_closes `{Unicode} ends rest : after ends rest → forallb closes ends = true →
  follow rest ∧ next_op (O:=InfixOperator) rest = None.
Proof.
  intros Ha Hc. unfold next_op. assert (∀ t, head rest = Some t → closes t = true) as Ht.
  { intros t Ht%Ha. rewrite forallb_forall in Hc. by apply Hc, list_elem_of_In. }
  destruct rest as [|t rest]; [by repeat split|]. specialize (Ht t eq_refl). cbn [head mbind option_bind].
  split; [|destruct t as [| | |kw| | | | | | | | | | | | | | | | | | | |]; try done; by destruct kw].
  split; [by destruct t..|]. unfold next_op. cbn [head mbind option_bind].
  destruct t as [| | |kw| | | | | | | | | | | | | | | | | | | |]; try done; by destruct kw.
Qed.

(** [after] where the next phrase need not be there. *)
Definition opens (ends' ends us : list Token) : Prop := ∀ rest, after ends rest → after ends' (us ++ rest).

Lemma opens_cons ends' ends t us : t ∈ ends' → opens ends' ends (t :: us).
Proof. intros Ht rest _. by apply after_cons. Qed.
Lemma opens_nil ends' ends : ends ⊆ ends' → opens ends' ends [].
Proof. intros Hs rest Ha. by eapply after_weaken. Qed.
Lemma opens_option {A} before f (o : option A) us ends' ends :
  print_option before f o = Some us → before ≠ [] → after ends' before → ends ⊆ ends' → opens ends' ends us.
Proof.
  intros Hus Hb Ha Hs. destruct o as [x|]; cbn [print_option] in Hus.
  - apply bind_Some in Hus as (ts & _ & [= <-]). destruct before as [|t before]; [done|].
    apply opens_cons, Ha. done.
  - injection Hus as <-. by apply opens_nil.
Qed.
Lemma opens_clause {A} before f (xs : list A) us ends' ends :
  print_clause before f xs = Some us → before ≠ [] → after ends' before → ends ⊆ ends' → opens ends' ends us.
Proof.
  intros Hus Hb Ha Hs. destruct xs as [|x xs]; cbn [print_clause] in Hus.
  - injection Hus as <-. by apply opens_nil.
  - apply bind_Some in Hus as (ts & _ & [= <-]). destruct before as [|t before]; [done|].
    apply opens_cons, Ha. done.
Qed.

Section phrases.
Context `{UnicodeLaws}.

(** With enough fuel, the computation [m] reads [ts] as [a] before one of
    [ends]; the tokens [ts] have a text. *)
Definition phrase {A} (ends : list Token) (m : nat → M Parser A) (ts : list Token) (a : A) : Prop :=
  Forall token_text ts ∧
  ∀ rest, after ends rest → ∃ n, ∀ f, (n ≤ f)%nat → takes (m f) (ts ++ rest) a rest.

Lemma phrase_bind {A B} ends' ends (m : nat → M Parser A) (F : nat → A → M Parser B) ts a us b :
  phrase ends' m ts a → opens ends' ends us → phrase ends (λ f, F f a) us b →
  phrase ends (λ f, m f ≫= F f) (ts ++ us) b.
Proof.
  intros [Ht Hm] Ho [Hu HF]. split; [by apply Forall_app|]. intros rest Ha.
  destruct (Hm (us ++ rest) (Ho rest Ha)) as [n Hn]. destruct (HF rest Ha) as [n' Hn'].
  exists (Nat.max n n'). intros f Hf. rewrite <-(assoc_L (++)).
  eapply takes_bind; [apply Hn; lia|apply Hn'; lia].
Qed.
Lemma phrase_ret {A} ends (a : A) : phrase ends (λ _, mret a) [] a.
Proof. split; [done|]. intros rest _. exists 0%nat. intros f _. apply takes_ret. Qed.

(** A first step of one token, and one that takes nothing. *)
Lemma phrase_step {A B} ends (m : M Parser A) (F : nat → A → M Parser B) t a us b : token_text t →
  (∀ vs, takes m (t :: vs) a vs) → phrase ends (λ f, F f a) us b →
  phrase ends (λ f, m ≫= F f) (t :: us) b.
Proof.
  intros Ht Hm [Hu HF]. split; [by constructor|]. intros rest Ha. destruct (HF rest Ha) as [n Hn].
  exists n. intros f Hf. cbn [app]. eapply takes_bind; [apply Hm|by apply Hn].
Qed.
Lemma phrase_skip {A B} ends (m : M Parser A) (F : nat → A → M Parser B) a us b :
  (∀ rest, after ends rest → takes m (us ++ rest) a (us ++ rest)) → phrase ends (λ f, F f a) us b →
  phrase ends (λ f, m ≫= F f) us b.
Proof.
  intros Hm [Hu HF]. split; [done|]. intros rest Ha. destruct (HF rest Ha) as [n Hn].
  exists n. intros f Hf. eapply takes_bind; [by apply Hm|by apply Hn].
Qed.
Lemma phrase_last {A B} ends ends' (m : nat → M Parser A) (g : A → B) ts a : phrase ends' m ts a →
  ends ⊆ ends' → phrase ends (λ f, x ← m f; mret (g x)) ts (g a).
Proof.
  intros Hm Hs. rewrite <-(app_nil_r ts). eapply phrase_bind; [done|by apply opens_nil|apply phrase_ret].
Qed.

Lemma phrase_expression ends e ts : print 0 e = Some ts → forallb closes ends = true →
  phrase ends expression ts e.
Proof.
  intros Hp Hc. destruct (print_printed e 0 ts Hp) as [Hd Ht]. split; [done|]. intros rest Ha.
  destruct (after_closes ends rest Ha Hc) as [Hf Hi].
  by apply expression_read; [apply derives_climbs| |].
Qed.
Lemma expression_started e ts t : print 0 e = Some ts → starts t = false → head ts ≠ Some t.
Proof.
  intros Hp Ht. destruct (print_printed e 0 ts Hp) as [Hd _].
  destruct (climbs_started _ _ _ (derives_climbs _ _ _ Hd)) as (t' & us & -> & Hs). intros [= ->]. congruence.
Qed.

Lemma ident_printed n ts : print_ident n = Some ts → ts = [TokIdent n] ∧ token_text (TokIdent n).
Proof. intros (t & [-> Ht]%name_printed & [= <-])%bind_Some. done. Qed.
Lemma phrase_ident ends n ts : print_ident n = Some ts → phrase ends (λ _, next_ident) ts n.
Proof.
  intros [-> Ht]%ident_printed. split; [by constructor|]. intros rest _. exists 0%nat. intros _ _.
  apply takes_ident.
Qed.

(** ** Lists and clauses *)

(** [phrase] for a loop with fuel of its own. *)
Definition loop {A} (ends : list Token) (m : nat → nat → M Parser A) (ts : list Token) (a : A) : Prop :=
  Forall token_text ts ∧
  ∀ rest, after ends rest → ∃ n, ∀ g f, (n ≤ g)%nat → (n ≤ f)%nat → takes (m g f) (ts ++ rest) a rest.

Lemma loop_phrase {A} ends (m : nat → nat → M Parser A) ts a : loop ends m ts a → phrase ends (λ f, m f f) ts a.
Proof. intros [Ht Hm]. split; [done|]. intros rest [n Hn]%Hm. exists n. auto. Qed.
Lemma phrase_loop {A} ends (m : nat → M Parser A) ts a : phrase ends m ts a → loop ends (λ _, m) ts a.
Proof. intros [Ht Hm]. split; [done|]. intros rest [n Hn]%Hm. exists n. auto. Qed.
Lemma loop_next {A} ends (m : nat → nat → M Parser A) (m' : nat → nat → M Parser A) ts a :
  (∀ g f, m (S g) f = m' g f) → loop ends m' ts a → loop ends m ts a.
Proof.
  intros E [Ht Hm]. split; [done|]. intros rest [n Hn]%Hm. exists (S n). intros [|g] f Hg Hf; [lia|].
  rewrite E. apply Hn; lia.
Qed.
Lemma loop_bind {A B} ends' ends (m : nat → M Parser A) (F : nat → nat → A → M Parser B) ts a us b :
  phrase ends' m ts a → opens ends' ends us → loop ends (λ g f, F g f a) us b →
  loop ends (λ g f, m f ≫= F g f) (ts ++ us) b.
Proof.
  intros [Ht Hm] Ho [Hu HF]. split; [by apply Forall_app|]. intros rest Ha.
  destruct (Hm (us ++ rest) (Ho rest Ha)) as [n Hn]. destruct (HF rest Ha) as [n' Hn'].
  exists (Nat.max n n'). intros g f Hg Hf. rewrite <-(assoc_L (++)).
  eapply takes_bind; [apply Hn; lia|apply Hn'; lia].
Qed.
Lemma loop_step {A B} ends (m : M Parser A) (F : nat → nat → A → M Parser B) t a us b : token_text t →
  (∀ vs, takes m (t :: vs) a vs) → loop ends (λ g f, F g f a) us b →
  loop ends (λ g f, m ≫= F g f) (t :: us) b.
Proof.
  intros Ht Hm [Hu HF]. split; [by constructor|]. intros rest Ha. destruct (HF rest Ha) as [n Hn].
  exists n. intros g f Hg Hf. cbn [app]. eapply takes_bind; [apply Hm|by apply Hn].
Qed.
Lemma loop_skip {A B} ends (m : M Parser A) (F : nat → nat → A → M Parser B) a us b :
  (∀ rest, after ends rest → takes m (us ++ rest) a (us ++ rest)) → loop ends (λ g f, F g f a) us b →
  loop ends (λ g f, m ≫= F g f) us b.
Proof.
  intros Hm [Hu HF]. split; [done|]. intros rest Ha. destruct (HF rest Ha) as [n Hn].
  exists n. intros g f Hg Hf. eapply takes_bind; [by apply Hm|by apply Hn].
Qed.
Lemma loop_last {A B} ends (m : nat → nat → M Parser A) (h : A → B) ts a : loop ends m ts a →
  loop ends (λ g f, x ← m g f; mret (h x)) ts (h a).
Proof.
  intros [Ht Hm]. split; [done|]. intros rest [n Hn]%Hm. exists n. intros g f Hg Hf.
  eapply takes_bind; [by apply Hn|apply takes_ret].
Qed.
Lemma loop_ret {A} ends (a : A) : loop ends (λ _ _, mret a) [] a.
Proof. apply (phrase_loop ends (λ _, mret a)), phrase_ret. Qed.

Section lists.
Context {A : Type} (item : nat → M Parser A) (f : A → option (list Token)) (ends : list Token).

Lemma comma_loop x xs ts : bool_decide (TokComma ∈ ends) = false →
  (∀ x ts, f x = Some ts → phrase (TokComma :: ends) item ts x) → commas f x xs = Some ts →
  loop ends (λ g f, comma_list g (item f)) ts (x :: xs).
Proof.
  intros Hc Hf. revert x ts. induction xs as [|y xs IH]; intros x ts; cbn [commas].
  - intros Hx. eapply loop_next; [by intros; reflexivity|]. rewrite <-(app_nil_r ts).
    eapply loop_bind; [by apply Hf|apply opens_nil; set_solver|].
    eapply (loop_skip _ _ _ None); [|apply loop_ret].
    intros rest Ha. apply takes_if_not. by eapply after_not.
  - intros (us & Hx & (vs & Hy & [= <-])%bind_Some)%bind_Some. eapply loop_next; [by intros; reflexivity|].
    eapply loop_bind; [by apply Hf|apply opens_cons; set_solver|].
    eapply (loop_step _ _ _ _ (Some TokComma)); [done|intros; apply takes_if|]. cbn [is_none].
    by apply (loop_last _ _ (cons x)), IH.
Qed.
Lemma paren_loop x xs ts : (∀ x ts, f x = Some ts → phrase [TokComma; TokCloseParen] item ts x) →
  commas f x xs = Some ts → loop ends (λ g f, paren_list g (item f)) (ts ++ [TokCloseParen]) (x :: xs).
Proof.
  intros Hf. revert x ts. induction xs as [|y xs IH]; intros x ts; cbn [commas].
  - intros Hx. eapply loop_next; [by intros; reflexivity|].
    eapply loop_bind; [by apply Hf|apply opens_cons; set_solver|].
    eapply (loop_step _ _ _ _ TokCloseParen); [done|intros; apply takes_next|]. apply loop_ret.
  - intros (us & Hx & (vs & Hy & [= <-])%bind_Some)%bind_Some. eapply loop_next; [by intros; reflexivity|].
    rewrite <-(assoc_L (++)). cbn [app].
    eapply loop_bind; [by apply Hf|apply opens_cons; set_solver|].
    eapply (loop_step _ _ _ _ TokComma); [done|intros; apply takes_next|].
    by apply (loop_last _ _ (cons x)), IH.
Qed.

Lemma comma_phrase xs ts : bool_decide (TokComma ∈ ends) = false →
  (∀ x ts, f x = Some ts → phrase (TokComma :: ends) item ts x) → print_list f xs = Some ts →
  phrase ends (λ k, comma_list k (item k)) ts xs.
Proof.
  destruct xs as [|x xs]; [done|]. intros Hc Hf Hx.
  by apply (loop_phrase _ (λ g k, comma_list g (item k))), comma_loop.
Qed.
Lemma paren_phrase xs ts : (∀ x ts, f x = Some ts → phrase [TokComma; TokCloseParen] item ts x) →
  print_list f xs = Some ts → phrase ends (λ k, paren_list k (item k)) (ts ++ [TokCloseParen]) xs.
Proof.
  destruct xs as [|x xs]; [done|]. intros Hf Hx.
  by apply (loop_phrase _ (λ g k, paren_list g (item k))), paren_loop.
Qed.
End lists.

Lemma phrase_no_kw {B} ends kw (F : nat → bool → M Parser B) us b :
  opens ends ends us → bool_decide (KW kw ∈ ends) = false →
  phrase ends (λ f, F f false) us b → phrase ends (λ f, next_if_kw kw ≫= F f) us b.
Proof.
  intros Ho Hk. apply phrase_skip. intros rest Ha. apply takes_kw_not. eapply after_not; [by apply Ho|done].
Qed.
Lemma opens_self ends : opens ends ends [].
Proof. by apply opens_nil. Qed.

Lemma optional_phrase ends kw o ts : print_option [KW kw] (print 0) o = Some ts →
  forallb closes ends = true → bool_decide (KW kw ∈ ends) = false →
  phrase ends (λ f, optional_clause f kw) ts o.
Proof.
  intros Ho Hc Hk. unfold optional_clause. destruct o as [e|]; cbn [print_option] in Ho.
  - apply bind_Some in Ho as (us & He & [= <-]). cbn [app].
    eapply (phrase_step _ _ _ _ true); [done|intros; apply takes_kw|].
    by eapply (phrase_last ends ends _ Some); [apply phrase_expression|].
  - injection Ho as <-. apply phrase_no_kw; [apply opens_self|done|apply phrase_ret].
Qed.
End phrases.
