(* ===== verification/SqlParserClaims.v ===== *)
(** The parser returns for every query, and reads the tokens of each clause and
    of each statement, and so the text of a statement, as the statement itself. *)
From Stdlib Require Import Strings.Byte Strings.Ascii Strings.String NArith ZArith Lia.
From Stdlib Require Import Floats.SpecFloat Sorting.Sorted.
From stdpp Require Import base list strings sets.
From S2P Require Import Prelude BTreeMap KeyCode Engine SqlTypes SqlKeys SqlAst SqlLexer SqlParser.
From S2P Require Import SqlPlanner SqlPlanSafe SqlLexSpec SqlParserSpec SqlGrammar SqlPrint.
From S2P Require Import SqlStatementPrint.

Open Scope N_scope.

(** What may follow the clauses of a SELECT statement. *)
Definition order_ends : list Token := [KW KwLimit; KW KwOffset].
Definition group_ends : list Token := KW KwHaving :: KW KwOrder :: order_ends.
Definition from_ends : list Token := KW KwWhere :: KW KwGroup :: group_ends.
Definition item_ends : list Token := TokComma :: from_ends.
Definition join_ends : list Token := KW KwCross :: KW KwJoin :: KW KwLeft :: KW KwRight :: item_ends.
Definition select_ends : list Token := KW KwFrom :: from_ends.

(** Membership and inclusion of such lists. *)
Ltac listed := first [by apply bool_decide_unpack | by unfold join_ends, select_ends, item_ends, from_ends, group_ends, order_ends; set_solver].

(** What follows a clause that need not be there. *)
Ltac opened :=
  first [eapply opens_option; [eassumption|done|apply after_cons; listed|listed]
        |eapply opens_clause; [eassumption|done|apply after_cons; listed|listed]].

(** One call of the parser: a token is read, or is not there. *)
Ltac reads_ :=
  lazymatch goal with
  | |- phrase _ (λ _, mret _) _ _ => apply phrase_ret
  | |- phrase _ (λ _, next_if_kw ?k ≫= _) (TokKeyword ?k :: _) _ =>
      eapply (phrase_step _ _ _ _ true); [done|intros; apply takes_kw|]
  | |- phrase _ (λ _, next_if_token ?t ≫= _) (?t :: _) _ =>
      eapply (phrase_step _ _ _ _ (Some t)); [done|intros; apply takes_if|]
  | |- phrase _ (λ _, next_if_kw _ ≫= _) _ _ =>
      eapply (phrase_skip _ _ _ false);
        [intros rest Ha; apply takes_kw_not; first [done | by apply (after_not _ _ _ Ha)]|]
  | |- phrase _ (λ _, next_if_token _ ≫= _) _ _ =>
      eapply (phrase_skip _ _ _ None);
        [intros rest Ha; apply takes_if_not; first [done | by apply (after_not _ _ _ Ha)]|]
  | |- phrase _ (λ _, expect_kw _ ≫= _) (?t :: _) _ =>
      eapply (phrase_step _ _ _ _ t); [done|intros; apply takes_expect|]
  | |- phrase _ (λ _, next_expect _ ≫= _) (?t :: _) _ =>
      eapply (phrase_step _ _ _ _ t); [done|intros; apply takes_expect|]
  | |- phrase _ (λ _, next ≫= _) (?t :: _) _ =>
      eapply (phrase_step _ _ _ _ t); [done|intros; apply takes_next|]
  end; cbn iota beta.

Section clauses.
Context `{UnicodeLaws}.

Lemma phrase_peek {B} ends (F : nat → option Token → M Parser B) b :
  (∀ f o, (∀ t, o = Some t → t ∈ ends) → F f o = mret b) → phrase ends (λ f, peek ≫= F f) [] b.
Proof.
  intros HF. split; [done|]. intros rest Ha. exists 0%nat. intros f _.
  eapply takes_bind; [apply takes_peek|]. cbn [app]. rewrite HF by done. apply takes_ret.
Qed.

Lemma closes_ident ends n : forallb closes ends = true → TokIdent n ∈ ends → False.
Proof. rewrite forallb_forall. intros Hc Hn%list_elem_of_In. by specialize (Hc _ Hn). Qed.

(** ** FROM *)

Lemma table_phrase ends n alias ts : print_table n alias = Some ts → forallb closes ends = true →
  bool_decide (KW KwAs ∈ ends) = false → phrase ends (λ _, parse_clause_from_item) ts (FTable n alias).
Proof.
  intros (t & Hn & (us & Ha & [= <-])%bind_Some)%bind_Some Hc Has.
  eapply (phrase_bind (KW KwAs :: ends)); [by apply phrase_ident|by eapply opens_option; [done|done|apply after_cons; set_solver|set_solver]|].
  destruct alias as [m|]; cbn [print_option] in Ha.
  - apply bind_Some in Ha as (vs & Hm & [= <-]). cbn [app]. reads_.
    by eapply (phrase_last ends ends _ (λ a, FTable n (Some a))); [apply phrase_ident|].
  - injection Ha as <-. reads_. apply phrase_peek. intros _ [t'|] Ht'; [|done].
    specialize (Ht' t' eq_refl). destruct t'; try done. by destruct (closes_ident ends s).
Qed.

Definition join_tokens (type : JoinType) : list Token :=
  match type with
  | JCross => [KW KwCross; KW KwJoin]
  | JInner => [KW KwJoin]
  | JLeft => [KW KwLeft; KW KwJoin]
  | JRight => [KW KwRight; KW KwJoin]
  end.
Lemma jointype_phrase ends type : phrase ends (λ _, parse_clause_from_jointype) (join_tokens type) (Some type).
Proof. unfold parse_clause_from_jointype. destruct type; cbn [join_tokens]; repeat reads_. Qed.
Lemma no_jointype_phrase : phrase item_ends (λ _, parse_clause_from_jointype) [] None.
Proof. unfold parse_clause_from_jointype. repeat reads_. Qed.

(** The tokens of a join after its left side. *)
Definition print_on (type : JoinType) (predicate : option AstExpression) : option (list Token) :=
  match type, predicate with
  | JCross, None => Some []
  | JCross, Some _ | _, None => None
  | _, Some e => es ← print 0 e; Some (KW KwOn :: es)
  end.
Lemma print_from_join l n alias type predicate ts :
  print_from (FJoin l (FTable n alias) type predicate) = Some ts →
  ∃ ls us ps, print_from l = Some ls ∧ print_table n alias = Some us ∧ print_on type predicate = Some ps ∧
    ts = ls ++ join_tokens type ++ us ++ ps.
Proof.
  cbn [print_from]. intros (ls & Hl & (us & Hn & Hts)%bind_Some)%bind_Some. exists ls, us.
  destruct type, predicate as [e|]; try done; cbn [print_on].
  - injection Hts as <-. exists []. rewrite app_nil_r. done.
  - apply bind_Some in Hts as (es & He & [= <-]). rewrite He. by eexists.
  - apply bind_Some in Hts as (es & He & [= <-]). rewrite He. by eexists.
  - apply bind_Some in Hts as (es & He & [= <-]). rewrite He. by eexists.
Qed.
Lemma on_phrase ends type predicate ps : print_on type predicate = Some ps → forallb closes ends = true →
  phrase ends (λ f, match type with JCross => mret None | _ => _ ← expect_kw KwOn; e ← expression f; mret (Some e) end)
    ps predicate.
Proof.
  intros Hps Hc. destruct type, predicate as [e|]; try done; cbn [print_on] in Hps;
    [injection Hps as <-; apply phrase_ret|apply bind_Some in Hps as (es & He & [= <-])..]; reads_;
    by eapply (phrase_last ends ends _ Some); [apply phrase_expression|].
Qed.
Lemma on_opens ends type predicate ps : print_on type predicate = Some ps →
  opens (KW KwOn :: ends) ends ps.
Proof.
  intros Hps. assert (ends ⊆ KW KwOn :: ends) by set_solver. destruct type, predicate as [e|]; try done; cbn [print_on] in Hps;
    [injection Hps as <-; by apply opens_nil|apply bind_Some in Hps as (es & He & [= <-])..];
    apply opens_cons; set_solver.
Qed.
Lemma opens_app ends1 ends2 ends3 us vs : opens ends1 ends2 us → opens ends2 ends3 vs →
  opens ends1 ends3 (us ++ vs).
Proof. intros Hu Hv rest Ha. rewrite <-(assoc_L (++)). by apply Hu, Hv. Qed.
Lemma table_opens ends n alias us ws : print_table n alias = Some us → opens [TokIdent n] ends (us ++ ws).
Proof.
  intros (t & [-> _]%ident_printed & (vs & _ & [= <-])%bind_Some)%bind_Some. by apply opens_cons; set_solver.
Qed.
Lemma join_opens ends type us : opens join_ends ends (join_tokens type ++ us).
Proof. destruct type; apply opens_cons; listed. Qed.

Lemma join_step l n alias type predicate us ps vs b : print_table n alias = Some us →
  print_on type predicate = Some ps → opens join_ends item_ends vs →
  loop item_ends (λ g k, join_loop k g (FJoin l (FTable n alias) type predicate)) vs b →
  loop item_ends (λ g k, join_loop k g l) (join_tokens type ++ us ++ ps ++ vs) b.
Proof.
  intros Hn Hps Ho Hloop. eapply loop_next; [by intros; reflexivity|].
  eapply (loop_bind [TokIdent n] _ (λ _, parse_clause_from_jointype)); [apply jointype_phrase| |].
  { by eapply table_opens. }
  cbn iota. eapply (loop_bind (KW KwOn :: join_ends) _ (λ _, parse_clause_from_item));
    [by eapply table_phrase|eapply opens_app; [by eapply on_opens|done]|].
  eapply (loop_bind join_ends _ (λ f, match type with JCross => mret None
    | _ => _ ← expect_kw KwOn; e ← expression f; mret (Some e) end)); [by eapply on_phrase|done|done].
Qed.
Lemma joins_end item : loop item_ends (λ g k, join_loop k g item) [] item.
Proof.
  eapply loop_next; [by intros; reflexivity|].
  eapply (loop_bind item_ends _ (λ _, parse_clause_from_jointype) _ [] None []);
    [apply no_jointype_phrase|apply opens_self|apply loop_ret].
Qed.

(** A chain of joins begins with a table. *)
Lemma joins_read f ts : print_from f = Some ts → ∃ n alias us vs, ts = us ++ vs ∧
  print_table n alias = Some us ∧ opens join_ends join_ends vs ∧
  ∀ ws b, opens join_ends item_ends ws → loop item_ends (λ g k, join_loop k g f) ws b →
    loop item_ends (λ g k, join_loop k g (FTable n alias)) (vs ++ ws) b.
Proof.
  revert ts. induction f as [n alias|l IH r _ type predicate]; intros ts.
  - intros Hn. exists n, alias, ts, []. rewrite app_nil_r. split_and!; [done..|apply opens_self|done].
  - destruct r as [n alias|]; [|done].
    intros (ls & us & ps & Hl & Hn & Hps & ->)%print_from_join.
    destruct (IH ls Hl) as (n0 & alias0 & us0 & vs & -> & Hn0 & Hvs & Hloop).
    exists n0, alias0, us0, (vs ++ join_tokens type ++ us ++ ps). rewrite <-!(assoc_L (++)).
    split_and!; [done..|eapply opens_app; [done|apply join_opens]|].
    intros ws b Hws Hb. rewrite <-!(assoc_L (++)). apply Hloop; [apply join_opens|]. by eapply join_step.
Qed.

Lemma from_item_phrase f ts : print_from f = Some ts →
  phrase item_ends (λ k, item ← parse_clause_from_item; join_loop k k item) ts f.
Proof.
  intros (n & alias & us & vs & -> & Hn & Hvs & Hloop)%joins_read.
  eapply (phrase_bind join_ends _ (λ _, parse_clause_from_item));
    [by eapply table_phrase|intros rest Ha; apply Hvs; eapply after_weaken; [done|listed]|].
  apply (loop_phrase _ (λ g k, join_loop k g (FTable n alias))).
  rewrite <-(app_nil_r vs). apply Hloop; [apply opens_nil; listed|apply joins_end].
Qed.

(** A clause of a list after its keywords. *)
Lemma from_phrase l ts : print_clause [KW KwFrom] print_from l = Some ts →
  phrase from_ends parse_clause_from ts l.
Proof.
  intros Hl. unfold parse_clause_from. destruct l as [|x l]; cbn [print_clause] in Hl.
  - injection Hl as <-. repeat reads_.
  - apply bind_Some in Hl as (us & Hl & [= <-]). cbn [app]. reads_.
    by eapply comma_phrase; [|apply from_item_phrase|].
Qed.
Lemma group_by_phrase l ts : print_clause [KW KwGroup; KW KwBy] (print 0) l = Some ts →
  phrase group_ends parse_clause_group_by ts l.
Proof.
  intros Hl. unfold parse_clause_group_by. destruct l as [|x l]; cbn [print_clause] in Hl.
  - injection Hl as <-. repeat reads_.
  - apply bind_Some in Hl as (us & Hl & [= <-]). cbn [app]. do 2 reads_.
    eapply (comma_phrase expression); [done| |done]. intros e es He. by apply phrase_expression.
Qed.
Lemma order_item_phrase x ts : print_order_item x = Some ts → phrase (TokComma :: order_ends) parse_order ts x.
Proof.
  destruct x as [e o]. unfold print_order_item, parse_order. cbn [fst snd]. intros (us & He & [= <-])%bind_Some.
  eapply (phrase_bind [KW KwAsc; KW KwDesc]); [by apply phrase_expression|destruct o; apply opens_cons; set_solver|].
  destruct o; repeat reads_.
Qed.
Lemma order_phrase l ts : print_clause [KW KwOrder; KW KwBy] print_order_item l = Some ts →
  phrase order_ends parse_clause_order ts l.
Proof.
  intros Hl. unfold parse_clause_order. destruct l as [|x l]; cbn [print_clause] in Hl.
  - injection Hl as <-. repeat reads_.
  - apply bind_Some in Hl as (us & Hl & [= <-]). cbn [app]. do 2 reads_.
    by eapply (comma_phrase parse_order); [|apply order_item_phrase|].
Qed.

(** ** SELECT *)

Lemma label_phrase ends o ts : print_option [KW KwAs] print_ident o = Some ts → forallb closes ends = true →
  bool_decide (KW KwAs ∈ ends) = false → phrase ends (λ _, parse_label) ts o.
Proof.
  intros Ho Hc Has. unfold parse_label. destruct o as [n|]; cbn [print_option] in Ho.
  - apply bind_Some in Ho as (us & Hn & [= <-]). cbn [app].
    split; [constructor; [done|by eapply (phrase_ident ends)]|]. intros rest Ha.
    destruct (phrase_ident ends n us Hn) as [_ Hi]. destruct (Hi rest Ha) as [k Hk]. exists k. intros f Hf.
    eapply takes_bind; [apply takes_peek|]. cbn iota beta. cbn [app head].
    eapply takes_bind; [apply takes_next|]. eapply takes_bind; [exact (Hk f Hf)|apply takes_ret].
  - injection Ho as <-. apply phrase_peek. intros _ [t|] Ht; [|done]. specialize (Ht t eq_refl).
    destruct t as [| |s|kw| | | | | | | | | | | | | | | | | | | |]; try done.
    + by destruct (closes_ident ends s).
    + apply bool_decide_eq_false in Has. by destruct kw.
Qed.

(** An item, and what follows it in the loop. *)
Lemma select_item_reads x acc ts us b : print_select_item x = Some ts →
  opens (TokComma :: select_ends) select_ends us →
  loop select_ends (λ g k, comma ← next_if_token TokComma;
    if is_none comma then mret (acc ++ [x]) else select_loop k g (acc ++ [x])) us b →
  loop select_ends (λ g k, select_loop k g acc) (ts ++ us) b.
Proof.
  destruct x as [e l]. unfold print_select_item. cbn [fst snd].
  intros (es & He & (ls & Hl & [= <-])%bind_Some)%bind_Some Ho Hloop. eapply loop_next; [by intros; reflexivity|].
  rewrite <-(assoc_L (++)). eapply (loop_skip _ _ _ None).
  { intros rest _. apply takes_if_not. pose proof (expression_started e es TokAsterisk He eq_refl).
    destruct es; [|done]. by destruct (print_printed e 0 [] He) as [(? & ? & ? & _)%derives_climbs%climbs_started _]. }
  cbn [is_some andb]. eapply (loop_bind (KW KwAs :: TokComma :: select_ends)); [by apply phrase_expression| |].
  { eapply opens_app; [|exact Ho]. by eapply opens_option; [done|done|apply after_cons; set_solver|set_solver]. }
  eapply (loop_bind (TokComma :: select_ends) _ (λ _, parse_label)); [by apply label_phrase|done|done].
Qed.
Lemma select_loop_reads x xs acc ts : commas print_select_item x xs = Some ts →
  loop select_ends (λ g k, select_loop k g acc) ts (acc ++ x :: xs).
Proof.
  revert x acc ts. induction xs as [|y xs IH]; intros x acc ts; cbn [commas].
  - intros Hx. rewrite <-(app_nil_r ts). eapply select_item_reads; [done|apply opens_nil; set_solver|].
    eapply (loop_skip _ _ _ None); [|apply loop_ret].
    intros rest Ha. apply takes_if_not. by apply (after_not _ _ _ Ha).
  - intros (us & Hx & (vs & Hy & [= <-])%bind_Some)%bind_Some.
    eapply select_item_reads; [done|apply opens_cons; set_solver|].
    eapply (loop_step _ _ _ _ (Some TokComma)); [done|intros; apply takes_if|]. cbn [is_none].
    replace (acc ++ x :: y :: xs) with ((acc ++ [x]) ++ y :: xs) by (by rewrite <-(assoc_L (++))). by apply IH.
Qed.
Lemma select_clause_phrase l ts : print_items l = Some ts →
  phrase select_ends parse_clause_select (KW KwSelect :: ts) l.
Proof.
  intros Hl. unfold parse_clause_select. reads_. apply (loop_phrase _ (λ g k, select_loop k g [])).
  destruct l as [|x l]; [|by apply (select_loop_reads x l [])]. injection Hl as <-.
  eapply loop_next; [by intros; reflexivity|].
  eapply (loop_step _ _ _ _ (Some TokAsterisk)); [done|intros; apply takes_if|]. apply loop_ret.
Qed.

Lemma select_phrase s ts : print_select s = Some ts → phrase [] parse_statement_select ts (SSelect s).
Proof.
  destruct s as [select from where_ group_by having order offset limit]. unfold print_select.
  cbn [s_select s_from s_where s_group_by s_having s_order s_offset s_limit].
  intros (ss & Hs & (fs & Hf & (ws & Hw & (gs & Hg & (hs & Hh & (os & Ho & (ls & Hl & (xs & Hx & [= <-])
    %bind_Some)%bind_Some)%bind_Some)%bind_Some)%bind_Some)%bind_Some)%bind_Some)%bind_Some.
  unfold parse_statement_select, parse_clause_where, parse_clause_having.
  assert (opens [KW KwOffset] [] xs) as Ox by opened.
  assert (opens order_ends [] (ls ++ xs)) as Ol by (eapply opens_app; [|exact Ox]; opened).
  assert (opens (KW KwOrder :: order_ends) [] (os ++ ls ++ xs)) as Oo by (eapply opens_app; [|exact Ol]; opened).
  assert (opens group_ends [] (hs ++ os ++ ls ++ xs)) as Oh by (eapply opens_app; [|exact Oo]; opened).
  assert (opens (KW KwGroup :: group_ends) [] (gs ++ hs ++ os ++ ls ++ xs)) as Og
    by (eapply opens_app; [|exact Oh]; opened).
  assert (opens from_ends [] (ws ++ gs ++ hs ++ os ++ ls ++ xs)) as Ow by (eapply opens_app; [|exact Og]; opened).
  eapply (phrase_bind select_ends _ _ _ (KW KwSelect :: ss)); [exact (select_clause_phrase select ss Hs)| |].
  { eapply opens_app; [|exact Ow]; opened. }
  eapply phrase_bind; [exact (from_phrase from fs Hf)|exact Ow|].
  eapply phrase_bind; [by apply (optional_phrase (KW KwGroup :: group_ends) KwWhere where_)|exact Og|].
  eapply phrase_bind; [exact (group_by_phrase _ _ Hg)|exact Oh|].
  eapply phrase_bind; [by apply (optional_phrase (KW KwOrder :: order_ends) KwHaving having)|exact Oo|].
  eapply phrase_bind; [exact (order_phrase _ _ Ho)|exact Ol|].
  eapply phrase_bind; [by apply (optional_phrase [KW KwOffset] KwLimit limit)|exact Ox|].
  rewrite <-(app_nil_r xs). eapply phrase_bind; [by eapply (optional_phrase [] KwOffset offset)|apply opens_self|].
  apply phrase_ret.
Qed.

(** ** CREATE TABLE *)

Lemma takes_keyword kw ts : takes next_if_keyword (KW kw :: ts) (Some (KW kw)) ts.
Proof.
  eapply takes_bind; [apply takes_peek_or_none|]. cbn [head].
  eapply takes_bind; [apply takes_next|apply takes_ret].
Qed.
Lemma takes_no_keyword ts : (∀ kw, head ts ≠ Some (KW kw)) → takes next_if_keyword ts None ts.
Proof.
  intros Hk. eapply takes_bind; [apply takes_peek_or_none|].
  destruct (head ts) as [t|]; [|apply takes_ret]. destruct t; try apply takes_ret. by destruct (Hk k).
Qed.

Definition column_ends : list Token := [TokComma; TokCloseParen].
(** What may follow the default of a column. *)
Definition default_ends : list Token := KW KwUnique :: KW KwIndex :: KW KwReferences :: column_ends.

Definition column_reads (c : AstColumn) (ts : list Token) (c' : AstColumn) : Prop :=
  loop column_ends (λ g k, column_loop k g c) ts c'.

Ltac constraint :=
  eapply loop_next; [by intros; reflexivity|];
  eapply (loop_step _ _ _ _ (Some _)); [done|intros; apply takes_keyword|]; cbn iota beta.

Section column.
Context (name : bytes) (type : DataType).

Lemma column_end c : column_reads c [] c.
Proof.
  eapply loop_next; [by intros; reflexivity|]. eapply (loop_skip _ _ _ None); [|apply loop_ret].
  intros rest Ha. apply takes_no_keyword. intros kw. apply (after_not _ _ _ Ha). by destruct kw.
Qed.
Lemma read_references pk nl df u r ts us c : print_option [KW KwReferences] print_ident r = Some ts →
  opens default_ends column_ends us →
  column_reads (Build_AstColumn name type pk nl df u false r) us c →
  column_reads (Build_AstColumn name type pk nl df u false None) (ts ++ us) c.
Proof.
  intros Hr Ho Hc. destruct r as [n|]; cbn [print_option] in Hr; [|by injection Hr as <-].
  apply bind_Some in Hr as (vs & Hn & [= <-]). cbn [app]. constraint.
  eapply (loop_bind default_ends _ (λ _, r ← next_ident; _)); [|exact Ho|exact Hc].
  eapply (phrase_last default_ends default_ends _ (λ r, Build_AstColumn name type pk nl df u false (Some r)));
    [by apply phrase_ident|done].
Qed.

(** Constraints that take only keywords. *)
Lemma read_index pk nl df u (i : bool) r us c :
  column_reads (Build_AstColumn name type pk nl df u i r) us c →
  column_reads (Build_AstColumn name type pk nl df u false r) (print_flag i [KW KwIndex] ++ us) c.
Proof.
  intros Hc. destruct i; [|done]. cbn [print_flag app]. constraint.
  by eapply (loop_skip _ (mret _)); [intros; apply takes_ret|].
Qed.
Lemma read_unique pk nl df (u : bool) us c :
  column_reads (Build_AstColumn name type pk nl df u false None) us c →
  column_reads (Build_AstColumn name type pk nl df false false None) (print_flag u [KW KwUnique] ++ us) c.
Proof.
  intros Hc. destruct u; [|done]. cbn [print_flag app]. constraint.
  by eapply (loop_skip _ (mret _)); [intros; apply takes_ret|].
Qed.
Lemma read_default pk nl df ds us c : print_option [KW KwDefault] (print 0) df = Some ds →
  opens default_ends column_ends us →
  column_reads (Build_AstColumn name type pk nl df false false None) us c →
  column_reads (Build_AstColumn name type pk nl None false false None) (ds ++ us) c.
Proof.
  intros Hd Ho Hc. destruct df as [e|]; cbn [print_option] in Hd; [|by injection Hd as <-].
  apply bind_Some in Hd as (es & He & [= <-]). cbn [app]. constraint.
  eapply (loop_bind default_ends _ (λ k, e ← expression k; _)); [|exact Ho|exact Hc].
  eapply (phrase_last default_ends default_ends _
    (λ e, Build_AstColumn name type pk nl (Some e) false false None)); [by apply phrase_expression|done].
Qed.
Definition print_nullable (nl : option bool) : list Token :=
  match nl with Some true => [KW KwNull] | Some false => [KW KwNot; KW KwNull] | None => [] end.
Lemma read_nullable pk nl us c : column_reads (Build_AstColumn name type pk nl None false false None) us c →
  column_reads (Build_AstColumn name type pk None None false false None) (print_nullable nl ++ us) c.
Proof.
  intros Hc. destruct nl as [[]|]; [| |done]; cbn [print_nullable app]; constraint.
  - rewrite bool_decide_false by done. by eapply (loop_skip _ (mret _)); [intros; apply takes_ret|].
  - eapply (loop_step _ _ _ _ (Build_AstColumn name type pk (Some false) None false false None)); [done| |exact Hc].
    intros vs. eapply takes_bind; [apply takes_expect|]. rewrite bool_decide_false by done. apply takes_ret.
Qed.
Lemma read_primary_key (pk : bool) us c :
  column_reads (Build_AstColumn name type pk None None false false None) us c →
  column_reads (Build_AstColumn name type false None None false false None)
    (print_flag pk [KW KwPrimary; KW KwKey] ++ us) c.
Proof.
  intros Hc. destruct pk; [|done]. cbn [print_flag app]. constraint.
  eapply (loop_step _ _ _ _ (Build_AstColumn name type true None None false false None)); [done| |exact Hc].
  intros vs. eapply takes_bind; [apply takes_expect|]. apply takes_ret.
Qed.
End column.

Lemma column_phrase c ts : print_column c = Some ts → phrase column_ends parse_ddl_columnspec ts c.
Proof.
  destruct c as [name type pk nl df u i r]. unfold print_column.
  cbn [ac_name ac_datatype ac_primary_key ac_nullable ac_default ac_unique ac_index ac_references].
  intros (ns & Hn & (ds & Hd & (rs & Hr & [= <-])%bind_Some)%bind_Some)%bind_Some.
  unfold parse_ddl_columnspec.
  eapply (phrase_bind [print_datatype type] _ (λ _, next_ident)); [by apply phrase_ident|apply opens_cons; set_solver|].
  eapply (phrase_step _ _ _ _ type); [by destruct type| |].
  { intros vs. eapply takes_bind; [apply takes_next|]. destruct type; apply takes_ret. }
  apply (loop_phrase _ (λ g k, column_loop k g _)). apply read_primary_key.
  assert (opens default_ends column_ends (print_flag i [KW KwIndex])) as Hi
    by (destruct i; [apply opens_cons|apply opens_nil]; listed).
  apply (read_nullable name type pk nl). eapply read_default; [done| |].
  { eapply (opens_app _ default_ends); [destruct u; [apply opens_cons|apply opens_self]; listed|].
    eapply (opens_app _ default_ends); [opened|exact Hi]. }
  apply read_unique. eapply read_references; [done|exact Hi|].
  rewrite <-(app_nil_r (print_flag i _)). apply read_index, column_end.
Qed.

Lemma ddl_phrase st ts : print_plain st = Some ts →
  match st with SCreateTable _ _ | SDropTable _ _ => phrase [] parse_ddl ts st | _ => True end.
Proof.
  destruct st as [| | | |name columns|name if_exists| | | |]; try done; cbn [print_plain].
  - intros (ns & Hn & (us & Hc & [= <-])%bind_Some)%bind_Some. unfold parse_ddl, parse_ddl_create_table. do 2 reads_.
    eapply (phrase_bind [TokOpenParen] _ (λ _, next_ident)); [by apply phrase_ident|apply opens_cons; set_solver|].
    reads_. eapply (phrase_bind [TokCloseParen] _ (λ k, comma_list k (parse_ddl_columnspec k)));
      [by eapply comma_phrase; [|apply column_phrase|]|apply opens_cons; set_solver|]. repeat reads_.
  - intros (ns & Hn & [= <-])%bind_Some. unfold parse_ddl, parse_ddl_drop_table. do 2 reads_.
    pose proof (ident_printed _ _ Hn) as [-> Hi]. destruct if_exists; cbn [print_flag app].
    + eapply (phrase_step _ _ _ _ (Some (KW KwIf))); [done|intros; apply takes_keyword|]. cbn iota beta.
      eapply (phrase_step _ _ _ _ true); [done|intros; eapply takes_bind; [apply takes_expect|apply takes_ret]|].
      by eapply (phrase_last [] [] _ (λ n, SDropTable n true)); [apply phrase_ident|].
    + eapply (phrase_skip _ _ _ None); [intros; by apply takes_no_keyword|]. cbn iota beta.
      eapply (phrase_skip _ _ _ false); [intros; apply takes_ret|].
      by eapply (phrase_last [] [] _ (λ n, SDropTable n false)); [apply phrase_ident|].
Qed.

(** ** DELETE, INSERT and UPDATE *)

Lemma delete_phrase table where_ ts : print_plain (SDelete table where_) = Some ts →
  phrase [] parse_statement_delete ts (SDelete table where_).
Proof.
  cbn [print_plain]. intros (ns & Hn & (us & Hw & [= <-])%bind_Some)%bind_Some.
  unfold parse_statement_delete, parse_clause_where. do 2 reads_.
  eapply (phrase_bind [KW KwWhere] _ (λ _, next_ident)); [by apply phrase_ident|opened|].
  by eapply (phrase_last [] [] _ (SDelete table)); [apply optional_phrase|].
Qed.

Lemma row_phrase row ts : print_row row = Some ts →
  phrase [TokComma] (λ k, _ ← next_expect TokOpenParen; paren_list k (expression k)) ts row.
Proof.
  unfold print_row. intros (us & Hu & [= <-])%bind_Some. reads_.
  eapply paren_phrase; [|done]. intros e es He. by apply phrase_expression.
Qed.
Lemma insert_phrase table columns values ts : print_plain (SInsert table columns values) = Some ts →
  phrase [] parse_statement_insert ts (SInsert table columns values).
Proof.
  cbn [print_plain]. intros (ns & Hn & (cs & Hc & (us & Hv & [= <-])%bind_Some)%bind_Some)%bind_Some.
  unfold parse_statement_insert. do 2 reads_.
  assert (phrase [] (λ k, values ← comma_list k (_ ← next_expect TokOpenParen; paren_list k (expression k));
    mret (SInsert table columns values)) us (SInsert table columns values)) as Hvalues.
  { eapply (phrase_last [] [] (λ k, comma_list k (_ ← next_expect TokOpenParen; paren_list k (expression k)))
      (SInsert table columns)); [|done]. by eapply comma_phrase; [|apply row_phrase|]. }
  eapply (phrase_bind [TokOpenParen; KW KwValues] _ (λ _, next_ident)); [by apply phrase_ident| |].
  { eapply (opens_app _ [KW KwValues]); [opened|apply opens_cons; set_solver]. }
  destruct columns as [columns|]; cbn [print_option] in Hc.
  - apply bind_Some in Hc as (vs & (ws & Hw & [= <-])%bind_Some & [= <-]). cbn [app]. reads_.
    eapply (phrase_bind [KW KwValues] _ (λ k, cols ← paren_list k next_ident; mret (Some cols))).
    + eapply (phrase_last _ [KW KwValues] _ Some); [|done]. eapply paren_phrase; [|done]. intros; by apply phrase_ident.
    + apply opens_cons; set_solver.
    + by reads_.
  - injection Hc as <-. cbn [app]. reads_. cbn [is_some].
    eapply (phrase_skip _ _ _ None); [intros; apply takes_ret|]. by reads_.
Qed.

Lemma increasing_sorted {A} (l : list (bytes * A)) : increasing l = true → bt_sorted bytes_cmp l.
Proof.
  intros Hl. apply Sorted_StronglySorted; [intros x y z; unfold key_lt; apply cmp_trans|].
  induction l as [|[x a] l IH]; [constructor|]. destruct l as [|[y b] l]; [by repeat constructor|].
  cbn [increasing] in Hl. apply andb_true_iff in Hl as [Hxy%bool_decide_eq_true Hl].
  constructor; [by apply IH|by constructor].
Qed.
Lemma bt_get_above {A} k (m : list (bytes * A)) : Forall (λ x, bytes_cmp x.1 k = Lt) m → bt_get bytes_cmp k m = None.
Proof.
  induction 1 as [|[k' v] m Hk Hm IH]; cbn [bt_get]; [done|]. by rewrite (proj2 (cmp_gt k k') Hk).
Qed.

(** An assignment to a column above those before it. *)
Lemma assignment_reads x acc ts us b : print_assignment x = Some ts → Forall (λ y, bytes_cmp y.1 x.1 = Lt) acc →
  opens [TokComma; KW KwWhere] [KW KwWhere] us →
  loop [KW KwWhere] (λ g k, comma ← next_if_token TokComma;
    if is_none comma then mret (acc ++ [x]) else set_loop k g (acc ++ [x])) us b →
  loop [KW KwWhere] (λ g k, set_loop k g acc) (ts ++ us) b.
Proof.
  destruct x as [c e]. unfold print_assignment. cbn [fst snd].
  intros (cs & Hc & (es & He & [= <-])%bind_Some)%bind_Some Hlt Ho Hloop.
  eapply loop_next; [by intros; reflexivity|]. rewrite <-(assoc_L (++)). cbn [app].
  eapply (loop_bind [TokEqual] _ (λ _, next_ident)); [by apply phrase_ident|apply opens_cons; set_solver|].
  eapply (loop_step _ _ _ _ TokEqual); [done|intros; apply takes_expect|].
  eapply (loop_bind [TokComma; KW KwWhere]); [by apply phrase_expression|done|].
  cbn beta. rewrite bt_get_above by done. rewrite (bt_insert_last bytes_cmp) by done. exact Hloop.
Qed.
Lemma set_loop_reads x xs acc ts : commas print_assignment x xs = Some ts →
  bt_sorted bytes_cmp (acc ++ x :: xs) → loop [KW KwWhere] (λ g k, set_loop k g acc) ts (acc ++ x :: xs).
Proof.
  revert x acc ts. induction xs as [|y xs IH]; intros x acc ts; cbn [commas]; intros Hts Hs;
    (assert (Forall (λ y, bytes_cmp y.1 x.1 = Lt) acc) as Hlt;
     [apply sorted_app_inv in Hs as (_ & _ & Hlt); apply Forall_forall; intros z Hz; apply (Hlt z x); [done|set_solver]|]).
  - rewrite <-(app_nil_r ts). eapply assignment_reads; [done..|apply opens_nil; set_solver|].
    eapply (loop_skip _ _ _ None); [|apply loop_ret].
    intros rest Ha. apply takes_if_not. by apply (after_not _ _ _ Ha).
  - apply bind_Some in Hts as (us & Hx & (vs & Hy & [= <-])%bind_Some).
    eapply assignment_reads; [done..|apply opens_cons; set_solver|].
    eapply (loop_step _ _ _ _ (Some TokComma)); [done|intros; apply takes_if|]. cbn [is_none].
    replace (acc ++ x :: y :: xs) with ((acc ++ [x]) ++ y :: xs) in * by (by rewrite <-(assoc_L (++))).
    by apply IH.
Qed.
Lemma update_phrase table set_ where_ ts : print_plain (SUpdate table set_ where_) = Some ts →
  phrase [] parse_statement_update ts (SUpdate table set_ where_).
Proof.
  cbn [print_plain]. destruct (increasing set_) eqn:Hs; [|done]. apply increasing_sorted in Hs.
  intros (ns & Hn & (us & Hu & (ws & Hw & [= <-])%bind_Some)%bind_Some)%bind_Some.
  unfold parse_statement_update, parse_clause_where. reads_.
  eapply (phrase_bind [KW KwSet] _ (λ _, next_ident)); [by apply phrase_ident|apply opens_cons; set_solver|]. reads_.
  destruct set_ as [|x set_]; [done|].
  eapply (phrase_bind [KW KwWhere] _ (λ k, set_loop k k []));
    [by apply (loop_phrase _ (λ g k, set_loop k g [])), (set_loop_reads x set_ [])|opened|].
  by eapply (phrase_last [] [] _ (SUpdate table (x :: set_))); [apply optional_phrase|].
Qed.

(** ** Transactions *)

(** A number up to the limit is read from its digits. *)
Lemma version_printed v ts : print_version v = Some ts →
  ∃ n, ts = [TokNumber n] ∧ token_text (TokNumber n) ∧ parse_u64 (chars n) = Ok v.
Proof.
  unfold print_version. destruct (N.leb_spec v u64_max) as [Hv|]; [|done].
  destruct (digits_spec u64_max 20 v) as (Hp & Hd & Hne);
    [change (10 ^ N.of_nat 20) with 100000000000000000000; unfold u64_max in Hv; lia|done|].
  specialize (Hne ltac:(done)). generalize dependent (digits 20 v). intros ds Hp Hd Hne [= <-].
  assert (chars (str ds) = ds) as Hc.
  { apply chars_str. eapply Forall_impl; [exact Hd|]. intros c Hcd.
    destruct (digit_char c Hcd). left. unfold is_ascii in *. lia. }
  exists (str ds). split_and!; [done|by eexists|]. rewrite Hc. unfold parse_u64, parse_unsigned. by destruct ds.
Qed.

Lemma transaction_phrase st ts : print_plain st = Some ts →
  match st with SBegin _ _ | SCommit | SRollback => phrase [] (λ _, parse_transaction) ts st | _ => True end.
Proof.
  destruct st as [read_only as_of| | | | | | | | |]; try done; cbn [print_plain];
    [|intros [= <-]; unfold parse_transaction; repeat reads_..].
  intros (vs & Hv & [= <-])%bind_Some. unfold parse_transaction. reads_.
  assert (phrase [] (λ _ : nat, as_ ← next_if_kw KwAs;
    version ← (if as_ : bool then
                 _ ← expect_kw KwOf; _ ← expect_kw KwSystem; _ ← expect_kw KwTime; t ← next;
                 match t with
                 | TokNumber n => v ← lift (parse_u64 (chars n)); mret (Some v)
                 | token => lift (parse_error "Unexpected token {}, wanted number" [shown token])
                 end
               else mret None);
    mret (SBegin read_only version)) vs (SBegin read_only as_of)) as Has.
  { destruct as_of as [v|]; cbn [print_option] in Hv.
    - apply bind_Some in Hv as (ws & (n & -> & Hn & Hp)%version_printed & [= <-]). cbn [app]. reads_.
      eapply (phrase_last [] [] (λ _ : nat, _) (SBegin read_only)); [|done]. do 3 reads_.
      eapply (phrase_step _ _ _ _ (TokNumber n)); [done|intros; apply takes_next|]. cbn iota beta. rewrite Hp.
      eapply (phrase_skip _ _ _ v); [intros rest _ p Hf; by exists p|apply phrase_ret].
    - injection Hv as <-. reads_. eapply (phrase_skip _ _ _ None); [intros; apply takes_ret|]. repeat reads_. }
  destruct read_only; cbn [print_flag app].
  - do 2 reads_. eapply (phrase_step _ _ _ _ true); [done|intros; eapply takes_bind; [apply takes_next|apply takes_ret]|].
    exact Has.
  - assert (opens [KW KwAs] [] vs) as Ho by opened.
    do 2 (eapply (phrase_skip _ _ _ false);
      [intros rest Ha; apply takes_kw_not; by apply (after_not _ _ _ (Ho rest Ha))|]; cbn iota beta).
    eapply (phrase_skip _ _ _ false); [intros; apply takes_ret|]. exact Has.
Qed.

(** ** Statements *)

Definition first_keyword (st : Statement) : Keyword :=
  match st with
  | SBegin _ _ => KwBegin | SCommit => KwCommit | SRollback => KwRollback | SExplain _ => KwExplain
  | SCreateTable _ _ => KwCreate | SDropTable _ _ => KwDrop | SDelete _ _ => KwDelete
  | SInsert _ _ _ => KwInsert | SUpdate _ _ _ => KwUpdate | SSelect _ => KwSelect
  end.
Lemma print_plain_head st ts : print_plain st = Some ts → ∃ us, ts = KW (first_keyword st) :: us.
Proof.
  destruct st; cbn [print_plain first_keyword]; try done; try (by intros [= <-]; eexists);
    try (destruct (increasing _); [|done]);
    intros Hts; unfold print_select in Hts;
    repeat (apply bind_Some in Hts as (? & _ & Hts)); injection Hts as <-; by eexists.
Qed.

Lemma plain_phrase x st ts : print_plain st = Some ts → phrase [] (λ k, parse_plain_statement k (x k)) ts st.
Proof.
  intros Hts. destruct (print_plain_head st ts Hts) as [us ->]. unfold parse_plain_statement.
  eapply (phrase_skip _ _ _ (Some (KW (first_keyword st)))); [intros rest _; apply takes_peek|].
  destruct st; cbn [first_keyword] in *; try done.
  - exact (transaction_phrase _ _ Hts).
  - exact (transaction_phrase _ _ Hts).
  - exact (transaction_phrase _ _ Hts).
  - exact (ddl_phrase _ _ Hts).
  - exact (ddl_phrase _ _ Hts).
  - by apply delete_phrase.
  - by apply insert_phrase.
  - by apply update_phrase.
  - by apply select_phrase.
Qed.

Lemma statement_phrase st ts : print_statement st = Some ts → phrase [] parse_statement ts st.
Proof.
  unfold parse_statement. destruct st as [| | |st| | | | | |]; try apply plain_phrase.
  cbn [print_statement]. intros (us & Hu & [= <-])%bind_Some. unfold parse_plain_statement at 1.
  eapply (phrase_skip _ _ _ (Some (KW KwExplain))); [intros rest _; apply takes_peek|].
  unfold parse_statement_explain. reads_. destruct (print_plain_head st us Hu) as [vs ->].
  eapply (phrase_skip _ _ _ (Some (KW (first_keyword st)))); [intros rest _; apply takes_peek|].
  destruct st; try done; cbn [first_keyword] in *;
    (eapply (phrase_last [] [] (λ k, parse_plain_statement k (lift (Panic "nested EXPLAIN"))) SExplain);
     [exact (plain_phrase (λ _, lift (Panic "nested EXPLAIN")) _ _ Hu)|done]).
Qed.

Lemma token_scalar t : token_text t → Forall scalar (print_token t ++ [32]).
Proof.
  intros Ht. assert (∀ q cs, scalar q → Forall scalar cs → Forall scalar (double q cs)) as Hdouble.
  { intros q cs Hq. induction 1 as [|c cs Hc Hcs IH]; [constructor|].
    change (double q (c :: cs)) with ((if c =? q then [q; q] else [c]) ++ double q cs).
    apply Forall_app. split; [|done]. destruct (c =? q); auto. }
  assert (∀ c, c < 128 → scalar c) as Hs by (intros c Hc; left; lia).
  assert (∀ cs, forallb (λ c, c <? 128) cs = true → Forall scalar cs) as Hascii.
  { intros cs. rewrite forallb_forall, Forall_forall. intros Hcs c Hc%list_elem_of_In%Hcs%N.ltb_lt. auto. }
  apply Forall_app. split; [|by apply Hascii].
  destruct t as [n|s|s|k| | | | | | | | | | | | | | | | | | | |]; cbn [print_token show_token];
    try (by apply Hascii).
  - destruct Ht as (ds & -> & _ & Hd). assert (Forall scalar ds) as Hds.
    { eapply Forall_impl; [exact Hd|]. intros c Hc. apply Hs. destruct (digit_char c Hc). done. }
    by rewrite chars_str.
  - constructor; [by apply Hs|]. apply Forall_app. split; [|by apply Hascii].
    apply Hdouble; [by apply Hs|by apply chars_scalar].
  - constructor; [by apply Hs|]. apply Forall_app. split; [|by apply Hascii].
    apply Hdouble; [by apply Hs|by apply chars_scalar].
  - destruct k; by apply Hascii.
Qed.
Lemma tokens_scalar ts : Forall token_text ts → Forall scalar (print_tokens ts).
Proof.
  induction 1 as [|t ts Ht Hts IH]; [constructor|]. unfold print_tokens in *. cbn [mbind list_bind].
  apply Forall_app. split; [by apply token_scalar|done].
Qed.

(** The parser reads a statement from any text with its tokens. *)
Lemma parse_tokens st q ts : utf8_valid q = true → lexes (chars q) ts → print_statement st = Some ts →
  parse q = Ok st.
Proof.
  intros Hv Hq Hts. destruct (statement_phrase st ts Hts) as [_ Hp]. destruct (Hp [] (after_nil [])) as [n Hn].
  rewrite app_nil_r in Hn.
  assert (takes (parse_parser (Nat.max n (S (length (chars q))))) ts st []) as Htakes.
  { unfold parse_parser. eapply takes_bind; [apply Hn; lia|]. eapply takes_bind; [by apply takes_if_not|].
    eapply takes_bind; [|apply takes_ret]. eapply takes_bind; [apply takes_peek|apply takes_ret]. }
  destruct (Htakes (parser_new q) Hq) as (p' & E & _).
  pose proof (parse_returns q Hv) as Hr. unfold parse in *.
  destruct (parse_parser_approx (S (length (chars q))) (Nat.max n (S (length (chars q)))) ltac:(lia) (parser_new q))
    as [(w & p1 & E1)|E1]; [by rewrite E1 in Hr|]. by rewrite E1, E.
Qed.

(** The parser reads a statement back from its text. *)
Lemma statement_read st q : statement_text st = Some q → parse q = Ok st.
Proof.
  unfold statement_text. intros (ts & Hts & [= <-])%bind_Some.
  destruct (statement_phrase st ts Hts) as [Ht _].
  apply (parse_tokens st _ ts); [by apply str_valid, tokens_scalar| |done].
  rewrite chars_str by (by apply tokens_scalar). by apply print_tokens_lexes.
Qed.

(** A query of one keyword. *)
Lemma lex_last_word k c cs : Forall (λ c, ascii_upper c = true) (c :: cs) → from_str (c :: cs) = Some k →
  lexes (c :: cs) [KW k].
Proof.
  intros [Hc Hcs]%Forall_cons Hk. destruct (upper_char c Hc) as (Ha & Hs & H1 & H2 & H3).
  assert (next_while (λ c, is_alphanumeric c || (c =? ch "_")) cs = (cs, [])) as Hw.
  { clear -Hcs H0. induction Hcs as [|x cs Hx Hcs IH]; [done|]. cbn [next_while].
    destruct (upper_char x Hx) as (Hxa & _). unfold is_alphanumeric at 1. by rewrite alphabetic_ascii, Hx, IH. }
  assert (lexer_next (c :: cs) = (Some (Ok (KW k)), [])) as E.
  { unfold lexer_next. rewrite scan_at, H1, H2, H3, Hc by done. cbn [orb]. unfold scan_ident. cbn [next_if_char].
    rewrite alphabetic_ascii, Hc by done. cbn [orb]. by rewrite Hw, Hk. }
  cbn [lexes]. rewrite E. by split.
Qed.
Lemma parse_keyword k st : print_statement st = Some [KW k] → parse (str (text (to_str k))) = Ok st.
Proof.
  intros Hst. apply (parse_tokens st _ [KW k]); [by destruct k| |done].
  replace (chars (str (text (to_str k)))) with (text (to_str k)) by (by destruct k).
  destruct k; (apply lex_last_word; [by repeat constructor|]);
    unfold from_str; (rewrite uppercase_ascii; [reflexivity|by repeat constructor]).
Qed.
End clauses.

Open Scope nat_scope.

(** C15. Parsing returns for every query text: the loops and the recursion of
    the parser end, it never panics, an error is a syntax error or a value
    error, and a statement it returns has valid names and literals and no
    EXPLAIN of an EXPLAIN. *)
Theorem parse_total `{UnicodeLaws} q : utf8_valid q = true →
  (∃ st, parse q = Ok st ∧ statement_formed st) ∨ (∃ e, parse q = Err e ∧ syntax_error e).
Proof.
  intros Hq. pose proof (parse_returns q Hq) as Hp.
  destruct (parse q) as [st|e|]; [left|right|done]; eauto.
Qed.

Lemma parse_total_witness :
  let _ := ascii_unicode in
  (∃ st, parse (str (text "SELECT -(1 + x) IS NOT NULL FROM t")) = Ok st ∧ statement_formed st) ∧
  ∃ e, parse (str (text "SELECT -(1 + x")) = Err e ∧ syntax_error e.
Proof.
  intros U. split.
  - destruct (@parse_total U ascii_unicode_laws (str (text "SELECT -(1 + x) IS NOT NULL FROM t"))) as
      [Hok|(e & He & _)]; [reflexivity|exact Hok|vm_compute in He; discriminate He].
  - destruct (@parse_total U ascii_unicode_laws (str (text "SELECT -(1 + x"))) as
      [(st & Hst & _)|Herr]; [reflexivity|vm_compute in Hst; discriminate Hst|exact Herr].
Defined.

(** C16. Every statement that has a text is read back from it: the parser
    returns exactly the statement, with all its clauses and constraints, and
    expressions need no parentheses where precedence and associativity imply
    them. A statement has a text unless it has a number literal that is not
    written in digits, a name that is not UTF-8, or a shape that the syntax does
    not have. *)
Theorem statement_roundtrip `{UnicodeLaws} st q : statement_text st = Some q → parse q = Ok st.
Proof. apply statement_read. Qed.

(** Names and literals of the example. *)
Definition col (s : string) : AstExpression := AField None (str (text s)).
Definition num (i : Z) : AstExpression := ALiteral (LInteger i).
Definition sample_select : SelectStatement := {|
  s_select := [(AFunction (str (text "max")) [AOperation (AExponentiate (AOperation (ANegate (num 2)))
                 (AOperation (AExponentiate (col "x") (num 3))))], Some (str (text "m")));
               (AOperation (ASubtract (AOperation (ASubtract (num 1) (col "y"))) (AOperation (AAdd (num 2) (num 3)))), None)];
  s_from := [FJoin (FTable (str (text "a")) None) (FTable (str (text "b")) (Some (str (text "c")))) JLeft
               (Some (AOperation (AEqual (AField (Some (str (text "a"))) (str (text "id"))) (col "b_id"))))];
  s_where := Some (AOperation (AAnd (AOperation (ANot (AOperation (AIsNull (col "x")))))
    (AOperation (AOr (AOperation (ALike (col "z") (ALiteral (LString (str (text "it's")))))) (ALiteral (LBoolean true))))));
  s_group_by := [col "x"; col "y"];
  s_having := Some (AOperation (AGreaterThan (col "m") (ALiteral (LFloat (S754_infinity false)))));
  s_order := [(col "x", ODescending); (AOperation (AFactorial (col "y")), OAscending)];
  s_offset := Some (num 5);
  s_limit := Some (num 10)
|}.

Lemma statement_roundtrip_witness :
  let _ := ascii_unicode in
  ∃ q, statement_text (SExplain (SSelect sample_select)) = Some q ∧ parse q = Ok (SExplain (SSelect sample_select)).
Proof.
  intros U. eexists. split; [vm_compute; reflexivity|].
  apply (@statement_roundtrip U ascii_unicode_laws). vm_compute. reflexivity.
Defined.
