(* ===== verification/SqlSample.v ===== *)
(** Instances of the parameters of the SQL components, and a small database in
    the in-memory engine, for examples. *)
From Stdlib Require Import Strings.Byte Strings.String NArith ZArith Lia Floats.SpecFloat.
From stdpp Require Import base list gmap countable strings.
From S2P Require Import Prelude BTreeMap KeyCode Engine Memory Bincode Mvcc MvccClaims SqlTypes.
From S2P Require Import SqlExpression SqlClaims SqlSchema SqlKeys SqlKv SqlStore SqlIntegrity.
From S2P Require Import SqlWrites SqlCatalog SqlMvcc SqlLexer SqlValid.

Open Scope N_scope.

(** * Encodings *)

#[export] Instance spec_float_countable : Countable spec_float.
Proof.
  refine (inj_countable'
    (λ f, match f with
          | S754_zero s => inl (inl s) | S754_infinity s => inl (inr s)
          | S754_nan => inr (inl tt) | S754_finite s m e => inr (inr (s, m, e)) end)
    (λ c, match c with
          | inl (inl s) => S754_zero s | inl (inr s) => S754_infinity s
          | inr (inl tt) => S754_nan | inr (inr (s, m, e)) => S754_finite s m e end) _).
  by intros [].
Defined.

#[export] Instance Value_countable : Countable Value.
Proof.
  refine (inj_countable'
    (λ v, match v with
          | Null => inl (inl tt) | Boolean b => inl (inr b) | Integer i => inr (inl i)
          | Float f => inr (inr (inl f)) | SqlTypes.String s => inr (inr (inr s)) end)
    (λ c, match c with
          | inl (inl tt) => Null | inl (inr b) => Boolean b | inr (inl i) => Integer i
          | inr (inr (inl f)) => Float f | inr (inr (inr s)) => SqlTypes.String s end) _).
  by intros [].
Defined.

(** A schema as a list of rows, one for each column. *)
Definition type_code (t : DataType) : Z :=
  match t with TBoolean => 0 | TInteger => 1 | TFloat => 2 | TString => 3 end.
Definition column_row (c : SqlSchema.Column) : Row :=
  [SqlTypes.String (c_name c); Integer (type_code (c_datatype c)); Boolean (c_primary_key c);
   Boolean (c_nullable c); Boolean (bool_decide (is_Some (c_default c))); default Null (c_default c);
   Boolean (c_unique c); match c_references c with Some r => SqlTypes.String r | None => Null end;
   Boolean (c_index c)].
Definition row_column (r : Row) : SqlSchema.Column :=
  match r with
  | [SqlTypes.String n; Integer d; Boolean pk; Boolean nl; Boolean has; v; Boolean u; ref; Boolean i] =>
      {| c_name := n;
         c_datatype := match d with 0 => TBoolean | 1 => TInteger | 2 => TFloat | _ => TString end%Z;
         c_primary_key := pk; c_nullable := nl; c_default := if has then Some v else None;
         c_unique := u;
         c_references := match ref with SqlTypes.String r => Some r | _ => None end;
         c_index := i |}
  | _ => {| c_name := []; c_datatype := TBoolean; c_primary_key := false; c_nullable := false;
            c_default := None; c_unique := false; c_references := None; c_index := false |}
  end.

Lemma row_column_row c : row_column (column_row c) = c.
Proof. by destruct c as [? [] ? ? [] ? [] ?]. Qed.

#[export] Instance Table_countable : Countable Table.
Proof.
  refine (inj_countable' (λ t, [SqlTypes.String (t_name t)] :: (column_row <$> t_columns t))
    (λ l, match l with
          | [SqlTypes.String n] :: rows => {| t_name := n; t_columns := row_column <$> rows |}
          | _ => {| t_name := []; t_columns := [] |}
          end) _).
  intros [n cs]. cbn [t_name t_columns]. f_equal. rewrite <-list_fmap_compose.
  induction cs as [|c cs IH]; [done|]. rewrite fmap_cons, IH. f_equal. apply row_column_row.
Defined.

Definition sample_bin_version : Bincode N := countable_bincode N.
Definition sample_bin_active : Bincode (gset N) := countable_bincode (gset N).
Definition sample_bin_value : Bincode (option bytes) := countable_bincode (option bytes).
Definition sample_bin_row : Bincode (list Value) := countable_bincode (list Value).
Definition sample_bin_table : Bincode Table := countable_bincode Table.

#[export] Existing Instances sample_bin_version sample_bin_active sample_bin_value sample_bin_row
  sample_bin_table.
#[export] Instance sample_version_laws : BincodeLaws N := countable_bincode_laws N.
#[export] Instance sample_active_laws : BincodeLaws (gset N) := countable_bincode_laws (gset N).
#[export] Instance sample_value_laws : BincodeLaws (option bytes) := countable_bincode_laws (option bytes).
#[export] Instance sample_row_laws : BincodeLaws (list Value) := countable_bincode_laws (list Value).
#[export] Instance sample_table_laws : BincodeLaws Table := countable_bincode_laws Table.

#[export] Existing Instances sample_libm sample_regex ascii_unicode ascii_unicode_laws.

#[export] Instance sample_libm_laws : LibmLaws.
Proof. by split. Qed.

(** * A database *)

Definition name (s : string) : bytes := str (text s).

Definition column (n : string) (d : DataType) : SqlSchema.Column := {|
  c_name := name n; c_datatype := d; c_primary_key := false; c_nullable := true;
  c_default := Some Null; c_unique := false; c_references := None; c_index := false |}.

(** Books with a title that is indexed, and a predecessor. *)
Definition books : Table := {|
  t_name := name "books";
  t_columns :=
    [{| c_name := name "id"; c_datatype := TInteger; c_primary_key := true; c_nullable := false;
        c_default := None; c_unique := true; c_references := None; c_index := false |};
     {| c_name := name "title"; c_datatype := TString; c_primary_key := false; c_nullable := true;
        c_default := Some Null; c_unique := false; c_references := None; c_index := true |};
     {| c_name := name "prequel"; c_datatype := TInteger; c_primary_key := false; c_nullable := true;
        c_default := Some Null; c_unique := false; c_references := Some (name "books");
        c_index := false |}] |}.

Definition dune : Row := [Integer 1; SqlTypes.String (name "dune"); Null].
Definition messiah : Row := [Integer 2; SqlTypes.String (name "dune messiah"); Integer 1].

Lemma books_declared : declared books.
Proof.
  split; cbn [t_name t_columns books]; [done|..].
  - by repeat constructor.
  - apply (bool_decide_unpack _). vm_compute. exact I.
  - repeat constructor; cbn; intros [?|[?|[? ?]]]; done.
  - repeat constructor; cbn; intros ?; try done. by intros [= <-].
  - repeat constructor; cbn; intros ?; try done; by intros [= <-].
Qed.

Definition empty_store : Store := {|
  tables := λ _, None; rows := λ _ _, None; index := λ _ _ _, [] |}.

Lemma empty_integrity : integrity empty_store.
Proof.
  split; [by split|]. split; [intros; constructor|]. cbn. intros n c v id.
  split; [by intros ?%not_elem_of_nil|]. by intros (? & ? & ? & ? & ? & _).
Qed.

Lemma empty_holds : holds ∅ empty_store.
Proof. split; [by intros kb vb Hget; rewrite lookup_empty in Hget|]. intros k Hk. by destruct k. Qed.

(** The in-memory engine takes every write. *)
Lemma memory_takes_all (k v : bytes) : eng_writable (E:=Memory) k v.
Proof. exact I. Qed.

(** The first transaction. *)
Definition first_txn : TransactionState := {| version := 1; read_only := false; active := ∅ |}.
#[export] Instance first_store : KvStore Memory := mvcc_store first_txn.
#[export] Instance first_laws : KvLaws Memory :=
  mvcc_laws memory_takes_all (solo first_txn ∅) first_txn (solo_kept first_txn ∅).

Definition began : Memory := (begin Memory.new).2.
Definition with_books : Memory := (create_table books began).2.
Definition with_dune : Memory := (create (name "books") dune with_books).2.
Definition with_messiah : Memory := (create (name "books") messiah with_dune).2.

Lemma memory_database : database 1 Memory.new ∅.
Proof. apply empty_database; [apply memory_new_inv|done]. Qed.

Lemma began_sees : sees began empty_store.
Proof.
  destruct (begin_txn 1 Memory.new ∅ memory_takes_all) as (st & e & Hb & _ & _ & Hrep);
    [done|apply memory_database|].
  assert (begin Memory.new = (Ok first_txn, began)) as Hf by (vm_compute; reflexivity).
  rewrite Hf in Hb. injection Hb as <- <-. exists ∅. split; [exact Hrep|apply empty_holds].
Qed.

Definition books_store : Store := with_table empty_store (name "books") (Some books).

Lemma with_books_sees : sees with_books books_store ∧ integrity books_store.
Proof.
  pose proof (create_table_runs empty_store books empty_integrity books_declared began began_sees) as Hr.
  assert (create_table books began = (Ok tt, with_books)) as Hc by (vm_compute; reflexivity).
  rewrite Hc in Hr. destruct Hr as (s & Hs & -> & _ & _ & Hi). by split.
Qed.

Lemma dune_valid : Forall value_valid dune.
Proof. by repeat constructor. Qed.
Lemma messiah_valid : Forall value_valid messiah.
Proof. by repeat constructor. Qed.

(** One book, and two. *)
Lemma with_dune_sees : ∃ s, sees with_dune s ∧ integrity s ∧ tables s (name "books") = Some books ∧
  rows s (name "books") (Integer 1) = Some dune.
Proof.
  destruct with_books_sees as [Hsees Hint].
  pose proof (create_runs books_store (name "books") dune Hint eq_refl dune_valid with_books Hsees) as Hr.
  assert (create (name "books") dune with_books = (Ok tt, with_dune)) as Hc by (vm_compute; reflexivity).
  rewrite Hc in Hr. destruct Hr as (s & Hs & t & id & Ht & Hid & _ & [HT HR] & Hi).
  exists s. split; [done|]. split; [done|]. rewrite HT, HR. split; [done|]. rewrite rows_put.
  injection Ht as <-. injection Hid as <-. by rewrite decide_True.
Qed.

Lemma with_messiah_sees : ∃ s, sees with_messiah s ∧ integrity s ∧
  tables s (name "books") = Some books ∧ rows s (name "books") (Integer 1) = Some dune ∧
  rows s (name "books") (Integer 2) = Some messiah.
Proof.
  destruct with_dune_sees as (s1 & Hsees & Hint & Ht1 & Hr1).
  pose proof (create_runs s1 (name "books") messiah Hint eq_refl messiah_valid with_dune Hsees) as Hr.
  assert (create (name "books") messiah with_dune = (Ok tt, with_messiah)) as Hc by (vm_compute; reflexivity).
  rewrite Hc in Hr. destruct Hr as (s & Hs & t & id & Ht & Hid & _ & [HT HR] & Hi).
  exists s. split; [done|]. split; [done|]. rewrite HT, !HR, !rows_put. split; [done|].
  rewrite Ht1 in Ht. injection Ht as <-. injection Hid as <-.
  split; [rewrite decide_False; [exact Hr1|]|rewrite decide_True; [done|by split]].
  intros [_ Hx]. discriminate Hx.
Qed.
