(* ===== verification/SqlDisplay.v ===== *)
(** Text for output: the implementations of Display for values, expressions,
    schemas and plans (src/src/sql/types, schema.rs, plan/mod.rs, and format_ident
    of parser/mod.rs).

    Text is the list of its characters.  The class [Formatting] is what the code
    takes from elsewhere: the word characters of the regex crate, and the decimal
    text of a float. *)
From Stdlib Require Import Strings.Byte Strings.Ascii Strings.String NArith ZArith Lia
  Floats.SpecFloat.
From stdpp Require Import base list strings.
From S2P Require Import Prelude BTreeMap KeyCode Engine SqlTypes SqlExpression SqlSchema SqlKeys SqlKv.
From S2P Require Import SqlPlan SqlAst SqlLexer SqlParser SqlLexSpec SqlPlanner SqlPlanSafe.
From S2P Require Import SqlParserSpec SqlGrammar SqlPrint SqlStatementPrint SqlParserClaims SqlSample.

Open Scope N_scope.

Class Formatting := {
  is_word : char → bool;
  show_f64 : spec_float → list char
}.

(** * Values and expressions *)

(** [slice::join] on strings. *)
Fixpoint join (sep : list char) (l : list (list char)) : list char :=
  match l with
  | [] => []
  | [s] => s
  | s :: l => s ++ sep ++ join sep l
  end.

(** Integers in decimal. *)
Definition show_u64 (n : N) : list char := digits 20 n.
Definition show_i64 (i : Z) : list char :=
  if (i <? 0)%Z then ch "-" :: digits 20 (Z.to_N (- i)) else digits 20 (Z.to_N i).

Definition show_datatype (t : DataType) : list char :=
  match t with
  | TBoolean => text "BOOLEAN"
  | TInteger => text "INTEGER"
  | TFloat => text "FLOAT"
  | TString => text "STRING"
  end.

Section display.
Context `{Formatting, Unicode}.

Definition show_value (v : Value) : list char :=
  match v with
  | Null => text "NULL"
  | Boolean true => text "TRUE"
  | Boolean false => text "FALSE"
  | Integer i => show_i64 i
  | Float f => show_f64 f
  | String s => chars s
  end.

Fixpoint show_expression (e : Expression) : list char :=
  let infix l op r := show_expression l ++ text op ++ show_expression r in
  match e with
  | Constant v => show_value v
  | Field i None => text "#" ++ show_u64 i
  | Field _ (Some (None, name)) => chars name
  | Field _ (Some (Some table, name)) => chars table ++ text "." ++ chars name
  | And l r => infix l " AND " r
  | Or l r => infix l " OR " r
  | Not e => text "NOT " ++ show_expression e
  | Equal l r => infix l " = " r
  | GreaterThan l r => infix l " > " r
  | LessThan l r => infix l " < " r
  | IsNull e => show_expression e ++ text " IS NULL"
  | Add l r => infix l " + " r
  | Assert e => show_expression e
  | Divide l r => infix l " / " r
  | Exponentiate l r => infix l " ^ " r
  | Factorial e => text "!" ++ show_expression e
  | Modulo l r => infix l " % " r
  | Multiply l r => infix l " * " r
  | Negate e => text "-" ++ show_expression e
  | Subtract l r => infix l " - " r
  | Like l r => infix l " LIKE " r
  end.

(** * Schemas *)

(** A match of [^\w[\w_]*$]. *)
Definition is_identifier (cs : list char) : bool :=
  match cs with [] => false | c :: cs => is_word c && forallb (λ c, is_word c || (c =? ch "_")) cs end.

Definition format_ident (ident : bytes) : list char :=
  let cs := chars ident in
  if is_identifier cs && is_none (from_str cs) then cs else 34 :: double 34 cs ++ [34].

Definition show_column (c : Column) : list char :=
  let sql := format_ident (c_name c) in
  let sql := sql ++ text " " ++ show_datatype (c_datatype c) in
  let sql := if c_primary_key c then sql ++ text " PRIMARY KEY" else sql in
  let sql := if negb (c_nullable c) && negb (c_primary_key c) then sql ++ text " NOT NULL" else sql in
  let sql := match c_default c with Some d => sql ++ text " DEFAULT " ++ show_value d | None => sql end in
  let sql := if c_unique c && negb (c_primary_key c) then sql ++ text " UNIQUE" else sql in
  let sql := match c_references c with Some r => sql ++ text " REFERENCES " ++ chars r | None => sql end in
  if c_index c then sql ++ text " INDEX" else sql.

Definition show_table (t : Table) : list char :=
  text "CREATE TABLE " ++ format_ident (t_name t) ++ text " (" ++ [10] ++
  join [44; 10] ((λ c, text "  " ++ show_column c) <$> t_columns t) ++ [10] ++ text ")".

(** * Plans *)

Definition show_aggregate (a : Aggregate) : list char :=
  text match a with
       | Average => "average" | Count => "count" | Max => "maximum" | Min => "minimum" | Sum => "sum"
       end.
Definition show_direction (d : Direction) : list char :=
  text match d with Ascending => "asc" | Descending => "desc" end.

(** A field of a hash join. *)
Definition show_field (side : string) (f : N * Label) : list char :=
  match f with
  | (_, Some (Some t, n)) => chars t ++ text "." ++ chars n
  | (_, Some (None, n)) => chars n
  | (i, None) => text side ++ text " #" ++ show_u64 i
  end.
Definition show_alias (alias : option bytes) : list char :=
  match alias with Some a => text " as " ++ chars a | None => [] end.
(** The values of a lookup, or their number. *)
Definition show_values (what : string) (values : list Value) : list char :=
  if negb (bool_decide (values = [])) && (N.of_nat (length values) <? 10)
  then text " (" ++ join (text ", ") (show_value <$> values) ++ text ")"
  else text " (" ++ show_u64 (N.of_nat (length values)) ++ text " " ++ text what ++ text ")".
Definition show_outer (outer : bool) : list char := text (if outer then "outer" else "inner").

(** The line of a node. *)
Definition heading (n : Node) : list char :=
  match n with
  | Aggregation _ aggregates => text "Aggregation: " ++ join (text ", ") (show_aggregate <$> aggregates)
  | CreateTable schema => text "CreateTable: " ++ chars (t_name schema)
  | Delete table _ => text "Delete: " ++ chars table
  | DropTable table _ => text "DropTable: " ++ chars table
  | Filter _ predicate => text "Filter: " ++ show_expression predicate
  | HashJoin _ left_field _ right_field outer =>
      text "HashJoin: " ++ show_outer outer ++ text " on " ++ show_field "left" left_field ++
      text " = " ++ show_field "right" right_field
  | IndexLookup table alias column values =>
      text "IndexLookup: " ++ chars table ++ show_alias alias ++ text " column " ++ chars column ++
      show_values "values" values
  | Insert table _ expressions =>
      text "Insert: " ++ chars table ++ text " (" ++ show_u64 (N.of_nat (length expressions)) ++ text " rows)"
  | KeyLookup table alias keys =>
      text "KeyLookup: " ++ chars table ++ show_alias alias ++ show_values "keys" keys
  | Limit _ limit => text "Limit: " ++ show_u64 limit
  | NestedLoopJoin _ _ _ predicate outer =>
      text "NestedLoopJoin: " ++ show_outer outer ++
      match predicate with Some e => text " on " ++ show_expression e | None => [] end
  | Nothing => text "Nothing"
  | Offset _ offset => text "Offset: " ++ show_u64 offset
  | Order _ orders =>
      text "Order: " ++
      join (text ", ") ((λ '(e, d), show_expression e ++ text " " ++ show_direction d) <$> orders)
  | Projection _ expressions =>
      text "Projection: " ++ join (text ", ") ((λ '(e, _), show_expression e) <$> expressions)
  | Scan table alias filter =>
      text "Scan: " ++ chars table ++ show_alias alias ++
      match filter with Some e => text " (" ++ show_expression e ++ text ")" | None => [] end
  | Update table _ expressions =>
      text "Update: " ++ chars table ++ text " (" ++
      join (text ",") ((λ '(i, l, e),
        match l with Some l => chars l | None => text "#" ++ show_u64 i end ++ text "=" ++
        show_expression e) <$> expressions) ++ text ")"
  end.

(** The branches of the tree, in box-drawing characters. *)
Definition fork : list char := [9500; 9472; 32].
Definition bend : list char := [9492; 9472; 32].
Definition bar : list char := [9474; 32; 32].
Definition blank : list char := [32; 32; 32].

(** [str::trim_end]. *)
Definition trim_end (cs : list char) : list char := reverse (next_while is_whitespace (reverse cs)).2.

(** [Node::format]. *)
Fixpoint format (n : Node) (indent : list char) (root last : bool) : list char :=
  let s := indent ++ (if negb last then fork else if negb root then bend else []) in
  let indent := indent ++ (if negb last then bar else if negb root then blank else []) in
  let s := s ++ heading n ++ [10] in
  let s := s ++ match n with
                | Aggregation source _ | Delete _ source | Filter source _ | Limit source _
                | Offset source _ | Order source _ | Projection source _ | Update _ source _ =>
                    format source indent false true
                | HashJoin l _ r _ _ | NestedLoopJoin l _ r _ _ =>
                    format l indent false false ++ format r indent false true
                | _ => []
                end in
  if root then trim_end s else s.

Definition show_node (n : Node) : list char := format n [] true true.
End display.

(** * Schemas are read back *)

(** The names, defaults and columns whose text the parser reads as they are. *)
Section readable.
Context `{Formatting, Unicode}.

Definition reads_bare (n : bytes) : bool :=
  match chars n with
  | c :: cs => is_alphabetic c && forallb (λ c, is_alphanumeric c || (c =? ch "_")) cs &&
      bool_decide (to_lowercase (c :: cs) = c :: cs) && is_none (from_str (c :: cs))
  | [] => false
  end.
Definition readable_name (n : bytes) : bool :=
  utf8_valid n && (negb (is_identifier (chars n) && is_none (from_str (chars n))) || reads_bare n).
Definition readable_default (v : Value) : bool :=
  match v with
  | Null | Boolean _ => true
  | Integer i => (i64_min <? i)%Z && (i <=? i64_max)%Z
  | Float _ | String _ => false
  end.
Definition readable_column (c : Column) : bool :=
  readable_name (c_name c) &&
  match c_references c with Some r => utf8_valid r && reads_bare r | None => true end &&
  match c_default c with Some v => readable_default v | None => negb (c_nullable c) end &&
  (negb (c_primary_key c) || c_unique c && negb (c_nullable c) && negb (c_index c)).
Definition readable_table (t : Table) : bool :=
  readable_name (t_name t) && negb (bool_decide (t_columns t = [])) && forallb readable_column (t_columns t).
End readable.

(** The syntax trees of their text. *)
Definition default_expression (v : Value) : AstExpression :=
  match v with
  | Null => ALiteral LNull
  | Boolean b => ALiteral (LBoolean b)
  | Integer i => if (i <? 0)%Z then AOperation (ANegate (ALiteral (LInteger (- i)))) else ALiteral (LInteger i)
  | Float f => ALiteral (LFloat f)
  | String s => ALiteral (LString s)
  end.
Definition column_spec (c : Column) : AstColumn := {|
  ac_name := c_name c; ac_datatype := c_datatype c; ac_primary_key := c_primary_key c;
  ac_nullable := if negb (c_nullable c) && negb (c_primary_key c) then Some false else None;
  ac_default := default_expression <$> c_default c;
  ac_unique := c_unique c && negb (c_primary_key c); ac_index := c_index c;
  ac_references := c_references c |}.

(** ** Words *)

Section words.
Context `{Formatting, UnicodeLaws}.

(** Text that is read as tokens before a separator. *)
Record reads_as (cs : list char) (ts : list Token) : Prop := {
  ra_scalar : Forall scalar cs;
  ra_lexes sep it us : separates sep → lexes (sep :: it) us → lexes (cs ++ sep :: it) (ts ++ us)
}.

Lemma lexes_newline it ts : lexes it ts → lexes (10 :: it) ts.
Proof.
  assert (lexer_next (10 :: it) = lexer_next it) as E.
  { unfold lexer_next, scan_token, consume_whitespace. cbn [next_while].
    rewrite whitespace_ascii by done. cbn. by destruct (next_while is_whitespace it). }
  destruct ts; cbn [lexes]; by rewrite E.
Qed.

Lemma reads_token t cs : Forall scalar cs →
  (∀ sep it, separates sep → lexer_next (cs ++ sep :: it) = (Some (Ok t), sep :: it)) → reads_as cs [t].
Proof. intros Hcs Ht. split; [done|]. intros sep it us Hsep Hus. cbn [app lexes]. by rewrite Ht. Qed.
Lemma reads_printed t : token_text t → reads_as (print_token t) [t].
Proof.
  intros Ht. apply reads_token; [|intros sep it Hsep; by apply lex_token].
  by destruct (proj1 (Forall_app _ _ _) (token_scalar t Ht)).
Qed.
Lemma reads_keyword k : reads_as (text (to_str k)) [KW k].
Proof. by apply (reads_printed (KW k)). Qed.

(** Words with a space between them. *)
Lemma reads_then cs ts cs' ts' : reads_as cs ts → reads_as cs' ts' → reads_as (cs ++ [32] ++ cs') (ts ++ ts').
Proof.
  intros [Hs Hc] [Hs' Hc']. split.
  { apply Forall_app. split; [done|]. constructor; [by left|done]. }
  intros sep it us Hsep Hus. rewrite <-!(assoc_L (++)). cbn [app].
  apply Hc; [by left|]. apply lexes_space. by apply Hc'.
Qed.

Lemma bare_reads n : utf8_valid n = true → reads_bare n = true → reads_as (chars n) [TokIdent n].
Proof.
  intros Hv Hn. apply reads_token; [by apply chars_scalar|]. intros sep it Hsep. unfold reads_bare in Hn.
  destruct (chars n) as [|c cs] eqn:Hcs; [done|].
  rewrite !andb_true_iff, bool_decide_eq_true in Hn. destruct Hn as [[[Ha Hw] Hl] Hk].
  assert (is_ascii_digit c = false ∧ (c =? ch "'") = false ∧ (c =? 34) = false) as (Hd & Hq & Hq').
  { destruct (decide (is_ascii c)) as [Hc|Hc].
    - rewrite alphabetic_ascii in Ha by done. destruct (ascii_upper c) eqn:Hu.
      + by destruct (upper_char c Hu) as (_ & _ & ? & ? & ?).
      + cbn in Ha. unfold ascii_lower in Ha. apply andb_true_iff in Ha as [?%N.leb_le ?%N.leb_le].
        unfold is_ascii_digit. change (ch "'") with 39.
        rewrite andb_false_iff, !N.eqb_neq, !N.leb_gt. lia.
    - unfold is_ascii, is_ascii_digit in *. change (ch "'") with 39.
      rewrite andb_false_iff, !N.eqb_neq, !N.leb_gt. lia. }
  unfold lexer_next, scan_token, consume_whitespace. cbn [app next_while].
  rewrite (alphabetic_not_space c) by done. cbn [snd peek_char head]. rewrite Hq, Hq', Hd, Ha.
  unfold scan_ident. cbn [next_if_char]. rewrite Ha, next_while_stops; [|by apply Forall_forall; intros x Hx;
    rewrite forallb_forall in Hw; apply Hw, list_elem_of_In|by apply separates_word].
  destruct (from_str (c :: cs)); [done|]. rewrite Hl, <-Hcs. by rewrite str_chars.
Qed.

Lemma ident_reads n : readable_name n = true → reads_as (format_ident n) [TokIdent n].
Proof.
  unfold readable_name, format_ident. intros [Hv Hn]%andb_true_iff.
  destruct (is_identifier (chars n) && is_none (from_str (chars n))); [by apply bare_reads|].
  by apply (reads_printed (TokIdent n)).
Qed.
End words.

(** ** Columns and tables *)

Section schemas.
Context `{Formatting, UnicodeLaws, Libm, Regex}.

Lemma digits_read n : n < 10 ^ 19 → reads_as (digits 20 n) [TokNumber (str (digits 20 n))].
Proof.
  intros Hn. destruct (digits_spec (10 ^ 19) 20 n) as (_ & Hd & Hne); [lia|lia|].
  specialize (Hne ltac:(done)). revert Hd Hne. generalize (digits 20 n) as ds. intros ds Hd Hne.
  assert (chars (str ds) = ds) as Hc.
  { apply chars_str. eapply Forall_impl; [exact Hd|]. intros c Hc. destruct (digit_char c Hc). left.
    unfold is_ascii in *. lia. }
  rewrite <-Hc at 1. apply (reads_printed (TokNumber (str ds))). by exists ds.
Qed.
Lemma minus_reads cs ts : reads_as cs ts → reads_as (ch "-" :: cs) (TokMinus :: ts).
Proof.
  intros [Hs Hc]. split; [constructor; [by left|done]|]. intros sep it us Hsep Hus.
  cbn [app lexes]. unfold lexer_next. rewrite scan_at by done. split; [reflexivity|]. by apply Hc.
Qed.

Lemma default_reads v : readable_default v = true → ∃ ts, print 0 (default_expression v) = Some ts ∧
  reads_as (show_value v) ts ∧ evaluate_constant (default_expression v) = Ok v.
Proof.
  destruct v as [|b|i|f|s]; intros Hv; try done.
  - exists [KW KwNull]. split_and!; [done|apply (reads_keyword KwNull)|done].
  - exists [KW (if b then KwTrue else KwFalse)].
    split_and!; [done|destruct b; [apply (reads_keyword KwTrue)|apply (reads_keyword KwFalse)]|done].
  - cbn [readable_default default_expression show_value] in *. unfold show_i64.
    apply andb_true_iff in Hv as [Hmin%Z.ltb_lt Hmax]. pose proof Hmax as Hmax'%Z.leb_le.
    unfold i64_min, i64_max in Hmin, Hmax'.
    destruct (Z.ltb_spec i 0) as [Hi|Hi]; cbn [print print_literal].
    + rewrite (proj2 (Z.leb_le 0 (- i)%Z)), (proj2 (Z.leb_le (- i)%Z i64_max)) by (unfold i64_max; lia).
      eexists. split_and!; [done|apply minus_reads, digits_read; lia|].
      unfold evaluate_constant. cbn. rewrite Z.opp_involutive, (proj2 (in_i64_spec i)); [done|].
      unfold i64_valid, i64_min, i64_max. lia.
    + rewrite (proj2 (Z.leb_le 0 i)), Hmax by lia. eexists. split_and!; [done|apply digits_read; lia|done].
Qed.

Lemma reads_datatype t : reads_as (show_datatype t) [print_datatype t].
Proof.
  destruct t; [apply (reads_keyword KwBoolean)|apply (reads_keyword KwInteger)|apply (reads_keyword KwFloat)
    |apply (reads_keyword KwString)].
Qed.

(** A keyword or more after a text. *)
Lemma reads_flag (b : bool) cs ts ws us : reads_as cs ts → (b = true → reads_as ws us) →
  reads_as (if b then cs ++ [32] ++ ws else cs) (ts ++ print_flag b us).
Proof. intros Hc Hw. destruct b; cbn [print_flag]; [by apply reads_then, Hw|by rewrite app_nil_r]. Qed.

(** The tokens of an optional constraint, and that its text is read as them. *)
Definition option_reads {A} (kw : Keyword) (w : A → list char) (o : option A) (us : list Token) : Prop :=
  match o with Some x => ∃ vs, us = KW kw :: vs ∧ reads_as (w x) vs | None => us = [] end.
Lemma reads_option {A} (o : option A) cs ts kw (w : A → list char) us : reads_as cs ts → option_reads kw w o us →
  reads_as match o with Some x => cs ++ [32] ++ text (to_str kw) ++ [32] ++ w x | None => cs end (ts ++ us).
Proof.
  intros Hc Ho. destruct o as [x|]; [|by rewrite Ho, app_nil_r]. destruct Ho as (vs & -> & Hw).
  apply reads_then; [done|]. apply (reads_then _ [KW kw]); [apply reads_keyword|done].
Qed.
Lemma default_option df nl : match df with Some v => readable_default v | None => negb nl end = true →
  ∃ ds, print_option [KW KwDefault] (print 0) (default_expression <$> df) = Some ds ∧
    option_reads KwDefault show_value df ds.
Proof.
  intros Hd. destruct df as [v|]; [|by eexists]. destruct (default_reads v Hd) as (vs & Hvs & Hread & _).
  cbn [fmap option_fmap option_map print_option]. rewrite Hvs. by eexists; split; [|eexists].
Qed.
Lemma references_option r : match r with Some r => utf8_valid r && reads_bare r | None => true end = true →
  ∃ rs, print_option [KW KwReferences] print_ident r = Some rs ∧ option_reads KwReferences chars r rs.
Proof.
  intros Hr. destruct r as [n|]; [|by eexists]. apply andb_true_iff in Hr as [Hv Hb]. cbn [print_option].
  unfold print_ident, print_name. rewrite Hv. eexists. split; [done|]. eexists. split; [done|]. by apply bare_reads.
Qed.
Lemma readable_ident n : readable_name n = true → print_ident n = Some [TokIdent n].
Proof. intros [Hv _]%andb_true_iff. unfold print_ident, print_name. by rewrite Hv. Qed.
Lemma reads_keywords k k' : reads_as (text (to_str k) ++ [32] ++ text (to_str k')) [KW k; KW k'].
Proof. apply (reads_then _ [KW k] _ [KW k']); apply reads_keyword. Qed.

Lemma column_read c : readable_column c = true → ∃ ts, print_column (column_spec c) = Some ts ∧
  reads_as (show_column c) ts.
Proof.
  unfold readable_column. rewrite !andb_true_iff. intros [[[Hn Hr] Hd] _].
  destruct c as [name type pk nl df u r i].
  cbn [c_name c_datatype c_primary_key c_nullable c_default c_unique c_index c_references] in *.
  destruct (default_option df nl Hd) as (ds & Hds & Hdr). destruct (references_option r Hr) as (rs & Hrs & Hrr).
  unfold print_column, column_spec.
  cbn [ac_name ac_datatype ac_primary_key ac_nullable ac_default ac_unique ac_index ac_references
    c_name c_datatype c_primary_key c_nullable c_default c_unique c_index c_references].
  rewrite readable_ident, Hds, Hrs by done. cbn [mbind option_bind]. eexists. split; [done|].
  pose proof (reads_then _ _ _ _ (ident_reads name Hn) (reads_datatype type)) as Hc.
  eapply (reads_flag pk) in Hc; [|intros _; apply (reads_keywords KwPrimary KwKey)].
  eapply (reads_flag (negb nl && negb pk)) in Hc; [|intros _; apply (reads_keywords KwNot KwNull)].
  eapply (reads_option df) in Hc; [|exact Hdr].
  eapply (reads_flag (u && negb pk)) in Hc; [|intros _; apply (reads_keyword KwUnique)].
  eapply (reads_option r) in Hc; [|exact Hrr].
  eapply (reads_flag i) in Hc; [|intros _; apply (reads_keyword KwIndex)].
  refine (eq_ind _ (reads_as _) Hc _ _). rewrite <-!(assoc_L (++)). cbn [app]. do 3 f_equal.
  by destruct (negb nl && negb pk).
Qed.

Lemma lexes_comma it us : lexes it us → lexes (44 :: it) (TokComma :: us).
Proof. intros Hus. cbn [lexes]. unfold lexer_next. rewrite scan_at by done. by split; [reflexivity|]. Qed.
Lemma lexes_indented c it us ts : reads_as (show_column c) ts → ∀ sep, separates sep → lexes (sep :: it) us →
  lexes ((text "  " ++ show_column c) ++ sep :: it) (ts ++ us).
Proof. intros Hc sep Hsep Hus. cbn [app]. do 2 apply lexes_space. by apply Hc. Qed.

Lemma columns_read c cs : forallb readable_column (c :: cs) = true → ∃ ts,
  commas print_column (column_spec c) (column_spec <$> cs) = Some ts ∧
  Forall scalar (join [44; 10] ((λ c, text "  " ++ show_column c) <$> c :: cs)) ∧
  ∀ it us, lexes it us → lexes (join [44; 10] ((λ c, text "  " ++ show_column c) <$> c :: cs) ++ 10 :: it) (ts ++ us).
Proof.
  assert (Forall scalar (text "  ")) as Hsp by (by repeat constructor).
  revert c. induction cs as [|d cs IH]; intros c; cbn [forallb]; intros [Hc Hcs]%andb_true_iff;
    destruct (column_read c Hc) as (ts & Hts & Hr).
  - exists ts. split_and!; [done|apply Forall_app; split; [done|apply Hr]|].
    intros it us Hus. apply lexes_indented; [done|by right; left|]. by apply lexes_newline.
  - destruct (IH d Hcs) as (us & Hus & Hs & Hl). exists (ts ++ TokComma :: us).
    rewrite !fmap_cons. cbn [commas]. rewrite fmap_cons in Hs, Hl. rewrite Hts, Hus.
    split_and!; [done|..].
    + cbn [join]. repeat (apply Forall_app; split); [done|apply Hr|by repeat constructor; left|exact Hs].
    + intros it vs Hvs. cbn [join]. rewrite <-!(assoc_L (++)). cbn [app].
      rewrite (assoc_L (++) (text "  ")). apply lexes_indented; [done|by right; right; left|].
      apply lexes_comma, lexes_newline. by apply Hl.
Qed.

Definition table_statement (t : Table) : Statement := SCreateTable (t_name t) (column_spec <$> t_columns t).

Lemma table_read t : readable_table t = true → ∃ ts, print_statement (table_statement t) = Some ts ∧
  Forall scalar (show_table t) ∧ lexes (show_table t) ts.
Proof.
  unfold readable_table. rewrite !andb_true_iff. intros [[Hn Hne] Hcs]. destruct t as [name columns].
  cbn [t_name t_columns] in *. destruct columns as [|c cs]; [done|].
  destruct (columns_read c cs Hcs) as (ts & Hts & Hs & Hl).
  cbn [print_statement table_statement print_plain t_name t_columns]. rewrite readable_ident by done.
  cbn [fmap list_fmap print_list mbind option_bind] in *. rewrite Hts. cbn [mbind option_bind].
  eexists. split; [done|]. destruct (ident_reads name Hn) as [His Hil]. split.
  - unfold show_table. cbn [t_name t_columns].
    repeat (apply Forall_app; split); [|done| | |done|..]; by repeat constructor; left.
  - unfold show_table. cbn [t_name t_columns].
    change (lexes (text "CREATE" ++ 32 :: text "TABLE" ++ 32 :: format_ident name ++ 32 :: 40 :: 10 ::
      join [44; 10] ((λ c, text "  " ++ show_column c) <$> c :: cs) ++ 10 :: [41])
      ([KW KwCreate] ++ [KW KwTable] ++ [TokIdent name] ++ TokOpenParen :: ts ++ [TokCloseParen])).
    apply (reads_keyword KwCreate); [by left|]. apply lexes_space.
    apply (reads_keyword KwTable); [by left|]. apply lexes_space.
    apply Hil; [by left|]. apply lexes_space.
    cbn [lexes]. unfold lexer_next. rewrite scan_at by done. split; [reflexivity|].
    apply lexes_newline. apply Hl. cbn [lexes]. unfold lexer_next. by rewrite scan_at.
Qed.

Lemma column_built c : readable_column c = true → build_column (column_spec c) = Ok c.
Proof.
  unfold readable_column. rewrite !andb_true_iff. intros [[_ Hd] Hp].
  destruct c as [name type pk nl df u r i]. unfold build_column, column_spec.
  cbn [ac_name ac_datatype ac_primary_key ac_nullable ac_default ac_unique ac_index ac_references
    c_name c_datatype c_primary_key c_nullable c_default c_unique c_index c_references] in *.
  assert (match default_expression <$> df with
    | Some e => v ← evaluate_constant e; Ok (Some v) | None => Ok (if nl then Some Null else None) end = Ok df) as E.
  { destruct df as [v|]; [|by destruct nl]. destruct (default_reads v Hd) as (? & _ & _ & E).
    cbn [fmap option_fmap option_map]. by rewrite E. }
  assert (default (negb pk) (if negb nl && negb pk then Some false else None) = nl) as -> by (by destruct pk, nl, u).
  rewrite E. cbn [mbind res_bind]. by destruct pk, u, i, nl.
Qed.
Lemma columns_built cs : forallb readable_column cs = true → collect (build_column <$> (column_spec <$> cs)) = Ok cs.
Proof.
  induction cs as [|c cs IH]; cbn [forallb]; [done|]. intros [Hc Hcs]%andb_true_iff.
  rewrite !fmap_cons. cbn [collect]. by rewrite column_built, IH.
Qed.
End schemas.

(** C28. The text that is shown for a table schema is a CREATE TABLE statement
    which parses and plans to exactly that schema, with every name, type,
    constraint, default and reference. A bare name has to be a lower-case word
    that starts with a letter, a default NULL, a boolean or an integer above the
    least one, and a referenced table a name that needs no quotes. *)
Theorem table_text_roundtrip `{Formatting, UnicodeLaws, Libm, Regex, Reader T} t (s : T) :
  readable_table t = true →
  (st ← lift (parse (str (show_table t))); build_statement st) s = (Ok (CreateTable t), s).
Proof.
  intros Ht. destruct (table_read t Ht) as (ts & Hts & Hs & Hl).
  assert (parse (str (show_table t)) = Ok (table_statement t)) as E.
  { apply (parse_tokens _ _ ts); [by apply str_valid|by rewrite chars_str|done]. }
  unfold mbind, M_bind, lift. rewrite E. unfold readable_table in Ht. apply andb_true_iff in Ht as [_ Hcs].
  cbn [build_statement table_statement]. unfold mbind, M_bind, lift. rewrite columns_built by done. by destruct t.
Qed.

(** * The tree of a plan *)

Section outline.
Context `{Formatting, Unicode}.

(** The lines below a branch, the first of them with its head. *)
Definition hang (first rest : list char) (l : list (list char)) : list (list char) :=
  match l with [] => [] | s :: l => (first ++ s) :: ((λ s, rest ++ s) <$> l) end.

(** The lines of a plan: the node, then each of its sources below a branch. *)
Fixpoint outline (n : Node) : list (list char) :=
  heading n ::
  match n with
  | Aggregation source _ | Delete _ source | Filter source _ | Limit source _
  | Offset source _ | Order source _ | Projection source _ | Update _ source _ =>
      hang bend blank (outline source)
  | HashJoin l _ r _ _ | NestedLoopJoin l _ r _ _ =>
      hang fork bar (outline l) ++ hang bend blank (outline r)
  | _ => []
  end.

Definition lines (indent : list char) (l : list (list char)) : list char :=
  concat ((λ s, indent ++ s ++ [10]) <$> l).

Lemma lines_app indent l l' : lines indent (l ++ l') = lines indent l ++ lines indent l'.
Proof. unfold lines. by rewrite fmap_app, concat_app. Qed.
Lemma lines_hang indent first rest s l :
  lines indent (hang first rest (s :: l)) = (indent ++ first ++ s ++ [10]) ++ lines (indent ++ rest) l.
Proof.
  unfold lines. cbn [hang]. rewrite fmap_cons. cbn [concat]. f_equal; [by rewrite <-!(assoc_L (++))|].
  rewrite <-list_fmap_compose. f_equal. apply list_fmap_ext. intros _ x _. cbn. by rewrite <-!(assoc_L (++)).
Qed.

Lemma format_lines n : ∀ indent last,
  format n indent false last = lines indent (hang (if last then bend else fork) (if last then blank else bar) (outline n)).
Proof.
  induction n; intros indent last; cbn [format outline]; rewrite lines_hang; destruct last; cbn [negb];
    rewrite <-!(assoc_L (++)); do 4 f_equal; rewrite ?lines_app, ?IHn, ?IHn1, ?IHn2; done.
Qed.

(** The text of a plan is its outline, without the end of the last line. *)
Theorem plan_text n : show_node n = trim_end (lines [] (outline n)).
Proof.
  unfold show_node. destruct n; cbn [format negb outline]; f_equal; unfold lines at 1; rewrite fmap_cons; cbn [concat app];
    rewrite <-?(assoc_L (++)); do 2 f_equal; rewrite ?format_lines; try done; by rewrite <-lines_app.
Qed.
End outline.

(** * Examples *)

(** Words of ASCII characters; no floats. *)
#[local] Instance sample_formatting : Formatting := {|
  is_word c := ascii_upper c || ascii_lower c || is_ascii_digit c || (c =? ch "_");
  show_f64 _ := text "?"
|}.
#[local] Instance no_tables : Reader unit := {|
  tx_read_table _ := mret None; tx_scan_tables := mret [];
  tx_read _ _ := mret None; tx_scan _ _ := mret []
|}.
Definition planned (q : bytes) : res Node := ((st ← lift (parse q); build_statement st) tt).1.

Definition sample_schema : Table := {|
  t_name := name "select";
  t_columns :=
    [{| c_name := name "id"; c_datatype := TInteger; c_primary_key := true; c_nullable := false;
        c_default := None; c_unique := true; c_references := None; c_index := false |};
     {| c_name := name "a b"; c_datatype := TInteger; c_primary_key := false; c_nullable := false;
        c_default := Some (Integer (-7)); c_unique := true; c_references := Some (name "books"); c_index := true |};
     column "c" TFloat] |}.

Lemma table_text_roundtrip_witness : planned (str (show_table sample_schema)) = Ok (CreateTable sample_schema).
Proof.
  unfold planned. rewrite (table_text_roundtrip sample_schema tt); [reflexivity|vm_compute; reflexivity].
Defined.

(** Tables of one column and of a second one. *)
Definition simple_table (n : string) (more : list SqlSchema.Column) : Table := {|
  t_name := name n;
  t_columns :=
    {| c_name := name "id"; c_datatype := TInteger; c_primary_key := true; c_nullable := false;
       c_default := None; c_unique := true; c_references := None; c_index := false |} :: more |}.
Definition reread (t : Table) : res Node := planned (str (show_table t)).
Definition titled (v : Value) : SqlSchema.Column := {|
  c_name := name "title"; c_datatype := TString; c_primary_key := false; c_nullable := false;
  c_default := Some v; c_unique := false; c_references := None; c_index := false |}.
Definition referring (n : string) : SqlSchema.Column := {|
  c_name := name "other"; c_datatype := TInteger; c_primary_key := false; c_nullable := true;
  c_default := Some Null; c_unique := false; c_references := Some (name n); c_index := false |}.

(** Tables whose text is not read back: a name in capitals is not quoted and is
    read in lower case; a name that starts with a digit, the name of a referenced
    table and a string that is a default are not quoted, and not read at all. *)
Theorem table_text_misread :
  reread (simple_table "Books" []) = Ok (CreateTable (simple_table "books" [])) ∧
  reread (simple_table "1984" []) = Err (EParse (Msg "Expected identifier, got {}" [FBytes (name "1984")])) ∧
  reread (simple_table "books" [referring "my books"])
    = Err (EParse (Msg "Expected token {}, found {}" [FBytes (name ")"); FBytes (name "books")])) ∧
  reread (simple_table "books" [titled (SqlTypes.String (name "none"))])
    = Err (EValue (Msg "Expression must be constant, found field {}" [FBytes (name "none")])).
Proof. vm_compute. split_and!; reflexivity. Qed.
