(* ===== verification/SqlKvClaims.v ===== *)
(** The SQL key/value engine: what its reads and writes do to the tables, rows
    and indexes of a database with integrity, and where they fall short. *)
From Stdlib Require Import Strings.Byte Strings.String NArith ZArith Lia Sorting.Sorted.
From stdpp Require Import base list gmap strings.
From S2P Require Import Prelude BTreeMap KeyCode Engine Memory Bincode Mvcc SqlTypes SqlExpression.
From S2P Require Import SqlSchema SqlKeys SqlKv SqlStore SqlIntegrity SqlWrites SqlCatalog SqlMvcc.
From S2P Require Import SqlLexer SqlValid SqlSample.

Open Scope N_scope.

(** * Keys *)

(** The encoding of a SQL key decodes to the key, is injective, and starts with
    the encoding of a key prefix exactly when the prefix covers the key. *)
Theorem sql_key_codec k : sql_key_valid k →
  ∃ bs, encode k = Ok bs ∧ decode bs = Ok k ∧
    (∀ k' bs', sql_key_valid k' → encode k' = Ok bs' → bs = bs' → k = k') ∧
    ∀ p, prefix_valid p → ∃ pre, encode_prefix p = Ok pre ∧ (starts_with pre bs ↔ covers p k).
Proof.
  intros Hk. exists (sql_key_bytes k). split; [by apply sql_encode_valid|].
  split; [by apply decode_valid|]. split.
  - intros k' bs' Hk'. rewrite sql_encode_valid by done. intros [= <-]. by apply sql_key_bytes_inj.
  - intros p Hp. exists (sql_prefix_bytes p). split; [by apply sql_encode_prefix_valid|].
    by apply prefix_covers.
Qed.

Lemma sql_key_codec_witness : ∃ bs, encode (KRow (name "books") (Integer 1)) = Ok bs ∧
  decode bs = Ok (KRow (name "books") (Integer 1)) ∧
  ∃ pre, encode_prefix (PRow (name "book")) = Ok pre ∧ ¬ starts_with pre bs.
Proof.
  destruct (sql_key_codec (KRow (name "books") (Integer 1))) as (bs & He & Hd & _ & Hp);
    [by vm_compute|].
  exists bs. split; [done|]. split; [done|]. destruct (Hp (PRow (name "book"))) as (pre & Hpre & Hiff);
    [by vm_compute|].
  exists pre. split; [done|]. rewrite Hiff. cbn. intros Hx. by vm_compute in Hx.
Defined.

Section engine.
Context {T : Type} `{KvLaws T}.
Context `{Libm, Regex}.
Context `{BincodeLaws (list Value), BincodeLaws Table}.
Implicit Types (x : T) (s : Store).

(** * Reads *)

(** C21. In a database with integrity, a read by primary key returns the stored
    row, a scan returns the stored rows in key order filtered by the condition,
    and a read of an index returns exactly the keys of the rows that have the
    value in the column. *)
Theorem reads_exact x s n t : sees x s → integrity s → tables s n = Some t →
  (∀ id, value_valid id → read n id x = (Ok (rows s n id), x)) ∧
  (∃ l, table_rows s n l ∧ ∀ filter,
     scan n filter x = (collect_vec (omap (filter_row filter) (Ok <$> l.*2)), x)) ∧
  (∀ i col v, t_columns t !! i = Some col → c_index col = true → value_valid v →
     ∃ ids, read_index n (c_name col) v x = (Ok ids, x) ∧ NoDup ids ∧
       ∀ id, id ∈ ids ↔ ∃ row, rows s n id = Some row ∧ row !! i = Some v).
Proof.
  intros Hx [Hs Hix] Ht. destruct (rel_table s Hs n t Ht) as [<- Hok]. split; [|split].
  - intros id Hid. apply read_sees; [done|by apply ok_name|done].
  - destruct (scan_rows_sees x s (t_name t) Hx) as (l & Hl & Hscan); [by apply ok_name|..].
    { intros id row Hrow. destruct (stored_row s _ _ _ Hs Hrow) as (_ & _ & _ & _ & _ & _ & _ & ?). done. }
    exists l. split; [done|]. intros filter. rewrite Hscan by eauto. by rewrite Ht.
  - intros i col v Hc Hidx Hv. exists (index s (t_name t) (c_name col) v).
    split; [|split; [apply Hix|]].
    + by apply (read_index_sees x s _ t i).
    + intros id. by apply (index_rows s _ t).
Qed.

(** * Writes *)

(** C17. Creating a row in a database with integrity either adds exactly that
    row, with its index entries, and keeps integrity, or is refused by the
    store, or returns a value error and changes nothing because the row does not
    fit: its table, types, references, unique columns and primary key are what
    is checked. *)
Theorem create_inserts x s n row : sees x s → integrity s → utf8_valid n = true →
  Forall value_valid row →
  match create n row x with
  | (Ok _, x') => ∃ s' t id, sees x' s' ∧ integrity s' ∧ tables s n = Some t ∧
      row_fits s t id row ∧ rows s n id = None ∧ after s s' n id (Some row) ∧
      read n id x' = (Ok (Some row), x')
  | (Err e, x') => refused e ∨ (∃ msg, e = EValue msg) ∧ sees x' s ∧ ¬ creatable s n row
  | (Panic _, _) => False
  end.
Proof.
  intros Hx Hint Hn Hv. pose proof (create_runs s n row Hint Hn Hv x Hx) as Hr.
  destruct (create n row x) as [[[]|e|w] x']; [..|done].
  - destruct Hr as (s' & Hx' & t & id & Ht & Hkey & (t' & id' & Ht' & Hfit & Hnone) & Haf & Hint').
    assert (t' = t) as -> by congruence. pose proof Hfit as (Hty & Hkey' & _).
    assert (id' = id) as -> by congruence. exists s', t, id. repeat (split; [done|]).
    destruct (rel_table s (proj1 Hint) n t Ht) as [_ Hok].
    rewrite (read_sees x' s' n id Hx' Hn) by (by eapply row_key_plain).
    destruct Haf as [_ HR]. rewrite HR, rows_put. by rewrite decide_True.
  - destruct Hr as (s' & Hx' & [?|(msg & -> & -> & Hno)]); [by left|right]. eauto.
Qed.

(** C18. Deleting a row either removes exactly that row and its index entries
    and keeps integrity, when no other row refers to it, or is refused by the
    store, or returns a value error and changes nothing because the table does
    not exist or a row refers to it. *)
Theorem delete_removes x s n id : sees x s → integrity s → utf8_valid n = true → value_valid id →
  plain id → id ≠ Null →
  match delete n id x with
  | (Ok _, x') => ∃ s', sees x' s' ∧ integrity s' ∧ unreferenced s n id ∧ after s s' n id None ∧
      read n id x' = (Ok None, x')
  | (Err e, x') => refused e ∨
      (∃ msg, e = EValue msg) ∧ sees x' s ∧ (tables s n = None ∨ ¬ unreferenced s n id)
  | (Panic _, _) => False
  end.
Proof.
  intros Hx Hint Hn Hv Hp Hnull. pose proof (delete_runs s n id Hint Hn Hv Hp Hnull x Hx) as Hr.
  destruct (delete n id x) as [[[]|e|w] x']; [..|done].
  - destruct Hr as (s' & Hx' & _ & Hun & Haf & Hint'). exists s'. repeat (split; [done|]).
    rewrite (read_sees x' s' n id Hx' Hn Hv). destruct Haf as [_ HR].
    by rewrite HR, rows_put, decide_True.
  - destruct Hr as (s' & Hx' & [?|(msg & -> & -> & Hno)]); [by left|right]. eauto.
Qed.

(** C19. Updating a stored row by a row with a value for every column either
    replaces it, moving it when its primary key changes to a free one, updates
    the indexes and keeps integrity, or is refused by the store, or returns a
    value error; when the primary key is unchanged the tables and rows are then
    as before, though not the indexes. *)
Theorem update_replaces x s n t id old row : sees x s → integrity s → utf8_valid n = true →
  tables s n = Some t → rows s n id = Some old → length row = length (t_columns t) →
  Forall value_valid row →
  match update n id row x with
  | (Ok _, x') => ∃ s' id', sees x' s' ∧ integrity s' ∧ get_row_key t row = Ok id' ∧
      (id' = id ∨ rows s n id' = None) ∧ updated s s' n id id' row
  | (Err e, x') => refused e ∨ (∃ msg, e = EValue msg) ∧
      (get_row_key t row = Ok id → ∃ s', sees x' s' ∧ same s s')
  | (Panic _, _) => False
  end.
Proof.
  intros Hx Hint Hn Ht Hold Hlen Hv.
  pose proof (update_runs s n t id old row Hint Hn Ht Hold Hlen Hv x Hx) as Hr.
  destruct (update n id row x) as [[[]|e|w] x']; [..|done].
  - destruct Hr as (s' & Hx' & id' & Hkey & Hfree & Hup & Hint'). by exists s', id'.
  - destruct Hr as (s' & Hx' & [?|(msg & -> & Hs')]); [by left|right].
    split; [by exists msg|]. intros Hkey. exists s'. auto.
Qed.

(** * Tables *)

(** Creating a table adds exactly it and keeps integrity when no table has its
    name and its schema is valid: one primary key, fitting defaults, references
    to existing primary keys of the same type; otherwise it returns an error and
    changes nothing. *)
Theorem create_table_adds x s t : sees x s → integrity s → declared t →
  match create_table t x with
  | (Ok _, x') => tables s (t_name t) = None ∧ schema_fits s t ∧
      sees x' (with_table s (t_name t) (Some t)) ∧ integrity (with_table s (t_name t) (Some t))
  | (Err e, x') => sees x' s ∧ (refused e ∨
      (∃ msg, e = EValue msg) ∧ (is_Some (tables s (t_name t)) ∨ ¬ schema_fits s t))
  | (Panic _, _) => False
  end.
Proof.
  intros Hx Hint Hd. pose proof (create_table_runs s t Hint Hd x Hx) as Hr.
  destruct (create_table t x) as [[[]|e|w] x']; [..|done].
  - destruct Hr as (s' & Hx' & -> & ? & ? & ?). done.
  - by destruct Hr as (s' & Hx' & -> & ?).
Qed.

(** C20. Dropping a table, when it succeeds, removes exactly the table and its
    rows, keeps integrity, and no other table refers to it; when it fails with a
    value error the database still has integrity. *)
Theorem drop_table_removes x s n : sees x s → integrity s → utf8_valid n = true →
  match delete_table n x with
  | (Ok _, x') => ∃ s', sees x' s' ∧ integrity s' ∧
      (∀ m, tables s' m = if decide (m = n) then None else tables s m) ∧
      (∀ m id, rows s' m id = if decide (m = n) then None else rows s m id) ∧
      ∀ m t c, tables s m = Some t → m ≠ n → c ∈ t_columns t → c_references c ≠ Some n
  | (Err e, x') => refused e ∨ (∃ msg, e = EValue msg) ∧ ∃ s', sees x' s' ∧ integrity s'
  | (Panic _, _) => False
  end.
Proof.
  intros Hx Hint Hn. pose proof (delete_table_runs' s n Hint Hn x Hx) as Hr.
  destruct (delete_table n x) as [[[]|e|w] x']; [..|done].
  - destruct Hr as (s' & Hx' & ? & ? & ? & ?). by exists s'.
  - destruct Hr as (s' & Hx' & [?|[? ?]]); [by left|right]. eauto.
Qed.
End engine.

(** * Examples *)

Lemma reads_exact_witness : ∃ ids,
  read_index (name "books") (name "title") (SqlTypes.String (name "dune")) with_messiah = (Ok ids, with_messiah) ∧
  NoDup ids ∧ Integer 1 ∈ ids.
Proof.
  destruct with_messiah_sees as (s & Hx & Hint & Ht & Hd & _).
  destruct (reads_exact with_messiah s (name "books") books Hx Hint Ht) as (_ & _ & Hi).
  destruct (Hi 1%nat _ (SqlTypes.String (name "dune")) eq_refl eq_refl) as (ids & Hr & Hnd & Hin);
    [by vm_compute|].
  exists ids. split; [exact Hr|]. split; [exact Hnd|]. apply Hin. exists dune.
  split; [exact Hd|reflexivity].
Defined.

Lemma create_inserts_witness : ∃ s, sees with_messiah s ∧ integrity s ∧
  read (name "books") (Integer 2) with_messiah = (Ok (Some messiah), with_messiah).
Proof.
  destruct with_dune_sees as (s & Hx & Hint & Ht & _).
  pose proof (create_inserts with_dune s (name "books") messiah Hx Hint eq_refl messiah_valid) as Hc.
  assert (create (name "books") messiah with_dune = (Ok tt, with_messiah)) as E by (vm_compute; reflexivity).
  rewrite E in Hc. destruct Hc as (s' & t & id & Hx' & Hint' & Ht' & (_ & Hkey & _) & _ & _ & Hread).
  rewrite Ht in Ht'. injection Ht' as <-. injection Hkey as <-. exists s'.
  split; [exact Hx'|]. split; [exact Hint'|exact Hread].
Defined.

Definition without_messiah : Memory := (delete (name "books") (Integer 2) with_messiah).2.

Lemma delete_removes_witness : ∃ s, sees without_messiah s ∧ integrity s ∧
  read (name "books") (Integer 2) without_messiah = (Ok None, without_messiah).
Proof.
  destruct with_messiah_sees as (s & Hx & Hint & _).
  pose proof (delete_removes with_messiah s (name "books") (Integer 2) Hx Hint eq_refl
    ltac:(by vm_compute) ltac:(intros f; discriminate) ltac:(discriminate)) as Hd.
  assert (delete (name "books") (Integer 2) with_messiah = (Ok tt, without_messiah)) as E
    by (vm_compute; reflexivity).
  rewrite E in Hd. destruct Hd as (s' & Hx' & Hint' & _ & _ & Hread).
  exists s'. split; [exact Hx'|]. split; [exact Hint'|exact Hread].
Defined.

Definition emperor : Row := [Integer 2; SqlTypes.String (name "god emperor"); Integer 2].
Definition with_emperor : Memory := (update (name "books") (Integer 2) emperor with_messiah).2.

Lemma update_replaces_witness : ∃ s, sees with_emperor s ∧ integrity s ∧
  rows s (name "books") (Integer 2) = Some emperor.
Proof.
  destruct with_messiah_sees as (s & Hx & Hint & Ht & Hd & Hm).
  pose proof (update_replaces with_messiah s (name "books") books (Integer 2) messiah emperor
    Hx Hint eq_refl Ht Hm eq_refl ltac:(by repeat constructor)) as Hu.
  assert (update (name "books") (Integer 2) emperor with_messiah = (Ok tt, with_emperor)) as E
    by (vm_compute; reflexivity).
  rewrite E in Hu. destruct Hu as (s' & id' & Hx' & Hint' & Hkey & _ & _ & HR).
  injection Hkey as <-. exists s'. split; [exact Hx'|]. split; [exact Hint'|].
  rewrite HR. rewrite decide_True; [done|by split].
Defined.

Lemma create_table_adds_witness : sees with_books books_store ∧ integrity books_store.
Proof.
  pose proof (create_table_adds began empty_store books began_sees empty_integrity books_declared) as Hc.
  assert (create_table books began = (Ok tt, with_books)) as E by (vm_compute; reflexivity).
  rewrite E in Hc. destruct Hc as (_ & _ & Hx & Hi). split; [exact Hx|exact Hi].
Defined.

Definition dropped : Memory := (delete_table (name "books") with_dune).2.

Lemma drop_table_removes_witness : ∃ s, sees dropped s ∧ integrity s ∧
  rows s (name "books") (Integer 1) = None.
Proof.
  destruct with_dune_sees as (s & Hx & Hint & _).
  pose proof (drop_table_removes with_dune s (name "books") Hx Hint eq_refl) as Hd.
  assert (delete_table (name "books") with_dune = (Ok tt, dropped)) as E by (vm_compute; reflexivity).
  rewrite E in Hd. destruct Hd as (s' & Hx' & Hint' & _ & HR & _). exists s'.
  split; [exact Hx'|]. split; [exact Hint'|]. rewrite HR. by rewrite decide_True.
Defined.

(** Dropping a table whose later row refers to an earlier one fails: rows are
    deleted one by one, and the first is still referred to. *)
Theorem drop_table_self_reference :
  delete_table (name "books") with_messiah
  = (Err (EValue (Msg "Primary key {} is referenced by table {} column {}"
       [show (Integer 1); FBytes (name "books"); FBytes (name "prequel")])), with_messiah).
Proof. vm_compute. reflexivity. Qed.
