(* ===== verification/SqlExecClaims.v ===== *)
(** Plan execution: joins, ordering and aggregation against their reference
    definitions. *)
From Stdlib Require Import Strings.Byte Strings.String NArith ZArith Lia Sorting.Sorted.
From stdpp Require Import base list gmap strings.
From S2P Require Import Prelude BTreeMap KeyCode Engine Memory Bincode Mvcc SqlTypes SqlExpression.
From S2P Require Import SqlSchema SqlKeys SqlKv SqlStore SqlIntegrity SqlPlan SqlExec SqlAggregate.
From S2P Require Import SqlJoin SqlSort SqlGroup SqlLexer SqlValid SqlSample.

Open Scope nat_scope.

Section claims.
Context `{Libm, Regex}.

(** * Joins *)

(** C22. The nested loop join, an iterator with a state, yields what the two
    nested loops yield: for each left row the matching concatenations with the
    right rows, or in an outer join without a match the left row with NULLs;
    errors of the predicate appear in their place. *)
Theorem nested_loop_join_exact p outer cs rcs (ls rs : list Row) : total p →
  exec_nested_loop_join p outer (RQuery cs (rows_of (Ok <$> ls))) (RQuery rcs (rows_of (Ok <$> rs)))
  = Ok (RQuery (cs ++ rcs) (rows_of (ls ≫= λ l,
      let found := omap (λ r, match_row p (l ++ r)) rs in
      found ++ if outer && negb (List.existsb is_hit found)
               then [Ok (l ++ replicate (length rcs) Null)] else []))).
Proof.
  intros Ht. rewrite (nested_loop_join_spec _ _ _ _ _ _ rs); [|done|..].
  - cbn [items rows_of forever]. by rewrite join_all_ok.
  - apply Forall_fmap, Forall_forall. done.
  - unfold collect_rows. cbn. by rewrite collect_ok.
Qed.

(** C23. When the right keys are distinct and both key columns hold exact values
    of one type (no NULLs and no floats), the hash join yields the same rows in
    the same order as the nested loop join on equality of the two columns. *)
Theorem hash_join_exact d la lb (a b size : N) outer cs rcs (ls rs : list Row) :
  (a < size)%N → (∀ l, l ∈ ls → length l = N.to_nat size ∧ exact d (key_of a l)) →
  exact_column d b rs → NoDup (key_of b <$> rs) →
  exec_hash_join a b outer (RQuery cs (rows_of (Ok <$> ls))) (RQuery rcs (rows_of (Ok <$> rs)))
  = exec_nested_loop_join (Some (Equal (Field a la) (Field (size + b) lb))) outer
      (RQuery cs (rows_of (Ok <$> ls))) (RQuery rcs (rows_of (Ok <$> rs))).
Proof. apply hash_join_spec. Qed.

(** * Order *)

(** C24. Ordering rows whose sort values are comparable returns a permutation of
    the rows, sorted by the expressions and directions, with rows of equal
    values in their original order. *)
Theorem order_by_sorts orders ts cs (l : list (Row * list Value)) :
  length orders = length ts → Forall (ordered_by orders) l →
  Forall (λ x, comparables ts x.2) l →
  ∃ out, exec_order orders (RQuery cs (rows_of (Ok <$> l.*1)))
      = Ok (RQuery cs (rows_of (Ok <$> out.*1))) ∧
    out ≡ₚ l ∧ StronglySorted (λ x y, values_cmp orders.*2 x.2 y.2 ≠ Gt) out ∧
    ∀ z, z ∈ l → peers (item_cmp orders.*2) z out = peers (item_cmp orders.*2) z l.
Proof.
  intros Hlen Hord Hcmp. exists (sort_by (item_cmp orders.*2) l).
  split; [by eapply exec_order_ok|]. split; [apply sort_by_perm|].
  pose proof (item_preord orders.*2 ts) as Hpo. rewrite length_fmap in Hpo. specialize (Hpo Hlen).
  split.
  - by eapply (sort_by_sorted _ _ Hpo).
  - intros z Hz. eapply (sort_by_stable _ _ Hpo); [|done].
    rewrite Forall_forall in Hcmp. by apply Hcmp.
Qed.

(** * Aggregation *)

(** C25. Aggregating a nonempty list of rows whose aggregated values are
    integers, of absolute value at most a bound that times the number of rows
    fits 64 bits (so that no sum overflows), yields one row per distinct group,
    with the count, sum, minimum, maximum and average of exactly the rows of the
    group. *)
Theorem aggregation_groups bound aggs cs rows : rows ≠ [] →
  Forall (λ r, exact_group (group_of (length aggs) r)) rows → summable bound (length aggs) rows →
  ∃ cs' out, exec_aggregation aggs (RQuery cs (rows_of (Ok <$> rows)))
      = Ok (RQuery cs' (rows_of (Ok <$> out))) ∧
    NoDup (group_of (length aggs) <$> out) ∧
    ∀ r, r ∈ out ↔ ∃ row, row ∈ rows ∧
      r = imap (λ i a, expected a
                  (int_at i <$> rows_in (length aggs) (group_of (length aggs) row) rows)) aggs
          ++ group_of (length aggs) row.
Proof. apply exec_aggregation_integers. Qed.
End claims.

(** * Examples *)

#[local] Abbreviation one := {| col_name := None |}.
Definition on_key : Expression := Equal (Field 0 None) (Field 1 None).

Lemma on_key_total : total (Some on_key).
Proof.
  intros e row [= <-].
  change (returns (eval_equal (field_value (Some row) 0) (field_value (Some row) 1))).
  by destruct (field_value (Some row) 0), (field_value (Some row) 1).
Qed.

Lemma nested_loop_join_exact_witness :
  exec_nested_loop_join (Some on_key) true (RQuery [one] (rows_of (Ok <$> [[Integer 1]; [Integer 2]])))
    (RQuery [one] (rows_of (Ok <$> [[Integer 1]; [Integer 1]])))
  = Ok (RQuery [one; one] (rows_of
      [Ok [Integer 1; Integer 1]; Ok [Integer 1; Integer 1]; Ok [Integer 2; Null]])).
Proof. exact (nested_loop_join_exact (Some on_key) true [one] [one] _ _ on_key_total). Defined.

Lemma hash_join_exact_witness :
  exec_hash_join 0 0 true (RQuery [one] (rows_of (Ok <$> [[Integer 1]; [Integer 2]])))
    (RQuery [one] (rows_of (Ok <$> [[Integer 3]; [Integer 1]])))
  = Ok (RQuery [one; one] (rows_of [Ok [Integer 1; Integer 1]; Ok [Integer 2; Null]])).
Proof.
  rewrite (hash_join_exact TInteger None None 0 0 1); [reflexivity|done|..].
  - intros l. rewrite !elem_of_cons. intros [->|[->|[]%not_elem_of_nil]]; by repeat split.
  - intros r. rewrite !elem_of_cons. intros [->|[->|[]%not_elem_of_nil]]; eexists; by repeat split.
  - cbn. repeat constructor; set_solver.
Defined.

Lemma order_by_sorts_witness : ∃ out,
  exec_order [(Field 0 None, Descending)] (RQuery [one; one]
    (rows_of (Ok <$> [[Integer 1; Null]; [Integer 2; Null]; [Integer 1; Boolean true]])))
  = Ok (RQuery [one; one] (rows_of (Ok <$> out))) ∧
  out ≡ₚ [[Integer 1; Null]; [Integer 2; Null]; [Integer 1; Boolean true]].
Proof.
  destruct (order_by_sorts [(Field 0 None, Descending)] [TInteger] [one; one]
    [([Integer 1; Null], [Integer 1]); ([Integer 2; Null], [Integer 2]);
     ([Integer 1; Boolean true], [Integer 1])]) as (out & Hout & Hperm & _); [done| | |].
  - by repeat constructor.
  - apply Forall_forall. intros x. rewrite !elem_of_cons.
    intros [->|[->|[->|[]%not_elem_of_nil]]]; apply Forall2_cons; split; (by right) || constructor.
  - exists out.*1. split; [exact Hout|]. by apply (fmap_Permutation fst) in Hperm.
Defined.

Lemma aggregation_groups_witness : ∃ cs out,
  exec_aggregation [Sum; Count] (RQuery [] (rows_of (Ok <$>
    [[Integer 3; Integer 0; Boolean true]; [Integer 4; Integer 0; Boolean true];
     [Integer 9; Integer 0; Boolean false]])))
  = Ok (RQuery cs (rows_of (Ok <$> out))) ∧
  [Integer 7; Integer 2; Boolean true] ∈ out ∧ [Integer 9; Integer 1; Boolean false] ∈ out.
Proof.
  destruct (aggregation_groups 9 [Sum; Count] []
    [[Integer 3; Integer 0; Boolean true]; [Integer 4; Integer 0; Boolean true];
     [Integer 9; Integer 0; Boolean false]]) as (cs & out & Hout & _ & Hin); [done| | |].
  - by repeat constructor.
  - split; [done|]. split; [|done].
    apply Forall_forall. intros x. rewrite !elem_of_cons.
    intros [->|[->|[->|[]%not_elem_of_nil]]]; split; intros [|[|i]] Hi; cbn in Hi |- *; lia || done.
  - exists cs, out. split; [exact Hout|]. split; apply Hin.
    + exists [Integer 3; Integer 0; Boolean true]. split; [apply list_elem_of_here|reflexivity].
    + exists [Integer 9; Integer 0; Boolean false]. split; [set_solver|reflexivity].
Defined.

(** With repeated right keys the hash join keeps one row where the nested loop
    join it replaces has two. *)
Theorem hash_join_loses_rows :
  let ls := RQuery [one] (rows_of [Ok [Integer 1]]) in
  let rs := RQuery [one; one] (rows_of [Ok [Integer 1; Boolean true]; Ok [Integer 1; Boolean false]]) in
  exec_nested_loop_join (Some on_key) false ls rs
    = Ok (RQuery [one; one; one] (rows_of
        [Ok [Integer 1; Integer 1; Boolean true]; Ok [Integer 1; Integer 1; Boolean false]])) ∧
  exec_hash_join 0 0 false ls rs
    = Ok (RQuery [one; one; one] (rows_of [Ok [Integer 1; Integer 1; Boolean false]])) ∧
  hash_join (NestedLoopJoin (Scan [] None None) 1 (Scan [] None None) (Some on_key) false)
    = Ok (HashJoin (Scan [] None None) (0%N, None) (Scan [] None None) (0%N, None) false).
Proof. vm_compute. done. Qed.
