(* ===== verification/SqlSessionClaims.v ===== *)
(** Sessions: a statement outside a transaction is atomic, every sequence of
    such statements keeps the integrity of the database, and runs of the whole
    SQL stack from the text of the statements on. *)
From Stdlib Require Import Strings.Byte NArith ZArith Lia Floats.SpecFloat Strings.String.
From stdpp Require Import base list gmap strings.
From S2P Require Import Prelude BTreeMap KeyCode Engine Memory Bincode Mvcc MvccDb MvccInv MvccSI.
From S2P Require Import MvccClaims SqlTypes SqlExpression SqlSchema SqlKeys SqlKv SqlStore.
From S2P Require Import SqlIntegrity SqlWrites SqlCatalog SqlMvcc SqlPlan SqlExec SqlAggregate.
From S2P Require Import SqlExecutor SqlAst SqlLexer SqlParser SqlPlanner SqlSession SqlValid.
From S2P Require Import SqlStatements SqlPlanSafe SqlParserSpec SqlSample.

Open Scope N_scope.

Section atomic.
Context {E : Type} `{EngineLaws E}.
Context `{BincodeLaws N, BincodeLaws (gset N), BincodeLaws (option bytes)}.
Context `{BincodeLaws (list Value), BincodeLaws Table}.
Context `{LibmLaws, Regex, Unicode}.
Context (Hunl : ∀ k v, eng_writable (E:=E) k v).
Implicit Types (e : E) (s : Store).

(** What the next transaction sees; [n] is the next version. *)
Definition sql_database (n : N) e s : Prop := ∃ m, database n e m ∧ holds m s.

(** A plan that was built and optimized for a valid statement is safe. *)
Lemma build_plan_finds P st statement s (HP : kept P st) : relational s → statement_valid statement →
  @finds E (mvcc_store st) (mvcc_laws Hunl P st HP) _ _ Node (build_plan st statement) s safe_plan.
Proof.
  intros Hs Hst. unfold build_plan, sql_txn, kv_engine.
  eapply finds_bind; [by eapply plan_safe|]. intros p Hp. by apply optimize_safe.
Qed.

Lemma autocommit_runs n e s statement : n < u64_max → sql_database n e s → integrity s →
  statement_valid statement →
  match autocommit statement e with
  | (Ok _, e') => ∃ s', sql_database (n + 1) e' s' ∧ integrity s'
  | (Err _, e') | (Panic _, e') => sql_database (n + 1) e' s
  end.
Proof.
  intros Hn (m & Hdb & Hm) Hs Hst. unfold autocommit.
  destruct (begin_txn n e m Hunl Hn Hdb) as (st & e1 & Hbegin & Hro & Hv & Htxn).
  erewrite M_bind_Ok by exact Hbegin. rewrite <-Hv.
  pose proof (ex_intro _ m (conj Htxn Hm)
    : @sees E (mvcc_store st) (mvcc_laws Hunl _ st (solo_kept st m)) _ _ e1 s) as Hsees.
  destruct (build_plan_finds _ st statement s (solo_kept st m) (proj1 Hs) Hst e1 Hsees)
    as (r & Hplan & Hsafe).
  unfold mbind at 1, M_bind at 1. rewrite Hplan. destruct r as [p|err|w].
  2,3: exists m; split; [by eapply open_txn_database|done].
  unfold commit_or_rollback.
  pose proof (execute_keeps (H0:=mvcc_laws Hunl _ st (solo_kept st m)) p s Hs (Hsafe p eq_refl) e1 Hsees)
    as Hexec.
  change (execute_plan st p e1) with
    (@execute E (@kv_transaction E (mvcc_store st) _ _ _ _) _ _ p e1).
  destruct (execute p e1) as [[a|err|w] e2].
  - destruct Hexec as (s' & (m' & Hrep' & Hm') & Hs').
    destruct (commit_txn st e2 m m' Hro Hrep') as (e3 & Hc & Hdb').
    erewrite M_bind_Ok by exact Hc. exists s'. split; [by exists m'|done].
  - destruct Hexec as (s' & m' & Hrep' & _).
    destruct (rollback_txn st e2 m m' Hro Hrep') as (e3 & Hc & Hdb').
    erewrite M_bind_Ok by exact Hc. by exists m.
  - destruct Hexec as (s' & m' & Hrep' & _). exists m. split; [exact (open_txn_database st e2 m m' Hrep')|done].
Qed.

(** A query sees the database and changes nothing. *)
Lemma select_runs n e s q : sql_database n e s → integrity s →
  ∃ r, (h ← sql_begin_read_only; node ← build_plan h (SSelect q);
        finally (execute_plan h node) (sql_rollback h)) e = (r, e).
Proof.
  intros (m & Hdb & Hm) Hs. destruct (begin_ro_txn n e m Hdb) as (st & Hbegin & Hro & Htxn).
  erewrite M_bind_Ok by exact Hbegin.
  assert (kept (λ d, next_version d = n ∧ ∀ key, reads d (MvccSI.committed d) key (m !! key)) st) as HP.
  { intros Hf. congruence. }
  pose proof (ex_intro _ m (conj Htxn Hm)
    : @sees E (mvcc_store st) (mvcc_laws Hunl _ st HP) _ _ e s) as Hsees.
  assert (@finds E (mvcc_store st) (mvcc_laws Hunl _ st HP) _ _ Node (build_plan st (SSelect q)) s
    (λ p, reads_only p = true)) as Hplan.
  { unfold build_plan, sql_txn, kv_engine. eapply finds_bind; [apply plan_select_reads|].
    intros p Hp. by apply optimize_reads; [apply Hs|]. }
  destruct (Hplan e Hsees) as (r & Hr & Hp). unfold mbind at 1, M_bind at 1. rewrite Hr.
  destruct r as [p|err|w]; [|by eexists..].
  destruct (execute_reads (H0:=mvcc_laws Hunl _ st HP) p s (Hp p eq_refl) e Hsees) as (r & Hx & _).
  unfold finally. change (execute_plan st p e) with
    (@execute E (@kv_transaction E (mvcc_store st) _ _ _ _) _ _ p e). rewrite Hx.
  assert (sql_rollback st e = (Ok tt, e)) as Hrb.
  { cbn [sql_rollback kv_engine]. unfold rollback. by rewrite Hro. }
  rewrite Hrb. by destruct r; eexists.
Qed.
End atomic.

(** Everything but transaction control and EXPLAIN. *)
Definition data_statement (st : Statement) : bool :=
  match st with SBegin _ _ | SCommit | SRollback | SExplain _ => false | _ => true end.

Section claims.
Context {E : Type} `{EngineLaws E}.
Context `{BincodeLaws N, BincodeLaws (gset N), BincodeLaws (option bytes)}.
Context `{BincodeLaws (list Value), BincodeLaws Table}.
Context `{LibmLaws, Regex, Unicode}.
Context (Hunl : ∀ k v, eng_writable (E:=E) k v).
Implicit Types (e : E) (s : Store).

Lemma select_statement n e s q : sql_database n e s → integrity s →
  ∃ r, execute_statement (SSelect q) (session e) = (r, session e).
Proof.
  intros Hdb Hs. destruct (select_runs Hunl n e s q Hdb Hs) as [r Hr]. exists r.
  transitivity (on_engine (H:=TransactionState) (h ← sql_begin_read_only; node ← build_plan h (SSelect q);
    finally (execute_plan h node) (sql_rollback h)) (session e)); [done|].
  unfold on_engine. cbn [engine session]. by rewrite Hr.
Qed.

Lemma statement_runs n e s st : n < u64_max → sql_database n e s → integrity s →
  data_statement st = true → statement_valid st →
  match execute_statement st (session e) with
  | (Ok _, ses) => txn ses = None ∧
      ∃ n' s', n ≤ n' ≤ n + 1 ∧ sql_database n' (engine ses) s' ∧ integrity s'
  | (Err _, ses) | (Panic _, ses) => txn ses = None ∧
      ∃ n', n ≤ n' ≤ n + 1 ∧ sql_database n' (engine ses) s
  end.
Proof.
  intros Hn Hdb Hs Hd Hst.
  assert ((∃ q, st = SSelect q) ∨
    execute_statement st (session e) = on_engine (autocommit st) (session e)) as [[q ->]|Hx].
  { destruct st; try done; [by right..|left]. eauto. }
  - destruct (select_statement n e s q Hdb Hs) as [r ->].
    destruct r; (split; [done|]); [exists n, s|exists n..]; (split; [lia|done]).
  - rewrite Hx. unfold on_engine. cbn [engine session].
    pose proof (autocommit_runs Hunl n e s st Hn Hdb Hs Hst) as Hr.
    destruct (autocommit st e) as [[rs|err|w] e']; cbn; (split; [done|]).
    + destruct Hr as (s' & ? & ?). exists (n + 1), s'. split; [lia|done].
    + exists (n + 1). split; [lia|done].
    + exists (n + 1). split; [lia|done].
Qed.

(** C5. A SELECT, INSERT, UPDATE, DELETE, CREATE TABLE or DROP TABLE (no
    transaction statement and no EXPLAIN) that is executed outside a
    transaction, on a database with referential integrity, unique columns, typed
    rows and exact indexes, either succeeds and leaves such a database, or fails
    (with an error or a panic) and leaves the tables, rows and indexes that
    later transactions see as they were; no transaction stays open in the
    session. Conditions: the storage engine accepts every write, the version
    counter is below its maximum, names and strings are valid UTF-8, and a
    CREATE TABLE names its columns distinctly and has no float primary key,
    indexed or reference column. *)
Theorem statement_atomic n e s st : n < u64_max → sql_database n e s → integrity s →
  data_statement st = true → statement_valid st →
  match execute_statement st (session e) with
  | (Ok _, ses) => txn ses = None ∧
      ∃ n' s', n ≤ n' ≤ n + 1 ∧ sql_database n' (engine ses) s' ∧ integrity s'
  | (Err _, ses) | (Panic _, ses) => txn ses = None ∧
      ∃ n', n ≤ n' ≤ n + 1 ∧ sql_database n' (engine ses) s
  end.
Proof. exact (statement_runs n e s st). Qed.

(** A query outside a transaction leaves the session and the engine exactly as
    they were. *)
Theorem query_changes_nothing n e s q : sql_database n e s → integrity s →
  ∃ r, execute_statement (SSelect q) (session e) = (r, session e).
Proof. exact (select_statement n e s q). Qed.

(** The session after a list of queries, whatever each of them returns. *)
Fixpoint after_queries (qs : list bytes) (ses : Session E TransactionState)
    : Session E TransactionState :=
  match qs with
  | [] => ses
  | q :: qs => after_queries qs (session_execute q ses).2
  end.

(** A text that is not a transaction statement or an EXPLAIN, and that is no
    unsound CREATE TABLE; it may be no statement at all. *)
Definition sound_query (q : bytes) : Prop :=
  utf8_valid q = true ∧ ∀ st, parse q = Ok st → data_statement st = true ∧ sound_schema st.

Lemma query_runs `{!UnicodeLaws} n e s q : n < u64_max → sql_database n e s → integrity s →
  sound_query q → ∃ n' s', n ≤ n' ≤ n + 1 ∧ integrity s' ∧
    txn (session_execute q (session e)).2 = None ∧
    sql_database n' (engine (session_execute q (session e)).2) s'.
Proof.
  intros Hn Hdb Hs [Hq Hsound]. pose proof (parse_returns q Hq) as Hp.
  unfold session_execute, mbind, M_bind, lift.
  destruct (parse q) as [st|err|w]; [|exists n, s; split; [lia|done]|done].
  destruct (Hsound st eq_refl) as [Hd Hsch].
  pose proof (statement_runs n e s st Hn Hdb Hs Hd (formed_valid _ Hp Hsch)) as Hr.
  destruct (execute_statement st (session e)) as [[rs|err|w] ses]; cbn [snd]; destruct Hr as [Ht Hr].
  - destruct Hr as (n' & s' & ? & ? & ?). by exists n', s'.
  - destruct Hr as (n' & ? & ?). by exists n', s.
  - destruct Hr as (n' & ? & ?). by exists n', s.
Qed.

(** C6. Starting from an empty engine that accepts every write, after any
    sequence of query texts in a session (statements that change data or tables,
    queries, and texts that do not parse; no explicit transactions) the database
    has integrity: every row is keyed by its primary key, has a value of the
    right type in each column, its references exist, unique columns are unique,
    and the indexes are exact. CREATE TABLE must name its columns distinctly and
    not use floats as keys, and there are fewer queries than versions. *)
Theorem queries_keep_integrity `{!UnicodeLaws} qs e : eng_inv e → eng_view e = [] →
  N.of_nat (length qs) + 1 < u64_max → Forall sound_query qs →
  ∃ n s, sql_database n (engine (after_queries qs (session e))) s ∧ integrity s ∧
    txn (after_queries qs (session e)) = None.
Proof.
  intros He Hv Hn Hqs.
  cut (∀ n s, n + N.of_nat (length qs) < u64_max → sql_database n e s → integrity s →
    ∃ n' s', sql_database n' (engine (after_queries qs (session e))) s' ∧ integrity s' ∧
      txn (after_queries qs (session e)) = None).
  { intros Hgen. apply (Hgen 1 empty_store); [lia| |apply empty_integrity].
    exists ∅. split; [by apply empty_database|apply empty_holds]. }
  clear He Hv Hn. revert e. induction Hqs as [|q qs Hq _ IH]; intros e n s Hn Hdb Hs; [by exists n, s|].
  cbn [length] in Hn. cbn [after_queries].
  destruct (query_runs n e s q ltac:(lia) Hdb Hs Hq) as (n' & s' & Hn' & Hs' & Ht & Hdb').
  destruct (session_execute q (session e)).2 as [e' t]. cbn [txn engine] in *. subst t.
  apply (IH e' n' s'); [lia|done..].
Qed.
End claims.

(** * Examples *)

(** The statement in a text. *)
Definition statement (q : string) : Statement :=
  match parse (name q) with Ok st => st | _ => SCommit end.

Definition create_movies : Statement :=
  statement "CREATE TABLE movies (id INTEGER PRIMARY KEY, title STRING, score FLOAT DEFAULT 0.5)".
Definition select_movies : Statement := statement "SELECT title FROM movies WHERE id = 2".

Lemma memory_sql_database : sql_database 1 Memory.new empty_store.
Proof. exists ∅. split; [apply memory_database|apply empty_holds]. Qed.

Lemma create_movies_valid : statement_valid create_movies.
Proof.
  assert (∃ cs, create_movies = SCreateTable (name "movies") cs ∧
    ac_name <$> cs = [name "id"; name "title"; name "score"] ∧
    Forall (λ c, ac_references c = None ∧ utf8_valid (ac_name c) = true ∧
      (ac_primary_key c = true ∨ ac_index c = true → ac_datatype c ≠ TFloat) ∧
      option_valid (ac_default c)) cs) as (cs & -> & Hn & Hcs).
  { eexists. split; [vm_compute; reflexivity|]. split; [by vm_compute|].
    repeat (constructor; [split; [done|]; split; [done|]; split; [by intros [?|?]|by vm_compute]|]).
    constructor. }
  split; [done|]. split; [rewrite Hn; apply (bool_decide_unpack _); by vm_compute|].
  eapply Forall_impl; [exact Hcs|]. intros c (Hr & Hu & Hf & Hd). rewrite Hr.
  split; [done|]. split; [done|]. split; [done|]. intros [?|[?|[? ?]]]; [auto..|done].
Qed.

Lemma statement_atomic_witness : ∃ ses n s,
  execute_statement create_movies (session Memory.new)
    = (Ok (RCreateTable (name "movies")), ses) ∧ txn ses = None ∧
  sql_database n (engine ses) s ∧ integrity s.
Proof.
  pose proof (statement_atomic memory_takes_all 1 Memory.new empty_store create_movies eq_refl
    memory_sql_database empty_integrity ltac:(vm_compute; reflexivity) create_movies_valid) as Ha.
  assert (∃ ses, execute_statement create_movies (session Memory.new)
    = (Ok (RCreateTable (name "movies")), ses)) as [ses E] by (eexists; vm_compute; reflexivity).
  rewrite E in Ha. destruct Ha as (Ht & n' & s' & Hn & Hdb & Hs).
  exists ses, n', s'. split; [exact E|]. split; [exact Ht|]. split; [exact Hdb|exact Hs].
Defined.

Lemma query_changes_nothing_witness : ∃ r, execute_statement select_movies (session Memory.new)
  = (r, session Memory.new).
Proof.
  assert (∃ q, select_movies = SSelect q) as [q Eq] by (eexists; vm_compute; reflexivity).
  rewrite Eq. exact (query_changes_nothing memory_takes_all 1 Memory.new empty_store q
    memory_sql_database empty_integrity).
Defined.

(** Texts with a table, two insertions of which the second fails, a text that is
    no statement, and a query. *)
Definition movie_queries : list bytes := name <$> [
  "CREATE TABLE movies (id INTEGER PRIMARY KEY, title STRING, score FLOAT DEFAULT 0.5)";
  "INSERT INTO movies (title, id) VALUES ('Solaris', 1), ('Stalker', 2)";
  "INSERT INTO movies (title, id) VALUES ('Mirror', 3), ('Stalker', 2)";
  "INSERT INTO movies movies";
  "SELECT title FROM movies WHERE id = 2"]%string.

Lemma movie_queries_sound : Forall sound_query movie_queries.
Proof.
  unfold movie_queries. rewrite !fmap_cons.
  apply Forall_cons; split; [split; [by vm_compute|]|
    repeat (apply Forall_cons; split; [split; [by vm_compute|]; intros st; vm_compute; by intros [= <-]|])];
    [|constructor].
  intros st Hst. assert (st = create_movies) as -> by (unfold create_movies, statement; by rewrite Hst).
  split; [vm_compute; reflexivity|].
  assert (∃ n cs, create_movies = SCreateTable n cs) as (n & cs & E) by (eexists _, _; vm_compute; reflexivity).
  pose proof create_movies_valid as Hv. rewrite E in Hv |- *. destruct Hv as (_ & Hnd & Hcs).
  split; [exact Hnd|]. eapply Forall_impl; [exact Hcs|]. by intros c (_ & _ & _ & ?).
Qed.

Lemma queries_keep_integrity_witness : ∃ n s,
  sql_database n (engine (after_queries movie_queries (session Memory.new))) s ∧ integrity s.
Proof.
  destruct (queries_keep_integrity memory_takes_all movie_queries Memory.new) as (n & s & Hdb & Hs & _);
    [apply memory_new_inv|reflexivity|reflexivity|exact movie_queries_sound|
     exists n, s; split; [exact Hdb|exact Hs]].
Defined.

(** ** Runs from the text on *)

(** The results of a list of queries in one session. *)
Fixpoint script (qs : list string) (s : Session Memory TransactionState) : list (res ResultSet) :=
  match qs with
  | [] => []
  | q :: qs => let '(r, s) := session_execute (name q) s in r :: script qs s
  end.
Definition answers (qs : list string) : list (res ResultSet) := script qs (session Memory.new).

Definition answer (names : list string) (rows : list Row) : res ResultSet :=
  Ok (RQuery ((λ n, {| col_name := Some (name n) |}) <$> names) (rows_of (Ok <$> rows))).

Definition setup : list string := [
  "CREATE TABLE books (id INTEGER PRIMARY KEY, title STRING INDEX, prequel INTEGER REFERENCES books)";
  "INSERT INTO books VALUES (1, 'dune', NULL), (2, 'messiah', 1)"]%string.

(** A run of a session: inside an explicit transaction an UPDATE of an indexed
    column fails on a missing reference, and after COMMIT a query by the old
    value of that column no longer finds the row, although the row still has it. *)
Theorem failed_update_hides_row :
  drop 2 (answers (setup ++ [
    "SELECT id FROM books WHERE title = 'dune'";
    "BEGIN";
    "UPDATE books SET title = 'arrakis', prequel = 9 WHERE id = 1";
    "COMMIT";
    "SELECT id FROM books WHERE title = 'dune'";
    "SELECT id, title FROM books ORDER BY id LIMIT 1"]%string))
  = [answer ["id"%string] [[Integer 1]];
     Ok (RBegin 3 false);
     value_error "Referenced primary key {} in table {} does not exist"
       [show (Integer 9); FBytes (name "books")];
     Ok (RCommit 3);
     answer ["id"%string] [];
     answer ["id"; "title"]%string [[Integer 1; SqlTypes.String (name "dune")]]].
Proof. vm_compute. reflexivity. Qed.

Definition orders : list string := [
  "CREATE TABLE customers (id INTEGER PRIMARY KEY)";
  "INSERT INTO customers VALUES (1), (2)";
  "CREATE TABLE orders (no INTEGER PRIMARY KEY, customer INTEGER REFERENCES customers)";
  "INSERT INTO orders VALUES (10, 1), (11, 1)"]%string.

(** A run of a session: an equality join loses rows when the right keys repeat,
    a condition on the right side above a left join yields rows it should
    reject, and an equality join with a NULL key overflows the stack, where the
    same joins by two inequalities answer correctly. *)
Theorem join_answers_wrong :
  drop 4 (answers (orders ++ [
    "SELECT id, no FROM customers, orders WHERE customer <= id AND customer >= id";
    "SELECT id, no FROM customers, orders WHERE customer = id";
    "SELECT id, no FROM customers LEFT JOIN orders ON id <= customer AND id >= customer WHERE no = 10";
    "INSERT INTO orders VALUES (12, NULL)";
    "SELECT id, no FROM customers, orders WHERE customer = id"]%string))
  = [answer ["id"; "no"]%string [[Integer 1; Integer 10]; [Integer 1; Integer 11]];
     answer ["id"; "no"]%string [[Integer 1; Integer 11]];
     answer ["id"; "no"]%string [[Integer 1; Integer 10]; [Integer 2; Null]];
     Ok (RCreate 1);
     Panic "stack overflow"].
Proof. vm_compute. reflexivity. Qed.

(** A run of a session: a comparison with NULL finds the rows with NULL when the
    column is indexed, a comparison of the primary key with a float misses its
    row, and a repeated key returns its row twice. *)
Theorem lookup_answers_wrong :
  drop 2 (answers (setup ++ [
    "INSERT INTO books VALUES (3, NULL, NULL)";
    "SELECT id FROM books WHERE title = NULL";
    "SELECT id FROM books WHERE prequel = NULL";
    "SELECT id FROM books WHERE id = 1.0";
    "SELECT id FROM books WHERE prequel = 1.0";
    "SELECT id FROM books WHERE id = 1 OR id = 1"]%string))
  = [Ok (RCreate 1);
     answer ["id"%string] [[Integer 3]];
     answer ["id"%string] [];
     answer ["id"%string] [];
     answer ["id"%string] [[Integer 2]];
     answer ["id"%string] [[Integer 1]; [Integer 1]]].
Proof. vm_compute. reflexivity. Qed.

(** A run of a session: ordering by an aggregate function without arguments
    panics. *)
Theorem empty_aggregate_panics :
  drop 2 (answers (setup ++ [
    "SELECT id FROM books ORDER BY count()"]%string))
  = [Panic "index out of bounds"].
Proof. vm_compute. reflexivity. Qed.
