(* ===== verification/SqlPushdown.v ===== *)
(** Filter pushdown (FilterPushdown of src/src/sql/plan/optimizer.rs) on plans
    without joins: the rewritten plan returns what the plan returns.  This
    needs that conditions on the rows of a table have a truth value, since a
    conjunction evaluates both of its sides. *)
From Stdlib Require Import Strings.Byte NArith ZArith Lia Sorting.Sorted.
From stdpp Require Import base list gmap strings.
From S2P Require Import Prelude BTreeMap KeyCode Engine Bincode Mvcc SqlTypes SqlExpression.
From S2P Require Import SqlSchema SqlKeys SqlKv SqlStore SqlIntegrity SqlWrites SqlCatalog SqlPlan.
From S2P Require Import SqlExec SqlAggregate SqlExecutor SqlJoin SqlStatements.

Open Scope nat_scope.

#[local] Instance Ok_inj {A} : Inj (=) (=) (Ok (A:=A)).
Proof. by intros ? ? [= ->]. Qed.

Section conditions.
Context `{Libm, Regex}.

(** The expression is true, false or NULL on the row. *)
Definition truth_value (v : Value) : Prop := v = Null ∨ ∃ b, v = Boolean b.
Definition condition (p : Expression) (row : Row) : Prop :=
  ∃ v, evaluate p (Some row) = Ok v ∧ truth_value v.

Definition is_true (p : Expression) (row : Row) : bool :=
  match evaluate p (Some row) with Ok (Boolean true) => true | _ => false end.

Lemma and_condition p q row : condition p row → condition q row →
  condition (And p q) row ∧ is_true (And p q) row = is_true p row && is_true q row.
Proof.
  unfold condition, is_true. cbn [evaluate]. intros (v & -> & Hv) (w & -> & Hw).
  destruct Hv as [->|[[] ->]], Hw as [->|[[] ->]]; cbn;
    (split; [eexists; split; [done|]; first [by left|right; by eexists]|done]).
Qed.

Lemma keep_condition p row : condition p row →
  keep_row p row = Ok (if is_true p row then Some row else None).
Proof.
  unfold condition, is_true, keep_row. intros (v & -> & Hv). by destruct Hv as [->|[[] ->]].
Qed.

Lemma filter_condition p row : condition p row →
  filter_row (Some p) (Ok row) = if is_true p row then Some (Ok row) else None.
Proof.
  unfold condition, is_true, filter_row. intros (v & -> & Hv). by destruct Hv as [->|[[] ->]].
Qed.

(** Conditions over a list of rows. *)
Lemma keep_rows p l : Forall (condition p) l →
  filter_map_rows (keep_row p) (rows_of (Ok <$> l)) = rows_of (Ok <$> List.filter (is_true p) l).
Proof.
  intros Hl. unfold filter_map_rows, rows_of. f_equal. cbn [items].
  induction Hl as [|row l Hr _ IH]; [done|]. cbn. rewrite keep_condition by done.
  cbn in IH. destruct (is_true p row); cbn; by rewrite IH.
Qed.

Lemma scan_filter_rows p l : Forall (condition p) l →
  collect_vec (omap (filter_row (Some p)) (Ok <$> l)) = Ok (Ok <$> List.filter (is_true p) l).
Proof.
  intros Hl. rewrite <-collect_vec_ok. f_equal.
  induction Hl as [|row l Hr _ IH]; [done|]. cbn -[filter_row]. rewrite filter_condition by done.
  cbn in IH. destruct (is_true p row); cbn; by rewrite IH.
Qed.

Lemma filter_filter {A} (f g : A → bool) l :
  List.filter g (List.filter f l) = List.filter (λ a, f a && g a) l.
Proof.
  induction l as [|a l IH]; [done|]. cbn. destruct (f a); cbn; rewrite IH; done.
Qed.

Lemma filter_ext {A} (f g : A → bool) l : Forall (λ a, f a = g a) l → List.filter f l = List.filter g l.
Proof. induction 1 as [|a l Ha _ IH]; [done|]. cbn. by rewrite Ha, IH. Qed.

(** * Filters over a scan *)

(** The table of a scan below filters. *)
Fixpoint stack_table (n : Node) : option bytes :=
  match n with
  | Scan t _ _ => Some t
  | Filter n _ => stack_table n
  | _ => None
  end.

(** The rows of the table that pass the filters. *)
Fixpoint passes (n : Node) (row : Row) : bool :=
  match n with
  | Scan _ _ (Some f) => is_true f row
  | Filter n p => passes n row && is_true p row
  | _ => true
  end.

(** Every condition of the stack has a truth value on the row. *)
Fixpoint decided (n : Node) (row : Row) : Prop :=
  match n with
  | Scan _ _ (Some f) => condition f row
  | Filter n p => decided n row ∧ condition p row
  | _ => True
  end.

(** Plans without joins, with conditions that are decided on stored rows. *)
Definition stacked (s : Store) (n : Node) : Prop :=
  match stack_table n with
  | Some t => ∀ row, stored s t row → decided n row
  | None => False
  end.
Fixpoint pushable (s : Store) (n : Node) : Prop :=
  match n with
  | Filter src p =>
      match src with
      | Scan _ _ _ | Filter _ _ => stacked s n
      | _ => pushable s src
      end
  | Scan _ _ _ => stacked s n
  | HashJoin _ _ _ _ _ | NestedLoopJoin _ _ _ _ _ => False
  | Aggregation n _ | Delete _ n | Limit n _ | Offset n _ | Order n _ | Projection n _
  | Update _ n _ => pushable s n
  | CreateTable _ | DropTable _ _ | IndexLookup _ _ _ _ | Insert _ _ _ | KeyLookup _ _ _ | Nothing => True
  end.

Lemma stacked_filter s src p : stacked s (Filter src p) → stacked s src.
Proof.
  unfold stacked. cbn. destruct (stack_table src); [|done]. intros Hd row Hrow. by apply (Hd row).
Qed.

Lemma stacked_pushable s n : stacked s n → pushable s n.
Proof. destruct n as [| | | |n p| | | | | | | | | | |t a f|]; try done. by destruct n. Qed.

Lemma pushable_filter s src p : pushable s (Filter src p) →
  stacked s (Filter src p) ∨ push_filter (Filter src p) = Ok (Filter src p) ∧ pushable s src.
Proof. destruct src; cbn [pushable]; try done; auto. Qed.

(** What pushing a filter down does to a stack. *)
Lemma push_filter_stack s src p : stacked s (Filter src p) →
  ∃ src', push_filter (Filter src p) = Ok (Filter src' (Constant (Boolean true))) ∧
    depth src' = depth src ∧ stacked s (Filter src' (Constant (Boolean true))) ∧
    stack_table src' = stack_table src ∧
    ∀ t row, stack_table src = Some t → stored s t row →
      passes (Filter src' (Constant (Boolean true))) row = passes (Filter src p) row.
Proof.
  assert (∀ row, condition (Constant (Boolean true)) row) as Htrue.
  { intros row. exists (Boolean true). split; [done|]. right. by exists true. }
  intros Hst. destruct src as [| | | |src q| | | | | | | | | | |t a f|]; try done.
  - exists (Filter src (And q p)). split; [done|]. split; [done|].
    unfold stacked in Hst |- *. cbn [stack_table decided passes] in Hst |- *.
    destruct (stack_table src) as [t|]; [|done]. split; [|split; [done|]].
    + intros row Hrow. destruct (Hst row Hrow) as [[Hd Hq] Hp].
      destruct (and_condition q p row Hq Hp) as [? _]. done.
    + intros t' row [= <-] Hrow. destruct (Hst row Hrow) as [[Hd Hq] Hp].
      destruct (and_condition q p row Hq Hp) as [_ ->]. cbn. by rewrite andb_true_r, andb_assoc.
  - exists (Scan t a (Some match f with Some f => And p f | None => p end)).
    split; [done|]. split; [done|]. unfold stacked in Hst |- *.
    cbn [stack_table decided passes] in Hst |- *. split; [|split; [done|]].
    + intros row Hrow. destruct (Hst row Hrow) as [Hf Hp]. split; [|done].
      destruct f as [f|]; [|done]. by destruct (and_condition p f row Hp Hf).
    + intros t' row [= <-] Hrow. destruct (Hst row Hrow) as [Hf Hp]. cbn [evaluate is_true].
      change (is_true (Constant (Boolean true)) row) with true. rewrite andb_true_r.
      destruct f as [f|]; [|done]. destruct (and_condition p f row Hp Hf) as [_ ->]. apply andb_comm.
Qed.
End conditions.

Section pushdown.
Context {T : Type} `{KvLaws T}.
Context `{Libm, Regex}.
Context `{BincodeLaws (list Value), BincodeLaws Table}.
Implicit Types (x : T) (s : Store).

(** The rows a stack yields: those of the table that pass. *)
Lemma execute_stack s n t : integrity s → stacked s n → stack_table n = Some t →
  utf8_valid t = true → ∀ x, sees x s →
  match tables s t with
  | Some tb => ∃ l, table_rows s t l ∧ (∀ f, scan t f x
        = (collect_vec (omap (filter_row f) (Ok <$> l.*2)), x)) ∧
      execute n x = (Ok (RQuery (table_columns tb) (rows_of (Ok <$> List.filter (passes n) l.*2))), x)
  | None => execute n x = (value_error "Table {} does not exist" [FBytes t], x)
  end.
Proof.
  intros Hint Hst Ht Hu x Hx. pose proof Hint as [Hs _].
  destruct (tables s t) as [tb|] eqn:Htb.
  - destruct (rel_table s Hs t tb Htb) as [Htn Hok].
    destruct (scan_rows_sees x s t Hx Hu) as (l & Hl & Hscan).
    { intros id row Hrow. by destruct (stored_row s t id row Hs Hrow) as (? & _ & _ & _ & _ & _ & _ & ?). }
    rewrite Htb in Hscan. exists l. split; [done|].
    split; [intros f; apply Hscan; eauto|].
    assert (∀ row, row ∈ l.*2 → stored s t row) as Hstored.
    { intros row ([id r] & -> & Hin)%list_elem_of_fmap. exists id. by apply Hl. }
    unfold stacked in Hst. rewrite Ht in Hst. revert Ht Hst.
    induction n as [| | | |n IH p| | | | | | | | | | |t' a f|]; try done;
      cbn [stack_table decided execute passes]; intros Ht Hst.
    + erewrite M_bind_Ok by (apply IH; [done|]; intros row Hrow; by apply (Hst row)).
      unfold lift, exec_filter, query. rewrite keep_rows; [by rewrite filter_filter|].
      apply Forall_forall. intros row [Hin _]%elem_of_filter_bool. by apply (Hst row), Hstored.
    + injection Ht as ->. unfold exec_scan.
      assert (must_read_table t x = (Ok tb, x)) as Hm.
      { unfold must_read_table. erewrite M_bind_Ok by (by apply read_table_sees). by rewrite Htb. }
      erewrite M_bind_Ok by exact Hm.
      rewrite Htn. cbn [tx_scan tx_reader kv_transaction kv_reader].
      assert (scan t f x = (Ok (Ok <$> List.filter (passes (Scan t a f)) l.*2), x)) as Hs'.
      { rewrite Hscan by eauto. cbn [passes]. destruct f as [f|].
        - rewrite scan_filter_rows; [done|]. apply Forall_forall. intros row Hin. by apply Hst, Hstored.
        - rewrite filter_all_bool by done. rewrite <-collect_vec_ok. do 2 f_equal.
          clear. induction l.*2 as [|r l' IH]; [done|]. cbn. f_equal. exact IH. }
      by erewrite M_bind_Ok by exact Hs'.
  - clear Hst. revert Ht. induction n as [| | | |n IH p| | | | | | | | | | |t' a f|]; try done;
      cbn [stack_table execute]; intros Ht.
    + unfold mbind, M_bind. by rewrite IH.
    + injection Ht as ->. unfold exec_scan, must_read_table.
      unfold mbind, M_bind. cbn [tx_read_table tx_reader kv_transaction kv_reader].
      by rewrite (read_table_sees x s), Htb.
Qed.

(** Two stacks over a table that pass the same rows. *)
Lemma execute_stacks s n n' t : integrity s → stacked s n → stacked s n' →
  stack_table n = Some t → stack_table n' = Some t → utf8_valid t = true →
  (∀ row, stored s t row → passes n' row = passes n row) →
  ∀ x, sees x s → execute n' x = execute n x.
Proof.
  intros Hint Hn Hn' Ht Ht' Hu Hp x Hx.
  pose proof (execute_stack s n t Hint Hn Ht Hu x Hx) as He.
  pose proof (execute_stack s n' t Hint Hn' Ht' Hu x Hx) as He'.
  destruct (tables s t) as [tb|]; [|congruence].
  destruct He as (l & [_ Hl] & Hscan & ->), He' as (l' & _ & Hscan' & ->).
  assert (l'.*2 = l.*2) as ->.
  { pose proof (Hscan None) as E. rewrite Hscan' in E. injection E as E.
    assert (∀ k : list Row, omap (filter_row None) (Ok <$> k) = Ok <$> k) as Hid.
    { induction k as [|r k IH]; [done|]. cbn. f_equal. exact IH. }
    rewrite !Hid, !collect_vec_ok in E. injection E as E.
    by apply (inj (fmap (M:=list) (Ok (A:=Row)))) in E. }
  do 5 f_equal. apply filter_ext, Forall_forall. intros row ([id r] & -> & Hin)%list_elem_of_fmap.
  apply Hp. exists id. by apply Hl.
Qed.

(** The names of the tables of a plan. *)
Fixpoint names_valid (n : Node) : Prop :=
  match n with
  | Scan t _ _ => utf8_valid t = true
  | Aggregation n _ | Filter n _ | Limit n _ | Offset n _ | Order n _ | Projection n _ => names_valid n
  | Delete t n => names_valid n
  | Update t n _ => names_valid n
  | _ => True
  end.

Lemma stack_name n t : stack_table n = Some t → names_valid n ↔ utf8_valid t = true.
Proof. induction n; cbn; try done. by intros [= ->]. Qed.

(** A plan with one source, and one without. *)
Lemma push_source fuel (f : Node → Node) n src src' (x : T) :
  push_filter n = Ok (f src) →
  (∀ g : Node → M T Node, map_sources g (f src) = (src ← g src; mret (f src))) →
  transform_node fuel (λ n, lift (push_filter n)) mret src x = (Ok src', x) →
  transform_node (S fuel) (λ n, lift (push_filter n)) mret n x = (Ok (f src'), x).
Proof.
  intros Hpush Hmap Hsrc. cbn [transform_node].
  erewrite M_bind_Ok by (unfold lift; by rewrite Hpush).
  erewrite M_bind_Ok; [done|]. rewrite Hmap. by erewrite M_bind_Ok by exact Hsrc.
Qed.

Lemma transform_leaf fuel n (x : T) : push_filter n = Ok n →
  (∀ g : Node → M T Node, map_sources g n = mret n) →
  transform_node (S fuel) (λ n, lift (push_filter n)) mret n x = (Ok n, x).
Proof.
  intros Hpush Hmap. cbn [transform_node].
  erewrite M_bind_Ok by (unfold lift; by rewrite Hpush).
  erewrite M_bind_Ok; [done|]. by rewrite Hmap.
Qed.

Lemma execute_delete s t src src' : (∀ x, sees x s → execute src' x = execute src x) →
  ∀ x, sees x s → execute (Delete t src') x = execute (Delete t src) x.
Proof.
  intros He x Hx. cbn [execute].
  destruct (must_read_table_finds t s x Hx) as (r & Hm & _). unfold mbind, M_bind.
  rewrite Hm. destruct r; [|done..]. by rewrite He.
Qed.

(** The rewriting of a plan terminates and keeps what the plan does. *)
Lemma transform_pushable s fuel n : integrity s → pushable s n → names_valid n → depth n ≤ fuel →
  ∃ n', (∀ x : T, transform_node fuel (λ n, lift (push_filter n)) mret n x = (Ok n', x)) ∧
    ∀ x, sees x s → execute n' x = execute n x.
Proof.
  intros Hint. revert n. induction fuel as [|fuel IH]; intros n Hp Hn Hd.
  { exfalso. destruct n; cbn in Hd; lia. }
  assert (∀ (f : Node → Node) src, push_filter n = Ok (f src) →
    (∀ g : Node → M T Node, map_sources g (f src) = (src ← g src; mret (f src))) →
    pushable s src → names_valid src → depth src ≤ fuel →
    (∀ src', (∀ x, sees x s → execute src' x = execute src x) →
       ∀ x, sees x s → execute (f src') x = execute n x) →
    ∃ n', (∀ x : T, transform_node (S fuel) (λ n, lift (push_filter n)) mret n x = (Ok n', x)) ∧
      ∀ x, sees x s → execute n' x = execute n x) as Hone.
  { intros f src Hpush Hmap Hps Hns Hds Hf. destruct (IH src Hps Hns Hds) as (src' & Ht & He).
    exists (f src'). split; [intros x; by eapply push_source|by apply Hf]. }
  destruct n as [src aggs| |t src| |src p| | | | |src k| | |src k|src os|src es|t a f|t src es];
    try done; cbn [depth] in Hd;
    try (eexists; split; [intros x; by apply transform_leaf|done]).
  - apply (Hone (λ n, Aggregation n aggs) src); try done; [lia|].
    intros src' He x Hx. cbn [execute]. unfold mbind, M_bind. by rewrite He.
  - apply (Hone (λ n, Delete t n) src); try done; [lia|]. apply execute_delete.
  - destruct (pushable_filter s src p Hp) as [Hst|[Hpush Hps]].
    + destruct (push_filter_stack s src p Hst) as (src' & Hpush & Hdep & Hst' & Htab & Hpass).
      destruct (stack_table src) as [t|] eqn:Et; [|unfold stacked in Hst; cbn in Hst; by rewrite Et in Hst].
      assert (utf8_valid t = true) as Hu by (by apply (stack_name src t)).
      apply (Hone (λ n, Filter n (Constant (Boolean true))) src'); try done; [..|].
      * by apply stacked_pushable, (stacked_filter s src' _ Hst').
      * by apply (stack_name src' t).
      * lia.
      * intros src'' He x Hx.
        transitivity (execute (Filter src' (Constant (Boolean true))) x).
        { cbn [execute]. unfold mbind, M_bind. by rewrite He. }
        apply (execute_stacks s (Filter src p) _ t); [done..| |done].
        intros row Hrow. by apply (Hpass t).
    + apply (Hone (λ n, Filter n p) src); try done; [lia|].
      intros src' He x Hx. cbn [execute]. unfold mbind, M_bind. by rewrite He.
  - apply (Hone (λ n, Limit n k) src); try done; [lia|].
    intros src' He x Hx. cbn [execute]. unfold mbind, M_bind. by rewrite He.
  - apply (Hone (λ n, Offset n k) src); try done; [lia|].
    intros src' He x Hx. cbn [execute]. unfold mbind, M_bind. by rewrite He.
  - apply (Hone (λ n, Order n os) src); try done; [lia|].
    intros src' He x Hx. cbn [execute]. unfold mbind, M_bind. by rewrite He.
  - apply (Hone (λ n, Projection n es) src); try done; [lia|].
    intros src' He x Hx. cbn [execute]. unfold mbind, M_bind. by rewrite He.
  - apply (Hone (λ n, Update t n es) src); try done; [lia|].
    intros src' He x Hx. cbn [execute]. unfold mbind, M_bind. by rewrite He.
Qed.
End pushdown.
