(* ===== verification/SqlOptClaims.v ===== *)
(** The plan optimizers on plans for one table: filter pushdown and index lookup
    keep the answer. *)
From Stdlib Require Import Strings.Byte NArith ZArith Lia Sorting.Sorted Strings.String.
From stdpp Require Import base list gmap strings.
From S2P Require Import Prelude BTreeMap KeyCode Engine Memory Bincode Mvcc SqlTypes SqlExpression.
From S2P Require Import SqlRewrite SqlClaims SqlSchema SqlKeys SqlKv SqlStore SqlIntegrity.
From S2P Require Import SqlWrites SqlCatalog SqlPlan SqlExec SqlAggregate SqlExecutor SqlJoin.
From S2P Require Import SqlLexer SqlValid SqlStatements SqlSample SqlPushdown.

Open Scope nat_scope.

(** * Conjunctions *)

Section clauses.
Context `{Libm, Regex}.

Lemma and_inv l r row : condition (And l r) row →
  condition l row ∧ condition r row ∧ is_true (And l r) row = is_true l row && is_true r row.
Proof.
  intros (v & Hv & Htv). cbn [evaluate] in Hv.
  apply res_bind_Ok_inv in Hv as (a & Ha & (b & Hb & Hand)%res_bind_Ok_inv).
  assert (condition l row ∧ condition r row) as [Hl Hr].
  { split; eexists; (split; [eassumption|]);
      destruct a as [|[]| | |], b as [|[]| | |]; cbn in Hand; try done;
      first [by left|right; by eexists]. }
  split; [done|]. split; [done|]. by apply and_condition.
Qed.

Lemma clauses_condition clauses conj row : from_cnf_vec clauses = Some conj → condition conj row →
  Forall (λ c, condition c row) clauses ∧ is_true conj row = forallb (λ c, is_true c row) clauses.
Proof.
  destruct clauses as [|c cs]; [done|]. cbn. intros [= <-].
  revert c. induction cs as [|c' cs IH]; intros c Hc; cbn in Hc |- *.
  - split; [by repeat constructor|]. by rewrite andb_true_r.
  - destruct (IH (And c c') Hc) as [Hall Ht].
    apply Forall_cons in Hall as [Hcc Hall]. destruct (and_inv c c' row Hcc) as (H1 & H2 & H12).
    split; [by repeat constructor|]. cbn in Ht. rewrite Ht, H12. by rewrite andb_assoc.
Qed.

Lemma condition_clauses clauses conj row : from_cnf_vec clauses = Some conj →
  Forall (λ c, condition c row) clauses →
  condition conj row ∧ is_true conj row = forallb (λ c, is_true c row) clauses.
Proof.
  destruct clauses as [|c cs]; [done|]. cbn. intros [= <-] [Hc Hcs]%Forall_cons.
  revert c Hc. induction Hcs as [|c' cs Hc' Hcs IH]; intros c Hc; cbn.
  - by rewrite andb_true_r.
  - destruct (and_condition c c' row Hc Hc') as [Ha Ht].
    destruct (IH (And c c') Ha) as [? Ht']. split; [done|]. rewrite Ht', Ht. by rewrite andb_assoc.
Qed.

(** The clauses of a condition. *)
Lemma cnf_condition e row clauses : into_cnf_vec e = Ok clauses → condition e row →
  Forall (λ c, condition c row) clauses ∧ is_true e row = forallb (λ c, is_true c row) clauses.
Proof.
  intros Hcl (v & Hv & Htv). destruct (cnf_vec_Ok e) as (clauses' & conj & Hcl' & Hconj & Hr).
  assert (clauses' = clauses) as -> by congruence.
  assert (evaluate conj (Some row) = Ok v) as Hv' by (by apply Hr).
  destruct (clauses_condition clauses conj row Hconj) as [Hall Ht]; [by exists v|].
  split; [done|]. rewrite <-Ht. unfold is_true. by rewrite Hv, Hv'.
Qed.

(** * Lookups *)

(** A condition that is a lookup of exact values is true on the rows that have
    one of them. *)
Lemma as_lookup_exact d e f vs row : as_lookup e f = Some vs → Forall (exact d) vs →
  field_value (Some row) f = Null ∨ exact d (field_value (Some row) f) →
  is_true e row = true ↔ field_value (Some row) f ∈ vs.
Proof.
  intros Hl Hvs Hf.
  enough (∃ v, evaluate e (Some row) = Ok v ∧ truth_value v ∧
    (v = Boolean true ↔ field_value (Some row) f ∈ vs)) as (v & Hv & Htv & Hiff).
  { unfold is_true. rewrite Hv, <-Hiff. destruct Htv as [->|[[] ->]]; split; congruence. }
  assert (∀ w, exact d w → ∃ v, eval_equal (field_value (Some row) f) w = Ok v ∧ truth_value v ∧
    (v = Boolean true ↔ field_value (Some row) f = w)) as Heq.
  { intros w Hw. destruct Hf as [->|Hf].
    - exists Null. split; [by destruct w|]. split; [by left|]. split; [done|]. by intros <-; destruct Hw.
    - eexists. split; [by apply (eval_equal_exact d)|]. split; [right; by eexists|].
      case_bool_decide; split; congruence. }
  revert vs Hl Hvs. induction e as [| | | |l IHl r IHr|l _ r _| |e _| | | | | | | | | | |]; intros vs; cbn; try done.
  - destruct (as_lookup l f) as [lv|]; [|done]. destruct (as_lookup r f) as [rv|]; [|done].
    intros [= <-] [Hlv Hrv]%Forall_app.
    destruct (IHl lv eq_refl Hlv) as (v & -> & Htv & Hv). destruct (IHr rv eq_refl Hrv) as (w & -> & Htw & Hw).
    assert (field_value (Some row) f ∈ lv ++ rv ↔ v = Boolean true ∨ w = Boolean true) as Hiff
      by (rewrite elem_of_app; tauto).
    cbn. clear -Hiff Htv Htw.
    destruct Htv as [->|[[] ->]], Htw as [->|[[] ->]]; cbn; (eexists; split; [done|]);
      (split; [first [by left|right; by eexists]|rewrite Hiff; naive_solver]).
  - destruct l, r; try done; (destruct (decide _) as [->|]; [|done]); intros [= <-] [Hw _]%Forall_cons;
      cbn [evaluate mbind res_bind]; setoid_rewrite list_elem_of_singleton.
    2:{ by apply Heq. }
    destruct (Heq _ Hw) as (u & Hu & Htu & Hiff). exists u. split; [|done].
    rewrite <-Hu. destruct Hf as [->|Hf]; [by destruct Hw as [? _]; destruct v|].
    rewrite !(eval_equal_exact d) by done. repeat f_equal. by apply bool_decide_ext.
  - destruct e as [|i lb| | | | | | | | | | | | | | | | |]; try done. destruct (decide (i = f)) as [->|]; [|done].
    intros [= <-] [[Hn _] _]%Forall_cons. done.
Qed.
End clauses.

(** * The rewriting *)

(** The clause that is looked up, and the rest. *)
Lemma find_map_Some {A B} (f : A → option B) l b : find_map f l = Some b →
  ∃ i a, l !! i = Some a ∧ f a = Some b.
Proof.
  induction l as [|a l IH]; [done|]. cbn. destruct (f a) as [b'|] eqn:E.
  - intros [= <-]. by exists 0, a.
  - intros Hb. destruct (IH Hb) as (i & a' & ? & ?). by exists (S i), a'.
Qed.

Lemma find_lookup_spec t a columns pk before cnf n :
  find_lookup t a columns pk before cnf = Some n →
  ∃ xs e ys, reverse before ++ cnf = xs ++ e :: ys ∧
    ((∃ keys, as_lookup e (N.of_nat pk) = Some keys ∧ n = wrap_cnf (KeyLookup t a keys) (xs ++ ys)) ∨
     ∃ i c vs, columns !! i = Some c ∧ c_index c = true ∧ as_lookup e (N.of_nat i) = Some vs ∧
       n = wrap_cnf (IndexLookup t a (c_name c) vs) (xs ++ ys)).
Proof.
  revert before. induction cnf as [|e cnf IH]; intros before; [done|]. cbn.
  destruct (as_lookup e (N.of_nat pk)) as [keys|] eqn:Ek.
  { intros [= <-]. exists (reverse before), e, cnf. split; [done|]. left. eauto. }
  destruct (find_map _ _) as [[column vs]|] eqn:Ef.
  - intros [= <-]. exists (reverse before), e, cnf. split; [done|]. right.
    apply find_map_Some in Ef as (i & [j c] & Hi & Hc).
    rewrite list_lookup_imap in Hi. apply fmap_Some in Hi as (c' & Hi & [= -> ->]).
    destruct (c_index c') eqn:Ex; [|done]. apply fmap_Some in Hc as (vs' & Hvs & [= -> ->]).
    by exists i, c', vs'.
  - intros Hf. destruct (IH _ Hf) as (xs & e' & ys & Heq & Hn). exists xs, e', ys. split; [|done].
    rewrite <-Heq, reverse_cons, <-app_assoc. done.
Qed.

Lemma compare_value_refl v : compare_value v v = Eq.
Proof.
  destruct v; cbn; [done|by destruct b|apply Z.compare_refl|apply Z.compare_refl|apply cmp_refl].
Qed.

Section execute.
Context {T : Type} `{KvLaws T}.
Context `{Libm, Regex}.
Context `{BincodeLaws (list Value), BincodeLaws Table}.
Implicit Types (x : T) (s : Store).

Lemma must_read_table_sees x s n t : sees x s → utf8_valid n = true → tables s n = Some t →
  must_read_table n x = (Ok t, x).
Proof.
  intros Hx Hn Ht. unfold must_read_table. erewrite M_bind_Ok by (by apply (read_table_sees x s)).
  by rewrite Ht.
Qed.

Lemma read_keys_sees x s n ks : sees x s → utf8_valid n = true → Forall value_valid ks →
  read_keys n ks x = (Ok (omap (rows s n) ks), x).
Proof.
  intros Hx Hn. induction 1 as [|k ks Hk Hks IH]; [done|]. cbn [read_keys].
  erewrite M_bind_Ok by (by apply (read_sees x s)). erewrite M_bind_Ok by exact IH.
  cbn. by destruct (rows s n k).
Qed.

(** Reading the rows of some keys, against the rows of the table. *)
Lemma read_rows_perm s n l ks : table_rows s n l → NoDup ks →
  omap (rows s n) ks ≡ₚ (List.filter (λ p : Value * Row, bool_decide (p.1 ∈ ks)) l).*2.
Proof.
  intros [Hsort Hl] Hnd.
  assert (omap (rows s n) ks = (omap (λ k, (k,.) <$> rows s n k) ks).*2) as ->.
  { clear. induction ks as [|k ks IH]; [done|]. cbn. destruct (rows s n k); cbn; by rewrite IH. }
  apply fmap_Permutation, NoDup_Permutation.
  - clear -Hnd. induction Hnd as [|k ks Hk _ IH]; [constructor|]. cbn.
    destruct (rows s n k) as [row|]; [|done]. cbn. constructor; [|done].
    intros (k' & Hk' & (r & _ & [= -> _])%fmap_Some)%list_elem_of_omap. done.
  - apply NoDup_ListNoDup, List.NoDup_filter, NoDup_ListNoDup. clear -Hsort.
    induction Hsort as [|p l _ IH Hp]; constructor; [|done]. intros Hin.
    rewrite Forall_forall in Hp. specialize (Hp p Hin). by rewrite compare_value_refl in Hp.
  - intros [k row]. rewrite list_elem_of_omap, elem_of_filter_bool, bool_decide_eq_true. cbn.
    split.
    + intros (k' & Hk & (r & Hr & [= -> ->])%fmap_Some). split; [by apply Hl|done].
    + intros [Hin%Hl Hk]. exists k. split; [done|]. by rewrite Hin.
Qed.

(** Collecting the keys of several index entries. *)
Lemma set_extend_plain vs l : Forall (λ v, plain v ∧ v ≠ Null) vs →
  ∃ l', set_extend vs l = Ok l' ∧ (NoDup l → NoDup l') ∧ ∀ w, w ∈ l' ↔ w ∈ vs ∨ w ∈ l.
Proof.
  intros Hvs. revert l. induction Hvs as [|v vs [Hp Hn] _ IH]; intros l; cbn [set_extend].
  { exists l. split; [done|]. split; [done|]. intros w. set_solver. }
  destruct (set_insert_plain v l Hp Hn) as (l1 & -> & Hnd1 & H1'). cbn.
  destruct (IH l1) as (l2 & -> & Hnd2 & H2'). exists l2. split; [done|]. split; [auto|].
  intros w. rewrite H2', H1', elem_of_cons. tauto.
Qed.

Lemma read_indexes_sees x s n t i col vs pks : sees x s → integrity s → tables s n = Some t →
  t_columns t !! i = Some col → c_index col = true → Forall value_valid vs → NoDup pks →
  ∃ ids, read_indexes n (c_name col) vs pks x = (Ok ids, x) ∧ NoDup ids ∧
    ∀ id, id ∈ ids ↔ id ∈ pks ∨ ∃ row v, rows s n id = Some row ∧ row !! i = Some v ∧ v ∈ vs.
Proof.
  intros Hx Hint Ht Hc Hidx Hvs. pose proof Hint as [Hs Hix]. revert pks.
  induction Hvs as [|v vs Hv Hvs IH]; intros pks Hnd; cbn [read_indexes].
  { exists pks. split; [done|]. split; [done|]. intros id. split; [by left|].
    intros [?|(row & v & _ & _ & ?%not_elem_of_nil)]; done. }
  erewrite M_bind_Ok by (by apply (read_index_sees x s _ t i)).
  destruct (set_extend_plain (index s n (c_name col) v) pks) as (pks' & Hext & Hnd' & Hin').
  { apply Forall_forall. intros id (row & Hrow & _)%(index_rows s n t i col v id); [|done..].
    by destruct (stored_row s n id row Hs Hrow) as (? & _ & _ & _ & _ & ? & ? & _). }
  erewrite M_bind_Ok by (unfold lift; by rewrite Hext).
  destruct (IH pks' (Hnd' Hnd)) as (ids & Hr & Hndi & Hin). exists ids.
  split; [done|]. split; [done|]. intros id. rewrite Hin, Hin', (index_rows s n t i) by done. split.
  - intros [[(row & ? & ?)|?]|(row & v' & ? & ? & ?)]; [right|by left|right].
    + exists row, v. by rewrite elem_of_cons; auto.
    + exists row, v'. by rewrite elem_of_cons; auto.
  - intros [?|(row & v' & ? & ? & [->|?]%elem_of_cons)]; [auto|left; left; eauto|right; eauto].
Qed.

(** ** The rows of a lookup *)

(** The rows with one of the values in a column. *)
Definition in_column (i : nat) (vs : list Value) (row : Row) : bool :=
  bool_decide (field_value (Some row) (N.of_nat i) ∈ vs).

Lemma field_value_at row i v : row !! i = Some v → field_value (Some row) (N.of_nat i) = v.
Proof. intros Hv. unfold field_value. cbn. by rewrite Nat2N.id, Hv. Qed.

Lemma filter_snd {A B} (f : A * B → bool) (g : B → bool) (l : list (A * B)) :
  (∀ p, p ∈ l → f p = g p.2) → (List.filter f l).*2 = List.filter g l.*2.
Proof.
  induction l as [|p l IH]; intros Hf; [done|]. cbn. rewrite (Hf p) by apply list_elem_of_here.
  assert ((List.filter f l).*2 = List.filter g l.*2) as IH' by (apply IH; intros; by apply Hf, list_elem_of_further).
  destruct (g p.2); cbn; by rewrite IH'.
Qed.

Lemma key_lookup_sees x s n t a i keys l : sees x s → integrity s → tables s n = Some t →
  position c_primary_key (t_columns t) = Some i → Forall value_valid keys → NoDup keys →
  table_rows s n l →
  ∃ l', execute (KeyLookup n a keys) x = (Ok (RQuery (table_columns t) (rows_of (Ok <$> l'))), x) ∧
    l' ≡ₚ List.filter (in_column i keys) l.*2.
Proof.
  intros Hx Hint Ht Hi Hv Hnd Hl. pose proof Hint as [Hs _].
  destruct (rel_table s Hs n t Ht) as [<- Hok]. exists (omap (rows s (t_name t)) keys). split.
  - cbn [execute]. unfold exec_key_lookup.
    erewrite M_bind_Ok by (apply (must_read_table_sees x s); [done|by apply ok_name|done]).
    erewrite M_bind_Ok by (apply (read_keys_sees x s); [done|by apply ok_name|done]). done.
  - rewrite (read_rows_perm s (t_name t) l) by done.
    rewrite (filter_snd _ (in_column i keys)); [done|]. intros [id row] Hin. cbn.
    destruct Hl as [_ Hl]. apply Hl in Hin.
    destruct (stored_row s _ id row Hs Hin) as (t' & Ht' & _ & _ & (_ & Hkey & _) & _).
    assert (t' = t) as -> by congruence.
    destruct (row_key_column t row id Hkey) as (j & c & _ & _ & Hj & Hpos).
    assert (j = i) as -> by congruence. unfold in_column. by rewrite (field_value_at row i id).
Qed.

Lemma index_lookup_sees x s n t a i col vs l : sees x s → integrity s → tables s n = Some t →
  t_columns t !! i = Some col → c_index col = true → Forall value_valid vs → table_rows s n l →
  ∃ l', execute (IndexLookup n a (c_name col) vs) x
      = (Ok (RQuery (table_columns t) (rows_of (Ok <$> l'))), x) ∧
    l' ≡ₚ List.filter (in_column i vs) l.*2.
Proof.
  intros Hx Hint Ht Hc Hidx Hv Hl. pose proof Hint as [Hs _].
  destruct (rel_table s Hs n t Ht) as [<- Hok].
  destruct (read_indexes_sees x s (t_name t) t i col vs [] Hx Hint Ht Hc Hidx Hv) as (ids & Hr & Hnd & Hin);
    [constructor|].
  assert (Forall value_valid ids) as Hvi.
  { apply Forall_forall. intros id [?%not_elem_of_nil|(row & v & Hrow & _)]%Hin; [done|].
    by destruct (stored_row s _ id row Hs Hrow) as (? & _ & _ & _ & _ & _ & _ & ?). }
  exists (omap (rows s (t_name t)) ids). split.
  - cbn [execute]. unfold exec_index_lookup.
    erewrite M_bind_Ok by (apply (must_read_table_sees x s); [done|by apply ok_name|done]).
    erewrite M_bind_Ok by exact Hr.
    erewrite M_bind_Ok by (apply (read_keys_sees x s); [done|by apply ok_name|done]). done.
  - rewrite (read_rows_perm s (t_name t) l) by done.
    rewrite (filter_snd _ (in_column i vs)); [done|]. intros [id row] Hp. cbn.
    destruct Hl as [_ Hl]. apply Hl in Hp.
    destruct (stored_row s _ id row Hs Hp) as (t' & Ht' & _ & _ & (Hty & _) & _).
    assert (t' = t) as -> by congruence.
    destruct (row_lookup t row i col Hty Hc) as [v Hval].
    unfold in_column. rewrite (field_value_at row i v Hval). apply bool_decide_ext. rewrite Hin. split.
    + intros [?%not_elem_of_nil|(row' & v' & Hrow' & Hv' & ?)]; [done|]. congruence.
    + intros ?. right. eauto 10.
Qed.

(** A filter for the rest of the clauses. *)
Lemma wrap_sees x n cs l clauses :
  execute n x = (Ok (RQuery cs (rows_of (Ok <$> l))), x) →
  Forall (λ row, Forall (λ c, condition c row) clauses) l →
  execute (wrap_cnf n clauses) x
  = (Ok (RQuery cs (rows_of (Ok <$> List.filter (λ row, forallb (λ c, is_true c row) clauses) l))), x).
Proof.
  intros He Hc. unfold wrap_cnf. destruct (from_cnf_vec clauses) as [p|] eqn:Ep.
  - cbn [execute]. erewrite M_bind_Ok by exact He. unfold lift, exec_filter, query.
    rewrite Forall_forall in Hc. rewrite keep_rows.
    + do 5 f_equal. apply filter_ext, Forall_forall. intros row Hrow.
      by apply (condition_clauses clauses p row Ep), Hc.
    + apply Forall_forall. intros row Hrow. by apply (condition_clauses clauses p row Ep), Hc.
  - destruct clauses; [|done]. by rewrite filter_all_bool.
Qed.

Lemma filter_perm {A} (f : A → bool) l l' : l ≡ₚ l' → List.filter f l ≡ₚ List.filter f l'.
Proof.
  induction 1 as [|a l l' _ IH|a b l|l1 l2 l3 _ IH1 _ IH2]; cbn; [done|..].
  - destruct (f a); [by constructor|done].
  - destruct (f a), (f b); try done. apply perm_swap.
  - by transitivity (List.filter f l2).
Qed.

(** The values of the lookups that a filter on the rows of a table has: for
    each of its conjuncts and each column. *)
Definition lookups (P : SqlSchema.Column → list Value → Prop) (t : Table) (f : Expression) : Prop :=
  ∀ clauses e i c vs, into_cnf_vec f = Ok clauses → e ∈ clauses → t_columns t !! i = Some c →
    as_lookup e (N.of_nat i) = Some vs → P c vs.
(** They have the type of the column. *)
Definition lookups_typed : Table → Expression → Prop :=
  lookups (λ c vs, Forall (λ v, datatype v = Some (c_datatype c) ∧ value_valid v) vs).
(** Those of the primary key are distinct. *)
Definition lookup_keys_distinct : Table → Expression → Prop :=
  lookups (λ c vs, c_primary_key c = true → NoDup vs).

(** The clause of a lookup, on stored rows. *)
Lemma lookup_clause s n t e i c vs id row : integrity s → tables s n = Some t →
  t_columns t !! i = Some c → key_like c → as_lookup e (N.of_nat i) = Some vs →
  Forall (λ v, datatype v = Some (c_datatype c) ∧ value_valid v) vs → rows s n id = Some row →
  is_true e row = in_column i vs row.
Proof.
  intros [Hs _] Ht Hc Hk He Hvs Hrow.
  destruct (stored_row s n id row Hs Hrow) as (t' & Ht' & _ & Hok & (Hty & _) & _).
  assert (t' = t) as -> by congruence.
  assert (c_datatype c ≠ TFloat) as Hnf by (by apply (Forall_lookup_1 _ _ _ _ (ok_types t Hok) Hc)).
  destruct (row_lookup t row i c Hty Hc) as [v Hv].
  pose proof (typed_value c v (typed_column t row i c v Hty Hc Hv)) as Htyp.
  unfold in_column. apply Bool.eq_iff_eq_true. rewrite bool_decide_eq_true.
  apply (as_lookup_exact (c_datatype c)); [done|..].
  - eapply Forall_impl; [exact Hvs|]. intros w [Hw _]. by split.
  - rewrite (field_value_at row i v Hv). destruct (datatype v) as [d|] eqn:Ed.
    + right. split; [by rewrite Ed, Htyp|done].
    + left. by destruct v.
Qed.

Lemma use_index_sees x s n t a f : sees x s → integrity s → tables s n = Some t →
  ∃ i clauses, position c_primary_key (t_columns t) = Some i ∧ into_cnf_vec f = Ok clauses ∧
    use_index (Scan n a (Some f)) x
    = (Ok (default (Scan n a (Some f)) (find_lookup n a (t_columns t) i [] clauses)), x).
Proof.
  intros Hx [Hs _] Ht. destruct (rel_table s Hs n t Ht) as [Hn Hok].
  destruct (cnf_vec_Ok f) as (clauses & conj & Hcl & _).
  destruct (position c_primary_key (t_columns t)) as [i|] eqn:Ei.
  2:{ exfalso. pose proof (ok_key t Hok) as Hone.
      destruct (List.filter c_primary_key (t_columns t)) as [|c l] eqn:Ef; [done|].
      assert (c ∈ List.filter c_primary_key (t_columns t)) as [Hin Hpk]%elem_of_filter_bool
        by (rewrite Ef; apply list_elem_of_here).
      by rewrite (position_None _ _ Ei c Hin) in Hpk. }
  exists i, clauses. split; [done|]. split; [done|]. unfold use_index.
  erewrite M_bind_Ok by (apply (must_read_table_sees x s); [done|rewrite <-Hn; by apply ok_name|done]).
  erewrite M_bind_Ok by (unfold lift; by rewrite Ei).
  by erewrite M_bind_Ok by (unfold lift; by rewrite Hcl).
Qed.

Lemma lookup_exact x s n t a f : sees x s → integrity s → tables s n = Some t →
  (∀ row, stored s n row → condition f row) → lookups_typed t f → lookup_keys_distinct t f →
  ∃ n' l l', use_index (Scan n a (Some f)) x = (Ok n', x) ∧
    execute (Scan n a (Some f)) x = (Ok (RQuery (table_columns t) (rows_of (Ok <$> l))), x) ∧
    execute n' x = (Ok (RQuery (table_columns t) (rows_of (Ok <$> l'))), x) ∧ l' ≡ₚ l.
Proof.
  intros Hx Hint Ht Hf Hlv Hkeys. pose proof Hint as [Hs _]. destruct (rel_table s Hs n t Ht) as [Hn Hok].
  destruct (use_index_sees x s n t a f Hx Hint Ht) as (i & clauses & Hi & Hcl & Huse).
  pose proof (execute_stack s (Scan n a (Some f)) n Hint Hf eq_refl) as He.
  rewrite <-Hn in He. specialize (He (ok_name t Hok) x Hx). rewrite Hn, Ht in He.
  destruct He as (l & Hl & _ & Hexec). cbn [passes] in Hexec.
  destruct (find_lookup n a (t_columns t) i [] clauses) as [n'|] eqn:Efind.
  2:{ eexists _, _, _. split; [exact Huse|]. split; [exact Hexec|]. split; [exact Hexec|done]. }
  cbn [default] in Huse. exists n'.
  apply find_lookup_spec in Efind as (xs & e & ys & Hsplit & Hcase).
  rewrite reverse_nil in Hsplit. cbn in Hsplit.
  assert (∀ row, row ∈ l.*2 → ∃ id, rows s n id = Some row) as Hst.
  { intros row ([id r] & -> & Hin)%list_elem_of_fmap. exists id. by apply Hl. }
  assert (∀ row, row ∈ l.*2 → Forall (λ c, condition c row) (xs ++ ys) ∧
    is_true f row = is_true e row && forallb (λ c, is_true c row) (xs ++ ys)) as Hcond.
  { intros row Hrow. destruct (cnf_condition f row clauses Hcl (Hf row (Hst row Hrow))) as [Hall Htrue].
    rewrite Hsplit in Hall, Htrue. apply Forall_app in Hall as [? [? ?]%Forall_cons].
    split; [by apply Forall_app|]. rewrite Htrue, !forallb_app. cbn.
    by destruct (forallb _ xs), (is_true e row). }
  assert (∀ node j c vs, t_columns t !! j = Some c → key_like c → as_lookup e (N.of_nat j) = Some vs →
    (∃ l', execute node x = (Ok (RQuery (table_columns t) (rows_of (Ok <$> l'))), x) ∧
       l' ≡ₚ List.filter (in_column j vs) l.*2) → n' = wrap_cnf node (xs ++ ys) →
    ∃ l0 l', use_index (Scan n a (Some f)) x = (Ok n', x) ∧
      execute (Scan n a (Some f)) x = (Ok (RQuery (table_columns t) (rows_of (Ok <$> l0))), x) ∧
      execute n' x = (Ok (RQuery (table_columns t) (rows_of (Ok <$> l'))), x) ∧ l' ≡ₚ l0) as Hfinish.
  { intros node j c vs Hc Hk He (l' & Hnode & Hperm) ->.
    assert (Forall (λ v, datatype v = Some (c_datatype c) ∧ value_valid v) vs) as Hvs
      by (eapply (Hlv clauses e j c vs Hcl); [rewrite Hsplit; set_solver|done|done]).
    eexists _, _. split; [exact Huse|]. split; [exact Hexec|]. split.
    - apply (wrap_sees x node); [exact Hnode|]. apply Forall_forall. intros row Hrow.
      rewrite Hperm in Hrow. apply elem_of_filter_bool in Hrow as [Hrow _]. by apply Hcond.
    - rewrite (filter_perm _ _ _ Hperm), filter_filter.
      erewrite (filter_ext (is_true f)); [done|]. apply Forall_forall. intros row Hrow. destruct (Hcond row Hrow) as [_ ->]. destruct (Hst row Hrow) as [id Hid].
      by rewrite (lookup_clause s n t e j c vs id row). }
  destruct Hcase as [(keys & Hk & Hn')|(j & c & vs & Hc & Hidx & Hvs & Hn')].
  - apply position_Some in Hi as Hpos. destruct Hpos as (c & Hc & Hpk & _).
    eapply (Hfinish _ i c keys); [done|by left|done| |done].
    assert (e ∈ clauses) as Hin by (rewrite Hsplit; set_solver).
    pose proof (Hlv clauses e i c keys Hcl Hin Hc Hk) as Hvs. pose proof (Hkeys clauses e i c keys Hcl Hin Hc Hk Hpk) as Hnd.
    apply (key_lookup_sees x s n t); try done. eapply Forall_impl; [exact Hvs|]. by intros w [_ ?].
  - eapply (Hfinish _ j c vs); [done|right; by left|done| |done].
    assert (e ∈ clauses) as Hin by (rewrite Hsplit; set_solver). pose proof (Hlv clauses e j c vs Hcl Hin Hc Hvs) as Hvv.
    apply (index_lookup_sees x s n t); try done. eapply Forall_impl; [exact Hvv|]. by intros w [_ ?].
Qed.
End execute.

Section claims.
Context {T : Type} `{KvLaws T}.
Context `{Libm, Regex}.
Context `{BincodeLaws (list Value), BincodeLaws Table}.
Implicit Types (x : T) (s : Store).

(** C26. On plans for one table (scans, filters, projections, orders, limits,
    offsets and aggregations, whose conditions are boolean on the stored rows)
    filter pushdown succeeds, and the new plan executes to the same result. *)
Theorem filter_pushdown_exact x s n : sees x s → integrity s → pushable s n → names_valid n →
  ∃ n', filter_pushdown n x = (Ok n', x) ∧ execute n' x = execute n x.
Proof.
  intros Hx Hint Hp Hn. destruct (transform_pushable s (depth n) n Hint Hp Hn (le_n _)) as (n' & Ht & He).
  exists n'. split; [apply Ht|by apply He].
Qed.

(** C27. A scan with a boolean condition is replaced by a scan, a primary key
    lookup or an index lookup that yields the same rows up to order, provided
    that the values it looks up have the type of their column and that those it
    looks up in the primary key are distinct (a condition such as id = 1 OR id =
    1 returns the row twice). *)
Theorem index_lookup_exact x s n t alias f : sees x s → integrity s → tables s n = Some t →
  (∀ row, stored s n row → condition f row) → lookups_typed t f → lookup_keys_distinct t f →
  ∃ n' l l', use_index (Scan n alias (Some f)) x = (Ok n', x) ∧
    execute (Scan n alias (Some f)) x = (Ok (RQuery (table_columns t) (rows_of (Ok <$> l))), x) ∧
    execute n' x = (Ok (RQuery (table_columns t) (rows_of (Ok <$> l'))), x) ∧ l' ≡ₚ l.
Proof. apply lookup_exact. Qed.
End claims.

(** * Examples *)

(** title = 'dune' and id >= 1 *)
Definition early_dune : Expression :=
  And (Equal (Field 1 None) (Constant (SqlTypes.String (name "dune"))))
    (Or (GreaterThan (Field 0 None) (Constant (Integer 1)))
        (Equal (Field 0 None) (Constant (Integer 1)))).

Lemma books_row s row : integrity s → tables s (name "books") = Some books →
  stored s (name "books") row → ∃ id title prequel, row = [Integer id; title; prequel] ∧
    (title = Null ∨ ∃ t, title = SqlTypes.String t).
Proof.
  intros [Hs _] Ht [id Hrow]. destruct (stored_row s _ id row Hs Hrow) as (t & Ht' & _ & _ & ((_ & Hty) & _) & _).
  rewrite Ht in Ht'. injection Ht' as <-. unfold books in Hty. cbn [t_columns] in Hty.
  apply Forall2_cons_inv_l in Hty as (v0 & r0 & H0%typed_value & Hty & ->).
  apply Forall2_cons_inv_l in Hty as (v1 & r1 & H1%typed_value & Hty & ->).
  apply Forall2_cons_inv_l in Hty as (v2 & r2 & _ & ->%Forall2_nil_inv_l & ->).
  destruct v0; try done. eexists _, v1, v2. split; [done|].
  destruct v1; try done; [by left|right; by eexists].
Qed.

Lemma early_dune_condition s row : integrity s → tables s (name "books") = Some books →
  stored s (name "books") row → condition early_dune row.
Proof.
  intros Hint Ht (id & title & prequel & -> & Htitle)%(books_row s row Hint Ht).
  unfold condition, early_dune. generalize (name "dune"). intros d. cbn [evaluate].
  change (field_value (Some [Integer id; title; prequel]) 1) with title.
  change (field_value (Some [Integer id; title; prequel]) 0) with (Integer id).
  destruct Htitle as [->|[t ->]]; cbn; destruct (1 <? id)%Z, (id =? 1)%Z; cbn;
    try destruct (bool_decide _); cbn;
    (eexists; split; [reflexivity|]; first [by left|right; by eexists]).
Qed.

Definition early_plan : Node := Projection (Filter (Scan (name "books") None None) early_dune) [(Field 0 None, None)].

Lemma filter_pushdown_exact_witness :
  filter_pushdown early_plan with_messiah
    = (Ok (Projection (Filter (Scan (name "books") None (Some early_dune)) (Constant (Boolean true)))
             [(Field 0 None, None)]), with_messiah) ∧
  ∃ n, filter_pushdown early_plan with_messiah = (Ok n, with_messiah) ∧
    execute n with_messiah = execute early_plan with_messiah.
Proof.
  split; [reflexivity|]. destruct with_messiah_sees as (s & Hx & Hint & Ht & _).
  apply (filter_pushdown_exact with_messiah s early_plan Hx Hint); [|reflexivity].
  intros row Hrow. split; [exact I|]. exact (early_dune_condition s row Hint Ht Hrow).
Defined.

Lemma early_dune_lookups clauses e i c vs : into_cnf_vec early_dune = Ok clauses → e ∈ clauses →
  t_columns books !! i = Some c → as_lookup e (N.of_nat i) = Some vs →
  vs = [SqlTypes.String (name "dune")] ∧ Some (c_datatype c) = Some TString ∧ i = 1%nat.
Proof.
  intros Hcl He Hc Hl.
  assert (into_cnf_vec early_dune = Ok [Equal (Field 1 None) (Constant (SqlTypes.String (name "dune")));
    Or (GreaterThan (Field 0 None) (Constant (Integer 1))) (Equal (Field 0 None) (Constant (Integer 1)))])
    as Hcl' by (vm_compute; reflexivity).
  rewrite Hcl' in Hcl. injection Hcl as <-.
  apply elem_of_cons in He as [->|[->|[]%not_elem_of_nil]%elem_of_cons]; cbn -[name] in Hl; [|discriminate].
  destruct i as [|[|i]]; cbn in Hl, Hc; [discriminate|..].
  - injection Hl as <-. by injection Hc as <-.
  - destruct (decide _) as [E|_] in Hl; [exfalso; lia|discriminate].
Qed.

Lemma index_lookup_exact_witness : ∃ n' l l',
  use_index (Scan (name "books") None (Some early_dune)) with_messiah = (Ok n', with_messiah) ∧
  execute (Scan (name "books") None (Some early_dune)) with_messiah
    = (Ok (RQuery (table_columns books) (rows_of (Ok <$> l))), with_messiah) ∧
  execute n' with_messiah = (Ok (RQuery (table_columns books) (rows_of (Ok <$> l'))), with_messiah) ∧
  l' ≡ₚ l.
Proof.
  destruct with_messiah_sees as (s & Hx & Hint & Ht & _).
  apply (index_lookup_exact with_messiah s (name "books") books None early_dune Hx Hint Ht).
  - intros row Hrow. exact (early_dune_condition s row Hint Ht Hrow).
  - intros clauses e i c vs Hcl He Hc Hl. destruct (early_dune_lookups clauses e i c vs Hcl He Hc Hl) as (-> & Hty & _).
    apply Forall_singleton. split; [symmetry; exact Hty|vm_compute; reflexivity].
  - intros clauses e i c vs Hcl He Hc Hl _. destruct (early_dune_lookups clauses e i c vs Hcl He Hc Hl) as (-> & _).
    apply NoDup_singleton.
Defined.
