(* ===== verification/SqlRaftSpec.v ===== *)
(** The Raft engine against the engine it replicates: a node that applies each
    command at the next index answers every call as the engine over MVCC does.
    The commands also leave a record of the applied index, which no transaction
    sees. *)
From Stdlib Require Import Strings.Byte Strings.String NArith ZArith Lia.
From stdpp Require Import base list gmap strings.
From S2P Require Import Prelude KeyCode Engine Bincode Mvcc MvccDb MvccOps MvccInv MvccSI RaftLog.
From S2P Require Import RaftNode SqlTypes SqlExpression SqlSchema SqlKv SqlLexer SqlSession.
From S2P Require Import SqlMvcc SqlRaft.

Open Scope N_scope.

(** The round trips of the types that cross the channel. *)
Class CodecsLaws `{Codecs} : Prop := {
  laws_mutation :: BincodeLaws Mutation;
  laws_query :: BincodeLaws Query;
  laws_state :: BincodeLaws TransactionState;
  laws_unit :: BincodeLaws unit;
  laws_row :: BincodeLaws (option Row);
  laws_values :: BincodeLaws (list Value);
  laws_rows :: BincodeLaws (list Row);
  laws_entries :: BincodeLaws (list (Value * list Value));
  laws_table :: BincodeLaws Table;
  laws_option_table :: BincodeLaws (option Table);
  laws_tables :: BincodeLaws (list Table);
  laws_status :: BincodeLaws MvccStatus;
  laws_N :: BincodeLaws N;
  laws_set :: BincodeLaws (gset N);
  laws_value :: BincodeLaws (option bytes)
}.

Section calls.
Context {E : Type} `{Engine E, CodecsLaws, Libm, Regex}.
Implicit Types (s : SqlState E) (e : E).

(** A node that applies a write at the next index, in any term, and serves a
    read from its state. *)
Definition next_entry s (t : N) (c : bytes) : Entry :=
  {| RaftLog.index := applied_index s + 1; RaftLog.term := t; RaftLog.command := Some c |}.
Definition local_client (t : N) (node : RaftStatus) : Client (SqlState E) := λ request,
  match request with
  | ReqWrite c => λ s, let '(r, s) := state_apply (next_entry s t c) s in (RespWrite <$> r, s)
  | ReqRead c => λ s, (RespRead <$> state_read c s, s)
  | ReqStatus => mret (RespStatus node)
  end.

(** The outcome of a write: the result, with the index recorded, unless it is an
    internal error. *)
Definition recorded {A} s (out : res A * E) : res A * SqlState E :=
  match out with
  | (Err (EInternal m), e) => (Err (EInternal m), {| kv := e; applied_index := applied_index s |})
  | (Panic w, e) => (Panic w, {| kv := e; applied_index := applied_index s |})
  | (r, e) =>
      match set_metadata applied_key (bin_serialize (applied_index s + 1)) e with
      | (Ok _, e) => (r, {| kv := e; applied_index := applied_index s + 1 |})
      | (Err err, e) => (Err err, {| kv := e; applied_index := applied_index s + 1 |})
      | (Panic w, e) => (Panic w, {| kv := e; applied_index := applied_index s + 1 |})
      end
  end.

Lemma mutate_exact t node {A} `{BincodeLaws A} mutation (k : M E A) s :
  state_mutate mutation (kv s) = (a ← k; mret (bin_serialize a)) (kv s) →
  @client_mutate _ (local_client t node) _ A _ mutation s = recorded s (k (kv s)).
Proof.
  intros Hk.
  assert (state_apply (next_entry s t (bin_serialize mutation)) s
    = recorded s ((a ← k; mret (bin_serialize a)) (kv s))) as Ha.
  { unfold state_apply, next_entry. cbn [RaftLog.index RaftLog.command].
    rewrite decide_True by done. rewrite bin_roundtrip. unfold on_kv. rewrite Hk.
    destruct ((k ≫= λ a, mret (bin_serialize a)) (kv s)) as [[a|[]|w] e]; unfold recorded, record_applied, on_kv, mbind, M_bind; cbn;
      try done; by destruct (set_metadata _ _ e) as [[[]|err|w] e']. }
  unfold client_mutate, client_execute, local_client, mbind at 1, M_bind at 1. rewrite Ha.
  unfold recorded, mbind, M_bind.
  destruct (k (kv s)) as [[a|[]|w] e]; cbn; try done;
    destruct (set_metadata _ _ e) as [[[]|err|w] e']; cbn; try done.
  unfold lift. by rewrite bin_roundtrip.
Qed.

Lemma query_exact t node {A} `{BincodeLaws A} query (k : M E A) s :
  state_query query (kv s) = (a ← k; mret (bin_serialize a)) (kv s) →
  @client_query _ (local_client t node) _ A _ query s = ((k (kv s)).1, s).
Proof.
  intros Hk. unfold client_query, client_execute, local_client, mbind at 1, M_bind at 1.
  unfold state_read. rewrite bin_roundtrip. cbn [mbind res_bind]. rewrite Hk.
  unfold mbind, M_bind. destruct (k (kv s)) as [[a|err|w] e]; cbn; try done.
  unfold lift. by rewrite bin_roundtrip.
Qed.

(** Calls through an open transaction. *)
Lemma with_txn_exact {A} `{Bincode A} st (f : Transaction E → TransactionState → M E A) e :
  kv_resume st e = (Ok st, e) →
  with_txn st f e = (a ← f (sql_txn st) st; mret (bin_serialize a)) e.
Proof. intros Hr. unfold with_txn. by erewrite M_bind_Ok by exact Hr. Qed.

Lemma txn_mutate_exact t node {A} `{BincodeLaws A} st mutation
    (f : Transaction E → TransactionState → M E A) s :
  kv_resume st (kv s) = (Ok st, kv s) → state_mutate mutation = with_txn st f →
  @client_mutate _ (local_client t node) _ A _ mutation s = recorded s (f (sql_txn st) st (kv s)).
Proof. intros Hr Hm. apply mutate_exact; [done|]. rewrite Hm. by apply with_txn_exact. Qed.

Lemma txn_query_exact t node {A} `{BincodeLaws A} st query
    (f : Transaction E → TransactionState → M E A) s :
  kv_resume st (kv s) = (Ok st, kv s) → state_query query = with_txn st f →
  @client_query _ (local_client t node) _ A _ query s = ((f (sql_txn st) st (kv s)).1, s).
Proof. intros Hr Hm. apply query_exact; [done|]. rewrite Hm. by apply with_txn_exact. Qed.

(** The items of a scan, which is collected on the way: the first error is the
    result. *)
Definition collected {A} (r : res (list (res A))) : res (list (res A)) :=
  match r with
  | Ok rows => match collect rows with Ok l => Ok (Ok <$> l) | Err e => Err e | Panic w => Panic w end
  | Err e => Err e
  | Panic w => Panic w
  end.

Lemma collect_fst {A} (m : M E (list (res A))) e :
  match ((rows ← m; lift (collect rows)) e).1 with
  | Ok l => Ok (Ok <$> l)
  | Err e => Err e
  | Panic w => Panic w
  end = collected (m e).1.
Proof. unfold mbind, M_bind. by destruct (m e) as [[l|err|w] e']. Qed.

Lemma map_fst {A B} (m : M (SqlState E) A) (f : A → B) r s : m s = (r, s) →
  (a ← m; mret (f a)) s
  = (match r with Ok a => Ok (f a) | Err e => Err e | Panic w => Panic w end, s).
Proof. intros Hm. unfold mbind, M_bind. rewrite Hm. by destruct r. Qed.
End calls.

(** * The record of the applied index *)

Section metadata.
Context {E : Type} `{EngineLaws E, CodecsLaws, Libm, Regex}.
Context (Hunl : ∀ k v, eng_writable (E:=E) k v).
Implicit Types (e : E).

(** The record is no part of what transactions read. *)
Lemma set_metadata_database n e m key value : database n e m →
  ∃ e', set_metadata key value e = (Ok tt, e') ∧ database n e' m ∧
    get_metadata key e' = (Ok (Some value), e').
Proof.
  intros (d & He & Hr & Hd & Hn & Hreads).
  destruct (set_unversioned_rep e d key value He Hr) as (e' & Hset & He' & Hr'); [apply Hunl|].
  exists e'. split; [exact Hset|]. split.
  - exists (with_unversioned d key value). split; [done|]. split; [done|].
    split; [by apply with_unversioned_inv|]. done.
  - unfold get_metadata. rewrite (get_unversioned_rep e' _ key He' Hr'). cbn. by rewrite lookup_insert_eq.
Qed.

Lemma restart_metadata n m s (index : N) r : database n (kv s) m →
  ∃ s', record_applied index r s = (r, s') ∧ applied_index s' = index ∧ database n (kv s') m ∧
    state_new (kv s') = Ok s'.
Proof.
  intros Hdb. destruct (set_metadata_database n (kv s) m applied_key (bin_serialize index) Hdb)
    as (e' & Hset & Hdb' & Hget).
  exists {| kv := e'; applied_index := index |}. split.
  - unfold record_applied, on_kv, mbind, M_bind. cbn [kv applied_index]. by rewrite Hset.
  - split; [done|]. split; [done|]. unfold state_new, load_applied, mbind at 1, M_bind at 1. cbn [kv].
    rewrite Hget. unfold lift. rewrite bin_roundtrip. done.
Qed.
End metadata.
