(* ===== verification/RaftSingle.v ===== *)
(** A cluster of one node: it leads from the start, and answers every request of
    a client in the step that takes it, with what the state machine returns for
    the log so far. *)
From Stdlib Require Import Strings.Byte Strings.String NArith Lia.
From stdpp Require Import base list gmap strings sorting.
From S2P Require Import Prelude BTreeMap KeyCode Engine KeyStore Bincode RaftLog RaftLogSpec RaftNode.

#[local] Opaque to_be.

(** * State machines *)

(** Results that end the application of entries: the node fails. *)
Definition fails {A} (r : res A) : bool :=
  match r with Panic _ | Err (EInternal _) => true | _ => false end.

(** An entry that was applied is counted as applied. *)
Class StateLaws (St : Type) `{State St} : Prop :=
  apply_counts (e : Entry) (s : St) : fails (apply_entry e s).1 = false →
    get_applied_index (apply_entry e s).2 = index e.

(** Applies entries in order, up to a failure; the result is that of the last. *)
Fixpoint apply_all {St} `{State St} (es : list Entry) (last : res bytes) (s : St) : res (res bytes) * St :=
  match es with
  | [] => (Ok last, s)
  | e :: es =>
      match apply_entry e s with
      | (Panic w, s) => (Panic w, s)
      | (Err (EInternal m), s) => (Err (EInternal m), s)
      | (r, s) => apply_all es r s
      end
  end.

Section machine.
Context {St : Type} `{State St}.

(** The service that a cluster of one node gives: the state machine, the entries
    that are not applied yet, and the index of the last entry. *)
Record Machine := {
  m_state : St;
  m_pending : list Entry;
  m_last : N
}.

(** A request, in term [t]: a write is appended to the log, and all of the log
    is applied; a read sees what is applied. *)
Definition machine_execute (t : N) (request : Request) (m : Machine) : res (res Response) * Machine :=
  match request with
  | ReqWrite c =>
      let e := {| index := m_last m + 1; RaftLog.term := t; command := Some c |} in
      let '(r, s) := apply_all (m_pending m ++ [e]) (Ok []) (m_state m) in
      (fmap (M:=res) (fmap (M:=res) RespWrite) r, {| m_state := s; m_pending := []; m_last := m_last m + 1 |})
  | ReqRead c =>
      (match read_state c (m_state m) with Panic w => Panic w | r => Ok (fmap (M:=res) RespRead r) end, m)
  | ReqStatus => (Panic "not a command", m)
  end.
End machine.
Arguments Machine St : clear implicits.

(** * The node *)

Section single.
Context {E : Type} `{EngineLaws E}.
Context `{BincodeLaws (N * option bytes), BincodeLaws (N * N), BincodeLaws (N * option N)}.
Context {St : Type} `{StateLaws St}.
Context (rand_timeout : nat → N).
Context (unlimited : ∀ k v, eng_writable (E:=E) k v).

Abbreviation Node := (RawNode (E:=E) (S:=St)).
Implicit Types (n : Node) (a : ALog) (l : Leader).

(** The entries after the committed ones. *)
Definition uncommitted a : list Entry :=
  indexed_from (a_commit_index a + 1) (drop (N.to_nat (a_commit_index a)) (a_entries a)).

(** A leader without peers, with nothing left to answer. *)
Record leads n l a : Prop := {
  ld_peers : peers n = ∅;
  ld_log : log_rep (log n) a;
  ld_vote : a_vote a = Some (term n, Some (id n));
  ld_term : term n ≠ 0;
  ld_last : fst <$> last (a_entries a) = Some (term n);
  ld_commit : a_commit_index a ≤ a_length a;
  ld_applied : get_applied_index (state n) = a_commit_index a;
  ld_progress : progress l = ∅;
  ld_writes : l_writes l = ∅;
  ld_reads : reads l = [];
  ld_heartbeat : since_heartbeat l < HEARTBEAT_INTERVAL
}.

(** What it serves. *)
Definition machine_of n a : Machine St := {|
  m_state := state n; m_pending := uncommitted a; m_last := a_length a |}.

Lemma single_quorum n x : peers n = ∅ → node_quorum_value [x] n = (Ok x, n).
Proof.
  intros Hp. unfold node_quorum_value, cluster_size, asks, mbind, M_bind, lift, check. rewrite Hp. done.
Qed.
Lemma single_broadcast m n : peers n = ∅ → broadcast m n = (Ok tt, n).
Proof. intros Hp. unfold broadcast, asks, mbind, M_bind. by rewrite Hp. Qed.

Lemma on_log_Ok {A} (m : M (Log E) A) n r lg : m (log n) = (r, lg) → on_log m n = (r, with_log lg n).
Proof. intros Hm. unfold on_log. by rewrite Hm. Qed.
Lemma with_log_self n : with_log (log n) n = n.
Proof. by destruct n. Qed.

(** The checks at the start of a step. *)
Lemma leads_asserts n l a : leads n l a → leader_assert n = (Ok tt, n).
Proof.
  intros Hl. pose proof (get_term_rep _ _ (ld_log _ _ _ Hl)) as Ht. rewrite (ld_vote _ _ _ Hl) in Ht. cbn in Ht.
  unfold leader_assert, assert_node.
  assert (on_log get_term n = (Ok (term n, Some (id n)), n)) as Hg
    by (erewrite on_log_Ok by exact Ht; by rewrite with_log_self).
  erewrite M_bind_Ok; [|erewrite M_bind_Ok by reflexivity; erewrite M_bind_Ok by exact Hg;
    unfold check; by rewrite bool_decide_true].
  erewrite M_bind_Ok by reflexivity. erewrite M_bind_Ok
    by (unfold check; rewrite bool_decide_true by apply Hl; reflexivity).
  erewrite M_bind_Ok by reflexivity. erewrite M_bind_Ok by exact Hg. unfold check. by rewrite bool_decide_true.
Qed.

(** ** Applying entries *)

(** A failure to apply entries, or what follows. *)
Definition applied {A B} (out : res A * St) n (k : A → Node → res B * Node) : res B * Node :=
  match out with
  | (Ok r, s) => k r (with_state s n)
  | (Err e, s) => (Err e, with_state s n)
  | (Panic w, s) => (Panic w, with_state s n)
  end.

Lemma apply_all_app es es' r (s : St) :
  apply_all (es ++ es') r s = match apply_all es r s with (Ok r, s) => apply_all es' r s | out => out end.
Proof.
  revert r s. induction es as [|e es IH]; intros r s; cbn [app apply_all]; [done|].
  destruct (apply_entry e s) as [[b|[]|w] s']; done || apply IH.
Qed.

Lemma apply_loop_app {A} xs ys (f : N → res bytes → A → M Node A) acc n :
  apply_loop (xs ++ ys) f acc n = (acc ← apply_loop xs f acc; apply_loop ys f acc) n.
Proof.
  revert acc n. induction xs as [|x xs IH]; intros acc n; cbn [app apply_loop]; [done|].
  unfold mbind, M_bind. destruct (lift x n) as [[e| |] n1]; [|done..].
  destruct (apply_entry e (state n1)) as [[b|[]|w] s']; try done;
    (destruct (f (index e) _ acc _) as [[a| |] n2]; [by rewrite IH|done..]).
Qed.

(** Entries that no one waits for. *)
Lemma apply_unawaited es (ws : gmap N Write) n : (∀ e, e ∈ es → ws !! index e = None) →
  apply_loop (List.map Ok es) respond_write ws n
  = applied (apply_all es (Ok []) (state n)) n (λ _ n, (Ok ws, n)).
Proof.
  intros Hws. revert n. induction es as [|e es IH]; intros n; cbn [List.map apply_loop apply_all].
  - by destruct n.
  - unfold mbind at 1, M_bind at 1, lift. unfold mbind at 1, M_bind at 1.
    assert (∀ r s, (acc ← respond_write (index e) r ws; apply_loop (List.map Ok es) respond_write acc) (with_state s n)
      = applied (apply_all es (Ok []) s) n (λ _ n, (Ok ws, n))) as Hk.
    { intros r s. unfold respond_write. rewrite Hws by apply list_elem_of_here.
      unfold mbind at 1, M_bind at 1, mret at 1, M_ret at 1.
      rewrite IH by (intros; apply Hws; by apply list_elem_of_further).
      cbn [state with_state]. by destruct (apply_all es (Ok []) s) as [[]]. }
    assert (∀ r s, applied (B:=gmap N Write) (apply_all es r s) n (λ _ n, (Ok ws, n))
      = applied (apply_all es (Ok []) s) n (λ _ n, (Ok ws, n))) as Hr by (intros r s; by destruct es).
    destruct (apply_entry e (state n)) as [[b|[]|w] s']; try done; by rewrite Hr, Hk.
Qed.

(** The last entry is answered. *)
Lemma apply_answered es e w n : (∀ e', e' ∈ es → index e' ≠ index e) →
  apply_loop (List.map Ok (es ++ [e])) respond_write {[index e := w]} n
  = applied (apply_all (es ++ [e]) (Ok []) (state n)) n (λ r n,
      (Ok ∅, push_tx {| from := id n; to := w_from w; msg_term := term n;
                        message := ClientResponse (w_id w) (fmap (M:=res) RespWrite r) |} n)).
Proof.
  intros Hes. rewrite List.map_app, apply_loop_app, apply_all_app. unfold mbind, M_bind.
  rewrite apply_unawaited by (intros e' He'; rewrite lookup_singleton_ne; [done|by apply not_eq_sym, Hes]).
  destruct (apply_all es (Ok []) (state n)) as [[r| |] s]; [|done..]. cbn [applied List.map apply_loop apply_all].
  unfold mbind at 1, M_bind at 1, lift. unfold mbind at 1, M_bind at 1. cbn [state with_state].
  destruct (apply_entry e s) as [[b|[]|w'] s']; try done;
    unfold respond_write, send, mbind, M_bind, mret, M_ret; rewrite lookup_singleton_eq; cbn; by rewrite delete_singleton_eq.
Qed.

(** ** The log *)

Lemma indexed_from_app i es es' :
  indexed_from i (es ++ es') = indexed_from i es ++ indexed_from (i + N.of_nat (length es)) es'.
Proof.
  unfold indexed_from. rewrite imap_app. f_equal. apply imap_ext. intros j p _. cbn. f_equal. lia.
Qed.
Lemma uncommitted_snoc a p : a_commit_index a ≤ a_length a →
  uncommitted (with_entries a (a_entries a ++ [p])) = uncommitted a ++ [mk_entry (a_length a + 1) p].
Proof.
  unfold uncommitted, a_length. intros Hc. change (a_commit_index (with_entries _ _)) with (a_commit_index a).
  cbn [a_entries with_entries]. rewrite drop_app_le by lia. rewrite indexed_from_app, length_drop.
  f_equal. unfold indexed_from. cbn. do 2 f_equal. lia.
Qed.
Lemma uncommitted_index a e : e ∈ uncommitted a → a_commit_index a < index e ≤ a_length a.
Proof.
  unfold uncommitted, indexed_from, a_length. intros (i & p & -> & Hi%lookup_lt_Some)%elem_of_lookup_imap.
  rewrite length_drop in Hi. cbn. lia.
Qed.

Lemma single_propose n l a c : peers n = ∅ → log_rep (log n) a → a_length a < u64_max →
  ∃ lg, log_rep lg (with_entries a (a_entries a ++ [(term n, c)])) ∧
    propose l c n = (Ok (a_length a + 1), with_log lg n).
Proof.
  intros Hp Hl Hlen. destruct (append_rep (log n) a (term n) c Hl Hlen (unlimited _ _)) as (lg & Ha & Hlg).
  exists lg. split; [done|]. unfold propose. erewrite M_bind_Ok by reflexivity.
  erewrite M_bind_Ok by (apply on_log_Ok; exact Ha). erewrite M_bind_Ok by reflexivity.
  cbn [peers with_log]. by rewrite Hp.
Qed.

(** All of a log is committed. *)
Definition committed a (t : N) : ALog := {|
  a_entries := a_entries a; a_commit := Some (a_length a, t); a_vote := a_vote a |}.

Lemma last_entry a t : fst <$> last (a_entries a) = Some t → ∃ c, entry_at a (a_length a) = Some (mk_entry (a_length a) (t, c)).
Proof.
  rewrite last_lookup. unfold entry_at, payload_at, a_length.
  destruct (a_entries a) as [|p es] eqn:Hes; [done|]. cbn [length pred]. rewrite decide_False by lia.
  replace (N.to_nat (N.of_nat (S (length es))) - 1)%nat with (length es) by lia.
  destruct ((p :: es) !! length es) as [[t' c]|]; cbn; [|done]. intros [= ->]. by exists c.
Qed.

Lemma scan_uncommitted lg a t : log_rep lg (committed a t) → a_commit_index a < a_length a →
  scan (Included (a_commit_index a + 1), Included (a_length a)) lg = (Ok (List.map Ok (uncommitted a)), lg).
Proof.
  intros Hl Hc. pose proof Hl as (_ & _ & Hlen & _). change (a_length (committed a t)) with (a_length a) in Hlen.
  rewrite (scan_rep lg (committed a t)) by (done || split; cbn; lia). unfold spec_scan.
  assert (range_valid N.compare (closed_range (Included (a_commit_index a + 1), Included (a_length a))) = true) as ->.
  { cbn. destruct (N.compare_spec (a_commit_index a + 1) (a_length a)); done || lia. }
  cbn [fmap res_fmap]. do 3 f_equal. rewrite indexed_from_1, filter_indexed by lia. unfold uncommitted.
  cbn [a_entries committed]. f_equal. replace (N.to_nat (a_commit_index a + 1 - 1)) with (N.to_nat (a_commit_index a)) by lia.
  apply take_ge. rewrite length_drop. unfold a_length in *. lia.
Qed.

Lemma apply_committed {A} n a t (f : N → res bytes → A → M Node A) acc : log_rep (log n) (committed a t) →
  a_commit_index a < a_length a → get_applied_index (state n) = a_commit_index a →
  maybe_apply_with f acc n = apply_loop (List.map Ok (uncommitted a)) f acc n.
Proof.
  intros Hl Hc Hs. pose proof Hl as (_ & _ & Hlen & _ & _ & Hci). change (a_length (committed a t)) with (a_length a) in Hlen.
  unfold maybe_apply_with. erewrite M_bind_Ok by reflexivity. rewrite Hs. erewrite M_bind_Ok by reflexivity.
  rewrite Hci. change (default (0, 0) (a_commit (committed a t))).1 with (a_length a).
  erewrite M_bind_Ok by (unfold check; rewrite bool_decide_true by lia; reflexivity).
  rewrite decide_False by lia.
  erewrite M_bind_Ok by (unfold lift, add_u64; rewrite decide_True by lia; reflexivity).
  erewrite M_bind_Ok by (apply on_log_Ok; by apply (scan_uncommitted _ a t)). by rewrite with_log_self.
Qed.

(** A leader without peers commits and applies its log to the end. *)
Lemma single_commit n l a : peers n = ∅ → log_rep (log n) a → fst <$> last (a_entries a) = Some (term n) →
  a_commit_index a < a_length a → get_applied_index (state n) = a_commit_index a → progress l = ∅ →
  ∃ lg, log_rep lg (committed a (term n)) ∧ maybe_commit_and_apply l n
    = (ws ← apply_loop (List.map Ok (uncommitted a)) respond_write (l_writes l);
       mret (a_length a, with_writes l ws)) (with_log lg n).
Proof.
  intros Hp Hl Hlast Hc Hs Hpr. pose proof Hl as (_ & _ & Hlen & Hli & _ & Hci).
  destruct (last_entry a (term n) Hlast) as (c & He).
  destruct (log_commit_rep (log n) a (a_length a) Hl Hlen (λ _, unlimited _ _)) as (lg & Hcommit & Hlg).
  unfold spec_commit in Hcommit, Hlg. rewrite decide_False, He in Hcommit, Hlg by lia. cbn [fst snd] in *.
  exists lg. split; [exact Hlg|]. unfold maybe_commit_and_apply. erewrite M_bind_Ok by reflexivity.
  rewrite Hpr, map_to_list_empty. cbn [List.map app get_last_index fst]. rewrite Hli.
  erewrite M_bind_Ok by (by apply single_quorum). erewrite M_bind_Ok by reflexivity. rewrite Hci.
  rewrite decide_False by (unfold a_commit_index in Hc; lia).
  erewrite M_bind_Ok by (apply on_log_Ok; rewrite (log_get_rep _ a), He by done; reflexivity).
  rewrite with_log_self. erewrite M_bind_Ok by reflexivity. cbn [RaftLog.term mk_entry fst].
  rewrite decide_True by done. erewrite M_bind_Ok by (apply on_log_Ok; exact Hcommit).
  unfold mbind, M_bind. by rewrite (apply_committed (with_log lg n) a (term n)).
Qed.

(** ** Requests *)

Definition client_message n rid request : Envelope := {|
  from := id n; to := id n; msg_term := term n; message := ClientRequest rid request |}.
Definition client_answer n rid (response : res Response) : Envelope := {|
  from := id n; to := id n; msg_term := term n; message := ClientResponse rid response |}.

(** The part of a step before the message is handled. *)
Lemma leads_step n l a rid request : leads n l a →
  node_step rand_timeout (RLeader l) (client_message n rid request) n
  = (l ← leader_handle l (client_message n rid request); mret (RLeader l)) n.
Proof.
  intros Hl. cbn [node_step]. unfold leader_step. erewrite M_bind_Ok by (by eapply leads_asserts).
  erewrite M_bind_Ok; [|unfold assert_step, asks, mbind, M_bind, check, lift; cbn;
    rewrite !bool_decide_true by (done || by left); reflexivity].
  erewrite M_bind_Ok by reflexivity. cbn [client_message msg_term]. by rewrite !decide_False by lia.
Qed.

Lemma with_writes_leads n l a n' : leads n l a → peers n' = ∅ → id n' = id n → term n' = term n →
  ∀ a', log_rep (log n') a' → a_vote a' = a_vote a → fst <$> last (a_entries a') = Some (term n) →
  a_commit_index a' ≤ a_length a' → get_applied_index (state n') = a_commit_index a' →
  leads n' (with_writes l ∅) a'.
Proof. intros [] Hp Hi Ht a' Hl Hv Hlast Hc Hs. split; cbn; congruence. Qed.

Lemma apply_all_counts es e (s s' : St) r : apply_all (es ++ [e]) (Ok []) s = (Ok r, s') →
  get_applied_index s' = index e.
Proof.
  rewrite apply_all_app. destruct (apply_all es (Ok []) s) as [[]]; try done. cbn [apply_all].
  pose proof (apply_counts e s0) as Hc. destruct (apply_entry e s0) as [[b|[]|w] s1]; try done;
    intros [= _ <-]; by apply Hc.
Qed.

(** A write is committed, applied and answered. *)
Lemma handle_write n l a rid c : leads n l a → a_length a < u64_max →
  ∃ lg, log_rep lg (committed (with_entries a (a_entries a ++ [(term n, Some c)])) (term n)) ∧
    leader_handle l (client_message n rid (ReqWrite c)) n
    = applied (apply_all (uncommitted a ++ [mk_entry (a_length a + 1) (term n, Some c)]) (Ok []) (state n))
        (with_log lg n)
        (λ r n, (Ok (with_writes l ∅), push_tx (client_answer n rid (fmap (M:=res) RespWrite r)) n)).
Proof.
  intros Hl Hlen. cbn [leader_handle client_message message from].
  destruct (single_propose n l a (Some c) (ld_peers _ _ _ Hl) (ld_log _ _ _ Hl) Hlen) as (lg & Hlg & Hprop).
  set (a1 := with_entries a (a_entries a ++ [(term n, Some c)])) in *.
  assert (a_length a1 = a_length a + 1) as Hlen1 by (unfold a_length; cbn; rewrite length_app; cbn; lia).
  set (w := {| w_from := id n; w_id := rid |}).
  destruct (single_commit (with_log lg n) (with_writes l {[a_length a + 1 := w]}) a1) as (lg' & Hlg' & Hcommit);
    [apply Hl|done|cbn; by rewrite last_snoc| |apply Hl|apply Hl|].
  { rewrite Hlen1. change (a_commit_index a1) with (a_commit_index a). pose proof (ld_commit _ _ _ Hl). lia. }
  exists lg'. split; [exact Hlg'|]. erewrite M_bind_Ok by exact Hprop.
  erewrite M_bind_Ok by reflexivity. cbn [peers with_log]. rewrite decide_True by apply Hl.
  rewrite (ld_writes _ _ _ Hl), insert_empty. unfold mbind at 1, M_bind at 1. rewrite Hcommit.
  unfold a1. rewrite uncommitted_snoc by apply Hl. unfold mbind at 1, M_bind at 1. cbn [l_writes with_writes].
  change {[a_length a + 1 := w]} with ({[index (mk_entry (a_length a + 1) (term n, Some c)) := w]} : gmap N Write).
  rewrite apply_answered by (intros e He%uncommitted_index; cbn; lia). cbn [state with_log].
  by destruct (apply_all _ (Ok []) (state n)) as [[r|e|w'] s'].
Qed.

(** What a step with a request does: the request is answered as the machine
    answers it, or the node fails as the machine does. *)
Definition served n l a rid request : Prop :=
  let step := node_step rand_timeout (RLeader l) (client_message n rid request) n in
  match machine_execute (term n) request (machine_of n a) with
  | (Ok response, m) => ∃ n' l' a', step = (Ok (RLeader l'), n') ∧ leads n' l' a' ∧ machine_of n' a' = m ∧
      read_seq l' ≤ read_seq l + 1 ∧ id n' = id n ∧ term n' = term n ∧
      node_tx n' = node_tx n ++ [client_answer n rid response]
  | (Err e, _) => ∃ n', step = (Err e, n')
  | (Panic w, _) => ∃ n', step = (Panic w, n')
  end.

Lemma write_served n l a rid c : leads n l a → a_length a < u64_max → served n l a rid (ReqWrite c).
Proof.
  intros Hl Hlen. unfold served. rewrite (leads_step n l a) by done.
  destruct (handle_write n l a rid c Hl Hlen) as (lg & Hlg & Hh). unfold mbind, M_bind. rewrite Hh.
  unfold machine_execute, machine_of. cbn [m_last m_pending m_state].
  change {| index := a_length a + 1; RaftLog.term := term n; command := Some c |}
    with (mk_entry (a_length a + 1) (term n, Some c)).
  set (a1 := with_entries a (a_entries a ++ [(term n, Some c)])) in *.
  assert (a_length (committed a1 (term n)) = a_length a + 1) as Hlen1
    by (unfold a_length; cbn; rewrite length_app; cbn; lia).
  assert (a_commit_index (committed a1 (term n)) = a_length a + 1) as Hci by (rewrite <-Hlen1; done).
  destruct (apply_all _ (Ok []) (state n)) as [[r|e|w'] s'] eqn:Ha; cbn [fmap res_fmap applied]; [|by eexists..].
  eexists _, _, (committed a1 (term n)). split; [done|]. split.
  { eapply (with_writes_leads n l a); cbn [peers id term state log push_tx with_state with_log]; try done.
    - apply Hl.
    - cbn. by rewrite last_snoc.
    - rewrite Hci. by apply (apply_all_counts _ _ _ _ _ Ha). }
  split; [|by cbn; split; [lia|]]. f_equal; [|by rewrite Hlen1]. unfold uncommitted. rewrite Hci.
  rewrite drop_ge; [done|]. cbn. rewrite length_app. unfold a_length. cbn. lia.
Qed.

Lemma single_heartbeat n l : peers n = ∅ → heartbeat l n = (Ok tt, n).
Proof. intros Hp. unfold heartbeat. erewrite M_bind_Ok by reflexivity. by apply single_broadcast. Qed.

(** A read is answered at once: without peers, the leader is its own quorum. *)
Definition with_read_seq l (rs : N) : Leader := {|
  progress := progress l; l_writes := l_writes l; reads := []; read_seq := rs; since_heartbeat := since_heartbeat l |}.
Lemma handle_read n l a rid c : leads n l a → read_seq l < u64_max →
  leader_handle l (client_message n rid (ReqRead c)) n
  = match read_state c (state n) with
    | Panic w => (Panic w, n)
    | r => (Ok (with_read_seq l (read_seq l + 1)), push_tx (client_answer n rid (fmap (M:=res) RespRead r)) n)
    end.
Proof.
  intros Hl Hseq. cbn [leader_handle client_message message from].
  erewrite M_bind_Ok by (unfold lift, add_u64; rewrite decide_True by lia; reflexivity).
  erewrite M_bind_Ok by reflexivity. rewrite decide_True by apply Hl.
  rewrite (ld_reads _ _ _ Hl). cbn [app]. unfold maybe_read at 1. cbn [reads progress read_seq].
  rewrite (ld_progress _ _ _ Hl), map_to_list_empty. cbn [List.map app].
  unfold mbind at 1, M_bind at 1. erewrite M_bind_Ok by (apply single_quorum, Hl).
  cbn [read_loop seq]. rewrite decide_False by lia. cbn [r_command r_from r_id].
  assert (∀ r l', (_ ← heartbeat l'; mret l') (push_tx (client_answer n rid r) n)
    = (Ok l', push_tx (client_answer n rid r) n)) as Hb
    by (intros r l'; erewrite M_bind_Ok by (apply single_heartbeat, Hl); done).
  unfold mbind at 1, M_bind at 1, mbind at 1, M_bind at 1.
  destruct (read_state c (state n)) as [b|e|w]; [| |done];
    (etransitivity; [apply (Hb _ (with_reads _ []))|]); unfold with_read_seq; by rewrite (ld_progress _ _ _ Hl).
Qed.

Lemma read_served n l a rid c : leads n l a → read_seq l < u64_max → served n l a rid (ReqRead c).
Proof.
  intros Hl Hseq. unfold served. rewrite (leads_step n l a) by done.
  unfold mbind, M_bind. rewrite (handle_read n l a) by done. unfold machine_execute, machine_of. cbn [m_state].
  destruct (read_state c (state n)) as [b|e|w]; [..|by eexists];
    eexists _, _, a; (split; [done|]); (split; [by destruct Hl; split|]); cbn; by split_and!; [|lia|..].
Qed.

(** ** Ticks and the start *)

Lemma tick_leads n l a : leads n l a → ∃ l',
  node_tick rand_timeout (RLeader l) n = (Ok (RLeader l'), n) ∧ leads n l' a ∧ read_seq l' = read_seq l.
Proof.
  intros Hl. cbn [node_tick]. unfold leader_tick. erewrite M_bind_Ok by (by eapply leads_asserts).
  pose proof (ld_heartbeat _ _ _ Hl) as Hh. unfold HEARTBEAT_INTERVAL in *.
  erewrite M_bind_Ok by (unfold lift, add_u8, u8_max; rewrite decide_True by lia; reflexivity).
  case_decide.
  - erewrite M_bind_Ok by (apply single_heartbeat, Hl). eexists. split; [done|]. destruct Hl. by split.
  - eexists. split; [done|]. destruct Hl. by split_and!; [split; cbn; unfold HEARTBEAT_INTERVAL in *; try done; lia|].
Qed.

Lemma nothing_to_apply n a : log_rep (log n) a → get_applied_index (state n) = a_commit_index a →
  maybe_apply n = (Ok tt, n).
Proof.
  intros (_ & _ & _ & _ & _ & Hci) Hs. unfold maybe_apply, maybe_apply_with.
  erewrite M_bind_Ok by reflexivity. rewrite Hs. erewrite M_bind_Ok by reflexivity. rewrite Hci.
  change (default (0, 0) (a_commit a)).1 with (a_commit_index a).
  erewrite M_bind_Ok by (unfold check; by rewrite bool_decide_true). by rewrite decide_True.
Qed.

Lemma single_leads n a : peers n = ∅ → log_rep (log n) a → a_length a < u64_max → a_commit_index a ≤ a_length a →
  get_applied_index (state n) = a_commit_index a → a_vote a = Some (term n, Some (id n)) → term n ≠ 0 →
  ∃ l lg a', into_leader n = (Ok l, with_log lg n) ∧ leads (with_log lg n) l a' ∧ read_seq l = 0 ∧
    machine_of (with_log lg n) a' = {| m_state := state n; m_last := a_length a + 1;
      m_pending := uncommitted a ++ [mk_entry (a_length a + 1) (term n, None)] |}.
Proof.
  intros Hp Hl Hlen Hc Hs Hv Ht. set (l := {| progress := ∅; l_writes := ∅; reads := []; read_seq := 0; since_heartbeat := 0 |}).
  destruct (single_propose n l a None Hp Hl Hlen) as (lg & Hlg & Hprop).
  pose proof Hl as (_ & _ & _ & Hli & _). exists l, lg, (with_entries a (a_entries a ++ [(term n, None)])). split; [|split; [|split]].
  - unfold into_leader. erewrite M_bind_Ok by reflexivity. erewrite M_bind_Ok by reflexivity. rewrite Hp.
    erewrite M_bind_Ok; [|unfold leader_new, mbind, M_bind, lift; cbn [get_last_index fst]; rewrite Hli; unfold add_u64;
      rewrite decide_True by lia; reflexivity].
    erewrite M_bind_Ok by (by apply single_heartbeat). erewrite M_bind_Ok by exact Hprop. reflexivity.
  - split; try done; cbn [peers term log state id with_log].
    + cbn. by rewrite last_snoc.
    + change (a_commit_index (with_entries a _)) with (a_commit_index a). unfold a_length in *. cbn. rewrite length_app. lia.
  - done.
  - unfold machine_of. rewrite uncommitted_snoc by done. f_equal. unfold a_length. cbn. rewrite length_app. cbn. lia.
Qed.

(** A campaign without peers ends with a vote for oneself. *)
Lemma single_campaign n a : peers n = ∅ → log_rep (log n) a → term n < u64_max →
  ∃ c n' lg, campaign rand_timeout n = (Ok c, n') ∧
    log_rep lg {| a_entries := a_entries a; a_commit := a_commit a; a_vote := Some (term n + 1, Some (id n)) |} ∧
    id n' = id n ∧ peers n' = ∅ ∧ term n' = term n + 1 ∧ log n' = lg ∧ state n' = state n ∧ node_tx n' = node_tx n.
Proof.
  intros Hp Hl Ht. destruct (set_term_rep (log n) a (term n + 1) (Some (id n)) Hl (unlimited _ _)) as (lg & Hset & Hlg).
  eexists _, _, lg. split; [|split; [exact Hlg|]].
  - unfold campaign. erewrite M_bind_Ok by reflexivity.
    erewrite M_bind_Ok by (unfold lift, add_u64; rewrite decide_True by lia; reflexivity).
    erewrite M_bind_Ok by reflexivity. erewrite M_bind_Ok by reflexivity. erewrite M_bind_Ok by reflexivity.
    erewrite M_bind_Ok by (apply on_log_Ok; exact Hset). erewrite M_bind_Ok by reflexivity. cbn [get_last_index].
    erewrite M_bind_Ok by (apply single_broadcast; exact Hp). reflexivity.
  - done.
Qed.

Lemma single_starts i (lg : Log E) a (st : St) drawn : log_rep lg a → a_commit_index a ≤ a_length a →
  a_length a < u64_max → (default (0, None) (a_vote a)).1 < u64_max → get_applied_index st = a_commit_index a →
  ∃ n l a', node_new rand_timeout (raw_node i ∅ lg st drawn) = (Ok (RLeader l), n) ∧ leads n l a' ∧
    node_tx n = [] ∧ id n = i ∧ term n = (default (0, None) (a_vote a)).1 + 1 ∧ read_seq l = 0 ∧
    machine_of n a' = {| m_state := st; m_last := a_length a + 1;
      m_pending := uncommitted a ++ [mk_entry (a_length a + 1) ((default (0, None) (a_vote a)).1 + 1, None)] |}.
Proof.
  intros Hl Hc Hlen Hterm Hs. unfold node_new.
  erewrite M_bind_Ok by (apply on_log_Ok; by apply (get_term_rep lg a)).
  destruct (default (0, None) (a_vote a)) as [t v]. cbn [fst] in Hterm |- *.
  erewrite M_bind_Ok by reflexivity. erewrite M_bind_Ok by reflexivity. erewrite M_bind_Ok by reflexivity.
  rewrite decide_True by done.
  unfold mbind at 1, M_bind at 1, into_candidate, abort_forwarded.
  erewrite M_bind_Ok; [|erewrite M_bind_Ok by reflexivity; cbn [forwarded]; rewrite elements_empty; reflexivity].
  erewrite M_bind_Ok by (apply (nothing_to_apply _ a); done). erewrite M_bind_Ok by reflexivity.
  match goal with |- context [campaign rand_timeout ?n] => set (n1 := n) end.
  destruct (single_campaign n1 a) as (c & n2 & lg2 & -> & Hlg2 & Hi & Hp & Ht & Hlog & Hst & Htx); [done..|].
  subst lg2. destruct (single_leads n2 _ Hp Hlg2) as (l & lg3 & a3 & Hlead & Hleads & Hrs & Hm);
    [done|done|by rewrite Hst|cbn; by rewrite Ht, Hi|lia|].
  exists (with_log lg3 n2), l, a3. erewrite M_bind_Ok by exact Hlead. split_and!; [done..|].
  rewrite Hm, Hst, Ht. done.
Qed.
End single.
