(* ===== verification/Server.v ===== *)
(** The server (src/src/server.rs): requests and responses of the SQL protocol,
    a session with a client, and the routing of messages between the local Raft
    node, its peers and the sessions. *)
From Stdlib Require Import Strings.Byte Strings.String NArith ZArith Lia.
From stdpp Require Import base list gmap strings.
From S2P Require Import Prelude BTreeMap KeyCode Engine Bincode Mvcc RaftLog RaftNode SqlTypes.
From S2P Require Import SqlExpression SqlSchema SqlKv SqlPlan SqlExec SqlLexer SqlSession SqlRaft.

Open Scope N_scope.

(** * The SQL protocol *)

(** [server::Request]. *)
Inductive SqlRequest :=
| ReqExecute (query : bytes)
| ReqGetTable (table : bytes)
| ReqListTables
| ReqServerStatus.

(** [server::Status]. *)
Record ServerStatus := {
  server : N;
  raft : RaftStatus;
  mvcc : MvccStatus
}.

(** [server::Response]. *)
Inductive SqlResponse :=
| AnsExecute (result : ResultSet)
| AnsRow (row : option Row)
| AnsGetTable (table : Table)
| AnsListTables (tables : list bytes)
| AnsStatus (status : ServerStatus).

Definition no_rows : Rows := rows_of [].

(** The rows of a result set are not serialized with it. *)
Definition without_rows (r : SqlResponse) : SqlResponse :=
  match r with AnsExecute (RQuery columns _) => AnsExecute (RQuery columns no_rows) | r => r end.

Section session.
Context {S H : Type} `{SqlEngine S H} `{Libm, Regex, Unicode}.
Context `{Stream SqlRequest, Stream (res SqlResponse)}.
(** [Raft::status]. *)
Context (engine_status : M S (RaftStatus * MvccStatus)).

(** The [match] on a request in [Server::sql_session]. *)
Definition handle (id : N) (request : SqlRequest) : M (Session S H) SqlResponse :=
  match request with
  | ReqExecute query => rs ← session_execute query; mret (AnsExecute rs)
  | ReqGetTable table =>
      t ← with_txn_read_only (λ h, let _ := sql_txn h in must_read_table table);
      mret (AnsGetTable t)
  | ReqListTables =>
      l ← with_txn_read_only (λ h, let _ := sql_txn h in ts ← tx_scan_tables; mret (t_name <$> ts));
      mret (AnsListTables l)
  | ReqServerStatus =>
      '(raft, mvcc) ← on_engine engine_status;
      mret (AnsStatus {| server := id; raft := raft; mvcc := mvcc |})
  end.

(** What follows the response of a query: its rows up to an error, which is the
    last, or up to [Row(None)]. *)
Fixpoint row_responses (l : list (res Row)) (at_end : res SqlResponse) : list (res SqlResponse) :=
  match l with
  | [] => [at_end]
  | Ok row :: l => Ok (AnsRow (Some row)) :: row_responses l at_end
  | Err e :: _ => [Err e]
  | Panic w :: _ => [Panic w]
  end.
Definition responses (response : res SqlResponse) : list (res SqlResponse) :=
  match response with
  | Ok (AnsExecute (RQuery columns rows)) =>
      Ok (without_rows (AnsExecute (RQuery columns rows)))
      :: row_responses (items rows)
           match forever rows with Some e => Err e | None => Ok (AnsRow None) end
  | r => [r]
  end.

(** What a session reads and writes. *)
Record Peer := {
  peer_session : Session S H;
  peer_reader : list byte;
  peer_writer : list byte
}.

(** [bincode::serialize_into(&mut writer, ..)] for each of the responses. *)
Fixpoint write_responses (l : list (res SqlResponse)) : M (list byte) unit :=
  match l with
  | [] => mret tt
  | Panic w :: _ => lift (Panic w)
  | r :: l => _ ← serialize_into r; write_responses l
  end.

(** [Server::sql_session]: the session ends when the client closes its end, and
    an open transaction is rolled back then. *)
Definition serve_one (id : N) (request : SqlRequest) : M Peer unit := λ p,
  let '(response, s) := handle id request (peer_session p) in
  let '(r, w) := write_responses (responses response) (peer_writer p) in
  (r, {| peer_session := s; peer_reader := peer_reader p; peer_writer := w |}).
Definition read_request : M Peer (option SqlRequest) := λ p,
  let '(r, rest) := maybe_deserialize_from (peer_reader p) in
  (r, {| peer_session := peer_session p; peer_reader := rest; peer_writer := peer_writer p |}).
Fixpoint serve (fuel : nat) (id : N) : M Peer unit :=
  match fuel with
  | O => lift (Panic "serve: out of fuel")
  | Datatypes.S fuel =>
      request ← read_request;
      match request with
      | Some request => _ ← serve_one id request; serve fuel id
      | None => mret tt
      end
  end.
Definition sql_session (id : N) : M Peer unit := λ p,
  let '(r, p) := serve (Datatypes.S (length (peer_reader p))) id p in
  (r, {| peer_session := session_drop (peer_session p); peer_reader := peer_reader p;
         peer_writer := peer_writer p |}).
End session.
Arguments Peer S H : clear implicits.

(** * Routing *)

Definition RAFT_PEER_CHANNEL_CAPACITY : nat := 1000.

Section route.
Context {E : Type} `{Engine E}.
Context `{Bincode (N * option bytes), Bincode (N * N), Bincode (N * option N)}.
Context {St : Type} `{State St}.
Context (rand_timeout : nat → N).

(** The state of [Server::raft_route].  Messages of the node wait in its
    [node_tx], those for a peer in the peer's channel; a response channel is a
    number, and the responses sent on channels are recorded in order, with the
    request they belong to. *)
Record Router := {
  node : RawNode (E:=E) (S:=St);
  node_role : Role;
  response_txs : gmap bytes N;
  peers_tx : gmap N (list Envelope);
  sent : list (bytes * N * res Response)
}.

Definition with_node (n : RawNode (E:=E) (S:=St)) (role : Role) (r : Router) : Router := {|
  node := n; node_role := role; response_txs := response_txs r; peers_tx := peers_tx r; sent := sent r |}.
Definition with_response_txs (txs : gmap bytes N) (r : Router) : Router := {|
  node := node r; node_role := node_role r; response_txs := txs; peers_tx := peers_tx r; sent := sent r |}.
Definition with_peers_tx (txs : gmap N (list Envelope)) (r : Router) : Router := {|
  node := node r; node_role := node_role r; response_txs := response_txs r; peers_tx := txs; sent := sent r |}.
Definition with_sent (l : list (bytes * N * res Response)) (r : Router) : Router := {|
  node := node r; node_role := node_role r; response_txs := response_txs r; peers_tx := peers_tx r; sent := l |}.

(** [node.step(msg).expect("step failed")] and the same for a tick. *)
Definition expect_node (m : M (RawNode (E:=E) (S:=St)) Role) (why : string) : M Router unit := λ r,
  match m (node r) with
  | (Ok role, n) => (Ok tt, with_node n role r)
  | (Err _, n) => (Panic why, with_node n (node_role r) r)
  | (Panic w, n) => (Panic w, with_node n (node_role r) r)
  end.

(** What the loop of [raft_route] selects, and what the thread of a peer takes
    from the peer's channel.  The id of a request is a random UUID. *)
Inductive Event :=
| EvTick
| EvPeer (msg : Envelope)
| EvNode
| EvRequest (id : bytes) (request : Request) (response_tx : N)
| EvPeerSend (peer : N).

Definition take_tx (n : RawNode (E:=E) (S:=St)) (rest : list Envelope) : RawNode (E:=E) (S:=St) := {|
  id := id n; peers := peers n; term := term n; log := log n; state := state n;
  node_tx := rest; draws := draws n |}.

(** [peer_tx.try_send(msg)]: a message for a full channel is dropped. *)
Definition to_peer (msg : Envelope) : M Router unit := λ r,
  match peers_tx r !! to msg with
  | None => (Panic "unknown peer", r)
  | Some queue =>
      if decide (length queue < RAFT_PEER_CHANNEL_CAPACITY)%nat
      then (Ok tt, with_peers_tx (<[to msg := queue ++ [msg]]> (peers_tx r)) r)
      else (Ok tt, r)
  end.
(** A response to a request that no one waits for is dropped. *)
Definition to_client (id : bytes) (response : res Response) : M Router unit := λ r,
  match response_txs r !! id with
  | Some tx => (Ok tt, with_sent (sent r ++ [(id, tx, response)])
                         (with_response_txs (base.delete id (response_txs r)) r))
  | None => (Ok tt, r)
  end.
Definition route_out (msg : Envelope) : M Router unit := λ r,
  match message msg with
  | ClientResponse rid response =>
      if decide (to msg = id (node r)) then to_client rid response r else to_peer msg r
  | _ => to_peer msg r
  end.

Definition await (rid : bytes) (tx : N) : M Router unit := λ r,
  (Ok tt, with_response_txs (<[rid := tx]> (response_txs r)) r).

(** An iteration of [raft_route]. *)
Definition route (e : Event) : M Router unit := λ r,
  match e with
  | EvTick => expect_node (node_tick rand_timeout (node_role r)) "tick failed" r
  | EvPeer msg => expect_node (node_step rand_timeout (node_role r) msg) "step failed" r
  | EvNode =>
      match node_tx (node r) with
      | [] => (Ok tt, r)
      | msg :: rest => route_out msg (with_node (take_tx (node r) rest) (node_role r) r)
      end
  | EvRequest rid request tx =>
      let n := node r in
      let msg := {| from := id n; to := id n; msg_term := term n; message := ClientRequest rid request |} in
      (_ ← expect_node (node_step rand_timeout (node_role r) msg) "step failed"; await rid tx) r
  | EvPeerSend peer => (Ok tt, with_peers_tx (alter tail peer (peers_tx r)) r)
  end.

(** [Server::new] and the start of [Server::serve]: a channel for each peer. *)
Definition server_new (i : N) (ps : gset N) (l : Log E) (s : St) (drawn : nat) : res Router :=
  match node_new rand_timeout (raw_node i ps l s drawn) with
  | (Ok role, n) => Ok {| node := n; node_role := role; response_txs := ∅;
                          peers_tx := set_to_map (λ p, (p, [])) ps; sent := [] |}
  | (Err e, _) => Err e
  | (Panic w, _) => Panic w
  end.

(** Iterations, up to a panic. *)
Fixpoint route_all (es : list Event) : M Router unit :=
  match es with
  | [] => mret tt
  | e :: es => _ ← route e; route_all es
  end.
End route.

(** [Server::raft_receive_peer]: the messages of a peer, in order, up to the end
    of the connection. *)
Section receive.
Context `{Stream Envelope}.
Fixpoint receive_peer (fuel : nat) (reader : list byte) (queue : list Envelope) : res unit * list Envelope :=
  match fuel with
  | O => (Panic "receive: out of fuel", queue)
  | Datatypes.S fuel =>
      match maybe_deserialize_from reader with
      | (Ok (Some msg), reader) => receive_peer fuel reader (queue ++ [msg])
      | (Ok None, _) => (Ok tt, queue)
      | (Err e, _) => (Err e, queue)
      | (Panic w, _) => (Panic w, queue)
      end
  end.
Definition raft_receive_peer (reader : list byte) : res unit * list Envelope :=
  receive_peer (Datatypes.S (length reader)) reader [].
(** The loop of [Server::raft_send_peer] on one connection. *)
Definition raft_send_peer (queue : list Envelope) : list byte := queue ≫= stream_put.
End receive.
