(* ===== verification/SqlCodecs.v ===== *)
(** Encodings for the examples: the types that cross the channel to Raft and the
    connection to a client are countable.  With a state machine to start from. *)
From Stdlib Require Import Strings.Byte Strings.String NArith ZArith Lia Floats.SpecFloat.
From stdpp Require Import base list gmap countable strings.
From S2P Require Import Prelude BTreeMap KeyCode Engine Memory Bincode Mvcc RaftLog RaftNode SqlTypes.
From S2P Require Import SqlExpression SqlSchema SqlKv SqlPlan SqlExec SqlLexer SqlSession SqlRaft SqlRaftSpec.
From S2P Require Import Server SqlSample.

Open Scope N_scope.

(** * Commands to Raft *)

#[export] Instance state_eq_dec : EqDecision TransactionState.
Proof. solve_decision. Defined.
#[export] Instance state_countable : Countable TransactionState.
Proof.
  refine (inj_countable' (λ st, (version st, read_only st, active st))
    (λ '(v, r, a), {| version := v; read_only := r; active := a |}) _).
  by intros [].
Defined.

(** Expressions as trees. *)
Fixpoint tree_of (e : Expression) : gen_tree (Value + N * Label) :=
  match e with
  | Constant v => GenLeaf (inl v)
  | Field i l => GenLeaf (inr (i, l))
  | And l r => GenNode 0 [tree_of l; tree_of r]
  | Not e => GenNode 1 [tree_of e]
  | Or l r => GenNode 2 [tree_of l; tree_of r]
  | Equal l r => GenNode 3 [tree_of l; tree_of r]
  | GreaterThan l r => GenNode 4 [tree_of l; tree_of r]
  | IsNull e => GenNode 5 [tree_of e]
  | LessThan l r => GenNode 6 [tree_of l; tree_of r]
  | Add l r => GenNode 7 [tree_of l; tree_of r]
  | Assert e => GenNode 8 [tree_of e]
  | Divide l r => GenNode 9 [tree_of l; tree_of r]
  | Exponentiate l r => GenNode 10 [tree_of l; tree_of r]
  | Factorial e => GenNode 11 [tree_of e]
  | Modulo l r => GenNode 12 [tree_of l; tree_of r]
  | Multiply l r => GenNode 13 [tree_of l; tree_of r]
  | Negate e => GenNode 14 [tree_of e]
  | Subtract l r => GenNode 15 [tree_of l; tree_of r]
  | Like l r => GenNode 16 [tree_of l; tree_of r]
  end.
Fixpoint of_tree (t : gen_tree (Value + N * Label)) : Expression :=
  match t with
  | GenLeaf (inl v) => Constant v
  | GenLeaf (inr (i, l)) => Field i l
  | GenNode 0 [l; r] => And (of_tree l) (of_tree r)
  | GenNode 1 [e] => Not (of_tree e)
  | GenNode 2 [l; r] => Or (of_tree l) (of_tree r)
  | GenNode 3 [l; r] => Equal (of_tree l) (of_tree r)
  | GenNode 4 [l; r] => GreaterThan (of_tree l) (of_tree r)
  | GenNode 5 [e] => IsNull (of_tree e)
  | GenNode 6 [l; r] => LessThan (of_tree l) (of_tree r)
  | GenNode 7 [l; r] => Add (of_tree l) (of_tree r)
  | GenNode 8 [e] => Assert (of_tree e)
  | GenNode 9 [l; r] => Divide (of_tree l) (of_tree r)
  | GenNode 10 [l; r] => Exponentiate (of_tree l) (of_tree r)
  | GenNode 11 [e] => Factorial (of_tree e)
  | GenNode 12 [l; r] => Modulo (of_tree l) (of_tree r)
  | GenNode 13 [l; r] => Multiply (of_tree l) (of_tree r)
  | GenNode 14 [e] => Negate (of_tree e)
  | GenNode 15 [l; r] => Subtract (of_tree l) (of_tree r)
  | GenNode 16 [l; r] => Like (of_tree l) (of_tree r)
  | _ => Constant Null
  end.

#[export] Instance expression_countable : Countable Expression.
Proof.
  refine (inj_countable' tree_of of_tree _). intros e. induction e; cbn; congruence.
Defined.

#[export] Instance mutation_eq_dec : EqDecision Mutation.
Proof. solve_decision. Defined.
#[export] Instance mutation_countable : Countable Mutation.
Proof.
  refine (inj_countable'
    (λ m, match m with
          | MBegin => (0, None, [], Null, [], None)
          | MCommit st => (1, Some st, [], Null, [], None)
          | MRollback st => (2, Some st, [], Null, [], None)
          | MCreate st t row => (3, Some st, t, Null, row, None)
          | MDelete st t id => (4, Some st, t, id, [], None)
          | MUpdate st t id row => (5, Some st, t, id, row, None)
          | MCreateTable st t => (6, Some st, [], Null, [], Some t)
          | MDeleteTable st t => (7, Some st, t, Null, [], None)
          end : N * option TransactionState * bytes * Value * Row * option Table)
    (λ '(k, st, t, id, row, tb),
       match k, st, tb with
       | 1, Some st, _ => MCommit st
       | 2, Some st, _ => MRollback st
       | 3, Some st, _ => MCreate st t row
       | 4, Some st, _ => MDelete st t id
       | 5, Some st, _ => MUpdate st t id row
       | 6, Some st, Some tb => MCreateTable st tb
       | 7, Some st, _ => MDeleteTable st t
       | _, _, _ => MBegin
       end) _).
  by intros [].
Defined.

#[export] Instance query_eq_dec : EqDecision Query.
Proof. solve_decision. Defined.
#[export] Instance query_countable : Countable Query.
Proof.
  refine (inj_countable'
    (λ q, match q with
          | QBeginReadOnly v => (0, v, None, [], [], Null, None)
          | QStatus => (1, None, None, [], [], Null, None)
          | QRead st t id => (2, None, Some st, t, [], id, None)
          | QReadIndex st t c v => (3, None, Some st, t, c, v, None)
          | QScan st t f => (4, None, Some st, t, [], Null, f)
          | QScanIndex st t c => (5, None, Some st, t, c, Null, None)
          | QScanTables st => (6, None, Some st, [], [], Null, None)
          | QReadTable st t => (7, None, Some st, t, [], Null, None)
          end : N * option N * option TransactionState * bytes * bytes * Value * option Expression)
    (λ '(k, v, st, t, c, id, f),
       match k, st with
       | 0, _ => QBeginReadOnly v
       | 2, Some st => QRead st t id
       | 3, Some st => QReadIndex st t c id
       | 4, Some st => QScan st t f
       | 5, Some st => QScanIndex st t c
       | 6, Some st => QScanTables st
       | 7, Some st => QReadTable st t
       | _, _ => QStatus
       end) _).
  by intros [].
Defined.

#[export] Instance storage_eq_dec : EqDecision Status.
Proof. solve_decision. Defined.
#[export] Instance storage_countable : Countable Status.
Proof.
  refine (inj_countable'
    (λ s, (Engine.name s, keys s, size s, total_disk_size s, live_disk_size s, garbage_disk_size s))
    (λ '(a, b, c, d, e, f), Build_Status a b c d e f) _).
  by intros [].
Defined.
#[export] Instance status_eq_dec : EqDecision MvccStatus.
Proof. solve_decision. Defined.
#[export] Instance status_countable : Countable MvccStatus.
Proof.
  refine (inj_countable' (λ s, (st_versions s, st_active_txns s, st_storage s))
    (λ '(a, b, c), Build_MvccStatus a b c) _).
  by intros [].
Defined.

#[export] Instance sample_codecs : Codecs := {
  bin_mutation := countable_bincode Mutation;
  bin_query := countable_bincode Query;
  bin_state := countable_bincode TransactionState;
  bin_unit := countable_bincode unit;
  bin_row := countable_bincode (option Row);
  bin_values := sample_bin_row;
  bin_rows := countable_bincode (list Row);
  bin_entries := countable_bincode (list (Value * list Value));
  bin_table := sample_bin_table;
  bin_option_table := countable_bincode (option Table);
  bin_tables := countable_bincode (list Table);
  bin_status := countable_bincode MvccStatus;
  bin_N := sample_bin_version;
  bin_set := sample_bin_active;
  bin_value := sample_bin_value
}.

#[export] Instance sample_codecs_laws : CodecsLaws.
Proof. split; apply countable_bincode_laws. Qed.

(** * Plans *)

#[export] Instance aggregate_countable : Countable Aggregate.
Proof.
  refine (inj_countable'
    (λ a, match a with Average => 0 | Count => 1 | Max => 2 | Min => 3 | Sum => 4 end)
    (λ n, match n with 0 => Average | 1 => Count | 2 => Max | 3 => Min | _ => Sum end) _).
  by intros [].
Defined.
#[export] Instance direction_countable : Countable Direction.
Proof.
  refine (inj_countable' (λ d, match d with Ascending => true | Descending => false end)
    (λ b : bool, if b then Ascending else Descending) _).
  by intros [].
Defined.
#[export] Instance node_eq_dec : EqDecision Node.
Proof. solve_decision. Defined.

(** What a node holds besides its sources. *)
Abbreviation Payload :=
  (N * bytes * option bytes * bytes * bool * N * list Value * list (list Expression) * option Table *
   list Aggregate * (N * Label) * (N * Label) * list (Expression * Direction) *
   list (Expression * option bytes) * list (N * option bytes * Expression) * list bytes)%type.
Fixpoint plan_tree (n : Node) : gen_tree Payload :=
  let no : N * Label := (0, None) in
  match n with
  | Aggregation s aggs =>
      GenNode 0 [GenLeaf (0, [], None, [], false, 0, [], [], None, aggs, no, no, [], [], [], []); plan_tree s]
  | CreateTable t =>
      GenNode 0 [GenLeaf (1, [], None, [], false, 0, [], [], Some t, [], no, no, [], [], [], [])]
  | Delete t s => GenNode 0 [GenLeaf (2, t, None, [], false, 0, [], [], None, [], no, no, [], [], [], []); plan_tree s]
  | DropTable t b => GenNode 0 [GenLeaf (3, t, None, [], b, 0, [], [], None, [], no, no, [], [], [], [])]
  | Filter s p =>
      GenNode 0 [GenLeaf (4, [], None, [], false, 0, [], [[p]], None, [], no, no, [], [], [], []); plan_tree s]
  | HashJoin l lf r rf o =>
      GenNode 0 [GenLeaf (5, [], None, [], o, 0, [], [], None, [], lf, rf, [], [], [], []); plan_tree l; plan_tree r]
  | IndexLookup t a c vs => GenNode 0 [GenLeaf (6, t, a, c, false, 0, vs, [], None, [], no, no, [], [], [], [])]
  | Insert t cs es => GenNode 0 [GenLeaf (7, t, None, [], false, 0, [], es, None, [], no, no, [], [], [], cs)]
  | KeyLookup t a ks => GenNode 0 [GenLeaf (8, t, a, [], false, 0, ks, [], None, [], no, no, [], [], [], [])]
  | Limit s k => GenNode 0 [GenLeaf (9, [], None, [], false, k, [], [], None, [], no, no, [], [], [], []); plan_tree s]
  | NestedLoopJoin l k r p o =>
      GenNode 0 [GenLeaf (10, [], None, [], o, k, [], match p with Some e => [[e]] | None => [] end, None, [], no, no, [], [], [], []);
                 plan_tree l; plan_tree r]
  | Nothing => GenNode 0 [GenLeaf (11, [], None, [], false, 0, [], [], None, [], no, no, [], [], [], [])]
  | Offset s k => GenNode 0 [GenLeaf (12, [], None, [], false, k, [], [], None, [], no, no, [], [], [], []); plan_tree s]
  | Order s os => GenNode 0 [GenLeaf (13, [], None, [], false, 0, [], [], None, [], no, no, os, [], [], []); plan_tree s]
  | Projection s es =>
      GenNode 0 [GenLeaf (14, [], None, [], false, 0, [], [], None, [], no, no, [], es, [], []); plan_tree s]
  | Scan t a f =>
      GenNode 0 [GenLeaf (15, t, a, [], false, 0, [], match f with Some e => [[e]] | None => [] end, None, [], no, no, [], [], [], [])]
  | Update t s es => GenNode 0 [GenLeaf (16, t, None, [], false, 0, [], [], None, [], no, no, [], [], es, []); plan_tree s]
  end.
Fixpoint tree_plan (g : gen_tree Payload) : Node :=
  match g with
  | GenNode 0 (GenLeaf (k, t, a, c, b, m, vs, ess, tb, aggs, lf, rf, os, ps, us, cs) :: l) =>
      match k, l, ess, tb with
      | 0, [s], _, _ => Aggregation (tree_plan s) aggs
      | 1, _, _, Some tb => CreateTable tb
      | 2, [s], _, _ => Delete t (tree_plan s)
      | 3, _, _, _ => DropTable t b
      | 4, [s], [[p]], _ => Filter (tree_plan s) p
      | 5, [l; r], _, _ => HashJoin (tree_plan l) lf (tree_plan r) rf b
      | 6, _, _, _ => IndexLookup t a c vs
      | 7, _, _, _ => Insert t cs ess
      | 8, _, _, _ => KeyLookup t a vs
      | 9, [s], _, _ => Limit (tree_plan s) m
      | 10, [l; r], [[e]], _ => NestedLoopJoin (tree_plan l) m (tree_plan r) (Some e) b
      | 10, [l; r], _, _ => NestedLoopJoin (tree_plan l) m (tree_plan r) None b
      | 12, [s], _, _ => Offset (tree_plan s) m
      | 13, [s], _, _ => Order (tree_plan s) os
      | 14, [s], _, _ => Projection (tree_plan s) ps
      | 15, _, [[e]], _ => Scan t a (Some e)
      | 15, _, _, _ => Scan t a None
      | 16, [s], _, _ => Update t (tree_plan s) us
      | _, _, _, _ => Nothing
      end
  | _ => Nothing
  end.
Lemma tree_plan_tree n : tree_plan (plan_tree n) = n.
Proof.
  induction n; cbn; try congruence; repeat match goal with o : option Expression |- _ => destruct o end;
    cbn; congruence.
Qed.
#[export] Instance node_countable : Countable Node.
Proof. exact (inj_countable' plan_tree tree_plan tree_plan_tree). Defined.

(** * Requests and responses *)

#[export] Instance fmt_arg_eq_dec : EqDecision fmt_arg.
Proof. solve_decision. Defined.
#[export] Instance fmt_arg_countable : Countable fmt_arg.
Proof.
  refine (inj_countable'
    (λ a, match a with
          | FNum n => inl (inl n) | FInt z => inl (inr z) | FBytes b => inr (inl b)
          | FText s => inr (inr (inl s)) | FFloat f => inr (inr (inr f)) end)
    (λ c, match c with
          | inl (inl n) => FNum n | inl (inr z) => FInt z | inr (inl b) => FBytes b
          | inr (inr (inl s)) => FText s | inr (inr (inr f)) => FFloat f end) _).
  by intros [].
Defined.
#[export] Instance message_eq_dec : EqDecision Prelude.message.
Proof. solve_decision. Defined.
#[export] Instance message_countable : Countable Prelude.message.
Proof.
  refine (inj_countable' (λ m, (template m, Prelude.arguments m)) (λ '(t, a), Msg t a) _). by intros [].
Defined.
#[export] Instance error_eq_dec : EqDecision Error.
Proof. solve_decision. Defined.
#[export] Instance error_countable : Countable Error.
Proof.
  refine (inj_countable'
    (λ e, match e with
          | EAbort => (0, None) | EConfig m => (1, Some m) | EInternal m => (2, Some m)
          | EParse m => (3, Some m) | EReadOnly => (4, None) | ESerialization => (5, None)
          | EValue m => (6, Some m) end)
    (λ c, match c with
          | (1, Some m) => EConfig m | (2, Some m) => EInternal m | (3, Some m) => EParse m
          | (4, _) => EReadOnly | (5, _) => ESerialization | (6, Some m) => EValue m | _ => EAbort end) _).
  by intros [].
Defined.
#[export] Instance res_eq_dec {A} `{EqDecision A} : EqDecision (res A).
Proof. solve_decision. Defined.
#[export] Instance res_countable {A} `{Countable A} : Countable (res A).
Proof.
  refine (inj_countable'
    (λ r : res A, match r with Ok a => inl a | Err e => inr (inl e) | Panic w => inr (inr w) end)
    (λ c, match c with inl a => Ok a | inr (inl e) => Err e | inr (inr w) => Panic w end) _).
  by intros [].
Defined.

#[export] Instance rows_eq_dec : EqDecision Rows.
Proof. solve_decision. Defined.
#[export] Instance rows_countable : Countable Rows.
Proof.
  refine (inj_countable' (λ r, (items r, forever r)) (λ '(i, f), {| items := i; forever := f |}) _). by intros [].
Defined.
#[export] Instance result_column_eq_dec : EqDecision SqlTypes.Column.
Proof. solve_decision. Defined.
#[export] Instance result_column_countable : Countable SqlTypes.Column.
Proof. refine (inj_countable' col_name SqlTypes.Build_Column _). by intros []. Defined.
#[export] Instance result_eq_dec : EqDecision ResultSet.
Proof. solve_decision. Defined.
#[export] Instance result_countable : Countable ResultSet.
Proof.
  refine (inj_countable'
    (λ r, match r with
          | RBegin v b => (0, v, b, [], None) | RCommit v => (1, v, false, [], None)
          | RRollback v => (2, v, false, [], None) | RCreate n => (3, n, false, [], None)
          | RDelete n => (4, n, false, [], None) | RUpdate n => (5, n, false, [], None)
          | RCreateTable n => (6, 0, false, n, None) | RDropTable n b => (7, 0, b, n, None)
          | RQuery cs rows => (8, 0, false, [], Some (inl (cs, rows)))
          | RExplain n => (9, 0, false, [], Some (inr n)) end)
    (λ '(k, v, b, n, x), match k, x with
          | 0, _ => RBegin v b | 1, _ => RCommit v | 2, _ => RRollback v | 3, _ => RCreate v
          | 4, _ => RDelete v | 5, _ => RUpdate v | 6, _ => RCreateTable n | 7, _ => RDropTable n b
          | 8, Some (inl (cs, rows)) => RQuery cs rows | 9, Some (inr n) => RExplain n
          | _, _ => RCommit 0 end) _).
  by intros [].
Defined.
#[export] Instance raft_status_eq_dec : EqDecision RaftStatus.
Proof. solve_decision. Defined.
#[export] Instance raft_status_countable : Countable RaftStatus.
Proof.
  refine (inj_countable'
    (λ s, (rs_leader s, rs_term s, rs_last_index s, rs_commit_index s, rs_apply_index s, rs_storage s))
    (λ '(a, b, c, d, e, f), Build_RaftStatus a b c d e f) _).
  by intros [].
Defined.
#[export] Instance server_status_eq_dec : EqDecision ServerStatus.
Proof. solve_decision. Defined.
#[export] Instance server_status_countable : Countable ServerStatus.
Proof. refine (inj_countable' (λ s, (server s, raft s, mvcc s)) (λ '(a, b, c), Build_ServerStatus a b c) _). by intros []. Defined.
#[export] Instance request_eq_dec : EqDecision SqlRequest.
Proof. solve_decision. Defined.
#[export] Instance request_countable : Countable SqlRequest.
Proof.
  refine (inj_countable'
    (λ r, match r with
          | ReqExecute q => (0, q) | ReqGetTable t => (1, t) | ReqListTables => (2, []) | ReqServerStatus => (3, []) end)
    (λ '(k, q), match k with 0 => ReqExecute q | 1 => ReqGetTable q | 2 => ReqListTables | _ => ReqServerStatus end) _).
  by intros [].
Defined.
#[export] Instance response_eq_dec : EqDecision SqlResponse.
Proof. solve_decision. Defined.
#[export] Instance response_countable : Countable SqlResponse.
Proof.
  refine (inj_countable'
    (λ r, match r with
          | AnsExecute rs => inl (inl rs) | AnsRow row => inl (inr row) | AnsGetTable t => inr (inl t)
          | AnsListTables l => inr (inr (inl l)) | AnsStatus s => inr (inr (inr s)) end)
    (λ c, match c with
          | inl (inl rs) => AnsExecute rs | inl (inr row) => AnsRow row | inr (inl t) => AnsGetTable t
          | inr (inr (inl l)) => AnsListTables l | inr (inr (inr s)) => AnsStatus s end) _).
  by intros [].
Defined.

#[export] Instance request_stream : Stream SqlRequest := countable_stream SqlRequest.
#[export] Instance response_stream : Stream (res SqlResponse) := countable_stream (res SqlResponse).
#[export] Instance request_stream_laws : StreamLaws SqlRequest := countable_stream_laws SqlRequest.
#[export] Instance response_stream_laws : StreamLaws (res SqlResponse) := countable_stream_laws (res SqlResponse).

(** * A state machine *)

Definition fresh_state : SqlState Memory := {| kv := Memory.new; applied_index := 0 |}.
Definition idle : RaftStatus := {|
  rs_leader := 1; rs_term := 1; rs_last_index := ∅; rs_commit_index := 0; rs_apply_index := 0;
  rs_storage := Build_Status "memory" 0 0 0 0 0 |}.
