(* ===== verification/SqlRaftClaims.v ===== *)
(** The SQL engine over Raft: its calls are those of the engine over MVCC, its
    state machine survives restarts, and commands it cannot get past. *)
From Stdlib Require Import Strings.Byte Strings.String NArith ZArith Lia.
From stdpp Require Import base list gmap countable strings.
From S2P Require Import Prelude BTreeMap KeyCode Engine Memory Bincode Mvcc MvccDb MvccOps.
From S2P Require Import MvccClaims RaftLog RaftNode SqlTypes SqlExpression SqlSchema SqlKv.
From S2P Require Import SqlLexer SqlSession SqlMvcc SqlRaft SqlRaftSpec.

Open Scope N_scope.

Section engine.
Context {E : Type} `{Engine E, CodecsLaws, Libm, Regex}.

(** C7. Through a client whose requests are applied by the replicated state
    machine, and for a transaction that is active (or read-only), every call of
    the Raft-backed SQL engine has the effect of the same call of the local
    key/value SQL engine: begin, commit and rollback of a read-write
    transaction, create, delete, update and the table changes return the same
    and leave the same database, apart from the applied index that is recorded
    for a mutation; reads, table and index lookups return the same and change
    nothing; commit and rollback of a read-only transaction do nothing in both.
    A scan of rows or of an index returns the rows of the local scan when all of
    them can be read, and otherwise the first error among them as the error of
    the whole call, where the local scan yields the earlier rows first. *)
Theorem raft_engine_exact (t : N) (node : RaftStatus) (s : SqlState E) (st : TransactionState) :
  kv_resume st (kv s) = (Ok st, kv s) →
  let engine := @raft_engine _ (local_client t node) _ in
  let R := @sql_txn _ _ engine st in
  let K := @sql_txn E _ kv_engine st in
  (@sql_begin _ _ engine s = recorded s (sql_begin (kv s)) ∧
   @sql_begin_read_only _ _ engine s = ((sql_begin_read_only (kv s)).1, s) ∧
   (∀ v, @sql_begin_as_of _ _ engine v s = ((sql_begin_as_of v (kv s)).1, s)) ∧
   (if read_only st
    then @sql_commit _ _ engine st s = (Ok tt, s) ∧ sql_commit st (kv s) = (Ok tt, kv s) ∧
      @sql_rollback _ _ engine st s = (Ok tt, s) ∧ sql_rollback st (kv s) = (Ok tt, kv s)
    else @sql_commit _ _ engine st s = recorded s (sql_commit st (kv s)) ∧
      @sql_rollback _ _ engine st s = recorded s (sql_rollback st (kv s)))) ∧
  ((∀ n row, @tx_create _ R n row s = recorded s (@tx_create _ K n row (kv s))) ∧
   (∀ n id, @tx_delete _ R n id s = recorded s (@tx_delete _ K n id (kv s))) ∧
   (∀ n id row, @tx_update _ R n id row s = recorded s (@tx_update _ K n id row (kv s))) ∧
   (∀ n, @tx_create_table _ R n s = recorded s (@tx_create_table _ K n (kv s))) ∧
   (∀ n, @tx_delete_table _ R n s = recorded s (@tx_delete_table _ K n (kv s)))) ∧
  (∀ n id, @tx_read _ (@tx_reader _ R) n id s = ((@tx_read _ (@tx_reader _ K) n id (kv s)).1, s)) ∧
  (∀ n, @tx_read_table _ (@tx_reader _ R) n s = ((@tx_read_table _ (@tx_reader _ K) n (kv s)).1, s)) ∧
  @tx_scan_tables _ (@tx_reader _ R) s = ((@tx_scan_tables _ (@tx_reader _ K) (kv s)).1, s) ∧
  (∀ n c v, @tx_read_index _ R n c v s = ((@tx_read_index _ K n c v (kv s)).1, s)) ∧
  (∀ n f, @tx_scan _ (@tx_reader _ R) n f s
     = (collected (@tx_scan _ (@tx_reader _ K) n f (kv s)).1, s)) ∧
  (∀ n c, @tx_scan_index _ R n c s
     = (collected (@tx_scan_index _ K n c (kv s)).1, s)).
Proof.
  intros Hr engine R K. subst engine R K. split; [|split].
  - split; [exact (mutate_exact t node MBegin (@sql_begin E _ kv_engine) s eq_refl)|].
    split; [exact (query_exact t node (QBeginReadOnly None) (@sql_begin_read_only E _ kv_engine) s eq_refl)|].
    split; [intros v; exact (query_exact t node (QBeginReadOnly (Some v))
      (@sql_begin_as_of E _ kv_engine v) s eq_refl)|].
    cbn [sql_commit sql_rollback raft_engine kv_engine]. unfold raft_commit, raft_rollback.
    destruct (read_only st) eqn:Hro; [unfold Mvcc.commit, Mvcc.rollback; rewrite Hro; by split_and!|]. split.
    + exact (txn_mutate_exact t node st (MCommit st) (λ _ st, @sql_commit E _ kv_engine st) s Hr eq_refl).
    + exact (txn_mutate_exact t node st (MRollback st) (λ _ st, @sql_rollback E _ kv_engine st) s Hr eq_refl).
  - split; [intros n row; exact (txn_mutate_exact t node st (MCreate st n row) (λ K _, @tx_create _ K n row) s Hr eq_refl)|].
    split; [intros n id; exact (txn_mutate_exact t node st (MDelete st n id) (λ K _, @tx_delete _ K n id) s Hr eq_refl)|].
    split; [intros n id row; exact (txn_mutate_exact t node st (MUpdate st n id row) (λ K _, @tx_update _ K n id row) s Hr eq_refl)|].
    split; [intros n; exact (txn_mutate_exact t node st (MCreateTable st n) (λ K _, @tx_create_table _ K n) s Hr eq_refl)|].
    intros n; exact (txn_mutate_exact t node st (MDeleteTable st n) (λ K _, @tx_delete_table _ K n) s Hr eq_refl).
  - split; [intros n id; exact (txn_query_exact t node st (QRead st n id) (λ K _, @tx_read _ (@tx_reader _ K) n id) s Hr eq_refl)|].
    split; [intros n; exact (txn_query_exact t node st (QReadTable st n) (λ K _, @tx_read_table _ (@tx_reader _ K) n) s Hr eq_refl)|].
    split; [exact (txn_query_exact t node st (QScanTables st) (λ K _, @tx_scan_tables _ (@tx_reader _ K)) s Hr eq_refl)|].
    split; [intros n c v; exact (txn_query_exact t node st (QReadIndex st n c v) (λ K _, @tx_read_index _ K n c v) s Hr eq_refl)|].
    split.
    + intros n f. rewrite <-collect_fst. apply map_fst.
      exact (txn_query_exact t node st (QScan st n f)
        (λ K _, rows ← @tx_scan _ (@tx_reader _ K) n f; lift (collect rows)) s Hr eq_refl).
    + intros n c. rewrite <-collect_fst. apply map_fst.
      exact (txn_query_exact t node st (QScanIndex st n c)
        (λ K _, rows ← @tx_scan_index _ K n c; lift (collect rows)) s Hr eq_refl).
Qed.
End engine.

(** * The state machine *)

Section state.
Context {E : Type} `{EngineLaws E, CodecsLaws, Libm, Regex}.
Context (Hunl : ∀ k v, eng_writable (E:=E) k v).

(** What a command does to the engine; a noop has none. *)
Definition command_outcome (mutation : option Mutation) (e : E) : res bytes * E :=
  match mutation with None => (Ok [], e) | Some mutation => state_mutate mutation e end.

(** C30. After the state machine, on an engine that accepts every write, applied
    an entry (other than one that failed internally), restarting it from its
    storage restores exactly the state it had: the applied index and the
    database. *)
Theorem state_restart n m (s : SqlState E) (entry : Entry) mutation r e' :
  RaftLog.index entry = applied_index s + 1 → RaftLog.command entry = bin_serialize <$> mutation →
  command_outcome mutation (kv s) = (r, e') →
  (∀ msg, r ≠ Err (EInternal msg)) → (∀ w, r ≠ Panic w) → database n e' m →
  ∃ s', state_apply entry s = (r, s') ∧ applied_index s' = RaftLog.index entry ∧
    database n (kv s') m ∧ state_new (kv s') = Ok s'.
Proof.
  intros Hi Hc Hout Hint Hpan Hdb.
  destruct (restart_metadata Hunl n m {| kv := e'; applied_index := applied_index s |}
    (RaftLog.index entry) r Hdb) as (s' & Hrec & Hs').
  exists s'. split; [|done]. unfold state_apply. rewrite decide_True, Hc by done.
  destruct mutation as [mutation|]; cbn [fmap option_fmap option_map command_outcome] in Hout |- *.
  - rewrite bin_roundtrip. unfold on_kv. rewrite Hout. destruct r as [a|[]|w]; try done; naive_solver.
  - injection Hout as <- <-. rewrite <-Hrec. by destruct s.
Qed.

(** C39. Applying the commit of a transaction that is not active fails with an
    internal error and does not record the entry as applied, so applying any
    later entry panics: a client that commits a transaction twice stops the
    state machine of every node. *)
Theorem inactive_commit_blocks (s : SqlState E) d st entry :
  eng_inv (kv s) → rep (eng_view (kv s)) d → version st ≤ u64_max → read_only st = false →
  version st ∉ active_set d → RaftLog.index entry = applied_index s + 1 →
  RaftLog.command entry = Some (bin_serialize (MCommit st)) →
  (∃ msg, state_apply entry s = (Err (EInternal msg), s)) ∧
  ∀ later, RaftLog.index later ≠ RaftLog.index entry →
    ∃ w, state_apply later s = (Panic w, s).
Proof.
  intros He Hr Hv Hro Hact Hi Hc.
  assert (kv_resume st (kv s) = (Err (EInternal (Msg "No active transaction at version {}"
    [FNum (version st)])), kv s)) as Hres.
  { unfold kv_resume. rewrite (resume_rep _ d) by done. rewrite Hro. by rewrite bool_decide_false. }
  split.
  - eexists. unfold state_apply. rewrite decide_True, Hc, bin_roundtrip by done.
    unfold on_kv. cbn [state_mutate]. unfold with_txn, mbind at 1, M_bind at 1. rewrite Hres.
    by destruct s.
  - intros later Hne. eexists. unfold state_apply. by rewrite decide_False by congruence.
Qed.
End state.

(** * Examples *)

From S2P Require Import SqlSample SqlCodecs.

Definition begun_state : SqlState Memory := {| kv := began; applied_index := 0 |}.
Lemma raft_engine_exact_witness :
  @tx_create_table _ (@sql_txn _ _ (@raft_engine _ (local_client 1 idle) _) first_txn) books begun_state
  = recorded begun_state (Ok tt, with_books).
Proof.
  destruct (raft_engine_exact 1 idle begun_state first_txn) as (_ & (_ & _ & _ & Hct & _) & _);
    [vm_compute; reflexivity|].
  assert (create_table books began = (Ok tt, with_books)) as E by (vm_compute; reflexivity).
  rewrite <-E. exact (Hct books).
Defined.

Lemma state_restart_witness : ∃ s,
  state_apply {| RaftLog.index := 1; RaftLog.term := 1; RaftLog.command := None |} fresh_state = (Ok [], s) ∧
  applied_index s = 1 ∧ state_new (kv s) = Ok s.
Proof.
  destruct (state_restart memory_takes_all 1 ∅ fresh_state
    {| RaftLog.index := 1; RaftLog.term := 1; RaftLog.command := None |} None (Ok []) Memory.new
    eq_refl eq_refl eq_refl) as (s & Ha & Hi & _ & Hn); [discriminate|discriminate|apply memory_database|].
  exists s. split; [exact Ha|]. split; [exact Hi|exact Hn].
Defined.

Lemma inactive_commit_blocks_witness : ∃ msg,
  state_apply {| RaftLog.index := 1; RaftLog.term := 1;
                 RaftLog.command := Some (bin_serialize (MCommit first_txn)) |} fresh_state
  = (Err (EInternal msg), fresh_state).
Proof.
  refine (proj1 (inactive_commit_blocks fresh_state empty_db first_txn _ _ _ _ _ _ _ _)).
  - apply memory_new_inv.
  - split; [constructor|]. split; [by intros kb vb ?%not_elem_of_nil|]. by intros [].
  - discriminate.
  - reflexivity.
  - apply not_elem_of_empty.
  - reflexivity.
  - reflexivity.
Defined.
