(* ===== verification/DbClient.v ===== *)
(** The client (src/src/client.rs): calls over a connection to a server, the
    transaction that the client believes to be open, and retries.

    The connection is what was received and not read yet, what was written and
    not sent yet, and the other end: [exchange] is what the other end does with
    the bytes that a flush sends, and what it sends back. *)
From Stdlib Require Import Strings.Byte Strings.String NArith ZArith Lia.
From stdpp Require Import base list gmap strings.
From S2P Require Import Prelude BTreeMap KeyCode Engine Bincode Mvcc RaftLog RaftNode SqlTypes.
From S2P Require Import SqlExpression SqlSchema SqlKv SqlPlan SqlExec SqlLexer SqlSession SqlRaft Server.

Open Scope N_scope.

Section client.
Context {W : Type} (exchange : list byte → W → list byte * W).
Context `{Stream SqlRequest, Stream (res SqlResponse)}.
(** [rand::thread_rng().gen_range(a..=b)]: the number that the n-th call draws. *)
Context (gen_range : nat → N → N → N).

(** [Client]. *)
Record DbClient := {
  reader : list byte;
  writer : list byte;
  client_txn : option (N * bool);
  remote : W
}.

Definition on_reader {A} (m : M (list byte) A) : M DbClient A := λ c,
  let '(r, rest) := m (reader c) in
  (r, {| reader := rest; writer := writer c; client_txn := client_txn c; remote := remote c |}).
Definition on_writer {A} (m : M (list byte) A) : M DbClient A := λ c,
  let '(r, w) := m (writer c) in
  (r, {| reader := reader c; writer := w; client_txn := client_txn c; remote := remote c |}).
Definition flush : M DbClient unit := λ c,
  let '(bs, w) := exchange (writer c) (remote c) in
  (Ok tt, {| reader := reader c ++ bs; writer := []; client_txn := client_txn c; remote := w |}).
Definition get_client_txn : M DbClient (option (N * bool)) := λ c, (Ok (client_txn c), c).
Definition set_client_txn (t : option (N * bool)) : M DbClient unit := λ c,
  (Ok tt, {| reader := reader c; writer := writer c; client_txn := t; remote := remote c |}).

(** [Client::call]. *)
Definition call (request : SqlRequest) : M DbClient SqlResponse :=
  _ ← on_writer (serialize_into request);
  _ ← flush;
  response ← on_reader deserialize_from;
  lift response.

Definition unexpected_response {A} : res A := Err (EInternal (Msg "Unexpected response {:?}" [])).

(** The loop of [Client::execute] that reads rows. *)
Fixpoint read_rows (fuel : nat) (rows : list Row) : M DbClient (list Row) :=
  match fuel with
  | O => lift (Panic "rows: out of fuel")
  | S fuel =>
      response ← on_reader deserialize_from;
      response ← lift response;
      match response with
      | AnsRow (Some row) => read_rows fuel (rows ++ [row])
      | AnsRow None => mret rows
      | _ => lift unexpected_response
      end
  end.
Definition read_all_rows : M DbClient (list Row) := λ c, read_rows (S (length (reader c))) [] c.

(** The last [match] of [Client::execute]. *)
Definition track_txn (rs : ResultSet) : M DbClient unit :=
  match rs with
  | RBegin version read_only => set_client_txn (Some (version, read_only))
  | RCommit _ | RRollback _ => set_client_txn None
  | _ => mret tt
  end.

(** [Client::execute]. *)
Definition client_run (query : bytes) : M DbClient ResultSet :=
  response ← call (ReqExecute query);
  resultset ← match response with
              | AnsExecute rs => mret rs
              | _ => lift unexpected_response
              end;
  resultset ← match resultset with
              | RQuery columns _ =>
                  rows ← read_all_rows;
                  mret (RQuery columns (rows_of (Ok <$> rows)))
              | rs => mret rs
              end;
  _ ← track_txn resultset;
  mret resultset.

Definition unexpected_value {A} : res A := Err (EValue (Msg "Unexpected response: {:?}" [])).

(** [Client::get_table], [Client::list_tables] and [Client::status]. *)
Definition client_get_table (table : bytes) : M DbClient Table :=
  response ← call (ReqGetTable table);
  match response with AnsGetTable t => mret t | _ => lift unexpected_value end.
Definition client_list_tables : M DbClient (list bytes) :=
  response ← call ReqListTables;
  match response with AnsListTables t => mret t | _ => lift unexpected_value end.
Definition client_server_status : M DbClient ServerStatus :=
  response ← call ReqServerStatus;
  match response with AnsStatus s => mret s | _ => lift unexpected_value end.

(** * Retries *)

Definition MAX_RETRIES : N := 10.
Definition MIN_WAIT : N := 10.
Definition MAX_WAIT : N := 2000.

Definition rollback_query : bytes := str (text "ROLLBACK").

(** The wait before a retry: an overflow or an empty range would panic. *)
Definition checked_u64 (n : N) : res N :=
  if n <=? u64_max then Ok n else Panic "attempt to multiply with overflow".
Definition backoff (retries : N) : res N :=
  factor ← checked_u64 (2 ^ retries);
  base ← checked_u64 (MIN_WAIT * factor);
  let wait := N.min base MAX_WAIT in
  if MIN_WAIT <=? wait then Ok (gen_range (N.to_nat retries) MIN_WAIT wait)
  else Panic "cannot sample empty range".

Definition retryable (e : Error) : bool :=
  match e with ESerialization | EAbort => true | _ => false end.

(** The error is returned; that of a rollback is ignored. *)
Definition return_error {T} (e : Error) : M DbClient T := λ c,
  match client_txn c with
  | None => (Err e, c)
  | Some _ =>
      match client_run rollback_query c with
      | (Panic w, c) => (Panic w, c)
      | (_, c) => (Err e, c)
      end
  end.

(** [Client::with_retry]: [left] is [MAX_RETRIES - retries]. *)
Fixpoint retry_loop {T} (f : M DbClient T) (left : nat) : M DbClient T := λ c,
  match f c with
  | (Ok r, c) => (Ok r, c)
  | (Panic w, c) => (Panic w, c)
  | (Err e, c) =>
      match left with
      | S left' =>
          if retryable e then
            (t ← get_client_txn;
             _ ← match t with Some _ => _ ← client_run rollback_query; mret tt | None => mret tt end;
             _ ← lift (backoff (MAX_RETRIES - N.of_nat left));
             retry_loop f left') c
          else return_error e c
      | O => return_error e c
      end
  end.
Definition with_retry {T} (f : M DbClient T) : M DbClient T := retry_loop f (N.to_nat MAX_RETRIES).
End client.
Arguments DbClient W : clear implicits.
