(* ===== verification/ServerSpec.v ===== *)
(** A client connected to a session of the server: what the client gets is what
    the session answers. *)
From Stdlib Require Import Strings.Byte Strings.String NArith ZArith Lia.
From stdpp Require Import base list gmap strings.
From S2P Require Import Prelude BTreeMap KeyCode Engine Bincode Mvcc RaftLog RaftNode SqlTypes.
From S2P Require Import SqlExpression SqlSchema SqlKv SqlPlan SqlExec SqlAggregate SqlExecutor SqlAst SqlLexer.
From S2P Require Import SqlParser SqlPlanner SqlSession.
From S2P Require Import SqlRaft SqlRaftSpec Server DbClient.

Open Scope N_scope.

(** * Results of plans *)

(** A computation whose results, if any, satisfy [P]. *)
Definition yields {T A} (P : A → Prop) (m : M T A) : Prop := ∀ s a s', m s = (Ok a, s') → P a.
Lemma yields_bind {T A B} (P : B → Prop) (m : M T A) (f : A → M T B) : (∀ a, yields P (f a)) → yields P (m ≫= f).
Proof.
  intros Hf s b s'. unfold mbind, M_bind. destruct (m s) as [[a| |] s1]; [apply Hf|done..].
Qed.
Lemma yields_ret {T A} (P : A → Prop) (a : A) : P a → yields (T:=T) P (mret a).
Proof. intros Ha s b s' [= <- _]. done. Qed.
Lemma yields_lift {T A} (P : A → Prop) (r : res A) : (∀ a, r = Ok a → P a) → yields (T:=T) P (lift r).
Proof. intros Ha s b s' [= -> _]. auto. Qed.

(** Results about transactions. *)
Definition about_txn (rs : ResultSet) : bool :=
  match rs with RBegin _ _ | RCommit _ | RRollback _ => true | _ => false end.

Section execution.
Context {T : Type} `{Transaction T, Libm, Regex}.

Lemma query_kind what rs f : (∀ cs rows a, f cs rows = Ok a → about_txn a = false) →
  ∀ a, query what rs f = Ok a → about_txn a = false.
Proof. intros Hf a. unfold query. destruct rs; try done. apply Hf. Qed.

Ltac query_result :=
  repeat match goal with
  | |- about_txn _ = false => reflexivity
  | H : Ok _ = Ok _ |- _ => injection H as <-
  | H : Err _ = Ok _ |- _ => discriminate H
  | H : Panic _ = Ok _ |- _ => discriminate H
  | H : (mbind _ ?r) = Ok _ |- _ => destruct r eqn:?; cbn [mbind res_bind] in H
  | H : (let '(_, _) := ?p in _) = Ok _ |- _ => destruct p
  | H : query _ _ _ = Ok _ |- _ => revert H; apply query_kind; intros
  end.

Lemma execute_kind n : yields (λ rs, about_txn rs = false) (execute n).
Proof.
  destruct n; cbn [execute]; unfold exec_create_table, exec_drop_table, exec_index_lookup, exec_insert,
    exec_key_lookup, exec_scan;
    repeat first
      [ apply yields_bind; intros ?
      | apply yields_ret; reflexivity
      | match goal with |- yields _ (match ?x with _ => _ end) => destruct x end
      | match goal with |- yields _ (exec_delete _ ?x) => unfold exec_delete; destruct x end
      | match goal with |- yields _ (exec_update _ _ ?x) => unfold exec_update; destruct x end
      | apply yields_lift; intros ? ?; unfold exec_aggregation, exec_filter, exec_hash_join, exec_limit,
          exec_nested_loop_join, exec_offset, exec_order, exec_projection in *; query_result; fail ].
Qed.
End execution.

Section protocol.
Context {S H : Type} `{SqlEngine S H} `{Libm, Regex, Unicode}.
Context `{StreamLaws SqlRequest, StreamLaws (res SqlResponse)}.
Context (engine_status : M S (RaftStatus * MvccStatus)) (gen_range : nat → N → N → N) (id : N).

(** The server's end of a connection: it answers the requests that it received,
    and waits for more. *)
Definition exchange (bs : list byte) (p : Peer S H) : list byte * Peer S H :=
  let input := peer_reader p ++ bs in
  let p := (serve engine_status (Datatypes.S (length input)) id
    {| peer_session := peer_session p; peer_reader := input; peer_writer := peer_writer p |}).2 in
  (peer_writer p, {| peer_session := peer_session p; peer_reader := peer_reader p; peer_writer := [] |}).

(** Nothing is under way between the client and the session [s]. *)
Record synced (c : DbClient (Peer S H)) (s : Session S H) : Prop := {
  synced_reader : reader c = [];
  synced_writer : writer c = [];
  synced_remote : remote c = {| peer_session := s; peer_reader := []; peer_writer := [] |}
}.

Definition panics {A} (r : res A) : bool := match r with Panic _ => true | _ => false end.
Definition encoded (l : list (res SqlResponse)) : list byte := l ≫= stream_put.

Lemma write_responses_encoded l w : forallb (λ r, negb (panics r)) l = true →
  write_responses l w = (Ok tt, w ++ encoded l).
Proof.
  revert w. induction l as [|r l IH]; intros w; [by intros _; cbn; rewrite app_nil_r|].
  cbn [forallb]. intros [Hr Hl]%andb_true_iff. change (encoded (r :: l)) with (stream_put r ++ encoded l).
  destruct r; [..|done]; cbn [write_responses]; unfold mbind, M_bind, serialize_into; rewrite IH by done;
    by rewrite <-(assoc_L (++)).
Qed.

(** A request, and the answer that is left to read. *)
Lemma exchange_request request s r s' : handle engine_status id request s = (r, s') →
  forallb (λ r, negb (panics r)) (responses r) = true →
  exchange (stream_put request) {| peer_session := s; peer_reader := []; peer_writer := [] |}
  = (encoded (responses r), {| peer_session := s'; peer_reader := []; peer_writer := [] |}).
Proof.
  intros Hh Hp. unfold exchange. cbn [peer_reader peer_session peer_writer app].
  pose proof (stream_put_length request) as Hlen.
  destruct (length (stream_put request)) as [|n]; [lia|]. cbn [serve].
  unfold mbind, M_bind, read_request, maybe_deserialize_from. cbn [peer_reader].
  rewrite <-(app_nil_r (stream_put request)), stream_roundtrip.
  unfold serve_one. cbn [peer_session peer_writer peer_reader]. rewrite Hh, write_responses_encoded by done.
  cbn [peer_reader]. by rewrite stream_end.
Qed.

Abbreviation call_ := (call exchange).

Lemma call_answer request c s r s' m ms : synced c s → handle engine_status id request s = (r, s') →
  forallb (λ r, negb (panics r)) (responses r) = true → responses r = m :: ms →
  call_ request c = (m, {| reader := encoded ms; writer := []; client_txn := client_txn c;
                           remote := {| peer_session := s'; peer_reader := []; peer_writer := [] |} |}).
Proof.
  intros [Hr Hw Hp] Hh Hnp Hm. destruct c as [r0 w0 t0 p0]. cbn [reader writer remote client_txn] in *. subst r0 w0 p0.
  unfold call, mbind, M_bind, on_writer, serialize_into, flush. cbn [writer remote app reader client_txn].
  rewrite (exchange_request request s r s') by done. rewrite Hm.
  unfold on_reader, deserialize_from. cbn [reader]. change (encoded (m :: ms)) with (stream_put m ++ encoded ms).
  rewrite stream_roundtrip. cbn [writer client_txn remote]. by destruct m.
Qed.

(** What a client gets of a result: the rows as a vector, or the first error. *)
Definition all_rows (rows : Rows) : res (list Row) :=
  l ← collect (items rows);
  match forever rows with Some e => Err e | None => Ok l end.
Definition received (r : res ResultSet) : res ResultSet :=
  rs ← r;
  match rs with
  | RQuery columns rows => l ← all_rows rows; Ok (RQuery columns (rows_of (Ok <$> l)))
  | rs => Ok rs
  end.
Definition execute_response (r : res ResultSet) : res SqlResponse := rs ← r; Ok (AnsExecute rs).

Lemma collect_app {A} (l l' : list (res A)) :
  collect (l ++ l') = (x ← collect l; y ← collect l'; Ok (x ++ y)).
Proof.
  induction l as [|r l IH]; cbn; [by destruct (collect l')|]. destruct r; cbn; [|done..].
  rewrite IH. destruct (collect l); cbn; [|done..]. by destruct (collect l').
Qed.

Lemma read_response {W} m ms w t (p : W) :
  on_reader deserialize_from {| reader := encoded (m :: ms); writer := w; client_txn := t; remote := p |}
  = (Ok m, {| reader := encoded ms; writer := w; client_txn := t; remote := p |}).
Proof.
  unfold on_reader, deserialize_from. cbn [reader].
  change (encoded (m :: ms)) with (stream_put m ++ encoded ms). by rewrite stream_roundtrip.
Qed.

(** The rows that are left to read are read to the end. *)
Definition row_end (at_end : option Error) : res SqlResponse :=
  match at_end with Some e => Err e | None => Ok (AnsRow None) end.
Lemma rows_read {W} l at_end acc fuel t w (p : W) :
  forallb (λ r, negb (panics r)) (row_responses l (row_end at_end)) = true →
  (length (row_responses l (row_end at_end)) ≤ fuel)%nat →
  read_rows fuel acc {| reader := encoded (row_responses l (row_end at_end)); writer := w; client_txn := t; remote := p |}
  = ((x ← collect l; match at_end with Some e => Err e | None => Ok (acc ++ x) end),
     {| reader := []; writer := w; client_txn := t; remote := p |}).
Proof.
  revert acc fuel. induction l as [|r l IH]; intros acc fuel Hp Hf.
  - destruct fuel as [|fuel]; [cbn in Hf; lia|]. cbn [row_responses read_rows].
    unfold mbind at 1, M_bind at 1. rewrite read_response. destruct at_end; cbn; [done|by rewrite app_nil_r].
  - destruct fuel as [|fuel]; [destruct r; cbn in Hf; lia|].
    destruct r as [row|e|w']; [..|done]; cbn [row_responses forallb length] in *; cbn [read_rows];
      unfold mbind at 1, M_bind at 1; rewrite read_response; [|done].
    change (read_rows fuel (acc ++ [row]) {| reader := encoded (row_responses l (row_end at_end)); writer := w;
      client_txn := t; remote := p |} = (x ← (xs ← collect l; Ok (row :: xs));
      match at_end with Some e => Err e | None => Ok (acc ++ x) end,
      {| reader := []; writer := w; client_txn := t; remote := p |})).
    rewrite IH by (done || lia). f_equal. destruct (collect l); cbn; [|done..].
    destruct at_end; [done|]. by rewrite <-(assoc_L (++)).
Qed.

Lemma encoded_length l : (length l ≤ length (encoded l))%nat.
Proof.
  induction l as [|m l IH]; [cbn; lia|]. change (encoded (m :: l)) with (stream_put m ++ encoded l).
  rewrite length_app. pose proof (stream_put_length m). cbn. lia.
Qed.

(** The transaction of a client after a result. *)
Definition tracked (r : res ResultSet) (t : option (N * bool)) : option (N * bool) :=
  match r with
  | Ok (RBegin version read_only) => Some (version, read_only)
  | Ok (RCommit _ | RRollback _) => None
  | _ => t
  end.

(** The session returns, and so do the rows of its result, up to an error. *)
Definition completes (r : res ResultSet) : Prop :=
  forallb (λ r, negb (panics r)) (responses (execute_response r)) = true.

Lemma run_exact query c s r s' : synced c s → session_execute query s = (r, s') → completes r →
  ∃ c', client_run exchange query c = (received r, c') ∧ synced c' s' ∧
    client_txn c' = tracked (received r) (client_txn c).
Proof.
  intros Hc Hs Hp. assert (handle engine_status id (ReqExecute query) s = (execute_response r, s')) as Hh.
  { unfold handle, mbind, M_bind. rewrite Hs. by destruct r. }
  unfold client_run, mbind at 1, M_bind at 1.
  destruct r as [rs|e|w]; [|by erewrite call_answer by done; eexists|done].
  destruct rs as [v ro|v|v|n|n|n|n|n b|columns rows|n];
    try (erewrite call_answer by done; by eexists).
  erewrite call_answer by done. cbn [without_rows]. unfold completes in Hp. cbn [execute_response mbind res_bind responses forallb] in Hp.
  set (c1 := {| reader := _ |}).
  change (∃ c', (rs ← (rows ← read_all_rows; mret (RQuery columns (rows_of (Ok <$> rows)))); _ ← track_txn rs; mret rs) c1
    = (received (Ok (RQuery columns rows)), c') ∧ synced c' s' ∧
      client_txn c' = tracked (received (Ok (RQuery columns rows))) (client_txn c)).
  unfold mbind, M_bind, read_all_rows. change (match forever rows with Some e => Err e | None => Ok (AnsRow None) end)
    with (row_end (forever rows)) in *.
  subst c1. cbn [reader]. rewrite rows_read; [|by destruct (andb_prop _ _ Hp)|].
  2:{ pose proof (encoded_length (row_responses (items rows) (row_end (forever rows)))). lia. }
  unfold received, all_rows. cbn [mbind res_bind].
  destruct (collect (items rows)) as [l|e|w]; cbn; [|by eexists|].
  - destruct (forever rows); by eexists.
  - by eexists.
Qed.

(** * Every request *)

Definition client_answer (request : SqlRequest) : M (DbClient (Peer S H)) SqlResponse :=
  match request with
  | ReqExecute query => rs ← client_run exchange query; mret (AnsExecute rs)
  | ReqGetTable table => t ← client_get_table exchange table; mret (AnsGetTable t)
  | ReqListTables => l ← client_list_tables exchange; mret (AnsListTables l)
  | ReqServerStatus => st ← client_server_status exchange; mret (AnsStatus st)
  end.
Definition answer_of (r : res SqlResponse) : res SqlResponse :=
  a ← r;
  match a with AnsExecute rs => rs ← received (Ok rs); Ok (AnsExecute rs) | a => Ok a end.
Definition answered (r : res SqlResponse) : Prop := forallb (λ r, negb (panics r)) (responses r) = true.

Lemma bind_map {A B} (m : M (DbClient (Peer S H)) A) (f : A → B) c r c' : m c = (r, c') →
  (a ← m; mret (f a)) c = ((a ← r; Ok (f a)), c').
Proof. intros E. unfold mbind at 1, M_bind. rewrite E. by destruct r. Qed.

Lemma request_exact request c s r s' : synced c s → handle engine_status id request s = (r, s') → answered r →
  ∃ c', client_answer request c = (answer_of r, c') ∧ synced c' s'.
Proof.
  intros Hc Hh Hr. destruct request as [query|table| |]; cbn [client_answer].
  - destruct (session_execute query s) as [r0 s0] eqn:Hs.
    assert (r = execute_response r0 ∧ s' = s0) as [-> ->].
    { revert Hh. unfold handle, mbind, M_bind. rewrite Hs. destruct r0; by intros [= <- <-]. }
    destruct (run_exact query c s r0 s0 Hc Hs Hr) as (c' & Hrun & Hc' & _). exists c'. split; [|done].
    rewrite (bind_map _ AnsExecute c (received r0) c' Hrun). by destruct r0.
  - assert (match r with Ok (AnsGetTable _) | Err _ | Panic _ => True | _ => False end) as Ht.
    { revert Hh. unfold handle, mbind at 1, M_bind at 1.
      destruct (with_txn_read_only _ s) as [[] ?]; by intros [= <- _]. }
    unfold client_get_table, mbind at 1, M_bind at 1, mbind at 1, M_bind at 1.
    destruct r as [[]|e|w]; try done; (erewrite call_answer by done); by eexists.
  - assert (match r with Ok (AnsListTables _) | Err _ | Panic _ => True | _ => False end) as Ht.
    { revert Hh. unfold handle, mbind at 1, M_bind at 1.
      destruct (with_txn_read_only _ s) as [[] ?]; by intros [= <- _]. }
    unfold client_list_tables, mbind at 1, M_bind at 1, mbind at 1, M_bind at 1.
    destruct r as [[]|e|w]; try done; (erewrite call_answer by done); by eexists.
  - assert (match r with Ok (AnsStatus _) | Err _ | Panic _ => True | _ => False end) as Ht.
    { revert Hh. unfold handle, mbind at 1, M_bind at 1.
      destruct (on_engine _ s) as [[[]| |] ?]; by intros [= <- _]. }
    unfold client_server_status, mbind at 1, M_bind at 1, mbind at 1, M_bind at 1.
    destruct r as [[]|e|w]; try done; (erewrite call_answer by done); by eexists.
Qed.

(** A sequence of requests, by the client and in the session. *)
Fixpoint client_answers (l : list SqlRequest) (c : DbClient (Peer S H))
    : list (res SqlResponse) * DbClient (Peer S H) :=
  match l with
  | [] => ([], c)
  | request :: l =>
      let '(r, c) := client_answer request c in
      let '(rs, c) := client_answers l c in (r :: rs, c)
  end.
Fixpoint session_answers (l : list SqlRequest) (s : Session S H) : list (res SqlResponse) * Session S H :=
  match l with
  | [] => ([], s)
  | request :: l =>
      let '(r, s) := handle engine_status id request s in
      let '(rs, s) := session_answers l s in (r :: rs, s)
  end.

Lemma answers_exact l c s rs s' : synced c s → session_answers l s = (rs, s') → Forall answered rs →
  ∃ c', client_answers l c = (answer_of <$> rs, c') ∧ synced c' s'.
Proof.
  revert c s rs. induction l as [|request l IH]; intros c s rs Hc; cbn [session_answers client_answers].
  - intros [= <- <-] _. by exists c.
  - destruct (handle engine_status id request s) as [r s1] eqn:Hh.
    destruct (session_answers l s1) as [rs1 s2] eqn:Hl. intros [= <- <-] [Hr Hrs]%Forall_cons.
    destruct (request_exact request c s r s1 Hc Hh Hr) as (c1 & -> & Hc1).
    destruct (IH c1 s1 rs1 Hc1 Hl Hrs) as (c2 & -> & Hc2). by exists c2.
Qed.

(** * Transactions *)

(** What a client knows of a transaction. *)
Definition txn_of (h : H) : N * bool := (sql_version h, sql_read_only h).

(** An engine's transactions are what they were begun as. *)
Record begins_as_asked : Prop := {
  begins_write e h e' : sql_begin e = (Ok h, e') → sql_read_only h = false;
  begins_read e h e' : sql_begin_read_only e = (Ok h, e') → sql_read_only h = true;
  begins_as_of v e h e' : sql_begin_as_of v e = (Ok h, e') → sql_read_only h = true ∧ sql_version h = v
}.

Lemma on_engine_txn {A} (m : M S A) (s : Session S H) r s' : on_engine m s = (r, s') → txn s' = txn s.
Proof. unfold on_engine. destruct (m (engine s)). by intros [= _ <-]. Qed.
Lemma with_read_only_txn {A} (f : H → M S A) (s : Session S H) r s' : with_txn_read_only f s = (r, s') → txn s' = txn s.
Proof.
  unfold with_txn_read_only, get_txn, mbind at 1, M_bind at 1. destruct (txn s) eqn:E; intros Hm;
    by rewrite (on_engine_txn _ _ _ _ Hm).
Qed.

Lemma tracked_same r t : (∀ rs, r = Ok rs → about_txn rs = false) → tracked r t = t.
Proof. destruct r as [rs| |]; [|done..]. intros Hr. specialize (Hr rs eq_refl). by destruct rs. Qed.
Lemma on_engine_kind (m : M S ResultSet) (s : Session S H) r s' : yields (λ rs, about_txn rs = false) m →
  on_engine m s = (r, s') → txn_of <$> txn s' = tracked r (txn_of <$> txn s).
Proof.
  intros Hm Hs. rewrite (on_engine_txn _ _ _ _ Hs). symmetry. apply tracked_same. intros rs ->.
  revert Hs. unfold on_engine. destruct (m (engine s)) as [r0 e0] eqn:E. intros [= -> _]. by eapply Hm.
Qed.

Lemma plan_kind h st : yields (λ rs, about_txn rs = false) (node ← build_plan h st; execute_plan h node).
Proof. apply yields_bind. intros n. apply execute_kind. Qed.
Lemma finally_kind h n m : yields (λ rs, about_txn rs = false) (finally (execute_plan h n) m).
Proof.
  intros e rs e'. unfold finally. destruct (execute_plan h n e) as [[a| |] e1] eqn:E; [|by destruct (m e1) as [[] ?]..].
  destruct (m e1) as [[] ?]; try done. intros [= <- _]. by eapply execute_kind.
Qed.
Lemma autocommit_kind st : yields (λ rs, about_txn rs = false) (autocommit st).
Proof.
  unfold autocommit. apply yields_bind. intros h. apply yields_bind. intros n e rs e'.
  unfold commit_or_rollback. destruct (execute_plan h n e) as [[a| |] e1] eqn:E; [| |done].
  - unfold mbind, M_bind. destruct (sql_commit h e1) as [[] ?]; try done. intros [= <- _]. by eapply execute_kind.
  - unfold mbind, M_bind. by destruct (sql_rollback h e1) as [[] ?].
Qed.

Lemma begin_with_txn ro start version (s : Session S H) r s' : txn s = None →
  (∀ e h e', start e = (Ok h, e') → sql_read_only h = ro ∧ sql_version h = version h) →
  begin_with ro start version s = (r, s') → txn_of <$> txn s' = tracked r (txn_of <$> txn s).
Proof.
  intros Hn Hstart. unfold begin_with, mbind, M_bind, on_engine.
  destruct (start (engine s)) as [[h| |] e] eqn:E; intros [= <- <-]; cbn; [|by rewrite Hn..].
  destruct (Hstart _ _ _ E) as [<- <-]. done.
Qed.

(** Ending a transaction with an error. *)
Definition end_fails (st : Statement) (s : Session S H) (r : res ResultSet) (s' : Session S H) : Prop :=
  (st = SCommit ∨ st = SRollback) ∧ is_Some (txn s) ∧ txn s' = None ∧ ∀ rs, r ≠ Ok rs.
Lemma end_txn h (m : M S unit) v (s : Session S H) r s' : txn s = Some h →
  (_ ← set_txn None; _ ← on_engine m; mret (v : ResultSet)) s = (r, s') → (∀ t, tracked (Ok v) t = None) →
  txn_of <$> txn s' = tracked r (txn_of <$> txn s) ∨ (txn s' = None ∧ ∀ rs, r ≠ Ok rs).
Proof.
  intros Hs. unfold mbind, M_bind, set_txn, on_engine. cbn [engine txn].
  destruct (m (engine s)) as [[| |] e]; intros [= <- <-] Hv; cbn [txn]; [left|by right..]. by rewrite Hv.
Qed.

Lemma explain_txn st (s : Session S H) r s' :
  (node ← with_txn_read_only (λ h, build_plan h st); mret (RExplain node)) s = (r, s') →
  txn_of <$> txn s' = tracked r (txn_of <$> txn s).
Proof.
  unfold mbind at 1, M_bind at 1. destruct (with_txn_read_only _ s) as [r0 s0] eqn:E.
  apply with_read_only_txn in E. destruct r0; intros [= <- <-]; by rewrite E.
Qed.

Lemma statement_txn st s r s' : begins_as_asked → execute_statement st s = (r, s') →
  txn_of <$> txn s' = tracked r (txn_of <$> txn s) ∨ end_fails st s r s'.
Proof.
  intros Hb. unfold execute_statement, get_txn, mbind at 1, M_bind at 1.
  destruct (txn s) as [h|] eqn:Ht;
    destruct st as [[] [v|]| | |st| | | | | |]; intros Hs;
    try (injection Hs as <- <-; left; by rewrite Ht);
    try (left; rewrite <-Ht in *; eapply on_engine_kind; [|exact Hs]; apply plan_kind || apply autocommit_kind);
    try (rewrite <-Ht; left; eapply begin_with_txn; [done| |exact Hs]; intros e0 h0 e1 E;
         first [by apply begins_as_of in E | by apply begins_read in E | by apply begins_write in E]).
  - destruct (end_txn _ _ _ _ _ _ Ht Hs ltac:(done)) as [E|[E1 E2]]; [left; by rewrite E, Ht|right].
    split_and!; [by left|by eexists|done..].
  - destruct (end_txn _ _ _ _ _ _ Ht Hs ltac:(done)) as [E|[E1 E2]]; [left; by rewrite E, Ht|right].
    split_and!; [by right|by eexists|done..].
  - left. rewrite <-Ht in *. by eapply explain_txn.
  - left. rewrite <-Ht in *. by eapply explain_txn.
  - left. rewrite <-Ht in *. eapply on_engine_kind; [|exact Hs]. apply yields_bind. intros h.
    apply yields_bind. intros n. apply finally_kind.
Qed.
End protocol.

(** * Engines *)

(** The transactions of the engine over MVCC, and of the one over Raft, are what
    they were begun as. *)
Section begins.
Context {E : Type} `{Engine E, CodecsLaws, Libm, Regex}.

Lemma begin_writes (e : E) h e' : begin e = (Ok h, e') → read_only h = false.
Proof.
  unfold begin. intros Hb. repeat (apply M_bind_Ok_inv in Hb as (? & ? & _ & Hb)). by injection Hb as <- _.
Qed.
Lemma begin_reads v (e : E) h e' : begin_read_only v e = (Ok h, e') →
  read_only h = true ∧ ∀ as_of, v = Some as_of → version h = as_of.
Proof.
  unfold begin_read_only. intros (next & e1 & _ & Hb)%M_bind_Ok_inv. destruct v as [v|].
  - destruct (decide (next ≤ v)); [done|]. repeat (apply M_bind_Ok_inv in Hb as (? & ? & _ & Hb)).
    injection Hb as <- _. split; [done|]. by intros ? [= <-].
  - repeat (apply M_bind_Ok_inv in Hb as (? & ? & _ & Hb)). injection Hb as <- _. split; [done|]. by intros ? [=].
Qed.

Lemma kv_begins : @begins_as_asked E TransactionState kv_engine.
Proof.
  split; cbn.
  - apply begin_writes.
  - intros e h e' Hb. by destruct (begin_reads _ _ _ _ Hb).
  - intros v e h e' Hb. apply begin_reads in Hb as [? Hv]. auto.
Qed.

Lemma recorded_result {A} (s : SqlState E) (m : M E A) a s' : recorded s (m (kv s)) = (Ok a, s') →
  ∃ e', m (kv s) = (Ok a, e').
Proof.
  unfold recorded. destruct (m (kv s)) as [[x|[]|] e]; try done;
    destruct (set_metadata _ _ e) as [[] ?]; try done. intros [= <- _]. eauto.
Qed.
Lemma query_result {A} (s : SqlState E) (m : M E A) a s' : ((m (kv s)).1, s) = (Ok a, s') →
  ∃ e', m (kv s) = (Ok a, e').
Proof. intros [= Hm _]. destruct (m (kv s)) as [r e]. cbn in Hm. subst r. eauto. Qed.
Lemma raft_begins t node : @begins_as_asked (SqlState E) TransactionState (@raft_engine _ (local_client t node) _).
Proof.
  split; cbn.
  - intros s h s' Hb. change (@client_mutate _ (local_client t node) _ TransactionState _ MBegin s = (Ok h, s')) in Hb.
    rewrite (mutate_exact t node MBegin (@sql_begin E _ kv_engine) s eq_refl) in Hb.
    apply recorded_result in Hb as [e' Hb]. exact (begin_writes _ _ _ Hb).
  - intros s h s' Hb. change (@client_query _ (local_client t node) _ TransactionState _ (QBeginReadOnly None) s = (Ok h, s')) in Hb.
    rewrite (query_exact t node (QBeginReadOnly None) (@sql_begin_read_only E _ kv_engine) s eq_refl) in Hb.
    apply query_result in Hb as [e' Hb]. exact (proj1 (begin_reads None (kv s) h e' Hb)).
  - intros v s h s' Hb. change (@client_query _ (local_client t node) _ TransactionState _ (QBeginReadOnly (Some v)) s = (Ok h, s')) in Hb.
    rewrite (query_exact t node (QBeginReadOnly (Some v)) (@sql_begin_as_of E _ kv_engine v) s eq_refl) in Hb.
    apply query_result in Hb as [e' Hb]. destruct (begin_reads (Some v) (kv s) h e' Hb). auto.
Qed.
End begins.
