(* ===== verification/ServerRoute.v ===== *)
(** Routing: a node sends messages to its peers, and to itself only responses for
    its clients, so that the router can deliver each of them; responses reach
    the client that sent the request. *)
From Stdlib Require Import Strings.Byte Strings.String NArith ZArith Lia.
From stdpp Require Import base list gmap strings sorting.
From S2P Require Import Prelude BTreeMap KeyCode Engine Bincode RaftLog RaftLogSpec RaftNode RaftVote.
From S2P Require Import RaftSingle Server.

Open Scope N_scope.

Section addresses.
Context {E : Type} `{Engine E}.
Context `{Bincode (N * option bytes), Bincode (N * N), Bincode (N * option N)}.
Context {St : Type} `{State St}.
Context (rand_timeout : nat → N).
(** The id and the peers of the node. *)
Context (I : N) (P : gset N).

Abbreviation Node := (RawNode (E:=E) (S:=St)).
Implicit Types (n : Node) (f : Follower) (l : Leader) (msg : Envelope).

Definition addressed (e : Envelope) : Prop :=
  to e ∈ P ∨ to e = I ∧ ∃ i r, message e = ClientResponse i r.
Definition member (i : N) : Prop := i ∈ P ∨ i = I.

(** From a node with this id and these peers, the computation sends addressed
    messages only, and its result satisfies [Q]. *)
Definition addr {A} (Q : A → Prop) (m : M Node A) : Prop :=
  ∀ n, id n = I → peers n = P → post m n (λ a n', Q a ∧ id n' = I ∧ peers n' = P ∧
    ∃ out, node_tx n' = node_tx n ++ out ∧ Forall addressed out).

Lemma addr_bind {A B} (R : A → Prop) (Q : B → Prop) (m : M Node A) (k : A → M Node B) :
  addr R m → (∀ a, R a → addr Q (k a)) → addr Q (m ≫= k).
Proof.
  intros Hm Hk n Hi Hp. apply post_bind. eapply post_mono; [by apply Hm|].
  intros a n1 (Ha & Hi1 & Hp1 & out & Ho & Hf). eapply post_mono; [by apply Hk|].
  intros b n2 (Hb & Hi2 & Hp2 & out2 & Ho2 & Hf2). split_and!; [done..|]. exists (out ++ out2).
  rewrite Ho2, Ho, (assoc_L (++)). split; [done|by apply Forall_app].
Qed.
Lemma addr_weaken {A} (Q Q' : A → Prop) m : addr Q m → (∀ a, Q a → Q' a) → addr Q' m.
Proof. intros Hm HQ n Hi Hp. eapply post_mono; [by apply Hm|]. naive_solver. Qed.

(** A computation that touches neither the addresses nor the outbox. *)
Lemma addr_pure {A} (Q : A → Prop) (m : M Node A) :
  (∀ n, id n = I → peers n = P → id (m n).2 = id n ∧ peers (m n).2 = peers n ∧ node_tx (m n).2 = node_tx n ∧
    ∀ a, (m n).1 = Ok a → Q a) → addr Q m.
Proof.
  intros Hm n Hi Hp. unfold post. destruct (Hm n Hi Hp) as (Ei & Ep & Et & HQ).
  destruct (m n) as [[a| |] n']; [|done..]. cbn in *. rewrite Ei, Ep, Et. split_and!; [by auto|done..|].
  exists []. by rewrite app_nil_r.
Qed.
Lemma addr_ret {A} (Q : A → Prop) a : Q a → addr Q (mret a).
Proof. intros Ha. apply addr_pure. intros n _ _. split_and!; [done..|]. by intros ? [= <-]. Qed.
Lemma addr_lift {A} (Q : A → Prop) r : (∀ a, r = Ok a → Q a) → addr Q (lift r).
Proof. intros Ha. by apply addr_pure. Qed.
Lemma addr_asks {A} (g : Node → A) : addr (λ _, True) (asks g).
Proof. by apply addr_pure. Qed.
Lemma addr_id : addr (λ i, i = I) (asks id).
Proof. apply addr_pure. intros n Hi _. split_and!; [done..|]. by intros ? [= <-]. Qed.
Lemma addr_peers : addr (λ ps, ps = P) (asks peers).
Proof. apply addr_pure. intros n _ Hp. split_and!; [done..|]. by intros ? [= <-]. Qed.
Lemma addr_check b why : addr (λ _, b = true) (check b why).
Proof. unfold check. apply addr_lift. by destruct b. Qed.
Lemma addr_on_log {A} (m : M (Log E) A) : addr (λ _, True) (on_log m).
Proof. apply addr_pure. intros n _ _. unfold on_log. by destruct (m (log n)). Qed.
Lemma addr_term t : addr (λ _, True) (update (with_term t)).
Proof. by apply addr_pure. Qed.
Lemma addr_rand : addr (λ _, True) (rand_election_timeout rand_timeout).
Proof. by apply addr_pure. Qed.

Lemma addr_send_peer dest m : dest ∈ P → addr (λ _, True) (send dest m).
Proof.
  intros Hd n Hi Hp. unfold post, send. split_and!; [done..|]. eexists. split; [done|].
  apply Forall_singleton. by left.
Qed.
Lemma addr_answer dest i r : member dest → addr (λ _, True) (send dest (ClientResponse i r)).
Proof.
  intros Hd n Hi Hp. unfold post, send. split_and!; [done..|]. eexists. split; [done|].
  apply Forall_singleton. destruct Hd as [Hd|Hd]; [by left|right]. split; [done|]. by eexists _, _.
Qed.
Lemma addr_for_each {A} (xs : list A) (k : A → M Node unit) :
  (∀ x, x ∈ xs → addr (λ _, True) (k x)) → addr (λ _, True) (for_each xs k).
Proof.
  induction xs as [|x xs IH]; intros Hk; cbn [for_each]; [by apply addr_ret|].
  eapply addr_bind; [apply Hk; set_solver|]. intros _ _. apply IH. intros; apply Hk; set_solver.
Qed.
Lemma addr_broadcast m : addr (λ _, True) (broadcast m).
Proof.
  unfold broadcast. eapply (addr_bind (λ ps, ∀ p, p ∈ ps → p ∈ P)).
  - apply addr_pure. intros n _ <-. split_and!; [done..|]. intros ps [= <-] p Hp.
    rewrite (merge_sort_Permutation N.le (elements (peers n))) in Hp. set_solver.
  - intros ps Hps. apply addr_for_each. intros p Hp. by apply addr_send_peer, Hps.
Qed.
End addresses.

(** Walks an operation of a node. *)
Ltac addr_step :=
  match goal with
  | |- ∀ _, _ => intro
  | |- addr _ _ _ (asks id ≫= _) => eapply addr_bind; [apply addr_id|intros ? ->]
  | |- addr _ _ _ (asks peers ≫= _) => eapply addr_bind; [apply addr_peers|intros ? ->]
  | |- addr _ _ _ (check _ _ ≫= _) => eapply addr_bind; [apply addr_check|intros ? ?]
  | |- addr _ _ _ (_ ≫= _) => eapply (addr_bind _ _ (λ _, True)); [|intros ? _]
  | |- addr _ _ _ (for_each _ _) => apply addr_for_each; intros ? ?
  | |- addr _ _ _ (mret _) => apply addr_ret
  | |- addr _ _ (λ _, True) (lift _) => apply addr_lift; done
  | |- addr _ _ _ (lift (Panic _)) => apply addr_lift; intros ? ?; discriminate
  | |- addr _ _ (λ _, True) (asks _) => apply addr_asks
  | |- addr _ _ (λ _, True) (on_log _) => apply addr_on_log
  | |- addr _ _ (λ _, True) (update (with_term _)) => apply addr_term
  | |- addr _ _ (λ _, True) (rand_election_timeout _) => apply addr_rand
  | |- addr _ _ (λ _, True) (broadcast _) => apply addr_broadcast
  | |- addr _ _ (λ _, True) (check _ _) => eapply addr_weaken; [apply addr_check|done]
  | |- addr _ _ _ (match ?x with _ => _ end) => destruct x
  | |- addr _ _ _ (let '(_, _) := ?x in _) => destruct x
  end.
Ltac addr_tac := repeat (addr_step; try done).
(** The first call of an operation. *)
Ltac addr_next := first [addr_step; [solve [addr_tac]|] | addr_step].

Ltac term_order := match goal with o : TermOrder |- _ => destruct o end.

Section operations.
Context {E : Type} `{Engine E}.
Context `{Bincode (N * option bytes), Bincode (N * N), Bincode (N * option N)}.
Context {St : Type} `{State St}.
Context (rand_timeout : nat → N).
Context (I : N) (P : gset N).

Abbreviation Node := (RawNode (E:=E) (S:=St)).
Abbreviation sends_addressed Q m := (addr (E:=E) (St:=St) I P Q m).
Abbreviation member := (member I P).
Implicit Types (n : Node) (f : Follower) (l : Leader) (msg : Envelope).

(** The clients whose requests a leader holds are known. *)
Definition writes_known (ws : gmap N Write) : Prop := ∀ i w, ws !! i = Some w → member (w_from w).
Definition reads_known (rs : list Read) : Prop := ∀ r, r ∈ rs → member (r_from r).
Definition leader_known l : Prop := writes_known (l_writes l) ∧ reads_known (reads l).
Definition role_known (r : Role) : Prop := match r with RLeader l => leader_known l | _ => True end.

Lemma apply_loop_addr {A} (R : A → Prop) items (on_apply : N → res bytes → A → M Node A) acc :
  (∀ i r a, R a → sends_addressed R (on_apply i r a)) → R acc → sends_addressed R (apply_loop items on_apply acc).
Proof.
  intros Ha. revert acc. induction items as [|item items IH]; intros acc HR; cbn [apply_loop]; [by apply addr_ret|].
  addr_next. addr_step.
  - apply addr_pure. intros n _ _. destruct (apply_entry _ (state n)) as [[|[]|] ?]; done.
  - eapply addr_bind; [by apply Ha|]. intros acc' HR'. by apply IH.
Qed.
Lemma maybe_apply_with_addr {A} (R : A → Prop) (on_apply : N → res bytes → A → M Node A) acc :
  (∀ i r a, R a → sends_addressed R (on_apply i r a)) → R acc → sends_addressed R (maybe_apply_with on_apply acc).
Proof.
  intros Ha HR. unfold maybe_apply_with. do 3 addr_next.
  case_decide; [by apply addr_ret|]. do 2 addr_next. by apply apply_loop_addr.
Qed.
Lemma maybe_apply_addr : sends_addressed (λ _, True) maybe_apply.
Proof. apply maybe_apply_with_addr; [|done]. intros. by apply addr_ret. Qed.

Lemma quorum_addr vs : sends_addressed (λ _, True) (node_quorum_value vs).
Proof. unfold node_quorum_value, cluster_size. addr_tac. Qed.
Lemma quorum_size_addr : sends_addressed (λ _, True) node_quorum_size.
Proof. unfold node_quorum_size, cluster_size. addr_tac. Qed.
Lemma heartbeat_addr l : sends_addressed (λ _, True) (heartbeat l).
Proof. unfold heartbeat. addr_tac. Qed.
Lemma send_log_addr l p : p ∈ P → sends_addressed (λ _, True) (send_log l p).
Proof. intros Hp. unfold send_log. addr_tac. by apply addr_send_peer. Qed.
Lemma propose_addr l c : sends_addressed (λ _, True) (propose l c).
Proof. unfold propose. addr_tac. apply send_log_addr. set_solver. Qed.
Lemma abort_addr d i : member d → sends_addressed (λ _, True) (abort d i).
Proof. apply addr_answer. Qed.

Lemma respond_write_addr i r ws : writes_known ws → sends_addressed writes_known (respond_write i r ws).
Proof.
  intros Hw. unfold respond_write. destruct (ws !! i) as [w|] eqn:Hi; [|by apply addr_ret].
  addr_step; [apply addr_answer; by eapply Hw|]. apply addr_ret. intros j w' Hj.
  apply lookup_delete_Some in Hj as [_ Hj]. by eapply Hw.
Qed.
Lemma maybe_commit_addr l : leader_known l →
  sends_addressed (λ x, leader_known x.2) (maybe_commit_and_apply l).
Proof.
  intros [Hw Hr]. unfold maybe_commit_and_apply. addr_next.
  addr_step; [apply quorum_addr|]. addr_next. case_decide; [by apply addr_ret|].
  do 2 addr_next. addr_step; [|addr_tac]. case_decide; [|by apply addr_ret].
  addr_next. eapply addr_bind; [by apply maybe_apply_with_addr; [apply respond_write_addr|]|].
  intros ws Hws. by apply addr_ret.
Qed.
Lemma read_loop_addr rs c : reads_known rs → sends_addressed reads_known (read_loop rs c).
Proof.
  induction rs as [|r rs IH]; intros Hr; cbn [read_loop]; [by apply addr_ret|].
  case_decide; [by apply addr_ret|]. addr_step.
  { apply addr_pure. intros n _ _. by destruct (read_state _ _). }
  addr_step; [apply addr_answer; apply Hr; set_solver|]. apply IH. intros r' Hr'. apply Hr. set_solver.
Qed.
Lemma maybe_read_addr l : leader_known l → sends_addressed leader_known (maybe_read l).
Proof.
  intros [Hw Hr]. unfold maybe_read. destruct (reads l) as [|r rs] eqn:Hl; [apply addr_ret; split; [done|by rewrite Hl]|].
  addr_step; [apply quorum_addr|]. eapply addr_bind; [by apply read_loop_addr|].
  intros rest Hrest. by apply addr_ret.
Qed.

Lemma assert_node_addr : sends_addressed (λ _, True) assert_node.
Proof. unfold assert_node. addr_tac. Qed.
Lemma assert_step_addr msg : sends_addressed (λ _, from msg = I ∨ from msg ∈ P) (assert_step msg).
Proof.
  unfold assert_step. addr_tac. eapply addr_weaken; [apply addr_check|]. intros _ Hc%bool_decide_eq_true. tauto.
Qed.
Lemma leader_assert_addr : sends_addressed (λ _, True) leader_assert.
Proof. unfold leader_assert. addr_step; [apply assert_node_addr|]. addr_tac. Qed.
Lemma candidate_assert_addr c : sends_addressed (λ _, True) (candidate_assert c).
Proof. unfold candidate_assert. addr_step; [apply assert_node_addr|]. addr_tac. Qed.
Lemma follower_assert_addr f : sends_addressed (λ _, ∀ ld, leader f = Some ld → ld ∈ P) (follower_assert f).
Proof.
  unfold follower_assert. addr_step; [apply assert_node_addr|]. do 3 addr_next.
  eapply (addr_bind _ _ (λ _, ∀ ld, leader f = Some ld → ld ∈ P)).
  - destruct (leader f) as [ld|]; [|eapply addr_weaken; [apply addr_check|done]].
    addr_next. eapply addr_bind; [apply addr_check|]. intros _ Hin%bool_decide_eq_true.
    eapply addr_weaken; [apply addr_check|]. intros _ _ ld' [= <-]. done.
  - intros _ Hld. addr_next. addr_step. eapply addr_bind; [apply addr_check|]. intros _ _.
    by eapply addr_weaken; [apply addr_check|].
Qed.

Lemma follower_new_addr ld vf : sends_addressed (λ f, leader f = ld) (follower_new rand_timeout ld vf).
Proof. unfold follower_new. addr_next. by apply addr_ret. Qed.
Lemma abort_forwarded_addr f : sends_addressed (λ _, True) (abort_forwarded f).
Proof. unfold abort_forwarded. addr_tac. apply abort_addr. by right. Qed.
Lemma follower_into_follower_addr f ld t :
  sends_addressed (λ _, True) (follower_into_follower rand_timeout f ld t).
Proof.
  unfold follower_into_follower. do 2 addr_next. addr_step; [apply abort_forwarded_addr|].
  destruct ld; addr_tac; by eapply addr_weaken; [apply follower_new_addr|].
Qed.
Lemma candidate_into_follower_addr t ld :
  sends_addressed (λ _, True) (candidate_into_follower rand_timeout t ld).
Proof. unfold candidate_into_follower. addr_tac; by eapply addr_weaken; [apply follower_new_addr|]. Qed.
Lemma leader_into_follower_addr l t : leader_known l →
  sends_addressed (λ _, True) (leader_into_follower rand_timeout l t).
Proof.
  intros [Hw Hr]. unfold leader_into_follower. do 3 addr_next. addr_step.
  { apply addr_for_each. intros w Hin%list_elem_of_In. apply abort_addr.
    apply in_map_iff in Hin as ([i w'] & <- & Hin%list_elem_of_In). apply elem_of_map_to_list in Hin. by eapply Hw. }
  addr_step; [apply addr_for_each; intros r Hin; by apply abort_addr, Hr|].
  do 2 addr_next. by eapply addr_weaken; [apply follower_new_addr|].
Qed.
Lemma campaign_addr : sends_addressed (λ _, True) (campaign rand_timeout).
Proof. unfold campaign, candidate_new. addr_tac. Qed.
Lemma into_leader_addr : sends_addressed leader_known into_leader.
Proof.
  unfold into_leader, leader_new. do 2 addr_next.
  eapply (addr_bind _ _ leader_known).
  { addr_next. apply addr_ret. split; cbn; [intros i w Hi; by rewrite lookup_empty in Hi|by intros r Hr%not_elem_of_nil]. }
  intros l Hl. addr_step; [apply heartbeat_addr|]. addr_step; [apply propose_addr|]. by apply addr_ret.
Qed.
Lemma into_candidate_addr f : sends_addressed (λ _, True) (into_candidate rand_timeout f).
Proof.
  unfold into_candidate. addr_step; [apply abort_forwarded_addr|]. addr_step; [apply maybe_apply_addr|].
  addr_step; [unfold candidate_new; addr_tac|]. apply campaign_addr.
Qed.

(** A message to the node: from a peer, or a request of its own clients. *)
Definition sender_ok msg : Prop :=
  from msg ∈ P ∨ from msg = I ∧ ∃ i r, message msg = ClientRequest i r.

Lemma follow_sender_addr f msg : sends_addressed (λ _, True) (follow_sender rand_timeout f msg).
Proof. unfold follow_sender. addr_tac. apply follower_into_follower_addr. Qed.

Lemma sender_peer msg : sender_ok msg → (∀ i r, message msg ≠ ClientRequest i r) → from msg ∈ P.
Proof. intros [?|[_ (i & r & Hm)]] Hn; [done|]. by destruct (Hn i r). Qed.
Lemma sender_member msg : sender_ok msg → member (from msg).
Proof. intros [?|[? _]]; [by left|by right]. Qed.

Lemma follower_handle_addr f msg : sender_ok msg → (∀ ld, leader f = Some ld → ld ∈ P) →
  sends_addressed (λ _, True) (follower_handle rand_timeout f msg).
Proof.
  intros Hs Hld. unfold follower_handle.
  set (f' := if is_leader f (from msg) then _ else f).
  assert (leader f' = leader f) as El by (by subst f'; destruct (is_leader f (from msg))). clearbody f'.
  pose proof (sender_peer msg Hs) as Hp.
  destruct (message msg) as [ci ct rs| |li lt| |bi bt es| |rid req|rid resp] eqn:Em; addr_tac;
    try (apply follow_sender_addr); try (apply maybe_apply_addr);
    try (by apply addr_send_peer, Hp; congruence); try (by apply addr_send_peer, Hld; rewrite <-El);
    try (apply abort_addr; by apply sender_member); try (apply addr_answer; by right).
Qed.

Lemma follower_step_addr fuel f msg : sender_ok msg →
  sends_addressed role_known (follower_step rand_timeout fuel f msg).
Proof.
  intros Hs. revert f. induction fuel as [|fuel IH]; intros f; cbn [follower_step]; [addr_tac|].
  eapply addr_bind; [apply follower_assert_addr|]. intros ? Hld.
  eapply addr_bind; [apply assert_step_addr|]. intros _ _.
  addr_step; [unfold compare_term; addr_tac|]. term_order; [by apply addr_ret|..].
  - addr_step; [apply follower_into_follower_addr|]. apply IH.
  - addr_step; [by apply follower_handle_addr|]. by apply addr_ret.
Qed.

Lemma candidate_step_addr c msg : sender_ok msg →
  sends_addressed role_known (candidate_step rand_timeout c msg).
Proof.
  intros Hs. unfold candidate_step. addr_step; [apply candidate_assert_addr|].
  eapply addr_bind; [apply assert_step_addr|]. intros _ _.
  addr_step; [unfold compare_term; addr_tac|]. term_order; [by apply addr_ret|..].
  - addr_step; [apply candidate_into_follower_addr|]. by apply follower_step_addr.
  - destruct (message msg) as [| | |[]| | |rid req|]; try (by apply addr_ret); try (by addr_tac);
      try (addr_step; [apply candidate_into_follower_addr|]; by apply follower_step_addr).
    + addr_step; [apply quorum_size_addr|]. case_decide; [|by apply addr_ret].
      eapply addr_bind; [apply into_leader_addr|]. intros l Hl. by apply addr_ret.
    + addr_step; [apply abort_addr; by apply sender_member|]. by apply addr_ret.
Qed.

Lemma leader_handle_addr l msg : sender_ok msg → leader_known l →
  sends_addressed leader_known (leader_handle l msg).
Proof.
  intros Hs Hl. unfold leader_handle. pose proof (sender_peer msg Hs) as Hp.
  destruct (message msg) as [|li lt rs| | | |[] li lt|rid [command|command|]|]; try (by addr_tac).
  - addr_next. eapply (addr_bind _ _ leader_known).
    { destruct (progress l !! from msg) as [p|]; [|addr_tac].
      case_decide; [by apply maybe_read_addr|by apply addr_ret]. }
    intros l' Hl'. do 2 addr_next. addr_step; [|by apply addr_ret].
    match goal with b : bool |- _ => destruct b end; [|addr_tac]. apply send_log_addr, Hp. congruence.
  - addr_step; [apply send_log_addr, Hp; congruence|]. by apply addr_ret.
  - addr_next. addr_step. do 2 addr_next. destruct (progress l !! from msg) as [p|]; [|addr_tac].
    case_decide; [|by apply addr_ret]. addr_next. eapply addr_bind; [by apply maybe_commit_addr|].
    intros [? l'] Hl'. by apply addr_ret.
  - eapply (addr_bind _ _ (λ _, True)); [addr_tac|]. intros a _. addr_next. eapply (addr_bind _ _ leader_known).
    { assert (leader_known {| progress := progress l; l_writes := l_writes l;
        reads := reads l ++ [{| seq := a; r_from := from msg; r_id := rid; r_command := command |}];
        read_seq := a; since_heartbeat := since_heartbeat l |}) as Hl'.
      { destruct Hl as [Hw Hr]. split; [done|]. intros r [Hin|Hin%list_elem_of_singleton]%elem_of_app; [by apply Hr|].
        subst r. by apply sender_member. }
      case_decide; [by apply maybe_read_addr|by apply addr_ret]. }
    intros l' Hl'. addr_step; [apply heartbeat_addr|]. by apply addr_ret.
  - eapply (addr_bind _ _ (λ _, True)); [apply propose_addr|]. intros a _. addr_next.
    assert (leader_known (with_writes l (<[a := {| w_from := from msg; w_id := rid |}]> (l_writes l)))) as Hl'.
    { destruct Hl as [Hw Hr]. split; [|done]. cbn. intros i w [[_ <-]|[_ Hi]]%lookup_insert_Some; [by apply sender_member|].
      by eapply Hw. }
    case_decide; [|by apply addr_ret]. eapply addr_bind; [by apply maybe_commit_addr|].
    intros [? l''] Hl''. by apply addr_ret.
  - do 6 addr_next. addr_step; [apply addr_answer; by apply sender_member|]. by apply addr_ret.
Qed.

Lemma leader_step_addr l msg : sender_ok msg → leader_known l →
  sends_addressed role_known (leader_step rand_timeout l msg).
Proof.
  intros Hs Hl. unfold leader_step. addr_step; [apply leader_assert_addr|].
  eapply addr_bind; [apply assert_step_addr|]. intros _ _.
  addr_step; [unfold compare_term; addr_tac|]. term_order; [by apply addr_ret|..].
  - addr_step; [by apply leader_into_follower_addr|]. by apply follower_step_addr.
  - eapply addr_bind; [by apply leader_handle_addr|]. intros l' Hl'. by apply addr_ret.
Qed.

Lemma node_step_addr r msg : sender_ok msg → role_known r →
  sends_addressed role_known (node_step rand_timeout r msg).
Proof.
  intros Hs Hr. destruct r; [by apply candidate_step_addr|by apply follower_step_addr|by apply leader_step_addr].
Qed.

Lemma node_tick_addr r : role_known r → sends_addressed role_known (node_tick rand_timeout r).
Proof.
  intros Hr. destruct r as [c|f|l]; cbn [node_tick].
  - unfold candidate_tick. addr_step; [apply candidate_assert_addr|]. addr_next. case_decide; [|by apply addr_ret].
    addr_step; [apply campaign_addr|]. by apply addr_ret.
  - unfold follower_tick. eapply addr_bind; [apply follower_assert_addr|]. intros _ _. addr_next.
    case_decide; [|by apply addr_ret]. addr_step; [apply into_candidate_addr|]. by apply addr_ret.
  - unfold leader_tick. addr_step; [apply leader_assert_addr|]. addr_next. case_decide; [|by apply addr_ret].
    addr_step; [apply heartbeat_addr|]. by apply addr_ret.
Qed.

Lemma node_new_addr : sends_addressed role_known (node_new rand_timeout).
Proof.
  unfold node_new. addr_next. addr_step. addr_next. addr_step.
  { by eapply addr_weaken; [apply follower_new_addr|]. }
  addr_next. case_decide; [|by apply addr_ret]. addr_step; [apply into_candidate_addr|].
  eapply addr_bind; [apply into_leader_addr|]. intros l Hl. by apply addr_ret.
Qed.
End operations.

(** * The router *)

Section router.
Context {E : Type} `{Engine E}.
Context `{Bincode (N * option bytes), Bincode (N * N), Bincode (N * option N)}.
Context {St : Type} `{State St}.
Context (rand_timeout : nat → N).

Abbreviation Router_ := (Router (E:=E) (St:=St)).
Implicit Types (r : Router_).

(** Every message that waits in the node has a place to go. *)
Record deliverable (i : N) (ps : gset N) r : Prop := {
  dl_id : id (node r) = i;
  dl_peers : peers (node r) = ps;
  dl_tx : Forall (addressed i ps) (node_tx (node r));
  dl_role : role_known i ps (node_role r);
  dl_channels : ∀ p, p ∈ ps → is_Some (peers_tx r !! p)
}.

(** Peers send messages of their own. *)
Definition event_ok (ps : gset N) (e : Event) : Prop :=
  match e with EvPeer msg => from msg ∈ ps | _ => True end.

Lemma expect_node_deliverable i ps m why r r' : addr i ps (role_known i ps) m → deliverable i ps r →
  expect_node m why r = (Ok tt, r') → deliverable i ps r' ∧ response_txs r' = response_txs r ∧ sent r' = sent r.
Proof.
  intros Hm [Hi Hp Ht Hr Hc]. unfold expect_node. specialize (Hm (node r) Hi Hp). unfold post in Hm.
  destruct (m (node r)) as [[role| |] n]; try done. intros [= <-].
  destruct Hm as (Hrole & Hi' & Hp' & out & Ho & Hf). split; [|done].
  split; [done..| |done|done]. cbn. rewrite Ho. by apply Forall_app.
Qed.

Lemma to_peer_deliverable i ps msg r : deliverable i ps r → to msg ∈ ps →
  ∃ r', to_peer msg r = (Ok tt, r') ∧ deliverable i ps r'.
Proof.
  intros Hd Hto. destruct (dl_channels _ _ _ Hd (to msg) Hto) as [queue Hq]. unfold to_peer. rewrite Hq.
  case_decide; eexists; (split; [done|]); [|done]. destruct Hd as [Hi Hp Ht Hr Hc]. split; try done.
  intros p Hp'. cbn. destruct (decide (p = to msg)) as [->|Hne]; [by rewrite lookup_insert_eq|].
  rewrite lookup_insert_ne by done. by apply Hc.
Qed.

Lemma route_out_deliverable i ps msg r : deliverable i ps r → addressed i ps msg →
  ∃ r', route_out msg r = (Ok tt, r') ∧ deliverable i ps r'.
Proof.
  intros Hd Ha. unfold route_out.
  assert (∀ rid response, ∃ r', to_client rid response r = (Ok tt, r') ∧ deliverable i ps r') as Hclient.
  { intros rid response. unfold to_client. destruct (response_txs r !! rid); eexists; (split; [done|]); [|done].
    by destruct Hd. }
  destruct (message msg) eqn:Em; try (apply to_peer_deliverable; [done|]; destruct Ha as [?|[_ (? & ? & ?)]]; congruence).
  case_decide as Hto; [apply Hclient|]. apply to_peer_deliverable; [done|].
  destruct Ha as [?|[Ha _]]; [done|]. by rewrite <-(dl_id _ _ _ Hd) in Ha.
Qed.

Lemma route_node_deliverable i ps r : deliverable i ps r →
  ∃ r', route rand_timeout EvNode r = (Ok tt, r') ∧ deliverable i ps r'.
Proof.
  intros Hd. cbn [route]. destruct (node_tx (node r)) as [|msg rest] eqn:Htx; [by exists r|].
  pose proof (dl_tx _ _ _ Hd) as Ht. rewrite Htx in Ht. apply Forall_cons in Ht as [Hm Ht].
  apply (route_out_deliverable i ps); [|done]. destruct Hd. by split.
Qed.

Lemma route_deliverable i ps e r r' : deliverable i ps r → event_ok ps e →
  route rand_timeout e r = (Ok tt, r') → deliverable i ps r'.
Proof.
  intros Hd He. destruct e as [|msg| |rid request tx|p]; intros Hroute.
  - by eapply expect_node_deliverable; [apply node_tick_addr; apply Hd|done|exact Hroute].
  - eapply expect_node_deliverable; [apply node_step_addr; [|apply Hd]|done|exact Hroute]. by left.
  - destruct (route_node_deliverable i ps r Hd) as (r1 & E1 & Hd1). rewrite E1 in Hroute. by injection Hroute as <-.
  - cbn [route] in Hroute. unfold mbind, M_bind in Hroute. destruct (expect_node _ _ r) as [[[]| |] r1] eqn:E1; try done.
    unfold await in Hroute. injection Hroute as <-.
    eapply expect_node_deliverable in E1 as [Hd1 _]; [|apply node_step_addr; [|apply Hd]|done].
    + destruct Hd1. by split.
    + right. split; [apply Hd|by eexists _, _].
  - injection Hroute as <-. destruct Hd as [Hi Hp Ht Hr Hc]. split; try done. intros q Hq. cbn.
    rewrite lookup_alter. case_decide; [|by apply Hc]. subst q. destruct (Hc p Hq) as [x ->]. by eexists.
Qed.

Lemma server_new_deliverable i ps l s drawn r : server_new rand_timeout i ps l s drawn = Ok r → deliverable i ps r.
Proof.
  unfold server_new. pose proof (node_new_addr rand_timeout i ps (raw_node i ps l s drawn) eq_refl eq_refl) as Hn.
  unfold post in Hn. destruct (node_new rand_timeout (raw_node i ps l s drawn)) as [[role| |] n]; try done. intros [= <-].
  destruct Hn as (Hrole & Hi & Hp & out & Ho & Hf). split; [done|done|by cbn; rewrite Ho|done|].
  intros p Hp'. cbn. exists []. apply lookup_set_to_map; [by intros y y' _ _ [= ->]|]. by exists p.
Qed.

Lemma route_all_deliverable i ps es r r' : Forall (event_ok ps) es → deliverable i ps r →
  route_all rand_timeout es r = (Ok tt, r') → deliverable i ps r'.
Proof.
  intros Hes. revert r. induction Hes as [|e es He Hes IH]; intros r Hd; cbn [route_all]; [by intros [= <-]|].
  unfold mbind, M_bind. destruct (route rand_timeout e r) as [[[]| |] r1] eqn:E1; try done.
  apply IH. by eapply route_deliverable.
Qed.

(** ** Responses *)

(** The requests of clients: their ids and response channels. *)
Definition requests (es : list Event) : list (bytes * N) :=
  es ≫= λ e, match e with EvRequest rid _ tx => [(rid, tx)] | _ => [] end.
Definition sent_ids r : list bytes := (λ x, x.1.1) <$> sent r.

(** Who waits made a request, and responses went to who made the request. *)
Record answers_requests (l : list (bytes * N)) r : Prop := {
  ar_waiting : ∀ rid tx, response_txs r !! rid = Some tx → (rid, tx) ∈ l;
  ar_sent : ∀ rid tx response, (rid, tx, response) ∈ sent r → (rid, tx) ∈ l;
  ar_once : NoDup (sent_ids r);
  ar_done : ∀ rid, rid ∈ sent_ids r → response_txs r !! rid = None
}.

Lemma answers_requests_same l r r' : response_txs r' = response_txs r → sent r' = sent r →
  answers_requests l r → answers_requests l r'.
Proof. intros E1 E2 []. split; unfold sent_ids in *; rewrite ?E1, ?E2; done. Qed.

Lemma expect_node_same m why r r' x : expect_node m why r = (x, r') →
  response_txs r' = response_txs r ∧ sent r' = sent r.
Proof. unfold expect_node. destruct (m (node r)) as [[] ?]; by intros [= _ <-]. Qed.
Lemma to_peer_same msg r : response_txs (to_peer msg r).2 = response_txs r ∧ sent (to_peer msg r).2 = sent r.
Proof. unfold to_peer. destruct (peers_tx r !! to msg); [|done]. by case_decide. Qed.

Lemma to_client_answers l rid response r : answers_requests l r → answers_requests l (to_client rid response r).2.
Proof.
  intros Ha. unfold to_client. destruct (response_txs r !! rid) as [tx|] eqn:Hw; [|done].
  destruct Ha as [Hwait Hsent Honce Hdone]. split; unfold sent_ids in *; cbn.
  - intros rid' tx' [_ Hl]%lookup_delete_Some. by apply Hwait.
  - intros rid' tx' response' [Hin|Hin%list_elem_of_singleton]%elem_of_app; [by eapply Hsent|].
    injection Hin as -> -> ->. by apply Hwait.
  - rewrite fmap_app. apply NoDup_app. split_and!; [done| |apply NoDup_singleton].
    intros rid' Hin ->%list_elem_of_singleton. specialize (Hdone _ Hin). cbn in Hdone. congruence.
  - intros rid'. rewrite fmap_app. intros [Hin|Hin%list_elem_of_singleton]%elem_of_app.
    + apply lookup_delete_None. right. by apply Hdone.
    + subst rid'. cbn. by rewrite lookup_delete_eq.
Qed.

Lemma route_answers l e r r' x : answers_requests l r → (∀ rid, rid ∈ (requests [e]).*1 → rid ∉ l.*1) →
  route rand_timeout e r = (x, r') → answers_requests (l ++ requests [e]) r'.
Proof.
  intros Ha Hnew Hroute. assert (∀ l', answers_requests l r' → answers_requests (l ++ l') r') as Hmono.
  { intros l' [Hw Hs Ho Hd]. split; [..|done|done].
    - intros rid tx Hl. apply elem_of_app. left. by apply Hw.
    - intros rid tx response Hin. apply elem_of_app. left. by eapply Hs. }
  destruct e as [|msg| |rid request tx|p]; cbn [route] in Hroute.
  - apply Hmono. apply expect_node_same in Hroute as [E1 E2]. by apply (answers_requests_same l r).
  - apply Hmono. apply expect_node_same in Hroute as [E1 E2]. by apply (answers_requests_same l r).
  - apply Hmono. destruct (node_tx (node r)) as [|msg rest]; [by injection Hroute as _ <-|].
    set (r1 := with_node _ _ r) in Hroute.
    assert (answers_requests l r1) as Ha1 by (by apply (answers_requests_same l r)).
    unfold route_out in Hroute. pose proof (to_peer_same msg r1) as [E1 E2].
    assert (answers_requests l (to_peer msg r1).2) as Hpeer by (by apply (answers_requests_same l r1)).
    destruct (message msg) as [| | | | | | |rid response]; try (rewrite Hroute in Hpeer; exact Hpeer).
    case_decide; [|rewrite Hroute in Hpeer; exact Hpeer].
    pose proof (to_client_answers l rid response r1 Ha1) as Hc. by rewrite Hroute in Hc.
  - cbn [requests mbind list_bind app] in *. unfold mbind, M_bind in Hroute.
    destruct (expect_node _ _ r) as [[[]| |] r1] eqn:E1; apply expect_node_same in E1 as [E1 E2];
      [|by injection Hroute as _ <-; apply Hmono, (answers_requests_same l r)..].
    assert (answers_requests l r1) as [Hw Hs Ho Hd] by (by apply (answers_requests_same l r)).
    unfold await in Hroute. injection Hroute as _ <-.
    assert (rid ∉ l.*1) as Hrid by (apply Hnew; cbn; set_solver).
    split; unfold sent_ids in *; cbn.
    + intros rid' tx' [[-> ->]|[_ Hl]]%lookup_insert_Some; apply elem_of_app; [right; cbn; set_solver|left; by apply Hw].
    + intros rid' tx' response Hin. apply elem_of_app. left. by eapply Hs.
    + done.
    + intros rid' Hin. rewrite lookup_insert_ne; [by apply Hd|]. intros <-. apply Hrid.
      apply list_elem_of_fmap in Hin as ([[rid1 tx1] resp1] & -> & Hin). apply list_elem_of_fmap.
      exists (rid1, tx1). split; [done|]. by eapply Hs.
  - apply Hmono. injection Hroute as _ <-. by apply (answers_requests_same l r).
Qed.

Lemma requests_cons e es : requests (e :: es) = requests [e] ++ requests es.
Proof. unfold requests. cbn. by rewrite app_nil_r. Qed.

Lemma route_all_answers l es r r' x : answers_requests l r → NoDup (l ++ requests es).*1 →
  route_all rand_timeout es r = (x, r') → ∃ l', l ++ l' ⊆ l ++ requests es ∧ answers_requests (l ++ l') r'.
Proof.
  revert l r. induction es as [|e es IH]; intros l r Ha Hnd; cbn [route_all].
  - intros [= _ <-]. exists []. rewrite app_nil_r. split; [|done]. by rewrite app_nil_r.
  - unfold mbind, M_bind. destruct (route rand_timeout e r) as [y r1] eqn:E1. intros Hroute.
    rewrite requests_cons in Hnd |- *.
    assert (answers_requests (l ++ requests [e]) r1) as Ha1.
    { eapply route_answers; [done| |exact E1]. intros rid Hin Hl. rewrite !fmap_app in Hnd.
      apply NoDup_app in Hnd as (_ & Hd & _). apply (Hd rid Hl). apply elem_of_app. by left. }
    rewrite (assoc_L (++)) in Hnd. destruct y as [[]|e'|w].
    + destruct (IH _ _ Ha1 Hnd Hroute) as (l' & Hl & Ha'). exists (requests [e] ++ l').
      rewrite !(assoc_L (++)). done.
    + injection Hroute as _ <-. exists (requests [e]). split; [|done]. rewrite (assoc_L (++)). set_solver.
    + injection Hroute as _ <-. exists (requests [e]). split; [|done]. rewrite (assoc_L (++)). set_solver.
Qed.
End router.

(** * A server without peers *)

Section single.
Context {E : Type} `{EngineLaws E}.
Context `{BincodeLaws (N * option bytes), BincodeLaws (N * N), BincodeLaws (N * option N)}.
Context {St : Type} `{StateLaws St}.
Context (rand_timeout : nat → N).
Context (unlimited : ∀ k v, eng_writable (E:=E) k v).

Abbreviation Router_ := (Router (E:=E) (St:=St)).
Implicit Types (r : Router_).

(** The id, the channel and the answer of a request. *)
Abbreviation Answer := (bytes * N * res Response)%type.

(** The answers to the requests among events, by the machine, up to a request
    that fails. *)
Fixpoint machine_answers (t : N) (es : list Event) (m : Machine St) : list Answer * res (Machine St) :=
  match es with
  | [] => ([], Ok m)
  | EvRequest rid request tx :: es =>
      match machine_execute t request m with
      | (Ok response, m) => let '(l, out) := machine_answers t es m in ((rid, tx, response) :: l, out)
      | (Err e, _) => ([], Err e)
      | (Panic w, _) => ([], Panic w)
      end
  | _ :: es => machine_answers t es m
  end.

(** The server serves the machine [m]; the answers [q] are on their way, and
    [k] more requests may come. *)
Record serving (t : N) (m : Machine St) (q : list Answer) (k : N) r : Prop := {
  sv_leader : ∃ l a, node_role r = RLeader l ∧ leads (node r) l a ∧ machine_of (node r) a = m ∧
    read_seq l + k ≤ u64_max;
  sv_term : term (node r) = t;
  sv_tx : node_tx (node r) = (λ x, client_answer (node r) x.1.1 x.2) <$> q;
  sv_waiting : response_txs r = list_to_map (fst <$> q);
  sv_ids : NoDup (fst <$> (fst <$> q));
  sv_last : m_last m + k ≤ u64_max
}.

(** What events may happen, and requests have new ids. *)
Definition local_event (e : Event) : bool :=
  match e with EvPeer _ | EvRequest _ ReqStatus _ => false | _ => true end.

Lemma answer_next t m x q k r : serving t m (x :: q) k r → ∃ r',
  route rand_timeout EvNode r = (Ok tt, r') ∧ serving t m q k r' ∧ sent r' = sent r ++ [x].
Proof.
  intros [(l & a & Hrole & Hl & Hm & Hk) Ht Htx Hw Hnd Hlast]. destruct x as [[rid tx] response].
  cbn [route]. rewrite Htx. cbn [fmap list_fmap fst snd]. unfold route_out. cbn [client_answer message to].
  cbn [node with_node take_tx id]. rewrite decide_True by done. unfold to_client. cbn [response_txs with_node].
  rewrite Hw. cbn [fmap list_fmap fst snd]. rewrite list_to_map_cons, lookup_insert_eq.
  eexists. split; [done|]. split; [|done].
  cbn [fmap list_fmap fst] in Hnd. apply NoDup_cons in Hnd as [Hnew Hnd].
  split; cbn; try done.
  - exists l, a. split_and!; [done| |done|done]. by destruct Hl; split.
  - rewrite delete_insert_id; [done|]. apply not_elem_of_list_to_map. by cbn in Hnew.
Qed.

(** A tick changes nothing that clients see. *)
Lemma tick_serving t m q k r : serving t m q k r → ∃ r',
  route rand_timeout EvTick r = (Ok tt, r') ∧ serving t m q k r' ∧ sent r' = sent r.
Proof.
  intros [(l & a & Hrole & Hl & Hm & Hk) Ht Htx Hw Hnd Hlast]. cbn [route]. unfold expect_node. rewrite Hrole.
  destruct (tick_leads rand_timeout (node r) l a Hl) as (l' & -> & Hl' & Hrs). eexists. split; [done|].
  split; [|done]. split; cbn; try done. exists l', a. by rewrite Hrs.
Qed.

Lemma serving_weaken t m q k k' r : k' ≤ k → serving t m q k r → serving t m q k' r.
Proof. intros Hk [(l & a & ? & ? & ? & ?) ?????]. split; try done; [|lia]. exists l, a. split_and!; [done..|lia]. Qed.

(** A request is answered as the machine answers it. *)
Lemma request_serving t m q k r rid request tx response m' : serving t m q (k + 1) r → request ≠ ReqStatus →
  rid ∉ (fst <$> (fst <$> q)) → machine_execute t request m = (Ok response, m') → ∃ r',
  route rand_timeout (EvRequest rid request tx) r = (Ok tt, r') ∧
  serving t m' (q ++ [(rid, tx, response)]) k r' ∧ sent r' = sent r.
Proof.
  intros [(l & a & Hrole & Hl & Hm & Hk) Ht Htx Hw Hnd Hlast] Hreq Hrid Hx.
  assert (served rand_timeout (node r) l a rid request) as Hs.
  { subst m. cbn [machine_of m_last] in Hlast. destruct request; [by apply read_served; [done|lia]
      |by apply write_served; [done..|lia]|done]. }
  unfold served in Hs. rewrite Ht, Hm, Hx in Hs.
  destruct Hs as (n' & l' & a' & Hstep & Hl' & Hm' & Hrs & Hi & Ht' & Htx').
  cbn [route]. unfold mbind, M_bind, expect_node. rewrite Hrole.
  change {| from := id (node r); to := id (node r); msg_term := term (node r); message := ClientRequest rid request |}
    with (client_message (node r) rid request). rewrite Hstep. unfold await. eexists. split; [done|]. split; [|done].
  assert (m_last m' ≤ m_last m + 1) as Hlast'.
  { revert Hx. destruct request; cbn; [by intros [= _ <-]; lia| |done].
    destruct (apply_all _ _ _) as [[]]; intros [= _ <-]; cbn; lia. }
  split; cbn [node with_response_txs with_node node_role response_txs].
  - exists l', a'. split_and!; [done..|lia].
  - congruence.
  - rewrite Htx', Htx, fmap_app. unfold client_answer. by rewrite Hi, Ht', Ht.
  - rewrite Hw, fmap_app. cbn. rewrite list_to_map_snoc; [done|]. done.
  - rewrite !fmap_app. apply NoDup_app. split_and!; [done| |apply NoDup_singleton].
    intros x Hin ->%list_elem_of_singleton. by apply Hrid.
  - lia.
Qed.

(** A request that fails in the machine ends the server. *)
Lemma request_fails t m q k r rid request tx x : serving t m q (k + 1) r → request ≠ ReqStatus →
  (machine_execute t request m).1 = x → (∀ response, x ≠ Ok response) → ∃ w r',
  route rand_timeout (EvRequest rid request tx) r = (Panic w, r') ∧ sent r' = sent r.
Proof.
  intros [(l & a & Hrole & Hl & Hm & Hk) Ht Htx Hw Hnd Hlast] Hreq Hx Hfail.
  assert (served rand_timeout (node r) l a rid request) as Hs.
  { subst m. cbn [machine_of m_last] in Hlast. destruct request; [by apply read_served; [done|lia]
      |by apply write_served; [done..|lia]|done]. }
  unfold served in Hs. rewrite Ht, Hm in Hs. cbn [route]. unfold mbind, M_bind, expect_node. rewrite Hrole.
  change {| from := id (node r); to := id (node r); msg_term := term (node r); message := ClientRequest rid request |}
    with (client_message (node r) rid request).
  destruct (machine_execute t request m) as [[response|e|w] m1]; cbn in Hx; subst x; [by destruct (Hfail response)|..];
    destruct Hs as (n' & ->); by eexists _, _.
Qed.

(** Events, with the answers in the order of the requests. *)
Definition count_requests (es : list Event) : N := N.of_nat (length (requests es)).

(** What happens to the server, for what happens to the machine. *)
Definition outcome (t : N) (sent_before l : list Answer) (out : res (Machine St)) (run : res unit * Router_) : Prop :=
  match out with
  | Ok m => ∃ q, run.1 = Ok tt ∧ serving t m q 0 run.2 ∧ sent run.2 ++ q = sent_before ++ l
  | _ => (∃ w, run.1 = Panic w) ∧ sent run.2 `prefix_of` sent_before ++ l
  end.

Lemma serve_events t es m q r l out : Forall (λ e, local_event e = true) es →
  NoDup ((fst <$> (fst <$> q)) ++ (requests es).*1) → serving t m q (count_requests es) r →
  machine_answers t es m = (l, out) → outcome t (sent r ++ q) l out (route_all rand_timeout es r).
Proof.
  intros Hes. revert m q r l. induction Hes as [|e es He Hes IH]; intros m q r l Hnd Hr Hm.
  - injection Hm as <- <-. exists q. rewrite app_nil_r. done.
  - cbn [route_all]. rewrite requests_cons in Hnd.
    assert (∀ m1 q1 l1 r', route rand_timeout e r = (Ok tt, r') → serving t m1 q1 (count_requests es) r' →
      NoDup ((fst <$> (fst <$> q1)) ++ (requests es).*1) → machine_answers t es m1 = (l1, out) →
      sent r' ++ q1 ++ l1 = sent r ++ q ++ l →
      outcome t (sent r ++ q) l out ((_ ← route rand_timeout e; route_all rand_timeout es) r)) as Hnext.
    { intros m1 q1 l1 r' Hroute Hr' Hnd' Hm' Heq. erewrite M_bind_Ok by exact Hroute.
      pose proof (IH m1 q1 r' l1 Hnd' Hr' Hm') as Hout. unfold outcome in *.
      rewrite <-(assoc_L (++)), Heq, (assoc_L (++)) in Hout. exact Hout. }
    destruct e as [|msg| |rid request tx|p]; try done; cbn [machine_answers requests mbind list_bind app] in *.
    + destruct (tick_serving t m q _ r Hr) as (r1 & Hroute & Hr1 & Hsent). eapply Hnext; [done..|congruence].
    + destruct q as [|x q].
      * eapply (Hnext m [] l r); [|done..]. cbn [route]. by rewrite (sv_tx _ _ _ _ _ Hr).
      * destruct (answer_next t m x q _ r Hr) as (r1 & Hroute & Hr1 & Hsent).
        eapply (Hnext m q l); [done..| |done|]; [|by rewrite Hsent, <-(assoc_L (++))].
        cbn in Hnd. by apply NoDup_cons in Hnd as [_ Hnd].
    + assert (request ≠ ReqStatus) as Hreq by (by destruct request).
      assert (serving t m q (count_requests es + 1) r) as Hr1.
      { eapply serving_weaken; [|exact Hr]. unfold count_requests. rewrite requests_cons, length_app. cbn. lia. }
      destruct (machine_execute t request m) as [x m1] eqn:Hx. destruct x as [response|e|w].
      2,3: injection Hm as <- <-;
        (destruct (request_fails t m q (count_requests es) r rid request tx _ Hr1 Hreq (f_equal fst Hx))
           as (w' & r' & Hroute & Hsent); [done|]);
        unfold mbind, M_bind; rewrite Hroute; (split; [by eexists|]); cbn [snd]; rewrite Hsent, app_nil_r; by apply prefix_app_r.
      destruct (machine_answers t es m1) as [l1 out1] eqn:Hm1. injection Hm as <- <-.
      destruct (request_serving t m q (count_requests es) r rid request tx response m1 Hr1 Hreq)
        as (r1 & Hroute & Hr1' & Hsent); [|done|].
      * intros Hin. apply NoDup_app in Hnd as (_ & Hd & _). apply (Hd rid Hin). cbn. set_solver.
      * eapply (Hnext m1 (q ++ [(rid, tx, response)]) l1); [done..| |done|].
        -- rewrite !fmap_app. cbn. rewrite <-(assoc_L (++)). cbn. by rewrite fmap_cons in Hnd.
        -- rewrite Hsent. by rewrite <-!(assoc_L (++)).
    + eapply (Hnext m q l); [by cbn [route]| |done..]. destruct Hr as [(l0 & a & ?) ?????]. split; try done. by exists l0, a.
Qed.

(** The machine that does not fail answers every request. *)
Lemma answers_all t es m l m' : machine_answers t es m = (l, Ok m') → (requests es).*1 = (fst ∘ fst <$> l).
Proof.
  revert m l. induction es as [|e es IH]; intros m l; [by intros [= <- _]|]. rewrite requests_cons, fmap_app.
  destruct e as [|msg| |rid request tx|p]; cbn [machine_answers]; try (intros Hm; by apply IH in Hm as ->).
  destruct (machine_execute t request m) as [[response|e|w] m1]; [|done..].
  destruct (machine_answers t es m1) as [l1 out] eqn:Hm1. intros [= <- ->]. by rewrite (IH _ _ Hm1).
Qed.

(** The answers that are on their way arrive. *)
Lemma drain t m q k r : serving t m q k r → ∃ r',
  route_all rand_timeout (repeat EvNode (length q)) r = (Ok tt, r') ∧ serving t m [] k r' ∧ sent r' = sent r ++ q.
Proof.
  revert r. induction q as [|x q IH]; intros r Hr; [exists r; by rewrite app_nil_r|].
  destruct (answer_next t m x q k r Hr) as (r1 & Hroute & Hr1 & Hsent).
  destruct (IH r1 Hr1) as (r2 & Hrun & Hr2 & Hs2). exists r2. cbn [length repeat route_all].
  erewrite M_bind_Ok by exact Hroute. split_and!; [done..|]. by rewrite Hs2, Hsent, <-(assoc_L (++)).
Qed.

(** The start of a server without peers. *)
Lemma server_starts i (lg : Log E) a (st : St) drawn k : log_rep lg a → a_commit_index a ≤ a_length a →
  a_length a + 1 + k ≤ u64_max → (default (0, None) (a_vote a)).1 < u64_max → get_applied_index st = a_commit_index a →
  let t := (default (0, None) (a_vote a)).1 + 1 in
  ∃ r, server_new rand_timeout i ∅ lg st drawn = Ok r ∧ sent r = [] ∧
    serving t {| m_state := st; m_pending := uncommitted a ++ [mk_entry (a_length a + 1) (t, None)];
                 m_last := a_length a + 1 |} [] k r.
Proof.
  intros Hl Hc Hlen Hterm Hs t.
  destruct (single_starts rand_timeout unlimited i lg a st drawn Hl Hc) as (n & l & a' & Hnew & Hleads & Htx & Hi & Ht & Hrs & Hm);
    [lia|done..|].
  unfold server_new. rewrite Hnew. eexists. split; [done|]. split; [done|].
  split; cbn [node node_role response_txs]; [|done..|constructor|cbn; lia].
  exists l, a'. rewrite Hrs. split_and!; [done..|lia].
Qed.
End single.
