(* ===== verification/ServerClaims.v ===== *)
(** The client and the server: the answers that a client gets, the transaction
    that it tracks, and what its retries miss. *)
From Stdlib Require Import Strings.Byte Strings.String NArith ZArith Lia.
From stdpp Require Import base list gmap countable strings.
From S2P Require Import Prelude BTreeMap KeyCode Engine Memory Bincode Mvcc RaftLog RaftLogSpec RaftNode SqlTypes.
From S2P Require Import SqlExpression SqlSchema SqlKv SqlPlan SqlExec SqlAggregate SqlExecutor SqlAst SqlLexer.
From S2P Require Import SqlParser SqlPlanner SqlSession SqlStatementPrint SqlParserClaims SqlRaft.
From S2P Require Import SqlRaftSpec RaftSingle Server DbClient ServerSpec ServerRoute.

Open Scope N_scope.

Section protocol.
Context {S H : Type} `{SqlEngine S H} `{Libm, Regex, UnicodeLaws}.
Context `{StreamLaws SqlRequest, StreamLaws (res SqlResponse)}.
Context (engine_status : M S (RaftStatus * MvccStatus)) (gen_range : nat → N → N → N) (id : N).
Implicit Types (c : DbClient (Peer S H)) (s : Session S H).

Abbreviation client_run_ := (client_run (exchange engine_status id)).
Abbreviation with_retry_ := (with_retry (exchange engine_status id) gen_range).

(** C8. A client that is connected to a session of the server gets, for every
    sequence of requests (queries, table schemas, table names, status), exactly
    what the session answers to them, through the encoded requests and responses
    on the connection: the rows of a query in order, or the first error of its
    rows, and after each answer nothing is left on the connection. *)
Theorem protocol_exact l c s rs s' : synced c s → session_answers engine_status id l s = (rs, s') →
  Forall answered rs →
  ∃ c', client_answers engine_status id l c = (answer_of <$> rs, c') ∧ synced c' s'.
Proof. apply answers_exact. Qed.

(** C9. For a query that does not panic, on an engine that begins transactions
    as they are asked for (as both engines do), the transaction that a client
    believes to be open after the query is the one that is open in its session;
    the only exception is a query that is parsed as COMMIT or ROLLBACK and
    returns an error, which ends the transaction of the session but not that of
    the client. *)
Theorem txn_tracked query c s r s' : begins_as_asked → synced c s → client_txn c = txn_of <$> txn s →
  session_execute query s = (r, s') → completes r →
  ∃ c', client_run_ query c = (received r, c') ∧ synced c' s' ∧
    (client_txn c' = txn_of <$> txn s' ∨
     (parse query = Ok SCommit ∨ parse query = Ok SRollback) ∧
       is_Some (txn s) ∧ txn s' = None ∧ client_txn c' = client_txn c ∧ ∃ e, r = Err e).
Proof.
  intros Hb Hc Ht Hs Hr. destruct (run_exact engine_status id query c s r s' Hc Hs Hr) as (c' & Hrun & Hc' & Htxn).
  exists c'. split_and!; [done..|]. rewrite Htxn. assert (tracked (received r) (client_txn c) = tracked r (client_txn c)) as ->.
  { destruct r as [rs| |]; [|done..]. destruct rs; try done. cbn. by destruct (all_rows rows). }
  unfold session_execute, mbind, M_bind, lift in Hs. destruct (parse query) as [st|e|w].
  - destruct (statement_txn st s r s' Hb Hs) as [E|(Hst & Hsome & Hn & He)]; [left; by rewrite Ht, E|].
    right. destruct r as [rs|e|w]; [by destruct (He rs)| |done]. split_and!; [|by eauto..].
    destruct Hst as [-> | ->]; [by left|by right].
  - injection Hs as <- <-. by left.
  - by injection Hs as <- <-.
Qed.

Lemma commit_aborts s h e' : txn s = Some h → sql_commit h (engine s) = (Err EAbort, e') →
  session_execute (str (text "COMMIT")) s = (Err EAbort, {| engine := e'; txn := None |}).
Proof.
  intros Hs Hc. unfold session_execute. rewrite (parse_keyword KwCommit SCommit) by done.
  unfold execute_statement, get_txn, set_txn, on_engine, mbind, M_bind, lift. rewrite Hs. cbn [engine]. by rewrite Hc.
Qed.
Lemma no_txn_rollback s : txn s = None →
  session_execute rollback_query s = (value_error "Not in a transaction" [], s).
Proof.
  intros Hs. unfold session_execute, rollback_query. rewrite (parse_keyword KwRollback SRollback) by done.
  unfold execute_statement, get_txn, mbind, M_bind, lift. by rewrite Hs.
Qed.

(** When the COMMIT at the end of a retried closure is aborted, with_retry does
    not retry, although it documents that it retries aborts: the session has no
    transaction any more but the client still has, so the ROLLBACK that it sends
    fails, and its error is returned. *)
Theorem aborted_commit_not_retried body c c1 s h e' : body c = (Ok tt, c1) → synced c1 s →
  txn s = Some h → client_txn c1 = Some (txn_of h) → sql_commit h (engine s) = (Err EAbort, e') →
  ∃ c2, with_retry_ (_ ← body; client_run_ (str (text "COMMIT"))) c
    = (value_error "Not in a transaction" [], c2) ∧ client_txn c2 = Some (txn_of h).
Proof.
  intros Hbody Hc Hs Ht Hcommit.
  destruct (run_exact engine_status id _ c1 s _ _ Hc (commit_aborts s h e' Hs Hcommit) eq_refl) as (c2 & Hrun & Hc2 & Ht2).
  destruct (run_exact engine_status id _ c2 _ _ _ Hc2 (no_txn_rollback {| engine := e'; txn := None |} eq_refl) eq_refl)
    as (c3 & Hrb & _ & Ht3).
  exists c3. cbn in Ht2, Ht3. rewrite Ht in Ht2. split; [|congruence].
  unfold with_retry. change (N.to_nat MAX_RETRIES) with 10%nat. cbn [retry_loop].
  unfold mbind at 1, M_bind at 1. rewrite Hbody, Hrun. cbn [received mbind res_bind retryable].
  unfold get_client_txn, mbind at 1, M_bind at 1. rewrite Ht2.
  unfold mbind at 1, M_bind at 1, mbind at 1, M_bind at 1. by rewrite Hrb.
Qed.
End protocol.

(** * Routing *)

Section router.
Context {E : Type} `{Engine E}.
Context `{Bincode (N * option bytes), Bincode (N * N), Bincode (N * option N)}.
Context {St : Type} `{State St}.
Context (rand_timeout : nat → N).

(** C10. From the start of a server, whatever ticks, messages of peers and
    requests of clients arrive, every message of the node has a destination
    (routing it never panics), each response goes to the channel of the request
    that it answers, and each request gets at most one. *)
Theorem router_exact i ps (l : Log E) (st : St) drawn es r0 r :
  server_new rand_timeout i ps l st drawn = Ok r0 → Forall (event_ok ps) es → NoDup (requests es).*1 →
  route_all rand_timeout es r0 = (Ok tt, r) →
  (∃ r', route rand_timeout EvNode r = (Ok tt, r')) ∧
  (∀ rid tx response, (rid, tx, response) ∈ sent r → (rid, tx) ∈ requests es) ∧
  NoDup (sent_ids r).
Proof.
  intros Hnew Hes Hnd Hrun. split.
  - pose proof (server_new_deliverable _ _ _ _ _ _ _ Hnew) as Hd.
    pose proof (route_all_deliverable _ _ _ _ _ _ Hes Hd Hrun) as Hd'.
    destruct (route_node_deliverable rand_timeout i ps r Hd') as (r' & Hr & _). by exists r'.
  - assert (answers_requests [] r0) as Ha.
    { revert Hnew. unfold server_new. destruct (node_new _ _) as [[] ?]; try done. intros [= <-].
      split; cbn; [by intros rid tx; rewrite lookup_empty|by intros ? ? ? ?%not_elem_of_nil|constructor|done]. }
    destruct (route_all_answers rand_timeout [] es r0 r (Ok tt) Ha Hnd Hrun) as (l' & Hl & [_ Hs Ho _]).
    split; [|done]. intros rid tx response Hin. apply Hl. by eapply Hs.
Qed.
End router.

(** ** A server without peers *)

Section single.
Context {E : Type} `{EngineLaws E}.
Context `{BincodeLaws (N * option bytes), BincodeLaws (N * N), BincodeLaws (N * option N)}.
Context (rand_timeout : nat → N).
Context (unlimited : ∀ k v, eng_writable (E:=E) k v).


(** *** The SQL engine *)

Context `{Codecs, Libm, Regex}.
(** bincode's errors become internal errors (src/src/error.rs). *)
Context (decode_error : ∀ b e, bin_deserialize (A:=Mutation) b = Err e → ∃ m, e = EInternal m).

Lemma record_counts i r (s : SqlState E) : applied_index (record_applied i r s).2 = i.
Proof.
  unfold record_applied, on_kv, mbind, M_bind. cbn. by destruct (set_metadata _ _ _) as [[]].
Qed.
#[local] Instance sql_state_laws : StateLaws (SqlState E).
Proof.
  intros e s. cbn [apply_entry get_applied_index sql_state]. unfold state_apply. case_decide; [|done].
  destruct (command e) as [c|]; [|intros _; apply record_counts].
  destruct (bin_deserialize c) as [m|err|w] eqn:Hd; [|by destruct (decode_error _ _ Hd) as (? & ->)|done].
  destruct (on_kv (state_mutate m) s) as [[b|[]|w] s1]; try done; intros _; apply record_counts.
Qed.

(** [Client::execute] of the SQL engine, at the server: the request goes to the
    node with a fresh id, and the answer is awaited. *)
Abbreviation Router_ := (Router (E:=E) (St:=SqlState E)).
Definition server_client (uuid : Router_ → bytes) : Client Router_ := λ request r,
  match (_ ← route rand_timeout (EvRequest (uuid r) request 0); route rand_timeout EvNode) r with
  | (Ok _, r) =>
      (match last (sent r) with Some (_, _, response) => response | None => Panic "no response" end, r)
  | (Err e, r) => (Err e, r)
  | (Panic w, r) => (Panic w, r)
  end.

(** The server serves the state [s], and has nothing left to apply or to send. *)
Definition settled (t : N) (s : SqlState E) (k : N) (r : Router_) : Prop :=
  serving t {| m_state := s; m_pending := []; m_last := applied_index s |} [] k r.

(** Answers that end the node: a panic, or a write that fails inside. *)
Definition ends_node (request : Request) (response : res Response) : bool :=
  match request, response with
  | _, Panic _ | ReqWrite _, Err (EInternal _) => true
  | _, _ => false
  end.

Lemma machine_local t node request (s s' : SqlState E) response : request ≠ ReqStatus →
  local_client t node request s = (response, s') → ends_node request response = false →
  machine_execute t request {| m_state := s; m_pending := []; m_last := applied_index s |}
  = (Ok response, {| m_state := s'; m_pending := []; m_last := applied_index s' |}).
Proof.
  intros Hreq. destruct request as [c|c|]; [| |done]; cbn; intros Hl Hf.
  - injection Hl as <- <-. by destruct (state_read c s) as [|[]|].
  - unfold next_entry in Hl. set (e := {| index := _ |}) in *.
    pose proof (apply_counts (St:=SqlState E) e s) as Hc. cbn [apply_entry get_applied_index sql_state] in Hc.
    destruct (state_apply e s) as [r s1]. injection Hl as <- <-. cbn [fst snd] in Hc.
    destruct r as [b|[]|w]; try done; cbn; by rewrite Hc.
Qed.

(** C12. A request of the SQL engine that goes through the router and the Raft
    node of a server without peers gets the response that the state machine
    gives when it applies the command or answers the read directly, and the
    server is then settled in the state that results, unless the request ends
    the node (a panic, or a write that fails inside). *)
Theorem server_client_exact uuid t node request (s s' : SqlState E) response k (r : Router_) :
  settled t s (k + 1) r → request ≠ ReqStatus → local_client t node request s = (response, s') →
  ends_node request response = false →
  ∃ r', server_client uuid request r = (response, r') ∧ settled t s' k r'.
Proof.
  intros Hr Hreq Hl Hf. pose proof (machine_local t node request s s' response Hreq Hl Hf) as Hm.
  destruct (request_serving rand_timeout unlimited t _ [] k r (uuid r) request 0 response
      {| m_state := s'; m_pending := []; m_last := applied_index s' |} Hr Hreq) as (r1 & Hroute & Hr1 & Hsent); [apply not_elem_of_nil|exact Hm|].
  destruct (answer_next rand_timeout t _ _ [] k r1 Hr1) as (r2 & Hnode & Hr2 & Hsent2).
  exists r2. split; [|exact Hr2]. unfold server_client. erewrite M_bind_Ok by exact Hroute.
  by rewrite Hnode, Hsent2, last_snoc.
Qed.
End single.

(** ** Peers *)

(** The messages that a peer sends on a connection are received, in order. *)
Theorem peer_messages_received `{StreamLaws Envelope} (queue : list Envelope) :
  raft_receive_peer (raft_send_peer queue) = (Ok tt, queue).
Proof.
  unfold raft_receive_peer, raft_send_peer.
  assert (∀ fuel acc, (length queue < fuel)%nat →
    receive_peer fuel (queue ≫= stream_put) acc = (Ok tt, acc ++ queue)) as Hr.
  { induction queue as [|m queue IH]; intros [|fuel] acc Hf; [lia| |cbn in Hf; lia|].
    - cbn. unfold maybe_deserialize_from. by rewrite stream_end, app_nil_r.
    - change ((m :: queue) ≫= stream_put) with (stream_put m ++ (queue ≫= stream_put)). cbn [receive_peer].
      unfold maybe_deserialize_from. rewrite stream_roundtrip.
      rewrite IH by (cbn in Hf; lia). by rewrite <-(assoc_L (++)). }
  apply Hr. clear Hr. induction queue as [|m queue IH]; [cbn; lia|].
  change ((m :: queue) ≫= stream_put) with (stream_put m ++ (queue ≫= stream_put)).
  rewrite length_app. pose proof (stream_put_length m). cbn [length] in *. lia.
Qed.

(** * Examples *)

From S2P Require Import SqlSample SqlCodecs.

#[local] Instance sample_client : Client (SqlState Memory) := local_client 1 idle.
Definition first_draw (_ : nat) (a _ : N) : N := a.
Definition connected (s : Session (SqlState Memory) TransactionState)
    : DbClient (Peer (SqlState Memory) TransactionState) := {|
  reader := []; writer := []; client_txn := None;
  remote := {| peer_session := s; peer_reader := []; peer_writer := [] |} |}.
Definition sample_requests : list SqlRequest := [
  ReqExecute (name "CREATE TABLE t (id INTEGER PRIMARY KEY)");
  ReqExecute (name "INSERT INTO t VALUES (1), (0)");
  ReqExecute (name "SELECT 10 / id FROM t ORDER BY id DESC");
  ReqExecute (name "SELECT 10 / id FROM t WHERE id > 0");
  ReqListTables].

Lemma protocol_exact_witness : ∃ c',
  client_answers raft_status 1 sample_requests (connected (session fresh_state))
  = ([Ok (AnsExecute (RCreateTable (name "t"))); Ok (AnsExecute (RCreate 2));
      value_error "Can't divide by zero" [];
      Ok (AnsExecute (RQuery [{| col_name := None |}] (rows_of [Ok [Integer 10]])));
      Ok (AnsListTables [name "t"])], c').
Proof.
  destruct (protocol_exact raft_status 1 sample_requests (connected (session fresh_state)) (session fresh_state)
    (session_answers raft_status 1 sample_requests (session fresh_state)).1
    (session_answers raft_status 1 sample_requests (session fresh_state)).2) as (c' & Hrun & _).
  - split; reflexivity.
  - apply surjective_pairing.
  - vm_compute. repeat constructor.
  - exists c'. rewrite Hrun. apply (f_equal (λ x, (x, c'))). vm_compute. reflexivity.
Defined.

(** A session in a transaction, and the client that began it. *)
Definition begun_client : DbClient (Peer (SqlState Memory) TransactionState) :=
  (client_run (exchange raft_status 1) (name "BEGIN") (connected (session fresh_state))).2.
Definition begun_session : Session (SqlState Memory) TransactionState :=
  (session_execute (name "BEGIN") (session fresh_state)).2.

Lemma begun_synced : synced begun_client begun_session.
Proof. split; vm_compute; reflexivity. Qed.

Lemma txn_tracked_witness : ∃ c',
  client_run (exchange raft_status 1) (name "COMMIT") begun_client = (Ok (RCommit 1), c') ∧
  client_txn begun_client = Some (1, false) ∧ client_txn c' = None.
Proof.
  assert (session_execute (name "COMMIT") begun_session
    = (Ok (RCommit 1), (session_execute (name "COMMIT") begun_session).2)) as Hrun
    by (vm_compute; reflexivity).
  destruct (txn_tracked raft_status 1 (name "COMMIT") begun_client begun_session _ _ (raft_begins 1 idle)
    begun_synced ltac:(vm_compute; reflexivity) Hrun ltac:(reflexivity)) as (c' & Hc & _ & Ht).
  exists c'. split; [exact Hc|]. split; [vm_compute; reflexivity|].
  destruct Ht as [Ht|(_ & _ & _ & _ & e & He)]; [|discriminate He]. rewrite Ht. vm_compute. reflexivity.
Defined.

(** A Raft node that loses leadership before a commit is applied. *)
Definition aborting_client : Client (SqlState Memory) := λ request,
  match request with
  | ReqWrite c =>
      match bin_deserialize c with
      | Ok (MCommit _) => lift (Err EAbort)
      | _ => local_client 1 idle request
      end
  | _ => local_client 1 idle request
  end.

Lemma aborted_commit_not_retried_witness :
  let _ := aborting_client in
  ∃ c2, with_retry (exchange raft_status 1) first_draw
    (_ ← (_ ← client_run (exchange raft_status 1) (name "BEGIN"); mret tt);
     client_run (exchange raft_status 1) (str (text "COMMIT"))) (connected (session fresh_state))
    = (value_error "Not in a transaction" [], c2) ∧ client_txn c2 = Some (1, false).
Proof.
  intros C.
  destruct (@aborted_commit_not_retried _ _ (@raft_engine _ C _) _ _ _ _ _ _ _ _ (@raft_status _ C _) first_draw 1
    (_ ← client_run (exchange (@raft_status _ C _) 1) (name "BEGIN"); mret tt) (connected (session fresh_state))
    (client_run (exchange (@raft_status _ C _) 1) (name "BEGIN") (connected (session fresh_state))).2
    begun_session {| version := 1; read_only := false; active := ∅ |} (engine begun_session)) as (c2 & Hr & Ht).
  - vm_compute. reflexivity.
  - split; vm_compute; reflexivity.
  - vm_compute. reflexivity.
  - vm_compute. reflexivity.
  - vm_compute. reflexivity.
  - exists c2. split; [exact Hr|exact Ht].
Defined.

(** ** A server of a cluster of three *)

#[local] Instance log_payload : Bincode (N * option bytes) := countable_bincode (N * option bytes).
#[local] Instance log_index_term : Bincode (N * N) := countable_bincode (N * N).
#[local] Instance log_term_vote : Bincode (N * option N) := countable_bincode (N * option N).

Definition ten_ticks (_ : nat) : N := 10.
Definition empty_log : Log Memory := {|
  RaftLog.engine := Memory.new; last_index := 0; last_term := 0; commit_index := 0; commit_term := 0;
  sync := false |}.
(** It campaigns, wins with the vote of node 2, and answers a status request; a
    request before that is aborted. *)
Definition sample_events : list Event :=
  [EvRequest [x01] ReqStatus 7] ++ repeat EvTick 10 ++
  [EvNode; EvNode; EvPeerSend 2;
   EvPeer {| from := 2; to := 1; msg_term := 1; message := CampaignResponse true |};
   EvRequest [x02] ReqStatus 8] ++ repeat EvNode 6.

Definition sample_sent : option (list (bytes * N)) :=
  match server_new ten_ticks 1 {[2; 3]} empty_log fresh_state 0 with
  | Ok r0 =>
      match route_all ten_ticks sample_events r0 with
      | (Ok _, r) => Some (fst <$> sent r)
      | _ => None
      end
  | _ => None
  end.

Lemma router_exact_witness : ∃ r0 r,
  server_new ten_ticks 1 {[2; 3]} empty_log fresh_state 0 = Ok r0 ∧
  route_all ten_ticks sample_events r0 = (Ok tt, r) ∧ fst <$> sent r = [([x01], 7); ([x02], 8)] ∧
  (∃ r', route ten_ticks EvNode r = (Ok tt, r')) ∧ NoDup (sent_ids r).
Proof.
  assert (sample_sent = Some [([x01], 7); ([x02], 8)]) as Hs by (vm_compute; reflexivity).
  unfold sample_sent in Hs.
  destruct (server_new ten_ticks 1 {[2; 3]} empty_log fresh_state 0) as [r0| |] eqn:E0; [|discriminate Hs..].
  destruct (route_all ten_ticks sample_events r0) as [[[]| |] r] eqn:E1; [|discriminate Hs..].
  injection Hs as Hs.
  destruct (router_exact ten_ticks 1 {[2; 3]} empty_log fresh_state 0 sample_events r0 r E0) as (Hnode & _ & Hnd).
  - unfold sample_events. cbn [repeat app]. repeat (constructor; [first [exact Logic.I | cbn; set_solver]|]). constructor.
  - apply (bool_decide_unpack _). vm_compute. exact Logic.I.
  - exact E1.
  - exists r0, r. split; [reflexivity|]. split; [exact E1|]. split; [exact Hs|]. split; [exact Hnode|exact Hnd].
Defined.

(** ** A server without peers *)

#[local] Instance log_payload_laws : BincodeLaws (N * option bytes) := countable_bincode_laws _.
#[local] Instance log_index_term_laws : BincodeLaws (N * N) := countable_bincode_laws _.
#[local] Instance log_term_vote_laws : BincodeLaws (N * option N) := countable_bincode_laws _.

Lemma empty_log_rep : log_rep empty_log empty_alog.
Proof. apply empty_rep; [constructor|done]. Qed.
Lemma mutation_error b e : bin_deserialize (A:=Mutation) b = Err e → ∃ m, e = EInternal m.
Proof.
  cbn. case_match; [done|]. intros [= <-]. by eexists.
Qed.
#[local] Instance sample_state_laws : StateLaws (SqlState Memory) := sql_state_laws mutation_error.

Definition begin_request : Request := ReqWrite (bin_serialize MBegin).
Definition started : Machine (SqlState Memory) := {|
  m_state := fresh_state; m_last := 1; m_pending := [mk_entry 1 (1, None)] |}.


(** The node that has begun one transaction, and is asked to begin another. *)
Lemma server_client_exact_witness : ∃ r r' s',
  settled 1 (machine_execute 1 begin_request started).2.(m_state) 1 r ∧
  server_client ten_ticks (λ _, [x02]) begin_request r
  = (Ok (RespWrite (bin_serialize {| version := 2; read_only := false; active := {[1]} |})), r') ∧
  settled 1 s' 0 r'.
Proof.
  destruct (server_starts ten_ticks memory_takes_all 1 empty_log empty_alog fresh_state 0 2 empty_log_rep)
    as (r0 & _ & _ & Hr0); [vm_compute; discriminate..|vm_compute; reflexivity|reflexivity|].
  assert (∃ x, machine_execute 1 begin_request started = (Ok x, (machine_execute 1 begin_request started).2)) as (x & Hx)
    by (eexists; vm_compute; reflexivity).
  destruct (request_serving ten_ticks memory_takes_all 1 _ [] 1 r0 [x01] begin_request 7 x
    (machine_execute 1 begin_request started).2 Hr0) as (r1 & _ & Hr1 & _);
    [discriminate|apply not_elem_of_nil|exact Hx|].
  destruct (answer_next ten_ticks 1 _ _ [] 1 r1 Hr1) as (r2 & _ & Hr2 & _).
  set (s := (machine_execute 1 begin_request started).2.(m_state)) in *.
  assert (settled 1 s 1 r2) as Hs.
  { replace (machine_execute 1 begin_request started).2
      with {| m_state := s; m_pending := []; m_last := applied_index s |} in Hr2 by (vm_compute; reflexivity). exact Hr2. }
  destruct (server_client_exact ten_ticks memory_takes_all mutation_error (λ _, [x02]) 1 idle begin_request s
    (local_client 1 idle begin_request s).2
    (Ok (RespWrite (bin_serialize {| version := 2; read_only := false; active := {[1]} |}))) 0 r2 Hs)
    as (r3 & Hrun & Hr3).
  - discriminate.
  - vm_compute. reflexivity.
  - reflexivity.
  - exists r2, r3, (local_client 1 idle begin_request s).2. split; [exact Hs|]. split; [exact Hrun|exact Hr3].
Defined.
