(* ===== verification/Dump.v ===== *)
(** Dumps of a database for people: the formatting of keys and values
    (src/src/storage/debug.rs), and the program that prints a BitCask file
    (src/src/bin/radump.rs).

    Text is the list of its characters, and what is printed the list of its
    lines.  The class [Hex] is the hex crate. *)
From Stdlib Require Import Strings.Byte Strings.Ascii Strings.String NArith ZArith Lia Sorting.Sorted.
From stdpp Require Import base list gmap strings sorting.
From S2P Require Import Prelude BTreeMap KeyCode Engine Memory BitCask Bincode Mvcc MvccKeys SqlTypes.
From S2P Require Import SqlLexer SqlParser SqlLexSpec SqlPrint SqlDisplay.

Open Scope N_scope.

Class Hex := hex_encode : bytes → list char.
Class HexLaws `{Hex} : Prop := hex_inj : Inj (=) (=) hex_encode.

(** [char::is_control]: the control characters of Unicode. *)
Definition is_control (c : char) : bool := (c <=? 31) || ((127 <=? c) && (c <=? 159)).

Section format.
Context `{Hex, Bincode N, Bincode (gset N), Bincode (option bytes)}.

Definition format_raw (v : bytes) : list char :=
  if decide (v = []) then text "[]"
  else if utf8_valid v && forallb (λ c, negb (is_control c)) (chars v) then 34 :: chars v ++ [34]
  else text "0x" ++ hex_encode v.

Definition format_hashset (set : gset N) : list char :=
  text "{" ++ join (text ",") (show_u64 <$> merge_sort N.le (elements set)) ++ text "}".

Definition format_txn (state : TransactionState) : list char :=
  text "v" ++ show_u64 (version state) ++ text " " ++
  text (if read_only state then "read-only" else "read-write") ++ text " active=" ++
  format_hashset (active state).

(** The key, by its variant; [{:?}] where it has no byte string. *)
Definition format_key (key : Key) : list char :=
  match key with
  | NextVersion => text "NextVersion"
  | TxnActive version => text "TxnActive(" ++ show_u64 version ++ text ")"
  | TxnActiveSnapshot version => text "TxnActiveSnapshot(" ++ show_u64 version ++ text ")"
  | TxnWrite version userkey => text "TxnWrite(" ++ show_u64 version ++ text ", " ++ format_raw userkey ++ text ")"
  | Version userkey version => text "Version(" ++ format_raw userkey ++ text ", " ++ show_u64 version ++ text ")"
  | Unversioned userkey => text "Unversioned(" ++ format_raw userkey ++ text ")"
  end.

(** The value, if it is one for such a key. *)
Definition format_value (key : Key) (value : bytes) : option (list char) :=
  match key with
  | NextVersion => match bin_deserialize (A:=N) value with Ok v => Some (show_u64 v) | _ => None end
  | TxnActiveSnapshot _ =>
      match bin_deserialize (A:=gset N) value with Ok active => Some (format_hashset active) | _ => None end
  | Version _ _ =>
      match bin_deserialize (A:=option bytes) value with
      | Ok (Some v) => Some (format_raw v)
      | Ok None => Some (text "None")
      | _ => None
      end
  | TxnActive _ | TxnWrite _ _ | Unversioned _ => None
  end.

Definition format_key_value (key : bytes) (value : option bytes) : list char * option (list char) :=
  let fkey := format_raw key in
  let fvalue := format_raw <$> value in
  match decode key with
  | Ok key =>
      (format_key key,
       match value with
       | Some v => match format_value key v with Some s => Some s | None => fvalue end
       | None => fvalue
       end)
  | _ => (fkey, fvalue)
  end.

(** ** radump *)

Definition arrow : list char := [32; 8594; 32].
Definition print_line (l : list char) : M (list (list char)) unit := λ out, (Ok tt, out ++ [l]).
Definition print_pair (item : res (bytes * bytes)) : M (list (list char)) unit :=
  '(key, value) ← lift item;
  match format_key_value key (Some value) with
  | (fkey, Some fvalue) => print_line (fkey ++ arrow ++ fvalue)
  | (_, None) => lift (Err (EInternal (Msg "Unexpected missing value at key {:?}" [FBytes key])))
  end.
Definition radump (file : bytes) : M (list (list char)) unit :=
  engine ← lift (open file);
  scan ← lift (eng_scan (Unbounded, Unbounded) engine);
  for_each scan print_pair.
End format.

(** * Keys are told apart *)

Section distinct.
Context `{HexLaws}.

Lemma split_digits d d' c c' x y : Forall (λ c, is_ascii_digit c = true) d → Forall (λ c, is_ascii_digit c = true) d' →
  is_ascii_digit c = false → is_ascii_digit c' = false → d ++ c :: x = d' ++ c' :: y → d = d' ∧ x = y.
Proof.
  intros Hd. revert d'. induction Hd as [|a d Ha Hd IH]; intros d' Hd' Hc Hc'; destruct Hd' as [|b d' Hb Hd'];
    cbn; intros [= -> Heq]; try congruence; [done|].
  by destruct (IH d' Hd' Hc Hc' Heq) as [-> ->].
Qed.

Lemma show_digits n : n ≤ u64_max → Forall (λ c, is_ascii_digit c = true) (show_u64 n).
Proof. intros Hn. apply (digits_spec u64_max 20 n); [unfold u64_max in Hn; cbn; lia|done]. Qed.
Lemma show_inj n m : n ≤ u64_max → m ≤ u64_max → show_u64 n = show_u64 m → n = m.
Proof.
  intros Hn Hm Heq. assert (∀ k, k ≤ u64_max → parse_digits u64_max (show_u64 k) 0 = Ok k) as Hp.
  { intros k Hk. apply (digits_spec u64_max 20 k); [unfold u64_max in Hk; cbn; lia|done]. }
  pose proof (Hp n Hn) as H1. rewrite Heq, Hp in H1 by done. by injection H1.
Qed.

Lemma raw_inj a b : format_raw a = format_raw b → a = b.
Proof.
  unfold format_raw. repeat case_decide; subst; try done; repeat case_match; try done; intros Heq.
  - injection Heq as Heq. apply app_inj_2 in Heq as [Heq _]; [|done].
    rewrite !andb_true_iff in *. destruct_and!. rewrite <-(str_chars a), <-(str_chars b) by done. by rewrite Heq.
  - apply (app_inj_1 (text "0x")) in Heq as [_ Heq]; [|done]. by apply hex_inj.
Qed.

Lemma digit_end n x : n ≤ u64_max → ∀ m y c c', m ≤ u64_max → is_ascii_digit c = false → is_ascii_digit c' = false →
  show_u64 n ++ c :: x = show_u64 m ++ c' :: y → n = m ∧ x = y.
Proof.
  intros Hn m y c c' Hm Hc Hc' Heq.
  destruct (split_digits _ _ c c' _ _ (show_digits n Hn) (show_digits m Hm) Hc Hc' Heq) as [Hs ->].
  split; [by apply show_inj|done].
Qed.
(** The same from the end. *)
Lemma digit_start n m x y c c' : n ≤ u64_max → m ≤ u64_max → is_ascii_digit c = false → is_ascii_digit c' = false →
  x ++ c :: show_u64 n = y ++ c' :: show_u64 m → x = y ∧ n = m.
Proof.
  intros Hn Hm Hc Hc' Heq%(f_equal reverse). rewrite !reverse_app, !reverse_cons, <-!(assoc_L (++)) in Heq. cbn [app] in Heq.
  destruct (split_digits (reverse (show_u64 n)) (reverse (show_u64 m)) c c' (reverse x) (reverse y)) as [Hs Hx];
    [by apply Forall_reverse, show_digits..|done|done|done|].
  split; [by apply (inj reverse)|]. by apply show_inj, (inj reverse).
Qed.

Lemma key_shown_inj a b : key_valid a → key_valid b → format_key a = format_key b → a = b.
Proof.
  destruct a as [|v|v|v k|k v|k], b as [|w|w|w l|l w|l]; cbn [format_key key_valid mvcc_key]; intros Ha Hb Heq;
    try discriminate Heq; try done; apply app_inv_head in Heq.
  - by destruct (digit_end v [] Ha w [] 41 41 Hb eq_refl eq_refl Heq) as [-> _].
  - by destruct (digit_end v [] Ha w [] 41 41 Hb eq_refl eq_refl Heq) as [-> _].
  - destruct (digit_end v _ Ha w _ 44 44 Hb eq_refl eq_refl Heq) as [-> Hr]. injection Hr as Hr.
    apply app_inj_2 in Hr as [->%raw_inj _]; done.
  - rewrite !(assoc_L (++)) in Heq. apply app_inj_2 in Heq as [Heq _]; [|done]. rewrite <-!(assoc_L (++)) in Heq.
    change (text ", ") with ([44] ++ [32]) in Heq. rewrite <-!(assoc_L (++)) in Heq. rewrite !(assoc_L (++) _ [44]) in Heq.
    destruct (digit_start v w _ _ 32 32 Ha Hb eq_refl eq_refl Heq) as [Hk ->].
    apply app_inj_2 in Hk as [->%raw_inj _]; done.
  - apply app_inj_2 in Heq as [->%raw_inj _]; done.
Qed.

(** No key of a variant is shown as raw bytes are. *)
Lemma key_not_raw k v : format_key k ≠ format_raw v.
Proof.
  unfold format_raw. destruct k; cbn; repeat case_match; discriminate.
Qed.

Lemma shown_inj `{Bincode N, Bincode (gset N), Bincode (option bytes)} k v l w :
  (format_key_value k v).1 = (format_key_value l w).1 → k = l.
Proof.
  unfold format_key_value. pose proof (deserialize_Ok (A:=Key)) as Hd. unfold decode.
  destruct (deserialize k) as [a| |] eqn:Ha, (deserialize l) as [b| |] eqn:Hb; cbn;
    intros Heq; try (by apply raw_inj); try (by apply key_not_raw in Heq); try (by symmetry in Heq; apply key_not_raw in Heq).
  destruct (Hd k a Ha) as [Hva ->], (Hd l b Hb) as [Hvb ->]. by rewrite (key_shown_inj a b).
Qed.
End distinct.

(** * The dump of a database *)

Section dump.
Context `{HexLaws, Bincode N, Bincode (gset N), Bincode (option bytes)}.

Definition shown_key (p : bytes * bytes) : list char := (format_key_value p.1 (Some p.2)).1.
Definition shown_value (p : bytes * bytes) : list char := default [] (format_key_value p.1 (Some p.2)).2.

Lemma print_shown p out : print_pair (Ok p) out = (Ok tt, out ++ [shown_key p ++ arrow ++ shown_value p]).
Proof.
  destruct p as [k v]. unfold print_pair, shown_key, shown_value, mbind, M_bind, lift, format_key_value.
  cbn [fst snd fmap option_fmap option_map]. destruct (decode k); [|done..]. by destruct (format_value _ v).
Qed.
Lemma print_all l out : for_each (List.map Ok l) print_pair out
  = (Ok tt, out ++ ((λ p, shown_key p ++ arrow ++ shown_value p) <$> l)).
Proof.
  revert out. induction l as [|p l IH]; intros out; cbn [List.map for_each fmap list_fmap]; [by rewrite app_nil_r|].
  erewrite M_bind_Ok by apply print_shown. by rewrite IH, <-(assoc_L (++)).
Qed.

(** C36. Dumping the file of a BitCask database prints one line for every live
    key and value, in key order; keys of MVCC are shown decoded by their
    variant, and no two keys, decoded or raw, are shown alike. *)
Theorem radump_exact s : cask_inv s →
  radump (file (log s)) [] = (Ok tt, (λ p, shown_key p ++ arrow ++ shown_value p) <$> cask_view s) ∧
  NoDup (shown_key <$> cask_view s) ∧
  (∀ k v, key_valid k → shown_key (key_bytes k, v) = format_key k).
Proof.
  intros Hs. split; [|split].
  - unfold radump. erewrite M_bind_Ok by (unfold lift; by rewrite reopen_same).
    pose proof (eng_scan_law (E:=BitCask) (Unbounded, Unbounded) s Hs) as Hscan.
    assert (bt_range bytes_cmp (Unbounded, Unbounded) (eng_view s) = Ok (cask_view s)) as Hall.
    { unfold bt_range. cbn [range_valid]. f_equal. change (eng_view s) with (cask_view s).
      induction (cask_view s) as [|p l IH]; [done|]. cbn. f_equal. exact IH. }
    erewrite M_bind_Ok by (unfold lift; rewrite Hscan, Hall; reflexivity). apply print_all.
  - pose proof (eng_view_sorted (E:=BitCask) s Hs) as Hsorted. change (eng_view s) with (cask_view s) in Hsorted.
    induction Hsorted as [|p l Hl IH Hp]; cbn [fmap list_fmap]; constructor; [|done].
    intros (q & Heq & Hq)%list_elem_of_fmap. apply shown_inj in Heq.
    rewrite Forall_forall in Hp. specialize (Hp q Hq). unfold key_lt in Hp. rewrite Heq in Hp.
    by rewrite cmp_refl in Hp.
  - intros k v Hk. unfold shown_key, format_key_value, decode. cbn [fst snd]. by rewrite (deserialize_bytes_of k Hk).
Qed.
End dump.

(** * Examples *)

(** Two characters for each byte. *)
Definition hex_digit (n : N) : char := if n <? 10 then 48 + n else 87 + n.
#[local] Instance sample_hex : Hex := λ bs, bs ≫= λ b, [hex_digit (b2n b / 16); hex_digit (b2n b mod 16)].
Lemma hex_digit_inj n m : n < 16 → m < 16 → hex_digit n = hex_digit m → n = m.
Proof. unfold hex_digit. destruct (N.ltb_spec n 10), (N.ltb_spec m 10); lia. Qed.
#[local] Instance sample_hex_laws : HexLaws.
Proof.
  intros a. induction a as [|x a IH]; intros [|y b]; try done. cbn. intros [= H1 H2 Hr].
  pose proof (b2n_lt x). pose proof (b2n_lt y).
  apply hex_digit_inj in H1; [|apply N.Div0.div_lt_upper_bound; lia..].
  apply hex_digit_inj in H2; [|by apply N.mod_lt..].
  rewrite (IH b Hr), <-(n2b_b2n x), <-(n2b_b2n y). do 2 f_equal.
  rewrite (N.div_mod (b2n x) 16), (N.div_mod (b2n y) 16) by done. congruence.
Qed.

#[local] Instance dump_N : Bincode N := countable_bincode N.
#[local] Instance dump_set : Bincode (gset N) := countable_bincode (gset N).
#[local] Instance dump_value : Bincode (option bytes) := countable_bincode (option bytes).

(** A database with keys of every variant, and one that is no key of MVCC. *)
Definition dumped_entries : list (bytes * option bytes) := [
  (key_bytes NextVersion, Some (bin_serialize 3));
  (key_bytes (TxnActive 2), Some []);
  (key_bytes (TxnActiveSnapshot 2), Some (bin_serialize ({[1]} : gset N)));
  (key_bytes (TxnWrite 2 (str (text "a"))), Some []);
  (key_bytes (Version (str (text "a")) 1), Some (bin_serialize (Some (str (text "hi")))));
  (key_bytes (Version (str (text "a")) 2), Some (bin_serialize (None : option bytes)));
  (key_bytes (Unversioned [x00]), Some [xff]);
  ([xfe], Some (str (text "b")))].
Definition dumped : BitCask :=
  (for_each dumped_entries (λ '(k, v), cask_set k (default [] v)) {| log := {| file := [] |}; keydir := [] |}).2.

(** Lines with apostrophes for quotes. *)
Definition quotes (k v : string) : list char :=
  let q := fmap (λ c, if c =? 39 then 34 else c) in q (text k) ++ arrow ++ q (text v).
Definition dumped_lines : list (list char) := [
  quotes "NextVersion" "3"; quotes "TxnActive(2)" "[]"; quotes "TxnActiveSnapshot(2)" "{1}";
  quotes "TxnWrite(2, 'a')" "[]"; quotes "Version('a', 1)" "'hi'"; quotes "Version('a', 2)" "None";
  quotes "Unversioned(0x00)" "0xff"; quotes "0xfe" "'b'"].

Lemma radump_exact_witness :
  cask_inv dumped ∧ radump (file (log dumped)) [] = (Ok tt, dumped_lines) ∧
  NoDup (shown_key <$> cask_view dumped) ∧ shown_key (key_bytes (TxnActive 2), []) = text "TxnActive(2)".
Proof.
  assert (cask_inv dumped) as Hinv.
  { exists dumped_entries. split; [|vm_compute; done]. repeat (apply Forall_cons; split; [vm_compute; done|]). constructor. }
  destruct (radump_exact dumped Hinv) as (Hd & Hn & Hk). split; [exact Hinv|]. split; [|split; [exact Hn|]].
  - rewrite Hd. vm_compute. reflexivity.
  - exact (Hk (TxnActive 2) [] ltac:(vm_compute; discriminate)).
Defined.
