(* ===== verification/Rasql.v ===== *)
(** The command-line client (src/src/bin/rasql.rs): what it prints for the lines
    that are typed, and when a typed statement is complete.

    The terminal is a list of what [readline] returns; the history file is left
    out.  What is printed is a list of [Output]s: text, and errors, which are
    printed by their message.  The class [Fixed] is what the code takes from the
    formatting of floats: the text with a number of decimals.

    What the client should show is specified apart from the loop, by relations:
    [result_lines] for a result, [reply] for a line, [transcript] for the lines of
    a terminal and [shows] from the start.  The loop prints what they give. *)
From Stdlib Require Import Strings.Byte Strings.Ascii Strings.String NArith ZArith Lia Floats.SpecFloat.
From stdpp Require Import base list gmap strings sorting.
From S2P Require Import Prelude BTreeMap KeyCode Engine Memory Bincode Mvcc RaftLog RaftNode SqlTypes.
From S2P Require Import SqlExpression SqlSchema SqlKv SqlPlan SqlExec SqlExecutor SqlAst SqlLexer SqlParser.
From S2P Require Import SqlLexSpec SqlGrammar SqlPlanner SqlSession SqlDisplay SqlRaft SqlRaftSpec Server.
From S2P Require Import DbClient ServerSpec.

Open Scope N_scope.

(** * The calls of a client *)

Class Calls (C : Type) := {
  db_execute : bytes → M C ResultSet;
  db_get_table : bytes → M C Table;
  db_list_tables : M C (list bytes);
  db_status : M C ServerStatus;
  db_txn : C → option (N * bool)
}.

(** * The terminal *)

(** [Editor::readline]. *)
Inductive Readline :=
| Typed (line : list char)
| Eof
| Interrupted
| Broken (m : Prelude.message).

(** What is printed. *)
Inductive Output :=
| OPrompt (prompt : list char)
| OLine (line : list char)
| OError (e : Error).

(** [str::split_ascii_whitespace]. *)
Definition is_ascii_whitespace (c : char) : bool :=
  (c =? 32) || (c =? 9) || (c =? 10) || (c =? 12) || (c =? 13).
Fixpoint split_words (word cs : list char) : list (list char) :=
  match cs with
  | [] => if decide (word = []) then [] else [word]
  | c :: cs =>
      if is_ascii_whitespace c
      then (if decide (word = []) then [] else [word]) ++ split_words [] cs
      else split_words (word ++ [c]) cs
  end.
Definition split_ascii_whitespace (cs : list char) : list (list char) := split_words [] cs.

(** [str::trim]. *)
Definition trim `{Unicode} (cs : list char) : list char := trim_end (next_while is_whitespace cs).2.

Definition help_lines : list string := [
  "";
  "Enter a SQL statement terminated by a semicolon (;) to execute it and display the result.";
  "The following commands are also available:";
  "";
  "    !headers <on|off>  Enable or disable column headers";
  "    !help              This help message";
  "    !status            Display server status";
  "    !table [table]     Display table schema, if it exists";
  "    !tables            List tables";
  ""].

(** The order of strings. *)
Definition text_le (a b : list char) : Prop := bytes_cmp (str a) (str b) ≠ Gt.
#[local] Instance text_le_dec : RelDecision text_le.
Proof. intros a b. unfold text_le. apply _. Defined.
Definition node_logs (s : ServerStatus) : list char :=
  join (text " ") (merge_sort text_le
    ((λ '(id, index), show_u64 id ++ text ":" ++ show_u64 index) <$> map_to_list (rs_last_index (raft s)))).

(** [format_args!({:.n}, f)]. *)
Class Fixed := show_fixed : nat → f64 → list char.

Section status.
Context `{Fixed}.

Definition of_u64 (n : N) : f64 := f64_of_Z (Z.of_N n).
Definition megabytes (size : N) : list char :=
  show_fixed 3 (f64_div (f64_div (of_u64 size) (of_u64 1000)) (of_u64 1000)).
Definition garbage_percent (st : Status) : list char :=
  show_fixed 0 (if 0 <? total_disk_size st
                then f64_mul (f64_div (of_u64 (garbage_disk_size st)) (of_u64 (total_disk_size st))) (of_u64 100)
                else of_u64 0).

(** What [!status] prints. *)
Definition show_status (s : ServerStatus) : list char :=
  let storage := st_storage (mvcc s) in
  let nodes := show_u64 (N.of_nat (base.size (rs_last_index (raft s)))) in
  join [10] ((λ l, concat l) <$> [
    [];
    [text "Server:    "; show_u64 (server s); text " (leader "; show_u64 (rs_leader (raft s)); text " in term ";
     show_u64 (rs_term (raft s)); text " with "; nodes; text " nodes)"];
    [text "Raft log:  "; show_u64 (rs_commit_index (raft s)); text " committed, "; show_u64 (rs_apply_index (raft s));
     text " applied, "; megabytes (Engine.size (rs_storage (raft s))); text " MB (";
     text (Engine.name (rs_storage (raft s))); text " storage)"];
    [text "Node logs: "; node_logs s];
    [text "MVCC:      "; show_u64 (st_active_txns (mvcc s)); text " active txns, "; show_u64 (st_versions (mvcc s));
     text " versions"];
    [text "Storage:   "; show_u64 (keys storage); text " keys, "; megabytes (Engine.size storage); text " MB logical, ";
     nodes; text "x "; megabytes (total_disk_size storage); text " MB disk, "; garbage_percent storage;
     text "% garbage ("; text (Engine.name storage); text " engine)"];
    []]).
End status.

(** * The read-eval-print loop *)

Section rasql.
Context {C : Type} `{Calls C} `{Formatting, Unicode, Fixed}.

(** [RaSQL]. *)
Record RaSQL := {
  client : C;
  show_headers : bool;
  output : list Output
}.

Definition println (o : Output) : M RaSQL unit := λ r,
  (Ok tt, {| client := client r; show_headers := show_headers r; output := output r ++ [o] |}).
Definition on_client {A} (m : M C A) : M RaSQL A := λ r,
  let '(a, c) := m (client r) in
  (a, {| client := c; show_headers := show_headers r; output := output r |}).
Definition set_headers (on : bool) : M RaSQL unit := λ r,
  (Ok tt, {| client := client r; show_headers := on; output := output r |}).
Definition get_headers : M RaSQL bool := λ r, (Ok (show_headers r), r).
Definition get_txn : M RaSQL (option (N * bool)) := λ r, (Ok (db_txn (client r)), r).

Definition line (cs : list char) : M RaSQL unit := println (OLine cs).
(** A line with a number or a name. *)
Definition numbered (before : string) (n : N) (after : string) : M RaSQL unit :=
  line (text before ++ show_u64 n ++ text after).
Definition named (before : string) (n : bytes) (after : string) : M RaSQL unit :=
  line (text before ++ chars n ++ text after).

Fixpoint print_items (l : list (res Row)) : M RaSQL unit :=
  match l with
  | [] => mret tt
  | r :: l =>
      row ← lift r;
      _ ← line (join (text "|") (show_value <$> row));
      print_items l
  end.
Definition print_rows (rows : Rows) : M RaSQL unit :=
  _ ← print_items (items rows);
  match forever rows with Some e => lift (Err e) | None => mret tt end.

(** [RaSQL::execute_query]. *)
Definition print_result (rs : ResultSet) : M RaSQL unit :=
  match rs with
  | RBegin version false => numbered "Began transaction at new version " version ""
  | RBegin version true => numbered "Began read-only transaction at version " version ""
  | RCommit id => numbered "Committed transaction " id ""
  | RRollback id => numbered "Rolled back transaction " id ""
  | RCreate count => numbered "Created " count " rows"
  | RDelete count => numbered "Deleted " count " rows"
  | RUpdate count => numbered "Updated " count " rows"
  | RCreateTable name => named "Created table " name ""
  | RDropTable name true => named "Dropped table " name ""
  | RDropTable name false => named "Table " name " did not exit"
  | RExplain plan => line (show_node plan)
  | RQuery columns rows =>
      headers ← get_headers;
      _ ← (if (headers : bool)
           then line (join (text "|") ((λ c, default (text "?") (chars <$> col_name c)) <$> columns))
           else mret tt : M RaSQL unit);
      print_rows rows
  end.
Definition execute_query (query : list char) : M RaSQL unit :=
  rs ← on_client (db_execute (str query));
  print_result rs.

(** The closure [getargs] of [RaSQL::execute_command]. *)
Definition getargs (command : list char) (args : list (list char)) (n : N) : M RaSQL (list (list char)) :=
  if decide (N.of_nat (length args) = n) then mret args
  else lift (parse_error "{}: expected {} args, got {}" [FBytes (str command); FNum n; FNum (N.of_nat (length args))]).
(** [args[0]]. *)
Definition first_arg (args : list (list char)) : M RaSQL (list char) :=
  match args with v :: _ => mret v | [] => lift (Panic "index out of bounds") end.

(** [RaSQL::execute_command]. *)
Definition execute_command (input : list char) : M RaSQL unit :=
  match split_ascii_whitespace input with
  | [] => lift (parse_error "Expected command." [])
  | command :: args =>
      if decide (command = text "!headers") then
        args ← getargs command args 1;
        v ← first_arg args;
        if decide (v = text "on") then
          _ ← set_headers true;
          line (text "Headers enabled")
        else if decide (v = text "off") then
          _ ← set_headers false;
          line (text "Headers disabled")
        else lift (parse_error "Invalid value {}, expected on or off" [FBytes (str v)])
      else if decide (command = text "!help") then line (join [10] (text <$> help_lines))
      else if decide (command = text "!status") then
        status ← on_client db_status;
        line (show_status status)
      else if decide (command = text "!table") then
        args ← getargs command args 1;
        v ← first_arg args;
        table ← on_client (db_get_table (str v));
        line (show_table table)
      else if decide (command = text "!tables") then
        _ ← getargs command args 0;
        tables ← on_client db_list_tables;
        for_each tables (λ table, line (chars table))
      else lift (parse_error "Unknown command {}" [FBytes (str command)])
  end.

(** [RaSQL::execute]. *)
Definition rasql_execute (input : list char) : M RaSQL unit :=
  if decide (head input = Some (ch "!")) then execute_command input
  else if decide (input = []) then mret tt
  else execute_query input.

(** [RaSQL::prompt]. *)
Definition prompt (typed : Readline) : M RaSQL (option (list char)) :=
  txn ← get_txn;
  _ ← println (OPrompt match txn with
                       | Some (version, false) => text "radb:" ++ show_u64 version ++ text "> "
                       | Some (version, true) => text "radb@" ++ show_u64 version ++ text "> "
                       | None => text "radb> "
                       end);
  match typed with
  | Typed input => mret (Some (trim input))
  | Eof | Interrupted => mret None
  | Broken m => lift (Err (EInternal m))
  end.

(** [RaSQL::run]: an internal error ends the loop, others are printed. *)
Definition print_error (m : M RaSQL unit) : M RaSQL unit := λ r,
  match m r with
  | (Ok _, r) => (Ok tt, r)
  | (Err (EInternal m), r) => (Err (EInternal m), r)
  | (Err e, r) => println (OError e) r
  | (Panic w, r) => (Panic w, r)
  end.
Fixpoint run_loop (terminal : list Readline) : M RaSQL unit :=
  match terminal with
  | [] => _ ← prompt Eof; mret tt
  | typed :: terminal =>
      input ← prompt typed;
      match input with
      | None => mret tt
      | Some input => _ ← print_error (rasql_execute input); run_loop terminal
      end
  end.
Definition rasql_run (terminal : list Readline) : M RaSQL unit :=
  status ← on_client db_status;
  _ ← line (text "Connected to raDB node " ++ [34] ++ show_u64 (server status) ++ [34] ++
            text ". Enter !help for instructions.");
  run_loop terminal.
End rasql.
Arguments RaSQL C : clear implicits.

(** ** Complete input *)

Inductive ValidationResult := Valid | Incomplete.

Section validator.
Context `{Unicode}.

(** [InputValidator::validate]. *)
Fixpoint validate_tokens (fuel : nat) (it : Lexer) : res ValidationResult :=
  match fuel with
  | O => Panic "validate: out of fuel"
  | S fuel =>
      match lexer_next it with
      | (Some (Ok TokSemicolon), _) | (Some (Err _), _) => Ok Valid
      | (Some (Panic w), _) => Panic w
      | (Some (Ok _), it) => validate_tokens fuel it
      | (None, _) => Ok Incomplete
      end
  end.
Definition validate (input : list char) : res ValidationResult :=
  if decide (input = [] ∨ head input = Some (ch "!") ∨ input = text ";") then Ok Valid
  else validate_tokens (S (length input)) input.
End validator.

(** * What the client shows *)

(** The words of a line, between whitespace. *)
Inductive words : list char → list (list char) → Prop :=
| words_none cs : Forall (λ c, is_ascii_whitespace c = true) cs → words cs []
| words_next gap w rest ws :
    Forall (λ c, is_ascii_whitespace c = true) gap → w ≠ [] → Forall (λ c, is_ascii_whitespace c = false) w →
    (∀ c, head rest = Some c → is_ascii_whitespace c = true) → words rest ws →
    words (gap ++ w ++ rest) (w :: ws).
(** A line without the whitespace around it. *)
Definition trimmed `{Unicode} (cs input : list char) : Prop := ∃ before after, cs = before ++ input ++ after ∧
  Forall (λ c, is_whitespace c = true) before ∧ Forall (λ c, is_whitespace c = true) after ∧
  (∀ c, head input = Some c → is_whitespace c = false) ∧ (∀ c, last input = Some c → is_whitespace c = false).

Section shown.
Context `{Formatting, Unicode}.

(** The lines for a result. *)
Inductive result_lines (headers : bool) : ResultSet → list (list char) → Prop :=
| lines_begin v : result_lines headers (RBegin v false) [text "Began transaction at new version " ++ show_u64 v]
| lines_begin_read_only v :
    result_lines headers (RBegin v true) [text "Began read-only transaction at version " ++ show_u64 v]
| lines_commit v : result_lines headers (RCommit v) [text "Committed transaction " ++ show_u64 v]
| lines_rollback v : result_lines headers (RRollback v) [text "Rolled back transaction " ++ show_u64 v]
| lines_create n : result_lines headers (RCreate n) [text "Created " ++ show_u64 n ++ text " rows"]
| lines_delete n : result_lines headers (RDelete n) [text "Deleted " ++ show_u64 n ++ text " rows"]
| lines_update n : result_lines headers (RUpdate n) [text "Updated " ++ show_u64 n ++ text " rows"]
| lines_create_table n : result_lines headers (RCreateTable n) [text "Created table " ++ chars n]
| lines_dropped n : result_lines headers (RDropTable n true) [text "Dropped table " ++ chars n]
| lines_not_dropped n : result_lines headers (RDropTable n false) [text "Table " ++ chars n ++ text " did not exit"]
| lines_explain plan : result_lines headers (RExplain plan) [show_node plan]
| lines_query columns names rows title :
    Forall2 (λ c name, match col_name c with Some n => name = chars n | None => name = text "?" end) columns names →
    title = (if headers then [join (text "|") names] else []) →
    result_lines headers (RQuery columns (rows_of (Ok <$> rows)))
      (title ++ ((λ row, join (text "|") (show_value <$> row)) <$> rows)).

(** The prompt tells of the open transaction. *)
Inductive prompt_of : option (N * bool) → list char → Prop :=
| prompt_closed : prompt_of None (text "radb> ")
| prompt_open v : prompt_of (Some (v, false)) (text "radb:" ++ show_u64 v ++ text "> ")
| prompt_read_only v : prompt_of (Some (v, true)) (text "radb@" ++ show_u64 v ++ text "> ").
End shown.

(** The number of arguments that a command takes, when it is checked. *)
Definition arity : list (list char * N) := [(text "!headers", 1); (text "!table", 1); (text "!tables", 0)].
Definition commands : list (list char) := text <$> ["!headers"; "!help"; "!status"; "!table"; "!tables"].
(** A call that does not return a value ends what is done with it the same way. *)
Definition fails_as {A} (x : res A) (y : res unit) : Prop :=
  match x with Ok _ => False | Err e => y = Err e | Panic w => y = Panic w end.
Definition internal (e : Error) : Prop := ∃ m, e = EInternal m.

(** ** Transcripts *)

(** The headers flag and [p], which takes the calls, change from line to line. *)
Section transcripts.
Context {C : Type} `{Calls C} `{Formatting, Unicode, Fixed}.

(** What is printed for a line, and how it ends. *)
Inductive reply (headers : bool) (p : C) (input : list char) : list Output → res unit → bool → C → Prop :=
| reply_blank : input = [] → reply headers p input [] (Ok tt) headers p
| reply_result rs lines p' :
    input ≠ [] → head input ≠ Some (ch "!") →
    db_execute (str input) p = (Ok rs, p') → result_lines headers rs lines →
    reply headers p input (OLine <$> lines) (Ok tt) headers p'
| reply_query_fails x y p' :
    input ≠ [] → head input ≠ Some (ch "!") →
    db_execute (str input) p = (x, p') → fails_as x y →
    reply headers p input [] y headers p'
| reply_headers_on :
    head input = Some (ch "!") → words input (text <$> ["!headers"; "on"]) →
    reply headers p input [OLine (text "Headers enabled")] (Ok tt) true p
| reply_headers_off :
    head input = Some (ch "!") → words input (text <$> ["!headers"; "off"]) →
    reply headers p input [OLine (text "Headers disabled")] (Ok tt) false p
| reply_headers_invalid v :
    head input = Some (ch "!") → words input [text "!headers"; v] → v ≠ text "on" → v ≠ text "off" →
    reply headers p input []
      (Err (EParse (Msg "Invalid value {}, expected on or off" [FBytes (str v)]))) headers p
| reply_help args :
    head input = Some (ch "!") → words input (text "!help" :: args) →
    reply headers p input [OLine (join [10] (text <$> help_lines))] (Ok tt) headers p
| reply_status args status p' :
    head input = Some (ch "!") → words input (text "!status" :: args) →
    db_status p = (Ok status, p') →
    reply headers p input [OLine (show_status status)] (Ok tt) headers p'
| reply_status_fails args x y p' :
    head input = Some (ch "!") → words input (text "!status" :: args) →
    db_status p = (x, p') → fails_as x y →
    reply headers p input [] y headers p'
| reply_table name table p' :
    head input = Some (ch "!") → words input [text "!table"; name] →
    db_get_table (str name) p = (Ok table, p') →
    reply headers p input [OLine (show_table table)] (Ok tt) headers p'
| reply_table_fails name x y p' :
    head input = Some (ch "!") → words input [text "!table"; name] →
    db_get_table (str name) p = (x, p') → fails_as x y →
    reply headers p input [] y headers p'
| reply_tables tables p' :
    head input = Some (ch "!") → words input [text "!tables"] →
    db_list_tables p = (Ok tables, p') →
    reply headers p input (OLine ∘ chars <$> tables) (Ok tt) headers p'
| reply_tables_fails x y p' :
    head input = Some (ch "!") → words input [text "!tables"] →
    db_list_tables p = (x, p') → fails_as x y →
    reply headers p input [] y headers p'
| reply_arguments command args n :
    head input = Some (ch "!") → words input (command :: args) →
    (command, n) ∈ arity → N.of_nat (length args) ≠ n →
    reply headers p input []
      (Err (EParse (Msg "{}: expected {} args, got {}"
        [FBytes (str command); FNum n; FNum (N.of_nat (length args))]))) headers p
| reply_unknown command args :
    head input = Some (ch "!") → words input (command :: args) → command ∉ commands →
    reply headers p input [] (Err (EParse (Msg "Unknown command {}" [FBytes (str command)]))) headers p.

(** What is printed while lines are typed: an error is printed and the next line
    is read, unless it is an internal error. *)
Inductive transcript (headers : bool) (p : C) : list Readline → list Output → res unit → C → Prop :=
| transcript_end q : prompt_of (db_txn p) q → transcript headers p [] [OPrompt q] (Ok tt) p
| transcript_leaves q typed terminal :
    prompt_of (db_txn p) q → typed = Eof ∨ typed = Interrupted →
    transcript headers p (typed :: terminal) [OPrompt q] (Ok tt) p
| transcript_breaks q m terminal :
    prompt_of (db_txn p) q → transcript headers p (Broken m :: terminal) [OPrompt q] (Err (EInternal m)) p
| transcript_line q cs input printed headers' p' terminal rest r p'' :
    prompt_of (db_txn p) q → trimmed cs input →
    reply headers p input printed (Ok tt) headers' p' → transcript headers' p' terminal rest r p'' →
    transcript headers p (Typed cs :: terminal) (OPrompt q :: printed ++ rest) r p''
| transcript_error q cs input printed e headers' p' terminal rest r p'' :
    prompt_of (db_txn p) q → trimmed cs input →
    reply headers p input printed (Err e) headers' p' → ¬ internal e → transcript headers' p' terminal rest r p'' →
    transcript headers p (Typed cs :: terminal) (OPrompt q :: printed ++ OError e :: rest) r p''
| transcript_internal q cs input printed e headers' p' terminal :
    prompt_of (db_txn p) q → trimmed cs input →
    reply headers p input printed (Err e) headers' p' → internal e →
    transcript headers p (Typed cs :: terminal) (OPrompt q :: printed) (Err e) p'
| transcript_panic q cs input printed w headers' p' terminal :
    prompt_of (db_txn p) q → trimmed cs input →
    reply headers p input printed (Panic w) headers' p' →
    transcript headers p (Typed cs :: terminal) (OPrompt q :: printed) (Panic w) p'.

(** From the start: the client asks for the status first. *)
Inductive shows (headers : bool) (p : C) (terminal : list Readline) : list Output → res unit → C → Prop :=
| shows_connected status p' printed r p'' :
    db_status p = (Ok status, p') → transcript headers p' terminal printed r p'' →
    shows headers p terminal
      (OLine (text "Connected to raDB node " ++ [34] ++ show_u64 (server status) ++ [34] ++
              text ". Enter !help for instructions.") :: printed) r p''
| shows_nothing x y p' : db_status p = (x, p') → fails_as x y → shows headers p terminal [] y p'.
End transcripts.

(** ** Every line has a transcript, and the loop prints it *)

Lemma split_gap gap cs : Forall (λ c, is_ascii_whitespace c = true) gap → split_words [] (gap ++ cs) = split_words [] cs.
Proof. induction 1 as [|c gap Hc _ IH]; [done|]. cbn. by rewrite Hc. Qed.
Lemma split_word w w' cs : Forall (λ c, is_ascii_whitespace c = false) w' →
  split_words w (w' ++ cs) = split_words (w ++ w') cs.
Proof.
  intros Hw. revert w. induction Hw as [|c w' Hc _ IH]; intros w; [by rewrite app_nil_r|]. cbn. rewrite Hc, IH.
  by rewrite <-(assoc_L (++)).
Qed.
Lemma words_split cs ws : words cs ws → split_ascii_whitespace cs = ws.
Proof.
  unfold split_ascii_whitespace. induction 1 as [cs Hcs|gap w rest ws Hgap Hne Hw Hrest _ IH].
  - by rewrite <-(app_nil_r cs), split_gap.
  - rewrite split_gap, split_word by done. cbn [app]. destruct rest as [|c rest]; cbn in IH |- *.
    + by rewrite decide_False, <-IH.
    + rewrite (Hrest c eq_refl) in *. by rewrite decide_False, <-IH.
Qed.
Lemma words_gap c cs ws : is_ascii_whitespace c = true → words cs ws → words (c :: cs) ws.
Proof. intros Hc [cs' Hcs|gap w rest ws' Hgap]; [by constructor; constructor|]. apply (words_next (c :: gap)); auto. Qed.
Lemma split_is_words cs w : Forall (λ c, is_ascii_whitespace c = false) w → words (w ++ cs) (split_words w cs).
Proof.
  revert w. induction cs as [|c cs IH]; intros w Hw; cbn.
  - case_decide as Hne; [subst; by constructor|]. apply (words_next [] w []); [by auto..|]. by constructor.
  - destruct (is_ascii_whitespace c) eqn:Hc.
    + pose proof (words_gap c cs _ Hc (IH [] (Forall_nil_2 _))) as Hcs. case_decide as Hne; [by subst|].
      apply (words_next [] w (c :: cs)); [auto..| |done]. by intros ? [= <-].
    + replace (w ++ c :: cs) with ((w ++ [c]) ++ cs) by (by rewrite <-(assoc_L (++))). apply IH.
      rewrite Forall_app. auto.
Qed.
Lemma words_total cs : ∃ ws, words cs ws.
Proof. exists (split_words [] cs). by apply (split_is_words cs []). Qed.
(** A line that starts with an exclamation mark has a first word. *)
Lemma words_command cs : head cs = Some (ch "!") → ∃ command args, words cs (command :: args).
Proof.
  intros Hh. destruct (words_total cs) as ([|command args] & Hw); [|by exists command, args].
  inversion Hw as [? Hcs|]; subst. destruct cs; [done|]. inversion Hcs. by injection Hh as ->.
Qed.

Lemma while_all P (a r : list char) : Forall (λ c, P c = true) a → (∀ c, head r = Some c → P c = false) →
  next_while P (a ++ r) = (a, r).
Proof.
  intros Ha Hr. induction Ha as [|c a Hc _ IH]; cbn; [|by rewrite Hc, IH].
  destruct r as [|c r]; cbn; [done|]. by rewrite (Hr c eq_refl).
Qed.
Lemma while_stops P (cs : list char) c : head (next_while P cs).2 = Some c → P c = false.
Proof.
  induction cs as [|c' cs IH]; cbn; [done|]. destruct (P c') eqn:Hc'; [|by intros [= <-]].
  by destruct (next_while P cs).
Qed.
Lemma head_reverse {A} (l : list A) : head (reverse l) = last l.
Proof. by rewrite <-last_reverse, reverse_involutive. Qed.
Lemma trimmed_trim `{Unicode} cs input : trimmed cs input → trim cs = input.
Proof.
  intros (before & after & -> & Hb & Ha & Hh & Hl). unfold trim, trim_end. destruct input as [|c input].
  - cbn [app]. by rewrite <-(app_nil_r (before ++ after)), while_all by (by rewrite ?Forall_app).
  - rewrite while_all by done. cbn [snd].
    rewrite reverse_app, while_all; [apply reverse_involutive|by apply Forall_reverse|].
    intros c'. rewrite head_reverse. apply Hl.
Qed.
Lemma trimmed_total `{Unicode} cs : ∃ input, trimmed cs input.
Proof.
  destruct (next_while is_whitespace cs) as [before r] eqn:Hr. pose proof (while_stops is_whitespace cs) as Hstop.
  rewrite Hr in Hstop. apply next_while_app in Hr as [-> Hb]. cbn [snd] in Hstop.
  destruct (next_while is_whitespace (reverse r)) as [after k] eqn:Hk. pose proof (while_stops is_whitespace (reverse r)) as Hend.
  rewrite Hk in Hend. apply next_while_app in Hk as [Hk Ha]. cbn [snd] in Hend.
  apply (f_equal reverse) in Hk. rewrite reverse_involutive, reverse_app in Hk. subst r.
  exists (reverse k), before, (reverse after). split_and!; [done..|by apply Forall_reverse| |].
  - intros c Hc. apply Hstop. destruct (reverse k); [done|exact Hc].
  - intros c. rewrite last_reverse. apply Hend.
Qed.

Section prints.
Context {C : Type} `{Calls C} `{Formatting, Unicode, Fixed}.

(** The rows of a result have been received. *)
Class Collects : Prop :=
  rows_collected query p columns rows p' : db_execute query p = (Ok (RQuery columns rows), p') →
    ∃ l, rows = rows_of (Ok <$> l).

Definition printed_by (r : RaSQL C) (printed : list Output) (headers : bool) (p : C) : RaSQL C := {|
  client := p; show_headers := headers; output := output r ++ printed |}.

Lemma print_lines {A} (f : A → list char) l (r : RaSQL C) :
  for_each l (λ a, line (f a)) r = (Ok tt, printed_by r (OLine ∘ f <$> l) (show_headers r) (client r)).
Proof.
  revert r. induction l as [|a l IH]; intros [c h o]; [by cbn; unfold printed_by; cbn; rewrite app_nil_r|].
  cbn [for_each]. unfold mbind, M_bind. cbn. rewrite IH. unfold printed_by. cbn. by rewrite <-(assoc_L (++)).
Qed.
Lemma print_items_lines l : print_items (C:=C) (Ok <$> l) = for_each l (λ row, line (join (text "|") (show_value <$> row))).
Proof. induction l as [|row l IH]; [done|]. cbn. by rewrite IH. Qed.

Lemma print_result_lines rs lines (r : RaSQL C) : result_lines (show_headers r) rs lines →
  print_result rs r = (Ok tt, printed_by r (OLine <$> lines) (show_headers r) (client r)).
Proof.
  destruct r as [c h o]. cbn [show_headers]. destruct 1 as [| | | | | | | | | | |columns names rows title Hn ->];
    try (unfold print_result, numbered, named; cbn; by rewrite ?app_nil_r).
  cbn [print_result]. unfold print_rows. cbn [items forever rows_of]. rewrite print_items_lines.
  assert (names = (λ c, default (text "?") (chars <$> col_name c)) <$> columns) as ->.
  { clear -Hn. induction Hn as [|x y ? ? Hxy _ IH]; [done|]. rewrite fmap_cons, <-IH. f_equal. by destruct (col_name x). }
  unfold mbind, M_bind. cbn [get_headers show_headers]. destruct h; cbn.
  - rewrite print_lines. unfold printed_by. cbn. by rewrite <-(assoc_L (++)), <-list_fmap_compose.
  - rewrite print_lines. unfold printed_by. cbn. by rewrite <-list_fmap_compose.
Qed.

Lemma printed_nothing (r : RaSQL C) : printed_by r [] (show_headers r) (client r) = r.
Proof. destruct r. unfold printed_by. cbn. by rewrite app_nil_r. Qed.
Lemma call_fails {A} (m : M C A) (k : A → M (RaSQL C) unit) x y p' (r : RaSQL C) :
  m (client r) = (x, p') → fails_as x y → (on_client m ≫= k) r = (y, printed_by r [] (show_headers r) p').
Proof.
  intros Hm Hf. unfold mbind, M_bind, on_client, printed_by. rewrite Hm, app_nil_r. by destruct x; cbn in Hf; subst.
Qed.
Lemma call_returns {A} (m : M C A) (k : A → M (RaSQL C) unit) a p' printed (r : RaSQL C) :
  m (client r) = (Ok a, p') →
  k a (printed_by r [] (show_headers r) p') =
    (Ok tt, printed_by (printed_by r [] (show_headers r) p') printed (show_headers r) p') →
  (on_client m ≫= k) r = (Ok tt, printed_by r printed (show_headers r) p').
Proof.
  intros Hm. unfold mbind, M_bind, on_client, printed_by. cbn. rewrite Hm, app_nil_r. done.
Qed.

(** The command whose words are known. *)
Local Ltac run_command Hh Hw :=
  unfold rasql_execute; rewrite (decide_True (P:=head _ = _)) by exact Hh; unfold execute_command;
  rewrite (words_split _ _ Hw); cbn [fmap list_fmap];
  repeat first [rewrite decide_True by reflexivity | rewrite decide_False by (first [done | by vm_compute])].

Lemma reply_run input printed x headers' p' (r : RaSQL C) :
  reply (show_headers r) (client r) input printed x headers' p' →
  rasql_execute input r = (x, printed_by r printed headers' p').
Proof.
  destruct 1 as [->|rs lines p' Hne Hh Hrun Hl|x y p' Hne Hh Hrun Hf|Hh Hw|Hh Hw|v Hh Hw Hon Hoff|args Hh Hw|
    args status p' Hh Hw Hrun|args x y p' Hh Hw Hrun Hf|name table p' Hh Hw Hrun|name x y p' Hh Hw Hrun Hf|
    tables p' Hh Hw Hrun|x y p' Hh Hw Hrun Hf|command args n Hh Hw Hin Hn|command args Hh Hw Hin].
  - by rewrite printed_nothing.
  - unfold rasql_execute. rewrite !decide_False by done. eapply call_returns; [done|].
    by apply (print_result_lines rs lines (printed_by r [] (show_headers r) p')).
  - unfold rasql_execute. rewrite !decide_False by done. by eapply call_fails.
  - by run_command Hh Hw.
  - by run_command Hh Hw.
  - run_command Hh Hw. rewrite printed_nothing. unfold mbind, M_bind, getargs. rewrite decide_True by done.
    cbn [mret M_ret]. unfold first_arg. cbn [mret M_ret].
    by rewrite !decide_False.
  - by run_command Hh Hw.
  - run_command Hh Hw. by eapply call_returns.
  - run_command Hh Hw. by eapply call_fails.
  - run_command Hh Hw. by eapply (call_returns (db_get_table (str name))).
  - run_command Hh Hw. by eapply (call_fails (db_get_table (str name))).
  - run_command Hh Hw. eapply (call_returns db_list_tables); [done|].
    apply (print_lines chars tables (printed_by r [] (show_headers r) p')).
  - run_command Hh Hw. by eapply (call_fails db_list_tables).
  - unfold arity in Hin. rewrite !elem_of_cons, elem_of_nil in Hin.
    destruct Hin as [[= -> ->]|[[= -> ->]|[[= -> ->]|[]]]]; run_command Hh Hw; unfold mbind, M_bind, getargs;
      rewrite decide_False by done; by rewrite printed_nothing.
  - unfold commands in Hin. cbn [fmap list_fmap] in Hin. rewrite !not_elem_of_cons in Hin.
    destruct Hin as (? & ? & ? & ? & ? & _). run_command Hh Hw. by rewrite printed_nothing.
Qed.

Lemma result_total headers query p rs p' `{!Collects} : db_execute query p = (Ok rs, p') →
  ∃ lines, result_lines headers rs lines.
Proof.
  intros Hrs. destruct rs as [v []|v|v|n|n|n|n|n []|columns rows|plan]; try (by eexists; constructor).
  destruct (rows_collected _ _ _ _ _ Hrs) as (l & ->). eexists. eapply lines_query; [|done].
  apply (Forall2_fmap_r (λ c, default (text "?") (chars <$> col_name c))).
  apply Forall_Forall2_diag, Forall_forall. intros c _. cbn. by destruct (col_name c).
Qed.
Lemma fails_total {A} (x : res A) : (∃ a, x = Ok a) ∨ ∃ y, fails_as x y.
Proof. destruct x as [a|e|w]; [left; by exists a|right; by eexists..]. Qed.

Lemma command_reply headers p input command args : head input = Some (ch "!") → words input (command :: args) →
  ∃ printed x headers' p', reply headers p input printed x headers' p'.
Proof.
  intros Hh Hw. destruct (decide (command ∈ commands)) as [Hc|Hc]; [|do 4 eexists; by eapply reply_unknown].
  assert (∀ n, (command, n) ∈ arity → N.of_nat (length args) = n ∨
    ∃ printed x headers' p', reply headers p input printed x headers' p') as Harity.
  { intros n Hn. destruct (decide (N.of_nat (length args) = n)); [by left|right]. do 4 eexists. by eapply reply_arguments. }
  unfold commands in Hc. cbn [fmap list_fmap] in Hc. rewrite !elem_of_cons, elem_of_nil in Hc. destruct Hc as [->|[->|[->|[->|[->|[]]]]]].
  - destruct (Harity 1) as [Hn|]; [apply list_elem_of_here| |done]. destruct args as [|v [|]]; [done| |cbn in Hn; lia].
    destruct (decide (v = text "on")) as [->|]; [do 4 eexists; by eapply reply_headers_on|].
    destruct (decide (v = text "off")) as [->|]; [do 4 eexists; by eapply reply_headers_off|].
    do 4 eexists; by eapply reply_headers_invalid.
  - do 4 eexists; by eapply reply_help.
  - destruct (db_status p) as [x p'] eqn:Hs. destruct (fails_total x) as [(a & ->)|(y & Hy)]; do 4 eexists;
      [by eapply reply_status|by eapply reply_status_fails].
  - destruct (Harity 1) as [Hn|]; [apply list_elem_of_further, list_elem_of_here| |done].
    destruct args as [|v [|]]; [done| |cbn in Hn; lia].
    destruct (db_get_table (str v) p) as [x p'] eqn:Hs. destruct (fails_total x) as [(a & ->)|(y & Hy)]; do 4 eexists;
      [by eapply reply_table|by eapply reply_table_fails].
  - destruct (Harity 0) as [Hn|]; [do 2 apply list_elem_of_further; apply list_elem_of_here| |done].
    destruct args; [|done]. destruct (db_list_tables p) as [x p'] eqn:Hs.
    destruct (fails_total x) as [(a & ->)|(y & Hy)]; do 4 eexists; [by eapply reply_tables|by eapply reply_tables_fails].
Qed.
Lemma reply_total `{!Collects} headers p input : ∃ printed x headers' p', reply headers p input printed x headers' p'.
Proof.
  destruct (decide (input = [])) as [->|Hne]; [do 4 eexists; by apply reply_blank|].
  destruct (decide (head input = Some (ch "!"))) as [Hh|Hh].
  - destruct (words_command input Hh) as (command & args & Hw). by eapply command_reply.
  - destruct (db_execute (str input) p) as [x p'] eqn:Hx. destruct (fails_total x) as [(rs & ->)|(y & Hy)].
    + destruct (result_total headers _ _ _ _ Hx) as (lines & Hl). do 4 eexists. by eapply reply_result.
    + do 4 eexists. by eapply reply_query_fails.
Qed.

Lemma prompt_total t : ∃ q, prompt_of t q.
Proof. destruct t as [[v []]|]; eexists; constructor. Qed.
Lemma internal_dec (e : Error) : internal e ∨ ¬ internal e.
Proof. destruct e; try (right; by intros [? [=]]). left. by eexists. Qed.
Lemma transcript_total `{!Collects} headers p terminal : ∃ printed r p', transcript headers p terminal printed r p'.
Proof.
  revert headers p. induction terminal as [|typed terminal IH]; intros headers p; destruct (prompt_total (db_txn p)) as (q & Hq);
    [do 3 eexists; by apply transcript_end|].
  destruct typed as [cs| | |m]; [|do 3 eexists; apply transcript_leaves; by auto..|do 3 eexists; by apply transcript_breaks].
  destruct (trimmed_total cs) as (input & Ht). destruct (reply_total headers p input) as (printed & x & headers' & p' & Hr).
  destruct (IH headers' p') as (rest & r & p'' & Hrest). destruct x as [[]|e|w].
  - do 3 eexists. by eapply transcript_line.
  - destruct (internal_dec e); do 3 eexists; [by eapply transcript_internal|by eapply transcript_error].
  - do 3 eexists. by eapply transcript_panic.
Qed.
Lemma shows_total `{!Collects} headers p terminal : ∃ printed r p', shows headers p terminal printed r p'.
Proof.
  destruct (db_status p) as [x p'] eqn:Hs. destruct (fails_total x) as [(status & ->)|(y & Hy)].
  - destruct (transcript_total headers p' terminal) as (printed & r & p'' & Ht). do 3 eexists. by eapply shows_connected.
  - do 3 eexists. by eapply shows_nothing.
Qed.

Lemma prompt_run q typed (r : RaSQL C) : prompt_of (db_txn (client r)) q →
  prompt typed r = (match typed with
                    | Typed cs => Ok (Some (trim cs)) | Eof | Interrupted => Ok None | Broken m => Err (EInternal m)
                    end, printed_by r [OPrompt q] (show_headers r) (client r)).
Proof.
  intros Hq. unfold prompt, mbind, M_bind. cbn. destruct Hq; by destruct typed.
Qed.
Lemma printed_twice (r : RaSQL C) l1 h1 p1 l2 h2 p2 :
  printed_by (printed_by r l1 h1 p1) l2 h2 p2 = printed_by r (l1 ++ l2) h2 p2.
Proof. unfold printed_by. cbn. by rewrite (assoc_L (++)). Qed.

(** The loop with what it has printed for a line. *)
Lemma loop_line q cs input terminal printed x headers' p' (r : RaSQL C) : prompt_of (db_txn (client r)) q → trimmed cs input →
  reply (show_headers r) (client r) input printed x headers' p' →
  run_loop (Typed cs :: terminal) r =
    (print_error (λ _, (x, printed_by r (OPrompt q :: printed) headers' p')) ≫= λ _, run_loop terminal) r.
Proof.
  intros Hq Ht Hr. cbn [run_loop]. unfold mbind at 1, M_bind at 1. rewrite (prompt_run q) by done.
  rewrite (trimmed_trim cs input) by done. unfold mbind, M_bind, print_error.
  rewrite (reply_run _ _ _ _ _ (printed_by _ _ _ _) Hr), printed_twice. done.
Qed.
Lemma transcript_run terminal printed x p' headers p (r : RaSQL C) : transcript headers p terminal printed x p' →
  show_headers r = headers → client r = p →
  ∃ headers', run_loop terminal r = (x, printed_by r printed headers' p').
Proof.
  intros Ht. revert r. induction Ht as [headers p q Hq|headers p q typed terminal Hq Ht|headers p q m terminal Hq
    |headers p q cs input printed headers' p' terminal rest x p'' Hq Ht Hr _ IH
    |headers p q cs input printed e headers' p' terminal rest x p'' Hq Ht Hr Hi _ IH
    |headers p q cs input printed e headers' p' terminal Hq Ht Hr [m ->]
    |headers p q cs input printed w headers' p' terminal Hq Ht Hr]; intros r <- <-.
  1-3: exists (show_headers r); cbn [run_loop]; unfold mbind, M_bind; rewrite (prompt_run q) by done; try done;
    by destruct Ht as [-> | ->].
  all: rewrite (loop_line q cs input terminal _ _ _ _ r Hq Ht Hr); unfold mbind, M_bind, print_error, println.
  - destruct (IH (printed_by r (OPrompt q :: printed) headers' p')) as (h & ->); [done..|]. exists h. by rewrite printed_twice.
  - destruct (IH (printed_by r (OPrompt q :: printed ++ [OError e]) headers' p')) as (h & Hrun); [done..|]. exists h.
    rewrite printed_twice in Hrun. cbn [app] in Hrun. rewrite <-(assoc_L (++)) in Hrun. cbn [app] in Hrun.
    unfold printed_by in Hrun |- *. cbn [client show_headers output] in *. rewrite <-(assoc_L (++)). cbn [app].
    destruct e; try exact Hrun. destruct Hi. by eexists.
  - by exists headers'.
  - by exists headers'.
Qed.
Lemma shows_run terminal printed x p' (r : RaSQL C) : shows (show_headers r) (client r) terminal printed x p' →
  ∃ headers', rasql_run terminal r = (x, printed_by r printed headers' p').
Proof.
  destruct 1 as [status p' printed x p'' Hs Ht|x y p' Hs Hf].
  - unfold rasql_run, mbind, M_bind, on_client. rewrite Hs. cbn.
    match goal with |- context [run_loop terminal ?r'] =>
      destruct (transcript_run _ _ _ _ _ _ r' Ht) as (h & ->); [done..|] end.
    exists h. unfold printed_by. cbn [output]. by rewrite <-(assoc_L (++)).
  - exists (show_headers r). by eapply call_fails.
Qed.
End prints.

(** * The loop over a client and over a session *)

(** Two things that take the calls of a client, related by [R]: what the loop
    does with them. *)
Section simulation.
Context {C1 C2 : Type} `{Calls C1, Calls C2} `{Formatting, Unicode, Fixed}.
Context (R : C1 → C2 → Prop).

(** A call of the first answers as the second does, unless that panics. *)
Definition agrees {A} (m1 : M C1 A) (m2 : M C2 A) : Prop := ∀ c1 c2 r c2', R c1 c2 → m2 c2 = (r, c2') →
  panics r = false → ∃ c1', m1 c1 = (r, c1') ∧ R c1' c2'.
Class CallsAgree : Prop := {
  execute_agrees query : agrees (db_execute query) (db_execute query);
  get_table_agrees table : agrees (db_get_table table) (db_get_table table);
  list_tables_agrees : agrees db_list_tables db_list_tables;
  status_agrees : agrees db_status db_status;
  txn_agrees c1 c2 : R c1 c2 → db_txn c1 = db_txn c2
}.
Context `{CallsAgree}.

Record same (r1 : RaSQL C1) (r2 : RaSQL C2) : Prop := {
  same_client : R (client r1) (client r2);
  same_headers : show_headers r1 = show_headers r2;
  same_output : output r1 = output r2
}.
Definition sim {A} (m1 : M (RaSQL C1) A) (m2 : M (RaSQL C2) A) : Prop := ∀ r1 r2 r r2', same r1 r2 →
  m2 r2 = (r, r2') → panics r = false → ∃ r1', m1 r1 = (r, r1') ∧ same r1' r2'.

Lemma sim_bind {A B} m1 m2 (k1 : A → M (RaSQL C1) B) (k2 : A → M (RaSQL C2) B) :
  sim m1 m2 → (∀ a, sim (k1 a) (k2 a)) → sim (m1 ≫= k1) (m2 ≫= k2).
Proof.
  intros Hm Hk r1 r2 r r2' Hr. unfold mbind, M_bind.
  destruct (m2 r2) as [[a|e|w] r3] eqn:Hm2; [|by intros [= <- <-]; intros Hp;
    destruct (Hm r1 r2 _ _ Hr Hm2 Hp) as (r1' & -> & Hr'); exists r1'..].
  intros Hk2 Hp. destruct (Hm r1 r2 _ _ Hr Hm2 eq_refl) as (r1' & -> & Hr'). by eapply Hk.
Qed.
Lemma sim_ret {A} (a : A) : sim (mret a) (mret a).
Proof. intros r1 r2 r r2' Hr [= <- <-] _. by exists r1. Qed.
Lemma sim_lift {A} (x : res A) : sim (lift x) (lift x).
Proof. intros r1 r2 r r2' Hr [= <- <-] _. by exists r1. Qed.
Lemma sim_println o : sim (println o) (println o).
Proof. intros r1 r2 r r2' [] [= <- <-] _. eexists. split; [done|]. split; cbn; congruence. Qed.
Lemma sim_set_headers b : sim (set_headers b) (set_headers b).
Proof. intros r1 r2 r r2' [] [= <- <-] _. eexists. by split. Qed.
Lemma sim_get_headers : sim get_headers get_headers.
Proof. intros r1 r2 r r2' Hr [= <- <-] _. exists r1. split; [|done]. unfold get_headers. by rewrite (same_headers _ _ Hr). Qed.
Lemma sim_get_txn : sim get_txn get_txn.
Proof.
  intros r1 r2 r r2' Hr [= <- <-] _. exists r1. split; [|done]. unfold get_txn. by rewrite (txn_agrees _ _ (same_client _ _ Hr)).
Qed.
Lemma sim_on_client {A} (m1 : M C1 A) (m2 : M C2 A) : agrees m1 m2 → sim (on_client m1) (on_client m2).
Proof.
  intros Hm r1 r2 r r2' [Hc Hh Ho]. unfold on_client. destruct (m2 (client r2)) as [a c2] eqn:Hm2. intros [= <- <-] Hp.
  destruct (Hm _ _ _ _ Hc Hm2 Hp) as (c1 & -> & Hc1). eexists. by split.
Qed.
Lemma sim_print_error m1 m2 : sim m1 m2 → sim (print_error m1) (print_error m2).
Proof.
  intros Hm r1 r2 r r2' Hr. unfold print_error. destruct (m2 r2) as [x r3] eqn:Hm2.
  destruct (panics x) eqn:Hx; [destruct x; [done..|by intros [= <- _]]|].
  destruct (Hm _ _ _ _ Hr Hm2 Hx) as (r1' & -> & Hr').
  destruct x as [|[]|]; try done; try (by intros [= <- <-] _; exists r1'); apply sim_println, Hr'.
Qed.
End simulation.

Create HintDb rasql.
#[export] Hint Resolve sim_ret sim_lift sim_println sim_set_headers sim_get_headers sim_get_txn sim_on_client
  execute_agrees get_table_agrees list_tables_agrees status_agrees : rasql.
Ltac sim_tac := repeat match goal with
  | |- sim _ (_ ≫= _) (_ ≫= _) => apply sim_bind; [|intros ?]
  | |- sim _ (match ?x with _ => _ end) _ => destruct x
  | _ => progress eauto with rasql
  end.

Section agreement.
Context {C1 C2 : Type} `{Calls C1, Calls C2} `{Formatting, Unicode, Fixed}.
Context (R : C1 → C2 → Prop) `{!CallsAgree R}.

Lemma sim_for_each {A} (l : list A) f1 f2 : (∀ a, sim R (f1 a) (f2 a)) → sim R (for_each l f1) (for_each l f2).
Proof. intros Hf. induction l as [|a l IH]; cbn [for_each]; sim_tac. Qed.
Lemma sim_print_items l : sim R (print_items l) (print_items l).
Proof. induction l as [|r l IH]; cbn [print_items]; unfold line; sim_tac. Qed.
Lemma sim_print_result rs : sim R (print_result rs) (print_result rs).
Proof.
  pose proof sim_print_items. destruct rs; cbn [print_result]; unfold numbered, named, line, print_rows; sim_tac.
Qed.
Lemma sim_command input : sim R (execute_command input) (execute_command input).
Proof.
  unfold execute_command, getargs, first_arg, line. pose proof @sim_for_each. sim_tac.
Qed.
Lemma sim_execute input : sim R (rasql_execute input) (rasql_execute input).
Proof.
  pose proof sim_command. pose proof sim_print_result. unfold rasql_execute, execute_query. sim_tac.
Qed.
Lemma sim_prompt typed : sim R (prompt typed) (prompt typed).
Proof. unfold prompt. sim_tac. Qed.
Lemma sim_loop terminal : sim R (run_loop terminal) (run_loop terminal).
Proof.
  pose proof sim_prompt. pose proof (λ i, sim_print_error R _ _ (sim_execute i)).
  induction terminal as [|typed terminal IH]; cbn [run_loop]; sim_tac.
Qed.
Lemma sim_run terminal : sim R (rasql_run terminal) (rasql_run terminal).
Proof. pose proof (sim_loop terminal). unfold rasql_run, line. sim_tac. Qed.
End agreement.

(** ** A client that is connected to a session *)

Section connected.
Context {S H : Type} `{SqlEngine S H} `{Libm, Regex, Formatting, Unicode, Fixed}.
Context `{StreamLaws SqlRequest, StreamLaws (res SqlResponse)}.
Context (engine_status : M S (RaftStatus * MvccStatus)) (id : N).

Abbreviation DbClient_ := (DbClient (Peer S H)).
Abbreviation exchange_ := (exchange engine_status id).

#[local] Instance client_calls : Calls DbClient_ := {
  db_execute := client_run exchange_;
  db_get_table := client_get_table exchange_;
  db_list_tables := client_list_tables exchange_;
  db_status := client_server_status exchange_;
  db_txn := client_txn
}.

(** The same calls answered by a session, without a connection; with the
    transaction that its answers tell of. *)
Definition Told : Type := Session S H * option (N * bool).
Definition ask {A} (request : SqlRequest) (get : SqlResponse → option A) : M Told A := λ '(s, t),
  let '(r, s) := handle engine_status id request s in
  (a ← answer_of r; match get a with Some x => Ok x | None => Panic "another answer" end, (s, t)).
#[local] Instance session_calls : Calls Told := {
  db_execute query := λ '(s, t),
    let '(r, s) := session_execute query s in (received r, (s, tracked (received r) t));
  db_get_table table := ask (ReqGetTable table) (λ a, match a with AnsGetTable t => Some t | _ => None end);
  db_list_tables := ask ReqListTables (λ a, match a with AnsListTables l => Some l | _ => None end);
  db_status := ask ReqServerStatus (λ a, match a with AnsStatus s => Some s | _ => None end);
  db_txn := snd
}.

Definition linked (c : DbClient_) (p : Told) : Prop := synced c p.1 ∧ client_txn c = p.2.

Lemma call_keeps_txn request (c : DbClient_) : client_txn (call exchange_ request c).2 = client_txn c.
Proof.
  unfold call, mbind, M_bind, on_writer, flush, on_reader.
  destruct (serialize_into request (writer c)) as [[] ?]; [|done..]. cbn [writer remote client_txn reader].
  destruct (exchange_ _ _) as [bs w]. cbn [reader client_txn]. by destruct (deserialize_from _) as [[] ?].
Qed.

(** A result that does not panic, nor do its rows up to the first error. *)
Lemma collected_completes (r : res ResultSet) : panics (received r) = false → completes r.
Proof.
  destruct r as [[]|e|w]; try done. unfold completes, received, all_rows. cbn.
  generalize (forever rows). induction (items rows) as [|x l IH]; intros o; cbn; [by destruct o|].
  destruct x; cbn; try done. intros Hp. apply IH. revert Hp. by destruct (collect l); cbn; [destruct o|..].
Qed.

Lemma ask_agrees {A} request (get : SqlResponse → option A) (m : M DbClient_ A) (make : A → SqlResponse) :
  (∀ c, client_txn (m c).2 = client_txn c) → (∀ a, get (make a) = Some a) →
  client_answer engine_status id request = (a ← m; mret (make a)) →
  (∀ query, request ≠ ReqExecute query) → agrees linked m (ask request get).
Proof.
  intros Htxn Hget Hm Hreq c [s t] r [s' t'] [Hc Ht] Ha Hp. unfold ask in Ha.
  destruct (handle engine_status id request s) as [x s1] eqn:Hh. injection Ha as <- <- <-.
  assert (answered x) as Hx.
  { unfold answered. destruct x as [a|e|w]; [|done..]. destruct a as [rs| | | |]; try done. destruct request; [by destruct (Hreq query)|..].
    all: revert Hh; unfold handle, mbind, M_bind;
      (destruct (with_txn_read_only _ s) as [[] ?]; done) || (destruct (on_engine _ s) as [[[]| |] ?]; done). }
  destruct (request_exact engine_status id request c s x s1 Hc Hh Hx) as (c' & Hrun & Hc').
  rewrite Hm in Hrun. unfold mbind, M_bind in Hrun. exists c'. specialize (Htxn c). cbn in Ht.
  destruct (m c) as [[a|e|w] c1]; injection Hrun as Hans <-; rewrite <-Hans; cbn in Htxn |- *;
    rewrite ?Hget; (split; [done|]); (split; [done|]); cbn; congruence.
Qed.

#[local] Instance connected_agrees : CallsAgree linked.
Proof.
  split.
  - intros query c [s t] r [s' t'] [Hc Ht] Hs Hp. cbn in *. destruct (session_execute query s) as [x s1] eqn:Hx.
    injection Hs as <- <- <-. destruct (run_exact engine_status id query c s x s1 Hc Hx) as (c' & Hrun & Hc' & Ht');
      [by apply collected_completes|]. exists c'. split; [done|]. split; [done|]. by rewrite Ht', Ht.
  - intros table. eapply (ask_agrees (ReqGetTable table) _ _ AnsGetTable); [|done..]. intros c. cbn.
    unfold client_get_table, mbind, M_bind. rewrite <-(call_keeps_txn (ReqGetTable table) c).
    by destruct (call _ _ c) as [[[]| |] ?].
  - eapply (ask_agrees ReqListTables _ _ AnsListTables); [|done..]. intros c. cbn.
    unfold client_list_tables, mbind, M_bind. rewrite <-(call_keeps_txn ReqListTables c).
    by destruct (call _ _ c) as [[[]| |] ?].
  - eapply (ask_agrees ReqServerStatus _ _ AnsStatus); [|done..]. intros c. cbn.
    unfold client_server_status, mbind, M_bind. rewrite <-(call_keeps_txn ReqServerStatus c).
    by destruct (call _ _ c) as [[[]| |] ?].
  - by intros c p [_ ?].
Qed.

#[local] Instance session_collects : Collects (C:=Told).
Proof.
  intros query [s t] columns rows [s' t'] Hs. cbn in Hs. destruct (session_execute query s) as [x s1].
  injection Hs as Hx _ _. unfold received in Hx. destruct x as [rs|e|w]; [|done..]. cbn in Hx.
  destruct rs; try done. destruct (all_rows rows0) as [l| |]; [|done..]. injection Hx as _ <-. by exists l.
Qed.

(** C13. The command-line client, connected to a session of the server, prints
    for any sequence of typed lines exactly the transcript that a declarative
    specification gives for the answers of the session: the greeting, the prompt
    that tells of the open transaction, the lines of each result (a header line
    only when headers are on, then the rows), what each command prints with its
    arguments, errors by their message, after which the next line is read, and
    an internal error, which ends the loop. Such a transcript exists for all
    lines, and unless a call of the session panics the client prints it, ends as
    it ends, and leaves nothing on the connection. *)
Theorem rasql_exact terminal c s t headers : synced c s → client_txn c = t →
  (∃ printed r p, shows headers ((s, t) : Told) terminal printed r p) ∧
  ∀ printed r p, shows headers ((s, t) : Told) terminal printed r p → panics r = false →
    ∃ r1, rasql_run terminal {| client := c; show_headers := headers; output := [] |} = (r, r1) ∧
      output r1 = printed ∧ synced (client r1) p.1 ∧ client_txn (client r1) = p.2.
Proof.
  intros Hc Ht. split; [apply shows_total|]. intros printed r p Hs Hp.
  destruct (shows_run _ _ _ _ {| client := (s, t) : Told; show_headers := headers; output := [] |} Hs) as (h & Hrun).
  destruct (sim_run linked terminal {| client := c; show_headers := headers; output := [] |}
    {| client := (s, t); show_headers := headers; output := [] |} _ _ ltac:(by split) Hrun Hp) as (r1 & Hr1 & [[Hc1 Ht1] _ Ho]).
  by exists r1.
Qed.
End connected.

(** ** The validator *)

Section complete.
Context `{UnicodeLaws}.

Definition semicolon : char := ch ";".

(** Enough fuel: what the loop over the tokens decides. *)
Lemma validate_tokens_exact fuel it : (length it < fuel)%nat → ∃ v, validate_tokens fuel it = Ok v ∧
  (v = Incomplete ↔ ∃ ts, lexes it ts ∧ TokSemicolon ∉ ts).
Proof.
  revert it. induction fuel as [|fuel IH]; intros it Hf; [lia|]. cbn [validate_tokens].
  pose proof (lexer_next_lexed it) as [_ Hl]. destruct (lexer_next it) as [o r] eqn:Ho. cbn [fst snd] in Hl.
  assert (∀ t ts, o ≠ Some (Ok t) → lexes it (t :: ts) → False) as Hno
    by (intros t ts Hn [Ht _]; rewrite Ho in Ht; by apply Hn).
  destruct o as [[t|e|w]|]; [|exists Valid|done|exists Incomplete].
  - destruct (decide (t = TokSemicolon)) as [->|Hne].
    + exists Valid. split; [done|]. split; [done|]. intros ([|t ts] & Hts & Hin); cbn [lexes] in Hts; rewrite Ho in Hts; [done|].
      destruct Hts as [[= <-] _]. set_solver.
    + destruct (IH r) as (v & Hv & Hiff); [lia|]. exists v. split; [by destruct t|]. rewrite Hiff. split.
      * intros (ts & Hts & Hin). exists (t :: ts). cbn [lexes]. rewrite Ho. split; [done|]. set_solver.
      * intros ([|t' ts] & Hts & Hin); cbn [lexes] in Hts; rewrite Ho in Hts; [done|].
        destruct Hts as [_ Hts]. exists ts. split; [done|]. set_solver.
  - split; [done|]. split; [done|]. intros ([|t ts] & Hts & _); [cbn in Hts; by rewrite Ho in Hts|by destruct (Hno t ts)].
  - split; [done|]. split; [|done]. intros _. exists []. cbn [lexes]. rewrite Ho. split; [done|apply not_elem_of_nil].
Qed.

(** A token that takes the input up to [r] without ending in a semicolon. *)
Definition stops_before it r : Prop := ∃ used, it = used ++ r ∧ last used ≠ Some semicolon.

Lemma no_semicolon used : Forall (λ c, c ≠ semicolon) used → last used ≠ Some semicolon.
Proof. intros Hu Hl. rewrite Forall_forall in Hu. by apply (Hu semicolon); [apply last_Some_elem_of|]. Qed.
Lemma stops_at_end it : last it = Some semicolon → ¬ stops_before it [].
Proof. intros Hl (used & -> & Hu). by rewrite app_nil_r in Hl. Qed.

Lemma while_no_semicolon P it cs r : next_while P it = (cs, r) → P semicolon = false → Forall (λ c, c ≠ semicolon) cs.
Proof. intros [_ Hcs]%next_while_app HP. eapply Forall_impl; [exact Hcs|]. intros c Hc ->. congruence. Qed.
Lemma if_no_semicolon P it o r : next_if_char P it = (o, r) → P semicolon = false →
  Forall (λ c, c ≠ semicolon) (option_list o).
Proof.
  destruct it as [|c it]; cbn; [by intros [= <- _]|]. destruct (P c) eqn:Hc; intros [= <- _] HP; [|done].
  apply Forall_singleton. intros ->. congruence.
Qed.

Lemma quoted_stops q it cs r : q ≠ semicolon → quoted q it = Some (cs, r) → stops_before it r.
Proof.
  intros Hq. remember (length it) as n eqn:Hn. revert it cs r Hn.
  induction n as [n IH] using lt_wf_ind. intros it cs r ->. destruct it as [|c it]; [done|].
  assert (∀ pre it' s r', c :: it = pre ++ it' → (length it' < length (c :: it))%nat → quoted q it' = Some (s, r') →
    stops_before (c :: it) r') as Hrec.
  { intros pre it' s r' Hpre Hlen Hs. destruct (IH _ Hlen it' s r' eq_refl Hs) as (used & -> & Hu). rewrite Hpre.
    destruct used as [|u used]; [|exists (pre ++ u :: used); by rewrite last_app_cons, <-(assoc_L (++))].
    apply quoted_split in Hs as [(used & Heq & Hne) _]. destruct used; [done|].
    apply (f_equal length) in Heq. rewrite !length_app in Heq. cbn in Heq. lia. }
  cbn [quoted]. destruct (c =? q) eqn:Hc.
  - apply N.eqb_eq in Hc as ->. destruct it as [|c' it]; [|destruct (c' =? q)].
    + intros [= _ <-]. exists [q]. split; [done|]. by intros [= ->].
    + intros ([s r'] & Hs & [= _ <-])%bind_Some. eapply (Hrec [q; c'] it); [done|cbn; lia|exact Hs].
    + intros [= _ <-]. exists [q]. split; [done|]. by intros [= ->].
  - intros ([s r'] & Hs & [= _ <-])%bind_Some. eapply (Hrec [c] it); [done|cbn; lia|exact Hs].
Qed.

Lemma stops_Forall used r : Forall (λ c, c ≠ semicolon) used → stops_before (used ++ r) r.
Proof. intros Hu. exists used. split; [done|by apply no_semicolon]. Qed.

Lemma number_stops it t r : scan_number it = (Some t, r) → stops_before it r.
Proof.
  unfold scan_number. destruct (next_while is_ascii_digit it) as [[|d ds] r1] eqn:Hw; [done|].
  pose proof (while_no_semicolon _ _ _ _ Hw eq_refl) as Hd. apply next_while_app in Hw as [-> _].
  unfold scan_fraction. destruct (next_if_char (λ c, c =? ch ".") r1) as [dot r2] eqn:Hdot.
  pose proof (if_no_semicolon _ _ _ _ Hdot eq_refl) as Hp. apply next_if_char_split in Hdot as ->.
  assert (∀ it1 it2 x y, scan_exponent it2 = (x, y) → Forall (λ c, c ≠ semicolon) it1 →
    stops_before ((d :: ds) ++ option_list dot ++ it1 ++ it2) y) as Hexp.
  { intros it1 it2 x y. unfold scan_exponent. destruct (next_if_char _ it2) as [e r3] eqn:He.
    pose proof (if_no_semicolon _ _ _ _ He eq_refl) as Hf. apply next_if_char_split in He as ->.
    destruct e as [e|].
    - destruct (next_if_char _ r3) as [sg r4] eqn:Hsg. pose proof (if_no_semicolon _ _ _ _ Hsg eq_refl) as Hg.
      apply next_if_char_split in Hsg as ->. destruct (next_while is_ascii_digit r4) as [es r5] eqn:Hes.
      pose proof (while_no_semicolon _ _ _ _ Hes eq_refl) as Hh. apply next_while_app in Hes as [-> _].
      intros [= _ <-] Hi. rewrite !(assoc_L (++)). apply stops_Forall. rewrite !Forall_app. done.
    - intros [= _ <-] Hi. rewrite !(assoc_L (++)). apply stops_Forall. rewrite !Forall_app. done. }
  destruct dot as [dot|].
  - destruct (next_while is_ascii_digit r2) as [fs r3] eqn:Hfs. pose proof (while_no_semicolon _ _ _ _ Hfs eq_refl) as Hf.
    apply next_while_app in Hfs as [-> _]. destruct (scan_exponent r3) as [x y] eqn:He. intros [= _ <-]. by eapply Hexp.
  - destruct (scan_exponent r2) as [x y] eqn:He. intros [= _ <-]. by eapply (Hexp []).
Qed.

Lemma word_semicolon : is_alphabetic semicolon = false ∧ is_alphanumeric semicolon = false ∧ is_whitespace semicolon = false.
Proof.
  assert (is_ascii semicolon) as Ha by done. unfold is_alphanumeric.
  by rewrite alphabetic_ascii, numeric_ascii, whitespace_ascii.
Qed.
Lemma ident_stops it t r : scan_ident it = (Some t, r) → stops_before it r.
Proof.
  destruct word_semicolon as (Hal & Han & _). unfold scan_ident.
  destruct (next_if_char is_alphabetic it) as [[c|] r1] eqn:Hc; [|done].
  pose proof (if_no_semicolon _ _ _ _ Hc Hal) as Hf. apply next_if_char_split in Hc as ->.
  destruct (next_while _ r1) as [name r2] eqn:Hw. pose proof (while_no_semicolon _ _ _ _ Hw) as Hg.
  apply next_while_app in Hw as [-> _]. intros Ht. assert (r2 = r) as -> by (destruct (from_str _); by injection Ht).
  rewrite (assoc_L (++)). apply stops_Forall. rewrite Forall_app. split; [done|]. apply Hg. by rewrite Han.
Qed.

(** A symbol is a semicolon, or stops before it. *)
Lemma symbol_stops it t r : scan_symbol it = (Some t, r) → t = TokSemicolon ∨ stops_before it r.
Proof.
  destruct it as [|c it]; [done|]. unfold scan_symbol, next_if_symbol.
  destruct (symbol c) as [u|] eqn:Hu; [|done].
  destruct (decide (c = semicolon)) as [->|Hc]; [injection Hu as <-; intros [= <- _]; by left|].
  assert (∀ o r', it = option_list o ++ r' → Forall (λ c, c ≠ semicolon) (option_list o) → stops_before (c :: it) r') as Hstop.
  { intros o r' -> Ho. change (c :: option_list o ++ r') with ((c :: option_list o) ++ r'). apply stops_Forall. by constructor. }
  assert (∀ P o r', next_if_char P it = (o, r') → P semicolon = false → stops_before (c :: it) r') as Hif.
  { intros P o r' Hn HP. eapply Hstop; [by eapply next_if_char_split|by eapply if_no_semicolon]. }
  intros Ht. right. pose proof (Hstop None it eq_refl (Forall_nil_2 _)) as Hit.
  assert (∀ P r', next_if_char P it = (None, r') → r' = it) as Hnone by (intros P r' Hn; by apply next_if_char_split in Hn).
  destruct u; try (by injection Ht as _ <-);
    repeat match type of Ht with
    | context [next_if_char ?P it] => destruct (next_if_char P it) as [[]] eqn:?
    | context [next_if_char ?P ?l] => match goal with Hn : next_if_char _ it = (None, l) |- _ => rewrite (Hnone _ _ Hn) in Ht end
    end; injection Ht as _ <-; eapply Hif; done.
Qed.

Lemma stops_skip ws it r : Forall (λ c, c ≠ semicolon) ws → stops_before it r → stops_before (ws ++ it) r.
Proof.
  intros Hws ([|u used] & -> & Hu); [by apply stops_Forall|]. exists (ws ++ u :: used).
  by rewrite last_app_cons, <-(assoc_L (++)).
Qed.
Lemma token_stops it t r : scan_token it = (Ok (Some t), r) → t = TokSemicolon ∨ stops_before it r.
Proof.
  destruct word_semicolon as (_ & _ & Hsp). unfold scan_token, consume_whitespace.
  destruct (next_while is_whitespace it) as [ws r1] eqn:Hw. pose proof (while_no_semicolon _ _ _ _ Hw Hsp) as Hws.
  apply next_while_app in Hw as [-> _]. cbn [snd].
  assert (∀ q (make : list char → Token) m, q ≠ semicolon →
    match next_if_char (λ c, c =? q) r1 with
    | (None, it) => (Ok None, it)
    | (Some _, it) => match quoted q it with Some (cs, it) => (Ok (Some (make cs)), it) | None => (Err m, []) end
    end = (Ok (Some t), r) → stops_before r1 r) as Hquoted.
  { intros q make m Hq. destruct (next_if_char _ r1) as [[c|] r2] eqn:Hc; [|done].
    pose proof (if_no_semicolon _ _ _ _ Hc) as Hf. apply next_if_char_split in Hc as ->.
    destruct (quoted q r2) as [[cs r3]|] eqn:Hs; [|done]. intros [= _ <-]. apply stops_skip; [|by eapply quoted_stops].
    apply Hf. by apply N.eqb_neq, not_eq_sym. }
  destruct (peek_char r1) as [c|]; [|done].
  destruct (c =? ch "'"); [|destruct (c =? 34); [|destruct (is_ascii_digit c); [|destruct (is_alphabetic c)]]].
  - intros Ht. right. apply stops_skip; [done|]. by eapply (Hquoted (ch "'") (λ s, TokString (str s))).
  - intros Ht. right. apply stops_skip; [done|]. by eapply (Hquoted 34 (λ s, TokIdent (str s))).
  - destruct (scan_number r1) as [o r2] eqn:Hn. intros [= -> ->]. right. apply stops_skip; [done|]. by eapply number_stops.
  - destruct (scan_ident r1) as [o r2] eqn:Hn. intros [= -> ->]. right. apply stops_skip; [done|]. by eapply ident_stops.
  - destruct (scan_symbol r1) as [o r2] eqn:Hn. intros [= -> ->].
    destruct (symbol_stops _ _ _ Hn) as [->|Hs]; [by left|right]. by apply stops_skip.
Qed.

Lemma none_taken it r : scan_token it = (Ok None, r) → r = consume_whitespace it.
Proof.
  unfold scan_token. generalize (consume_whitespace it). intros [|c it']; [by intros [= <-]|]. cbn [peek_char head].
  unfold scan_string, scan_ident_quoted, scan_number, scan_ident, scan_symbol. cbn [next_if_char next_while next_if_symbol].
  repeat case_match; simplify_eq; try done; by intros [= <-].
Qed.

(** What is left of an input that ends in a semicolon still does, until it is
    read. *)
Lemma next_semicolon cs : ∃ o r, lexer_next (cs ++ [semicolon]) = (Some o, r) ∧
  (o = Ok TokSemicolon ∨ (∃ e, o = Err e) ∨ ∃ t cs', o = Ok t ∧ r = cs' ++ [semicolon]).
Proof.
  destruct word_semicolon as (_ & _ & Hsp). set (it := cs ++ [semicolon]).
  assert (last it = Some semicolon) as Hlast by (unfold it; by rewrite last_snoc).
  destruct (scan_token it) as [o r] eqn:Ho. unfold lexer_next. rewrite Ho.
  pose proof (scan_token_scanned it) as [[used Hused] Hs]. rewrite Ho in Hused, Hs. cbn [fst snd] in *.
  destruct o as [[t|]|e|w]; [| |eexists _, _; split; [done|]; by right; left; eexists|done].
  - eexists _, _. split; [done|]. destruct (token_stops it t r Ho) as [->|Hstop]; [by left|]. right; right. exists t.
    destruct r as [|c r _] using rev_ind; [by destruct (stops_at_end it Hlast)|]. exists r. split; [done|].
    rewrite Hused, (assoc_L (++)), last_snoc in Hlast. by injection Hlast as ->.
  - destruct r as [|c r]; [|eexists _, _; split; [done|]; by right; left; eexists].
    destruct (stops_at_end it Hlast). pose proof (none_taken _ _ Ho) as Hr. unfold consume_whitespace in Hr.
    destruct (next_while is_whitespace it) as [ws r1] eqn:Hw. pose proof (while_no_semicolon _ _ _ _ Hw Hsp) as Hws.
    apply next_while_app in Hw as [-> _]. cbn [snd] in Hr. subst r1. by apply stops_Forall.
Qed.

Lemma validate_semicolon fuel cs : (length cs < fuel)%nat → panics (validate_tokens fuel (cs ++ [semicolon])) = false →
  validate_tokens fuel (cs ++ [semicolon]) = Ok Valid.
Proof.
  revert cs. induction fuel as [|fuel IH]; intros cs Hf; [done|]. cbn [validate_tokens].
  pose proof (lexer_next_lexed (cs ++ [semicolon])) as [_ Hl].
  destruct (next_semicolon cs) as (o & r & Ho & Hcases). rewrite Ho in *. cbn [fst snd] in Hl.
  destruct Hcases as [->|[(e & ->)|(t & cs' & -> & ->)]]; [done..|].
  rewrite !length_app in Hl. destruct Hl as [Hl _]. cbn in Hl. destruct t; try done; apply IH; lia.
Qed.

(** C35. The input validator of the command-line client decides every input: it
    waits for more exactly when the input is not empty or a command and the
    lexer reads it to the end without a semicolon token or an error; an input
    that ends with a semicolon is always accepted. *)
Theorem validate_exact cs : (∃ v, validate cs = Ok v) ∧
  (validate cs = Ok Incomplete ↔ cs ≠ [] ∧ head cs ≠ Some (ch "!") ∧ ∃ ts, lexes cs ts ∧ TokSemicolon ∉ ts) ∧
  validate (cs ++ [semicolon]) = Ok Valid.
Proof.
  assert (∀ it, ∃ v, validate it = Ok v) as Htotal.
  { intros it. unfold validate. case_decide; [by eexists|].
    destruct (validate_tokens_exact (S (length it)) it) as (v & Hv & _); [lia|]. by exists v. }
  split; [done|]. split.
  - unfold validate. case_decide as Hd.
    + split; [done|]. intros (H1 & H2 & ts & Hts & Hin). destruct Hd as [?|[?| ->]]; [done..|].
      destruct (validate_tokens_exact 2 [semicolon]) as (v & Hv & Hiff); [cbn; lia|].
      rewrite (proj2 Hiff) in Hv by (by exists ts).
      assert (validate_tokens 2 [semicolon] = Ok Valid) as Hs; [|by rewrite Hs in Hv].
      apply (validate_semicolon 2 []); [cbn; lia|]. cbn [app]. by rewrite Hv.
    + destruct (validate_tokens_exact (S (length cs)) cs) as (v & -> & Hiff); [lia|]. split.
      * intros [= ->]. destruct (proj1 Hiff eq_refl) as (ts & ?). split_and!; [naive_solver..|by exists ts].
      * intros (_ & _ & Hts). by rewrite (proj2 Hiff Hts).
  - destruct (Htotal (cs ++ [semicolon])) as (v & Hv). revert Hv. unfold validate. case_decide; [done|].
    intros Hv. apply validate_semicolon; [rewrite length_app; lia|by rewrite Hv].
Qed.
End complete.

(** * Examples *)

From S2P Require Import SqlSample SqlCodecs.

#[local] Instance plain_formatting : Formatting := {|
  is_word c := ascii_upper c || ascii_lower c || is_ascii_digit c || (c =? ch "_");
  show_f64 _ := text "?"
|}.
(** No decimals; floats that stand for integers. *)
#[local] Instance plain_fixed : Fixed := λ _ f,
  match f with
  | S754_finite false m e => show_u64 (N.shiftl (Npos m) (Z.to_N e) / 2 ^ Z.to_N (- e))
  | _ => text "0"
  end.
#[local] Instance local_raft : Client (SqlState Memory) := local_client 1 idle.

Definition on_line (s : Session (SqlState Memory) TransactionState)
    : DbClient (Peer (SqlState Memory) TransactionState) := {|
  reader := []; writer := []; client_txn := None;
  remote := {| peer_session := s; peer_reader := []; peer_writer := [] |} |}.

Definition typed_lines : list Readline := Typed ∘ text <$> [
  "!headers on"; "CREATE TABLE t (id INTEGER PRIMARY KEY, name STRING);"; "BEGIN;";
  "INSERT INTO t VALUES (1, 'a'), (2, NULL);"; "  SELECT id, name FROM t ORDER BY id DESC;  "; "SELECT 1 / 0;";
  "COMMIT;"; "!tables"; "!table t"; "!table"; "!status"].
Definition shown_lines : list Output :=
  let p := OPrompt (text "radb> ") in
  let q := OPrompt (text "radb:2> ") in
  let l s := OLine (text s) in
  [OLine (text "Connected to raDB node " ++ [34] ++ text "1" ++ [34] ++ text ". Enter !help for instructions.");
   p; l "Headers enabled"; p; l "Created table t"; p; l "Began transaction at new version 2";
   q; l "Created 2 rows"; q; l "id|name"; l "2|NULL"; l "1|a";
   q; OError (EValue (Msg "Can't divide by zero" []));
   q; l "Committed transaction 2"; p; l "t";
   p; OLine (join [10] (text <$> ["CREATE TABLE t ("; "  id INTEGER PRIMARY KEY,"; "  name STRING DEFAULT NULL"; ")"]));
   p; OError (EParse (Msg "{}: expected {} args, got {}" [FBytes (str (text "!table")); FNum 1; FNum 0]));
   p; OLine (join [10] (text <$> ["";
        "Server:    1 (leader 1 in term 1 with 0 nodes)";
        "Raft log:  0 committed, 0 applied, 0 MB (memory storage)";
        "Node logs: ";
        "MVCC:      0 active txns, 2 versions";
        "Storage:   5 keys, 0 MB logical, 0x 0 MB disk, 0% garbage (memory engine)";
        ""]));
   p].

(** The lines have a transcript over the session, and the client prints it. *)
Lemma rasql_exact_witness :
  let _ := session_calls (S:=SqlState Memory) raft_status 1 in
  let start : Told (S:=SqlState Memory) (H:=TransactionState) := (session fresh_state, None) in
  (∃ p, shows false start typed_lines shown_lines (Ok tt) p) ∧
  let _ := client_calls (S:=SqlState Memory) raft_status 1 in ∃ r,
  rasql_run typed_lines {| client := on_line (session fresh_state); show_headers := false; output := [] |} = (Ok tt, r) ∧
  output r = shown_lines.
Proof.
  intros calls start.
  destruct (rasql_exact (S:=SqlState Memory) raft_status 1 typed_lines (on_line (session fresh_state))
    (session fresh_state) None false) as [(printed & r & p & Hs) Hall]; [split; reflexivity|reflexivity|].
  pose (r0 := {| client := start; show_headers := false; output := [] |}).
  destruct (shows_run typed_lines printed r p r0 Hs) as (h & Hrun).
  assert (r = Ok tt) as ->.
  { apply (f_equal fst) in Hrun. cbn [fst] in Hrun. rewrite <-Hrun. vm_compute. reflexivity. }
  assert (printed = shown_lines) as ->.
  { apply (f_equal (λ x, output x.2)) in Hrun. unfold printed_by in Hrun. cbn [snd output r0 app] in Hrun.
    rewrite <-Hrun. vm_compute. reflexivity. }
  split; [exists p; exact Hs|]. destruct (Hall _ _ _ Hs eq_refl) as (r1 & Hr1 & Ho & _). exists r1. split; [exact Hr1|exact Ho].
Defined.

(** A semicolon in a string does not end a statement. *)
Lemma validate_exact_witness :
  let _ := ascii_unicode in
  validate (text "SELECT 'a;b'") = Ok Incomplete ∧
  (∃ ts, lexes (text "SELECT 'a;b'") ts ∧ TokSemicolon ∉ ts) ∧
  validate (text "SELECT 'a;b'" ++ [semicolon]) = Ok Valid ∧
  validate (text "SELECT 'a" ++ [semicolon]) = Ok Valid.
Proof.
  intros U. destruct (@validate_exact U ascii_unicode_laws (text "SELECT 'a;b'")) as (_ & [Hinc _] & Hsemi).
  split; [vm_compute; reflexivity|]. split; [|split].
  - apply Hinc. vm_compute. reflexivity.
  - exact Hsemi.
  - apply (@validate_exact U ascii_unicode_laws (text "SELECT 'a")).
Defined.
