(* ===== verification/Workload.v ===== *)
(** The workloads of the benchmark program (src/src/bin/workload.rs): the items
    that they generate, the queries that they send for them, and what they check.

    Random draws are sequences that the definitions take: [alnum] is what the
    n-th draw of an alphanumeric character yields, and the numbers that the
    generators draw are lists.  The names of customers come from the petname
    crate.  A workload is written against the class [Calls]. *)
From Stdlib Require Import Strings.Byte Strings.Ascii Strings.String NArith ZArith Lia.
From stdpp Require Import base list gmap strings.
From S2P Require Import Prelude BTreeMap KeyCode Engine Memory Bincode Mvcc RaftNode SqlTypes.
From S2P Require Import SqlExpression SqlSchema SqlKv SqlExec SqlAst SqlLexer SqlParser SqlLexSpec SqlGrammar.
From S2P Require Import SqlPrint SqlStatementPrint SqlParserClaims SqlSession SqlDisplay SqlRaft SqlRaftSpec.
From S2P Require Import Server DbClient ServerSpec Rasql.

Open Scope N_scope.

(** The numbers from [start], as many as [n]. *)
Definition numbers (start n : N) : list N := (λ i, start + N.of_nat i) <$> List.seq 0 (N.to_nat n).

(** [Itertools::chunks]. *)
Fixpoint chunks {A} (fuel n : nat) (l : list A) : list (list A) :=
  match fuel, l with
  | S fuel, _ :: _ => take n l :: chunks fuel n (drop n l)
  | _, _ => []
  end.

Definition in_quotes (s : string) : list char := [34] ++ text s ++ [34].

(** [as u64] of an integer. *)
Definition as_u64 (i : Z) : N := Z.to_N (i mod 2 ^ 64).

Section workloads.
Context {C : Type} `{Calls C}.
Context (alnum : nat → char).

Definition send_query (q : list char) : M C ResultSet := db_execute (str q).
Definition send_command (q : list char) : M C unit := _ ← send_query q; mret tt.
Definition assert_eq {A} `{EqDecision A} (a b : A) (why : string) : M C unit :=
  if decide (a = b) then mret tt else lift (Panic why).
(** [Iterator::count]. *)
Definition count_rows (rows : Rows) : res N :=
  match forever rows with
  | Some _ => Panic "count does not return"
  | None => Ok (N.of_nat (length (items rows)))
  end.
Definition query_integer (q : list char) : M C Z :=
  rs ← send_query q;
  v ← lift (into_value rs);
  lift (integer v).

(** The characters of a value, from the n-th draw on. *)
Definition random_value (drawn : nat) (size : N) : list char := alnum <$> List.seq drawn (N.to_nat size).

(** * Read *)

Record ReadLoad := { rd_rows : N; rd_size : N; rd_batch : N }.

Definition read_row (w : ReadLoad) (id : N) : N * list char :=
  (id, random_value (N.to_nat ((id - 1) * rd_size w)) (rd_size w)).
Definition read_insert (chunk : list (N * list char)) : list char :=
  text "INSERT INTO " ++ in_quotes "read" ++ text " (id, value) VALUES (" ++
  join (text "), (") ((λ '(id, value), show_u64 id ++ text ", '" ++ value ++ text "'") <$> chunk) ++ text ")".
Definition read_prepare (w : ReadLoad) : M C unit :=
  _ ← send_command (text "BEGIN");
  _ ← send_command (text "DROP TABLE IF EXISTS " ++ in_quotes "read");
  _ ← send_command (text "CREATE TABLE " ++ in_quotes "read" ++ text " (id INT PRIMARY KEY, value STRING NOT NULL)");
  let rows := read_row w <$> numbers 1 (rd_rows w) in
  _ ← for_each (chunks (length rows) 100 rows) (λ chunk, send_command (read_insert chunk));
  send_command (text "COMMIT").

(** [Read::generate]: the range of [Uniform::new], which panics on an empty one. *)
Definition read_generate (w : ReadLoad) : res (N * N) :=
  high ← add_u64 (rd_rows w) 1;
  if 1 <? high then Ok (1, high) else Panic "Uniform::new called with low >= high".

(** [ReadGenerator::next]: [None] when the draws end. *)
Fixpoint read_next (batch : N) (draws : list N) (ids : gset N) : option (gset N * list N) :=
  match draws with
  | [] => None
  | id :: draws =>
      let ids := {[id]} ∪ ids in
      if batch <=? N.of_nat (base.size ids) then Some (ids, draws) else read_next batch draws ids
  end.

(** The ids of an item, in the order of its iterator. *)
Definition read_query (ids : list N) : list char :=
  text "SELECT * FROM " ++ in_quotes "read" ++ text " WHERE " ++
  join (text " OR ") ((λ id, text "id = " ++ show_u64 id) <$> ids).
Definition read_execute (ids : list N) : M C unit :=
  rs ← send_query (read_query ids);
  rows ← lift (into_rows rs);
  count ← lift (count_rows rows);
  assert_eq count (N.of_nat (length ids)) "Unexpected row count".
Definition read_verify (w : ReadLoad) : M C unit :=
  count ← query_integer (text "SELECT COUNT(*) FROM " ++ in_quotes "read");
  assert_eq (as_u64 count) (rd_rows w) "Unexpected row count".

(** * Write *)

Record WriteLoad := { wr_size : N; wr_batch : N }.
Record WriteGenerator := { next_id : N; drawn : nat }.

Definition write_prepare : M C unit :=
  _ ← send_command (text "BEGIN");
  _ ← send_command (text "DROP TABLE IF EXISTS " ++ in_quotes "write");
  _ ← send_command (text "CREATE TABLE " ++ in_quotes "write" ++ text " (id INT PRIMARY KEY, value STRING NOT NULL)");
  send_command (text "COMMIT").
Definition write_generate : WriteGenerator := {| next_id := 1; drawn := 0 |}.

(** The loop of [WriteGenerator::next], with the number of rows that are left. *)
Fixpoint write_rows (more : nat) (size : N) (rows : list (N * list char)) (g : WriteGenerator)
    : res (list (N * list char) * WriteGenerator) :=
  match more with
  | O => Ok (rows, g)
  | S more =>
      let row := (next_id g, random_value (drawn g) size) in
      next ← add_u64 (next_id g) 1;
      write_rows more size (rows ++ [row]) {| next_id := next; drawn := drawn g + N.to_nat size |}
  end.
Definition write_next (w : WriteLoad) (g : WriteGenerator) : res (list (N * list char) * WriteGenerator) :=
  write_rows (N.to_nat (wr_batch w)) (wr_size w) [] g.

Definition write_row (row : N * list char) : list char :=
  text "(" ++ show_u64 row.1 ++ text ", '" ++ row.2 ++ text "')".
Definition write_query (item : list (N * list char)) : list char :=
  text "INSERT INTO " ++ in_quotes "write" ++ text " (id, value) VALUES " ++ join (text ", ") (write_row <$> item).
Definition write_execute (item : list (N * list char)) : M C unit :=
  rs ← send_query (write_query item);
  match rs with
  | RCreate count => assert_eq count (N.of_nat (length item)) "Unexpected row count"
  | _ => lift (Panic "Unexpected result")
  end.
Definition write_verify (w : WriteLoad) (txns : N) : M C unit :=
  count ← query_integer (text "SELECT COUNT(*) FROM " ++ in_quotes "write");
  rows ← lift (checked_u64 (txns * wr_batch w));
  assert_eq (as_u64 count) rows "Unexpected row count".

(** * Bank *)

Record BankLoad := { bk_customers : N; bk_accounts : N; bk_balance : N; bk_max_transfer : N }.

(** Lines with the indentation of the source. *)
Definition indented (n : nat) (lines : list (list char)) : list char := join (10 :: repeat 32 n) lines.
Definition tuple (l : list (list char)) : list char := text "(" ++ join (text ", ") l ++ text ")".

Definition bank_account (w : BankLoad) (c a : N) : res (N * N) :=
  first ← checked_u64 ((c - 1) * bk_accounts w);
  id ← add_u64 first a;
  Ok (c, id).
Definition bank_accounts (w : BankLoad) : res (list (N * N)) :=
  collect (numbers 1 (bk_customers w) ≫= λ c, bank_account w c <$> numbers 1 (bk_accounts w)).
Definition bank_prepare (w : BankLoad) (petname : N → list char) : M C unit :=
  _ ← send_command (text "BEGIN");
  _ ← send_command (text "DROP TABLE IF EXISTS account");
  _ ← send_command (text "DROP TABLE IF EXISTS customer");
  _ ← send_command (text "CREATE TABLE customer ("
        ++ indented 20 [[]; text "id INTEGER PRIMARY KEY,"; text "name STRING NOT NULL"]
        ++ indented 16 [[]; text ")"]);
  _ ← send_command (text "CREATE TABLE account ("
        ++ indented 20 [[]; text "id INTEGER PRIMARY KEY,";
                        text "customer_id INTEGER NOT NULL INDEX REFERENCES customer,";
                        text "balance INTEGER NOT NULL"]
        ++ indented 16 [[]; text ")"]);
  _ ← send_command (text "INSERT INTO customer VALUES " ++ join (text ", ")
        ((λ id, tuple [show_u64 id; text "'" ++ petname id ++ text "'"]) <$> numbers 1 (bk_customers w)));
  accounts ← lift (bank_accounts w);
  _ ← send_command (text "INSERT INTO account VALUES " ++ join (text ", ")
        ((λ '(c, a), tuple [show_u64 a; show_u64 c; show_u64 (bk_balance w)]) <$> accounts));
  send_command (text "COMMIT").

(** [Bank::generate]: the next transfer, from drawn triples; a remainder by zero
    panics. *)
Definition remainder (a b : N) : res N :=
  if decide (b = 0) then Panic "attempt to calculate the remainder with a divisor of zero" else Ok (a mod b).
Definition transfer (w : BankLoad) (draw : N * N * N) : res (N * N * N) :=
  let '(a, b, c) := draw in
  from ← remainder a (bk_customers w);
  to ← remainder b (bk_customers w);
  amount ← remainder c (bk_max_transfer w);
  Ok (from + 1, to + 1, amount + 1).
Fixpoint bank_next (w : BankLoad) (draws : list (N * N * N)) : res (option (N * N * N * list (N * N * N))) :=
  match draws with
  | [] => Ok None
  | draw :: draws =>
      '(from, to, amount) ← transfer w draw;
      if decide (from = to) then bank_next w draws else Ok (Some (from, to, amount, draws))
  end.

Definition account_query (customer : N) (order : string) : list char :=
  indented 24 [text "SELECT a.id, a.balance"; text "FROM account a JOIN customer c ON a.customer_id = c.id";
               text "WHERE c.id = " ++ show_u64 customer; text "ORDER BY a.balance " ++ text order; text "LIMIT 1"].
Definition balance_update (sign : string) (amount : N) (account : Z) : list char :=
  text "UPDATE account SET balance = balance " ++ text sign ++ text " " ++ show_u64 amount ++
  text " WHERE id = " ++ show_i64 account.
(** [row.pop().unwrap().integer()?]. *)
Definition pop_integer (row : Row) : res (Row * Z) :=
  match reverse row with
  | [] => Panic "called `Option::unwrap()` on a `None` value"
  | v :: rest => i ← integer v; Ok (reverse rest, i)
  end.
Definition bank_execute (item : N * N * N) : M C unit :=
  let '(from, to, amount) := item in
  _ ← send_command (text "BEGIN");
  rs ← send_query (account_query from "DESC");
  row ← lift (into_row rs);
  '(row, from_balance) ← lift (pop_integer row);
  '(row, from_account) ← lift (pop_integer row);
  let amount := N.min amount (as_u64 from_balance) in
  to_account ← query_integer (account_query to "ASC");
  _ ← send_command (balance_update "-" amount from_account);
  _ ← send_command (balance_update "+" amount to_account);
  send_command (text "COMMIT").
Definition bank_verify (w : BankLoad) : M C unit :=
  balance ← query_integer (text "SELECT SUM(balance) FROM account");
  accounts ← lift (checked_u64 (bk_customers w * bk_accounts w));
  total ← lift (checked_u64 (accounts * bk_balance w));
  _ ← assert_eq (as_u64 balance) total "assertion failed";
  negative ← query_integer (text "SELECT COUNT(*) FROM account WHERE balance < 0");
  assert_eq negative 0%Z "assertion failed".
End workloads.

(** * What is generated *)

Section generated.
Context (alnum : nat → char).

(** A batch has the next ids, in order. *)
Lemma write_rows_exact more size rows g : next_id g + N.of_nat more ≤ u64_max → ∃ new,
  write_rows alnum more size rows g
  = Ok (rows ++ new, {| next_id := next_id g + N.of_nat more; drawn := drawn g + more * N.to_nat size |}) ∧
  new.*1 = numbers (next_id g) (N.of_nat more) ∧ ∀ id v, (id, v) ∈ new → ∃ k, v = random_value alnum k size.
Proof.
  revert rows g. induction more as [|more IH]; intros rows g Hg; cbn [write_rows].
  - exists []. rewrite app_nil_r. destruct g as [i d]. cbn. split_and!; [|done|by intros ? ? ?%not_elem_of_nil].
    do 3 f_equal; lia.
  - unfold add_u64. rewrite decide_True by lia. cbn [mbind res_bind].
    destruct (IH (rows ++ [(next_id g, random_value alnum (drawn g) size)])
      {| next_id := next_id g + 1; drawn := drawn g + N.to_nat size |}) as (new & -> & Hids & Hval); [cbn; lia|].
    exists ((next_id g, random_value alnum (drawn g) size) :: new). cbn [next_id drawn] in *. split_and!.
    + rewrite <-(assoc_L (++)). cbn. do 3 f_equal; lia.
    + rewrite fmap_cons, Hids. unfold numbers. rewrite !Nat2N.id. cbn [List.seq fmap list_fmap fst].
      f_equal; [lia|]. rewrite <-seq_shift, <-list_fmap_compose. apply list_fmap_ext. intros j x _. cbn. lia.
    + intros id v [[= -> ->]|Hin]%elem_of_cons; [by eexists|by eapply Hval].
Qed.

(** A batch of reads: distinct ids that were drawn, as many as asked for; it is
    found if there are as many. *)
Lemma read_next_exact batch draws ids0 : N.of_nat (base.size ids0) < batch →
  match read_next batch draws ids0 with
  | Some (ids, rest) => N.of_nat (base.size ids) = batch ∧ ∃ used, draws = used ++ rest ∧ ids = list_to_set used ∪ ids0
  | None => N.of_nat (base.size (list_to_set draws ∪ ids0)) < batch
  end.
Proof.
  revert ids0. induction draws as [|id draws IH]; intros ids0 Hs; cbn [read_next].
  { by replace (list_to_set [] ∪ ids0) with ids0 by set_solver. }
  destruct (N.leb_spec batch (N.of_nat (base.size ({[id]} ∪ ids0)))) as [Hle|Hlt].
  - split; [|exists [id]; split; [done|set_solver]].
    assert (base.size ({[id]} ∪ ids0) ≤ S (base.size ids0))%nat; [|lia].
    rewrite size_union_alt, size_singleton. assert (base.size (ids0 ∖ {[id]}) ≤ base.size ids0)%nat by (apply subseteq_size; set_solver). lia.
  - specialize (IH _ Hlt). destruct (read_next batch draws _) as [[ids rest]|].
    + destruct IH as (Hids & used & -> & ->). split; [done|]. exists (id :: used). split; [done|set_solver].
    + by replace (list_to_set (id :: draws) ∪ ids0) with (list_to_set draws ∪ ({[id]} ∪ ids0)) by set_solver.
Qed.

(** A transfer is between two customers, of an amount within the limit. *)
Lemma bank_next_exact w draws : bk_customers w ≠ 0 → bk_max_transfer w ≠ 0 →
  match bank_next w draws with
  | Ok (Some (from, to, amount, _)) => from ≠ to ∧ 1 ≤ from ≤ bk_customers w ∧ 1 ≤ to ≤ bk_customers w ∧
      1 ≤ amount ≤ bk_max_transfer w
  | Ok None => True
  | _ => False
  end.
Proof.
  intros Hc Hm. induction draws as [|[[a b] c] draws IH]; [done|]. cbn [bank_next transfer].
  unfold remainder. rewrite !decide_False by done. cbn [mbind res_bind].
  pose proof (N.mod_lt a _ Hc). pose proof (N.mod_lt b _ Hc). pose proof (N.mod_lt c _ Hm).
  case_decide; [exact IH|]. split_and!; done || apply N.le_add_l || lia.
Qed.
End generated.

(** * Queries *)

Section queries.
Context `{UnicodeLaws}.

Definition plain (c : char) : bool := ascii_upper c || ascii_lower c || is_ascii_digit c.

Lemma lexes_open it us : lexes it us → lexes (40 :: it) (TokOpenParen :: us).
Proof. intros Hus. cbn [lexes]. unfold lexer_next. rewrite scan_at by done. by split; [reflexivity|]. Qed.
Lemma lexes_close it us : lexes it us → lexes (41 :: it) (TokCloseParen :: us).
Proof. intros Hus. cbn [lexes]. unfold lexer_next. rewrite scan_at by done. by split; [reflexivity|]. Qed.

Lemma plain_scalar cs : forallb plain cs = true → Forall scalar cs.
Proof.
  rewrite forallb_forall, Forall_forall. intros Hcs c Hc%list_elem_of_In%Hcs. left.
  unfold plain, ascii_upper, ascii_lower, is_ascii_digit in Hc.
  rewrite !orb_true_iff, !andb_true_iff, !N.leb_le in Hc. lia.
Qed.
Lemma plain_double cs : forallb plain cs = true → double 39 cs = cs.
Proof.
  unfold double. induction cs as [|c cs IH]; [done|]. cbn [forallb]. intros [Hc Hcs]%andb_true_iff.
  rewrite bind_cons, IH by done. by destruct (N.eqb_spec c 39) as [->|].
Qed.
Lemma string_reads cs : forallb plain cs = true → reads_as (39 :: cs ++ [39]) [TokString (str cs)].
Proof.
  intros Hcs. pose proof (reads_printed (TokString (str cs))) as Hr. cbn [print_token token_text] in Hr.
  rewrite chars_str, plain_double in Hr by (done || by apply plain_scalar). apply Hr. apply str_valid. by apply plain_scalar.
Qed.

(** The values of a row, and of a batch. *)
Definition row_values (row : N * list char) : list AstExpression :=
  [ALiteral (LInteger (Z.of_N row.1)); ALiteral (LString (str row.2))].
Definition row_ok (row : N * list char) : bool := (Z.of_N row.1 <=? i64_max)%Z && forallb plain row.2.

Lemma row_read row : row_ok row = true → ∃ ts, print_row (row_values row) = Some ts ∧
  ∀ it us, lexes it us →
    lexes (write_row row ++ it) (ts ++ us).
Proof.
  destruct row as [id v]. unfold row_ok. intros [Hid%Z.leb_le Hv]%andb_true_iff. cbn [fst snd] in *.
  unfold i64_max in Hid. exists [TokOpenParen; TokNumber (str (digits 20 id)); TokComma; TokString (str v); TokCloseParen].
  split.
  - unfold print_row, row_values. cbn [print_list commas fst snd]. cbn [print print_literal].
    rewrite (proj2 (Z.leb_le 0 (Z.of_N id))) by lia. rewrite (proj2 (Z.leb_le _ i64_max)) by (unfold i64_max; lia).
    rewrite N2Z.id. cbn. by rewrite str_valid by (by apply plain_scalar).
  - intros it us Hus. unfold write_row. rewrite <-!(assoc_L (++)). cbn [fst snd]. change (lexes (40 :: show_u64 id ++ 44 :: 32 :: 39 :: v ++ [39; 41] ++ it)
      (TokOpenParen :: [TokNumber (str (digits 20 id))] ++ TokComma :: [TokString (str v)] ++ TokCloseParen :: us)).
    apply lexes_open, (digits_read id); [lia|by right; right; left|]. apply lexes_comma, lexes_space.
    replace (39 :: v ++ [39; 41] ++ it) with ((39 :: v ++ [39]) ++ 41 :: it) by (cbn; by rewrite <-(assoc_L (++))).
    apply (string_reads v Hv); [by right; right; right|]. by apply lexes_close.
Qed.

Lemma batch_read row rows : forallb row_ok (row :: rows) = true → ∃ ts,
  commas print_row (row_values row) (row_values <$> rows) = Some ts ∧
  lexes (join (text ", ") (write_row <$> row :: rows)) ts.
Proof.
  revert row. induction rows as [|row' rows IH]; intros row; cbn [forallb]; intros [Hr Hrs]%andb_true_iff;
    destruct (row_read row Hr) as (ts & Hts & Hl).
  - exists ts. split; [done|]. specialize (Hl [] [] eq_refl). by rewrite !app_nil_r in Hl.
  - destruct (IH row' Hrs) as (us & Hus & Hl'). exists (ts ++ TokComma :: us). rewrite !fmap_cons. cbn [commas].
    rewrite Hts, Hus. split; [done|]. rewrite fmap_cons in Hl'. cbn [join]. apply Hl. by apply lexes_comma, lexes_space.
Qed.

Lemma text_scalar s : Forall scalar (text s).
Proof.
  unfold text. apply Forall_fmap, Forall_forall. intros c _. cbn. left. unfold ch.
  pose proof (N_ascii_bounded c). lia.
Qed.
Lemma join_scalar sep l : Forall scalar sep → Forall (Forall scalar) l → Forall scalar (join sep l).
Proof.
  intros Hsep Hl. induction Hl as [|s l Hs Hl IH]; [constructor|]. destruct l as [|s' l]; [done|].
  change (join sep (s :: s' :: l)) with (s ++ sep ++ join sep (s' :: l)). by repeat (apply Forall_app; split).
Qed.
Lemma show_scalar n : (Z.of_N n <= i64_max)%Z → Forall scalar (show_u64 n).
Proof.
  intros Hn. assert (n < 10 ^ 19) as Hlt; [unfold i64_max in Hn; lia|]. exact (ra_scalar _ _ (digits_read n Hlt)).
Qed.
Lemma write_scalar item : forallb row_ok item = true → Forall scalar (write_query item).
Proof.
  intros Hitem. pose proof text_scalar as Ht. unfold write_query, in_quotes.
  rewrite !Forall_app. assert (Forall scalar [34]) as Hq by (by repeat constructor; left).
  split_and!; [apply Ht|exact Hq|apply Ht|exact Hq|apply Ht|]. apply join_scalar; [apply Ht|]. apply Forall_fmap, Forall_forall. intros row Hin%list_elem_of_In.
  rewrite forallb_forall in Hitem. specialize (Hitem row Hin). apply andb_true_iff in Hitem as [Hid%Z.leb_le Hv].
  change (Forall scalar (write_row row)). unfold write_row.
  rewrite !Forall_app. split_and!; [apply Ht|by apply show_scalar|apply Ht|by apply plain_scalar|apply Ht].
Qed.

(** A word of lower-case letters that is no keyword. *)
Lemma lower_reads cs : cs ≠ [] → forallb ascii_lower cs = true → from_str cs = None → reads_as cs [TokIdent (str cs)].
Proof.
  intros Hne Hcs Hk. assert (∀ c, c ∈ cs → is_ascii c ∧ ascii_lower c = true ∧ ascii_upper c = false) as Hc.
  { intros c Hin%list_elem_of_In. rewrite forallb_forall in Hcs. specialize (Hcs c Hin).
    unfold ascii_lower, ascii_upper, is_ascii in *. rewrite andb_true_iff, !N.leb_le in Hcs.
    rewrite andb_true_iff, andb_false_iff, !N.leb_le, !N.leb_gt. lia. }
  assert (Forall is_ascii cs) as Ha by (apply Forall_forall; intros c Hin; by apply Hc).
  assert (Forall scalar cs) as Hs by (eapply Forall_impl; [exact Ha|]; unfold is_ascii, scalar; lia).
  pose proof (bare_reads (str cs)) as Hb. rewrite chars_str in Hb by done. apply Hb; [by apply str_valid|].
  unfold reads_bare. rewrite chars_str by done. destruct cs as [|c cs]; [done|].
  rewrite Hk, lowercase_ascii by done. assert (lower <$> c :: cs = c :: cs) as Hlow.
  { rewrite <-(list_fmap_id (c :: cs)) at 2. apply list_fmap_ext. intros i x Hx%list_elem_of_lookup_2.
    unfold lower. by destruct (Hc x Hx) as (_ & _ & ->). }
  rewrite Hlow, bool_decide_true by done. destruct (Hc c) as (Hca & Hcl & _); [apply list_elem_of_here|].
  rewrite alphabetic_ascii, Hcl, orb_true_r by done. cbn [andb is_none]. rewrite andb_true_r.
  rewrite andb_true_r. apply forallb_forall. intros x Hx%list_elem_of_In.
  destruct (Hc x) as (Hxa & Hxl & _); [by apply list_elem_of_further|]. unfold is_alphanumeric.
  by rewrite alphabetic_ascii, Hxl, orb_true_r.
Qed.
Lemma id_reads : reads_as (text "id") [TokIdent (str (text "id"))].
Proof. apply lower_reads; [done..|]. unfold from_str. by rewrite uppercase_ascii by (by repeat constructor). Qed.
Lemma value_reads : reads_as (text "value") [TokIdent (str (text "value"))].
Proof. apply lower_reads; [done..|]. unfold from_str. by rewrite uppercase_ascii by (by repeat constructor). Qed.

(** The statement of a batch. *)
Definition write_statement (item : list (N * list char)) : Statement :=
  SInsert (str (text "write")) (Some [str (text "id"); str (text "value")]) (row_values <$> item).

Lemma write_query_read item : item ≠ [] → forallb row_ok item = true →
  parse (str (write_query item)) = Ok (write_statement item).
Proof.
  intros Hne Hitem. pose proof (write_scalar item Hitem) as Hs. destruct item as [|row rows]; [done|].
  destruct (batch_read row rows Hitem) as (ts & Hts & Hl).
  apply (parse_tokens _ _ ([KW KwInsert] ++ [KW KwInto] ++ [TokIdent (str (text "write"))] ++
    TokOpenParen :: [TokIdent (str (text "id"))] ++ TokComma :: [TokIdent (str (text "value"))] ++
    TokCloseParen :: [KW KwValues] ++ ts)); [by apply str_valid|rewrite chars_str by done|].
  - unfold write_query, in_quotes. generalize dependent (join (text ", ") (write_row <$> row :: rows)). intros rest Hl.
    change (lexes (text (to_str KwInsert) ++ 32 :: text (to_str KwInto) ++ 32 ::
      print_token (TokIdent (str (text "write"))) ++ 32 :: 40 ::
      text "id" ++ 44 :: 32 :: text "value" ++ 41 :: 32 :: text (to_str KwValues) ++ 32 :: rest)
      ([KW KwInsert] ++ [KW KwInto] ++ [TokIdent (str (text "write"))] ++ TokOpenParen :: [TokIdent (str (text "id"))] ++
       TokComma :: [TokIdent (str (text "value"))] ++ TokCloseParen :: [KW KwValues] ++ ts)).
    apply (reads_keyword KwInsert); [by left|]. apply lexes_space.
    apply (reads_keyword KwInto); [by left|]. apply lexes_space.
    apply (reads_printed (TokIdent (str (text "write")))); [done|by left|]. apply lexes_space, lexes_open.
    apply id_reads; [by right; right; left|]. apply lexes_comma, lexes_space.
    apply value_reads; [by right; right; right|]. apply lexes_close, lexes_space.
    apply (reads_keyword KwValues); [by left|]. by apply lexes_space.
  - cbn [print_statement write_statement print_plain print_list print_option fmap list_fmap]. rewrite Hts. reflexivity.
Qed.

(** C37. For a batch size that is not zero, and as long as the ids fit 64 bits,
    the write workload generates batches with the next ids in order and values
    of the asked size, and the query that it sends for a batch is parsed as the
    INSERT of exactly its rows. *)
Theorem write_batch_exact alnum w g : (∀ n, plain (alnum n) = true) → wr_batch w ≠ 0 →
  (Z.of_N (next_id g + wr_batch w) <= i64_max)%Z →
  ∃ item g', write_next alnum w g = Ok (item, g') ∧
    item.*1 = numbers (next_id g) (wr_batch w) ∧ next_id g' = next_id g + wr_batch w ∧
    Forall (λ row, N.of_nat (length row.2) = wr_size w) item ∧
    parse (str (write_query item)) = Ok (write_statement item).
Proof.
  intros Ha Hb Hmax. destruct (write_rows_exact alnum (N.to_nat (wr_batch w)) (wr_size w) [] g) as (item & Hn & Hids & Hval).
  { unfold i64_max in Hmax. unfold u64_max. lia. }
  rewrite N2Nat.id in *. exists item. eexists. split; [exact Hn|]. split; [exact Hids|]. split; [done|]. split.
  - apply Forall_forall. intros [id v] Hin. destruct (Hval id v Hin) as (k & ->). cbn. unfold random_value.
    rewrite length_fmap, length_seq. lia.
  - apply write_query_read.
    + intros ->. apply (f_equal length) in Hids. unfold numbers in Hids. rewrite !length_fmap, length_seq in Hids. cbn in Hids. lia.
    + apply forallb_forall. intros [id v] Hin%list_elem_of_In. unfold row_ok. cbn [fst snd]. apply andb_true_iff. split.
      * assert (id ∈ item.*1) as Hid by (apply list_elem_of_fmap; by exists (id, v)). rewrite Hids in Hid.
        unfold numbers in Hid. apply list_elem_of_fmap in Hid as (j & -> & Hj%elem_of_seq). apply Z.leb_le. lia.
      * destruct (Hval id v Hin) as (k & ->). apply forallb_forall. intros c Hc%list_elem_of_In.
        unfold random_value in Hc. by apply list_elem_of_fmap in Hc as (j & -> & _).
Qed.
End queries.

(** * Examples *)

From S2P Require Import SqlSample SqlCodecs.

(** Letters in turn. *)
Definition letters (n : nat) : char := 97 + N.of_nat (n mod 26).

Lemma letters_plain n : plain (letters n) = true.
Proof.
  unfold letters, plain, ascii_lower. assert (n mod 26 < 26)%nat by (by apply Nat.mod_upper_bound).
  rewrite (proj2 (N.leb_le 97 _)), (proj2 (N.leb_le _ 122)) by lia. by destruct (ascii_upper _).
Qed.

Lemma write_batch_exact_witness :
  let _ := ascii_unicode in
  let w := {| wr_size := 3; wr_batch := 2 |} in
  ∃ item g', write_next letters w write_generate = Ok (item, g') ∧
    write_query item = text "INSERT INTO " ++ in_quotes "write" ++ text " (id, value) VALUES (1, 'abc'), (2, 'def')" ∧
    parse (str (write_query item)) = Ok (write_statement item).
Proof.
  intros U w. destruct (@write_batch_exact U ascii_unicode_laws letters w write_generate letters_plain)
    as (item & g' & Hn & _ & _ & _ & Hp); [vm_compute; discriminate..|].
  exists item, g'. split; [exact Hn|]. split; [|exact Hp].
  assert (write_next letters w write_generate
    = Ok ([(1, text "abc"); (2, text "def")], {| next_id := 3; drawn := 6 |})) as Hw by (vm_compute; reflexivity).
  rewrite Hn in Hw. injection Hw as -> _. vm_compute. reflexivity.
Defined.

(** Each workload, on a session of a new database: it prepares the data, runs
    some items and verifies the result. *)
#[local] Instance raft_client : Client (SqlState Memory) := local_client 1 idle.
#[local] Instance told_calls : Calls (Told (S:=SqlState Memory) (H:=TransactionState)) := session_calls raft_status 1.

Definition new_session : Told (S:=SqlState Memory) (H:=TransactionState) := (session fresh_state, None).
Definition small_bank : BankLoad := {| bk_customers := 2; bk_accounts := 2; bk_balance := 100; bk_max_transfer := 50 |}.
Definition bank_draws : list (N * N * N) := [(0, 0, 7); (2, 1, 29); (7, 4, 98); (0, 3, 49)].
Fixpoint transfers (fuel : nat) (draws : list (N * N * N)) : M (Told (S:=SqlState Memory) (H:=TransactionState)) unit :=
  match fuel with
  | O => mret tt
  | S fuel =>
      o ← lift (bank_next small_bank draws);
      match o with
      | Some (item, draws) => _ ← bank_execute item; transfers fuel draws
      | None => mret tt
      end
  end.

Lemma bank_workload_runs :
  ((_ ← bank_prepare small_bank (λ _, text "name"); _ ← transfers 4 bank_draws; bank_verify small_bank) new_session).1
  = Ok tt.
Proof. vm_compute. reflexivity. Qed.

Lemma read_workload_runs :
  let w := {| rd_rows := 5; rd_size := 2; rd_batch := 2 |} in
  ((_ ← read_prepare letters w; _ ← read_execute [4; 2]; read_verify w) new_session).1 = Ok tt.
Proof. vm_compute. reflexivity. Qed.

Lemma write_workload_runs :
  let w := {| wr_size := 3; wr_batch := 2 |} in
  ((_ ← write_prepare;
    '(item, g) ← lift (write_next letters w write_generate); _ ← write_execute item;
    '(item, g) ← lift (write_next letters w g); _ ← write_execute item;
    write_verify w 2) new_session).1 = Ok tt.
Proof. vm_compute. reflexivity. Qed.
